(* ===== verification/_CoqProject ===== *)
-Q . S2P
Prelude.v
RustStr.v
Errors.v
Paths.v
QuotaCounter.v
QuotaState.v
Service.v
QuotaLayer.v
QuotaRaces.v
ReadOnly.v
Mounts.v
OneTree.v
Points.v
Times.v
LocalFs.v
Users.v
Db.v
Retention.v
Store.v
SetVfs.v
Events.v
Logging.v
Jobs.v
Requests.v
Transfer.v
Handles.v
Snapshots.v
Backups.v
Locks.v
Startup.v
Lifetime.v
Territory.v
Tenants.v
Process.v
