(* ===== verification/Prelude.v ===== *)
(** * vaulton-ipc: a verification library

    vaulton-ipc is a server that gives users a virtual file system over several
    storage points (local directories, remote buckets, deduplicating repositories),
    runs backup jobs between them, and enforces quotas. It has two crates:
    [src/crates/opendal-vfs] (storage layers and the mount table) and
    [src/crates/ipc] (the gRPC server, its database and its policies). This library
    models the parts of both that carry its own logic and proves what makes them
    correct.

    ** How the code is modelled

    Rust's [Result] is [result], a function that mutates state and may fail is an
    [M S E A] (below): an early return keeps the effects that came before it. A [u64]
    is an [N] with its saturation, wrap-around or overflow check written out; a [str] is a
    [string] of bytes; a map is a [gmap]. Async functions are their sequential
    bodies, except where the interleaving is the point ([QuotaCounter], [QuotaRaces], [Store],
    [Events], [Jobs], [Handles]): there every atomic access, every call, or every stretch
    between two locks is a step of its own. In [Locks] the others act inside the calls.

    Code outside the repository is never defined. opendal backends and operators,
    rustic repositories, SQLite, serde_json, [uuid] and the file system are classes
    ([Service], [OperatorApi], [RusticLib], [StoreLib], [KeyLib], [JsonLib],
    [UuidLib], [FsApi], [FileApi], [TransferApi], [LocalApi], [SnapLib], [JobLib],
    [TimeLib], [Territory], [Foreign]) whose laws, where a theorem needs any, are documented behaviour
    ([ServiceLaws], [RusticLaws], [KeyLaws], [RemoveLaws], [TransferLaws], [LocalLaws],
    [SnapLaws], [DriveLaws], [TerritoryLaws], ...). [SharedLaws] is more than that: it also says
    what the others on a repository do not do meanwhile. [LocalLaws] says how an open file
    buffers what is written until it is flushed, and that clones of it share its cursor
    ([LocalView] is what is seen of it). The listener and the installation of loggers are
    arguments of [Process]. Each class has a concrete instance on which the theorems are
    evaluated.

    ** The files

    - [Prelude]: results, the state-and-error monad, triples, integers, lists.
    - [RustStr]: the methods of [str] and [std::path] the code uses.
    - [Errors]: error types of [core.rs], [utils.rs] and the crates, and how they
      become gRPC statuses ([map_dal], [map_vfs], [io_status]).
    - [Paths]: validation and normalisation of client paths ([utils.rs], [lib.rs],
      [browse.rs]).
    - [QuotaCounter]: [QuotaCounter] of [layers/quota.rs], first as sequential
      functions, then (Module [Atomics]) with every atomic load, store and
      compare-exchange as a step, and any number of tasks interleaved.
    - [QuotaState]: the quota engine ([QuotaState], trackers, lazy loading, dirty
      buckets, the background synchronisation).
    - [Service]: the storage interface the layers wrap, its laws, a simulated
      backend, and what a client does with it.
    - [QuotaLayer]: [QuotaService] with its staged writers, copiers and deleters;
      it is again a [Service].
    - [QuotaRaces]: the operations of [QuotaLayer] as tasks on one quota id, interleaved
      call by call.
    - [ReadOnly]: [ReadOnlyService], again a [Service].
    - [Mounts]: path resolution, [VfsBuilder], [MountAccess] and its listers,
      readers, writers and deleters.
    - [OneTree]: the mount table as one tree of files, whatever lies under its mounts.
    - [Points]: users, points, ids, addressing and write permission ([core.rs],
      [utils.rs]).
    - [Times]: times as protobuf timestamps.
    - [LocalFs]: [safe_join], [dir_size], [reject_symlinks_under],
      [check_local_quota].
    - [Users]: conversions from and to the wire, [normalize_vfs_users],
      [resolve_file_path].
    - [Db]: [DbManager], its opening and migration; its quota table is proved to be a
      tracker for [QuotaState].
    - [Retention]: policies, candidates, the time and space rules
      ([retention.rs]).
    - [Store]: [StorageManager]: operators, mounts, caches, and the concurrent life of a
      cached mount table.
    - [SetVfs]: the handler that replaces the configuration, with the rotation of
      repository keys.
    - [Events]: which events are critical, the bounded channel, the bridge thread and the
      poll buffer ([event_bus.rs], [GrpcServer::new], [poll]), and the coalescing of
      progress ([progress.rs]).
    - [Logging]: which log lines are written and become events ([main.rs]).
    - [Jobs]: the life of a job next to its clients: [register_job], [finish_job] access by
      access, [cancel_job], [get_job].
    - [Requests]: the handlers on one path (touch, create, remove, list, stat, exists) and
      the reports on points ([user_info]).
    - [Transfer]: [vfs_transfer] and [run_transfer] with its copies.
    - [Handles]: write handles and cached read handles, each request split at its locks.
    - [Snapshots]: listing, reading and locking the snapshots of a repository.
    - [Backups]: the requests for backups, restores, checks, forgetting and retention, and
      the jobs they start; [job_rustic] is the repository that [Retention] runs on there.
    - [Locks]: retention, forgetting and backups together, on a repository that others
      use at the same time.
    - [Startup]: from the database file to the state of the server, and the next start
      ([main.rs]).
    - [Lifetime]: the configuration over requests, crashes and restarts.
    - [Territory]: what it means that a computation keeps to some of the storage, for
      operators, for the read-only layer and for the mount table.
    - [Tenants]: the users of one server and each other's storage.
    - [Process]: the command line, loggers, listener, shutdown and exit code ([main.rs],
      [GrpcServer::shutdown]).

    ** What is shown

    - Quotas: for every interleaving of the atomic steps the counter stays within its
      limit and equals the sequential replay of its commits; the engine behaves
      as a map of totals across loads, synchronisation and restarts; stored bytes never
      exceed the counter over any backend that keeps [ServiceLaws], as long as no batch of
      deletes names a path twice and no [stat] fails on the source of a copy; writes are all
      or nothing, but for an object that a backend could not rename over. Among concurrent
      operations on paths apart the total covers every object but those about to be
      replaced, and exceeds the limit by no more than what is refunded.
    - Paths and points: client paths resolve to the deepest mount, data paths never
      leave their point, local paths never cross a symlink, and the addressing forms
      agree with each other; checked configurations identify points uniquely.
    - Read-only: no mutation passes a read-only layer or mount.
    - Mounting: requests through the mount table do to one tree of files what they say,
      whether an operation is native, emulated or crosses mounts, and a failure leaves all
      but its own paths alone.
    - Isolation: whatever anybody asked for before, and however often the users were
      replaced, one request, build or replacement after the other, a request on a path works
      on the storage of its user's points: it changes nothing else, and its answer depends
      on nothing else.
    - Retention: no run deletes a protected snapshot or the newest of a series by the
      space rule; runs are bounded, dry runs change nothing, reports are exact.
    - Configuration: the database is replaced atomically; the handler leaves
      everything alone when it fails, up to keys added to repositories, and cancels exactly
      what changed when it does not;
      no password change locks a repository out on the way; a failing point does not
      take the others down; cached mount tables are current outside two windows.
      Every user that is ever read back is as the check of the handler left it; a restart
      loses caches and jobs, but no user, and no byte of a total that was written back.
      However a process ends after it listened, no handle stays open and every job is told
      to stop, and the next one finds the users and the totals last written back (the
      shutdown writes none back); one that never listened has changed neither.
    - Events and jobs: no critical event is lost between a producer and the clients, and
      they all arrive; progress is conserved, and its events are bounded for any number of
      threads that share a bar; a client never
      loses sight of a job, and every job that ends is announced exactly once.
    - Files: a removal is verified and stays in its place; at every outcome of a transfer
      every file that is listed is complete at its old or its new place, and success has
      reported all of it; however writes through handles interleave they stay in the room
      their quota left, closed handles never write, and what was written is flushed and is
      what the next read returns. A transfer, a backup and a restore start only from the
      configuration that is stored when the request comes.
    - Repositories: locking never loses a snapshot, and a locked snapshot outlives every job
      on its repository, among any others that remove no locked one themselves; forgetting removes what was named and spares the locked ones; a
      backup that was saved is reported, whatever retention does; reads from snapshots are
      exact and from the repository that was named; jobs start only on repositories of their user, writable where they write, and
      read and write only checked places of data points.

    ** Bounds and fuel

    [Retention] runs at most [MAX_SPACE_ROUNDS] rounds, as the code does. The loops
    with fuel (directory walks in [LocalFs], the search for a free name in [Users],
    draining a lister in [Mounts], streaming a file in [Transfer]) come with theorems that
    the fuel named there is enough, so that they say what the code returns. The queues of
    [Events] are bounded as in the code, and [remaining] bounds the polls that empty them.

    ** What is not modelled

    The text of retention's messages; the conversion of a snapshot's summary, a copy field
    by field; which time a message is stamped with; the listener, TLS, the runtime and the threads
    that blocking work is moved to, the loggers' plumbing, the wait for a signal, and the
    parsing of the command line; the build script and the code it generates; the evictions,
    timeouts and wake-ups of third-party caches and timers beyond "an entry may disappear". *)

From Stdlib Require Export Ascii String.
From stdpp Require Export base gmap strings list fin_maps pretty sorting.
From Stdlib Require Export Lia NArith.
From stdpp Require Import options.

(** ** Results *)

(** Rust's [Result<A, E>]. *)
Inductive result (E A : Type) : Type :=
| Ok (a : A)
| Err (e : E).
Arguments Ok {E A} a.
Arguments Err {E A} e.

#[export] Instance result_eq_dec {E A} `{EqDecision E, EqDecision A} : EqDecision (result E A).
Proof. solve_decision. Defined.

#[export] Instance result_ret {E} : MRet (result E) := λ A a, Ok a.
#[export] Instance result_bind {E} : MBind (result E) :=
  λ A B f m, match m with Ok a => f a | Err e => Err e end.
#[export] Instance result_fmap {E} : FMap (result E) :=
  λ A B f m, match m with Ok a => Ok (f a) | Err e => Err e end.

Definition is_ok {E A} (r : result E A) : bool := match r with Ok _ => true | Err _ => false end.
Definition is_err {E A} (r : result E A) : bool := negb (is_ok r).
(** [Result::ok]. *)
Definition ok_opt {E A} (r : result E A) : option A := match r with Ok a => Some a | Err _ => None end.
(** [Result::unwrap_or]. *)
Definition unwrap_or {E A} (d : A) (r : result E A) : A := match r with Ok a => a | Err _ => d end.
(** [Result::map_err]. *)
Definition map_err {E F A} (f : E → F) (r : result E A) : result F A :=
  match r with Ok a => Ok a | Err e => Err (f e) end.
(** [Option::ok_or]. *)
Definition ok_or {E A} (e : E) (o : option A) : result E A :=
  match o with Some a => Ok a | None => Err e end.
(** [Option::unwrap_or]. *)
Definition opt_or {A} (d : A) (o : option A) : A := match o with Some a => a | None => d end.

(** ** State with errors *)

(** A computation over a mutable state [S] that may fail: the state reached
    when an error is returned is kept, as in Rust, where an early return leaves
    every earlier effect in place. *)
Definition M (S E A : Type) : Type := S → result E A * S.

#[export] Instance M_ret {S E} : MRet (M S E) := λ A a s, (Ok a, s).
#[export] Instance M_bind {S E} : MBind (M S E) :=
  λ A B f m s, match m s with (Ok a, s') => f a s' | (Err e, s') => (Err e, s') end.

Definition throw {S E A} (e : E) : M S E A := λ s, (Err e, s).
Definition gets {S E A} (f : S → A) : M S E A := λ s, (Ok (f s), s).
Definition modify {S E} (f : S → S) : M S E () := λ s, (Ok (), f s).
(** A pure [Result] inside a stateful function: the [?] operator. *)
Definition lift {S E A} (r : result E A) : M S E A := λ s, (r, s).
(** Run a computation and hand its [Result] to the caller instead of returning
    early (a [match] or [if let Err(..)] on the call). *)
Definition attempt {S E F A} (m : M S E A) : M S F (result E A) :=
  λ s, let '(r, s') := m s in (Ok r, s').
(** [let _ = m;] *)
Definition ignore {S E F A} (m : M S E A) : M S F () := λ s, let '(_, s') := m s in (Ok (), s').
Definition m_map_err {S E F A} (f : E → F) (m : M S E A) : M S F A :=
  λ s, let '(r, s') := m s in (map_err f r, s').

(** [into_iter().map(f).collect::<Result<Vec<_>, _>>()]: stops at the first
    error. *)
Fixpoint collect {E A B} (f : A → result E B) (l : list A) : result E (list B) :=
  match l with
  | [] => Ok []
  | x :: l => y ← f x; ys ← collect f l; Ok (y :: ys)
  end.

Lemma collect_ok {E A B} (f : A → result E B) l l' :
  collect f l = Ok l' ↔ Forall2 (λ x y, f x = Ok y) l l'.
Proof.
  revert l'; induction l as [|x l IH]; intros l'; simpl.
  - split; [intros [= <-]; constructor | by inversion 1].
  - split.
    + destruct (f x) as [y|] eqn:Hx; simpl; [|done].
      destruct (collect f l) as [ys|] eqn:Hl; simpl; [|done].
      intros [= <-]. constructor; [done|]. by apply IH.
    + inversion 1 as [|? ? ? ? Hx Hl]; subst.
      rewrite Hx. simpl. apply IH in Hl. by rewrite Hl.
Qed.

Lemma collect_total {E A B} (f : A → result E B) (g : A → B) l :
  (∀ x, x ∈ l → f x = Ok (g x)) → collect f l = Ok (map g l).
Proof.
  induction l as [|x l IH]; intros H; simpl; [done|].
  rewrite H by left. simpl. rewrite IH; [done|]. intros y Hy. apply H. by right.
Qed.

(** ** Triples

    [triple P m Q R]: from a state satisfying [P], [m] returns a value and a state
    satisfying [Q], or an error and a state satisfying [R]. *)
Definition triple {S E A} (P : S → Prop) (m : M S E A) (Q : A → S → Prop) (R : S → Prop) : Prop :=
  ∀ s, P s → match m s with (Ok a, s') => Q a s' | (Err _, s') => R s' end.

Lemma triple_ret {S E A} (P : S → Prop) (a : A) (Q : A → S → Prop) R :
  (∀ s, P s → Q a s) → triple P (mret a : M S E A) Q R.
Proof. intros H s Hs. by apply H. Qed.
Lemma triple_bind {S E A B} (P : S → Prop) (m : M S E A) Q (f : A → M S E B) Q' R :
  triple P m Q R → (∀ a, triple (Q a) (f a) Q' R) → triple P (mbind f m) Q' R.
Proof.
  intros Hm Hf s Hs. unfold mbind, M_bind. specialize (Hm s Hs).
  destruct (m s) as [[a|e] s']; [by apply Hf | done].
Qed.
(** One step of a triple over [mbind]. *)
Ltac step tac := eapply triple_bind; [tac | intros ?; cbn beta].
Lemma triple_conseq {S E A} (P P' : S → Prop) (m : M S E A) (Q Q' : A → S → Prop) (R R' : S → Prop) :
  triple P' m Q' R' → (∀ s, P s → P' s) → (∀ a s, Q' a s → Q a s) → (∀ s, R' s → R s) →
  triple P m Q R.
Proof.
  intros Hm HP HQ HR s Hs. specialize (Hm s (HP s Hs)). destruct (m s) as [[a|e] s']; auto.
Qed.
Lemma triple_pure {S E A} (P : S → Prop) (φ : Prop) (m : M S E A) Q R :
  (φ → triple P m Q R) → triple (λ s, φ ∧ P s) m Q R.
Proof. intros H s [Hφ Hs]. by apply H. Qed.
Lemma triple_lift {S E A} (P : S → Prop) (r : result E A) (Q : A → S → Prop) (R : S → Prop) :
  (∀ a s, r = Ok a → P s → Q a s) → (∀ s, P s → R s) → triple P (lift r) Q R.
Proof. intros HQ HR s Hs. unfold lift. destruct r; [by apply HQ | by apply HR]. Qed.
Lemma triple_attempt {S E F A} (P : S → Prop) (m : M S E A) (R : S → Prop) :
  triple P m (λ _, P) P → triple P (attempt m : M S F _) (λ _, P) R.
Proof.
  intros Hm s Hs. specialize (Hm s Hs). unfold attempt. destruct (m s) as [[a|e] s']; done.
Qed.
Lemma triple_ignore {S E F A} (P : S → Prop) (m : M S E A) (R : S → Prop) :
  triple P m (λ _, P) P → triple P (ignore m : M S F _) (λ _, P) R.
Proof. intros Hm s Hs. specialize (Hm s Hs). unfold ignore. by destruct (m s) as [[a|e] s']. Qed.
Lemma triple_map_err {S E F A} (f : E → F) (P : S → Prop) (m : M S E A) (Q : A → S → Prop) R :
  triple P m Q R → triple P (m_map_err f m) Q R.
Proof. intros Hm s Hs. specialize (Hm s Hs). unfold m_map_err. by destruct (m s) as [[a|e] s']. Qed.

(** What a computation did, read back from its result. *)
Lemma attempt_inv {S E F A} (m : M S E A) s (r : result F (result E A)) s' :
  attempt m s = (r, s') → ∃ r0, r = Ok r0 ∧ m s = (r0, s').
Proof. unfold attempt. destruct (m s) as [r0 s0]. intros [= <- <-]. eauto. Qed.
Lemma map_err_inv {S E F A} (f : E → F) (m : M S E A) s r s' :
  m_map_err f m s = (r, s') → ∃ r0, r = map_err f r0 ∧ m s = (r0, s').
Proof. unfold m_map_err. destruct (m s) as [r0 s0]. intros [= <- <-]. eauto. Qed.
Lemma bind_inv {S E A B} (m : M S E A) (f : A → M S E B) s r s' :
  (mbind f m) s = (r, s') →
  (∃ e, m s = (Err e, s') ∧ r = Err e) ∨ (∃ a s1, m s = (Ok a, s1) ∧ f a s1 = (r, s')).
Proof.
  unfold mbind, M_bind. destruct (m s) as [[a|e] s1]; [right; eauto|]. intros [= <- <-]. left. eauto.
Qed.
(** A step of a handler that returned a value. *)
Ltac ok_step Hr a s1 E := apply bind_inv in Hr as [(? & _ & [=])|(a & s1 & E & Hr)].

(** ** Machine integers *)

(** [u64] values are natural numbers below [2^64]; the operations the code uses
    saturate or are checked, so their bounds are written out here. [u64]
    subtraction that saturates is truncated subtraction on [N]. *)
Definition U64_MAX : N := 18446744073709551615.
Definition I64_MAX : N := 9223372036854775807.
Definition U32_MAX : N := 4294967295.
Definition I32_MAX : N := 2147483647.

Definition saturating_add (a b : N) : N := N.min (a + b) U64_MAX.
Definition saturating_sub (a b : N) : N := (a - b)%N.
Definition checked_add (a b : N) : option N :=
  if (a + b <=? U64_MAX)%N then Some (a + b)%N else None.
(** Addition that wraps around, as release builds and [fetch_add] do. *)
Definition wrapping_add (a b : N) : N := ((a + b) mod (U64_MAX + 1))%N.

Definition u64 (n : N) : Prop := (n ≤ U64_MAX)%N.

Lemma saturating_add_u64 a b : u64 (saturating_add a b).
Proof. unfold u64, saturating_add. lia. Qed.
Lemma saturating_sub_u64 a b : u64 a → u64 (saturating_sub a b).
Proof. unfold u64, saturating_sub. lia. Qed.
Lemma checked_add_Some a b c : checked_add a b = Some c ↔ c = (a + b)%N ∧ u64 (a + b).
Proof.
  unfold checked_add, u64. destruct (N.leb_spec (a + b) U64_MAX).
  - split; [intros [= <-]; done | by intros [-> _]].
  - split; [done | lia].
Qed.
Lemma checked_add_None a b : checked_add a b = None ↔ (U64_MAX < a + b)%N.
Proof. unfold checked_add. destruct (N.leb_spec (a + b) U64_MAX); split; try done; lia. Qed.

(** ** Lists *)

(** The first element satisfying a predicate ([Iterator::find]). *)
Fixpoint list_find_first {A} (P : A → bool) (l : list A) : option A :=
  match l with
  | [] => None
  | x :: l => if P x then Some x else list_find_first P l
  end.

Lemma list_find_first_Some {A} (P : A → bool) l x :
  list_find_first P l = Some x → x ∈ l ∧ P x = true.
Proof.
  induction l as [|y l IH]; simpl; [done|]. rewrite elem_of_cons.
  destruct (P y) eqn:HP; [intros [= <-]; auto | intros H; apply IH in H as [? ?]; auto].
Qed.
Lemma list_find_first_None {A} (P : A → bool) l :
  list_find_first P l = None ↔ ∀ x, x ∈ l → P x = false.
Proof.
  induction l as [|y l IH]; simpl.
  { split; [|done]. by intros _ x ?%elem_of_nil. }
  destruct (P y) eqn:HP.
  - split; [done|]. intros H. rewrite (H y) in HP; [done | by left].
  - rewrite IH. split.
    + intros H x [->|?]%elem_of_cons; auto.
    + intros H x ?. apply H. by right.
Qed.
Lemma list_find_first_unique {A} (P : A → bool) l x :
  x ∈ l → P x = true → (∀ y, y ∈ l → P y = true → y = x) → list_find_first P l = Some x.
Proof.
  intros Hin HP Huniq. destruct (list_find_first P l) as [y|] eqn:Hf.
  - apply list_find_first_Some in Hf as [? ?]. f_equal. auto.
  - rewrite list_find_first_None in Hf. rewrite Hf in HP; done.
Qed.

(** [slice.contains]-style boolean membership. *)
Definition list_any {A} (P : A → bool) (l : list A) : bool := existsb P l.

Lemma list_any_true {A} (P : A → bool) l : list_any P l = true ↔ ∃ x, x ∈ l ∧ P x = true.
Proof.
  unfold list_any. rewrite existsb_exists. split; intros (x & ? & ?); exists x;
    split; try done; by apply list_elem_of_In.
Qed.
Lemma list_any_false {A} (P : A → bool) l : list_any P l = false ↔ ∀ x, x ∈ l → P x = false.
Proof.
  rewrite <-not_true_iff_false, list_any_true. split.
  - intros H x Hx. destruct (P x) eqn:E; [|done]. exfalso; eauto.
  - intros H (x & Hx & HP). by rewrite H in HP.
Qed.

Lemma elem_of_take_in {A} n (l : list A) x : x ∈ take n l → x ∈ l.
Proof. rewrite <-(take_drop n l) at 2. rewrite elem_of_app. auto. Qed.

(** ** Automation *)

(** Case analysis on the [Result] scrutinised by a hypothesis, closing the
    impossible branches. *)
Ltac destruct_result H :=
  match type of H with
  | context [match ?r with Ok _ => _ | Err _ => _ end] =>
      let E := fresh "E" in destruct r eqn:E; simpl in H; try discriminate H
  | context [mbind _ ?r] =>
      let E := fresh "E" in destruct r eqn:E; simpl in H; try discriminate H
  end.

(** Split a chain of guards and binds in [H]. *)
Ltac destruct_guards H :=
  repeat match type of H with
  | context [if ?b then _ else _] =>
      let E := fresh "E" in destruct b eqn:E; simpl in H; try discriminate H
  | context [match ?r with Ok _ => _ | Err _ => _ end] =>
      let E := fresh "E" in destruct r eqn:E; simpl in H; try discriminate H
  | context [match ?r with Some _ => _ | None => _ end] =>
      let E := fresh "E" in destruct r eqn:E; simpl in H; try discriminate H
  end.

Create HintDb u64_db.
#[export] Hint Resolve saturating_add_u64 saturating_sub_u64 : u64_db.
