(* ===== verification/RustStr.v ===== *)
(** * Strings and paths of the Rust standard library

    Rust's [str] is a UTF-8 byte string: [String.string], one [ascii] per byte.
    This file models the [str] methods the program calls ([starts_with],
    [strip_prefix], [trim_matches], [split], [splitn], [replace], [chars], ...)
    and the part of [std::path] it uses on Unix ([Path::components],
    [PathBuf::push]), with the lemmas the components share. *)

From S2P Require Import Prelude.
From stdpp Require Import options.

Open Scope string_scope.
#[global] Arguments String.append : simpl nomatch.

Definition slash : ascii := "/"%char.
Definition backslash : ascii := "\"%char.
Definition dot_seg : string := ".".
Definition dotdot_seg : string := "..".

(** ** [str] methods *)

Fixpoint contains_char (c : ascii) (s : string) : bool :=
  match s with
  | "" => false
  | String a s => Ascii.eqb a c || contains_char c s
  end.

(** [s.strip_prefix(p)] *)
Fixpoint strip_prefix (p s : string) : option string :=
  match p, s with
  | "", _ => Some s
  | String a p, String b s => if Ascii.eqb a b then strip_prefix p s else None
  | String _ _, "" => None
  end.
(** [s.starts_with(p)] *)
Definition starts_with (p s : string) : bool :=
  match strip_prefix p s with Some _ => true | None => false end.

(** [s.ends_with(c)] for a character. *)
Fixpoint ends_with_char (c : ascii) (s : string) : bool :=
  match s with
  | "" => false
  | String a "" => Ascii.eqb a c
  | String _ s => ends_with_char c s
  end.

(** [s.trim_start_matches(c)] *)
Fixpoint trim_start_matches (c : ascii) (s : string) : string :=
  match s with
  | "" => ""
  | String a s' => if Ascii.eqb a c then trim_start_matches c s' else s
  end.
(** [s.trim_end_matches(c)] *)
Fixpoint trim_end_matches (c : ascii) (s : string) : string :=
  match s with
  | "" => ""
  | String a s =>
      match trim_end_matches c s with
      | "" => if Ascii.eqb a c then "" else String a ""
      | t => String a t
      end
  end.
(** [s.trim_matches(c)] *)
Definition trim_matches (c : ascii) (s : string) : string :=
  trim_end_matches c (trim_start_matches c s).
(** [s.strip_suffix(c)] for a character, with the original on failure
    ([unwrap_or(&r)]). *)
Fixpoint drop_last_char (s : string) : string :=
  match s with
  | "" => ""
  | String _ "" => ""
  | String a s => String a (drop_last_char s)
  end.
Definition strip_suffix_char (c : ascii) (s : string) : option string :=
  if ends_with_char c s then Some (drop_last_char s) else None.

(** [s.split(c)]: never empty; [k] separators give [k + 1] pieces. *)
Fixpoint split (c : ascii) (s : string) : list string :=
  match s with
  | "" => [""]
  | String a s =>
      if Ascii.eqb a c then "" :: split c s
      else match split c s with
           | [] => [String a ""]
           | h :: t => String a h :: t
           end
  end.
Fixpoint split_once (c : ascii) (s : string) : option (string * string) :=
  match s with
  | "" => None
  | String a s =>
      if Ascii.eqb a c then Some ("", s)
      else match split_once c s with
           | Some (h, t) => Some (String a h, t)
           | None => None
           end
  end.
(** [s.splitn(n, c)]: at most [n] pieces, the last one being the rest. *)
Fixpoint splitn (n : nat) (c : ascii) (s : string) : list string :=
  match n with
  | 0 => []
  | 1 => [s]
  | S n => match split_once c s with
           | None => [s]
           | Some (h, t) => h :: splitn n c t
           end
  end.
(** The last piece of [s.rsplit(c)], i.e. [s.rsplit(c).next()]. *)
Definition rsplit_first (c : ascii) (s : string) : string := opt_or s (last (split c s)).

(** [s.replace(a, b)] for single characters. *)
Fixpoint replace_char (a b : ascii) (s : string) : string :=
  match s with
  | "" => ""
  | String x s => String (if Ascii.eqb x a then b else x) (replace_char a b s)
  end.

(** [parts.join(sep)] *)
Definition join (sep : string) (parts : list string) : string := String.concat sep parts.

(** [s.to_ascii_lowercase()] *)
Definition ascii_lower (a : ascii) : ascii :=
  let n := N_of_ascii a in
  if ((65 <=? n) && (n <=? 90))%N then ascii_of_N (n + 32) else a.
Fixpoint to_ascii_lowercase (s : string) : string :=
  match s with "" => "" | String a s => String (ascii_lower a) (to_ascii_lowercase s) end.

(** [s.chars()]: UTF-8 decoding into Unicode scalar values. *)
Fixpoint chars (s : string) : list N :=
  let cont (b : ascii) : N := N.land (N_of_ascii b) 63 in
  match s with
  | "" => []
  | String b0 s1 =>
      let n0 := N_of_ascii b0 in
      if (n0 <? 128)%N then n0 :: chars s1 else
      match s1 with
      | "" => [n0]
      | String b1 s2 =>
          if (n0 <? 224)%N then
            N.lor (N.shiftl (N.land n0 31) 6) (cont b1) :: chars s2 else
          match s2 with
          | "" => [n0]
          | String b2 s3 =>
              if (n0 <? 240)%N then
                N.lor (N.shiftl (N.land n0 15) 12) (N.lor (N.shiftl (cont b1) 6) (cont b2))
                  :: chars s3 else
              match s3 with
              | "" => [n0]
              | String b3 s4 =>
                  N.lor (N.shiftl (N.land n0 7) 18)
                    (N.lor (N.shiftl (cont b1) 12) (N.lor (N.shiftl (cont b2) 6) (cont b3)))
                    :: chars s4
              end
          end
      end
  end.
(** [char::is_control]: the Unicode category Cc. *)
Definition is_control (c : N) : bool := ((c <? 32) || ((127 <=? c) && (c <? 160)))%N.

(** ** Paths ([std::path], Unix) *)

(** [std::path::Component]; [Prefix] only exists on Windows. *)
Inductive Component := RootDir | CurDir | ParentDir | Normal (p : string).

#[export] Instance Component_eq_dec : EqDecision Component.
Proof. solve_decision. Defined.

Definition parse_component (seg : string) : option Component :=
  if decide (seg = "") then None
  else if decide (seg = dot_seg) then None
  else if decide (seg = dotdot_seg) then Some ParentDir
  else Some (Normal seg).

(** [Path::new(s).components()]: a leading [/] gives [RootDir]; a leading [.]
    segment of a relative path gives [CurDir]; every other empty or [.] segment
    is dropped. *)
Definition components (s : string) : list Component :=
  (if starts_with "/" s then [RootDir]
   else match split slash s with "." :: _ => [CurDir] | _ => [] end)
  ++ omap parse_component (split slash s).

(** [PathBuf::push]: an absolute argument replaces the buffer, otherwise a
    separator is inserted when the buffer is non-empty and does not end in one. *)
Definition path_push (buf p : string) : string :=
  if starts_with "/" p then p
  else if decide (buf = "") then p
  else if ends_with_char slash buf then buf +:+ p
  else buf +:+ "/" +:+ p.

(** ** Lemmas on appending *)

Lemma app_empty_r s : s +:+ "" = s.
Proof. induction s; simpl; congruence. Qed.
Lemma app_assoc_s s1 s2 s3 : (s1 +:+ s2) +:+ s3 = s1 +:+ s2 +:+ s3.
Proof. induction s1; simpl; congruence. Qed.
Lemma length_app_s s1 s2 : String.length (s1 +:+ s2) = String.length s1 + String.length s2.
Proof. induction s1; simpl; congruence. Qed.
Lemma app_eq_empty s1 s2 : s1 +:+ s2 = "" → s1 = "" ∧ s2 = "".
Proof. by destruct s1, s2. Qed.
Lemma app_inj_len s1 s2 t1 t2 :
  String.length s1 = String.length t1 → s1 +:+ s2 = t1 +:+ t2 → s1 = t1 ∧ s2 = t2.
Proof.
  revert t1; induction s1 as [|a s1 IH]; intros [|b t1]; simpl; try done.
  intros [= Hl] [= -> H]. destruct (IH t1 Hl H) as [-> ->]. done.
Qed.
Lemma app_cancel_l (a x y : string) : (a +:+ x = a +:+ y)%string → x = y.
Proof. induction a as [|c a IH]; simpl; [done|]. intros [= Heq]. auto. Qed.
Lemma app_cancel_r s1 s2 t : s1 +:+ t = s2 +:+ t → s1 = s2.
Proof.
  intros H. apply (app_inj_len s1 t s2 t); [|done].
  apply (f_equal String.length) in H. rewrite !length_app_s in H. lia.
Qed.

Lemma eqb_char_refl a : Ascii.eqb a a = true.
Proof. apply Ascii.eqb_refl. Qed.
Lemma eqb_char_true a b : Ascii.eqb a b = true → a = b.
Proof. apply Ascii.eqb_eq. Qed.
Lemma eqb_char_false a b : Ascii.eqb a b = false → a ≠ b.
Proof. apply Ascii.eqb_neq. Qed.
#[export] Hint Resolve eqb_char_true eqb_char_false : core.

Lemma contains_char_app c s1 s2 :
  contains_char c (s1 +:+ s2) = contains_char c s1 || contains_char c s2.
Proof. induction s1 as [|a s1 IH]; simpl; [done|]. by rewrite IH, orb_assoc. Qed.

(** ** Prefixes *)

Lemma strip_prefix_Some p s r : strip_prefix p s = Some r ↔ s = p +:+ r.
Proof.
  revert s; induction p as [|a p IH]; intros s; simpl.
  { by split; [intros [= ->]|intros ->]. }
  destruct s as [|b s]; [split; done|].
  destruct (Ascii.eqb a b) eqn:E.
  - apply eqb_char_true in E as ->. rewrite IH. split; [by intros -> | by intros [= ->]].
  - apply eqb_char_false in E. split; [done | by intros [= -> ->]].
Qed.
Lemma starts_with_true p s : starts_with p s = true ↔ ∃ r, s = p +:+ r.
Proof.
  unfold starts_with. destruct (strip_prefix p s) as [r|] eqn:E.
  - apply strip_prefix_Some in E. split; [eauto | done].
  - split; [done|]. intros [r Hr]. apply strip_prefix_Some in Hr. congruence.
Qed.
Lemma starts_with_app p r : starts_with p (p +:+ r) = true.
Proof. apply starts_with_true. eauto. Qed.
Lemma strip_prefix_app p r : strip_prefix p (p +:+ r) = Some r.
Proof. by apply strip_prefix_Some. Qed.
Lemma prefix_total p q s :
  starts_with p s = true → starts_with q s = true → String.length p = String.length q → p = q.
Proof.
  rewrite !starts_with_true. intros [r ->] [r' Hr] Hl. by apply app_inj_len in Hr as [-> _].
Qed.

(** ** Trimming *)

Lemma trim_start_no_head c s s' : trim_start_matches c s = String c s' → False.
Proof.
  induction s as [|a s IH]; simpl; [done|].
  destruct (Ascii.eqb a c) eqn:E; [done|]. intros [= -> ->]. by apply eqb_char_false in E.
Qed.
Lemma trim_start_id c s : (∀ s', s ≠ String c s') → trim_start_matches c s = s.
Proof.
  destruct s as [|a s]; simpl; [done|]. intros H.
  destruct (Ascii.eqb a c) eqn:E; [|done]. apply eqb_char_true in E as ->. by destruct (H s).
Qed.
Lemma trim_start_char c s : trim_start_matches c (String c s) = trim_start_matches c s.
Proof. simpl. by rewrite eqb_char_refl. Qed.

Lemma ends_with_char_cons c a s : s ≠ "" → ends_with_char c (String a s) = ends_with_char c s.
Proof. by destruct s. Qed.
Lemma ends_with_char_app c s1 s2 : s2 ≠ "" → ends_with_char c (s1 +:+ s2) = ends_with_char c s2.
Proof.
  intros H. induction s1 as [|a s1 IH]; simpl; [done|].
  rewrite <-IH. destruct (s1 +:+ s2) eqn:E; [|done].
  apply app_eq_empty in E as [-> ->]. done.
Qed.
Lemma ends_with_char_snoc c s : ends_with_char c (s +:+ String c "") = true.
Proof. rewrite ends_with_char_app by done. simpl. apply eqb_char_refl. Qed.

Lemma trim_end_id c s : ends_with_char c s = false → trim_end_matches c s = s.
Proof.
  induction s as [|a s IH]; simpl; [done|]. destruct s as [|b s].
  - simpl. intros ->. done.
  - intros H. rewrite IH by done. done.
Qed.
Lemma trim_end_no_tail c s : ends_with_char c (trim_end_matches c s) = false.
Proof.
  induction s as [|a s IH]; simpl; [done|].
  destruct (trim_end_matches c s) as [|b t] eqn:E.
  - destruct (Ascii.eqb a c) eqn:Eac; simpl; done.
  - by rewrite ends_with_char_cons.
Qed.
Lemma trim_end_prefix c s : ∃ t, s = trim_end_matches c s +:+ t.
Proof.
  induction s as [|a s [t IH]]; simpl; [by exists ""|].
  destruct (trim_end_matches c s) as [|b r] eqn:E.
  - destruct (Ascii.eqb a c); [by eexists | exists s; done].
  - exists t. simpl in *. by rewrite IH at 1.
Qed.
Lemma trim_end_snoc c s : trim_end_matches c (s +:+ String c "") = trim_end_matches c s.
Proof.
  induction s as [|a s IH]; simpl; [by rewrite eqb_char_refl|]. by rewrite IH.
Qed.

Lemma trim_matches_no_head c s s' : trim_matches c s = String c s' → False.
Proof.
  unfold trim_matches. intros H.
  destruct (trim_end_prefix c (trim_start_matches c s)) as [t Ht].
  rewrite H in Ht. simpl in Ht. by apply trim_start_no_head in Ht.
Qed.
Lemma trim_matches_no_tail c s : ends_with_char c (trim_matches c s) = false.
Proof. apply trim_end_no_tail. Qed.
Lemma trim_matches_id c s :
  (∀ s', s ≠ String c s') → ends_with_char c s = false → trim_matches c s = s.
Proof. intros H1 H2. unfold trim_matches. by rewrite trim_start_id, trim_end_id. Qed.
Lemma trim_matches_idemp c s : trim_matches c (trim_matches c s) = trim_matches c s.
Proof.
  apply trim_matches_id; [|apply trim_matches_no_tail].
  intros s' H. by apply trim_matches_no_head in H.
Qed.
Lemma trim_matches_char c s : trim_matches c (String c s) = trim_matches c s.
Proof. unfold trim_matches. by rewrite trim_start_char. Qed.

(** ** Splitting and joining *)

Lemma split_ne c s : split c s ≠ [].
Proof. destruct s as [|a s]; simpl; [done|]. destruct (Ascii.eqb a c); [done|]. by destruct (split c s). Qed.
Lemma split_no_char c s : contains_char c s = false → split c s = [s].
Proof.
  induction s as [|a s IH]; simpl; [done|].
  rewrite orb_false_iff. intros [-> H]. by rewrite IH.
Qed.
Lemma split_cons_sep c a b :
  contains_char c a = false → split c (a +:+ String c b) = a :: split c b.
Proof.
  induction a as [|x a IH]; simpl; [by rewrite eqb_char_refl|].
  rewrite orb_false_iff. intros [-> H]. by rewrite IH.
Qed.
Lemma split_pieces c s : Forall (λ p, contains_char c p = false) (split c s).
Proof.
  induction s as [|a s IH]; simpl; [by repeat constructor|].
  destruct (Ascii.eqb a c) eqn:E; [by constructor|].
  destruct (split c s) as [|h t]; [repeat constructor; simpl; by rewrite E|].
  inversion IH; subst. constructor; [|done]. simpl. by rewrite E.
Qed.
Lemma join_cons sep x y l : join sep (x :: y :: l) = x +:+ sep +:+ join sep (y :: l).
Proof. done. Qed.
Lemma join_cons_ne sep x l : l ≠ [] → join sep (x :: l) = x +:+ sep +:+ join sep l.
Proof. by destruct l. Qed.
Lemma join_split c s : join (String c "") (split c s) = s.
Proof.
  induction s as [|a s IH]; simpl; [done|].
  destruct (Ascii.eqb a c) eqn:E.
  - apply eqb_char_true in E as ->. rewrite join_cons_ne by apply split_ne. by rewrite IH.
  - destruct (split c s) as [|h [|h' t]] eqn:Es; [by destruct (split_ne c s)| |].
    + cbn in *. congruence.
    + rewrite join_cons in *. simpl. by f_equal.
Qed.
Lemma split_join c l :
  l ≠ [] → Forall (λ p, contains_char c p = false) l → split c (join (String c "") l) = l.
Proof.
  induction l as [|x l IH]; [done|]. intros _ H. inversion H as [|? ? Hx Hl]; subst.
  destruct l as [|y l]; [by apply split_no_char|].
  rewrite join_cons. simpl. rewrite split_cons_sep by done. f_equal. by apply IH.
Qed.
Lemma split_once_None c s : contains_char c s = false → split_once c s = None.
Proof.
  induction s as [|a s IH]; simpl; [done|]. rewrite orb_false_iff. intros [-> H]. by rewrite IH.
Qed.
Lemma split_once_app c a b :
  contains_char c a = false → split_once c (a +:+ String c b) = Some (a, b).
Proof.
  induction a as [|x a IH]; simpl; [by rewrite eqb_char_refl|].
  rewrite orb_false_iff. intros [-> H]. by rewrite IH.
Qed.
Lemma split_once_Some c s h t :
  split_once c s = Some (h, t) → s = h +:+ String c t ∧ contains_char c h = false.
Proof.
  revert h; induction s as [|a s IH]; intros h; simpl; [done|].
  destruct (Ascii.eqb a c) eqn:E.
  - intros [= <- <-]. by apply eqb_char_true in E as ->.
  - destruct (split_once c s) as [[h' t']|]; [|done]. intros [= <- <-].
    destruct (IH h') as [-> ?]; [done|]. simpl. by rewrite E.
Qed.
Lemma splitn3_1 c a : contains_char c a = false → splitn 3 c a = [a].
Proof. intros H. simpl. by rewrite split_once_None. Qed.
Lemma splitn3_2 c a b :
  contains_char c a = false → contains_char c b = false → splitn 3 c (a +:+ String c b) = [a; b].
Proof. intros Ha Hb. simpl. rewrite split_once_app by done. by rewrite split_once_None. Qed.
Lemma splitn3_3 c a b r :
  contains_char c a = false → contains_char c b = false →
  splitn 3 c (a +:+ String c (b +:+ String c r)) = [a; b; r].
Proof. intros Ha Hb. simpl. by rewrite !split_once_app. Qed.

(** ** Character replacement *)

Lemma replace_char_app a b s1 s2 :
  replace_char a b (s1 +:+ s2) = replace_char a b s1 +:+ replace_char a b s2.
Proof. induction s1; simpl; congruence. Qed.
Lemma replace_char_id a b s : contains_char a s = false → replace_char a b s = s.
Proof.
  induction s as [|x s IH]; simpl; [done|]. rewrite orb_false_iff. intros [-> H]. by rewrite IH.
Qed.
Lemma replace_char_gone a b s : a ≠ b → contains_char a (replace_char a b s) = false.
Proof.
  intros Hab. induction s as [|x s IH]; simpl; [done|]. rewrite IH, orb_false_r.
  destruct (Ascii.eqb x a) eqn:E; [|done]. by apply Ascii.eqb_neq.
Qed.
Lemma replace_char_idemp a b s :
  a ≠ b → replace_char a b (replace_char a b s) = replace_char a b s.
Proof. intros Hab. apply replace_char_id. by apply replace_char_gone. Qed.

(** ** Path components *)

(** A segment [Path::components] yields as [Normal]. *)
Definition normal_seg (s : string) : Prop :=
  s ≠ "" ∧ s ≠ dot_seg ∧ s ≠ dotdot_seg ∧ contains_char slash s = false.

#[export] Instance normal_seg_dec s : Decision (normal_seg s).
Proof. unfold normal_seg. apply _. Defined.

Lemma parse_component_normal s : normal_seg s → parse_component s = Some (Normal s).
Proof. intros (H1 & H2 & H3 & _). unfold parse_component. by rewrite !decide_False. Qed.
Lemma parse_component_Normal s p :
  contains_char slash s = false → parse_component s = Some (Normal p) → s = p ∧ normal_seg p.
Proof.
  unfold parse_component, normal_seg. intros Hs H. repeat case_decide; simplify_eq. done.
Qed.
Lemma normal_seg_no_slash s : normal_seg s → contains_char slash s = false.
Proof. by intros (? & ? & ? & ?). Qed.
Lemma starts_with_slash s : starts_with "/" s = true ↔ ∃ r, s = String slash r.
Proof. rewrite starts_with_true. done. Qed.
Lemma no_slash_head s : contains_char slash s = false → starts_with "/" s = false.
Proof.
  intros H. destruct (starts_with "/" s) eqn:E; [|done].
  apply starts_with_slash in E as [r ->]. discriminate H.
Qed.
Lemma join_head s l : s ≠ "" → contains_char slash s = false →
  starts_with "/" (join "/" (s :: l)) = false.
Proof.
  intros Hne H. destruct (starts_with "/" (join "/" (s :: l))) eqn:E; [|done].
  apply starts_with_slash in E as [r Hr]. exfalso. destruct s as [|a s]; [done|].
  simpl in H. apply orb_false_iff in H as [Ha _].
  assert (a = slash) as ->; [|by rewrite eqb_char_refl in Ha].
  destruct l; cbn in Hr; by injection Hr.
Qed.
Lemma omap_parse_normal l : Forall normal_seg l → omap parse_component l = map Normal l.
Proof.
  induction 1 as [|s l Hs _ IH]; csimpl; [done|]. by rewrite parse_component_normal, IH.
Qed.
Lemma components_join l :
  Forall normal_seg l → components (join "/" l) = map Normal l.
Proof.
  intros H. destruct l as [|s l]; [done|].
  assert (Hne : split slash (join "/" (s :: l)) = s :: l).
  { apply split_join; [done|]. eapply Forall_impl; [done|]. apply normal_seg_no_slash. }
  inversion H as [|? ? Hs _]; subst. unfold components.
  rewrite join_head by apply Hs. rewrite Hne, omap_parse_normal by done.
  destruct Hs as (? & Hdot & ?). unfold dot_seg in Hdot.
  repeat (case_match; try done).
Qed.
(** Every [Normal] component of a path is a proper segment. *)
Lemma components_Normal s p : Normal p ∈ components s → normal_seg p.
Proof.
  unfold components. rewrite elem_of_app. intros [H|H].
  { exfalso. repeat case_match; by rewrite ?list_elem_of_singleton, ?elem_of_nil in H. }
  - apply list_elem_of_omap in H as (seg & Hin & Hp).
    pose proof (split_pieces slash s) as Hf. rewrite Forall_forall in Hf.
    by apply parse_component_Normal in Hp as [-> ?]; [|apply Hf].
Qed.
Lemma normal_seg_head p : normal_seg p → starts_with "/" p = false.
Proof. intros (_ & _ & _ & H). by apply no_slash_head. Qed.
Lemma path_push_normal buf p :
  normal_seg p → ends_with_char slash buf = false →
  path_push buf p = if decide (buf = "") then p else buf +:+ "/" +:+ p.
Proof. intros Hp Hb. unfold path_push. by rewrite normal_seg_head, Hb. Qed.
Lemma no_slash_tail s : contains_char slash s = false → ends_with_char slash s = false.
Proof.
  induction s as [|a s IH]; simpl; [done|]. rewrite orb_false_iff. intros [Ha H].
  destruct s; [done|]. by apply IH.
Qed.
Lemma join_ne l : Forall normal_seg l → l ≠ [] → join "/" l ≠ "".
Proof.
  destruct l as [|x l]; [done|]. intros H _. inversion H as [|? ? [Hx _] _]; subst.
  destruct x; [done|]. by destruct l.
Qed.
Lemma join_tail l : Forall normal_seg l → ends_with_char slash (join "/" l) = false.
Proof.
  induction l as [|x l IH]; [done|]. intros H. inversion H as [|? ? Hx Hl]; subst.
  destruct l as [|y l]; [apply no_slash_tail, Hx|].
  rewrite join_cons, ends_with_char_app by done.
  rewrite ends_with_char_app; [by apply IH | by apply join_ne].
Qed.
Lemma join_snoc sep l x : l ≠ [] → join sep (l ++ [x]) = join sep l +:+ sep +:+ x.
Proof.
  induction l as [|y l IH]; [done|]. intros _. destruct l as [|z l]; [done|].
  cbn [app]. rewrite join_cons. cbn [app] in IH. rewrite IH by done.
  by rewrite join_cons, !app_assoc_s.
Qed.
(** Pushing proper segments one by one joins them with [/]. *)
Lemma fold_push_join l l0 :
  Forall normal_seg l0 → Forall normal_seg l →
  foldl path_push (join "/" l0) l = join "/" (l0 ++ l).
Proof.
  revert l0; induction l as [|x l IH]; intros l0 H0 H; [by rewrite app_nil_r|].
  inversion H as [|? ? Hx Hl]; subst. simpl.
  rewrite path_push_normal by (done || by apply join_tail).
  replace (l0 ++ x :: l)%list with ((l0 ++ [x]) ++ l)%list by (by rewrite <-app_assoc).
  case_decide as E.
  - assert (l0 = []) as -> by (destruct l0; [done|]; by apply join_ne in E).
    apply (IH [x]); [by apply Forall_singleton | done].
  - rewrite <-IH; [|apply Forall_app; auto|done]. f_equal.
    rewrite join_snoc; [done|]. by intros ->.
Qed.

(** ** Decimal numbers *)

(** A decimal rendering has digits only. *)
Lemma pretty_no_char c (n : N) :
  (∀ d, contains_char c (String (pretty_N_char d) "") = false) → contains_char c (pretty n) = false.
Proof.
  intros Hd. assert (H0 : contains_char c "0" = false) by exact (Hd 0%N).
  assert (Hgo : ∀ m s, contains_char c s = false → contains_char c (pretty_N_go m s) = false).
  { intros m. induction (N.lt_wf_0 m) as [m _ IH]; intros s Hs.
    destruct (decide (m = 0)%N) as [->|Hm]; [by rewrite pretty_N_go_0|].
    rewrite pretty_N_go_step by lia. apply IH; [apply N.div_lt; lia|].
    specialize (Hd (m mod 10)%N). simpl in *. rewrite Hs. by rewrite orb_false_r in *. }
  unfold pretty, pretty_N. case_decide; [done|]. by apply Hgo.
Qed.
Lemma pretty_no_slash (n : N) : contains_char slash (pretty n) = false.
Proof. apply pretty_no_char. intros d. unfold pretty_N_char. by repeat case_match. Qed.
