(* ===== verification/Errors.v ===== *)
(** * Error types and their mapping to gRPC statuses

    The error values that flow between the layers: [opendal_core::Error]
    ([DalError]), [rustic_core::RusticError], [std::io::Error] ([IoError]),
    [VfsError] of [crates/ipc/src/core.rs] and [tonic::Status]; and the functions
    of [utils.rs] and [server.rs] that map one to another.

    An error of a third-party crate is represented by its kind and the text it was
    built with. How such a crate renders an error ([to_string]) is not code of this
    repository: it is a field of the class [Foreign], a parameter of every
    definition that prints such an error. *)

From S2P Require Import Prelude RustStr.
From stdpp Require Import options.
Open Scope string_scope.

(** [opendal_core::ErrorKind]: the kinds the program tells apart. *)
Module Kind.
Inductive t := NotFound | PermissionDenied | RateLimited | ConfigInvalid | Unsupported
  | AlreadyExists | RangeNotSatisfied | Unexpected | OtherKind.
#[export] Instance t_eq_dec : EqDecision t.
Proof. solve_decision. Defined.
End Kind.
Export (hints) Kind.

Record DalError := {
  err_kind : Kind.t;
  err_message : string;
  err_context : list (string * string);
}.
#[export] Instance DalError_eq_dec : EqDecision DalError.
Proof. solve_decision. Defined.
(** [opendal_core::Error::new] *)
Definition dal_error (k : Kind.t) (msg : string) : DalError :=
  {| err_kind := k; err_message := msg; err_context := [] |}.
(** [Error::with_context] *)
Definition with_context (k v : string) (e : DalError) : DalError :=
  {| err_kind := err_kind e; err_message := err_message e;
     err_context := err_context e ++ [(k, v)] |}.

(** [std::io::ErrorKind] and [std::io::Error]; [io_text] is what [Display]
    prints. *)
Module IoKind.
Inductive t := NotFound | PermissionDenied | InvalidData | OtherIo.
#[export] Instance t_eq_dec : EqDecision t.
Proof. solve_decision. Defined.
End IoKind.
Export (hints) IoKind.

Record IoError := { io_kind : IoKind.t; io_text : string }.
#[export] Instance IoError_eq_dec : EqDecision IoError.
Proof. solve_decision. Defined.

(** [rustic_core::RusticError]: the kinds the program builds. *)
Inductive RusticKind := RkBackend | RkInvalidInput | RkOther.
Record RusticError := { rustic_kind : RusticKind; rustic_text : string }.
#[export] Instance RusticKind_eq_dec : EqDecision RusticKind.
Proof. solve_decision. Defined.
#[export] Instance RusticError_eq_dec : EqDecision RusticError.
Proof. solve_decision. Defined.

(** Rendering of third-party errors. *)
Class Foreign := {
  show_dal : DalError → string;
  show_rustic : RusticError → string;
}.

(** ** [core.rs]: [VfsError] *)

Inductive VfsError :=
| Storage (e : RusticError)
| OpenDal (e : DalError)
| SqlError (e : string)
| SerdeError (e : string)
| UserNotFound
| RepoPasswordMissing
| PointFailed (name reason : string)
| InvalidConfig (msg : string)
| Internal (msg : string).
#[export] Instance VfsError_eq_dec : EqDecision VfsError.
Proof. solve_decision. Defined.

(** The [#[error(..)]] attributes of [VfsError]. *)
Definition vfs_error_to_string `{Foreign} (e : VfsError) : string :=
  match e with
  | Storage e => "storage error: " +:+ show_rustic e
  | OpenDal e => "opendal error: " +:+ show_dal e
  | SqlError e => "sql error: " +:+ e
  | SerdeError e => "serialization error: " +:+ e
  | UserNotFound => "user not found"
  | RepoPasswordMissing => "point is a repo mount but has no `repo_password`"
  | PointFailed name reason => "point '" +:+ name +:+ "' failed to load: " +:+ reason
  | InvalidConfig m => "invalid configuration: " +:+ m
  | Internal m => "internal error: " +:+ m
  end.

(** ** [tonic::Status] *)

Module Code.
Inductive t := InvalidArgument | NotFound | AlreadyExists | PermissionDenied
  | ResourceExhausted | FailedPrecondition | OutOfRange | Unimplemented | Internal.
#[export] Instance t_eq_dec : EqDecision t.
Proof. solve_decision. Defined.
End Code.
Export (hints) Code.

Record Status := { code : Code.t; message : string }.
#[export] Instance Status_eq_dec : EqDecision Status.
Proof. solve_decision. Defined.

Module St.
Definition mk (c : Code.t) (m : string) : Status := {| code := c; message := m |}.
Definition invalid_argument := mk Code.InvalidArgument.
Definition not_found := mk Code.NotFound.
Definition already_exists := mk Code.AlreadyExists.
Definition permission_denied := mk Code.PermissionDenied.
Definition resource_exhausted := mk Code.ResourceExhausted.
Definition failed_precondition := mk Code.FailedPrecondition.
Definition out_of_range := mk Code.OutOfRange.
Definition unimplemented := mk Code.Unimplemented.
Definition internal := mk Code.Internal.
End St.

(** ** Mappings *)

Section Mappings.
Context `{Foreign}.

(** [utils::map_dal] *)
Definition map_dal (e : DalError) : Status :=
  let message := show_dal e in
  match err_kind e with
  | Kind.NotFound => St.not_found message
  | Kind.PermissionDenied => St.permission_denied message
  | Kind.RateLimited => St.resource_exhausted message
  | Kind.ConfigInvalid => St.invalid_argument message
  | Kind.Unsupported => St.unimplemented message
  | Kind.AlreadyExists => St.already_exists message
  | _ => St.internal message
  end.

(** [utils::map_vfs] *)
Definition map_vfs (e : VfsError) : Status :=
  match e with
  | UserNotFound => St.not_found "vfs user not found"
  | RepoPasswordMissing => St.failed_precondition (vfs_error_to_string e)
  | PointFailed _ _ => St.failed_precondition (vfs_error_to_string e)
  | InvalidConfig _ => St.invalid_argument (vfs_error_to_string e)
  | OpenDal e => map_dal e
  | _ => St.internal (vfs_error_to_string e)
  end.

(** A [NotFound] status from an OpenDAL error means the backend said so: the
    probing code of [vfs_transfer] and [vfs_stat] tells "absent" from "failed"
    by it. *)
Lemma map_dal_not_found e : code (map_dal e) = Code.NotFound ↔ err_kind e = Kind.NotFound.
Proof. unfold map_dal. by destruct (err_kind e). Qed.

Lemma map_vfs_not_found e :
  code (map_vfs e) = Code.NotFound ↔
  e = UserNotFound ∨ ∃ d, e = OpenDal d ∧ err_kind d = Kind.NotFound.
Proof.
  destruct e as [| d | | | | | | |]; simpl; try (split; [done | by intros [?|(? & ? & ?)]]).
  - rewrite map_dal_not_found. split; [eauto | by intros [?|(? & [= <-] & ?)]].
  - split; [auto | done].
Qed.
End Mappings.

(** [server.rs]: [io_status] *)
Definition io_status (e : IoError) : Status :=
  match io_kind e with
  | IoKind.NotFound => St.not_found (io_text e)
  | IoKind.PermissionDenied => St.permission_denied (io_text e)
  | _ => St.internal (io_text e)
  end.

(** A rendering for concrete runs: the error's own text. *)
Definition plain_foreign : Foreign := {| show_dal := err_message; show_rustic := rustic_text |}.
