(* ===== verification/Paths.v ===== *)
(** * Path and name rules

    The pure string functions on which every addressing decision rests:
    [opendal_vfs::normalize] ([crates/opendal-vfs/src/lib.rs]), the validators
    and path builders of [crates/ipc/src/utils.rs], the snapshot path helpers of
    [crates/ipc/src/browse.rs] and the user-name rule of [crates/ipc/src/db.rs]. *)

From S2P Require Import Prelude.
From S2P Require Import RustStr.
From S2P Require Import Errors.
From stdpp Require Import options.
Open Scope string_scope.

(** ** Names *)

(** A character that may not occur in a user name. *)
Definition illegal_name_char (c : N) : bool :=
  ((c =? 47) || (c =? 92))%N || is_control c.

(** [utils::validate_username] *)
Definition validate_username (username : string) : result Status () :=
  if bool_decide (username = "" ∨ username = "." ∨ username = "..")
  then Err (St.invalid_argument "username must not be empty or dot")
  else if list_any illegal_name_char (chars username)
  then Err (St.invalid_argument "username contains an illegal character")
  else Ok ().

(** [db.rs]: [validate_db_username] *)
Definition validate_db_username (username : string) : result VfsError () :=
  if bool_decide (username = "" ∨ username = "." ∨ username = "..")
  then Err (Internal "invalid username")
  else if list_any illegal_name_char (chars username)
  then Err (Internal "username contains an illegal character")
  else Ok ().

(** [utils::validate_repo_password] *)
Definition validate_repo_password (password : string) : result Status () :=
  if bool_decide (password = "")
  then Err (St.invalid_argument "repository password must not be empty")
  else if list_any is_control (chars password)
  then Err (St.invalid_argument "repository password contains a control character")
  else Ok ().

(** ** Point-relative paths *)

(** The loop of [validate_relative_point_path] over the components. *)
Fixpoint push_components (rest : string) (cs : list Component) (out : string) : result Status string :=
  match cs with
  | [] => Ok out
  | Normal value :: cs => push_components rest cs (path_push out value)
  | CurDir :: cs | RootDir :: cs => push_components rest cs out
  | ParentDir :: _ =>
      Err (St.invalid_argument ("illegal point-relative path '" +:+ rest +:+ "'"))
  end.

(** [utils::validate_relative_point_path] *)
Definition validate_relative_point_path (rest : string) : result Status string :=
  let normalized_separators := replace_char backslash slash rest in
  out ← push_components rest (components normalized_separators) "";
  Ok (replace_char backslash slash out).

(** [utils::fix_path] *)
Definition fix_path (p : string) (is_dir : bool) : string :=
  let r := p in
  let r := if negb (starts_with "/" r) then "/" +:+ r else r in
  let r := if is_dir && negb (ends_with_char slash r) then r +:+ "/"
           else if negb is_dir && ends_with_char slash r
           then opt_or r (strip_suffix_char slash r)
           else r in
  replace_char backslash slash r.

(** [server.rs]: [with_slash] *)
Definition with_slash (path : string) : string :=
  if ends_with_char slash path then path else path +:+ "/".

(** ** Mount layout *)

Definition POINTS_ROOT : string := "points".
Definition REPOS_ROOT : string := "repos".

Definition data_mount_path (point_name : string) : string :=
  "/" +:+ POINTS_ROOT +:+ "/" +:+ point_name.
Definition repo_mount_path (point_name : string) : string :=
  "/" +:+ REPOS_ROOT +:+ "/" +:+ point_name.

(** [utils::is_local_scheme] *)
Definition is_local_scheme (scheme : string) : bool :=
  let s := to_ascii_lowercase scheme in
  bool_decide (s = "local") || bool_decide (s = "fs").

(** [opendal_vfs::normalize] *)
Definition normalize (path : string) : string :=
  let trimmed := trim_matches slash path in
  if decide (trimmed = "") then "/" else "/" +:+ trimmed.

(** ** Browsing a snapshot ([browse.rs]) *)

Module Browse.

Definition DEFAULT_LIMIT : N := 200.
Definition MAX_LIMIT : N := 1000.

Definition nul : ascii := "000"%char.

Fixpoint clean_segments (segs : list string) : result string (list string) :=
  match segs with
  | [] => Ok []
  | seg :: segs =>
      if bool_decide (seg = "" ∨ seg = ".") then clean_segments segs
      else if bool_decide (seg = "..")
      then Err "'..' is not allowed in snapshot paths"
      else out ← clean_segments segs; Ok (seg :: out)
  end.

(** [browse::split_path] *)
Definition split_path (path : string) : result string (list string) :=
  if contains_char nul path then Err "path contains a NUL byte"
  else clean_segments (split slash path).

(** [browse::join] *)
Definition join (components : list string) : string :=
  if decide (components = []) then "/" else "/" +:+ RustStr.join "/" components.

(** [browse::child_path] *)
Definition child_path (parent name : string) : string :=
  if decide (parent = "/") then "/" +:+ name else parent +:+ "/" +:+ name.

(** [browse::clamp_limit] *)
Definition clamp_limit (limit : N) : N :=
  if (limit =? 0)%N then DEFAULT_LIMIT else N.min limit MAX_LIMIT.

End Browse.

(** ** Lemmas: names *)

Lemma validate_username_ok u :
  validate_username u = Ok () ↔
  u ≠ "" ∧ u ≠ "." ∧ u ≠ ".." ∧ ∀ c, c ∈ chars u → illegal_name_char c = false.
Proof.
  unfold validate_username. case_bool_decide as Hd.
  { split; [done|]. naive_solver. }
  destruct (list_any illegal_name_char (chars u)) eqn:E.
  - split; [done|]. intros (_ & _ & _ & H).
    apply list_any_true in E as (c & Hc & HP). by rewrite H in HP.
  - rewrite list_any_false in E. naive_solver.
Qed.

(** The database layer accepts exactly the user names the API accepts. *)
Lemma validate_db_username_agrees u :
  is_ok (validate_db_username u) = is_ok (validate_username u).
Proof. unfold validate_db_username, validate_username. by repeat case_match. Qed.

(** ** Lemmas: point-relative paths *)

Lemma push_components_ok rest cs out :
  (∃ r, push_components rest cs out = Ok r) ↔ ParentDir ∉ cs.
Proof.
  revert out; induction cs as [|c cs IH]; intros out; simpl.
  { split; [by intros _ ?%elem_of_nil | eauto]. }
  rewrite not_elem_of_cons. destruct c; rewrite ?IH; split; naive_solver.
Qed.

(** The [Normal] components of a list. *)
Definition normals (cs : list Component) : list string :=
  omap (λ c, match c with Normal p => Some p | _ => None end) cs.

Lemma push_components_out rest cs out r :
  push_components rest cs out = Ok r → r = foldl path_push out (normals cs).
Proof.
  revert out; induction cs as [|c cs IH]; intros out; simpl; [by intros [= ->]|].
  destruct c; try done; apply IH.
Qed.
Lemma normals_components s : Forall normal_seg (normals (components s)).
Proof.
  apply Forall_forall. intros p. unfold normals. rewrite list_elem_of_omap.
  intros (c & Hc & Hp). destruct c; simplify_eq. by apply components_Normal in Hc.
Qed.
Lemma normals_map l : normals (map Normal l) = l.
Proof. induction l as [|x l IH]; [done|]. unfold normals in *. csimpl. by rewrite IH. Qed.

Lemma contains_join c sep l :
  contains_char c sep = false → Forall (λ p, contains_char c p = false) l →
  contains_char c (join sep l) = false.
Proof.
  intros Hs. induction l as [|x l IH]; [done|]. intros H. inversion H as [|? ? Hx Hl]; subst.
  destruct l as [|y l]; [done|]. rewrite join_cons, !contains_char_app, Hx, Hs. by apply IH.
Qed.
Lemma contains_of_join c sep l x :
  contains_char c (join sep l) = false → x ∈ l → contains_char c x = false.
Proof.
  induction l as [|y l IH]; [by intros _ ?%elem_of_nil|].
  destruct l as [|z l].
  { intros H ->%list_elem_of_singleton. done. }
  rewrite join_cons, !contains_char_app, !orb_false_iff.
  intros (H1 & _ & H2) [->|?]%elem_of_cons; auto.
Qed.
Lemma split_contains c d s :
  contains_char c s = false → Forall (λ p, contains_char c p = false) (split d s).
Proof.
  intros H. apply Forall_forall. intros x Hx.
  rewrite <-(join_split d s) in H. by eapply contains_of_join.
Qed.

(** The canonical form of a point-relative path: proper segments, none with a
    backslash, joined by [/]. *)
Definition rel_seg (s : string) : Prop := normal_seg s ∧ contains_char backslash s = false.
Definition canonical_rel (p : string) : Prop := ∃ segs, Forall rel_seg segs ∧ p = join "/" segs.

Lemma normals_rel_seg s :
  contains_char backslash s = false → Forall rel_seg (normals (components s)).
Proof.
  intros H. apply Forall_forall. intros p Hp. split.
  { pose proof (normals_components s) as Hn. rewrite Forall_forall in Hn. auto. }
  unfold normals in Hp. apply list_elem_of_omap in Hp as (c & Hc & Hp).
  destruct c; simplify_eq. unfold components in Hc.
  apply elem_of_app in Hc as [Hc|Hc].
  { exfalso. repeat case_match; by rewrite ?list_elem_of_singleton, ?elem_of_nil in Hc. }
  apply list_elem_of_omap in Hc as (seg & Hin & Hp).
  pose proof (split_contains backslash slash s H) as Hf. rewrite Forall_forall in Hf.
  unfold parse_component in Hp. repeat case_decide; simplify_eq. auto.
Qed.
Lemma rel_seg_normal l : Forall rel_seg l → Forall normal_seg l.
Proof. intros H. eapply Forall_impl; [exact H|]. by intros ? [? _]. Qed.
Lemma rel_join_no_backslash l :
  Forall rel_seg l → contains_char backslash (join "/" l) = false.
Proof. intros H. apply contains_join; [done|]. eapply Forall_impl; [done|]. by intros ? [_ ?]. Qed.

(** What [validate_relative_point_path] returns: the [Normal] components of the
    path (separators normalised), joined. *)
Lemma validate_relative_out rest r :
  validate_relative_point_path rest = Ok r →
  r = join "/" (normals (components (replace_char backslash slash rest))) ∧
  Forall rel_seg (normals (components (replace_char backslash slash rest))).
Proof.
  unfold validate_relative_point_path. intros H. simpl in H.
  set (s := replace_char backslash slash rest) in *.
  assert (Hr : Forall rel_seg (normals (components s))).
  { apply normals_rel_seg. by apply replace_char_gone. }
  destruct (push_components rest (components s) "") as [out|] eqn:E; [|done].
  simpl in H. injection H as <-. apply push_components_out in E as ->.
  pose proof (fold_push_join (normals (components s)) []) as Hf. cbn [join String.concat app] in Hf.
  rewrite Hf by (constructor || by apply rel_seg_normal).
  rewrite replace_char_id by by apply rel_join_no_backslash. done.
Qed.
Lemma validate_relative_total rest :
  (∃ r, validate_relative_point_path rest = Ok r) ↔
  ParentDir ∉ components (replace_char backslash slash rest).
Proof.
  rewrite <-(push_components_ok rest _ ""). unfold validate_relative_point_path.
  destruct (push_components _ _ _); simpl; naive_solver.
Qed.
Lemma validate_relative_join segs :
  Forall rel_seg segs → validate_relative_point_path (join "/" segs) = Ok (join "/" segs).
Proof.
  intros H. pose proof (rel_seg_normal _ H) as Hn.
  assert (Hc : components (replace_char backslash slash (join "/" segs)) = map Normal segs).
  { rewrite replace_char_id by by apply rel_join_no_backslash. by apply components_join. }
  destruct (proj2 (validate_relative_total (join "/" segs))) as [r Hr].
  { rewrite Hc. intros Hp. by apply list_elem_of_fmap in Hp as (? & ? & _). }
  rewrite Hr. apply validate_relative_out in Hr as [-> _].
  by rewrite Hc, normals_map.
Qed.

(** ** Lemmas: [normalize] *)

Lemma normalize_slash p : ∃ r, normalize p = "/" +:+ r ∧ r = trim_matches slash p.
Proof. unfold normalize. case_decide as E; [exists ""; auto | eauto]. Qed.
Lemma trim_normalize p : trim_matches slash (normalize p) = trim_matches slash p.
Proof.
  destruct (normalize_slash p) as (r & -> & ->). cbn [String.append].
  by rewrite trim_matches_char, trim_matches_idemp.
Qed.
Lemma normalize_idemp p : normalize (normalize p) = normalize p.
Proof. unfold normalize at 1. rewrite trim_normalize. done. Qed.
Lemma normalize_eq p q : normalize p = normalize q ↔ trim_matches slash p = trim_matches slash q.
Proof.
  split; [|unfold normalize; by intros ->].
  intros H. by rewrite <-(trim_normalize p), H, trim_normalize.
Qed.
(** A normalised path is absolute and has no trailing [/], except the root. *)
Lemma normalize_shape p :
  starts_with "/" (normalize p) = true ∧
  (normalize p = "/" ∨ ends_with_char slash (normalize p) = false).
Proof.
  destruct (normalize_slash p) as (r & Hr & Hp). split; [rewrite Hr; by apply starts_with_app|].
  destruct (decide (r = "")) as [->|Hne]; [left; by rewrite Hr|]. right.
  rewrite Hr, ends_with_char_app by done. rewrite Hp. apply trim_matches_no_tail.
Qed.

(** ** Lemmas: [fix_path] on canonical absolute paths *)

Lemma drop_last_snoc s c : drop_last_char (s +:+ String c "") = s.
Proof.
  induction s as [|a s IH]; [done|]. simpl.
  destruct (s +:+ String c "") eqn:E; [by destruct s|]. simpl in *. by rewrite IH.
Qed.
Lemma fix_path_canonical segs is_dir :
  Forall rel_seg segs → segs ≠ [] →
  fix_path ("/" +:+ join "/" segs) is_dir =
    "/" +:+ join "/" segs +:+ (if is_dir then "/" else "").
Proof.
  intros H Hne. pose proof (rel_seg_normal _ H) as Hn. unfold fix_path.
  rewrite starts_with_app. cbn [negb].
  rewrite ends_with_char_app by by apply join_ne. rewrite join_tail by done.
  assert (Hb : contains_char backslash ("/" +:+ join "/" segs) = false).
  { rewrite contains_char_app, rel_join_no_backslash by done. done. }
  destruct is_dir; cbn [negb andb].
  - rewrite replace_char_app, replace_char_id by done. by rewrite app_assoc_s.
  - rewrite replace_char_id by done. by rewrite app_empty_r.
Qed.
(** The doc comment's "leading slash, trailing slash iff directory" needs the path to
    be canonical: only one slash is removed, and backslashes turn into slashes last. *)
Example fix_path_outside_canonical :
  fix_path "/" false = "" ∧ fix_path "a//" false = "/a/" ∧ fix_path "a\" false = "/a/".
Proof. split_and!; reflexivity. Qed.

Lemma fix_path_slash p : ends_with_char slash (fix_path p true) = true.
Proof.
  assert (Hrep : ∀ s, ends_with_char slash s = true → ends_with_char slash (replace_char backslash slash s) = true).
  { induction s as [|c s IH]; [done|]. destruct s as [|c' s].
    - cbn. intros Hc%eqb_char_true. subst c. done.
    - intros Hc. rewrite ends_with_char_cons in Hc by done. cbn [replace_char].
      rewrite ends_with_char_cons; [by apply IH|]. cbn. by destruct (Ascii.eqb c' backslash). }
  unfold fix_path. apply Hrep. set (r := if negb (starts_with "/" p) then _ else _). clearbody r. cbn [andb negb].
  destruct (ends_with_char slash r) eqn:Hr; cbn [negb]; [done|]. apply (ends_with_char_snoc slash).
Qed.

(** ** What a path names *)

(** The place a path names below a root, up to repeated and trailing slashes: the names
    on the way to it ([std::path] drops the rest). *)
Definition place (q : string) : list Component := omap parse_component (split slash q).
Definition direct (q : string) : Prop := ParentDir ∉ place q.
#[export] Instance direct_dec q : Decision (direct q).
Proof. unfold direct. apply _. Defined.

Lemma place_app a b : place (a +:+ "/" +:+ b) = (place a ++ place b)%list.
Proof.
  unfold place. rewrite <-omap_app. f_equal. change ("/" +:+ b) with (String slash b).
  induction a as [|x a IH]; [cbn; done|]. cbn [String.append split].
  destruct (Ascii.eqb x slash); [by rewrite IH|]. rewrite IH.
  destruct (split slash a) as [|h t] eqn:E; [by destruct (split_ne slash a)|done].
Qed.
Lemma place_slash_end a : place (a +:+ "/") = place a.
Proof. change "/" with ("/" +:+ ""). rewrite place_app. apply app_nil_r. Qed.
Lemma ends_with_slash s : ends_with_char slash s = true → ∃ a, s = a +:+ "/".
Proof.
  induction s as [|x s IH]; [done|]. destruct (decide (s = "")) as [->|Hs].
  - cbn. intros ->%eqb_char_true. by exists "".
  - rewrite ends_with_char_cons by done. intros [a ->]%IH. by exists (String x a).
Qed.
(** What begins with a path that ends in a slash names something below it. *)
Lemma place_below p q : ends_with_char slash p = true → starts_with p q = true → place p `prefix_of` place q.
Proof.
  intros [a ->]%ends_with_slash [r ->]%starts_with_true. rewrite app_assoc_s, place_app, place_slash_end. by exists (place r).
Qed.
Lemma place_fix p : contains_char backslash p = false → place (fix_path p true) = place p.
Proof.
  intros Hb. unfold fix_path. cbn [andb negb].
  assert (Hlead : ∃ r, (if negb (starts_with "/" p) then "/" +:+ p else p) = r ∧ place r = place p ∧ contains_char backslash r = false).
  { destruct (starts_with "/" p); cbn; eexists; split_and!; [done|done|done|done| |done]. exact (place_app "" p). }
  destruct Hlead as (r & -> & <- & Hr). destruct (ends_with_char slash r); cbn; rewrite replace_char_id; try done.
  - apply place_slash_end.
  - by rewrite contains_char_app, Hr.
Qed.

(** ** Lemmas: browsing *)

Lemma clean_segments_id l : Forall normal_seg l → Browse.clean_segments l = Ok l.
Proof.
  induction 1 as [|x l (H1 & H2 & H3 & _) _ IH]; simpl; [done|].
  rewrite bool_decide_eq_false_2 by naive_solver.
  rewrite bool_decide_eq_false_2 by done. by rewrite IH.
Qed.
Lemma clean_segments_ok l l' :
  Forall (λ p, contains_char slash p = false) l →
  Browse.clean_segments l = Ok l' → Forall normal_seg l' ∧ ∀ s, s ∈ l' → s ∈ l.
Proof.
  intros Hf. revert l'; induction Hf as [|x l Hx Hl IH]; intros l'; simpl.
  { intros [= <-]. split; [constructor|done]. }
  case_bool_decide as E1; [intros H; apply IH in H as [? H]; split; [done|]|].
  { intros s Hs. right. auto. }
  case_bool_decide as E2; [done|].
  destruct (Browse.clean_segments l) as [out|] eqn:E; simpl; [|done].
  intros [= <-]. destruct (IH out) as [? Hin]; [done|]. split.
  - constructor; [|done]. unfold normal_seg, dot_seg, dotdot_seg. naive_solver.
  - intros s [->|Hs]%elem_of_cons; [by left | right; auto].
Qed.

(** ** Absolute paths by their segments *)

Definition absp (segs : list string) : string := "/" +:+ join "/" segs.

Lemma split_app_sep c a b : split c (a +:+ String c b) = (split c a ++ split c b)%list.
Proof.
  induction a as [|x a IH]; simpl; [by rewrite eqb_char_refl|].
  destruct (Ascii.eqb x c) eqn:E; simpl; [by rewrite IH|]. rewrite IH.
  pose proof (split_ne c a). destruct (split c a); [done|]. done.
Qed.
Lemma split_join_segs l : Forall normal_seg l → l ≠ [] → split slash (join "/" l) = l.
Proof.
  intros H Hne. apply (split_join slash); [done|].
  eapply Forall_impl; [exact H|]. apply normal_seg_no_slash.
Qed.
Lemma join_app l1 l2 : l1 ≠ [] → l2 ≠ [] →
  join "/" (l1 ++ l2)%list = join "/" l1 +:+ "/" +:+ join "/" l2.
Proof.
  intros H1 H2. induction l1 as [|x l1 IH]; [done|]. destruct l1 as [|y l1].
  - cbn [app]. by rewrite join_cons_ne.
  - cbn [app] in *. rewrite !join_cons, IH by done. by rewrite !app_assoc_s.
Qed.
Lemma join_start l : Forall normal_seg l → starts_with "/" (join "/" l) = false.
Proof.
  intros H. destruct l as [|x l]; [done|]. inversion H as [|? ? Hx Hl]; subst.
  apply join_head; [apply Hx | by apply normal_seg_no_slash].
Qed.
Lemma absp_inj l1 l2 : Forall normal_seg l1 → Forall normal_seg l2 → absp l1 = absp l2 → l1 = l2.
Proof.
  intros H1 H2 [= Heq]. destruct (decide (l1 = [])) as [->|Hne1]; destruct (decide (l2 = [])) as [->|Hne2]; try done.
  - exfalso. by apply (join_ne l2).
  - exfalso. by apply (join_ne l1).
  - rewrite <-(split_join_segs l1), <-(split_join_segs l2) by done. by rewrite Heq.
Qed.

(** Trailing slashes do not matter to [normalize]. *)
Definition dir_suffix (is_dir : bool) : string := if is_dir then "/" else "".
Lemma normalize_absp segs is_dir :
  Forall normal_seg segs → normalize (absp segs +:+ dir_suffix is_dir) = absp segs.
Proof.
  intros H. destruct (decide (segs = [])) as [->|Hne]; [by destruct is_dir|]. unfold normalize.
  assert (Ht : trim_matches slash (absp segs +:+ dir_suffix is_dir) = join "/" segs).
  { unfold absp. cbn [String.append]. rewrite trim_matches_char. unfold trim_matches.
    assert (Hend : trim_end_matches slash (join "/" segs +:+ dir_suffix is_dir) = join "/" segs).
    { destruct is_dir; simpl; [rewrite trim_end_snoc | rewrite app_empty_r];
        apply trim_end_id; by apply join_tail. }
    rewrite trim_start_id; [done|]. intros s' Hs. pose proof (join_start segs H) as Hj.
    destruct (join "/" segs) as [|c r] eqn:E; [by apply (join_ne segs) in E|].
    simpl in Hs. injection Hs as -> _.
    pose proof (proj2 (starts_with_slash (String slash r)) ltac:(eauto)). unfold slash in *. congruence. }
  rewrite Ht. case_decide as E; [|done]. unfold absp. by rewrite E.
Qed.

(** Owning a path, character by character, is owning its segments. *)
Lemma absp_prefix a b :
  Forall normal_seg a → Forall normal_seg b → a ≠ [] →
  (absp b = absp a ∨ starts_with (absp a +:+ "/") (absp b) = true) ↔ ∃ k, b = (a ++ k)%list.
Proof.
  intros Ha Hb Hne. rewrite starts_with_true. split.
  - intros [Heq|[r Hr]].
    + exists []. rewrite app_nil_r. by apply absp_inj.
    + unfold absp in Hr. injection Hr as Hr. rewrite app_assoc_s in Hr.
      assert (b ≠ []) as Hbne.
      { intros ->. symmetry in Hr. apply app_eq_empty in Hr as [Hj _]. by apply join_ne in Hj. }
      exists (split slash r). rewrite <-(split_join_segs b), Hr by done. cbn [String.append].
      by rewrite split_app_sep, split_join_segs.
  - intros [k ->]. destruct (decide (k = [])) as [->|Hk]; [left; by rewrite app_nil_r|right].
    exists (join "/" k). unfold absp. rewrite join_app by done. by rewrite !app_assoc_s.
Qed.
