(* ===== verification/QuotaCounter.v ===== *)
(** * The quota counter ([QuotaCounter] of [layers/quota.rs])

    One atomic byte count and one dirty flag per quota id. [apply_delta] is a
    compare-and-swap loop run by any number of tasks at once, [reset] two stores,
    and the background task snapshots the count into the tracker
    ([sync_all]). This file gives

    - the operations run alone ([QuotaCounter], executable);
    - the same operations as small steps over the shared atomics, one step per
      atomic access, with spurious failures of [compare_exchange_weak], and the
      transition system of any number of them interleaved with the background
      sync ([Atomics]);
    - linearizability, the limit as an invariant, exactly-once accounting,
      solo termination and the durability of the sync. *)

From S2P Require Import Prelude.
From S2P Require Import RustStr.
From S2P Require Import Errors.
From stdpp Require Import options.
Open Scope string_scope.

(** ** Operations *)

(** [quota_exceeded_error] *)
Definition quota_exceeded_error (id : string) (current hypothetical limit : N) : DalError :=
  with_context "quota_used" (pretty current)
  (with_context "quota_limit" (pretty limit)
  (with_context "quota_id" id
  (dal_error Kind.RateLimited
    ("write quota exceeded for '" +:+ id +:+ "': " +:+ pretty current +:+ " used, "
     +:+ pretty hypothetical +:+ " would be needed, " +:+ pretty limit +:+ " limit")))).

Close Scope string_scope.

Module QuotaCounter.

Record t := mk { bytes : N; dirty : bool }.

Definition new (initial : N) : t := mk initial false.
Definition get (c : t) : N := bytes c.
Definition reset (c : t) : t := mk 0 true.
Definition mark_dirty (c : t) : t := mk (bytes c) true.

(** The total a commit would produce: both steps saturate. *)
Definition new_total (current old_size new_size : N) : N :=
  saturating_add (saturating_sub current old_size) new_size.

(** [apply_delta] when no other task touches the counter meanwhile: the first
    exchange succeeds ([run_alone_apply_delta] below derives this from the
    loop). *)
Definition apply_delta (id : string) (old_size new_size limit : N) (c : t)
    : result DalError N * t :=
  let current := bytes c in
  let total := new_total current old_size new_size in
  if (limit <? total)%N then (Err (quota_exceeded_error id current total limit), c)
  else (Ok total, mk total true).

End QuotaCounter.
Notation QuotaCounter := QuotaCounter.t.

(** ** Small steps over the atomics *)

Module Atomics.
Import QuotaCounter.

(** The arguments of one [apply_delta] call. *)
Record request := { req_id : string; old_size : N; new_size : N; limit : N }.

Definition total (q : request) (current : N) : N := new_total current (old_size q) (new_size q).

(** Where a call of [apply_delta] stands: about to load [bytes]; at the top of the
    loop with [current]; after a successful exchange, about to store [dirty];
    returned. *)
Inductive pc :=
| Load
| Try (current : N)
| StoreDirty (new_total : N)
| Returned (r : result DalError N).

(** One atomic access of [apply_delta]. [spurious] is the failure
    [compare_exchange_weak] may report although the value matches. *)
Definition delta_step (q : request) (spurious : bool) (p : pc) (c : t) : pc * t :=
  match p with
  | Load => (Try (bytes c), c)
  | Try current =>
      let new_total := total q current in
      if (limit q <? new_total)%N then
        (Returned (Err (quota_exceeded_error (req_id q) current new_total (limit q))), c)
      else if (bytes c =? current)%N && negb spurious then
        (StoreDirty new_total, mk new_total (dirty c))
      else (Try (bytes c), c)
  | StoreDirty n => (Returned (Ok n), mark_dirty c)
  | Returned r => (Returned r, c)
  end.

(** [reset]: store [bytes], then store [dirty]. *)
Inductive reset_pc := RStoreBytes | RStoreDirty | RReturned.
Definition reset_step (p : reset_pc) (c : t) : reset_pc * t :=
  match p with
  | RStoreBytes => (RStoreDirty, mk 0 (dirty c))
  | RStoreDirty => (RReturned, mark_dirty c)
  | RReturned => (RReturned, c)
  end.

(** The body of [sync_all] for one bucket: swap [dirty] to false, read [bytes],
    call [set_bytes], and set [dirty] again when it failed. *)
Inductive sync_pc := SIdle | SSwapped | SRead (bytes : N) | SFailed.
(** [ok] is the tracker's answer; the persisted value only changes when it is
    positive. *)
Definition sync_step (ok : bool) (p : sync_pc) (c : t) (persisted : N) : sync_pc * t * N :=
  match p with
  | SIdle => (if dirty c then SSwapped else SIdle, mk (bytes c) false, persisted)
  | SSwapped => (SRead (bytes c), c, persisted)
  | SRead n => if ok then (SIdle, c, n) else (SFailed, c, persisted)
  | SFailed => (SIdle, mark_dirty c, persisted)
  end.

(** ** The interleaved system *)

Inductive thread := TDelta (q : request) (p : pc) | TReset (p : reset_pc).

(** What a step does to the count, as seen by an observer: a commit of a thread's
    request or a reset. *)
Inductive event := Commit (i : nat) (q : request) | Reset (i : nat).

Definition commit_event (i : nat) (q : request) (p p' : pc) : option event :=
  match p, p' with Try _, StoreDirty _ => Some (Commit i q) | _, _ => None end.

Definition thread_step (i : nat) (spurious : bool) (th : thread) (c : t)
    : thread * t * option event :=
  match th with
  | TDelta q p =>
      let '(p', c') := delta_step q spurious p c in (TDelta q p', c', commit_event i q p p')
  | TReset p =>
      let '(p', c') := reset_step p c in
      (TReset p', c', match p with RStoreBytes => Some (Reset i) | _ => None end)
  end.

Record sys := { cnt : t; threads : list thread; syncer : sync_pc; persisted : N }.

Inductive step (s : sys) : option event → sys → Prop :=
| step_thread i th spurious th' c' ev :
    threads s !! i = Some th →
    thread_step i spurious th (cnt s) = (th', c', ev) →
    step s ev {| cnt := c'; threads := <[i := th']> (threads s);
                 syncer := syncer s; persisted := persisted s |}
| step_sync ok p' c' n' :
    sync_step ok (syncer s) (cnt s) (persisted s) = (p', c', n') →
    step s None {| cnt := c'; threads := threads s; syncer := p'; persisted := n' |}.

(** An execution and the events it performed, in order. *)
Inductive exec (s0 : sys) : list event → sys → Prop :=
| exec_nil : exec s0 [] s0
| exec_step evs s ev s' :
    exec s0 evs s → step s ev s' → exec s0 (evs ++ option_list ev) s'.

(** ** The sequential specification *)

Definition apply_event (b : N) (ev : event) : N :=
  match ev with Commit _ q => total q b | Reset _ => 0 end.
Definition replay (b : N) (evs : list event) : N := foldl apply_event b evs.

(** A counter nobody is using: every call still has to start, the sync is idle and
    the persisted value is the count. *)
Definition fresh_thread (th : thread) : Prop :=
  match th with TDelta _ p => p = Load | TReset p => p = RStoreBytes end.
Definition initial (s : sys) : Prop :=
  Forall fresh_thread (threads s) ∧ syncer s = SIdle ∧ persisted s = bytes (cnt s).

Definition is_commit_of (i : nat) (ev : event) : bool :=
  match ev with Commit j _ => Nat.eqb i j | Reset _ => false end.

(** What the history says about a call, by where it stands. *)
Definition accounted (b : N) (evs : list event) (i : nat) (q : request) (p : pc) : Prop :=
  match p with
  | Load => list_any (is_commit_of i) evs = false
  | Try current =>
      list_any (is_commit_of i) evs = false ∧
      ∃ pre post, evs = pre ++ post ∧ current = replay b pre
  | StoreDirty n | Returned (Ok n) =>
      ∃ pre post, evs = pre ++ Commit i q :: post ∧
        list_any (is_commit_of i) pre = false ∧ list_any (is_commit_of i) post = false ∧
        n = total q (replay b pre) ∧ (n ≤ limit q)%N
  | Returned (Err e) =>
      list_any (is_commit_of i) evs = false ∧
      ∃ pre post, evs = pre ++ post ∧ (limit q < total q (replay b pre))%N ∧
        e = quota_exceeded_error (req_id q) (replay b pre) (total q (replay b pre)) (limit q)
  end.

Definition returned (th : thread) : bool :=
  match th with TDelta _ (Returned _) | TReset RReturned => true | _ => false end.
Definition committed (th : thread) : bool :=
  match th with TDelta _ (StoreDirty _) | TDelta _ (Returned (Ok _)) => true | _ => false end.

(** ** Lemmas *)

Lemma replay_app b evs evs' : replay b (evs ++ evs') = replay (replay b evs) evs'.
Proof. apply foldl_app. Qed.
Lemma replay_snoc b evs ev : replay b (evs ++ [ev]) = apply_event (replay b evs) ev.
Proof. by rewrite replay_app. Qed.

(** One step of a thread changes the count as its event says. *)
Lemma thread_step_bytes i sp th c th' c' ev :
  thread_step i sp th c = (th', c', ev) →
  bytes c' = replay (bytes c) (option_list ev).
Proof.
  destruct th as [q p|p]; simpl.
  - destruct p as [|cur|n|r]; simpl; try (intros [= <- <- <-]; done).
    destruct (limit q <? total q cur)%N; [by intros [= <- <- <-]|].
    destruct (N.eqb_spec (bytes c) cur) as [<-|], sp; simpl; intros [= <- <- <-]; done.
  - destruct p; intros [= <- <- <-]; done.
Qed.
Lemma sync_step_bytes ok p c n p' c' n' :
  sync_step ok p c n = (p', c', n') → bytes c' = bytes c.
Proof. destruct p; simpl; try destruct ok; by intros [= <- <- <-]. Qed.

Lemma exec_replay s0 evs s : exec s0 evs s → bytes (cnt s) = replay (bytes (cnt s0)) evs.
Proof.
  induction 1 as [|evs s ev s' _ IH Hs]; [done|].
  rewrite replay_app, <-IH. destruct Hs as [i th sp th' c' ev _ Ht|ok p' c' n' Hy]; simpl.
  - by eapply thread_step_bytes.
  - by eapply sync_step_bytes.
Qed.

Lemma accounted_weaken b evs i q p ev :
  is_commit_of i ev = false → accounted b evs i q p → accounted b (evs ++ [ev]) i q p.
Proof.
  intros Hev. assert (Hany : ∀ l, list_any (is_commit_of i) l = false →
    list_any (is_commit_of i) (l ++ [ev]) = false).
  { intros l Hl. unfold list_any in *. rewrite existsb_app, Hl. simpl. by rewrite Hev. }
  destruct p as [|cur|n|[n|e]]; simpl; auto.
  - intros [? (pre & post & -> & ->)]. split; [auto|].
    exists pre, (post ++ [ev]). by rewrite <-app_assoc.
  - intros (pre & post & -> & ? & ? & ?).
    exists pre, (post ++ [ev]). rewrite <-app_assoc. auto.
  - intros (pre & post & -> & ? & ? & ?).
    exists pre, (post ++ [ev]). rewrite <-app_assoc. auto.
  - intros [? (pre & post & -> & ? & ->)]. split; [auto|].
    exists pre, (post ++ [ev]). by rewrite <-app_assoc.
Qed.

(** The step a call takes keeps its account with the history. *)
Lemma accounted_step b evs i q sp p c p' c' :
  bytes c = replay b evs → delta_step q sp p c = (p', c') →
  accounted b evs i q p → accounted b (evs ++ option_list (commit_event i q p p')) i q p'.
Proof.
  intros Hb Hs. destruct p as [|cur|n|r]; simpl in Hs; try (injection Hs as <- <-).
  - simpl. rewrite app_nil_r. intros H. split; [done|]. exists evs, []. by rewrite app_nil_r.
  - destruct (N.ltb_spec (limit q) (total q cur)) as [Hlt|Hle].
    { injection Hs as <- <-. simpl. rewrite app_nil_r.
      intros [? (pre & post & -> & ->)]. split; [done|]. by exists pre, post. }
    destruct (N.eqb_spec (bytes c) cur) as [Heq|Hne], sp; simpl in Hs;
      injection Hs as <- <-; simpl; intros [Hno _].
    2: { exists evs, []. rewrite <-Hb, Heq. by repeat split. }
    all: rewrite ?app_nil_r; (split; [done|]); exists evs, []; by rewrite app_nil_r.
  - simpl. rewrite app_nil_r. done.
  - simpl. by rewrite app_nil_r.
Qed.

Lemma exec_accounted s0 evs s :
  initial s0 → exec s0 evs s →
  ∀ i q p, threads s !! i = Some (TDelta q p) → accounted (bytes (cnt s0)) evs i q p.
Proof.
  intros [Hfresh _]. induction 1 as [|evs s ev s' He IH Hs]; intros i q p Hi.
  { rewrite Forall_lookup in Hfresh. apply Hfresh in Hi. simpl in Hi. by subst p. }
  pose proof (exec_replay _ _ _ He) as Hb.
  destruct Hs as [j th sp th' c' ev Hj Ht|ok p' c' n' Hy]; simpl in *.
  - apply list_lookup_insert_Some in Hi as [(<- & -> & _)|[Hne Hi]].
    + destruct th as [q' p0|p0]; simpl in Ht; [|by destruct (reset_step p0 (cnt s))].
      destruct (delta_step q' sp p0 (cnt s)) as [p1 c1] eqn:Hd.
      injection Ht as -> -> <- <-. eapply accounted_step; [done|done|]. by apply IH.
    + destruct ev as [ev|]; simpl; [|rewrite app_nil_r; by apply IH].
      apply accounted_weaken; [|by apply IH].
      destruct th as [q' p0|p0]; simpl in Ht.
      * destruct (delta_step q' sp p0 (cnt s)) as [p1 c1]. injection Ht as <- <- Hev.
        unfold commit_event in Hev. repeat case_match; simplify_eq; simpl.
        by apply Nat.eqb_neq.
      * destruct (reset_step p0 (cnt s)). injection Ht as <- <- Hev.
        repeat case_match; simplify_eq; done.
  - rewrite app_nil_r. by apply IH.
Qed.

(** Every commit in a history was within the limit of its request when it
    happened. *)
Lemma exec_commit_bound s0 evs s :
  exec s0 evs s → ∀ pre post i q, evs = pre ++ Commit i q :: post →
  (total q (replay (bytes (cnt s0)) pre) ≤ limit q)%N.
Proof.
  induction 1 as [|evs s ev s' He IH Hs]; intros pre post i q Hev.
  { by destruct pre. }
  destruct Hs as [j th sp th' c' ev Hj Ht|ok p' c' n' Hy]; simpl in *.
  2: { rewrite app_nil_r in Hev. by eapply IH. }
  destruct ev as [ev|]; [|rewrite app_nil_r in Hev; by eapply IH].
  destruct post as [|x post _] using rev_ind.
  - apply app_inj_tail in Hev as [-> ->].
    rewrite <-(exec_replay _ _ _ He). destruct th as [q' p0|p0]; simpl in Ht.
    + destruct p0 as [|cur| |]; simpl in Ht; simplify_eq.
      destruct (N.ltb_spec (limit q') (total q' cur)); simplify_eq.
      destruct (N.eqb_spec (bytes (cnt s)) cur) as [<-|], sp; simpl in Ht; by simplify_eq.
    + destruct p0; by simplify_eq.
  - rewrite app_comm_cons, app_assoc in Hev. apply app_inj_tail in Hev as [Hev _]. by eapply IH.
Qed.

(** ** Solo runs *)

Fixpoint run_alone (fuel : nat) (q : request) (p : pc) (c : t) : pc * t :=
  match fuel with
  | 0 => (p, c)
  | S fuel => let '(p', c') := delta_step q false p c in run_alone fuel q p' c'
  end.

Lemma run_alone_load q c :
  run_alone 3 q Load c =
    let '(r, c') := QuotaCounter.apply_delta (req_id q) (old_size q) (new_size q) (limit q) c in
    (Returned r, c').
Proof.
  simpl. unfold apply_delta, total. rewrite N.eqb_refl. simpl.
  destruct (limit q <? _)%N; [done|]. by destruct c.
Qed.

(** ** The limit as an invariant *)

Definition limit_within (L : N) (th : thread) : Prop :=
  match th with TDelta q _ => (limit q ≤ L)%N | TReset _ => True end.
Definition event_within (L : N) (ev : event) : Prop :=
  match ev with Commit _ q => (limit q ≤ L)%N | Reset _ => True end.

Lemma thread_step_within L i sp th c th' c' ev :
  thread_step i sp th c = (th', c', ev) → limit_within L th →
  limit_within L th' ∧ ∀ e, ev = Some e → event_within L e.
Proof.
  destruct th as [q p|p]; simpl.
  - destruct (delta_step q sp p c) as [p' c1]. intros [= <- <- <-] H. split; [done|].
    intros e He. unfold commit_event in He. by repeat case_match; simplify_eq.
  - destruct (reset_step p c). intros [= <- <- <-] _. split; [done|].
    intros e He. by repeat case_match; simplify_eq.
Qed.

Lemma exec_within L s0 evs s :
  Forall (limit_within L) (threads s0) → exec s0 evs s →
  Forall (limit_within L) (threads s) ∧ Forall (event_within L) evs.
Proof.
  intros H0. induction 1 as [|evs s ev s' _ IH Hs]; [by split|].
  destruct IH as [Ht Hev]. destruct Hs as [i th sp th' c' ev Hi Hst|ok p' c' n' Hy]; simpl.
  - assert (Hth : limit_within L th) by by eapply Forall_lookup_1.
    destruct (thread_step_within L _ _ _ _ _ _ _ Hst Hth) as [Hth' He].
    split; [by apply Forall_insert|]. apply Forall_app; split; [done|].
    destruct ev; constructor; [by apply He|constructor].
  - split; [done|]. by rewrite app_nil_r.
Qed.

(** ** Counting commits *)

Definition n_committed (ths : list thread) : nat :=
  length (filter (λ th, committed th = true) ths).

Lemma n_committed_insert ths i th th' :
  ths !! i = Some th →
  n_committed (<[i := th']> ths) + (if committed th then 1 else 0) =
  n_committed ths + (if committed th' then 1 else 0).
Proof.
  intros Hi. rewrite insert_take_drop by by eapply lookup_lt_Some.
  rewrite <-(take_drop_middle ths i th Hi) at 3. unfold n_committed.
  rewrite !filter_app, !filter_cons, !length_app.
  destruct (committed th) eqn:E1, (committed th') eqn:E2; simpl;
    repeat (case_decide; try congruence); simpl; lia.
Qed.

Definition is_commit (ev : event) : bool := match ev with Commit _ _ => true | _ => false end.
Definition n_commits (evs : list event) : nat := length (filter (λ ev, is_commit ev = true) evs).

Lemma thread_step_committed i sp th c th' c' ev :
  thread_step i sp th c = (th', c', ev) →
  n_commits (option_list ev) + (if committed th then 1 else 0) = (if committed th' then 1 else 0).
Proof.
  destruct th as [q p|p]; simpl.
  - destruct p as [|cur|n|[n|e]]; simpl; try (by intros [= <- <- <-]).
    destruct (limit q <? total q cur)%N; [by intros [= <- <- <-]|].
    destruct (_ && _); by intros [= <- <- <-].
  - destruct p; by intros [= <- <- <-].
Qed.

(** The number of commits in a history is the number of calls that have
    committed. *)
Lemma exec_n_committed s0 evs s :
  initial s0 → exec s0 evs s → n_commits evs = n_committed (threads s).
Proof.
  intros [Hf _]. induction 1 as [|evs s ev s' _ IH Hs].
  { unfold n_committed. induction Hf as [|th ths Hth _ IH]; [done|].
    rewrite filter_cons_False; [done|]. destruct th; simpl in *; by subst. }
  assert (n_commits (evs ++ option_list ev) = n_commits evs + n_commits (option_list ev)) as ->.
  { unfold n_commits. by rewrite filter_app, length_app. }
  destruct Hs as [i th sp th' c' ev Hi Ht|ok p' c' n' Hy]; simpl; [|rewrite IH; unfold n_commits; simpl; lia].
  apply thread_step_committed in Ht. pose proof (n_committed_insert _ _ _ th' Hi). lia.
Qed.

(** ** Durability of the background sync *)

Definition store_pending (th : thread) : bool :=
  match th with TDelta _ (StoreDirty _) | TReset RStoreDirty => true | _ => false end.

(** Whenever the count differs from what the tracker holds, something is still
    going to persist it: the dirty flag is set, a task is about to set it, or the
    sync in flight has yet to read the count. *)
Definition durable_inv (s : sys) : Prop :=
  dirty (cnt s) = true ∨
  (∃ i th, threads s !! i = Some th ∧ store_pending th = true) ∨
  match syncer s with
  | SIdle => persisted s = bytes (cnt s)
  | SRead n => n = bytes (cnt s)
  | SSwapped | SFailed => True
  end.

Lemma thread_step_dirty i sp th c th' c' ev :
  thread_step i sp th c = (th', c', ev) →
  dirty c' = true ∨ store_pending th' = true ∨ (c' = c ∧ store_pending th = false).
Proof.
  destruct th as [q p|p]; simpl.
  - destruct p as [|cur|n|r]; simpl; try (intros [= <- <- <-]; simpl; auto; done).
    destruct (limit q <? total q cur)%N; [intros [= <- <- <-]; auto|].
    destruct (_ && _); intros [= <- <- <-]; simpl; auto.
  - destruct p; intros [= <- <- <-]; simpl; auto.
Qed.

Lemma durable_inv_step s ev s' : durable_inv s → step s ev s' → durable_inv s'.
Proof.
  intros Hinv Hs. unfold durable_inv in *.
  destruct Hs as [i th sp th' c' ev Hi Ht|ok p' c' n' Hy]; simpl.
  - assert (i < length (threads s)) by by eapply lookup_lt_Some.
    destruct (thread_step_dirty _ _ _ _ _ _ _ Ht) as [Hd|[Hp|[-> Hnp]]]; [by left| |].
    + right; left. exists i, th'. by rewrite list_lookup_insert_eq.
    + destruct Hinv as [Hd|[(j & tj & Hj & Hp)|Hsy]]; [by left| |by right; right].
      right; left. exists j, tj. rewrite list_lookup_insert_ne; [done|]. congruence.
  - destruct (syncer s) as [| |n|]; simpl in Hy.
    + destruct (dirty (cnt s)) eqn:Hd; injection Hy as <- <- <-; simpl; [by right; right|].
      destruct Hinv as [?|[Hp|Hsy]]; [done|by right; left|by right; right].
    + injection Hy as <- <- <-. by right; right.
    + destruct ok; injection Hy as <- <- <-; [|by right; right].
      destruct Hinv as [Hd|[Hp|Hsy]]; [by left|by right; left|by right; right].
    + injection Hy as <- <- <-. by left.
Qed.

Lemma exec_durable s0 evs s : initial s0 → exec s0 evs s → durable_inv s.
Proof.
  intros (_ & Hi & Hp). induction 1; [|by eapply durable_inv_step].
  right; right. by rewrite Hi.
Qed.

(** ** Properties *)

(** C8. Linearizability of [apply_delta] under any interleaving: the count is the
    sequential replay of the commits in the order they took effect; a call that
    returned [Ok n] took effect exactly once, at a point where the total [n] it
    returns was within its limit; a call that returned the quota error never took
    effect and was over its limit at some point of the history, with the figures
    the message reports. *)
Theorem apply_delta_linearizable s0 evs s :
  initial s0 → exec s0 evs s →
  bytes (cnt s) = replay (bytes (cnt s0)) evs ∧
  ∀ i q p, threads s !! i = Some (TDelta q p) → accounted (bytes (cnt s0)) evs i q p.
Proof. intros Hi He. split; [by apply exec_replay | by apply exec_accounted]. Qed.

Lemma exec_bounded L s0 evs s :
  Forall (limit_within L) (threads s0) → (bytes (cnt s0) ≤ L)%N →
  exec s0 evs s → (bytes (cnt s) ≤ L)%N.
Proof.
  intros Hl H0 He. rewrite (exec_replay _ _ _ He).
  destruct (exec_within L _ _ _ Hl He) as [_ Hev].
  destruct evs as [|ev evs _] using rev_ind; [done|].
  rewrite replay_snoc. apply Forall_app in Hev as [_ Hev]. inversion Hev as [|? ? Hw _]; subst.
  destruct ev as [i q|i]; simpl in *; [|lia].
  pose proof (exec_commit_bound _ _ _ He evs [] i q eq_refl). lia.
Qed.

(** The limit is never exceeded: if every request carries a limit of at most
    [L] and the count starts within [L], it is within [L] in every reachable state
    of every interleaving (commits, resets and syncs). *)
Theorem counter_never_exceeds_limit L s0 evs s :
  Forall (limit_within L) (threads s0) → (bytes (cnt s0) ≤ L)%N →
  exec s0 evs s → (bytes (cnt s) ≤ L)%N.
Proof. apply exec_bounded. Qed.

(** ** Equal requests: exactly as many succeed as fit *)

(** [n] calls with the same request on a new counter. *)
Definition uniform (n : nat) (q : request) : sys :=
  {| cnt := new 0; threads := replicate n (TDelta q Load); syncer := SIdle; persisted := 0 |}.
Definition runs (q : request) (th : thread) : Prop := ∃ p, th = TDelta q p.

Lemma uniform_initial n q : initial (uniform n q).
Proof. repeat split. by apply Forall_replicate. Qed.

Lemma exec_uniform n q evs s :
  exec (uniform n q) evs s →
  length (threads s) = n ∧ Forall (runs q) (threads s) ∧ Forall (λ ev, ∃ i, ev = Commit i q) evs.
Proof.
  induction 1 as [|evs s ev s' _ (Hn & Ht & Hev) Hs].
  { split; [apply length_replicate|]. split; [|constructor]. apply Forall_replicate. by eexists. }
  destruct Hs as [i th sp th' c' ev Hi Hst|ok p' c' n' Hy]; simpl; [|by rewrite app_nil_r].
  rewrite length_insert. split; [done|].
  assert (runs q th) as [p ->] by (rewrite Forall_lookup in Ht; by eapply Ht).
  simpl in Hst. destruct (delta_step q sp p (cnt s)) as [p1 c1]. injection Hst as <- <- <-.
  split; [apply Forall_insert; [done|by eexists]|].
  apply Forall_app; split; [done|]. unfold commit_event. repeat case_match; repeat constructor; eauto.
Qed.

Lemma replay_uniform n q evs s :
  old_size q = 0%N → (limit q < U64_MAX)%N → exec (uniform n q) evs s →
  ∀ pre post, evs = pre ++ post →
  replay 0 pre = (new_size q * N.of_nat (length pre))%N.
Proof.
  intros Ho Hl He pre. induction pre as [|ev pre IH] using rev_ind; intros post Hev; [simpl; lia|].
  destruct (exec_uniform _ _ _ _ He) as (_ & _ & Hall).
  assert (∃ i, ev = Commit i q) as [i ->].
  { rewrite Forall_forall in Hall. apply Hall. rewrite Hev, !elem_of_app. left; right. by left. }
  pose proof (exec_commit_bound _ _ _ He pre post i q) as Hb. simpl in Hb.
  rewrite <-app_assoc in Hev. specialize (Hb Hev).
  rewrite replay_snoc, length_app. simpl. rewrite (IH _ Hev) in *.
  unfold total, new_total, saturating_add, saturating_sub in *. rewrite Ho in *. lia.
Qed.

Lemma n_commits_all evs q :
  Forall (λ ev, ∃ i, ev = Commit i q) evs → n_commits evs = length evs.
Proof.
  induction 1 as [|ev evs [i ->] _ IH]; [done|]. unfold n_commits in *.
  rewrite filter_cons_True by done. simpl. by rewrite IH.
Qed.
Lemma all_committed ths :
  Forall (λ th, committed th = true) ths → n_committed ths = length ths.
Proof.
  induction 1 as [|th ths Hth _ IH]; [done|]. unfold n_committed in *.
  rewrite filter_cons_True by done. simpl. by rewrite IH.
Qed.

(** Of [n] concurrent writes of [k] new bytes each, exactly
    [min n (limit / k)] succeed once all have returned, whatever the interleaving
    and however often the exchanges fail spuriously, and the count is then [k]
    times that number. *)
Theorem equal_requests_fill_the_quota n q evs s :
  old_size q = 0%N → (0 < new_size q)%N → (limit q < U64_MAX)%N →
  exec (uniform n q) evs s → Forall (λ th, returned th = true) (threads s) →
  N.of_nat (n_committed (threads s)) = N.min (N.of_nat n) (limit q / new_size q)%N ∧
  bytes (cnt s) = (new_size q * N.of_nat (n_committed (threads s)))%N.
Proof.
  intros Ho Hk Hl He Hret.
  destruct (exec_uniform _ _ _ _ He) as (Hn & Hruns & Hall).
  assert (Hc : n_committed (threads s) = length evs).
  { rewrite <-(exec_n_committed _ _ _ (uniform_initial n q) He). by eapply n_commits_all. }
  assert (Hle : n_committed (threads s) ≤ n).
  { rewrite <-Hn. unfold n_committed. apply length_filter. }
  pose proof (replay_uniform _ _ _ _ Ho Hl He) as Hr.
  assert (Hbytes : bytes (cnt s) = (new_size q * N.of_nat (length evs))%N).
  { rewrite (exec_replay _ _ _ He). apply (Hr evs []). by rewrite app_nil_r. }
  assert (Hfit : (new_size q * N.of_nat (length evs) ≤ limit q)%N).
  { rewrite <-Hbytes. eapply exec_bounded; [| |exact He]; [apply Forall_replicate; simpl; lia|simpl; lia]. }
  rewrite Hc. split; [|done].
  destruct (decide (Forall (λ th, committed th = true) (threads s))) as [Hac|Hnc].
  - apply all_committed in Hac. rewrite Hc, Hn in Hac. rewrite Hac in Hfit |- *.
    rewrite N.min_l; [done|]. by apply N.div_le_lower_bound; lia.
  - apply not_Forall_Exists in Hnc; [|intros x; solve_decision || apply _].
    apply Exists_exists in Hnc as (th & Hin & Hth).
    rewrite Forall_forall in Hruns, Hret. destruct (Hruns th Hin) as [p ->].
    specialize (Hret _ Hin). destruct p as [| | |[m|e]]; try done.
    apply list_elem_of_lookup in Hin as [i Hi].
    destruct (exec_accounted _ _ _ (uniform_initial n q) He _ _ _ Hi) as (_ & pre & post & Hev & Hov & _).
    simpl in Hov. rewrite (Hr pre post Hev) in Hov. apply (f_equal length) in Hev. rewrite length_app in Hev.
    unfold total, new_total, saturating_add, saturating_sub in Hov. rewrite Ho in Hov.
    assert (limit q / new_size q = N.of_nat (length evs))%N as ->.
    { symmetry. apply (N.div_unique _ _ _ (limit q - new_size q * N.of_nat (length evs))); nia. }
    lia.
Qed.

(** A call that is not interfered with returns: from any point of [apply_delta]
    and any counter value three accesses are enough, and from the start they give
    the result of [QuotaCounter.apply_delta]; so the loop is obstruction-free and
    the sequential definition is what it computes. *)
Theorem apply_delta_solo_terminates q p c :
  (∃ r c', run_alone 3 q p c = (Returned r, c')) ∧
  run_alone 3 q Load c =
    let '(r, c') := QuotaCounter.apply_delta (req_id q) (old_size q) (new_size q) (limit q) c in
    (Returned r, c').
Proof.
  split; [|apply run_alone_load].
  destruct p as [|cur|n|r]; simpl; try (by eauto).
  - rewrite N.eqb_refl. simpl. destruct (limit q <? _)%N; simpl; eauto.
  - destruct (limit q <? total q cur)%N; simpl; [eauto|].
    destruct (bytes c =? cur)%N; simpl; [eauto|].
    destruct (limit q <? total q (bytes c))%N; simpl; [eauto|].
    rewrite N.eqb_refl. simpl. eauto.
Qed.

(** C39. No update is lost by the background sync: once no task is between its
    exchange and its store of the dirty flag, the sync is idle and the flag is
    clear, the tracker holds the current count, whatever the interleaving of
    commits, resets, syncs and failed [set_bytes] calls before. *)
Theorem sync_loses_no_update s0 evs s :
  initial s0 → exec s0 evs s →
  Forall (λ th, store_pending th = false) (threads s) →
  syncer s = SIdle → dirty (cnt s) = false →
  persisted s = bytes (cnt s).
Proof.
  intros Hi He Hp Hs Hd. destruct (exec_durable _ _ _ Hi He) as [?|[(i & th & Hth & Hx)|Hsy]].
  - congruence.
  - rewrite Forall_lookup in Hp. apply Hp in Hth. congruence.
  - by rewrite Hs in Hsy.
Qed.

(** ** Concrete schedules *)

Inductive choice := Turn (i : nat) (spurious : bool) | SyncTurn (ok : bool).

Definition do_choice (ch : choice) (s : sys) : option event * sys :=
  match ch with
  | Turn i spurious =>
      match threads s !! i with
      | None => (None, s)
      | Some th =>
          let '(th', c', ev) := thread_step i spurious th (cnt s) in
          (ev, {| cnt := c'; threads := <[i := th']> (threads s);
                  syncer := syncer s; persisted := persisted s |})
      end
  | SyncTurn ok =>
      let '(p', c', n') := sync_step ok (syncer s) (cnt s) (persisted s) in
      (None, {| cnt := c'; threads := threads s; syncer := p'; persisted := n' |})
  end.
Fixpoint schedule (chs : list choice) (evs : list event) (s : sys) : list event * sys :=
  match chs with
  | [] => (evs, s)
  | ch :: chs => let '(ev, s') := do_choice ch s in schedule chs (evs ++ option_list ev) s'
  end.

Lemma schedule_exec s0 chs evs s :
  exec s0 evs s → exec s0 (schedule chs evs s).1 (schedule chs evs s).2.
Proof.
  revert evs s; induction chs as [|ch chs IH]; intros evs s He; simpl; [done|].
  destruct (do_choice ch s) as [ev s'] eqn:E. apply IH.
  destruct ch as [i sp|ok]; simpl in E.
  - destruct (threads s !! i) as [th|] eqn:Hi; [|injection E as <- <-; simpl; by rewrite app_nil_r].
    destruct (thread_step i sp th (cnt s)) as [[th' c'] ev'] eqn:Ht. injection E as <- <-.
    eapply exec_step; [done|]. by eapply step_thread.
  - destruct (sync_step ok (syncer s) (cnt s) (persisted s)) as [[p' c'] n'] eqn:Hy.
    injection E as <- <-. eapply exec_step; [done|]. by eapply step_sync.
Qed.

(** Two writers of 7 bytes against a limit of 10 and a reset, interleaved with a
    sync whose first [set_bytes] fails. *)
Definition demo_request : request := {| req_id := "t"; old_size := 0; new_size := 7; limit := 10 |}.
Definition demo_start : sys :=
  {| cnt := new 0; threads := [TDelta demo_request Load; TDelta demo_request Load];
     syncer := SIdle; persisted := 0 |}.
Definition demo_schedule : list choice :=
  [Turn 0 false; Turn 1 false; Turn 0 true; Turn 0 false; Turn 1 false; Turn 0 false;
   SyncTurn true; SyncTurn true; SyncTurn false; SyncTurn true; Turn 1 false;
   SyncTurn true; SyncTurn true; SyncTurn true].
Definition demo_run : list event * sys := schedule demo_schedule [] demo_start.

Example demo_run_value :
  demo_run.1 = [Commit 0 demo_request] ∧ bytes (cnt demo_run.2) = 7%N ∧ persisted demo_run.2 = 7%N.
Proof. by vm_compute. Qed.

Lemma demo_exec : exec demo_start demo_run.1 demo_run.2.
Proof. apply schedule_exec. constructor. Qed.
Lemma demo_initial : initial demo_start.
Proof. repeat split; repeat constructor. Qed.

Lemma apply_delta_linearizable_witness :
  bytes (cnt demo_run.2) = replay 0 demo_run.1.
Proof. exact (proj1 (apply_delta_linearizable demo_start _ _ demo_initial demo_exec)). Defined.

Lemma counter_never_exceeds_limit_witness : (bytes (cnt demo_run.2) ≤ 10)%N.
Proof.
  apply (counter_never_exceeds_limit 10 demo_start demo_run.1 demo_run.2);
    [repeat constructor; simpl; lia | simpl; lia | apply demo_exec].
Defined.

Lemma sync_loses_no_update_witness : persisted demo_run.2 = bytes (cnt demo_run.2).
Proof.
  apply (sync_loses_no_update demo_start demo_run.1 demo_run.2);
    [apply demo_initial | apply demo_exec | vm_compute; repeat constructor | by vm_compute
    | by vm_compute].
Defined.

Lemma equal_requests_fill_the_quota_witness :
  N.of_nat (n_committed (threads (schedule demo_schedule [] (uniform 2 demo_request)).2)) = 1%N.
Proof.
  destruct (equal_requests_fill_the_quota 2 demo_request
    (schedule demo_schedule [] (uniform 2 demo_request)).1
    (schedule demo_schedule [] (uniform 2 demo_request)).2) as [H _];
    [reflexivity | reflexivity | reflexivity | apply schedule_exec; constructor
    | vm_compute; repeat constructor | exact H].
Defined.

End Atomics.
