(* ===== verification/QuotaState.v ===== *)
(** * The quota engine ([QuotaState] of [layers/quota.rs])

    A tracker that persists totals and a map of lazily loaded buckets, one per
    quota id. The model gives every method of [QuotaState] and one pass of the
    background sync ([sync_all]) over an explicit state. A lookup that awaits the
    tracker is one step: [OnceCell::get_or_try_init] runs one load at a time and
    the others await it; the interleaving of the counter's own atomics is the
    subject of [QuotaCounter.v].

    The engine is proved against an interface: [QuotaTracker] is the trait and
    [TrackerLaws] is what its documentation promises. [MemoryTracker] is the
    instance of this file, [Db.v] has the SQLite one. *)

From S2P Require Import Prelude.
From S2P Require Import RustStr.
From S2P Require Import Errors.
From S2P Require Import QuotaCounter.
From stdpp Require Import options.
Close Scope string_scope.

(** ** The tracker interface *)

(** The trait [QuotaTracker] over a tracker of type [T]. *)
Class QuotaTracker (T : Type) := {
  set_bytes : string → N → M T DalError ();
  get_bytes : string → M T DalError N;
}.

(** The provided method [QuotaTracker::clear]. *)
Definition tracker_clear {T} `{QuotaTracker T} (id : string) : M T DalError () := set_bytes id 0.

(** What the engine relies on: a successful [set_bytes] is read back by a
    successful [get_bytes], an id that was never persisted reads as [NotFound] or
    as zero, and a call touches no other id. Nothing is said of the stored value
    after a failed [set_bytes]. *)
Class TrackerLaws (T : Type) `{QuotaTracker T} := {
  stored : T → string → option N;
  set_bytes_ok id b t t' : set_bytes id b t = (Ok (), t') → stored t' id = Some b;
  set_bytes_frame id b t r t' id' :
    set_bytes id b t = (r, t') → id' ≠ id → stored t' id' = stored t id';
  get_bytes_ok id b t t' : get_bytes id t = (Ok b, t') → opt_or 0%N (stored t id) = b;
  get_bytes_not_found id e t t' :
    get_bytes id t = (Err e, t') → err_kind e = Kind.NotFound → stored t id = None;
  get_bytes_frame id t r t' id' : get_bytes id t = (r, t') → stored t' id' = stored t id';
}.

(** *** [MemoryTracker] *)

Definition MemoryTracker : Type := gmap string N.
Definition memory_set_bytes (id : string) (b : N) : M MemoryTracker DalError () :=
  modify (insert id b).
Definition memory_get_bytes (id : string) : M MemoryTracker DalError N :=
  λ t, (ok_or (dal_error Kind.NotFound "id not found") (t !! id), t).
(** [MemoryTracker::snapshot] *)
Definition snapshot (t : MemoryTracker) (id : string) : N := opt_or 0%N (t !! id).

#[export] Instance memory_tracker : QuotaTracker MemoryTracker :=
  {| set_bytes := memory_set_bytes; get_bytes := memory_get_bytes |}.

#[export] Program Instance memory_tracker_laws : TrackerLaws MemoryTracker :=
  {| stored t id := t !! id |}.
Next Obligation. intros id b t t'. cbn. intros [= <-]. apply lookup_insert_eq. Qed.
Next Obligation. intros id b t r t' id'. cbn. intros [= _ <-] ?. by apply lookup_insert_ne. Qed.
Next Obligation.
  intros id b t t'. cbn. unfold memory_get_bytes. intros [= H _]. by destruct (t !! id); simplify_eq/=.
Qed.
Next Obligation.
  intros id e t t'. cbn. unfold memory_get_bytes. intros [= H _]. by destruct (t !! id).
Qed.
Next Obligation. intros id t r t' id'. cbn. unfold memory_get_bytes. by intros [= _ <-]. Qed.

(** ** The engine *)

(** [QuotaStateInner]: a bucket is a [OnceCell], empty until its load succeeded. *)
Record QuotaState (T : Type) := {
  tracker : T;
  buckets : gmap string (option QuotaCounter);
}.
Arguments tracker {T} _.
Arguments buckets {T} _.

Definition qs_new {T} (t : T) : QuotaState T := {| tracker := t; buckets := ∅ |}.

Section Engine.
Context {T : Type} `{QuotaTracker T}.
Notation QS := (QuotaState T).
Implicit Types st : QS.

Definition set_bucket (id : string) (c : option QuotaCounter) : M QS DalError () :=
  modify (λ st, {| tracker := tracker st; buckets := <[id := c]> (buckets st) |}).
(** A call on the tracker. *)
Definition on_tracker {A} (m : M T DalError A) : M QS DalError A :=
  λ st, let '(r, t') := m (tracker st) in (r, {| tracker := t'; buckets := buckets st |}).

(** [buckets.entry(id).or_insert_with(OnceCell::new)], then the cell's content. *)
Definition entry (id : string) : M QS DalError (option QuotaCounter) :=
  e ← gets (λ st, buckets st !! id);
  match e with
  | Some cell => mret cell
  | None => _ ← set_bucket id None; mret None
  end.

(** [QuotaState::bucket] *)
Definition bucket (id : string) : M QS DalError QuotaCounter :=
  cell ← entry id;
  match cell with
  | Some c => mret c
  | None =>
      loaded ← attempt (on_tracker (get_bytes id));
      initial_bytes ← match loaded with
                      | Ok b => mret b
                      | Err err => if decide (err_kind err = Kind.NotFound) then mret 0%N else throw err
                      end;
      let c := QuotaCounter.new initial_bytes in
      _ ← set_bucket id (Some c);
      mret c
  end.

(** [QuotaState::current_bytes] *)
Definition current_bytes (id : string) : M QS DalError N :=
  c ← bucket id; mret (QuotaCounter.get c).

(** [QuotaState::reset]. The branch where another task initialised the cell
    between [get] and [set] resets that bucket, as the first branch does. *)
Definition reset (id : string) : M QS DalError () :=
  cell ← entry id;
  match cell with
  | Some c => set_bucket id (Some (QuotaCounter.reset c))
  | None => set_bucket id (Some (QuotaCounter.mark_dirty (QuotaCounter.new 0)))
  end.
(** [QuotaState::clear] *)
Definition clear (id : string) : M QS DalError () := reset id.

(** [QuotaState::commit_write] *)
Definition commit_write (id : string) (limit old_size new_size : N) : M QS DalError N :=
  c ← bucket id;
  let '(r, c') := QuotaCounter.apply_delta id old_size new_size limit c in
  _ ← set_bucket id (Some c');
  lift r.

(** [QuotaState::commit_delete] *)
Definition commit_delete (id : string) (size : N) : M QS DalError () :=
  c ← bucket id;
  let '(_, c') := QuotaCounter.apply_delta id size 0 U64_MAX c in
  set_bucket id (Some c').

(** The body of [sync_all] for one id. *)
Definition sync_one (id : string) (st : QS) : QS :=
  match buckets st !! id with
  | Some (Some c) =>
      if QuotaCounter.dirty c then
        let c := QuotaCounter.mk (QuotaCounter.bytes c) false in
        let '(r, t') := set_bytes id (QuotaCounter.get c) (tracker st) in
        let c := match r with Ok _ => c | Err _ => QuotaCounter.mark_dirty c end in
        {| tracker := t'; buckets := <[id := Some c]> (buckets st) |}
      else st
  | _ => st
  end.
(** [sync_all]: one pass over the ids known when it starts. *)
Definition sync_all (st : QS) : QS :=
  foldl (λ st id, sync_one id st) st (map fst (map_to_list (buckets st))).

(** A process restart: only what the tracker holds survives. *)
Definition restart (st : QS) : QS := qs_new (tracker st).

End Engine.

(** ** Correctness against the tracker's laws *)

Section Laws.
Context {T : Type} `{TrackerLaws T}.
Notation QS := (QuotaState T).
Implicit Types st : QS.

(** The total an id stands at: the bucket's when it is loaded, otherwise what
    the tracker would restore. *)
Definition live st (id : string) : N :=
  match buckets st !! id with
  | Some (Some c) => QuotaCounter.bytes c
  | _ => opt_or 0%N (stored (tracker st) id)
  end.

(** A clean bucket is exactly what the tracker holds. *)
Definition synced st : Prop :=
  ∀ id c, buckets st !! id = Some (Some c) → QuotaCounter.dirty c = false →
    opt_or 0%N (stored (tracker st) id) = QuotaCounter.bytes c.
Definition all_clean st : Prop :=
  ∀ id c, buckets st !! id = Some (Some c) → QuotaCounter.dirty c = false.

Lemma synced_new t : synced (qs_new t).
Proof. intros id c. simpl. by rewrite lookup_empty. Qed.

(** The two ways [bucket] goes: the cell is filled already, or one load. [B] is
    the map with the empty cell in place. *)
Lemma bucket_cases id st r st' :
  bucket id st = (r, st') →
  (∃ c, buckets st !! id = Some (Some c) ∧ r = Ok c ∧ st' = st) ∨
  (∀ c, buckets st !! id ≠ Some (Some c)) ∧
  ∃ B, (∀ id', id' ≠ id → B !! id' = buckets st !! id') ∧ (∀ c, B !! id ≠ Some (Some c)) ∧
    ∃ g t', get_bytes id (tracker st) = (g, t') ∧
    match g with
    | Err e => if decide (err_kind e = Kind.NotFound) then
        r = Ok (QuotaCounter.new 0) ∧
        st' = {| tracker := t'; buckets := <[id := Some (QuotaCounter.new 0)]> B |}
        else r = Err e ∧ st' = {| tracker := t'; buckets := B |}
    | Ok b => r = Ok (QuotaCounter.new b) ∧
        st' = {| tracker := t'; buckets := <[id := Some (QuotaCounter.new b)]> B |}
    end.
Proof.
  unfold bucket, entry, set_bucket, modify, gets, on_tracker, attempt, throw,
    mbind, M_bind, mret, M_ret.
  intros Hb. destruct (buckets st !! id) as [[c|]|] eqn:E.
  - left. exists c. by injection Hb as <- <-.
  - right. split; [done|]. exists (buckets st). split; [done|]. split; [by rewrite E|].
    destruct (get_bytes id (tracker st)) as [g t']. exists g, t'. split; [done|].
    destruct g; [|case_decide]; by simplify_eq.
  - right. split; [done|]. exists (<[id:=None]> (buckets st)).
    split; [intros; by apply lookup_insert_ne|]. split; [by rewrite lookup_insert_eq|]. simpl in Hb.
    destruct (get_bytes id (tracker st)) as [g t']. exists g, t'. split; [done|].
    destruct g; [|case_decide]; by simplify_eq.
Qed.

(** Filling the bucket of [id] with a counter that is dirty or agrees with the
    tracker. *)
Lemma put_bucket st t' B id c :
  synced st → (∀ id', stored t' id' = stored (tracker st) id') →
  (∀ id', id' ≠ id → B !! id' = buckets st !! id') →
  (QuotaCounter.dirty c = false → opt_or 0%N (stored (tracker st) id) = QuotaCounter.bytes c) →
  let st' := {| tracker := t'; buckets := <[id := Some c]> B |} in
  synced st' ∧ live st' id = QuotaCounter.bytes c ∧ (∀ id', id' ≠ id → live st' id' = live st id').
Proof.
  intros Hs Ht HB Hc st'. unfold live, synced. simpl. split; [|split].
  - intros id' c'. rewrite Ht. destruct (decide (id' = id)) as [->|Hne].
    + rewrite lookup_insert_eq. by intros [= <-].
    + rewrite lookup_insert_ne, HB by done. apply Hs.
  - by rewrite lookup_insert_eq.
  - intros id' Hne. by rewrite lookup_insert_ne, HB, Ht by done.
Qed.

Lemma live_unloaded st id :
  (∀ c, buckets st !! id ≠ Some (Some c)) → live st id = opt_or 0%N (stored (tracker st) id).
Proof. intros Hn. unfold live. destruct (buckets st !! id) as [[c|]|]; naive_solver. Qed.

(** What loading a bucket does: the same totals, the bucket in place, or the
    tracker's own error. *)
Lemma bucket_spec id st r st' :
  bucket id st = (r, st') → synced st →
  (∀ id', live st' id' = live st id') ∧ synced st' ∧
  match r with
  | Ok c => buckets st' !! id = Some (Some c) ∧ QuotaCounter.bytes c = live st id
  | Err e => err_kind e ≠ Kind.NotFound ∧ ∃ t', get_bytes id (tracker st) = (Err e, t')
  end.
Proof.
  intros Hb Hs. destruct (bucket_cases _ _ _ _ Hb) as [(c & Hc & -> & ->)|
    (Hn & B & HB & HBn & g & t' & Eg & Hg)].
  { split; [done|]. split; [done|]. split; [done|]. unfold live. by rewrite Hc. }
  pose proof (live_unloaded _ _ Hn) as Hlive.
  pose proof (λ id', get_bytes_frame id (tracker st) g t' id' Eg) as Ht.
  assert (Hload : ∀ b, opt_or 0%N (stored (tracker st) id) = b →
    st' = {| tracker := t'; buckets := <[id := Some (QuotaCounter.new b)]> B |} →
    (∀ id', live st' id' = live st id') ∧ synced st' ∧
    buckets st' !! id = Some (Some (QuotaCounter.new b)) ∧ b = live st id).
  { intros b Hb' ->. destruct (put_bucket st t' B id (QuotaCounter.new b)) as (H1 & H2 & H3); auto.
    split; [|split; [done|split; [apply lookup_insert_eq|congruence]]].
    intros id'. destruct (decide (id' = id)) as [->|]; [|by apply H3].
    rewrite H2, Hlive. by rewrite Hb'. }
  destruct g as [b|e]; [|case_decide as Hk]; destruct Hg as [-> Hst].
  - apply get_bytes_ok in Eg. apply (Hload _ Eg Hst).
  - apply get_bytes_not_found in Eg; [|done]. apply Hload; [by rewrite Eg|done].
  - subst st'. split; [|split; [|eauto]].
    + intros id'. unfold live at 1. simpl. rewrite Ht. destruct (decide (id' = id)) as [->|Hne].
      * rewrite Hlive. destruct (B !! id) as [[c|]|] eqn:EB; naive_solver.
      * by rewrite HB.
    + intros id' c. simpl. rewrite Ht. destruct (decide (id' = id)) as [->|Hne].
      * intros Hx. by apply HBn in Hx.
      * rewrite HB by done. apply Hs.
Qed.

(** ** The contract of the engine *)

(** The calls a client or the background task makes. *)
Inductive call :=
| Commit (id : string) (limit old_size new_size : N)
| Release (id : string) (size : N)
| Zero (id : string)
| Read (id : string)
| SyncPass.

Definition perform (q : call) : QS → result DalError N * QS :=
  match q with
  | Commit id limit old_size new_size => commit_write id limit old_size new_size
  | Release id size => commit_delete id size ≫= λ _, mret 0%N
  | Zero id => reset id ≫= λ _, mret 0%N
  | Read id => current_bytes id
  | SyncPass => λ st, (Ok 0%N, sync_all st)
  end.

(** The specification: a total per id, with no buckets, tracker or flags. *)
Definition spec_result (u : string → N) (q : call) : result DalError N :=
  match q with
  | Commit id limit old_size new_size =>
      let total := QuotaCounter.new_total (u id) old_size new_size in
      if (limit <? total)%N then Err (quota_exceeded_error id (u id) total limit) else Ok total
  | Read id => Ok (u id)
  | _ => Ok 0%N
  end.
Definition spec_total (u : string → N) (q : call) (id' : string) : N :=
  match q with
  | Commit id limit old_size new_size =>
      let total := QuotaCounter.new_total (u id) old_size new_size in
      if decide (id' = id ∧ (total ≤ limit)%N) then total else u id'
  | Release id size => if decide (id' = id) then QuotaCounter.new_total (u id) size 0 else u id'
  | Zero id => if decide (id' = id) then 0%N else u id'
  | _ => u id'
  end.
(** The calls that consult the tracker. *)
Definition loads (q : call) : bool :=
  match q with Commit _ _ _ _ | Release _ _ | Read _ => true | _ => false end.

Inductive spec_step (u : string → N) (q : call) : result DalError N → (string → N) → Prop :=
| spec_done u' : (∀ id, u' id = spec_total u q id) → spec_step u q (spec_result u q) u'
| spec_load_failed e u' :
    loads q = true → err_kind e ≠ Kind.NotFound → (∀ id, u' id = u id) →
    spec_step u q (Err e) u'.

Inductive spec_run (u : string → N) : list (call * result DalError N) → (string → N) → Prop :=
| spec_nil : spec_run u [] u
| spec_cons q r u1 tr u2 : spec_step u q r u1 → spec_run u1 tr u2 → spec_run u ((q, r) :: tr) u2.

Fixpoint perform_all (qs : list call) (st : QS) : list (call * result DalError N) * QS :=
  match qs with
  | [] => ([], st)
  | q :: qs =>
      let '(r, st) := perform q st in
      let '(tr, st) := perform_all qs st in ((q, r) :: tr, st)
  end.

(** Replacing a loaded bucket by one that is dirty, or has the old count and no
    cleaner flag. *)
Lemma replace_bucket st id c r st' :
  set_bucket id (Some c) st = (r, st') → synced st →
  (QuotaCounter.dirty c = false → opt_or 0%N (stored (tracker st) id) = QuotaCounter.bytes c) →
  r = Ok () ∧ synced st' ∧ live st' id = QuotaCounter.bytes c ∧
  (∀ id', id' ≠ id → live st' id' = live st id').
Proof. unfold set_bucket, modify. intros [= <- <-] Hs Hc. split; [done|]. by apply put_bucket. Qed.

(** [apply_delta] leaves the counter as it is, or sets it and marks it. *)
Lemma apply_delta_cases id old_size new_size limit c :
  let total := QuotaCounter.new_total (QuotaCounter.bytes c) old_size new_size in
  QuotaCounter.apply_delta id old_size new_size limit c =
    if (limit <? total)%N
    then (Err (quota_exceeded_error id (QuotaCounter.bytes c) total limit), c)
    else (Ok total, QuotaCounter.mk total true).
Proof. done. Qed.

Lemma perform_delta id limit old_size new_size st r st' :
  commit_write id limit old_size new_size st = (r, st') → synced st →
  synced st' ∧ spec_step (live st) (Commit id limit old_size new_size) r (live st').
Proof.
  unfold commit_write, mbind, M_bind. intros Hr Hs.
  destruct (bucket id st) as [[c|e] st1] eqn:Eb; pose proof (bucket_spec _ _ _ _ Eb Hs) as (Hl & Hs1 & Hb).
  2: { injection Hr as <- <-. destruct Hb as [Hk _]. split; [done|]. by apply spec_load_failed. }
  destruct Hb as [Hc Hbytes]. rewrite apply_delta_cases, Hbytes in Hr.
  set (total := QuotaCounter.new_total (live st id) old_size new_size) in *.
  assert (Hres : spec_result (live st) (Commit id limit old_size new_size) =
    if (limit <? total)%N then Err (quota_exceeded_error id (live st id) total limit) else Ok total) by done.
  destruct (N.ltb_spec limit total) as [Hlt|Hge];
    (destruct (set_bucket id _ st1) as [r2 st2] eqn:E2;
     destruct (replace_bucket _ _ _ _ _ E2 Hs1) as (-> & Hs2 & Hl2 & Hf2);
     [|injection Hr as <- <-; split; [done|]; rewrite <-Hres; apply spec_done;
       intros id'; cbn; fold total]).
  - intros Hd. by apply Hs1.
  - rewrite decide_False by lia.
    destruct (decide (id' = id)) as [->|]; [congruence|]. rewrite Hf2; auto.
  - done.
  - destruct (decide (id' = id)) as [->|].
    + by rewrite decide_True.
    + rewrite decide_False by naive_solver. rewrite Hf2; auto.
Qed.

(** The bucket of [id] is in place, so that the tracker is not consulted. *)
Definition loaded st id : Prop := ∃ c, buckets st !! id = Some (Some c).

Lemma commit_write_loaded id limit o n st r st' :
  commit_write id limit o n st = (r, st') →
  (is_ok r = true → loaded st' id) ∧
  (loaded st id → is_ok r = false → synced st →
    (limit < QuotaCounter.new_total (live st id) o n)%N).
Proof.
  unfold commit_write, mbind, M_bind. intros Hr.
  destruct (bucket id st) as [[c|e] st1] eqn:Eb.
  - rewrite apply_delta_cases in Hr. unfold set_bucket, modify, lift in Hr.
    split.
    + intros Hok. case_match; simplify_eq/=. eexists. apply lookup_insert_eq.
    + intros _ Hok Hs. destruct (bucket_spec _ _ _ _ Eb Hs) as (_ & _ & _ & <-).
      destruct (N.ltb_spec limit (QuotaCounter.new_total (QuotaCounter.bytes c) o n)); [done|].
      by simplify_eq/=.
  - injection Hr as <- <-. split; [done|]. intros [c Hc].
    destruct (bucket_cases _ _ _ _ Eb) as [(? & ? & ? & ?)|[Hn _]]; [done|naive_solver].
Qed.

(** [commit_write] as its callers use it. *)
Lemma commit_write_spec id limit o n st r st' :
  commit_write id limit o n st = (r, st') → synced st →
  synced st' ∧ (∀ id', id' ≠ id → live st' id' = live st id') ∧
  match r with
  | Ok m => m = QuotaCounter.new_total (live st id) o n ∧ (m ≤ limit)%N ∧ live st' id = m
            ∧ loaded st' id
  | Err _ => live st' id = live st id ∧
             (loaded st id → (limit < QuotaCounter.new_total (live st id) o n)%N)
  end.
Proof.
  intros Hr Hs. destruct (commit_write_loaded _ _ _ _ _ _ _ Hr) as [Hl1 Hl2].
  destruct (perform_delta _ _ _ _ _ _ _ Hr Hs) as [Hs' Hst]. split; [done|].
  inversion Hst as [u' Hu Hres|e u' _ _ Hu Hres]; subst.
  - cbn in *. set (total := QuotaCounter.new_total (live st id) o n) in *.
    split; [intros id' Hne; rewrite Hu, decide_False by naive_solver; done|].
    destruct (N.ltb_spec limit total); rewrite Hu.
    + rewrite decide_False by lia. auto.
    + rewrite decide_True by auto. auto.
  - split; [auto|]. split; [auto|]. intros. by apply Hl2.
Qed.

Lemma perform_release id size st r st' :
  perform (Release id size) st = (r, st') → synced st →
  synced st' ∧ spec_step (live st) (Release id size) r (live st').
Proof.
  simpl. unfold commit_delete, mbind, M_bind, mret, M_ret. intros Hr Hs.
  destruct (bucket id st) as [[c|e] st1] eqn:Eb; pose proof (bucket_spec _ _ _ _ Eb Hs) as (Hl & Hs1 & Hb).
  2: { injection Hr as <- <-. destruct Hb as [Hk _]. split; [done|]. by apply spec_load_failed. }
  destruct Hb as [Hc Hbytes]. rewrite apply_delta_cases, Hbytes in Hr.
  rewrite (proj2 (N.ltb_ge _ _)) in Hr by (apply saturating_add_u64).
  destruct (set_bucket id _ st1) as [r2 st2] eqn:E2.
  destruct (replace_bucket _ _ _ _ _ E2 Hs1) as (-> & Hs2 & Hl2 & Hf2); [done|].
  injection Hr as <- <-. split; [done|].
  change (Ok 0%N) with (spec_result (live st) (Release id size)). apply spec_done.
  intros id'. simpl. case_decide as Hd; [by subst|]. rewrite Hf2; auto.
Qed.

(** [commit_delete] as its callers use it. *)
Lemma commit_delete_spec id size st r st' :
  commit_delete id size st = (r, st') → synced st → u64 (live st id) →
  synced st' ∧ (∀ id', id' ≠ id → live st' id' = live st id') ∧
  match r with
  | Ok _ => live st' id = (live st id - size)%N
  | Err _ => live st' id = live st id
  end.
Proof.
  intros Hr Hs Hu.
  assert (Hp : perform (Release id size) st =
    (match r with Ok _ => Ok 0%N | Err e => Err e end, st')).
  { simpl. unfold mbind, M_bind. rewrite Hr. by destruct r. }
  destruct (perform_release _ _ _ _ _ Hp Hs) as [Hs' Hst]. split; [done|].
  inversion Hst as [u' Hu' Hres|e u' _ _ Hu' Hres]; subst; cbn in *.
  - split; [intros id' Hne; by rewrite Hu', decide_False|]. destruct r; [|done].
    rewrite Hu', decide_True by done.
    unfold QuotaCounter.new_total, saturating_add, saturating_sub, u64 in *. lia.
  - destruct r; [done|]. auto.
Qed.

Lemma perform_zero id st r st' :
  perform (Zero id) st = (r, st') → synced st →
  synced st' ∧ spec_step (live st) (Zero id) r (live st').
Proof.
  simpl. unfold reset, entry, mbind, M_bind, mret, M_ret, gets. intros Hr Hs.
  assert (∃ c, QuotaCounter.bytes c = 0%N ∧ QuotaCounter.dirty c = true ∧
    r = Ok 0%N ∧ (∀ id', id' ≠ id → buckets st' !! id' = buckets st !! id') ∧
    st' = {| tracker := tracker st; buckets := <[id := Some c]> (buckets st') |}) as (c & Hc & Hd & -> & HB & ->).
  { unfold set_bucket, modify in Hr. destruct (buckets st !! id) as [[c|]|] eqn:E; simplify_eq/=.
    - exists (QuotaCounter.reset c). rewrite insert_insert_eq. split_and!; try done.
      intros. by rewrite lookup_insert_ne.
    - exists (QuotaCounter.mark_dirty (QuotaCounter.new 0)). rewrite insert_insert_eq. split_and!; try done.
      intros. by rewrite lookup_insert_ne.
    - exists (QuotaCounter.mark_dirty (QuotaCounter.new 0)). rewrite !insert_insert_eq. split_and!; try done.
      intros. by rewrite lookup_insert_ne. }
  destruct (put_bucket st (tracker st) (buckets st') id c) as (H1 & H2 & H3); [done..|by rewrite Hd|].
  split; [done|]. change (Ok 0%N) with (spec_result (live st) (Zero id)). apply spec_done.
  intros id'. simpl. case_decide as He; [subst; congruence|]. by apply H3.
Qed.

Lemma perform_read id st r st' :
  perform (Read id) st = (r, st') → synced st →
  synced st' ∧ spec_step (live st) (Read id) r (live st').
Proof.
  simpl. unfold current_bytes, mbind, M_bind, mret, M_ret. intros Hr Hs.
  destruct (bucket id st) as [[c|e] st1] eqn:Eb; pose proof (bucket_spec _ _ _ _ Eb Hs) as (Hl & Hs1 & Hb);
    injection Hr as <- <-; (split; [done|]).
  - destruct Hb as [_ Hb]. unfold QuotaCounter.get. rewrite Hb.
    change (Ok (live st id)) with (spec_result (live st) (Read id)). by apply spec_done.
  - destruct Hb as [Hk _]. by apply spec_load_failed.
Qed.

(** ** The background pass *)

Lemma sync_one_spec id st :
  synced st →
  synced (sync_one id st) ∧ (∀ id', live (sync_one id st) id' = live st id') ∧
  (∀ id', id' ≠ id → buckets (sync_one id st) !! id' = buckets st !! id') ∧
  (∀ id', is_Some (buckets (sync_one id st) !! id') ↔ is_Some (buckets st !! id')).
Proof.
  intros Hs. unfold sync_one. destruct (buckets st !! id) as [[c|]|] eqn:E; [|done..].
  destruct (QuotaCounter.dirty c) eqn:Ed; [|done]. cbn [QuotaCounter.get QuotaCounter.bytes].
  destruct (set_bytes id (QuotaCounter.bytes c) (tracker st)) as [r t'] eqn:Et.
  pose proof (λ id' Hne, set_bytes_frame _ _ _ _ _ id' Et Hne) as Hfr.
  set (c' := match r with Ok _ => _ | Err _ => _ end).
  assert (Hb : QuotaCounter.bytes c' = QuotaCounter.bytes c) by by destruct r.
  assert (Hp : QuotaCounter.dirty c' = false → opt_or 0%N (stored t' id) = QuotaCounter.bytes c').
  { destruct r as [[]|]; [|done]. intros _. by rewrite (set_bytes_ok _ _ _ _ Et). }
  split_and!; simpl.
  - intros id' c0. simpl. destruct (decide (id' = id)) as [->|Hne].
    + rewrite lookup_insert_eq. by intros [= <-].
    + rewrite lookup_insert_ne, Hfr by done. apply Hs.
  - intros id'. unfold live. simpl. destruct (decide (id' = id)) as [->|Hne].
    + by rewrite lookup_insert_eq, E.
    + by rewrite lookup_insert_ne, Hfr by done.
  - intros id' Hne. by rewrite lookup_insert_ne.
  - intros id'. destruct (decide (id' = id)) as [->|Hne].
    + rewrite lookup_insert_eq, E. split; eauto.
    + by rewrite lookup_insert_ne.
Qed.

Lemma sync_list_spec ids st :
  synced st →
  let st' := foldl (λ st id, sync_one id st) st ids in
  synced st' ∧ (∀ id', live st' id' = live st id').
Proof.
  revert st; induction ids as [|id ids IH]; intros st Hs; simpl; [done|].
  destruct (sync_one_spec id st Hs) as (H1 & H2 & _). destruct (IH _ H1) as [H3 H4].
  split; [done|]. intros id'. by rewrite H4, H2.
Qed.

Lemma perform_spec q st r st' :
  perform q st = (r, st') → synced st → synced st' ∧ spec_step (live st) q r (live st').
Proof.
  destruct q as [id limit o n|id size|id|id|].
  - apply perform_delta.
  - apply perform_release.
  - apply perform_zero.
  - apply perform_read.
  - simpl. intros [= <- <-] Hs. unfold sync_all.
    destruct (sync_list_spec (map fst (map_to_list (buckets st))) st Hs) as [H1 H2].
    split; [done|]. change (Ok 0%N) with (spec_result (live st) SyncPass). by apply spec_done.
Qed.

Lemma perform_all_spec qs st tr st' :
  perform_all qs st = (tr, st') → synced st → synced st' ∧ spec_run (live st) tr (live st').
Proof.
  revert st tr; induction qs as [|q qs IH]; intros st tr; simpl.
  { intros [= <- <-] Hs. split; [done|]. constructor. }
  destruct (perform q st) as [r st1] eqn:E1. destruct (perform_all qs st1) as [tr1 st2] eqn:E2.
  intros [= <- <-] Hs. destruct (perform_spec _ _ _ _ E1 Hs) as [Hs1 Hstep].
  destruct (IH _ _ E2 Hs1) as [Hs2 Hrun]. split; [done|]. by econstructor.
Qed.

(** *** Durability *)

Lemma sync_one_clean id st :
  (∀ b t, is_ok (set_bytes id b t).1 = true) →
  (∀ c, buckets (sync_one id st) !! id = Some (Some c) → QuotaCounter.dirty c = false).
Proof.
  intros Hok c. unfold sync_one. destruct (buckets st !! id) as [[c0|]|] eqn:E; [|congruence..].
  destruct (QuotaCounter.dirty c0) eqn:Ed; [|congruence].
  cbn [QuotaCounter.get QuotaCounter.bytes].
  specialize (Hok (QuotaCounter.bytes c0) (tracker st)).
  destruct (set_bytes id _ (tracker st)) as [[[]|e] t']; [|done]. simpl.
  rewrite lookup_insert_eq. by intros [= <-].
Qed.

Lemma sync_list_clean ids st :
  synced st → (∀ id b t, is_ok (set_bytes id b t).1 = true) →
  ∀ id c, id ∈ ids → buckets (foldl (λ st id, sync_one id st) st ids) !! id = Some (Some c) →
    QuotaCounter.dirty c = false.
Proof.
  intros Hs Hok. induction ids as [|id ids IH] using rev_ind; [by intros ? ? ?%elem_of_nil|].
  intros id' c Hin. rewrite foldl_app. simpl.
  destruct (sync_list_spec ids st Hs) as [Hs1 _].
  destruct (decide (id' = id)) as [->|Hne]; [by apply sync_one_clean|].
  destruct (sync_one_spec id _ Hs1) as (_ & _ & Hfr & _). rewrite Hfr by done.
  apply IH. apply elem_of_app in Hin as [?|?%list_elem_of_singleton]; done.
Qed.

Lemma sync_list_dom ids st id :
  synced st → is_Some (buckets (foldl (λ st id, sync_one id st) st ids) !! id) →
  is_Some (buckets st !! id).
Proof.
  intros Hs. induction ids as [|id' ids IH] using rev_ind; [done|].
  rewrite foldl_app. simpl. destruct (sync_list_spec ids st Hs) as [Hs1 _].
  destruct (sync_one_spec id' _ Hs1) as (_ & _ & _ & Hd). rewrite Hd. apply IH.
Qed.

Lemma sync_all_clean st :
  synced st → (∀ id b t, is_ok (set_bytes id b t).1 = true) → all_clean (sync_all st).
Proof.
  intros Hs Hok id c Hc. eapply (sync_list_clean _ st Hs Hok); [|exact Hc].
  destruct (sync_list_dom (map fst (map_to_list (buckets st))) st id Hs) as [cell Hcell]; [by eexists|].
  apply list_elem_of_fmap. exists (id, cell). split; [done|]. by apply elem_of_map_to_list.
Qed.

Lemma restart_live st id :
  synced st → (∀ c, buckets st !! id = Some (Some c) → QuotaCounter.dirty c = false) →
  live (restart st) id = live st id.
Proof.
  intros Hs Hc. unfold live, restart, qs_new. simpl. rewrite lookup_empty.
  destruct (buckets st !! id) as [[c|]|] eqn:E; [|done..]. apply Hs; auto.
Qed.

(** ** Properties *)

(** C30. The engine with its lazily loaded buckets, dirty flags and tracker is a
    map from ids to totals: every sequence of commits, releases, resets, reads and
    background passes on a fresh engine gives the results and totals of the plain
    map that starts with what the tracker persisted, except that a call may fail
    with the tracker's own load error (never [NotFound]) and then changes no
    total. In particular a reset is effective even when the tracker cannot be
    read. *)
Theorem engine_refines_totals (t : T) (qs : list call) :
  spec_run (λ id, opt_or 0%N (stored t id))
    (perform_all qs (qs_new t)).1 (live (perform_all qs (qs_new t)).2).
Proof.
  destruct (perform_all qs (qs_new t)) as [tr st'] eqn:E.
  apply perform_all_spec in E as [_ E]; [exact E | apply synced_new].
Qed.

(** Totals survive a restart: after any calls on a fresh engine, a background
    pass during which the tracker accepts its writes leaves the tracker such that
    an engine started from it has the same total for every id, touched or not. *)
Theorem restart_after_sync_keeps_totals (t : T) (qs : list call) (id : string) :
  (∀ id b t, is_ok (set_bytes id b t).1 = true) →
  let st := (perform_all qs (qs_new t)).2 in
  live (restart (sync_all st)) id = live st id.
Proof.
  intros Hok st. unfold st. destruct (perform_all qs (qs_new t)) as [tr st'] eqn:E.
  apply perform_all_spec in E as [Hs _]; [|apply synced_new]. simpl.
  destruct (sync_list_spec (map fst (map_to_list (buckets st'))) st' Hs) as [Hs1 Hl].
  rewrite restart_live; [apply Hl | done |]. by apply sync_all_clean.
Qed.

End Laws.

(** ** Concrete runs *)

Section Demo.
Open Scope string_scope.

Definition demo_calls : list call :=
  [Commit "alice" 100 0 70; Commit "alice" 100 0 40; SyncPass; Release "alice" 30;
   Read "alice"; Zero "bob"; Read "bob"].
Definition demo_tracker : MemoryTracker := {["bob" := 9%N]}.

Example demo_results :
  map (λ p, is_ok p.2) (perform_all demo_calls (qs_new demo_tracker)).1 =
    [true; false; true; true; true; true; true] ∧
  live (perform_all demo_calls (qs_new demo_tracker)).2 "alice" = 40%N ∧
  live (perform_all demo_calls (qs_new demo_tracker)).2 "bob" = 0%N ∧
  snapshot (tracker (perform_all demo_calls (qs_new demo_tracker)).2) "alice" = 70%N.
Proof. by vm_compute. Qed.

Lemma engine_refines_totals_witness :
  spec_run (λ id, opt_or 0%N (stored demo_tracker id))
    (perform_all demo_calls (qs_new demo_tracker)).1
    (live (perform_all demo_calls (qs_new demo_tracker)).2).
Proof. exact (engine_refines_totals demo_tracker demo_calls). Defined.

Lemma restart_after_sync_keeps_totals_witness :
  live (restart (sync_all (perform_all demo_calls (qs_new demo_tracker)).2)) "alice" = 40%N.
Proof.
  rewrite (restart_after_sync_keeps_totals demo_tracker demo_calls "alice").
  - by vm_compute.
  - by intros id b t.
Defined.
End Demo.
