(* ===== verification/Service.v ===== *)
(** * The raw storage interface

    [opendal_core::raw::Service] as the layers of this repository see it: the
    operations of a backend over its own state [B], and the writers, deleters and
    copiers it hands out. The backends themselves are third-party code: [Service]
    is the parameter, [ServiceLaws] is the documented behaviour the layers rely
    on, in terms of the sizes of the objects a backend holds. Options ([OpWrite]
    and the like) are passed through by the layers and are left out.

    [Sim] is a concrete backend used to evaluate the layers on examples: a map of
    objects, deletions applied at once or at close, and scripted failures. *)

From S2P Require Import Prelude.
From S2P Require Import RustStr.
From S2P Require Import Errors.
From stdpp Require Import options.
Close Scope string_scope.

Class Service (B : Type) := {
  Metadata : Type;
  content_length : Metadata → N;
  Reader : Type;
  Lister : Type;
  Presigned : Type;
  Writer : Type;
  Deleter : Type;
  Copier : Type;
  create_dir : string → M B DalError ();
  stat : string → M B DalError Metadata;
  read : string → M B DalError Reader;
  write : string → M B DalError Writer;
  open_deleter : M B DalError Deleter;
  list_dir : string → M B DalError Lister;
  copy : string → string → M B DalError Copier;
  rename : string → string → M B DalError ();
  presign : string → M B DalError Presigned;
  writer_write : string → M (Writer * B) DalError ();
  writer_close : M (Writer * B) DalError Metadata;
  writer_abort : M (Writer * B) DalError ();
  deleter_delete : string → M (Deleter * B) DalError ();
  deleter_close : M (Deleter * B) DalError ();
  copier_next : M (Copier * B) DalError (option N);
  copier_close : M (Copier * B) DalError Metadata;
  copier_abort : M (Copier * B) DalError ();
}.

(** The size in bytes of a buffer, as a [u64]. *)
Definition blen (bs : string) : N := N.of_nat (String.length bs).

(** [m1] and [m2] differ at [p] only. *)
Definition same_except (p : string) (m1 m2 : gmap string N) : Prop :=
  ∀ q, q ≠ p → m1 !! q = m2 !! q.

(** Documented behaviour. A writer (copier) only touches the path it was opened
    on, and its [close] makes the object as long as what was written (copied);
    [rename] moves an object, replacing the destination; a deleter removes what
    was queued, at once or at [close]; an error leaves a move undone and every
    object a deleter was not asked to remove in place. *)
Class ServiceLaws (B : Type) `{Service B} := {
  files : B → gmap string N;
  w_target : Writer → string;
  w_size : Writer → N;
  d_queue : Deleter → list string;
  c_from : Copier → string;
  c_to : Copier → string;
  stat_law p b r b' : stat p b = (r, b') →
    files b' = files b ∧
    match r with Ok m => files b !! p = Some (content_length m)
            | Err e => err_kind e = Kind.NotFound → files b !! p = None end;
  rename_law from to b r b' : rename from to b = (r, b') →
    match r with
    | Ok _ => ∃ s, files b !! from = Some s ∧ files b' = <[to := s]> (delete from (files b))
    | Err _ => files b' = files b
    end;
  write_law p b r b' : write p b = (r, b') →
    same_except p (files b') (files b) ∧
    match r with Ok w => w_target w = p ∧ w_size w = 0%N | Err _ => True end;
  writer_write_law bs w b r w' b' : writer_write bs (w, b) = (r, (w', b')) →
    same_except (w_target w) (files b') (files b) ∧ w_target w' = w_target w ∧
    (r = Ok () → w_size w' = (w_size w + blen bs)%N);
  writer_close_law w b r w' b' : writer_close (w, b) = (r, (w', b')) →
    same_except (w_target w) (files b') (files b) ∧
    (is_ok r = true → files b' !! w_target w = Some (w_size w));
  writer_abort_law w b r w' b' : writer_abort (w, b) = (r, (w', b')) →
    same_except (w_target w) (files b') (files b);
  open_deleter_law b r b' : open_deleter b = (r, b') →
    files b' = files b ∧ match r with Ok d => d_queue d = [] | Err _ => True end;
  deleter_delete_law p d b r d' b' : deleter_delete p (d, b) = (r, (d', b')) →
    match r with
    | Ok _ => files b' = delete p (files b) ∧ d_queue d' = d_queue d ∨
              files b' = files b ∧ d_queue d' = d_queue d ++ [p]
    | Err _ => d_queue d' = d_queue d ∧ (files b' = files b ∨ files b' = delete p (files b))
    end;
  deleter_close_law d b r d' b' : deleter_close (d, b) = (r, (d', b')) →
    match r with
    | Ok _ => files b' = foldr delete (files b) (d_queue d) ∧ d_queue d' = []
    | Err _ => ∀ q, files b' !! q = files b !! q ∨ q ∈ d_queue d ∧ files b' !! q = None
    end;
  copy_law from to b r b' : copy from to b = (r, b') →
    same_except to (files b') (files b) ∧
    match r with Ok c => c_from c = from ∧ c_to c = to | Err _ => True end;
  copier_next_law c b r c' b' : copier_next (c, b) = (r, (c', b')) →
    same_except (c_to c) (files b') (files b) ∧ c_from c' = c_from c ∧ c_to c' = c_to c;
  copier_close_law c b r c' b' : copier_close (c, b) = (r, (c', b')) →
    same_except (c_to c) (files b') (files b) ∧
    (is_ok r = true → ∃ s, files b !! c_from c = Some s ∧ files b' !! c_to c = Some s);
  copier_abort_law c b r c' b' : copier_abort (c, b) = (r, (c', b')) →
    same_except (c_to c) (files b') (files b);
}.

Lemma same_except_refl p m : same_except p m m.
Proof. done. Qed.
Lemma same_except_trans p m1 m2 m3 :
  same_except p m1 m2 → same_except p m2 m3 → same_except p m1 m3.
Proof. intros H1 H2 q Hq. rewrite H1, H2 by done. done. Qed.
#[export] Hint Resolve same_except_refl : core.

(** ** A simulated backend *)

Module Sim.

(** [rename_faults] scripts whether the next renames fail; [deferred] says whether deletions wait for [close]. *)
Record t := { objs : gmap string N; deferred : bool; rename_faults : list bool }.
Record writer := { wr_path : string; wr_len : N }.
Record copier := { cp_from : string; cp_to : string }.

Definition set_objs (o : gmap string N) (b : t) : t :=
  {| objs := o; deferred := deferred b; rename_faults := rename_faults b |}.
Definition not_found : DalError := dal_error Kind.NotFound "no such object".

Definition sim_stat (p : string) : M t DalError N := λ b, (ok_or not_found (objs b !! p), b).
Definition sim_rename (from to : string) : M t DalError () := λ b,
  let '(fault, rest) := match rename_faults b with [] => (false, []) | f :: l => (f, l) end in
  let b := {| objs := objs b; deferred := deferred b; rename_faults := rest |} in
  if fault : bool then (Err (dal_error Kind.Unexpected "i/o error"), b)
  else match objs b !! from with
       | Some s => (Ok (), set_objs (<[to := s]> (delete from (objs b))) b)
       | None => (Err not_found, b)
       end.
Definition sim_write (p : string) : M t DalError writer := λ b,
  (Ok {| wr_path := p; wr_len := 0 |}, set_objs (<[p := 0%N]> (objs b)) b).
Definition sim_writer_write (bs : string) : M (writer * t) DalError () := λ '(w, b),
  let n := (wr_len w + blen bs)%N in
  (Ok (), ({| wr_path := wr_path w; wr_len := n |}, set_objs (<[wr_path w := n]> (objs b)) b)).
Definition sim_writer_close : M (writer * t) DalError N := λ '(w, b),
  (Ok (wr_len w), (w, set_objs (<[wr_path w := wr_len w]> (objs b)) b)).
Definition sim_writer_abort : M (writer * t) DalError () := λ '(w, b),
  (Ok (), (w, set_objs (delete (wr_path w) (objs b)) b)).
Definition sim_deleter_delete (p : string) : M (list string * t) DalError () := λ '(d, b),
  if deferred b then (Ok (), (d ++ [p], b)) else (Ok (), (d, set_objs (delete p (objs b)) b)).
Definition sim_deleter_close : M (list string * t) DalError () := λ '(d, b),
  (Ok (), ([], set_objs (foldr delete (objs b) d) b)).
Definition sim_copy (from to : string) : M t DalError copier := λ b,
  (Ok {| cp_from := from; cp_to := to |}, b).
Definition sim_copier_close : M (copier * t) DalError N := λ '(c, b),
  match objs b !! cp_from c with
  | Some s => (Ok s, (c, set_objs (<[cp_to c := s]> (objs b)) b))
  | None => (Err not_found, (c, b))
  end.

#[export] Instance sim_service : Service t := {|
  Metadata := N; content_length n := n; Reader := string; Lister := string; Presigned := string;
  Writer := writer; Deleter := list string; Copier := copier;
  create_dir _ := mret (); stat := sim_stat; read p := mret p; write := sim_write;
  open_deleter := mret []; list_dir p := mret p; copy := sim_copy; rename := sim_rename;
  presign p := mret p; writer_write := sim_writer_write; writer_close := sim_writer_close;
  writer_abort := sim_writer_abort; deleter_delete := sim_deleter_delete;
  deleter_close := sim_deleter_close; copier_next := mret None;
  copier_close := sim_copier_close; copier_abort := mret ();
|}.

Ltac sim_step :=
  intros; simplify_eq/=;
  unfold sim_stat, sim_rename, sim_deleter_delete, sim_copier_close, sim_write, sim_copy, mret, M_ret in *;
  repeat case_match; simplify_eq/=;
  unfold same_except; split_and?; intros; simplify_eq/=;
  rewrite ?lookup_insert_ne, ?lookup_delete_ne, ?lookup_insert_eq by done; eauto.

#[export] Program Instance sim_laws : ServiceLaws t := {|
  files := objs; w_target := wr_path; w_size := wr_len; d_queue := λ d : list string, d;
  c_from := cp_from; c_to := cp_to;
|}.
Next Obligation. sim_step; unfold ok_or in *; repeat case_match; simplify_eq/=; done. Qed.
Next Obligation. sim_step. all: try (try split; done). Qed.
Next Obligation. sim_step. all: try (try split; done). Qed.
Next Obligation. sim_step. all: try (try split; done). Qed.
Next Obligation. sim_step. all: try (try split; done). Qed.
Next Obligation. sim_step. all: try (try split; done). Qed.
Next Obligation. sim_step. all: try (try split; done). Qed.
Next Obligation. sim_step. all: try (try split; done). Qed.
Next Obligation. sim_step. all: try (try split; done). Qed.
Next Obligation. sim_step. all: try (try split; done). Qed.
Next Obligation. sim_step. all: try (try split; done). Qed.
Next Obligation. sim_step. all: try (try split; done). Qed.
Next Obligation. sim_step. all: try (try split; done). Qed.

End Sim.
Export (hints) Sim.

(** ** Clients

    How an operator drives a service: open a handle, work with it, close it; a
    write that fails is aborted. *)

Section Client.
Context {B : Type} `{Service B}.

Definition with_handle {H A} (open : M B DalError H) (body : M (H * B) DalError A) : M B DalError A :=
  λ b, match open b with
       | (Err e, b) => (Err e, b)
       | (Ok h, b) => let '(r, (_, b)) := body (h, b) in (r, b)
       end.

Fixpoint write_chunks (chunks : list string) : M (Writer * B) DalError () :=
  match chunks with
  | [] => mret ()
  | bs :: chunks => _ ← writer_write bs; write_chunks chunks
  end.
Definition put (path : string) (chunks : list string) : M B DalError Metadata :=
  with_handle (write path)
    (r ← attempt (write_chunks chunks);
     match r with
     | Ok _ => writer_close
     | Err e => _ ← attempt (E := DalError) writer_abort; throw e
     end).

Fixpoint delete_each (paths : list string) : M (Deleter * B) DalError () :=
  match paths with
  | [] => mret ()
  | p :: paths => _ ← deleter_delete p; delete_each paths
  end.
Definition remove (paths : list string) : M B DalError () :=
  with_handle open_deleter (_ ← delete_each paths; deleter_close).

Fixpoint copy_steps (n : nat) : M (Copier * B) DalError () :=
  match n with O => mret () | S n => _ ← copier_next; copy_steps n end.
Definition duplicate (from to : string) (steps : nat) : M B DalError Metadata :=
  with_handle (copy from to) (_ ← copy_steps steps; copier_close).

End Client.

(** The bytes a sequence of buffers adds up to. *)
Definition total_len (chunks : list string) : N := foldr (λ bs n, (blen bs + n)%N) 0%N chunks.

(** ** Parts of a content *)

(** The [len] bytes of [c] from [from] on. *)
Definition slice (from len : N) (c : string) : string := String.substring (N.to_nat from) (N.to_nat len) c.

Lemma substring_join a b c :
  (String.substring 0 a c +:+ String.substring a b c)%string = String.substring 0 (a + b) c.
Proof.
  revert c; induction a as [|a IH]; intros c; cbn [Nat.add].
  { destruct c; cbn; done. }
  destruct c as [|x c]; cbn; [done|]. f_equal. apply IH.
Qed.
Lemma slice_join a b c : (slice 0 a c +:+ slice a b c)%string = slice 0 (a + b) c.
Proof. unfold slice. rewrite N2Nat.inj_add. apply substring_join. Qed.
Lemma slice_all c : slice 0 (blen c) c = c.
Proof. unfold slice, blen. rewrite Nat2N.id. cbn. induction c as [|x c IH]; cbn; [done|]. by f_equal. Qed.
Lemma slice_none c : slice 0 0 c = ""%string.
Proof. unfold slice. cbn. by destruct c. Qed.

Lemma substring_short n m (c : string) : String.length c ≤ n → String.substring n m c = ""%string.
Proof.
  revert n; induction c as [|x c IH]; intros n Hn; [by destruct n, m|]. destruct n as [|n]; cbn in *; [lia|]. apply IH. lia.
Qed.
Lemma substring_min n m (c : string) : String.substring n (Nat.min m (String.length c - n)) c = String.substring n m c.
Proof.
  revert n m; induction c as [|x c IH]; intros n m.
  - cbn. rewrite Nat.min_0_r. by destruct n, m.
  - destruct n as [|n]; [|apply IH]. destruct m as [|m]; [done|]. cbn. f_equal. specialize (IH 0 m). by rewrite Nat.sub_0_r in IH.
Qed.
Lemma slice_clamped off len c : slice off (N.min len (blen c - off)) c = slice off len c.
Proof.
  unfold slice, blen. rewrite <-(substring_min (N.to_nat off) (N.to_nat len) c). f_equal. lia.
Qed.
Lemma slice_next off a b c : (slice off a c +:+ slice (off + a) b c)%string = slice off (a + b) c.
Proof.
  unfold slice. rewrite !N2Nat.inj_add. generalize (N.to_nat off) (N.to_nat a) (N.to_nat b). clear. intros n a b.
  revert n; induction c as [|x c IH]; intros n; [by destruct n, a, b|]. destruct n as [|n]; [apply substring_join|]. apply IH.
Qed.
Lemma slice_past off len c : (blen c ≤ off)%N → slice off len c = ""%string.
Proof. unfold slice, blen. intros ?. apply substring_short. lia. Qed.
