(* ===== verification/QuotaLayer.v ===== *)
(** * The write quota ([QuotaLayer] of [layers/quota.rs])

    The layer around a backend: writes and copies land on a staging path, the
    quota is charged when they are closed, and the staged object is then renamed
    into place; deletes release what they removed. [World] is what the operations
    share: the backend, the quota engine and the staging-path counter. The layered
    service is again an instance of [Service] ([quota_service]).

    The theorems state the accounting of whole operations (open, stream, close)
    over any backend that obeys [ServiceLaws] and any tracker that obeys
    [TrackerLaws]: the stored bytes never exceed the counter, a rejected write
    leaves every object as it was, a write that is accepted is charged exactly. *)

From S2P Require Import Prelude.
From S2P Require Import RustStr.
From S2P Require Import Errors.
From S2P Require Import QuotaCounter.
From S2P Require Import QuotaState.
From S2P Require Import Service.
From stdpp Require Import options.

(** ** Staging paths *)

(** The text [tmp_path_for] builds from the path, the clock and the counter. *)
Definition tmp_name (path : string) (nanos n : N) : string :=
  (path +:+ ".quota-tmp-" +:+ pretty nanos +:+ "-" +:+ pretty n)%string.

(** ** Operations *)

(** [clock n] is the time in nanoseconds the [n]-th staging path is named at. *)
Record World (B T : Type) := {
  be : B;
  qs : QuotaState T;
  suffix_counter : N;
  clock : N → N;
}.
Arguments be {B T} _.
Arguments qs {B T} _.
Arguments suffix_counter {B T} _.
Arguments clock {B T} _.

Section Layer.
Context {B T : Type} `{Service B} `{QuotaTracker T}.
Notation W := (World B T).
Implicit Types w : W.

Definition set_be (b : B) (w : W) : W :=
  {| be := b; qs := qs w; suffix_counter := suffix_counter w; clock := clock w |}.
Definition set_qs (q : QuotaState T) (w : W) : W :=
  {| be := be w; qs := q; suffix_counter := suffix_counter w; clock := clock w |}.

(** Calls on the backend, on the quota engine, on a wrapped handle. *)
Definition in_be {A} (m : M B DalError A) : M W DalError A :=
  λ w, let '(r, b) := m (be w) in (r, set_be b w).
Definition in_qs {A} (m : M (QuotaState T) DalError A) : M W DalError A :=
  λ w, let '(r, q) := m (qs w) in (r, set_qs q w).
Definition in_handle {H I A} (get : H → I) (set : I → H → H)
    (m : M (I * B) DalError A) : M (H * W) DalError A :=
  λ '(h, w), let '(r, (i, b)) := m (get h, be w) in (r, (set i h, set_be b w)).
Definition in_world {H A} (m : M W DalError A) : M (H * W) DalError A :=
  λ '(h, w), let '(r, w) := m w in (r, (h, w)).
Definition set_handle {H} (f : H → H) : M (H * W) DalError () := λ '(h, w), (Ok (), (f h, w)).
Definition handle {H} : M (H * W) DalError H := λ '(h, w), (Ok h, (h, w)).

(** [tmp_path_for] *)
Definition tmp_path_for (path : string) : M W DalError string :=
  λ w, let n := suffix_counter w in
       (Ok (tmp_name path (clock w n) n),
        {| be := be w; qs := qs w; suffix_counter := wrapping_add n 1; clock := clock w |}).

(** [size_of] *)
Definition size_of (path : string) : M B DalError N :=
  r ← attempt (stat path); mret (unwrap_or 0%N (content_length <$> r)).

(** [best_effort_remove] *)
Definition best_effort_remove (path : string) : M B DalError () :=
  λ b, match open_deleter b with
       | (Err _, b) => (Ok (), b)
       | (Ok d, b) =>
           let '(_, (d, b)) := deleter_delete path (d, b) in
           let '(_, (_, b)) := deleter_close (d, b) in (Ok (), b)
       end.

(** [commit_rename] *)
Definition commit_rename (tmp dest : string) : M B DalError () :=
  r ← attempt (E := DalError) (rename tmp dest);
  if is_ok r then mret ()
  else _ ← best_effort_remove dest; rename tmp dest.

(** [QuotaLayer] *)
Record QuotaLayer := { l_id : string; l_limit : N }.

(** [QuotaLayer::current_bytes] *)
Definition layer_current_bytes (l : QuotaLayer) : M W DalError N := in_qs (current_bytes (l_id l)).

(** *** [QuotaWriter] *)

Record QuotaWriter := {
  qw_inner : Writer;
  qw_layer : QuotaLayer;
  qw_path : string;
  qw_tmp_path : string;
  qw_written : N;
}.
Definition qw_set_inner (i : Writer) (h : QuotaWriter) : QuotaWriter :=
  {| qw_inner := i; qw_layer := qw_layer h; qw_path := qw_path h;
     qw_tmp_path := qw_tmp_path h; qw_written := qw_written h |}.
Definition qw_set_written (n : N) (h : QuotaWriter) : QuotaWriter :=
  {| qw_inner := qw_inner h; qw_layer := qw_layer h; qw_path := qw_path h;
     qw_tmp_path := qw_tmp_path h; qw_written := n |}.
Definition on_writer {A} : M (Writer * B) DalError A → M (QuotaWriter * W) DalError A :=
  in_handle qw_inner qw_set_inner.

(** [QuotaAccessor::write] *)
Definition quota_write (l : QuotaLayer) (path : string) : M W DalError QuotaWriter :=
  tmp_path ← tmp_path_for path;
  i ← in_be (write tmp_path);
  mret {| qw_inner := i; qw_layer := l; qw_path := path; qw_tmp_path := tmp_path; qw_written := 0 |}.

(** [QuotaWriter::write] *)
Definition quota_writer_write (bs : string) : M (QuotaWriter * W) DalError () :=
  _ ← on_writer (writer_write bs);
  set_handle (λ h, qw_set_written (wrapping_add (qw_written h) (blen bs)) h).

(** The part of [close] that the writer and the copier share: charge [new_size]
    for [old_size], move the staged object into place, undo the charge when the
    move fails. *)
Definition commit_staged (l : QuotaLayer) (tmp dest : string) (old_size new_size : N) : M W DalError () :=
  charged ← attempt (in_qs (commit_write (l_id l) (l_limit l) old_size new_size));
  match charged with
  | Err err => _ ← in_be (best_effort_remove tmp); throw err
  | Ok _ =>
      moved ← attempt (in_be (commit_rename tmp dest));
      match moved with
      | Err err =>
          _ ← attempt (E := DalError) (in_qs (commit_write (l_id l) U64_MAX new_size old_size));
          _ ← in_be (best_effort_remove tmp);
          throw err
      | Ok _ => mret ()
      end
  end.

(** [QuotaWriter::close] *)
Definition quota_writer_close : M (QuotaWriter * W) DalError Metadata :=
  meta ← on_writer writer_close;
  h ← handle;
  old_size ← in_world (in_be (size_of (qw_path h)));
  committed ← attempt (in_world (commit_staged (qw_layer h) (qw_tmp_path h) (qw_path h)
                                   old_size (qw_written h)));
  _ ← set_handle (qw_set_written 0);
  match committed with Ok _ => mret meta | Err err => throw err end.

(** [QuotaWriter::abort] *)
Definition quota_writer_abort : M (QuotaWriter * W) DalError () :=
  _ ← on_writer writer_abort;
  h ← handle;
  _ ← in_world (in_be (best_effort_remove (qw_tmp_path h)));
  set_handle (qw_set_written 0).

(** *** [QuotaDeleter] *)

Record QuotaDeleter := {
  qd_inner : Deleter;
  qd_id : string;
  pending_sizes : list N;
}.
Definition qd_set_inner (i : Deleter) (h : QuotaDeleter) : QuotaDeleter :=
  {| qd_inner := i; qd_id := qd_id h; pending_sizes := pending_sizes h |}.
Definition qd_set_pending (l : list N) (h : QuotaDeleter) : QuotaDeleter :=
  {| qd_inner := qd_inner h; qd_id := qd_id h; pending_sizes := l |}.
Definition on_deleter {A} : M (Deleter * B) DalError A → M (QuotaDeleter * W) DalError A :=
  in_handle qd_inner qd_set_inner.

(** [QuotaAccessor::delete] *)
Definition quota_delete (l : QuotaLayer) : M W DalError QuotaDeleter :=
  i ← in_be open_deleter;
  mret {| qd_inner := i; qd_id := l_id l; pending_sizes := [] |}.

(** [QuotaDeleter::delete] *)
Definition quota_deleter_delete (path : string) : M (QuotaDeleter * W) DalError () :=
  size ← in_world (in_be (size_of path));
  _ ← on_deleter (deleter_delete path);
  set_handle (λ h, qd_set_pending (pending_sizes h ++ [size]) h).

(** The loop of [QuotaDeleter::close]. *)
Fixpoint release_all (id : string) (sizes : list N) : M W DalError () :=
  match sizes with
  | [] => mret ()
  | size :: sizes => _ ← in_qs (commit_delete id size); release_all id sizes
  end.

(** [QuotaDeleter::close] *)
Definition quota_deleter_close : M (QuotaDeleter * W) DalError () :=
  _ ← on_deleter deleter_close;
  h ← handle;
  _ ← set_handle (qd_set_pending []);
  in_world (release_all (qd_id h) (pending_sizes h)).

(** *** [QuotaCopier] *)

Record QuotaCopier := {
  qc_inner : Copier;
  qc_layer : QuotaLayer;
  qc_from : string;
  qc_to : string;
  qc_tmp_to : string;
}.
Definition qc_set_inner (i : Copier) (h : QuotaCopier) : QuotaCopier :=
  {| qc_inner := i; qc_layer := qc_layer h; qc_from := qc_from h; qc_to := qc_to h;
     qc_tmp_to := qc_tmp_to h |}.
Definition on_copier {A} : M (Copier * B) DalError A → M (QuotaCopier * W) DalError A :=
  in_handle qc_inner qc_set_inner.

(** [QuotaAccessor::copy] *)
Definition quota_copy (l : QuotaLayer) (from to : string) : M W DalError QuotaCopier :=
  tmp_to ← tmp_path_for to;
  i ← in_be (copy from tmp_to);
  mret {| qc_inner := i; qc_layer := l; qc_from := from; qc_to := to; qc_tmp_to := tmp_to |}.

(** [QuotaCopier::next] *)
Definition quota_copier_next : M (QuotaCopier * W) DalError (option N) := on_copier copier_next.

(** [QuotaCopier::close] *)
Definition quota_copier_close : M (QuotaCopier * W) DalError Metadata :=
  meta ← on_copier copier_close;
  h ← handle;
  from_size ← in_world (in_be (size_of (qc_from h)));
  to_size ← in_world (in_be (size_of (qc_to h)));
  _ ← in_world (commit_staged (qc_layer h) (qc_tmp_to h) (qc_to h) to_size from_size);
  mret meta.

(** [QuotaCopier::abort] *)
Definition quota_copier_abort : M (QuotaCopier * W) DalError () :=
  _ ← on_copier copier_abort;
  h ← handle;
  in_world (in_be (best_effort_remove (qc_tmp_to h))).

(** [QuotaAccessor::rename] *)
Definition quota_rename (l : QuotaLayer) (from to : string) : M W DalError () :=
  in_be (rename from to).

(** [QuotaAccessor]: what [QuotaLayer::apply_service] builds. *)
Definition quota_service (l : QuotaLayer) : Service W := {|
  Metadata := Metadata; content_length := content_length;
  Reader := Reader; Lister := Lister; Presigned := Presigned;
  Writer := QuotaWriter; Deleter := QuotaDeleter; Copier := QuotaCopier;
  create_dir path := in_be (create_dir path);
  stat path := in_be (stat path);
  read path := in_be (read path);
  write := quota_write l;
  open_deleter := quota_delete l;
  list_dir path := in_be (list_dir path);
  copy := quota_copy l;
  rename := quota_rename l;
  presign path := in_be (presign path);
  writer_write := quota_writer_write;
  writer_close := quota_writer_close;
  writer_abort := quota_writer_abort;
  deleter_delete := quota_deleter_delete;
  deleter_close := quota_deleter_close;
  copier_next := quota_copier_next;
  copier_close := quota_copier_close;
  copier_abort := quota_copier_abort;
|}.

End Layer.

(** ** Staging paths are recognisable and distinct *)

Definition TMP_INFIX : string := ".quota-tmp-".

Fixpoint contains_sub (sub s : string) : bool :=
  starts_with sub s || match s with EmptyString => false | String _ s => contains_sub sub s end.
(** A path of the shape staging paths have. *)
Definition staging (p : string) : bool := contains_sub TMP_INFIX p.

Lemma contains_sub_app sub a b : contains_sub sub (a +:+ sub +:+ b)%string = true.
Proof.
  induction a as [|c a IH]; simpl.
  - destruct (sub +:+ b)%string eqn:E; simpl; rewrite <-E, starts_with_app; done.
  - rewrite IH. apply orb_true_r.
Qed.
Lemma tmp_name_staging path nanos n : staging (tmp_name path nanos n) = true.
Proof. unfold staging, tmp_name. apply (contains_sub_app TMP_INFIX). Qed.

(** A decimal number has no [-], so the text after the last [-] of a staging path
    is its counter. *)
Definition dash : ascii := "-"%char.
Lemma pretty_no_dash (n : N) : contains_char dash (pretty n) = false.
Proof. apply pretty_no_char. intros d. unfold pretty_N_char. by repeat case_match. Qed.

Lemma last_dash_inj a b x y :
  contains_char dash x = false → contains_char dash y = false →
  (a +:+ "-" +:+ x = b +:+ "-" +:+ y)%string → x = y.
Proof.
  intros Hx Hy. revert b; induction a as [|c a IH]; intros [|d b]; simpl.
  - by intros [= ->].
  - intros [= <- Heq]. exfalso. rewrite Heq, contains_char_app in Hx. simpl in Hx.
    by rewrite orb_true_r in Hx.
  - intros [= -> Heq]. exfalso. rewrite <-Heq, contains_char_app in Hy. simpl in Hy.
    by rewrite orb_true_r in Hy.
  - intros [= _ Heq]. by eapply IH.
Qed.

Lemma tmp_name_inj p1 p2 t1 t2 n1 n2 : tmp_name p1 t1 n1 = tmp_name p2 t2 n2 → n1 = n2.
Proof.
  unfold tmp_name. intros Heq.
  assert (pretty n1 = pretty n2); [|by apply (inj pretty)].
  eapply (last_dash_inj (p1 +:+ ".quota-tmp-" +:+ pretty t1)%string (p2 +:+ ".quota-tmp-" +:+ pretty t2)%string);
    try apply pretty_no_dash.
  by rewrite !app_assoc_s.
Qed.

(** ** Stored bytes *)

Notation sizes := (gmap string N).
Implicit Types m : sizes.

(** The objects that are not staging objects, and the bytes they occupy. *)
Definition visible m : sizes := filter (λ kv, staging kv.1 = false) m.
Definition total m : N := map_fold (λ _ s acc, (s + acc)%N) 0%N m.
Definition usage m : N := total (visible m).

Lemma total_insert_fresh m p s : m !! p = None → total (<[p:=s]> m) = (s + total m)%N.
Proof. intros Hp. unfold total. rewrite map_fold_insert_L; [done| |done]. intros; simpl; lia. Qed.
Lemma total_delete m p s : m !! p = Some s → total m = (s + total (delete p m))%N.
Proof.
  intros Hp. rewrite <-(insert_delete_id m p s) at 1 by done.
  apply total_insert_fresh, lookup_delete_eq.
Qed.
Lemma total_delete_le m p : (total (delete p m) ≤ total m)%N.
Proof.
  destruct (m !! p) as [s|] eqn:E; [rewrite (total_delete _ _ _ E); lia|].
  by rewrite delete_id.
Qed.
Lemma total_subseteq m1 m2 : m1 ⊆ m2 → (total m1 ≤ total m2)%N.
Proof.
  revert m2. induction m1 as [|p s m1 Hp IH] using map_ind; intros m2 Hsub; [unfold total; rewrite map_fold_empty; lia|].
  assert (m2 !! p = Some s) as Hm2 by (eapply lookup_weaken; [apply lookup_insert_eq|done]).
  rewrite total_insert_fresh, (total_delete _ _ _ Hm2) by done.
  apply N.add_le_mono_l, IH. apply map_subseteq_spec. intros q x Hq.
  assert (q ≠ p) by (intros ->; congruence). rewrite lookup_delete_ne by done.
  eapply lookup_weaken; [|done]. by rewrite lookup_insert_ne.
Qed.

(** The size of the object at [p], zero when there is none ([size_of]). *)
Definition size_at m p : N := opt_or 0%N (m !! p).

Lemma lookup_visible m p : staging p = false → visible m !! p = m !! p.
Proof.
  intros Hp. unfold visible. destruct (m !! p) as [s|] eqn:E.
  - by apply map_lookup_filter_Some_2.
  - apply map_lookup_filter_None_2. by left.
Qed.
Lemma lookup_visible_staging m p : staging p = true → visible m !! p = None.
Proof. intros Hp. apply map_lookup_filter_None_2. right. intros x _. simpl. congruence. Qed.
Lemma visible_ext m1 m2 : (∀ q, staging q = false → m1 !! q = m2 !! q) → visible m1 = visible m2.
Proof.
  intros Hq. apply map_eq. intros q. destruct (staging q) eqn:E.
  - by rewrite !lookup_visible_staging.
  - rewrite !lookup_visible by done. auto.
Qed.
Lemma visible_same_except p m1 m2 : staging p = true → same_except p m1 m2 → visible m1 = visible m2.
Proof. intros Hp Hs. apply visible_ext. intros q Hq. apply Hs. congruence. Qed.
Lemma visible_delete p m : visible (delete p m) = delete p (visible m).
Proof.
  apply map_eq. intros q. destruct (decide (q = p)) as [->|Hne].
  - rewrite lookup_delete_eq. destruct (staging p) eqn:E;
      [by apply lookup_visible_staging|]. by rewrite lookup_visible, lookup_delete_eq.
  - rewrite lookup_delete_ne by done. destruct (staging q) eqn:E;
      [by rewrite !lookup_visible_staging|]. by rewrite !lookup_visible, lookup_delete_ne.
Qed.
Lemma visible_insert p s m : staging p = false → visible (<[p:=s]> m) = <[p:=s]> (visible m).
Proof.
  intros Hp. apply map_eq. intros q. destruct (decide (q = p)) as [->|Hne].
  - by rewrite lookup_visible, !lookup_insert_eq.
  - rewrite lookup_insert_ne by done. destruct (staging q) eqn:E;
      [by rewrite !lookup_visible_staging|]. by rewrite !lookup_visible, lookup_insert_ne.
Qed.

Lemma size_at_visible m p : staging p = false → size_at (visible m) p = size_at m p.
Proof. intros Hp. unfold size_at. by rewrite lookup_visible. Qed.
Lemma usage_ext m1 m2 : visible m1 = visible m2 → usage m1 = usage m2.
Proof. unfold usage. by intros ->. Qed.
Lemma usage_size m p : staging p = false → usage m = (size_at m p + usage (delete p m))%N.
Proof.
  intros Hp. unfold usage, size_at. rewrite visible_delete, <-(lookup_visible m p) by done.
  destruct (visible m !! p) as [s|] eqn:E; simpl; [by apply total_delete|].
  by rewrite delete_id.
Qed.
Lemma usage_insert m p s : staging p = false →
  (usage (<[p:=s]> m) + size_at m p = usage m + s)%N.
Proof.
  intros Hp. rewrite (usage_size m p Hp), (usage_size (<[p:=s]> m) p Hp).
  unfold size_at at 1. rewrite lookup_insert_eq, delete_insert_eq. simpl. lia.
Qed.
Lemma usage_delete_le m p : (usage (delete p m) ≤ usage m)%N.
Proof. unfold usage. rewrite visible_delete. apply total_delete_le. Qed.
Lemma size_at_le m p : staging p = false → (size_at m p ≤ usage m)%N.
Proof. intros Hp. rewrite (usage_size m p Hp). lia. Qed.
Lemma usage_subseteq m1 m2 : m1 ⊆ m2 → (usage m1 ≤ usage m2)%N.
Proof.
  intros Hs. apply total_subseteq. apply map_subseteq_spec. intros p s.
  unfold visible. rewrite !map_lookup_filter_Some. intros [? ?]. split; [|done].
  by eapply lookup_weaken.
Qed.

(** ** Accounting *)

Section Accounting.
Context {B T : Type} `{ServiceLaws B} `{TrackerLaws T}.
Notation W := (World B T).
Implicit Types (w : W) (b : B).

(** [stat] only fails when the object does not exist. No backend promises this: [size_of]
    takes any failure for an empty object, which matters where a copy is charged. *)
Definition stat_reliable : Prop := ∀ p b s, files b !! p = Some s → is_ok (stat p b).1 = true.

Lemma size_of_spec p b r b' :
  size_of p b = (r, b') → files b' = files b ∧
  ∃ n, r = Ok n ∧ (n ≤ size_at (files b) p)%N ∧ (stat_reliable → n = size_at (files b) p).
Proof.
  unfold size_of, mbind, M_bind, mret, M_ret, attempt. destruct (stat p b) as [rs bs] eqn:E.
  destruct (stat_law p b rs bs E) as [Hf Hm]. intros [= <- <-]. split; [done|].
  eexists; split; [done|]. unfold size_at. destruct rs as [m|e]; simpl.
  - rewrite Hm. simpl. split; [lia|done].
  - split; [lia|]. intros Hr. destruct (files b !! p) as [s|] eqn:Es; [|done].
    apply Hr in Es. by rewrite E in Es.
Qed.

Lemma best_effort_remove_spec p b r b' :
  best_effort_remove p b = (r, b') →
  r = Ok () ∧ (files b' = files b ∨ files b' = delete p (files b)).
Proof.
  unfold best_effort_remove. destruct (open_deleter b) as [[d|e] b1] eqn:E1;
    destruct (open_deleter_law _ _ _ E1) as [Hf1 Hq1]; [|intros [= <- <-]; auto].
  destruct (deleter_delete p (d, b1)) as [r2 [d2 b2]] eqn:E2.
  destruct (deleter_close (d2, b2)) as [r3 [d3 b3]] eqn:E3.
  intros [= <- <-]. split; [done|].
  apply deleter_delete_law in E2. apply deleter_close_law in E3. rewrite Hq1, Hf1 in E2.
  assert (Hnil : d_queue d2 = [] → files b3 = files b2).
  { intros Hq. rewrite Hq in E3. destruct r3; [by destruct E3|].
    apply map_eq. intros q. destruct (E3 q) as [?|[Hin _]]; [done|]. by apply elem_of_nil in Hin. }
  destruct r2 as [u|e]; [destruct E2 as [[Hf2 Hq2]|[Hf2 Hq2]]|destruct E2 as [Hq2 Hf2]].
  - rewrite Hnil by done. auto.
  - rewrite Hq2, Hf2 in E3. destruct r3; [destruct E3; auto|].
    destruct (E3 p) as [Hp|[_ Hp]]; [left|right]; apply map_eq; intros q;
      destruct (E3 q) as [Hq|[Hin Hq]]; try done;
      try (apply list_elem_of_singleton in Hin as ->); try congruence.
    + destruct (decide (q = p)) as [->|]; [by rewrite lookup_delete_eq|by rewrite lookup_delete_ne].
    + by rewrite lookup_delete_eq.
  - rewrite Hnil by done. done.
Qed.

(** Moving the staged object into place, or failing with the destination as it
    was or removed by the fallback. *)
Lemma commit_rename_spec tmp dest b r b' :
  staging tmp = true → staging dest = false → commit_rename tmp dest b = (r, b') →
  match r with
  | Ok _ => ∃ s, files b !! tmp = Some s ∧ visible (files b') = <[dest:=s]> (visible (files b))
  | Err _ => files b' = files b ∨ files b' = delete dest (files b)
  end.
Proof.
  intros Ht Hd. assert (tmp ≠ dest) as Hne by congruence.
  assert (Hmove : ∀ m s, visible (<[dest:=s]> (delete tmp m)) = <[dest:=s]> (visible m)).
  { intros m s. rewrite visible_insert, visible_delete by done.
    by rewrite delete_id by by apply lookup_visible_staging. }
  unfold commit_rename, mbind, M_bind, attempt. destruct (rename tmp dest b) as [r1 b1] eqn:E1.
  apply rename_law in E1. destruct r1 as [u|e]; simpl.
  { intros [= <- <-]. destruct E1 as (s & Hs & ->). exists s. by rewrite Hmove. }
  destruct (best_effort_remove dest b1) as [r2 b2] eqn:E2.
  apply best_effort_remove_spec in E2 as [-> Hf2]. rewrite E1 in Hf2.
  intros E3. apply rename_law in E3. destruct r as [u|e'].
  - destruct E3 as (s & Hs & ->). exists s. rewrite Hmove. destruct Hf2 as [Hf2|Hf2]; rewrite Hf2 in Hs |- *.
    + done.
    + rewrite lookup_delete_ne in Hs by done. by rewrite visible_delete, insert_delete_eq.
  - rewrite E3. done.
Qed.

(** Charging and undoing the charge restore the total. *)
Lemma rollback_exact u o n limit :
  u64 u → (o ≤ u)%N → (limit < U64_MAX)%N → (QuotaCounter.new_total u o n ≤ limit)%N →
  QuotaCounter.new_total (QuotaCounter.new_total u o n) n o = u ∧
  (QuotaCounter.new_total u o n + o = u + n)%N.
Proof. unfold u64, QuotaCounter.new_total, saturating_add, saturating_sub. lia. Qed.

(** What a commit of a staged object does: the object is in place and charged, or
    nothing changed, or the move failed and the charge is undone (the fallback of
    [commit_rename] may have removed the destination by then). *)
Lemma commit_staged_spec l tmp dest o n w r w' :
  let u := live (qs w) (l_id l) in
  commit_staged l tmp dest o n w = (r, w') →
  staging tmp = true → staging dest = false →
  synced (qs w) → u64 u → (o ≤ u)%N → (l_limit l < U64_MAX)%N →
  synced (qs w') ∧ (∀ id, id ≠ l_id l → live (qs w') id = live (qs w) id) ∧
  match r with
  | Ok _ =>
      (∃ s, files (be w) !! tmp = Some s ∧
         visible (files (be w')) = <[dest:=s]> (visible (files (be w)))) ∧
      live (qs w') (l_id l) = QuotaCounter.new_total u o n ∧
      (live (qs w') (l_id l) ≤ l_limit l)%N
  | Err _ =>
      live (qs w') (l_id l) = u ∧
      (visible (files (be w')) = visible (files (be w)) ∨
       (QuotaCounter.new_total u o n ≤ l_limit l)%N ∧
       visible (files (be w')) = delete dest (visible (files (be w))))
  end.
Proof.
  intros u Hc Ht Hd Hs Hu Ho Hlim.
  unfold commit_staged, mbind, M_bind, attempt, in_qs, in_be, set_qs, set_be, throw, mret, M_ret in Hc.
  destruct (commit_write (l_id l) (l_limit l) o n (qs w)) as [r1 q1] eqn:E1.
  destruct (commit_write_spec _ _ _ _ _ _ _ E1 Hs) as (Hs1 & Hf1 & Hr1).
  destruct r1 as [m|e].
  2: { simpl in Hc. destruct (best_effort_remove tmp (be w)) as [r2 b2] eqn:E2.
       apply best_effort_remove_spec in E2 as [-> Hb2]. injection Hc as <- <-. simpl.
       destruct Hr1 as [Hl1 _]. split_and!; [done..|]. left.
       destruct Hb2 as [->| ->]; [done|].
       rewrite visible_delete, delete_id by by apply lookup_visible_staging. done. }
  destruct Hr1 as (Hm & Hmle & Hl1 & Hload). simpl in Hc.
  destruct (commit_rename tmp dest (be w)) as [r2 b2] eqn:E2.
  apply commit_rename_spec in E2; [|done..]. destruct r2 as [v|e].
  { injection Hc as <- <-. simpl. fold u in Hm. rewrite Hl1, Hm in *. auto. }
  simpl in Hc. destruct (commit_write (l_id l) U64_MAX n o q1) as [r3 q3] eqn:E3.
  destruct (commit_write_spec _ _ _ _ _ _ _ E3 Hs1) as (Hs3 & Hf3 & Hr3).
  simpl in Hc. destruct (best_effort_remove tmp b2) as [r4 b4] eqn:E4.
  apply best_effort_remove_spec in E4 as [-> Hb4]. injection Hc as <- <-. simpl.
  rewrite Hm in Hmle. fold u in Hmle. destruct (rollback_exact u o n _ Hu Ho Hlim Hmle) as [Hroll _].
  split; [done|]. split; [intros id Hne; by rewrite Hf3, Hf1|]. split.
  - destruct r3 as [k|e3].
    + destruct Hr3 as (-> & _ & -> & _). by rewrite Hl1, Hm.
    + destruct Hr3 as [_ Hlt]. specialize (Hlt Hload). rewrite Hl1, Hm in Hlt. fold u in Hlt.
      rewrite Hroll in Hlt. unfold u64 in Hu. lia.
  - assert (Hv : visible (files b4) = visible (files b2)).
    { destruct Hb4 as [->| ->]; [done|].
      by rewrite visible_delete, delete_id by by apply lookup_visible_staging. }
    rewrite Hv. destruct E2 as [->| ->]; [by left|right]. by rewrite visible_delete.
Qed.

(** The state a layer keeps sound: clean buckets agree with the tracker, the total
    is a [u64] and covers the stored bytes. *)
Record covered (l : QuotaLayer) w : Prop := {
  cov_synced : synced (qs w);
  cov_u64 : u64 (live (qs w) (l_id l));
  cov_usage : (usage (files (be w)) ≤ live (qs w) (l_id l))%N;
}.

(** A writer that has received [n] bytes. *)
Record writing (l : QuotaLayer) (path : string) (n : N) (h : QuotaWriter) : Prop := {
  wr_layer : qw_layer h = l;
  wr_path_eq : qw_path h = path;
  wr_target : w_target (qw_inner h) = qw_tmp_path h;
  wr_staging : staging (qw_tmp_path h) = true;
  wr_size : w_size (qw_inner h) = n;
  wr_written : qw_written h = n;
}.

Lemma quota_write_spec l path w r w' :
  quota_write l path w = (r, w') →
  qs w' = qs w ∧ visible (files (be w')) = visible (files (be w)) ∧
  match r with Ok h => writing l path 0 h | Err _ => True end.
Proof.
  unfold quota_write, tmp_path_for, in_be, mbind, M_bind, mret, M_ret. cbn [be].
  set (tmp := tmp_name path _ _).
  assert (Ht : staging tmp = true) by apply tmp_name_staging.
  destruct (write tmp (be w)) as [r1 b1] eqn:E1. apply write_law in E1 as [Hf Hr].
  destruct r1 as [i|e]; intros [= <- <-]; simpl; (split; [done|]);
    (split; [by apply (visible_same_except tmp)|]); [|done].
  destruct Hr as [Ht' Hs]. by split.
Qed.

Lemma quota_writer_write_spec l path n bs h w r h' w' :
  writing l path n h → (n + blen bs ≤ U64_MAX)%N →
  quota_writer_write bs (h, w) = (r, (h', w')) →
  qs w' = qs w ∧ visible (files (be w')) = visible (files (be w)) ∧
  staging (w_target (qw_inner h')) = true ∧ staging (qw_tmp_path h') = true ∧
  (r = Ok () → writing l path (n + blen bs) h').
Proof.
  intros [Hl Hp Ht Hst Hsz Hwr] Hn.
  unfold quota_writer_write, on_writer, in_handle, set_handle, mbind, M_bind.
  destruct (writer_write bs (qw_inner h, be w)) as [r1 [i1 b1]] eqn:E1.
  apply writer_write_law in E1 as (Hf & Ht1 & Hs1).
  assert (Hv : visible (files b1) = visible (files (be w))).
  { apply (visible_same_except (qw_tmp_path h)); [done|]. by rewrite <-Ht. }
  destruct r1 as [[]|e]; intros [= <- <- <-]; simpl; (split; [done|]); (split; [done|]);
    (split; [by rewrite Ht1, Ht|]); (split; [done|]); [|done].
  intros _. split; simpl; try done; [by rewrite Ht1|by rewrite Hs1, Hsz|].
  unfold wrapping_add. rewrite Hwr. apply N.mod_small. lia.
Qed.

Lemma write_chunks_spec l path chunks : ∀ n h w r h' w',
  writing l path n h → (n + total_len chunks ≤ U64_MAX)%N →
  write_chunks (H := quota_service l) chunks (h, w) = (r, (h', w')) →
  qs w' = qs w ∧ visible (files (be w')) = visible (files (be w)) ∧
  staging (w_target (qw_inner h')) = true ∧ staging (qw_tmp_path h') = true ∧
  (r = Ok () → writing l path (n + total_len chunks) h').
Proof.
  induction chunks as [|bs chunks IH]; intros n h w r h' w' Hw Hn; simpl in *.
  { intros [= <- <- <-]. destruct Hw as [? ? Ht Hst ? ?]. rewrite Ht, N.add_0_r. by split_and!. }
  unfold mbind, M_bind.
  destruct (quota_writer_write bs (h, w)) as [r1 [h1 w1]] eqn:E1.
  apply (quota_writer_write_spec l path n) in E1 as (Hq1 & Hv1 & Ht1 & Hst1 & Hw1); [|done|lia].
  destruct r1 as [[]|e]; [|intros [= <- <- <-]; by split_and!].
  intros E2. apply (IH (n + blen bs)%N) in E2 as (Hq2 & Hv2 & Ht2 & Hst2 & Hw2); [|auto|lia].
  rewrite Hq2, Hv2. split_and!; try done. by rewrite N.add_assoc.
Qed.

Lemma quota_abort_spec h w r h' w' :
  staging (w_target (qw_inner h)) = true → staging (qw_tmp_path h) = true →
  quota_writer_abort (h, w) = (r, (h', w')) →
  qs w' = qs w ∧ visible (files (be w')) = visible (files (be w)).
Proof.
  intros Hi Ht. unfold quota_writer_abort, on_writer, in_handle, in_world, in_be, handle, set_handle,
    mbind, M_bind.
  destruct (writer_abort (qw_inner h, be w)) as [r1 [i1 b1]] eqn:E1.
  apply writer_abort_law in E1. apply visible_same_except in E1; [|done].
  destruct r1 as [v|e]; simpl; [|by intros [= <- <- <-]].
  destruct (best_effort_remove (qw_tmp_path h) b1) as [r2 b2] eqn:E2.
  apply best_effort_remove_spec in E2 as [-> Hb]. intros [= <- <- <-]. simpl. split; [done|].
  rewrite <-E1. destruct Hb as [->| ->]; [done|].
  by rewrite visible_delete, delete_id by by apply lookup_visible_staging.
Qed.

(** The outcome of an operation that stores [n] bytes at [dest], replacing an
    object whose size was read as [o]. *)
Definition stored_or_unchanged (l : QuotaLayer) (dest : string) (o n : N) {A}
    (r : result DalError A) w w' : Prop :=
  let u := live (qs w) (l_id l) in
  synced (qs w') ∧ (∀ id, id ≠ l_id l → live (qs w') id = live (qs w) id) ∧
  (o ≤ size_at (files (be w)) dest)%N ∧
  match r with
  | Ok _ =>
      visible (files (be w')) = <[dest := n]> (visible (files (be w))) ∧
      (live (qs w') (l_id l) + o = u + n)%N ∧ (live (qs w') (l_id l) ≤ l_limit l)%N
  | Err _ =>
      live (qs w') (l_id l) = u ∧
      (visible (files (be w')) = visible (files (be w)) ∨
       (u + n ≤ l_limit l + o)%N ∧
       visible (files (be w')) = delete dest (visible (files (be w))))
  end.
Definition outcome (l : QuotaLayer) (dest : string) (n : N) {A} (r : result DalError A) w w' : Prop :=
  ∃ o, stored_or_unchanged l dest o n r w w' ∧
       (stat_reliable → o = size_at (files (be w)) dest).

Lemma outcome_unchanged {A} l dest n e w w' :
  synced (qs w) → qs w' = qs w → visible (files (be w')) = visible (files (be w)) →
  outcome (A := A) l dest n (Err e) w w'.
Proof.
  intros Hs Hq Hv. exists (size_at (files (be w)) dest). split; [|done].
  unfold stored_or_unchanged. rewrite Hq. split_and!; auto; lia.
Qed.

(** An operation that starts after steps that changed nothing visible. *)
Lemma outcome_after {A} l dest n (r : result DalError A) w0 w w' :
  staging dest = false → qs w = qs w0 → visible (files (be w)) = visible (files (be w0)) →
  outcome l dest n r w w' → outcome l dest n r w0 w'.
Proof.
  intros Hd Hq Hv (o & Ho & Hr).
  assert (Hsz : size_at (files (be w)) dest = size_at (files (be w0)) dest).
  { rewrite <-(size_at_visible (files (be w))), Hv by done. by apply size_at_visible. }
  exists o. unfold stored_or_unchanged in *. rewrite Hq, Hv, Hsz in *. done.
Qed.

Lemma commit_staged_outcome l tmp dest o n s w r w' :
  commit_staged l tmp dest o n w = (r, w') →
  staging tmp = true → staging dest = false → covered l w → (l_limit l < U64_MAX)%N →
  (o ≤ size_at (files (be w)) dest)%N → files (be w) !! tmp = Some s → s = n →
  stored_or_unchanged l dest o n r w w'.
Proof.
  intros Hc Ht Hd [Hs Hu Hus] Hlim Ho Htmp ->.
  pose proof (size_at_le (files (be w)) dest Hd) as Hle.
  destruct (commit_staged_spec _ _ _ _ _ _ _ _ Hc Ht Hd Hs Hu) as (A1 & A2 & H3); [lia|done|].
  split; [done|]. split; [done|]. split; [done|].
  pose proof (rollback_exact (live (qs w) (l_id l)) o n (l_limit l) Hu) as Hroll.
  destruct r as [v|e].
  - destruct H3 as ((s' & Hs' & Hv) & Hl & Hlim'). rewrite Htmp in Hs'. injection Hs' as <-.
    rewrite Hl in Hlim'. destruct Hroll as [_ Hx]; [lia|done|done|]. rewrite Hl. split; [done|]. lia.
  - destruct H3 as [Hl [Hv|[Hn Hv]]]; (split; [done|]); [by left|right].
    destruct Hroll as [_ Hx]; [lia|done|done|]. split; [lia|done].
Qed.

Lemma quota_close_spec l path n h w r h' w' :
  writing l path n h → covered l w → staging path = false → (l_limit l < U64_MAX)%N →
  quota_writer_close (h, w) = (r, (h', w')) → outcome l path n r w w'.
Proof.
  intros [Hl Hp Ht Hst Hsz Hwr] Hcov Hpath Hlim.
  unfold quota_writer_close, on_writer, in_handle, in_world, in_be, handle, set_handle, attempt,
    throw, mbind, M_bind, mret, M_ret.
  destruct (writer_close (qw_inner h, be w)) as [r1 [i1 b1]] eqn:E1.
  apply writer_close_law in E1 as [Hf Hcl]. rewrite Ht in *.
  assert (Hv1 : visible (files b1) = visible (files (be w))) by by apply (visible_same_except (qw_tmp_path h)).
  destruct r1 as [meta|e]; simpl; [|intros [= <- <- <-]; apply outcome_unchanged; [apply Hcov|done..]].
  rewrite Hp. destruct (size_of path b1) as [r2 b2] eqn:E2.
  destruct (size_of_spec _ _ _ _ E2) as (Hf2 & o & -> & Ho & Hrel). simpl.
  set (w1 := {| be := b1; qs := qs w; suffix_counter := suffix_counter w; clock := clock w |}).
  set (w2 := {| be := b2; qs := qs w; suffix_counter := suffix_counter w; clock := clock w |}).
  assert (Hcov2 : covered l w2).
  { destruct Hcov as [A1 A2 A3]. split; [done|done|]. simpl. rewrite Hf2.
    by rewrite (usage_ext _ (files (be w))). }
  assert (Hsize : size_at (files b2) path = size_at (files (be w)) path).
  { rewrite Hf2, <-(size_at_visible (files b1)), Hv1 by done. by apply size_at_visible. }
  change (set_be b2 (set_be b1 w)) with w2. rewrite Hl, Hwr.
  destruct (commit_staged l (qw_tmp_path h) path o n w2) as [r3 w3] eqn:E3.
  intros Hres. assert (w' = w3 ∧ r = (match r3 with Ok _ => Ok meta | Err e => Err e end)) as [-> ->].
  { destruct r3; simpl in Hres; by injection Hres. }
  apply (outcome_after _ _ _ _ w w2); simpl; [done|done|by rewrite Hf2|].
  pose proof (commit_staged_outcome l (qw_tmp_path h) path o n n w2 r3 w3 E3) as Hso.
  exists o. split; [|simpl; intros Hr; rewrite Hf2; by apply Hrel].
  assert (Hst2 : stored_or_unchanged l path o n r3 w2 w3).
  { apply Hso; try done; [by simpl; rewrite Hf2|]. simpl. rewrite Hf2, Hcl, Hsz by done. done. }
  by destruct r3.
Qed.

Lemma put_spec l path chunks w r w' :
  covered l w → staging path = false → (l_limit l < U64_MAX)%N → (total_len chunks ≤ U64_MAX)%N →
  put (H := quota_service l) path chunks w = (r, w') →
  outcome l path (total_len chunks) r w w'.
Proof.
  intros Hcov Hpath Hlim Hlen. unfold put, with_handle. cbn [Service.write Service.Writer quota_service].
  destruct (quota_write l path w) as [r1 w1] eqn:E1.
  apply quota_write_spec in E1 as (Hq1 & Hv1 & Hh).
  destruct r1 as [h|e]; [|intros [= <- <-]; apply outcome_unchanged; try done; apply Hcov].
  unfold mbind, M_bind, attempt. cbn [Service.Writer quota_service].
  destruct (write_chunks (H := quota_service l) chunks (h, w1)) as [r2 [h2 w2]] eqn:E2.
  destruct (write_chunks_spec l path chunks 0%N h w1 r2 h2 w2 Hh) as (Hq2 & Hv2 & Ht2 & Hst2 & Hw2);
    [lia|done|].
  assert (Hcov2 : covered l w2).
  { destruct Hcov as [A1 A2 A3]. split; rewrite ?Hq2, ?Hq1; try done.
    rewrite (usage_ext _ (files (be w))) by congruence. done. }
  destruct r2 as [[]|e]; cbn [Service.writer_close Service.writer_abort quota_service].
  - destruct (quota_writer_close (h2, w2)) as [r3 [h3 w3]] eqn:E3. intros [= <- <-].
    apply (outcome_after _ _ _ _ w w2); [done|congruence..|].
    eapply (quota_close_spec l path); try done. by apply Hw2.
  - destruct (quota_writer_abort (h2, w2)) as [r3 [h3 w3]] eqn:E3.
    apply quota_abort_spec in E3 as [Hq3 Hv3]; [|done..]. unfold throw. intros [= <- <-].
    apply outcome_unchanged; [apply Hcov|congruence..].
Qed.

(** *** Copies *)

Record copying (l : QuotaLayer) (from to : string) (h : QuotaCopier) : Prop := {
  cp_layer : qc_layer h = l;
  cp_from_eq : qc_from h = from;
  cp_to_eq : qc_to h = to;
  cp_source : c_from (qc_inner h) = from;
  cp_target : c_to (qc_inner h) = qc_tmp_to h;
  cp_staging : staging (qc_tmp_to h) = true;
}.

Lemma quota_copy_spec l from to w r w' :
  quota_copy l from to w = (r, w') →
  qs w' = qs w ∧ visible (files (be w')) = visible (files (be w)) ∧
  match r with Ok h => copying l from to h | Err _ => True end.
Proof.
  unfold quota_copy, tmp_path_for, in_be, mbind, M_bind, mret, M_ret. cbn [be].
  set (tmp := tmp_name to _ _).
  assert (Ht : staging tmp = true) by apply tmp_name_staging.
  destruct (copy from tmp (be w)) as [r1 b1] eqn:E1. apply copy_law in E1 as [Hf Hr].
  destruct r1 as [i|e]; intros [= <- <-]; simpl; (split; [done|]);
    (split; [by apply (visible_same_except tmp)|]); [|done].
  destruct Hr as [Hc1 Hc2]. by split.
Qed.

Lemma copy_steps_spec l from to k : ∀ h w r h' w',
  copying l from to h →
  copy_steps (H := quota_service l) k (h, w) = (r, (h', w')) →
  qs w' = qs w ∧ visible (files (be w')) = visible (files (be w)) ∧ copying l from to h'.
Proof.
  induction k as [|k IH]; intros h w r h' w' Hc; simpl; [by intros [= <- <- <-]|].
  unfold mbind, M_bind, quota_copier_next, on_copier, in_handle.
  destruct (copier_next (qc_inner h, be w)) as [r1 [i1 b1]] eqn:E1.
  apply copier_next_law in E1 as (Hf & Hfr & Hto).
  destruct Hc as [C1 C2 C3 C4 C5 C6]. rewrite C5 in Hf.
  assert (Hc1 : copying l from to (qc_set_inner i1 h)) by (split; simpl; congruence).
  apply visible_same_except in Hf; [|done].
  destruct r1 as [v|e]; [|intros [= <- <- <-]; by split_and!].
  intros E2. apply IH in E2 as (Hq & Hv & Hc'); [|done]. simpl in *. by rewrite Hv.
Qed.

Lemma copier_close_spec l from to h w r h' w' :
  stat_reliable → copying l from to h → covered l w → staging from = false → staging to = false →
  (l_limit l < U64_MAX)%N →
  quota_copier_close (h, w) = (r, (h', w')) → outcome l to (size_at (files (be w)) from) r w w'.
Proof.
  intros Hrel [C1 C2 C3 C4 C5 C6] Hcov Hfrom Hto Hlim.
  unfold quota_copier_close, on_copier, in_handle, in_world, in_be, handle, mbind, M_bind, mret, M_ret.
  destruct (copier_close (qc_inner h, be w)) as [r1 [i1 b1]] eqn:E1.
  apply copier_close_law in E1 as [Hf Hcl]. rewrite C4, C5 in *.
  assert (Hv1 : visible (files b1) = visible (files (be w))) by by apply (visible_same_except (qc_tmp_to h)).
  destruct r1 as [meta|e]; simpl; [|intros [= <- <- <-]; apply outcome_unchanged; [apply Hcov|done..]].
  rewrite C2, C3, C1. destruct (size_of from b1) as [r2 b2] eqn:E2.
  destruct (size_of_spec _ _ _ _ E2) as (Hf2 & n & -> & _ & Hn). simpl.
  destruct (size_of to b2) as [r3 b3] eqn:E3.
  destruct (size_of_spec _ _ _ _ E3) as (Hf3 & o & -> & Ho & Hrelo). simpl.
  set (w1 := {| be := b3; qs := qs w; suffix_counter := suffix_counter w; clock := clock w |}).
  change (set_be b3 (set_be b2 (set_be b1 w))) with w1.
  assert (Hff : files b3 = files b1) by congruence.
  assert (Hcov1 : covered l w1).
  { destruct Hcov as [A1 A2 A3]. split; [done|done|]. simpl. rewrite Hff.
    by rewrite (usage_ext _ (files (be w))). }
  destruct Hcl as (s & Hs1 & Hs2); [done|].
  assert (n = s ∧ size_at (files (be w)) from = s) as [-> ->].
  { rewrite (Hn Hrel), <-(size_at_visible (files b1)), Hv1 by done.
    rewrite size_at_visible by done. unfold size_at. by rewrite Hs1. }
  destruct (commit_staged l (qc_tmp_to h) to o s w1) as [r4 w4] eqn:E4.
  intros Hres. assert (w' = w4 ∧ r = (match r4 with Ok _ => Ok meta | Err e => Err e end)) as [-> ->].
  { destruct r4; simpl in Hres; by injection Hres. }
  apply (outcome_after _ _ _ _ w w1); [done|done|simpl; by rewrite Hff|].
  exists o. split; [|simpl; intros _; rewrite Hff; rewrite Hf2 in *; by apply Hrelo].
  pose proof (commit_staged_outcome l (qc_tmp_to h) to o s s w1 r4 w4 E4) as Hso.
  assert (Hst2 : stored_or_unchanged l to o s r4 w1 w4).
  { apply Hso; try done; simpl; rewrite Hff; [|done]. by rewrite <-Hf2. }
  by destruct r4.
Qed.

Lemma duplicate_spec l from to k w r w' :
  stat_reliable → covered l w → staging from = false → staging to = false →
  (l_limit l < U64_MAX)%N →
  duplicate (H := quota_service l) from to k w = (r, w') →
  outcome l to (size_at (files (be w)) from) r w w'.
Proof.
  intros Hrel Hcov Hfrom Hto Hlim. unfold duplicate, with_handle.
  cbn [Service.copy Service.Copier quota_service].
  destruct (quota_copy l from to w) as [r1 w1] eqn:E1.
  apply quota_copy_spec in E1 as (Hq1 & Hv1 & Hh).
  destruct r1 as [h|e]; [|intros [= <- <-]; apply outcome_unchanged; try done; apply Hcov].
  unfold mbind, M_bind. cbn [Service.Copier quota_service].
  destruct (copy_steps (H := quota_service l) k (h, w1)) as [r2 [h2 w2]] eqn:E2.
  apply (copy_steps_spec l from to) in E2 as (Hq2 & Hv2 & Hc2); [|done].
  assert (Hcov2 : covered l w2).
  { destruct Hcov as [A1 A2 A3]. split; rewrite ?Hq2, ?Hq1; try done.
    rewrite (usage_ext _ (files (be w))) by congruence. done. }
  destruct r2 as [[]|e]; cbn [Service.copier_close quota_service].
  - destruct (quota_copier_close (h2, w2)) as [r3 [h3 w3]] eqn:E3. intros [= <- <-].
    apply (outcome_after _ _ _ _ w w2); [done|congruence..|].
    rewrite <-(size_at_visible (files (be w))), <-Hv1, <-Hv2, size_at_visible by done.
    by eapply copier_close_spec.
  - intros [= <- <-]. apply outcome_unchanged; [apply Hcov|congruence..].
Qed.

(** *** Deletions *)

Definition sum_sizes m (l : list string) : N := foldr (λ p n, (size_at m p + n)%N) 0%N l.
Definition sum (l : list N) : N := foldr N.add 0%N l.

Lemma lookup_foldr_delete m (l : list string) q :
  foldr delete m l !! q = if decide (q ∈ l) then None else m !! q.
Proof.
  induction l as [|p l IH]; simpl.
  { done. }
  destruct (decide (q = p)) as [->|Hne].
  - rewrite lookup_delete_eq, decide_True by by left. done.
  - rewrite lookup_delete_ne, IH by done. repeat case_decide; try done; exfalso;
      rewrite elem_of_cons in *; naive_solver.
Qed.
Lemma size_at_foldr_delete m l p : p ∉ l → size_at (foldr delete m l) p = size_at m p.
Proof. intros Hp. unfold size_at. by rewrite lookup_foldr_delete, decide_False. Qed.
Lemma sum_sizes_snoc m l p : sum_sizes m (l ++ [p]) = (sum_sizes m l + size_at m p)%N.
Proof. unfold sum_sizes. induction l as [|q l IH]; simpl; [lia|]. rewrite IH. lia. Qed.
Lemma sum_snoc l n : sum (l ++ [n]) = (sum l + n)%N.
Proof. unfold sum. induction l as [|q l IH]; simpl; [lia|]. rewrite IH. lia. Qed.
Lemma usage_delete_list m l :
  NoDup l → Forall (λ p, staging p = false) l →
  usage m = (sum_sizes m l + usage (foldr delete m l))%N.
Proof.
  induction l as [|p l IH]; simpl; [done|].
  intros Hnd Hf. inversion Hnd as [|? ? Hp Hnd']; inversion Hf as [|? ? Hst Hf']; subst.
  rewrite IH by done. rewrite (usage_size (foldr delete m l) p), size_at_foldr_delete by done. lia.
Qed.

(** A deleter that was given [done], from the state [w0] on. *)
Record deleting (l : QuotaLayer) (done : list string) (h : QuotaDeleter) w0 w : Prop := {
  dl_id : qd_id h = l_id l;
  dl_qs : qs w = qs w0;
  dl_queue : ∀ q, q ∈ d_queue (qd_inner h) → q ∈ done;
  dl_rest : ∀ q, q ∉ done → files (be w) !! q = files (be w0) !! q;
  dl_done : ∀ q, q ∈ done → q ∈ d_queue (qd_inner h) ∨ files (be w) !! q = None;
  dl_sub : files (be w) ⊆ files (be w0);
  dl_sizes : (sum (pending_sizes h) ≤ sum_sizes (files (be w0)) done)%N;
  dl_exact : stat_reliable → sum (pending_sizes h) = sum_sizes (files (be w0)) done;
}.

Lemma deleter_delete_spec l dn p h w0 w r h' w' :
  deleting l dn h w0 w → p ∉ dn →
  quota_deleter_delete p (h, w) = (r, (h', w')) →
  qs w' = qs w0 ∧ files (be w') ⊆ files (be w0) ∧ (r = Ok () → deleting l (dn ++ [p]) h' w0 w').
Proof.
  intros [D1 D2 D3 D4 D5 D6 D7 D8] Hp.
  unfold quota_deleter_delete, on_deleter, in_handle, in_world, in_be, set_handle, mbind, M_bind.
  destruct (size_of p (be w)) as [r1 b1] eqn:E1.
  destruct (size_of_spec _ _ _ _ E1) as (Hf1 & n & -> & Hn & Hrel). simpl.
  destruct (deleter_delete p (qd_inner h, b1)) as [r2 [i2 b2]] eqn:E2.
  apply deleter_delete_law in E2. rewrite Hf1 in E2.
  assert (Hsz : size_at (files (be w)) p = size_at (files (be w0)) p).
  { unfold size_at. by rewrite D4. }
  assert (Hsub : files b2 ⊆ files (be w)).
  { destruct r2; [destruct E2 as [[-> _]|[-> _]]|destruct E2 as [_ [->| ->]]]; try done; apply delete_subseteq. }
  destruct r2 as [[]|e]; intros [= <- <- <-]; simpl; (split; [done|]);
    (split; [by etrans|]); [intros _|done].
  assert (Hpend : (sum (pending_sizes h ++ [n]) ≤ sum_sizes (files (be w0)) (dn ++ [p]))%N ∧
    (stat_reliable → sum (pending_sizes h ++ [n]) = sum_sizes (files (be w0)) (dn ++ [p]))).
  { rewrite sum_snoc, sum_sizes_snoc, <-Hsz. split; [lia|]. intros Hr. by rewrite (D8 Hr), (Hrel Hr). }
  destruct E2 as [[Hf2 Hq2]|[Hf2 Hq2]]; (split; simpl; [done|done|..|by etrans|apply Hpend|apply Hpend]);
    intros q; rewrite ?Hq2, ?Hf2, ?elem_of_app, ?list_elem_of_singleton.
  - intros Hq. left. auto.
  - intros Hq. rewrite lookup_delete_ne by naive_solver. apply D4. naive_solver.
  - intros [Hq| ->]; [|right; apply lookup_delete_eq].
    destruct (D5 q Hq) as [?|Hx]; [by left|right]. by rewrite lookup_delete_None; right.
  - intros [Hq| ->]; auto.
  - intros Hq. apply D4. naive_solver.
  - intros [Hq| ->]; [|auto]. destruct (D5 q Hq); auto.
Qed.

Lemma delete_each_spec l paths : ∀ dn h w0 w r h' w',
  deleting l dn h w0 w → NoDup (dn ++ paths) →
  delete_each (H := quota_service l) paths (h, w) = (r, (h', w')) →
  qs w' = qs w0 ∧ files (be w') ⊆ files (be w0) ∧ (r = Ok () → deleting l (dn ++ paths) h' w0 w').
Proof.
  induction paths as [|p paths IH]; intros dn h w0 w r h' w' Hd Hnd; simpl.
  { intros [= <- <- <-]. rewrite app_nil_r. destruct Hd. by split_and!. }
  unfold mbind, M_bind. destruct (quota_deleter_delete p (h, w)) as [r1 [h1 w1]] eqn:E1.
  rewrite (cons_middle p dn paths), app_assoc in Hnd.
  destruct (deleter_delete_spec l dn p h w0 w r1 h1 w1 Hd) as (Hq1 & Hs1 & Hd1); [|done|].
  { apply NoDup_app in Hnd as (Hnd & _ & _). apply NoDup_app in Hnd as (_ & Hx & _).
       intros Hin. apply (Hx p Hin). by apply list_elem_of_singleton. }
  destruct r1 as [[]|e]; [|by intros [= <- <- <-]; split_and!].
  intros E2. rewrite (cons_middle p dn paths), app_assoc. eapply IH; [by apply Hd1|done|done].
Qed.

Lemma release_all_spec id szs : ∀ w r w',
  release_all id szs w = (r, w') → synced (qs w) → u64 (live (qs w) id) →
  synced (qs w') ∧ be w' = be w ∧ (∀ id', id' ≠ id → live (qs w') id' = live (qs w) id') ∧
  (live (qs w') id ≤ live (qs w) id)%N ∧ (live (qs w) id - sum szs ≤ live (qs w') id)%N ∧
  (r = Ok () → live (qs w') id = (live (qs w) id - sum szs)%N).
Proof.
  induction szs as [|s szs IH]; intros w r w'; simpl.
  { intros [= <- <-] Hs Hu. split_and!; try done; lia. }
  unfold mbind, M_bind, in_qs. destruct (commit_delete id s (qs w)) as [r1 q1] eqn:E1.
  intros E2 Hs Hu. destruct (commit_delete_spec _ _ _ _ _ E1 Hs Hu) as (Hs1 & Hf1 & Hl1).
  destruct r1 as [[]|e].
  - apply IH in E2 as (Hs2 & Hb2 & Hf2 & Hle2 & Hge2 & Hok2); [|done|simpl; rewrite Hl1; unfold u64 in *; lia].
    simpl in *. rewrite Hl1 in *. split_and!; try done; [intros; by rewrite Hf2, Hf1|lia|lia|].
    intros Hr. rewrite (Hok2 Hr). lia.
  - injection E2 as <- <-. simpl. rewrite Hl1. split_and!; try done; lia.
Qed.

Lemma visible_foldr_delete m l : visible (foldr delete m l) = foldr delete (visible m) l.
Proof. induction l as [|p l IH]; simpl; [done|]. by rewrite visible_delete, IH. Qed.

(** A batch of distinct paths: all are gone and their sizes released, or some are
    gone and no more than their sizes is released. *)
Lemma remove_spec l paths w r w' :
  covered l w → NoDup paths → Forall (λ p, staging p = false) paths →
  remove (H := quota_service l) paths w = (r, w') →
  let u := live (qs w) (l_id l) in
  covered l w' ∧ (∀ id, id ≠ l_id l → live (qs w') id = live (qs w) id) ∧
  (live (qs w') (l_id l) ≤ u)%N ∧
  (r = Ok () → visible (files (be w')) = foldr delete (visible (files (be w))) paths ∧
    (stat_reliable → live (qs w') (l_id l) + sum_sizes (files (be w)) paths = u)%N).
Proof.
  intros [Hs Hu Hus] Hnd Hf Hr u. revert Hr. unfold remove, with_handle.
  cbn [Service.open_deleter Service.Deleter quota_service].
  unfold quota_delete, in_be, mbind, M_bind, mret, M_ret.
  destruct (open_deleter (be w)) as [r1 b1] eqn:E1. apply open_deleter_law in E1 as [Hb1 Hq1].
  assert (Hsame : covered l (set_be b1 w)) by (split; simpl; rewrite ?Hb1; done).
  destruct r1 as [i|e]; [|intros [= <- <-]; simpl; split_and!; done].
  set (h := {| qd_inner := i; qd_id := l_id l; pending_sizes := [] |}).
  assert (Hd0 : deleting l [] h (set_be b1 w) (set_be b1 w)).
  { split; simpl; try done; [by rewrite Hq1|by intros ? ?%elem_of_nil]. }
  destruct (delete_each (H := quota_service l) paths (h, set_be b1 w)) as [r2 [h2 w2]] eqn:E2.
  destruct (delete_each_spec l paths [] _ _ _ _ _ _ Hd0 Hnd E2) as (Hq2 & Hsub2 & Hd2).
  simpl in Hq2, Hsub2. rewrite Hb1 in Hsub2.
  assert (Husage : ∀ b, files b ⊆ files (be w) → (usage (files b) ≤ u)%N).
  { intros b Hb. apply usage_subseteq in Hb. lia. }
  destruct r2 as [[]|e].
  2: { intros [= <- <-]. rewrite Hq2. split_and!; try done. split; rewrite ?Hq2; auto. }
  cbn [Service.deleter_close quota_service]. unfold quota_deleter_close, on_deleter, in_handle,
    in_world, handle, set_handle, mbind, M_bind.
  destruct (Hd2 eq_refl) as [D1 D2 D3 D4 D5 D6 D7 D8]. simpl in D7, D8, D4. rewrite Hb1 in *.
  destruct (deleter_close (qd_inner h2, be w2)) as [r3 [i3 b3]] eqn:E3. apply deleter_close_law in E3.
  destruct r3 as [[]|e]; simpl.
  2: { intros [= <- <-]. simpl. rewrite Hq2. split_and!; try done. split; simpl; rewrite ?Hq2; auto.
       apply Husage. etrans; [|exact Hsub2]. apply map_subseteq_spec. intros q s Hq.
       destruct (E3 q) as [<-|[_ Hn]]; [done|congruence]. }
  destruct E3 as [Hb3 _].
  assert (Hfin : files b3 = foldr delete (files (be w)) paths).
  { apply map_eq. intros q. rewrite Hb3, !lookup_foldr_delete. simpl in *.
    destruct (decide (q ∈ paths)) as [Hin|Hin].
    - case_decide as Hqq; [done|]. destruct (D5 q Hin); [done|naive_solver].
    - rewrite decide_False by naive_solver. auto. }
  destruct (release_all (qd_id h2) (pending_sizes h2) (set_be b3 w2)) as [r4 w4] eqn:E4.
  intros [= <- <-]. apply release_all_spec in E4 as (Hs4 & Hb4 & Hf4 & Hle4 & Hge4 & Hok4);
    [|simpl; by rewrite Hq2|simpl; by rewrite D1, Hq2].
  simpl in *. rewrite D1, Hq2 in *.
  pose proof (usage_delete_list (files (be w)) paths Hnd Hf) as Hul. fold u in Hle4, Hge4, Hok4.
  split; [|split; [done|split; [done|]]].
  - split; [done|unfold u64 in *; lia|]. rewrite Hb4, Hfin. lia.
  - intros ->. rewrite Hb4, Hfin. split; [apply visible_foldr_delete|].
    intros Hr. rewrite (Hok4 eq_refl), (D8 Hr). lia.
Qed.

Lemma outcome_covered {A} l dest n (r : result DalError A) w w' :
  covered l w → staging dest = false → (l_limit l < U64_MAX)%N →
  outcome l dest n r w w' → covered l w' ∧
  ((live (qs w) (l_id l) ≤ l_limit l)%N → (live (qs w') (l_id l) ≤ l_limit l)%N).
Proof.
  intros [Hs Hu Hus] Hd Hlim (o & (Hs' & _ & Ho & Hr) & _).
  pose proof (usage_insert (files (be w)) dest n Hd) as Hins.
  pose proof (usage_delete_le (files (be w)) dest) as Hdel.
  destruct r as [v|e].
  - destruct Hr as (Hv & Hl & Hle). split; [|done]. split; [done|unfold u64; lia|].
    rewrite <-visible_insert in Hv by done. rewrite (usage_ext _ _ Hv). lia.
  - destruct Hr as [Hl Hv]. rewrite Hl. split; [|done]. split; [done|by rewrite Hl|]. rewrite Hl.
    destruct Hv as [Hv|[_ Hv]]; [by rewrite (usage_ext _ _ Hv)|].
    rewrite <-visible_delete in Hv. rewrite (usage_ext _ _ Hv). lia.
Qed.

Lemma rename_spec l from to w r w' :
  staging from = false → staging to = false → quota_rename l from to w = (r, w') →
  qs w' = qs w ∧
  match r with
  | Ok _ => ∃ s, visible (files (be w)) !! from = Some s ∧
              visible (files (be w')) = <[to := s]> (delete from (visible (files (be w))))
  | Err _ => visible (files (be w')) = visible (files (be w))
  end.
Proof.
  intros Hf Ht. unfold quota_rename, in_be. destruct (rename from to (be w)) as [r1 b1] eqn:E.
  apply rename_law in E. intros [= <- <-]. split; [done|]. simpl. destruct r1 as [v|e].
  - destruct E as (s & Hs & ->). exists s. rewrite lookup_visible, visible_insert, visible_delete by done. done.
  - by rewrite E.
Qed.

(** What renaming does to the stored bytes. *)
Lemma rename_usage from to s m :
  from ≠ to → staging from = false → staging to = false → m !! from = Some s →
  (usage (<[to := s]> (delete from m)) + size_at m to = usage m)%N.
Proof.
  intros Hne Hf Ht Hs. pose proof (usage_insert (delete from m) to s Ht) as Hi.
  rewrite (usage_size m from Hf). unfold size_at in *. rewrite lookup_delete_ne in Hi by done.
  rewrite Hs. simpl. lia.
Qed.

(** ** Runs *)

(** Operations of a client through the layer; the paths are the client's, so none
    is a staging path. *)
Inductive fsop :=
| Put (path : string) (chunks : list string)
| Remove (paths : list string)
| Duplicate (from to : string) (steps : nat)
| Move (from to : string).

Definition op_ok (op : fsop) : Prop :=
  match op with
  | Put path chunks => staging path = false ∧ (total_len chunks ≤ U64_MAX)%N
  | Remove paths => NoDup paths ∧ Forall (λ p, staging p = false) paths
  | Duplicate from to _ => staging from = false ∧ staging to = false
  | Move from to => staging from = false ∧ staging to = false
  end.

(** A copy is charged what [size_of] says of its source: with a [stat] that can fail on an
    existing object, nothing ([unmeasured_copy_undercounts]). *)
Definition measured (op : fsop) : Prop := match op with Duplicate _ _ _ => stat_reliable | _ => True end.

Definition do_op (l : QuotaLayer) (op : fsop) (w : W) : W :=
  match op with
  | Put path chunks => (put (H := quota_service l) path chunks w).2
  | Remove paths => (remove (H := quota_service l) paths w).2
  | Duplicate from to n => (duplicate (H := quota_service l) from to n w).2
  | Move from to => (rename (Service:=quota_service l) from to w).2
  end.

Lemma do_op_covered l op w :
  op_ok op → measured op → (l_limit l < U64_MAX)%N → covered l w →
  covered l (do_op l op w) ∧
  ((live (qs w) (l_id l) ≤ l_limit l)%N → (live (qs (do_op l op w)) (l_id l) ≤ l_limit l)%N).
Proof.
  intros Hok Hrel Hlim Hcov. destruct op as [path chunks|paths|from to n|from to]; simpl in *.
  - destruct (put (H := quota_service l) path chunks w) as [r w'] eqn:E. destruct Hok.
    apply put_spec in E; [|done..]. by eapply outcome_covered.
  - destruct (remove (H := quota_service l) paths w) as [r w'] eqn:E. destruct Hok.
    apply remove_spec in E as (Hc & _ & Hle & _); [|done..]. split; [done|]. simpl. lia.
  - destruct (duplicate (H := quota_service l) from to n w) as [r w'] eqn:E. destruct Hok.
    apply duplicate_spec in E; [|done..]. by eapply outcome_covered.
  - destruct (quota_rename l from to w) as [r w'] eqn:E. destruct Hok as [Hf Ht].
    destruct Hcov as [Hs Hu Hus]. apply rename_spec in E as [Hq Hv]; [|done..]. simpl.
    rewrite Hq. split; [|done]. split; rewrite ?Hq; [done|done|].
    destruct r as [v|e]; [|by rewrite (usage_ext _ _ Hv)].
    destruct Hv as (s & Hs' & Hv). rewrite lookup_visible in Hs' by done.
    rewrite <-visible_delete, <-visible_insert in Hv by done. rewrite (usage_ext _ _ Hv).
    etrans; [|exact Hus]. destruct (decide (from = to)) as [->|Hne].
    + rewrite insert_delete_eq, insert_id by done. done.
    + pose proof (rename_usage from to s _ Hne Hf Ht Hs'). lia.
Qed.

(** ** Properties *)

(** C1. The quota bounds the stored bytes: over any backend and tracker that obey
    their laws, along any sequence of writes, batched deletes of distinct paths, renames
    and copies through the layer (each of them failing anywhere or not), the bytes of the
    client's objects never exceed the id's total and the total never exceeds the
    limit, once both hold. Only for copies it is assumed that [stat] does not fail on an
    object that exists. *)
Theorem quota_bounds_stored_bytes l ops w :
  Forall (λ op, op_ok op ∧ measured op) ops → (l_limit l < U64_MAX)%N →
  covered l w → (live (qs w) (l_id l) ≤ l_limit l)%N →
  let w' := foldl (λ w op, do_op l op w) w ops in
  (usage (files (be w')) ≤ live (qs w') (l_id l) ∧ live (qs w') (l_id l) ≤ l_limit l)%N.
Proof.
  intros Hops Hlim. revert w. induction Hops as [|op ops [Hop Hrel] _ IH]; intros w Hcov Hl; simpl.
  - split; [apply Hcov|done].
  - destruct (do_op_covered l op w Hop Hrel Hlim Hcov) as [Hcov' Hl']. apply IH; auto.
Qed.

(** C19. A write through the layer is all or nothing: when it succeeds, the object
    has exactly the bytes that were streamed, every other object is as it was and
    the total has grown by the new size less what was measured of the replaced one - all
    of it, unless [stat] failed on it - within the limit; when it fails, the total is as it
    was and so is every object, except that an object the write fits in place of may be
    lost if the backend could not rename over it ([failed_rename_loses_destination]). A
    write that does not fit leaves every object as it was. *)
Theorem write_is_all_or_nothing l path chunks w r w' :
  covered l w → staging path = false → (l_limit l < U64_MAX)%N →
  (total_len chunks ≤ U64_MAX)%N →
  put (H := quota_service l) path chunks w = (r, w') →
  let u := live (qs w) (l_id l) in
  let old_size := size_at (files (be w)) path in
  let new_size := total_len chunks in
  (∀ id, id ≠ l_id l → live (qs w') id = live (qs w) id) ∧
  match r with
  | Ok _ =>
      visible (files (be w')) = <[path := new_size]> (visible (files (be w))) ∧
      (∃ known, (known ≤ old_size)%N ∧ (stat_reliable → known = old_size) ∧
         (live (qs w') (l_id l) + known = u + new_size)%N) ∧ (live (qs w') (l_id l) ≤ l_limit l)%N
  | Err _ =>
      live (qs w') (l_id l) = u ∧
      (visible (files (be w')) = visible (files (be w)) ∨
       (u + new_size ≤ l_limit l + old_size)%N ∧
       visible (files (be w')) = delete path (visible (files (be w))))
  end.
Proof.
  intros Hcov Hp Hlim Hlen Hput. eapply (put_spec l) in Hput as (o & (_ & Ho & Hle & Hr) & Ho'); [|done..].
  split; [done|]. destruct r as [m|e].
  - destruct Hr as (Hv & Hl & Hlim'). split_and!; [done| |done]. by exists o.
  - destruct Hr as [Hl [Hv|[Hn Hv]]]; (split; [done|]); [by left|right]. split; [lia|done].
Qed.

(** A batch of deletes releases exactly what it removed: on success the paths
    are gone, nothing else is, and the total has shrunk by the sizes the objects
    had, whether the backend deletes at once or at close. *)
Theorem delete_releases_exactly l paths w w' :
  covered l w → stat_reliable → NoDup paths → Forall (λ p, staging p = false) paths →
  remove (H := quota_service l) paths w = (Ok (), w') →
  visible (files (be w')) = foldr delete (visible (files (be w))) paths ∧
  (live (qs w') (l_id l) + sum_sizes (files (be w)) paths = live (qs w) (l_id l))%N ∧
  (usage (files (be w')) + sum_sizes (files (be w)) paths = usage (files (be w)))%N.
Proof.
  intros Hcov Hrel Hnd Hf Hr. apply remove_spec in Hr as (_ & _ & _ & Hok); [|done..].
  destruct (Hok eq_refl) as [Hv Hl]. split; [done|]. split; [auto|].
  rewrite (usage_delete_list (files (be w)) _ Hnd Hf), N.add_comm. f_equal. apply usage_ext.
  by rewrite Hv, visible_foldr_delete.
Qed.

(** Renaming over an existing object is not charged back: the total stays,
    while the stored bytes shrink by the size of the object that was replaced. *)
Theorem rename_keeps_total l from to w v w' :
  from ≠ to → staging from = false → staging to = false →
  rename (Service:=quota_service l) from to w = (Ok v, w') →
  live (qs w') (l_id l) = live (qs w) (l_id l) ∧
  (usage (files (be w')) + size_at (files (be w)) to = usage (files (be w)))%N.
Proof.
  intros Hne Hf Ht Hr. apply rename_spec in Hr as [Hq (s & Hs & Hv)]; [|done..].
  rewrite Hq. split; [done|]. rewrite lookup_visible in Hs by done.
  rewrite <-visible_delete, <-visible_insert in Hv by done. rewrite (usage_ext _ _ Hv).
  by apply rename_usage.
Qed.

(** *** Staging paths of concurrent operations *)

Fixpoint stage (paths : list string) : M W DalError (list string) :=
  match paths with
  | [] => mret []
  | p :: paths => t ← tmp_path_for p; ts ← stage paths; mret (t :: ts)
  end.

Lemma stage_spec paths : ∀ w,
  (suffix_counter w + N.of_nat (length paths) ≤ U64_MAX)%N →
  ∃ ts w', stage paths w = (Ok ts, w') ∧
    ts = imap (λ i p, tmp_name p (clock w (suffix_counter w + N.of_nat i)%N)
                             (suffix_counter w + N.of_nat i)%N) paths.
Proof.
  induction paths as [|p paths IH]; intros w Hw; simpl in *; [eauto|].
  unfold mbind, M_bind, tmp_path_for. set (w1 := {| be := be w |}).
  assert (Hc : suffix_counter w1 = (suffix_counter w + 1)%N).
  { simpl. unfold wrapping_add. apply N.mod_small. lia. }
  destruct (IH w1) as (ts & w2 & Hs & Hts); [rewrite Hc; lia|]. rewrite Hs. simpl.
  eexists _, _. split; [done|]. simpl. rewrite N.add_0_r, Hts, Hc. f_equal.
  apply imap_ext. intros i q Hq. unfold compose.
  by replace (suffix_counter w + N.of_nat (S i))%N with (suffix_counter w + 1 + N.of_nat i)%N by lia.
Qed.

(** Operations in flight never share a staging object: as long as fewer than
    [2^64] staging paths are taken, the paths are pairwise distinct, even for the
    same destination and the same clock reading, and none is a client's path. *)
Theorem staging_paths_distinct paths w ts w' :
  (suffix_counter w + N.of_nat (length paths) ≤ U64_MAX)%N → stage paths w = (Ok ts, w') →
  NoDup ts ∧ Forall (λ t, staging t = true) ts.
Proof.
  intros Hw Hst. destruct (stage_spec paths w Hw) as (ts' & w'' & Hs & Hts).
  rewrite Hst in Hs. injection Hs as <- <-. subst ts. split.
  - apply NoDup_alt. intros i j x. rewrite !list_lookup_imap.
    destruct (paths !! i) as [p|]; [|done]. destruct (paths !! j) as [q|]; [|done]. simpl.
    intros [= <-] [= Heq]. apply tmp_name_inj in Heq. lia.
  - apply Forall_lookup. intros i x. rewrite list_lookup_imap.
    destruct (paths !! i) as [p|]; [|done]. intros [= <-]. apply tmp_name_staging.
Qed.

End Accounting.

(** ** Concrete runs *)

Section Demo.
Open Scope string_scope.

Definition demo_layer : QuotaLayer := {| l_id := "alice"; l_limit := 10 |}.
Definition demo_world (deferred : bool) (faults : list bool) : World Sim.t MemoryTracker :=
  {| be := {| Sim.objs := {["a" := 4%N]}; Sim.deferred := deferred; Sim.rename_faults := faults |};
     qs := qs_new {["alice" := 4%N]}; suffix_counter := 7; clock := λ n, (1000 + n)%N |}.

Lemma demo_reliable : stat_reliable (B := Sim.t).
Proof. intros p b s Hs. simpl in *. unfold Sim.sim_stat. by rewrite Hs. Qed.
Lemma demo_covered deferred faults : covered demo_layer (demo_world deferred faults).
Proof. split; [apply synced_new|by vm_compute|by vm_compute]. Qed.

Definition demo_ops : list fsop :=
  [Put "b" ["hel"; "lo"]; Put "c" ["too long"]; Duplicate "a" "b" 2; Remove ["a"; "zz"]; Move "b" "d"].

Example demo_ops_value :
  let w := foldl (λ w op, do_op demo_layer op w) (demo_world true [false; true]) demo_ops in
  visible (files (be w)) = {["d" := 4%N]} ∧ live (qs w) "alice" = 4%N.
Proof. by vm_compute. Qed.

Lemma quota_bounds_stored_bytes_witness :
  (usage (files (be (foldl (λ w op, do_op demo_layer op w) (demo_world true [true]) demo_ops))) ≤ 10)%N.
Proof.
  destruct (quota_bounds_stored_bytes demo_layer demo_ops (demo_world true [true])) as [H1 H2].
  - repeat constructor; first [exact demo_reliable | by apply (bool_decide_unpack _); vm_compute | done].
  - done.
  - apply demo_covered.
  - by vm_compute.
  - etrans; [exact H1|exact H2].
Defined.

Definition demo_put (path : string) (chunks : list string) (faults : list bool) :=
  put (H := quota_service demo_layer) path chunks (demo_world false faults).

Lemma write_is_all_or_nothing_witness :
  is_ok (demo_put "a" ["0123456"] []).1 = true ∧
  live (qs (demo_put "a" ["0123456"] []).2) "alice" = 7%N ∧
  is_ok (demo_put "b" ["0123456"] []).1 = false ∧
  live (qs (demo_put "b" ["0123456"] []).2) "alice" = 4%N.
Proof.
  split; [by vm_compute|]. split.
  - pose proof (write_is_all_or_nothing demo_layer "a" ["0123456"] (demo_world false [])
      (demo_put "a" ["0123456"] []).1 (demo_put "a" ["0123456"] []).2 (demo_covered _ _)
      eq_refl eq_refl ltac:(by vm_compute) (surjective_pairing _)) as [_ H].
    by vm_compute.
  - by vm_compute.
Defined.

Definition demo_remove (deferred : bool) (paths : list string) :=
  remove (H := quota_service demo_layer) paths (demo_world deferred []).

Lemma delete_releases_exactly_witness : live (qs (demo_remove true ["a"; "b"]).2) "alice" = 0%N.
Proof.
  destruct (delete_releases_exactly demo_layer ["a"; "b"] (demo_world true []) (demo_remove true ["a"; "b"]).2
    (demo_covered _ _) demo_reliable) as (_ & H & _).
  - apply (bool_decide_unpack _). by vm_compute.
  - repeat constructor.
  - by vm_compute.
  - by vm_compute.
Defined.

(** Two objects, renamed one over the other. *)
Definition two_objects : World Sim.t MemoryTracker :=
  {| be := {| Sim.objs := {["a" := 4%N; "b" := 5%N]}; Sim.deferred := true; Sim.rename_faults := [] |};
     qs := qs_new {["alice" := 9%N]}; suffix_counter := 0; clock := λ n, n |}.

Lemma rename_keeps_total_witness :
  let w' := (rename (Service:=quota_service demo_layer) "a" "b" two_objects).2 in
  live (qs w') "alice" = 9%N ∧ usage (files (be w')) = 4%N.
Proof.
  destruct (rename_keeps_total demo_layer "a" "b" two_objects ()
    (rename (Service:=quota_service demo_layer) "a" "b" two_objects).2) as [H _];
    [done|done|done|by vm_compute|]. split; [exact H|by vm_compute].
Defined.

Lemma staging_paths_distinct_witness :
  NoDup (match (stage ["x"; "x"; "y"] two_objects).1 with Ok ts => ts | Err _ => [] end).
Proof.
  apply (staging_paths_distinct ["x"; "x"; "y"] two_objects _ (stage ["x"; "x"; "y"] two_objects).2);
    by vm_compute.
Defined.

(** Naming a path twice in a batch over a backend that deletes at close releases
    its size twice: the total then no longer covers the stored bytes. *)
Example duplicate_delete_undercounts :
  let w' := (remove (H := quota_service demo_layer) ["a"; "a"] two_objects).2 in
  live (qs w') "alice" = 1%N ∧ usage (files (be w')) = 5%N.
Proof. by vm_compute. Qed.

(** A backend that fails to rename twice, for whatever reason, costs the object
    that the write was to replace. *)
Example failed_rename_loses_destination :
  let '(r, w') := demo_put "a" ["0123456"] [true; true] in
  is_ok r = false ∧ files (be w') = ∅ ∧ live (qs w') "alice" = 4%N.
Proof. by vm_compute. Qed.

(** A backend on which [stat] fails with an error that says nothing about the object. *)
Definition flaky : Service Sim.t := {|
  Metadata := N; content_length n := n; Reader := string; Lister := string; Presigned := string;
  Writer := Sim.writer; Deleter := list string; Copier := Sim.copier;
  create_dir := Service.create_dir; stat _ := λ b, (Err (dal_error Kind.Unexpected "timed out"), b);
  read := Service.read; write := Sim.sim_write; open_deleter := Service.open_deleter; list_dir := Service.list_dir;
  copy := Sim.sim_copy; rename := Sim.sim_rename; presign := Service.presign;
  writer_write := Sim.sim_writer_write; writer_close := Sim.sim_writer_close; writer_abort := Sim.sim_writer_abort;
  deleter_delete := Sim.sim_deleter_delete; deleter_close := Sim.sim_deleter_close;
  copier_next := Service.copier_next; copier_close := Sim.sim_copier_close; copier_abort := Service.copier_abort;
|}.
#[local] Program Instance flaky_laws : @ServiceLaws Sim.t flaky := {|
  files := Sim.objs; w_target := Sim.wr_path; w_size := Sim.wr_len; d_queue := λ d : list string, d;
  c_from := Sim.cp_from; c_to := Sim.cp_to;
|}.
Next Obligation. by intros p b r b' [= <- <-]. Qed.
Next Obligation. Sim.sim_step. all: try (try split; done). Qed.
Next Obligation. Sim.sim_step. all: try (try split; done). Qed.
Next Obligation. Sim.sim_step. all: try (try split; done). Qed.
Next Obligation. Sim.sim_step. all: try (try split; done). Qed.
Next Obligation. Sim.sim_step. all: try (try split; done). Qed.
Next Obligation. Sim.sim_step. all: try (try split; done). Qed.
Next Obligation. Sim.sim_step. all: try (try split; done). Qed.
Next Obligation. Sim.sim_step. all: try (try split; done). Qed.
Next Obligation. Sim.sim_step. all: try (try split; done). Qed.
Next Obligation. Sim.sim_step. all: try (try split; done). Qed.
Next Obligation. Sim.sim_step. all: try (try split; done). Qed.
Next Obligation. Sim.sim_step. all: try (try split; done). Qed.

(** There a copy is stored and charged nothing. *)
Example unmeasured_copy_undercounts :
  let '(r, w) := duplicate (H := @quota_service Sim.t MemoryTracker flaky _ demo_layer) "a" "b" 2 (demo_world false []) in
  is_ok r = true ∧ live (qs w) "alice" = 4%N ∧ usage (Sim.objs (be w)) = 8%N.
Proof. by vm_compute. Qed.

End Demo.
