(* ===== verification/QuotaRaces.v ===== *)
(** * Operations that share a quota ([quota.rs])

    [QuotaLayer] runs one operation at a time. Here any number of them are in flight on one
    quota id, as tasks that are interleaved at every call on the storage or the quota
    engine, in the order in which the code makes these calls. A charge is one step: the
    engine behaves as a map of totals under any interleaving ([QuotaState],
    [QuotaCounter.Atomics]). So is a best-effort removal, whose calls only concern a path
    the task works on.

    A task alone does what the layer's operation does ([alone_is_sequential]). Tasks that
    work on different paths keep what the quota is for; tasks on one path do not
    ([DemoRaces]). *)

From S2P Require Import Prelude.
From S2P Require Import RustStr.
From S2P Require Import Errors.
From S2P Require Import QuotaCounter.
From S2P Require Import QuotaState.
From S2P Require Import Service.
From S2P Require Import QuotaLayer.
From stdpp Require Import options.
Close Scope string_scope.

Notation sizes := (gmap string N).

Section Tasks.
Context {B T : Type} `{Service B} `{QuotaTracker T} (l : QuotaLayer).
Notation W := (World B T).
Implicit Types w : W.

(** What an operation has still to do, from its next call on. [tmp] and [dest] are the
    staged object and its destination, [n] the size to charge, [o] the size of what it
    replaces; [done] are the paths a deleter was given, in the order of its sizes. *)
Inductive Task :=
| Writes (h : QuotaWriter (B := B)) (chunks : list string)
| Aborts (h : QuotaWriter (B := B)) (e : DalError)
| Copies (h : QuotaCopier (B := B)) (steps : nat)
| Sources (tmp from dest : string)
| Measures (tmp dest : string) (n : N)
| Charges (tmp dest : string) (o n : N)
| Moves (tmp dest : string) (o n : N)
| Clears (tmp dest : string) (o n : N)
| Retries (tmp dest : string) (o n : N)
| Refunds (tmp dest : string) (o n : N) (e : DalError)
| Cleans (tmp : string) (e : DalError)
| Deletes (h : QuotaDeleter (B := B)) (done paths : list string)
| Queues (h : QuotaDeleter (B := B)) (done : list string) (p : string) (size : N) (paths : list string)
| Releases (done : list string) (sizes : list N)
| Renames (from to : string)
| Ends (r : result DalError ()).

(** The next call of a task. *)
Definition task_step (t : Task) (w : W) : Task * W :=
  match t with
  | Writes h (bs :: chunks) =>
      let '(r, (h, w)) := quota_writer_write bs (h, w) in
      (match r with Ok _ => Writes h chunks | Err e => Aborts h e end, w)
  | Writes h [] =>
      let '(r, (h, w)) := on_writer writer_close (h, w) in
      (match r with Ok _ => Measures (qw_tmp_path h) (qw_path h) (qw_written h) | Err e => Ends (Err e) end, w)
  | Aborts h e => let '(_, (_, w)) := quota_writer_abort (h, w) in (Ends (Err e), w)
  | Copies h (S k) =>
      let '(r, (h, w)) := quota_copier_next (h, w) in
      (match r with Ok _ => Copies h k | Err e => Ends (Err e) end, w)
  | Copies h O =>
      let '(r, (h, w)) := on_copier copier_close (h, w) in
      (match r with Ok _ => Sources (qc_tmp_to h) (qc_from h) (qc_to h) | Err e => Ends (Err e) end, w)
  | Sources tmp from dest =>
      let '(r, w) := in_be (size_of from) w in (Measures tmp dest (unwrap_or 0%N r), w)
  | Measures tmp dest n =>
      let '(r, w) := in_be (size_of dest) w in (Charges tmp dest (unwrap_or 0%N r) n, w)
  | Charges tmp dest o n =>
      let '(r, w) := in_qs (commit_write (l_id l) (l_limit l) o n) w in
      (match r with Ok _ => Moves tmp dest o n | Err e => Cleans tmp e end, w)
  | Moves tmp dest o n =>
      let '(r, w) := in_be (rename tmp dest) w in
      (match r with Ok _ => Ends (Ok ()) | Err _ => Clears tmp dest o n end, w)
  | Clears tmp dest o n => let '(_, w) := in_be (best_effort_remove dest) w in (Retries tmp dest o n, w)
  | Retries tmp dest o n =>
      let '(r, w) := in_be (rename tmp dest) w in
      (match r with Ok _ => Ends (Ok ()) | Err e => Refunds tmp dest o n e end, w)
  | Refunds tmp dest o n e =>
      let '(_, w) := in_qs (commit_write (l_id l) U64_MAX n o) w in (Cleans tmp e, w)
  | Cleans tmp e => let '(_, w) := in_be (best_effort_remove tmp) w in (Ends (Err e), w)
  | Deletes h dn (p :: paths) =>
      let '(r, w) := in_be (size_of p) w in (Queues h dn p (unwrap_or 0%N r) paths, w)
  | Deletes h dn [] =>
      let '(r, (h, w)) := on_deleter deleter_close (h, w) in
      (match r with Ok _ => Releases dn (pending_sizes h) | Err e => Ends (Err e) end, w)
  | Queues h dn p size paths =>
      let '(r, (h, w)) := on_deleter (deleter_delete p) (h, w) in
      (match r with
       | Ok _ => Deletes (qd_set_pending (pending_sizes h ++ [size]) h) (dn ++ [p]) paths
       | Err e => Ends (Err e)
       end, w)
  | Releases dn (size :: sizes) =>
      let '(r, w) := in_qs (commit_delete (l_id l) size) w in
      (match r with Ok _ => Releases (tail dn) sizes | Err e => Ends (Err e) end, w)
  | Releases _ [] => (Ends (Ok ()), w)
  | Renames from to => let '(r, w) := in_be (rename from to) w in (Ends r, w)
  | Ends r => (Ends r, w)
  end.

(** The call that opens the handle. *)
Definition begin (op : fsop) (w : W) : Task * W :=
  match op with
  | Put path chunks =>
      let '(r, w) := quota_write l path w in
      (match r with Ok h => Writes h chunks | Err e => Ends (Err e) end, w)
  | Remove paths =>
      let '(r, w) := quota_delete l w in
      (match r with Ok h => Deletes h [] paths | Err e => Ends (Err e) end, w)
  | Duplicate from to k =>
      let '(r, w) := quota_copy l from to w in
      (match r with Ok h => Copies h k | Err e => Ends (Err e) end, w)
  | Move from to => (Renames from to, w)
  end.

Fixpoint finish (fuel : nat) (t : Task) (w : W) : Task * W :=
  match fuel with O => (t, w) | S k => let '(t, w) := task_step t w in finish k t w end.
(** The operation of the layer, without its answer's details. *)
Definition unit_of {A} (r : result DalError A) : result DalError () := match r with Ok _ => Ok () | Err e => Err e end.
Definition whole (op : fsop) (w : W) : result DalError () * W :=
  match op with
  | Put path chunks => let '(r, w) := put (H := quota_service l) path chunks w in (unit_of r, w)
  | Remove paths => remove (H := quota_service l) paths w
  | Duplicate from to k => let '(r, w) := duplicate (H := quota_service l) from to k w in (unit_of r, w)
  | Move from to => quota_rename l from to w
  end.

(** *** A task alone *)

Definition becomes (t : Task) (w : W) (r : result DalError ()) (w' : W) : Prop := ∃ n, finish n t w = (Ends r, w').
Lemma becomes_end r w : becomes (Ends r) w r w.
Proof using Type. by exists 0. Qed.
Lemma becomes_step t w t1 w1 r w' : task_step t w = (t1, w1) → becomes t1 w1 r w' → becomes t w r w'.
Proof using Type. intros Ht [n Hn]. exists (S n). cbn. by rewrite Ht. Qed.
Ltac next := eapply becomes_step; [cbn; reflexivity|].

(** How many calls a task has at most left to make. *)
Definition left (t : Task) : nat :=
  match t with
  | Ends _ => 0
  | Aborts _ _ | Cleans _ _ | Renames _ _ => 1
  | Refunds _ _ _ _ _ => 2
  | Retries _ _ _ _ => 3
  | Clears _ _ _ _ => 4
  | Moves _ _ _ _ => 5
  | Charges _ _ _ _ => 6
  | Measures _ _ _ => 7
  | Sources _ _ _ => 8
  | Writes _ chunks => 8 + length chunks
  | Copies _ k => 9 + k
  | Releases _ ss => 1 + length ss
  | Deletes h _ ps => 2 + length (pending_sizes h) + 3 * length ps
  | Queues h _ _ _ ps => 4 + length (pending_sizes h) + 3 * length ps
  end.
Lemma call_is_progress t w : left (task_step t w).1 ≤ pred (left t).
Proof using Type.
  destruct t as [h [|bs cs]|h e|h [|k]| | | | | | | | |h dn [|p ps]|h dn p s ps|dn [|s ss]| |]; cbn [task_step];
    try (destruct (in_be _ w) as [[?|?] ?]; cbn; lia); try (destruct (in_qs _ w) as [[?|?] ?]; cbn; lia); try (cbn; lia).
  - destruct (on_writer _ _) as [[?|?] [? ?]]; cbn; lia.
  - destruct (quota_writer_write _ _) as [[?|?] [? ?]]; cbn; lia.
  - destruct (quota_writer_abort _) as [? [? ?]]; cbn; lia.
  - destruct (on_copier _ _) as [[?|?] [? ?]]; cbn; lia.
  - destruct (quota_copier_next _) as [[?|?] [? ?]]; cbn; lia.
  - unfold on_deleter, in_handle. destruct (deleter_close _) as [[?|?] [? ?]]; cbn; lia.
  - unfold on_deleter, in_handle. destruct (deleter_delete _ _) as [[?|?] [? ?]]; cbn; rewrite ?length_app; cbn; lia.
Qed.
Lemma ended k r w : finish k (Ends r) w = (Ends r, w).
Proof using Type. by induction k. Qed.
Lemma finish_longer n k t w r w' : finish n t w = (Ends r, w') → n ≤ k → finish k t w = (Ends r, w').
Proof using Type.
  revert k t w. induction n as [|n IH]; intros k t w Hn Hk; cbn in Hn.
  - injection Hn as -> ->. apply ended.
  - destruct k as [|k]; [lia|]. cbn. destruct (task_step t w) as [t1 w1]. apply IH; [done|lia].
Qed.
Lemma becomes_bounded t w r w' : becomes t w r w' → finish (left t) t w = (Ends r, w').
Proof using Type.
  intros [n Hn]. revert t w Hn. induction n as [|n IH]; intros t w Hn; cbn in Hn.
  - injection Hn as -> ->. done.
  - pose proof (call_is_progress t w) as Hp. destruct (task_step t w) as [t1 w1] eqn:E. cbn in Hp. apply IH in Hn as Hn1.
    destruct (left t) as [|k] eqn:El.
    + destruct t; cbn in El; try (exfalso; lia); try done. injection E as <- <-. rewrite ended in Hn1. by injection Hn1 as -> ->.
    + cbn. rewrite E. by eapply finish_longer.
Qed.

Lemma remove_ok p (b b' : B) r : best_effort_remove p b = (r, b') → r = Ok ().
Proof using Type. unfold best_effort_remove. repeat case_match; by intros [= <- _]. Qed.

Lemma moves_alone tmp dest o n w r w' :
  (r ← attempt (E := DalError) (in_be (commit_rename tmp dest));
   match r with
   | Err err => _ ← attempt (E := DalError) (in_qs (commit_write (l_id l) U64_MAX n o));
                _ ← in_be (best_effort_remove tmp); throw err
   | Ok _ => mret ()
   end) w = (r, w') →
  becomes (Moves tmp dest o n) w r w'.
Proof using Type.
  unfold commit_rename, in_be, in_qs, attempt, throw, mbind, M_bind, mret, M_ret. intros Hr.
  destruct (rename tmp dest (be w)) as [r1 b1] eqn:E1. destruct r1 as [v|e1]; cbn in Hr.
  { injection Hr as <- <-. eapply becomes_step; [cbn; unfold in_be; by rewrite E1|]. apply becomes_end. }
  destruct (best_effort_remove dest b1) as [r2 b2] eqn:E2. apply remove_ok in E2 as Hok2; subst r2.
  destruct (rename tmp dest b2) as [r3 b3] eqn:E3.
  assert (Hm : becomes (Retries tmp dest o n) (set_be b2 w) r w' → becomes (Moves tmp dest o n) w r w').
  { intros Hb. eapply becomes_step; [cbn; unfold in_be; by rewrite E1|].
    eapply becomes_step; [cbn; unfold in_be; cbn; by rewrite E2|]. exact Hb. }
  apply Hm. clear Hm. destruct r3 as [v|e3]; cbn in Hr.
  { injection Hr as <- <-. eapply becomes_step; [cbn; unfold in_be; cbn; by rewrite E3|]. apply becomes_end. }
  destruct (commit_write (l_id l) U64_MAX n o (qs w)) as [r4 q4] eqn:E4. cbn in Hr.
  destruct (best_effort_remove tmp b3) as [r5 b5] eqn:E5. apply remove_ok in E5 as Hok5; subst r5.
  cbn in Hr. injection Hr as <- <-. eapply becomes_step; [cbn; unfold in_be; cbn; by rewrite E3|].
  eapply becomes_step; [cbn; unfold in_qs; cbn; by rewrite E4|].
  eapply becomes_step; [cbn; unfold in_be; cbn; by rewrite E5|]. apply becomes_end.
Qed.
Lemma charges_alone tmp dest o n w r w' :
  commit_staged l tmp dest o n w = (r, w') → becomes (Charges tmp dest o n) w r w'.
Proof using Type.
  unfold commit_staged. unfold mbind at 1, M_bind at 1. unfold attempt at 1. unfold in_qs at 1. intros Hr.
  destruct (commit_write (l_id l) (l_limit l) o n (qs w)) as [r1 q1] eqn:E1. destruct r1 as [v|e].
  - eapply becomes_step; [cbn; unfold in_qs; by rewrite E1|]. apply moves_alone. exact Hr.
  - unfold in_be, throw, mbind, M_bind in Hr. cbn in Hr. destruct (best_effort_remove tmp (be w)) as [r2 b2] eqn:E2.
    apply remove_ok in E2 as Hok2; subst r2. injection Hr as <- <-.
    eapply becomes_step; [cbn; unfold in_qs; by rewrite E1|].
    eapply becomes_step; [cbn; unfold in_be; cbn; by rewrite E2|]. apply becomes_end.
Qed.
Lemma size_ok p w r w' : in_be (size_of p) w = (r, w') → ∃ o, r = Ok o.
Proof using Type.
  unfold in_be, size_of, attempt, mbind, M_bind, mret, M_ret. destruct (stat p (be w)) as [[m|e] b]; intros [= <- _]; eauto.
Qed.
Lemma measures_alone {A} tmp dest n (m : A) h w r h' w' :
  (o ← in_world (in_be (size_of dest)); c ← attempt (in_world (commit_staged l tmp dest o n));
   _ ← set_handle (qw_set_written 0);
   match c with Ok _ => mret m | Err err => throw err end) (h, w) = (r, (h', w')) →
  becomes (Measures tmp dest n) w (unit_of r) w'.
Proof using Type.
  unfold in_world, attempt, set_handle, throw, mbind, M_bind, mret, M_ret. intros Hr.
  destruct (in_be (size_of dest) w) as [r1 w1] eqn:E1. apply size_ok in E1 as Ho. destruct Ho as [o ->].
  eapply becomes_step; [cbn [task_step]; by rewrite E1|]. apply charges_alone. cbn.
  destruct (commit_staged l tmp dest o n w1) as [r2 w2]. destruct r2 as [[]|e]; by injection Hr as <- _ <-.
Qed.
Lemma writes_alone chunks : ∀ h w r h' w', qw_layer h = l →
  (r ← attempt (E := DalError) (write_chunks (H := quota_service l) chunks);
   match r with
   | Ok _ => writer_close (Service := quota_service l)
   | Err e => _ ← attempt (E := DalError) (writer_abort (Service := quota_service l)); throw e
   end) (h, w) = (r, (h', w')) →
  becomes (Writes h chunks) w (unit_of r) w'.
Proof using Type.
  induction chunks as [|bs chunks IH]; intros h w r h' w' Hl; cbn [write_chunks].
  - unfold attempt, mbind at 1, M_bind at 1, mret, M_ret. cbn [writer_close Writer Metadata quota_service]. unfold quota_writer_close.
    unfold mbind at 1, M_bind at 1. destruct (on_writer writer_close (h, w)) as [r1 [h1 w1]] eqn:E1.
    assert (Hl1 : qw_layer h1 = l) by (unfold on_writer, in_handle in E1; destruct (writer_close _) as [? [? ?]]; by injection E1 as _ <- _).
    destruct r1 as [m|e]; intros Hr.
    + eapply becomes_step; [cbn [task_step]; by rewrite E1|]. unfold handle in Hr. unfold mbind at 1, M_bind at 1 in Hr. rewrite Hl1 in Hr.
      eapply measures_alone. exact Hr.
    + injection Hr as <- _ <-. eapply becomes_step; [cbn [task_step]; by rewrite E1|]. apply becomes_end.
  - unfold attempt, mbind at 1, M_bind at 1. unfold mbind at 1, M_bind at 1. cbn [writer_write Writer quota_service].
    destruct (quota_writer_write bs (h, w)) as [r1 [h1 w1]] eqn:E1.
    assert (Hl1 : qw_layer h1 = l).
    { unfold quota_writer_write, on_writer, in_handle, set_handle, mbind, M_bind in E1. destruct (writer_write _ _) as [[?|?] [? ?]]; by injection E1 as _ <- _. }
    destruct r1 as [v|e]; intros Hr.
    + eapply becomes_step; [cbn [task_step]; by rewrite E1|]. eapply IH; [done|]. exact Hr.
    + unfold throw, mbind, M_bind in Hr. cbn [writer_abort Writer quota_service] in Hr.
      destruct (quota_writer_abort (h1, w1)) as [r2 [h2 w2]] eqn:E2. injection Hr as <- _ <-.
      eapply becomes_step; [cbn [task_step]; by rewrite E1|]. eapply becomes_step; [cbn [task_step]; by rewrite E2|]. apply becomes_end.
Qed.
Lemma copies_alone k : ∀ h w r h' w', qc_layer h = l →
  (_ ← copy_steps (H := quota_service l) k; copier_close (Service := quota_service l)) (h, w) = (r, (h', w')) →
  becomes (Copies h k) w (unit_of r) w'.
Proof using Type.
  induction k as [|k IH]; intros h w r h' w' Hl; cbn [copy_steps].
  - unfold mbind at 1, M_bind at 1, mret, M_ret. cbn [copier_close Copier Metadata quota_service]. unfold quota_copier_close.
    unfold mbind at 1, M_bind at 1. destruct (on_copier copier_close (h, w)) as [r1 [h1 w1]] eqn:E1.
    assert (Hl1 : qc_layer h1 = l) by (unfold on_copier, in_handle in E1; destruct (copier_close _) as [? [? ?]]; by injection E1 as _ <- _).
    destruct r1 as [m|e]; intros Hr.
    2: { injection Hr as <- _ <-. eapply becomes_step; [cbn [task_step]; by rewrite E1|]. apply becomes_end. }
    eapply becomes_step; [cbn [task_step]; by rewrite E1|].
    unfold handle, in_world, mbind, M_bind, mret, M_ret in Hr. rewrite Hl1 in Hr.
    destruct (in_be (size_of (qc_from h1)) w1) as [r2 w2] eqn:E2. apply size_ok in E2 as Ho. destruct Ho as [n ->].
    eapply becomes_step; [cbn [task_step]; by rewrite E2|]. cbn [unwrap_or].
    destruct (in_be (size_of (qc_to h1)) w2) as [r3 w3] eqn:E3. apply size_ok in E3 as Ho. destruct Ho as [o ->].
    eapply becomes_step; [cbn [task_step]; by rewrite E3|]. cbn [unwrap_or]. apply charges_alone.
    destruct (commit_staged l (qc_tmp_to h1) (qc_to h1) o n w3) as [r4 w4]. destruct r4 as [[]|e]; by injection Hr as <- _ <-.
  - unfold mbind at 1, M_bind at 1. unfold mbind at 1, M_bind at 1. cbn [copier_next Copier quota_service].
    destruct (quota_copier_next (h, w)) as [r1 [h1 w1]] eqn:E1.
    assert (Hl1 : qc_layer h1 = l).
    { unfold quota_copier_next, on_copier, in_handle in E1. destruct (copier_next _) as [? [? ?]]. by injection E1 as _ <- _. }
    destruct r1 as [v|e]; intros Hr.
    + eapply becomes_step; [cbn [task_step]; by rewrite E1|]. eapply IH; [done|]. exact Hr.
    + injection Hr as <- _ <-. eapply becomes_step; [cbn [task_step]; by rewrite E1|]. apply becomes_end.
Qed.
Lemma releases_alone ss : ∀ dn w r w', release_all (l_id l) ss w = (r, w') → becomes (Releases dn ss) w r w'.
Proof using Type.
  induction ss as [|s ss IH]; intros dn w r w'; cbn [release_all].
  - intros [= <- <-]. next. apply becomes_end.
  - unfold mbind at 1, M_bind at 1. destruct (in_qs (commit_delete (l_id l) s) w) as [r1 w1] eqn:E1. destruct r1 as [v|e]; intros Hr.
    + eapply becomes_step; [cbn [task_step]; by rewrite E1|]. by apply IH.
    + injection Hr as <- <-. eapply becomes_step; [cbn [task_step]; by rewrite E1|]. apply becomes_end.
Qed.
Lemma deletes_alone paths : ∀ h dn w r h' w', qd_id h = l_id l →
  (_ ← delete_each (H := quota_service l) paths; deleter_close (Service := quota_service l)) (h, w) = (r, (h', w')) →
  becomes (Deletes h dn paths) w r w'.
Proof using Type.
  induction paths as [|p paths IH]; intros h dn w r h' w' Hl; cbn [delete_each].
  - unfold mbind at 1, M_bind at 1, mret, M_ret. cbn [deleter_close Deleter quota_service]. unfold quota_deleter_close.
    unfold mbind at 1, M_bind at 1. destruct (on_deleter deleter_close (h, w)) as [r1 [h1 w1]] eqn:E1.
    assert (Hl1 : qd_id h1 = l_id l) by (unfold on_deleter, in_handle in E1; destruct (deleter_close _) as [? [? ?]]; by injection E1 as _ <- _).
    destruct r1 as [m|e]; intros Hr.
    2: { injection Hr as <- _ <-. eapply becomes_step; [cbn [task_step]; by rewrite E1|]. apply becomes_end. }
    eapply becomes_step; [cbn [task_step]; by rewrite E1|]. apply releases_alone.
    unfold handle, set_handle, in_world, mbind, M_bind in Hr. rewrite Hl1 in Hr.
    destruct (release_all _ _ w1) as [r2 w2]. by injection Hr as <- _ <-.
  - unfold mbind at 1, M_bind at 1. unfold mbind at 1, M_bind at 1. cbn [deleter_delete Deleter quota_service].
    unfold quota_deleter_delete. unfold mbind at 1, M_bind at 1. unfold in_world at 1.
    destruct (in_be (size_of p) w) as [r1 w1] eqn:E1. apply size_ok in E1 as Ho. destruct Ho as [s ->].
    unfold mbind at 1, M_bind at 1. destruct (on_deleter (deleter_delete p) (h, w1)) as [r2 [h2 w2]] eqn:E2.
    assert (Hl2 : qd_id h2 = l_id l) by (unfold on_deleter, in_handle in E2; destruct (deleter_delete _ _) as [? [? ?]]; by injection E2 as _ <- _).
    unfold set_handle at 1. intros Hr. eapply becomes_step; [cbn [task_step]; by rewrite E1|]. cbn [unwrap_or].
    destruct r2 as [v|e].
    + eapply becomes_step; [cbn [task_step]; by rewrite E2|]. eapply IH; [done|]. exact Hr.
    + injection Hr as <- _ <-. eapply becomes_step; [cbn [task_step]; by rewrite E2|]. apply becomes_end.
Qed.

Lemma dropped_handle {A B' C} (x : A * (B' * C)) r c : (let '(r, (_, c)) := x in (r, c)) = (r, c) → ∃ h, x = (r, (h, c)).
Proof using Type. destruct x as [r0 [h c0]]. intros [= -> ->]. eauto. Qed.

(** The tasks are the operations: a task that runs without others in between ends, after
    a number of calls that only depends on what it was given, with the result of the layer's
    operation and in the state that operation leaves, whatever the storage and the quota
    engine answer. *)
Lemma alone_is_sequential op w :
  let '(t, w1) := begin op w in let '(r, w') := whole op w in finish (left t) t w1 = (Ends r, w').
Proof using Type.
  destruct op as [path chunks|paths|from to k|from to]; cbn [begin whole].
  - destruct (put _ _ w) as [r w'] eqn:E. unfold put, with_handle in E. cbn [Service.write Writer Metadata quota_service] in E.
    destruct (quota_write l path w) as [r1 w1] eqn:E1. destruct r1 as [h|e]; [|by injection E as <- <-].
    assert (Hl : qw_layer h = l).
    { unfold quota_write, tmp_path_for, in_be, mbind, M_bind, mret, M_ret in E1. cbn in E1. destruct (Service.write _ _) as [[?|?] ?]; [by injection E1 as <- _|done]. }
    apply dropped_handle in E as [h' E]. apply becomes_bounded. by eapply writes_alone.
  - destruct (remove _ w) as [r w'] eqn:E. unfold remove, with_handle in E. cbn [Service.open_deleter Deleter quota_service] in E.
    destruct (quota_delete l w) as [r1 w1] eqn:E1. destruct r1 as [h|e]; [|by injection E as <- <-].
    assert (Hl : qd_id h = l_id l).
    { unfold quota_delete, in_be, mbind, M_bind, mret, M_ret in E1. cbn in E1. destruct (open_deleter _) as [[?|?] ?]; [by injection E1 as <- _|done]. }
    apply dropped_handle in E as [h' E]. apply becomes_bounded. by eapply deletes_alone.
  - destruct (duplicate _ _ _ w) as [r w'] eqn:E. unfold duplicate, with_handle in E. cbn [Service.copy Copier Metadata quota_service] in E.
    destruct (quota_copy l from to w) as [r1 w1] eqn:E1. destruct r1 as [h|e]; [|by injection E as <- <-].
    assert (Hl : qc_layer h = l).
    { unfold quota_copy, tmp_path_for, in_be, mbind, M_bind, mret, M_ret in E1. cbn in E1. destruct (Service.copy _ _ _) as [[?|?] ?]; [by injection E1 as <- _|done]. }
    apply dropped_handle in E as [h' E]. apply becomes_bounded. by eapply copies_alone.
  - unfold quota_rename. destruct (in_be (rename from to) w) as [r w'] eqn:E. apply becomes_bounded.
    eapply becomes_step; [cbn [task_step]; by rewrite E|]. apply becomes_end.
Qed.
End Tasks.

(** ** Many tasks *)

Section Races.
Context {B T : Type} `{ServiceLaws B} `{TrackerLaws T} (l : QuotaLayer).
Notation W := (World B T).
Notation Task := (Task (B := B)).
Implicit Types (w : W) (t : Task) (m f : sizes) (q : QuotaState T).

(** [refunded] is a history of the bytes by which a refund raised the total. *)
Record Sys := { world : W; tasks : gmap nat Task; refunded : N }.
Implicit Types y : Sys.
Definition refund_of t : N := match t with Refunds _ _ o n _ => (o - n)%N | _ => 0%N end.

(** An operation begins where [allowed]; any task makes its next call. *)
Inductive step (allowed : fsop → Sys → Prop) : Sys → Sys → Prop :=
| advances y i t t' w' : tasks y !! i = Some t → task_step l t (world y) = (t', w') →
    step allowed y {| world := w'; tasks := <[i := t']> (tasks y); refunded := refunded y + refund_of t |}
| begins y i op t w' : tasks y !! i = None → allowed op y → begin l op (world y) = (t, w') →
    step allowed y {| world := w'; tasks := <[i := t]> (tasks y); refunded := refunded y |}.

(** The paths an operation writes and reads, and those a task has left. *)
Definition op_writes (op : fsop) : list string :=
  match op with Put p _ => [p] | Remove ps => ps | Duplicate _ to _ => [to] | Move from to => [from; to] end.
Definition op_reads (op : fsop) : list string := match op with Duplicate from _ _ => [from] | _ => [] end.
Definition writes t : list string :=
  match t with
  | Writes h _ | Aborts h _ => [qw_path h]
  | Copies h _ => [qc_to h]
  | Sources _ _ dest | Measures _ dest _ | Charges _ dest _ _ | Moves _ dest _ _ | Clears _ dest _ _
  | Retries _ dest _ _ | Refunds _ dest _ _ _ => [dest]
  | Deletes _ dn ps => dn ++ ps
  | Queues _ dn p _ ps => dn ++ p :: ps
  | Releases dn _ => dn
  | Renames from to => [from; to]
  | Cleans _ _ | Ends _ => []
  end.
Definition reads t : list string :=
  match t with Copies h _ => [qc_from h] | Sources _ from _ => [from] | _ => [] end.
Definition staged t : list string :=
  match t with
  | Writes h _ | Aborts h _ => [qw_tmp_path h]
  | Copies h _ => [qc_tmp_to h]
  | Sources tmp _ _ | Measures tmp _ _ | Charges tmp _ _ _ | Moves tmp _ _ _ | Clears tmp _ _ _
  | Retries tmp _ _ _ | Refunds tmp _ _ _ _ | Cleans tmp _ => [tmp]
  | _ => []
  end.
Definition touches t : list string := writes t ++ staged t.
(** The object a task is charged for replacing and has not replaced yet. *)
Definition replacing t : list string :=
  match t with Moves _ dest _ _ | Clears _ dest _ _ | Retries _ dest _ _ | Refunds _ dest _ _ _ => [dest] | _ => [] end.

Definition disjoint (a b : list string) : Prop := ∀ p, p ∈ a → p ∈ b → False.
(** Nothing in flight works on a path the operation writes, or writes what it reads. *)
Definition apart (op : fsop) y : Prop :=
  op_ok op ∧ (suffix_counter (world y) < U64_MAX)%N ∧
  ∀ i t, tasks y !! i = Some t →
    disjoint (op_writes op) (writes t) ∧ disjoint (op_writes op) (reads t) ∧ disjoint (op_reads op) (writes t).

(** Copies only begin where [stat] does not fail on an object that exists. *)
Definition admitted (op : fsop) y : Prop := apart op y ∧ measured op.

(** ** What a task relies on *)

(** [m] is what the total accounts for: at a path a task is charged for, the size charged
    and what was not measured of the object that is replaced. *)
Definition charged m f (dest : string) (o n : N) : Prop :=
  ∃ k, m !! dest = Some (n + k)%N ∧ (size_at f dest ≤ o + k)%N.
Definition local m f q t : Prop :=
  match t with
  | Writes h chunks => ∃ n, writing l (qw_path h) n h ∧ (n + total_len chunks ≤ U64_MAX)%N ∧ staging (qw_path h) = false
  | Aborts h _ => w_target (qw_inner h) = qw_tmp_path h ∧ staging (qw_tmp_path h) = true ∧ staging (qw_path h) = false
  | Copies h _ => copying l (qc_from h) (qc_to h) h ∧ staging (qc_from h) = false ∧ staging (qc_to h) = false ∧ stat_reliable
  | Sources tmp from dest => staging tmp = true ∧ staging from = false ∧ staging dest = false ∧ stat_reliable ∧
      ∃ s, f !! tmp = Some s ∧ f !! from = Some s
  | Measures tmp dest n => staging tmp = true ∧ staging dest = false ∧ f !! tmp = Some n
  | Charges tmp dest o n => staging tmp = true ∧ staging dest = false ∧ f !! tmp = Some n ∧ (o ≤ size_at f dest)%N
  | Moves tmp dest o n | Clears tmp dest o n | Retries tmp dest o n =>
      staging tmp = true ∧ staging dest = false ∧ f !! tmp = Some n ∧ charged m f dest o n ∧ loaded q (l_id l)
  | Refunds tmp dest o n _ => staging tmp = true ∧ staging dest = false ∧ charged m f dest o n ∧ loaded q (l_id l)
  | Cleans tmp _ => staging tmp = true
  | Deletes h dn ps => NoDup (dn ++ ps) ∧ Forall (λ p, staging p = false) (dn ++ ps) ∧
      Forall2 (λ p s, (s ≤ size_at m p)%N) dn (pending_sizes h) ∧
      (∀ p, p ∈ d_queue (qd_inner h) → p ∈ dn) ∧ (∀ p, p ∈ dn → p ∈ d_queue (qd_inner h) ∨ f !! p = None)
  | Queues h dn p s ps => NoDup (dn ++ p :: ps) ∧ Forall (λ p, staging p = false) (dn ++ p :: ps) ∧
      Forall2 (λ p s, (s ≤ size_at m p)%N) dn (pending_sizes h) ∧ (s ≤ size_at f p)%N ∧
      (∀ p, p ∈ d_queue (qd_inner h) → p ∈ dn) ∧ (∀ p, p ∈ dn → p ∈ d_queue (qd_inner h) ∨ f !! p = None)
  | Releases dn ss => NoDup dn ∧ Forall (λ p, staging p = false) dn ∧
      Forall2 (λ p s, (s ≤ size_at m p)%N) dn ss ∧ ∀ p, p ∈ dn → f !! p = None
  | Renames from to => staging from = false ∧ staging to = false
  | Ends _ => True
  end.

Lemma charged_frame m m' f f' dest o n :
  m' !! dest = m !! dest → f' !! dest = f !! dest → charged m f dest o n → charged m' f' dest o n.
Proof using Type. unfold charged, size_at. by intros -> ->. Qed.
(** A task relies on nothing but its own paths, the paths it reads and a loaded bucket. *)
Lemma local_frame m m' f f' q q' t :
  (∀ p, p ∈ writes t → m' !! p = m !! p) → (∀ p, p ∈ touches t ∨ p ∈ reads t → f' !! p = f !! p) →
  (loaded q (l_id l) → loaded q' (l_id l)) → local m f q t → local m' f' q' t.
Proof using Type.
  intros Hm Hf Hq.
  assert (Hsz : ∀ p, p ∈ writes t → size_at m' p = size_at m p) by (intros p Hp; unfold size_at; by rewrite Hm).
  assert (Hfz : ∀ p, p ∈ writes t → f' !! p = f !! p) by (intros p Hp; apply Hf; left; unfold touches; set_solver).
  assert (Hff : ∀ p, p ∈ writes t → size_at f' p = size_at f p) by (intros p Hp; unfold size_at; by rewrite Hfz).
  assert (Hall : ∀ dn ss, dn ⊆ writes t → Forall2 (λ p s, (s ≤ size_at m p)%N) dn ss → Forall2 (λ p s, (s ≤ size_at m' p)%N) dn ss).
  { intros dn ss Hsub Hdn. induction Hdn as [|p s dn ss Hp _ IH]; constructor; [rewrite Hsz by set_solver; done|apply IH; set_solver]. }
  destruct t; cbn [local writes reads staged touches] in *; try done; intros Hl; destruct_and?; repeat split; try done;
    rewrite ?Hf, ?Hff, ?Hm by (unfold touches; cbn; set_solver); auto.
  all: try (eapply charged_frame; [apply Hm; set_solver|apply Hfz; set_solver|done]).
  all: try (apply Hall; [set_solver|done]).
  all: try (intros p' Hp'; match goal with Hx : ∀ p, _ → _ ∨ _ |- _ => destruct (Hx p' Hp'); [by left|right] end; rewrite Hfz; [done|set_solver]).
  all: try (intros p' Hp'; rewrite Hfz; [auto|set_solver]).
Qed.

(** *** Sums *)

Lemma total_size m p : total m = (size_at m p + total (delete p m))%N.
Proof using Type.
  unfold size_at. destruct (m !! p) as [s|] eqn:E; cbn; [by apply total_delete|]. by rewrite delete_id.
Qed.
Lemma size_at_total m p : (size_at m p ≤ total m)%N.
Proof using Type. rewrite (total_size m p). lia. Qed.
Lemma total_insert m p s : (total (<[p := s]> m) + size_at m p = total m + s)%N.
Proof using Type.
  rewrite (total_size m p), (total_size (<[p:=s]> m) p), delete_insert_eq. unfold size_at at 1. rewrite lookup_insert_eq. cbn. lia.
Qed.
Lemma total_pointwise m1 m2 : (∀ p, (size_at m1 p ≤ size_at m2 p)%N) → (total m1 ≤ total m2)%N.
Proof using Type.
  revert m2. induction m1 as [|p s m1 Hp IH] using map_ind; intros m2 Hle; [unfold total; rewrite map_fold_empty; lia|].
  rewrite total_insert_fresh, (total_size m2 p) by done. pose proof (Hle p) as Hs. unfold size_at at 1 in Hs. rewrite lookup_insert_eq in Hs.
  cbn in Hs. enough (total m1 ≤ total (delete p m2))%N by lia. apply IH. intros q. specialize (Hle q). unfold size_at in *.
  destruct (decide (q = p)) as [->|Hne]; [rewrite Hp; cbn; lia|]. by rewrite lookup_insert_ne in Hle by done; rewrite lookup_delete_ne.
Qed.
Lemma size_at_insert m p s x : size_at (<[p := s]> m) x = if decide (x = p) then s else size_at m x.
Proof using Type.
  unfold size_at. case_decide as Hx; [subst; by rewrite lookup_insert_eq|by rewrite lookup_insert_ne].
Qed.
Lemma size_at_delete m p x : size_at (delete p m) x = if decide (x = p) then 0%N else size_at m x.
Proof using Type.
  unfold size_at. case_decide as Hx; [subst; by rewrite lookup_delete_eq|by rewrite lookup_delete_ne].
Qed.

(** *** Calls *)

Lemma in_be_inv {A} (c : M B DalError A) w r w' : in_be c w = (r, w') → ∃ b, c (be w) = (r, b) ∧ w' = set_be b w.
Proof using Type. unfold in_be. destruct (c (be w)) as [r0 b]. intros [= <- <-]. eauto. Qed.
Lemma in_qs_inv {A} (c : M (QuotaState T) DalError A) w r w' : in_qs c w = (r, w') → ∃ q, c (qs w) = (r, q) ∧ w' = set_qs q w.
Proof using Type. unfold in_qs. destruct (c (qs w)) as [r0 q]. intros [= <- <-]. eauto. Qed.
Lemma in_handle_inv {X I A} (get : X → I) set (c : M (I * B) DalError A) h w r h' w' :
  in_handle get set c (h, w) = (r, (h', w')) → ∃ i b, c (get h, be w) = (r, (i, b)) ∧ h' = set i h ∧ w' = set_be b w.
Proof using Type. unfold in_handle. destruct (c (get h, be w)) as [r0 [i b]]. intros [= <- <- <-]. eauto 6. Qed.

Lemma write_files bs h w r h' w' :
  quota_writer_write bs (h, w) = (r, (h', w')) → w_target (qw_inner h) = qw_tmp_path h →
  same_except (qw_tmp_path h) (files (be w')) (files (be w)) ∧ qs w' = qs w ∧ suffix_counter w' = suffix_counter w ∧
  qw_path h' = qw_path h ∧ qw_tmp_path h' = qw_tmp_path h ∧ w_target (qw_inner h') = qw_tmp_path h.
Proof using Type.
  unfold quota_writer_write. intros [(e & E & _)|(a & [h1 w1] & E & Hr)]%bind_inv Ht;
    apply in_handle_inv in E as (i & b & E & Hh & Hw); apply writer_write_law in E as (Hf & Ht' & _); rewrite Ht in *.
  - subst. by split_and!.
  - subst. unfold set_handle in Hr. injection Hr as <- <- <-. by split_and!.
Qed.
Lemma removed_files p (b b' : B) r : best_effort_remove p b = (r, b') → same_except p (files b') (files b).
Proof using Type.
  intros [_ [->| ->]]%best_effort_remove_spec x Hx; [done|]. by rewrite lookup_delete_ne.
Qed.
Lemma abort_files h w r h' w' :
  quota_writer_abort (h, w) = (r, (h', w')) → w_target (qw_inner h) = qw_tmp_path h →
  same_except (qw_tmp_path h) (files (be w')) (files (be w)) ∧ qs w' = qs w ∧ suffix_counter w' = suffix_counter w.
Proof using Type.
  unfold quota_writer_abort. intros [(e & E & _)|(a & [h1 w1] & E & Hr)]%bind_inv Ht;
    apply in_handle_inv in E as (i & b & E & Hh & Hw); apply writer_abort_law in E as Hf; rewrite Ht in *.
  - subst. by split_and!.
  - subst. unfold handle, in_world, in_be, set_handle, mbind, M_bind in Hr. cbn in Hr.
    destruct (best_effort_remove (qw_tmp_path h) b) as [r2 b2] eqn:E2. apply removed_files in E2 as Hf2. apply remove_ok in E2 as ->.
    injection Hr as <- <- <-. split_and!; [|done|done]. by eapply same_except_trans.
Qed.

(** A loaded bucket stays loaded. *)
Lemma set_loaded id0 id c q q' r : set_bucket id0 (Some c) q = (r, q') → loaded q id → loaded q' id.
Proof using Type.
  unfold set_bucket, modify, loaded. intros [= _ <-] [c0 Hc]. cbn. destruct (decide (id = id0)) as [->|Hne].
  - exists c. apply lookup_insert_eq.
  - exists c0. by rewrite lookup_insert_ne.
Qed.
Lemma bucket_loaded id0 id q r q' : bucket id0 q = (r, q') → loaded q id → loaded q' id.
Proof using Type.
  intros [(c & _ & _ & ->)|(Hn & B1 & HB & _ & g & t' & _ & Hg)]%bucket_cases [c0 Hc]; [by exists c0|].
  assert (id ≠ id0) as Hne by (intros ->; by apply (Hn c0)). unfold loaded.
  destruct g; [|case_decide]; destruct Hg as [_ ->]; cbn; exists c0; rewrite ?lookup_insert_ne, HB by done; done.
Qed.
Lemma write_loaded id0 id limit o n q r q' : commit_write id0 limit o n q = (r, q') → loaded q id → loaded q' id.
Proof using Type.
  unfold commit_write. intros [(e & E & _)|(c & q1 & E & Hr)]%bind_inv Hl; apply bucket_loaded with (id := id) in E; try done.
  destruct (QuotaCounter.apply_delta _ _ _ _ c) as [r0 c0].
  apply bind_inv in Hr as [(e & E2 & _)|(v & q2 & E2 & Hr)]; apply set_loaded with (id := id) in E2; try done.
  by injection Hr as _ <-.
Qed.
Lemma delete_loaded id0 id s q r q' : commit_delete id0 s q = (r, q') → loaded q id → loaded q' id.
Proof using Type.
  unfold commit_delete. intros [(e & E & _)|(c & q1 & E & Hr)]%bind_inv Hl; apply bucket_loaded with (id := id) in E; try done.
  destruct (QuotaCounter.apply_delta _ _ _ _ c) as [r0 c0]. by apply set_loaded with (id := id) in Hr.
Qed.

(** ** One call *)

Notation live_now w := (live (qs w) (l_id l)).
Record ready m w (R : N) t : Prop := {
  rd_synced : synced (qs w);
  rd_total : (total m ≤ live_now w)%N;
  rd_limit : (live_now w ≤ l_limit l + R)%N;
  rd_small : (l_limit l + R + refund_of t < U64_MAX)%N;
  rd_local : local m (files (be w)) (qs w) t;
  rd_cover : ∀ p, p ∈ writes t → p ∉ replacing t → (size_at (files (be w)) p ≤ size_at m p)%N;
}.
(** What a call of [t] does to the others' state. *)
Record effect m w m' w' t t' : Prop := {
  ef_m : ∀ p, p ∉ writes t → m' !! p = m !! p;
  ef_f : ∀ p, p ∉ touches t → files (be w') !! p = files (be w) !! p;
  ef_writes : ∀ p, p ∈ writes t' → p ∈ writes t;
  ef_reads : ∀ p, p ∈ reads t' → p ∈ reads t;
  ef_staged : ∀ p, p ∈ staged t' → p ∈ staged t;
  ef_loaded : loaded (qs w) (l_id l) → loaded (qs w') (l_id l);
  ef_counter : suffix_counter w' = suffix_counter w;
}.
Record went_well m w R t m' w' t' : Prop := {
  ww_synced : synced (qs w');
  ww_total : (total m' ≤ live_now w')%N;
  ww_limit : (live_now w' ≤ l_limit l + R + refund_of t)%N;
  ww_local : local m' (files (be w')) (qs w') t';
  ww_cover : ∀ p, p ∈ writes t → p ∉ replacing t' → (size_at (files (be w')) p ≤ size_at m' p)%N;
  ww_effect : effect m w m' w' t t';
}.

(** Calls that leave the total and everything but the task's staged object alone. *)
Lemma quiet m w R t w' t' :
  ready m w R t → qs w' = qs w → suffix_counter w' = suffix_counter w →
  (∀ p, p ∉ staged t → files (be w') !! p = files (be w) !! p) → (∀ p, p ∈ writes t → p ∉ staged t) →
  local m (files (be w')) (qs w) t' →
  (∀ p, p ∈ replacing t → p ∈ replacing t') → writes t' ⊆ writes t → reads t' ⊆ reads t → staged t' ⊆ staged t →
  went_well m w R t m w' t'.
Proof using Type.
  intros [Hs Ht Hl Hsm Hlo Hc] Hq Hn Hf Hst Hlo' Hrep Hw Hr Hsta. split; rewrite ?Hq; try done; [lia| |].
  - intros p Hp Hnr. unfold size_at. rewrite Hf by auto. apply Hc; [done|]. intros ?. by apply Hnr, Hrep.
  - split; try done; [|by rewrite Hq]. intros p Hp. apply Hf. unfold touches in Hp. set_solver.
Qed.
Lemma apart_staged tmp dest : staging tmp = true → staging dest = false → dest ∉ [tmp].
Proof using Type. intros Ht Hd ->%list_elem_of_singleton. congruence. Qed.

Ltac subsets := lazymatch goal with |- ∃ _, _ => idtac | |- _ ∧ _ => idtac | _ => try set_solver end.
Ltac quietly := eapply quiet; [eassumption|try done..]; cbn;
  try (intros p ->%list_elem_of_singleton; by apply apart_staged); subsets.
Notation goes_well m w R t w' t' := (∃ m', went_well m w R t m' w' t').

Lemma writes_go_well m w R h chunks t' w' :
  ready m w R (Writes h chunks) → task_step l (Writes h chunks) w = (t', w') → goes_well m w R (Writes h chunks) w' t'.
Proof using Type.
  intros Hr. pose proof (rd_local _ _ _ _ Hr) as (n & Hw & Hn & Hd). pose proof (wr_target _ _ _ _ Hw) as Ht. pose proof (wr_staging _ _ _ _ Hw) as Hst.
  destruct chunks as [|bs chunks]; cbn [task_step].
  - destruct (on_writer writer_close (h, w)) as [r [h1 w1]] eqn:E. apply in_handle_inv in E as (i & b & E & -> & ->).
    apply writer_close_law in E as [Hf Hcl]. rewrite Ht in *. intros [= <- <-]. exists m. cbn.
    assert (Hfr : ∀ p, p ∉ [qw_tmp_path h] → files b !! p = files (be w) !! p) by (intros p Hp; apply Hf; set_solver).
    destruct r as [v|e]; quietly.
    + split_and!; [done|done|]. rewrite Hcl by done. by rewrite (wr_size _ _ _ _ Hw), (wr_written _ _ _ _ Hw).
  - destruct (quota_writer_write bs (h, w)) as [r [h1 w1]] eqn:E. intros [= <- <-].
    destruct (write_files _ _ _ _ _ _ E Ht) as (Hf & Hq & Hc & Hp1 & Ht1 & Htg).
    cbn [total_len foldr] in Hn. eapply (quota_writer_write_spec l) in E as (_ & _ & _ & _ & Hok); [|exact Hw|unfold total_len in *; cbn in Hn; lia].
    exists m. assert (Hfr : ∀ p, p ∉ [qw_tmp_path h] → files (be w1) !! p = files (be w) !! p) by (intros p Hp; apply Hf; set_solver).
    destruct r as [v|e]; quietly; rewrite ?Hp1, ?Ht1; subsets.
    + exists (n + blen bs)%N. destruct v. split_and!; [by apply Hok|unfold total_len in *; cbn in Hn; lia|done].
    + by split_and!.
Qed.
Lemma aborts_go_well m w R h e t' w' :
  ready m w R (Aborts h e) → task_step l (Aborts h e) w = (t', w') → goes_well m w R (Aborts h e) w' t'.
Proof using Type.
  intros Hr. pose proof (rd_local _ _ _ _ Hr) as (Ht & Hst & Hd). cbn [task_step].
  destruct (quota_writer_abort (h, w)) as [r [h1 w1]] eqn:E. intros [= <- <-]. apply abort_files in E as (Hf & Hq & Hc); [|done].
  exists m. quietly.
Qed.
Lemma copies_go_well m w R h k t' w' :
  ready m w R (Copies h k) → task_step l (Copies h k) w = (t', w') → goes_well m w R (Copies h k) w' t'.
Proof using Type.
  intros Hr. pose proof (rd_local _ _ _ _ Hr) as ([C1 C2 C3 C4 C5 C6] & Hfrom & Hto & Hrel).
  destruct k as [|k]; cbn [task_step].
  - destruct (on_copier copier_close (h, w)) as [r [h1 w1]] eqn:E. apply in_handle_inv in E as (i & b & E & -> & ->).
    apply copier_close_law in E as [Hf Hcl]. rewrite C4, C5 in *. intros [= <- <-]. exists m. cbn.
    assert (Hfr : ∀ p, p ∉ [qc_tmp_to h] → files b !! p = files (be w) !! p) by (intros p Hp; apply Hf; set_solver).
    destruct r as [v|e]; quietly.
    + split_and!; try done. destruct Hcl as (s & Hs1 & Hs2); [done|]. exists s. split; [done|]. by rewrite Hfr by (by apply apart_staged).
  - destruct (quota_copier_next (h, w)) as [r [h1 w1]] eqn:E. apply in_handle_inv in E as (i & b & E & -> & ->).
    apply copier_next_law in E as (Hf & Hfr1 & Hto1). rewrite C5 in Hf. intros [= <- <-]. exists m. cbn.
    assert (Hfr : ∀ p, p ∉ [qc_tmp_to h] → files b !! p = files (be w) !! p) by (intros p Hp; apply Hf; set_solver).
    destruct r as [v|e]; quietly.
    + split_and!; [split; cbn; first [congruence|done]|done..].
Qed.
Lemma sources_go_well m w R tmp from dest t' w' :
  ready m w R (Sources tmp from dest) →
  task_step l (Sources tmp from dest) w = (t', w') → goes_well m w R (Sources tmp from dest) w' t'.
Proof using Type.
  intros Hr. pose proof (rd_local _ _ _ _ Hr) as (Ht & Hfr & Hd & Hrel & s & Hs1 & Hs2). cbn [task_step].
  destruct (in_be (size_of from) w) as [r w1] eqn:E. apply in_be_inv in E as (b & E & ->).
  apply size_of_spec in E as (Hf & n & -> & _ & Hn). intros [= <- <-]. exists m. quietly.
  - by rewrite Hf.
  - split_and!; [done|done|]. rewrite Hf, Hs1, (Hn Hrel). unfold size_at. by rewrite Hs2.
Qed.
Lemma measures_go_well m w R tmp dest n t' w' :
  ready m w R (Measures tmp dest n) →
  task_step l (Measures tmp dest n) w = (t', w') → goes_well m w R (Measures tmp dest n) w' t'.
Proof using Type.
  intros Hr. pose proof (rd_local _ _ _ _ Hr) as (Ht & Hd & Hs). cbn [task_step].
  destruct (in_be (size_of dest) w) as [r w1] eqn:E. apply in_be_inv in E as (b & E & ->).
  apply size_of_spec in E as (Hf & o & -> & Ho & _). intros [= <- <-]. exists m. quietly.
  - by rewrite Hf.
  - by rewrite Hf.
Qed.
Lemma cleans_go_well m w R tmp e t' w' :
  ready m w R (Cleans tmp e) → task_step l (Cleans tmp e) w = (t', w') → goes_well m w R (Cleans tmp e) w' t'.
Proof using Type.
  intros Hr. cbn [task_step]. destruct (in_be (best_effort_remove tmp) w) as [r w1] eqn:E. apply in_be_inv in E as (b & E & ->).
  apply removed_files in E as Hf. intros [= <- <-]. exists m. quietly.
Qed.

(** A charge that is accepted does not saturate. *)
Lemma new_total_ok u o n limit :
  (o ≤ u)%N → (limit < U64_MAX)%N → (QuotaCounter.new_total u o n ≤ limit)%N → QuotaCounter.new_total u o n = (u - o + n)%N.
Proof using Type. unfold QuotaCounter.new_total, saturating_add, saturating_sub. lia. Qed.

Lemma charges_go_well m w R tmp dest o n t' w' :
  ready m w R (Charges tmp dest o n) → task_step l (Charges tmp dest o n) w = (t', w') →
  goes_well m w R (Charges tmp dest o n) w' t'.
Proof using Type.
  intros [Hs Ht Hl Hsm Hlo Hc]. destruct Hlo as (Htm & Hd & Htmp & Ho). cbn [task_step].
  destruct (in_qs _ w) as [r w1] eqn:E. apply in_qs_inv in E as (q & E & ->). pose proof (write_loaded _ (l_id l) _ _ _ _ _ _ E) as Hload.
  destruct (commit_write_spec _ _ _ _ _ _ _ E Hs) as (Hs1 & _ & Hr). intros [= <- <-].
  assert (Hcov : (o ≤ size_at m dest)%N) by (etrans; [exact Ho|]; apply Hc; [by left|cbn; set_solver]).
  pose proof (size_at_total m dest) as Hle. destruct r as [v|e].
  - destruct Hr as (-> & Hlim & Hlive & Hld). cbn [refund_of] in *.
    rewrite (new_total_ok _ o n (l_limit l)) in * by lia.
    exists (<[dest := n + (size_at m dest - o)]>%N m). pose proof (total_insert m dest (n + (size_at m dest - o))%N) as Hins.
    split; cbn; [done| | | | |].
    + rewrite Hlive. lia.
    + rewrite Hlive. lia.
    + split_and!; try done. exists (size_at m dest - o)%N. split; [apply lookup_insert_eq|].
      assert (size_at (files (be w)) dest ≤ size_at m dest)%N by (apply Hc; [by left|apply not_elem_of_nil]). lia.
    + intros p ->%list_elem_of_singleton Hn. destruct Hn. by left.
    + split; cbn; try done. intros p Hp. rewrite lookup_insert_ne; [done|]. intros ->. apply Hp. by left.
  - destruct Hr as [Hlive _]. exists m. split; cbn in *; [done|lia|lia|done|by intros p Hp _; apply Hc; [|apply not_elem_of_nil]|].
    split; cbn; try done; set_solver.
Qed.

Lemma effect_end m w m' w' t r :
  (∀ p, p ∉ writes t → m' !! p = m !! p) → (∀ p, p ∉ touches t → files (be w') !! p = files (be w) !! p) →
  (loaded (qs w) (l_id l) → loaded (qs w') (l_id l)) → suffix_counter w' = suffix_counter w → effect m w m' w' t (Ends r).
Proof using Type. intros Hm Hf Hl Hc. split; try done; by intros p ?%elem_of_nil. Qed.

(** A successful rename puts the charged size in place. *)
Lemma rename_moves tmp dest (b b' : B) n :
  staging tmp = true → staging dest = false → files b !! tmp = Some n → rename tmp dest b = (Ok (), b') →
  files b' !! dest = Some n ∧ ∀ p, p ∉ [dest; tmp] → files b' !! p = files b !! p.
Proof using Type.
  intros Ht Hd Hs (s & Hs' & Hf)%rename_law. rewrite Hs in Hs'. injection Hs' as <-. rewrite Hf. split; [apply lookup_insert_eq|].
  intros p Hp. rewrite lookup_insert_ne, lookup_delete_ne by set_solver. done.
Qed.
Lemma renames_in_place m w R t tmp dest o n t' w' (f : DalError → Task) :
  t = Moves tmp dest o n ∨ t = Retries tmp dest o n → ready m w R t →
  (let '(r, w) := in_be (rename tmp dest) w in (match r with Ok _ => Ends (Ok ()) | Err e => f e end, w)) = (t', w') →
  (∀ e, writes (f e) = [dest] ∧ reads (f e) = [] ∧ staged (f e) = [tmp] ∧ replacing (f e) = [dest] ∧
     (local m (files (be w)) (qs w) t → local m (files (be w)) (qs w) (f e))) →
  goes_well m w R t w' t'.
Proof using Type.
  intros Hwhich Hrd Hr Hf. destruct (in_be _ w) as [r w1] eqn:E. apply in_be_inv in E as (b & E & ->). injection Hr as <- <-.
  assert (Ht : writes t = [dest] ∧ reads t = [] ∧ staged t = [tmp] ∧ replacing t = [dest]) by (by destruct Hwhich as [-> | ->]).
  destruct Ht as (Htw & Htr & Hts & Htp). destruct Hrd as [Hs Hto Hl Hsm Hlo Hc].
  assert (Hloc : staging tmp = true ∧ staging dest = false ∧ files (be w) !! tmp = Some n ∧ charged m (files (be w)) dest o n)
    by (destruct Hwhich as [-> | ->]; destruct Hlo as (? & ? & ? & ? & _); done).
  destruct Hloc as (Htm & Hd & Htmp & k & Hm & _). exists m. destruct r as [[]|e].
  - destruct (rename_moves _ _ _ _ _ Htm Hd Htmp E) as [Hdest Hrest]. split; cbn; try done; [lia| |].
    + rewrite Htw. intros p ->%list_elem_of_singleton _. unfold size_at. rewrite Hdest, Hm. cbn. lia.
    + apply effect_end; try done. intros p. unfold touches. rewrite Htw, Hts. apply Hrest.
  - apply rename_law in E. destruct (Hf e) as (Hw & Hrs & Hst & Hrep & Hloc). split; cbn; try done; [lia| | |].
    + rewrite E. by apply Hloc.
    + rewrite Htw, Hrep. intros p Hp Hn. by destruct Hn.
    + split; cbn; rewrite ?E, ?Hw, ?Hrs, ?Hst, ?Htw, ?Htr, ?Hts; done.
Qed.
Lemma clears_go_well m w R tmp dest o n t' w' :
  ready m w R (Clears tmp dest o n) → task_step l (Clears tmp dest o n) w = (t', w') →
  goes_well m w R (Clears tmp dest o n) w' t'.
Proof using Type.
  intros [Hs Ht Hl Hsm Hlo Hc]. destruct Hlo as (Htm & Hd & Htmp & (k & Hm & Ho) & Hld). cbn [task_step].
  destruct (in_be _ w) as [r w1] eqn:E. apply in_be_inv in E as (b & E & ->). pose proof (removed_files _ _ _ _ E) as Hf.
  apply best_effort_remove_spec in E as [_ Hb]. intros [= <- <-]. exists m. split; cbn; try done.
  - cbn in Hl. lia.
  - split_and!; try done.
    + rewrite Hf; [done|]. intros ->. congruence.
    + exists k. split; [done|]. destruct Hb as [->| ->]; [done|]. rewrite size_at_delete, decide_True by done. lia.
  - split; cbn; try done. intros p Hp. apply Hf. unfold touches in Hp. cbn in Hp. set_solver.
Qed.
Lemma refunds_go_well m w R tmp dest o n e t' w' :
  ready m w R (Refunds tmp dest o n e) → task_step l (Refunds tmp dest o n e) w = (t', w') →
  goes_well m w R (Refunds tmp dest o n e) w' t'.
Proof using Type.
  intros [Hs Ht Hl Hsm Hlo Hc]. destruct Hlo as (Htm & Hd & (k & Hm & Ho) & Hld). cbn [task_step refund_of] in *.
  destruct (in_qs _ w) as [r w1] eqn:E. apply in_qs_inv in E as (q & E & ->). pose proof (write_loaded _ (l_id l) _ _ _ _ _ _ E) as Hload.
  destruct (commit_write_spec _ _ _ _ _ _ _ E Hs) as (Hs1 & _ & Hr). intros [= <- <-].
  pose proof (size_at_total m dest) as Hle. assert (Hsm' : size_at m dest = (n + k)%N) by (unfold size_at; by rewrite Hm).
  assert (Hnew : QuotaCounter.new_total (live_now w) n o = (live_now w - n + o)%N)
    by (unfold QuotaCounter.new_total, saturating_add, saturating_sub; lia).
  destruct r as [v|e']; [|destruct Hr as [_ Hr]; specialize (Hr Hld); rewrite Hnew in Hr; lia].
  destruct Hr as (-> & _ & Hlive & _). rewrite Hnew in Hlive.
  exists (<[dest := o + k]>%N m). pose proof (total_insert m dest (o + k)%N) as Hins. split; cbn; [done| | |done| |].
  - rewrite Hlive. lia.
  - rewrite Hlive. lia.
  - intros p ->%list_elem_of_singleton _. rewrite size_at_insert, decide_True by done. done.
  - split; cbn; try done; [|set_solver]. intros p Hp. rewrite lookup_insert_ne; [done|]. intros ->. apply Hp. by left.
Qed.

Lemma size_at_None m p : m !! p = None → size_at m p = 0%N.
Proof using Type. unfold size_at. by intros ->. Qed.
Lemma size_at_delete_le m p x : (size_at (delete p m) x ≤ size_at m x)%N.
Proof using Type. rewrite size_at_delete. case_decide; lia. Qed.
(** A task that ends after calls that only removed objects. *)
Lemma ends_well m w R t w' r :
  ready m w R t → replacing t = [] → qs w' = qs w → suffix_counter w' = suffix_counter w →
  (∀ p, p ∉ touches t → files (be w') !! p = files (be w) !! p) →
  (∀ p, (size_at (files (be w')) p ≤ size_at (files (be w)) p)%N) → went_well m w R t m w' (Ends r).
Proof using Type.
  intros [Hs Ht Hl Hsm Hlo Hc] Hrep Hq Hn Hf Hle. split; rewrite ?Hq; try done; [lia| |].
  - intros p Hp _. etrans; [apply Hle|]. apply Hc; [done|]. rewrite Hrep. apply not_elem_of_nil.
  - apply effect_end; try done. by rewrite Hq.
Qed.

Lemma deletes_go_well m w R h dn paths t' w' :
  ready m w R (Deletes h dn paths) → task_step l (Deletes h dn paths) w = (t', w') →
  goes_well m w R (Deletes h dn paths) w' t'.
Proof using Type.
  intros Hrd. pose proof (rd_local _ _ _ _ Hrd) as (Hnd & Hst & Hsz & Hq1 & Hq2). exists m. destruct paths as [|p ps]; cbn [task_step] in *.
  - destruct (on_deleter _ _) as [r [h1 w1]] eqn:E. apply in_handle_inv in E as (i & b & E & -> & ->).
    apply deleter_close_law in E. match goal with Hx : _ = (t', w') |- _ => injection Hx as <- <- end. rewrite app_nil_r in *.
    destruct r as [[]|e].
    + destruct E as [Hf _].
      assert (Hgone : ∀ p, p ∈ dn → files b !! p = None).
      { intros p Hp. rewrite Hf, lookup_foldr_delete. case_decide; [done|]. by destruct (Hq2 p Hp). }
      destruct Hrd as [Hs Ht Hl Hsm _ Hc]. split; [done|done|cbn; lia|by split_and!| |].
      * intros p Hp _. cbn in Hp. rewrite app_nil_r in Hp. change (size_at (files b) p ≤ size_at m p)%N. rewrite (size_at_None _ _ (Hgone p Hp)). lia.
      * split; cbn; rewrite ?app_nil_r; try done. intros p Hp. rewrite Hf, lookup_foldr_delete, decide_False; [done|]. intros Hin%Hq1. apply Hp.
      unfold touches. cbn. set_solver.
    + apply ends_well; cbn; try done; intros p.
      * intros Hp. destruct (E p) as [?|[Hin%Hq1 _]]; [done|]. exfalso. apply Hp. unfold touches. cbn. set_solver.
      * unfold size_at. destruct (E p) as [->|[_ ->]]; cbn; lia.
  - destruct (in_be _ w) as [r w1] eqn:E. apply in_be_inv in E as (b & E & ->). apply size_of_spec in E as (Hf & s & -> & Hle & _).
    match goal with Hx : _ = (t', w') |- _ => injection Hx as <- <- end. quietly; cbn [local unwrap_or].
    + by rewrite Hf.
    + rewrite Hf. by split_and!.
Qed.
Lemma queues_go_well m w R h dn p s ps t' w' :
  ready m w R (Queues h dn p s ps) → task_step l (Queues h dn p s ps) w = (t', w') →
  goes_well m w R (Queues h dn p s ps) w' t'.
Proof using Type.
  intros Hrd. pose proof (rd_local _ _ _ _ Hrd) as (Hnd & Hst & Hsz & Hs & Hq1 & Hq2). exists m. cbn [task_step] in *.
  destruct (on_deleter _ _) as [r [h1 w1]] eqn:E. apply in_handle_inv in E as (i & b & E & -> & ->).
  apply deleter_delete_law in E. match goal with Hx : _ = (t', w') |- _ => injection Hx as <- <- end.
  destruct r as [[]|e].
  - assert (Hp : p ∈ dn ++ p :: ps) by set_solver.
    assert (Hsm : (s ≤ size_at m p)%N) by (etrans; [exact Hs|]; apply (rd_cover _ _ _ _ Hrd); [done|apply not_elem_of_nil]).
    assert (Hle : ∀ x, (size_at (files b) x ≤ size_at (files (be w)) x)%N)
      by (intros x; destruct E as [[-> _]|[-> _]]; [apply size_at_delete_le|done]).
    assert (Hrest : ∀ x, x ≠ p → files b !! x = files (be w) !! x)
      by (intros x Hx; destruct E as [[-> _]|[-> _]]; [by rewrite lookup_delete_ne|done]).
    destruct Hrd as [Hsy Ht Hl Hsml _ Hc]. split; [done|done|cbn; lia|cbn [local]| |].
    + rewrite <-app_assoc. cbn [app]. split_and!; try done.
      * apply Forall2_app; [done|]. by constructor.
      * intros x Hx. change (x ∈ d_queue i) in Hx. destruct E as [[_ Hq]|[_ Hq]]; rewrite Hq in Hx; set_solver.
      * intros x Hx. change (x ∈ d_queue i ∨ files b !! x = None). apply elem_of_app in Hx as [Hx| ->%list_elem_of_singleton].
        -- destruct (Hq2 x Hx) as [Hin|Hn]; [left; destruct E as [[_ ->]|[_ ->]]; set_solver|right].
           apply (proj1 (eq_None_not_Some _)) in Hn. apply eq_None_not_Some. destruct E as [[-> _]|[-> _]]; [|done].
           rewrite lookup_delete_is_Some. naive_solver.
        -- destruct E as [[-> _]|[_ ->]]; [right; apply lookup_delete_eq|left; set_solver].
    + intros x Hx _. etrans; [apply Hle|]. apply Hc; [done|apply not_elem_of_nil].
    + split; cbn; try done; [|intros x; rewrite <-app_assoc; done]. intros x Hx. apply Hrest. intros ->. apply Hx. unfold touches. cbn. set_solver.
  - destruct E as [_ E]. apply ends_well; cbn; try done; intros x.
    + intros Hx. destruct E as [->| ->]; [done|]. rewrite lookup_delete_ne; [done|]. intros ->. apply Hx. unfold touches. cbn. set_solver.
    + destruct E as [->| ->]; [done|apply size_at_delete_le].
Qed.

Lemma sizes_without m p dn ss :
  p ∉ dn → Forall2 (λ x s, (s ≤ size_at m x)%N) dn ss → Forall2 (λ x s, (s ≤ size_at (delete p m) x)%N) dn ss.
Proof using Type.
  intros Hp Hall. induction Hall as [|x s dn ss Hx _ IH]; [constructor|]. apply not_elem_of_cons in Hp as [Hne Hp].
  constructor; [|by apply IH]. by rewrite size_at_delete, decide_False.
Qed.
Lemma releases_go_well m w R dn ss t' w' :
  ready m w R (Releases dn ss) → task_step l (Releases dn ss) w = (t', w') → goes_well m w R (Releases dn ss) w' t'.
Proof using Type.
  intros Hrd. pose proof (rd_local _ _ _ _ Hrd) as (Hnd & Hst & Hsz & Hgone). destruct ss as [|s ss]; cbn [task_step].
  { intros [= <- <-]. exists m. by apply ends_well. }
  inversion Hsz as [|p s' dn' ss' Hp Hsz' Hdn Hss]; subst. apply NoDup_cons in Hnd as [Hnp Hnd]. apply Forall_cons in Hst as [Hpst Hst].
  destruct (in_qs _ w) as [r w1] eqn:E. apply in_qs_inv in E as (q & E & ->). pose proof (delete_loaded _ (l_id l) _ _ _ _ E) as Hload.
  destruct Hrd as [Hs Ht Hl Hsm Hlo Hc]. cbn in Hsm.
  apply commit_delete_spec in E as (Hs1 & _ & Hr); [|done|unfold u64; lia]. intros [= <- <-].
  destruct r as [[]|e].
  - exists (delete p m). pose proof (total_size m p) as Htot. split.
    + done.
    + cbn. rewrite Hr. lia.
    + cbn. rewrite Hr. lia.
    + cbn [local tail]. split_and!; [done|done| |intros x Hx; apply Hgone; by right].
      by apply sizes_without.
    + intros x Hx _. rewrite size_at_None; [lia|]. by apply Hgone.
    + split; cbn; try done; [|intros x; by right]. intros x Hx. rewrite lookup_delete_ne; [done|]. intros ->. apply Hx. by left.
  - exists m. split; cbn in *; [done|lia|lia|done|by intros x Hx _; apply Hc; [|apply not_elem_of_nil]|]. by apply effect_end.
Qed.
Lemma renames_go_well m w R from to t' w' :
  ready m w R (Renames from to) → task_step l (Renames from to) w = (t', w') → goes_well m w R (Renames from to) w' t'.
Proof using Type.
  intros Hrd. cbn [task_step]. destruct (in_be _ w) as [r w1] eqn:E. apply in_be_inv in E as (b & E & ->).
  apply rename_law in E. intros [= <- <-]. destruct r as [[]|e].
  2: { exists m. apply ends_well; cbn; try done; intros p; by rewrite E. }
  destruct E as (s & Hs & Hf). destruct Hrd as [Hsy Ht Hl Hsm Hlo Hc].
  assert (Hfrom : (s ≤ size_at m from)%N).
  { specialize (Hc from ltac:(left) ltac:(apply not_elem_of_nil)). unfold size_at at 1 in Hc. by rewrite Hs in Hc. }
  exists (<[to := size_at m from]> (delete from m)).
  pose proof (total_insert (delete from m) to (size_at m from)) as Hins. pose proof (total_size m from) as Htot.
  split; [done|cbn; lia|cbn; lia|done| |].
  - intros p Hp _. change (size_at (files b) p ≤ size_at (<[to := size_at m from]> (delete from m)) p)%N. rewrite Hf, !size_at_insert, !size_at_delete.
    repeat case_decide; try done. apply Hc; [done|apply not_elem_of_nil].
  - apply effect_end; cbn; try done; intros p Hp.
    + by rewrite lookup_insert_ne, lookup_delete_ne by set_solver.
    + unfold touches in Hp. cbn in Hp. rewrite Hf. by rewrite lookup_insert_ne, lookup_delete_ne by set_solver.
Qed.

(** Any call of any task keeps what the tasks rely on. *)
Lemma call_goes_well m w R t t' w' :
  ready m w R t → task_step l t w = (t', w') → goes_well m w R t w' t'.
Proof using Type.
  intros Hrd Hst.
  assert (Hrep : ∀ tmp dest o n (f : DalError → Task), (∀ e, f e = Clears tmp dest o n ∨ f e = Refunds tmp dest o n e) →
    t = Moves tmp dest o n ∨ t = Retries tmp dest o n → ∀ e,
    writes (f e) = [dest] ∧ reads (f e) = [] ∧ staged (f e) = [tmp] ∧ replacing (f e) = [dest] ∧
    (local m (files (be w)) (qs w) t → local m (files (be w)) (qs w) (f e))).
  { intros tmp dest o n f Hfe Hwhich e. destruct (Hfe e) as [-> | ->]; split_and!; try done; destruct Hwhich as [-> | ->]; cbn; tauto. }
  destruct t; [by eapply writes_go_well|by eapply aborts_go_well|by eapply copies_go_well|by eapply sources_go_well
    |by eapply measures_go_well|by eapply charges_go_well| |by eapply clears_go_well| |by eapply refunds_go_well
    |by eapply cleans_go_well|by eapply deletes_go_well|by eapply queues_go_well|by eapply releases_go_well
    |by eapply renames_go_well|].
  - eapply (renames_in_place m w R _ tmp dest o n _ _ (λ _, Clears tmp dest o n)); [by left|done|exact Hst|]. apply (Hrep tmp dest o n); by left.
  - eapply (renames_in_place m w R _ tmp dest o n _ _ (λ e, Refunds tmp dest o n e)); [by right|done|exact Hst|]. apply (Hrep tmp dest o n); by right.
  - injection Hst as <- <-. exists m. by apply ends_well.
Qed.

(** ** All tasks *)

Lemma writes_visible m f q t p : local m f q t → p ∈ writes t → staging p = false.
Proof using Type.
  destruct t; cbn [local writes]; intros Hl Hp; destruct_and?; try (destruct Hl as (? & ? & ? & ?));
    try (apply list_elem_of_singleton in Hp as ->; done); try (by apply elem_of_nil in Hp).
  all: try (match goal with Hf : Forall _ _ |- _ => rewrite Forall_forall in Hf; by apply Hf end).
  apply elem_of_cons in Hp as [->| ->%list_elem_of_singleton]; done.
Qed.
Lemma reads_visible m f q t p : local m f q t → p ∈ reads t → staging p = false.
Proof using Type.
  destruct t; cbn [local reads]; intros Hl Hp; try (by apply elem_of_nil in Hp); apply list_elem_of_singleton in Hp as ->; tauto.
Qed.
Lemma replacing_writes t p : p ∈ replacing t → p ∈ writes t.
Proof using Type. destruct t; cbn; try done; by intros ?%elem_of_nil. Qed.

Record inv m y : Prop := {
  iv_synced : synced (qs (world y));
  iv_total : (total m ≤ live_now (world y))%N;
  iv_limit : (live_now (world y) ≤ l_limit l + refunded y)%N;
  iv_local : ∀ i t, tasks y !! i = Some t → local m (files (be (world y))) (qs (world y)) t;
  iv_cover : ∀ p, staging p = false → (∀ i t, tasks y !! i = Some t → p ∉ replacing t) →
    (size_at (files (be (world y))) p ≤ size_at m p)%N;
  iv_apart : ∀ i j t t', i ≠ j → tasks y !! i = Some t → tasks y !! j = Some t' →
    ∀ p, p ∈ touches t → p ∉ touches t' ∧ p ∉ reads t';
  iv_names : ∀ i t x, tasks y !! i = Some t → x ∈ staged t →
    ∃ p c k, x = tmp_name p c k ∧ (k < suffix_counter (world y))%N;
}.

Lemma advance_inv m y i t t' w' :
  inv m y → (l_limit l + refunded y + refund_of t < U64_MAX)%N →
  tasks y !! i = Some t → task_step l t (world y) = (t', w') →
  ∃ m', inv m' {| world := w'; tasks := <[i := t']> (tasks y); refunded := refunded y + refund_of t |}.
Proof using Type.
  intros [Hs Ht Hl Hlo Hc Ha Hn] Hsm Hi Hstep.
  assert (Hother : ∀ j t2 p, j ≠ i → tasks y !! j = Some t2 → p ∈ touches t2 → p ∉ touches t ∧ p ∉ reads t) by eauto.
  assert (Hrd : ready m (world y) (refunded y) t).
  { split; try done; [by eapply Hlo|]. intros p Hp Hnr. apply Hc; [by eapply writes_visible; [by eapply Hlo|]|].
    intros j t2 Hj. destruct (decide (j = i)) as [->|Hne]; [by simplify_eq|]. intros Hr%replacing_writes.
    destruct (Hother j t2 p Hne Hj) as [Hx _]; [unfold touches; set_solver|]. apply Hx. unfold touches. set_solver. }
  destruct (call_goes_well _ _ _ _ _ _ Hrd Hstep) as (m' & [Hs' Ht' Hl' Hlo' Hc' [Em Ef Ew Er Es El Ec]]).
  assert (Htouch : ∀ p, p ∈ touches t' → p ∈ touches t).
  { intros p. unfold touches. rewrite !elem_of_app. intros [?%Ew|?%Es]; auto. }
  exists m'. split; cbn; try done; [lia| | | |].
  - intros j t2. destruct (decide (j = i)) as [->|Hne]; [rewrite lookup_insert_eq; by intros [= <-]|].
    rewrite lookup_insert_ne by done. intros Hj. eapply local_frame; [| |exact El|by eapply Hlo].
    + intros p Hp. apply Em. intros Hp2. destruct (Hother j t2 p Hne Hj) as [Hx _]; [unfold touches; set_solver|]. apply Hx. unfold touches. set_solver.
    + intros p Hp. apply Ef. intros Hp2. destruct (Ha i j t t2 (not_eq_sym Hne) Hi Hj p Hp2) as [? ?]. tauto.
  - intros p Hp Hrep. destruct (decide (p ∈ writes t)) as [Hw|Hw].
    { apply Hc'; [done|]. apply (Hrep i). by rewrite lookup_insert_eq. }
    unfold size_at. rewrite Em by done. rewrite Ef.
    + apply Hc; [done|]. intros j t2 Hj. destruct (decide (j = i)) as [->|Hne]; [simplify_eq; by intros ?%replacing_writes|].
      apply (Hrep j). by rewrite lookup_insert_ne.
    + unfold touches. rewrite elem_of_app. intros [?|Hst]; [done|]. destruct (Hn _ _ _ Hi Hst) as (? & ? & ? & -> & _).
      by rewrite tmp_name_staging in Hp.
  - intros j k t2 t3 Hne. destruct (decide (j = i)) as [->|Hji], (decide (k = i)) as [->|Hki]; try done;
      rewrite ?lookup_insert_eq, ?lookup_insert_ne by done; intros Hj Hk p Hp; simplify_eq.
    + apply (Ha i k t t3); auto.
    + destruct (Ha j i t2 t Hne Hj Hi p Hp) as [Hx Hy]. split; [intros ?%Htouch; done|intros ?%Er; done].
    + by apply (Ha j k t2 t3).
  - intros j t2 x. destruct (decide (j = i)) as [->|Hne]; rewrite ?lookup_insert_eq, ?lookup_insert_ne, ?Ec by done; [|eauto].
    intros [= <-] Hx%Es. eauto.
Qed.

(** What the call that opens a handle does: it takes the next staging path. *)
Lemma begin_spec op w t w' :
  op_ok op → measured op → (suffix_counter w < U64_MAX)%N → begin l op w = (t, w') →
  qs w' = qs w ∧ (suffix_counter w ≤ suffix_counter w')%N ∧
  (∀ p, (∀ x c, p ≠ tmp_name x c (suffix_counter w)) → files (be w') !! p = files (be w) !! p) ∧
  (∀ x, x ∈ staged t → (∃ p c, x = tmp_name p c (suffix_counter w)) ∧ (suffix_counter w < suffix_counter w')%N) ∧
  writes t ⊆ op_writes op ∧ reads t ⊆ op_reads op ∧ replacing t = [] ∧
  ∀ m, local m (files (be w')) (qs w') t.
Proof using Type.
  intros Hok Hrel Hlt. assert (Hnext : wrapping_add (suffix_counter w) 1 = (suffix_counter w + 1)%N)
    by (unfold wrapping_add; apply N.mod_small; unfold U64_MAX in *; lia).
  destruct op as [path chunks|paths|from to k|from to]; cbn [begin op_ok measured] in *.
  - destruct Hok as [Hp Hlen]. destruct (quota_write l path w) as [r w1] eqn:E. intros [= <- <-].
    pose proof (quota_write_spec _ _ _ _ _ E) as (Hq & _ & Hh).
    unfold quota_write, tmp_path_for, mbind, M_bind in E. cbn in E. destruct (in_be _ _) as [r1 w2] eqn:E1.
    apply in_be_inv in E1 as (b & E1 & ->). apply write_law in E1 as [Hf _]. cbn in Hf.
    assert (be w1 = b ∧ suffix_counter w1 = (suffix_counter w + 1)%N) as [Hb Hsc] by (rewrite <-Hnext; destruct r1; by injection E as _ <-).
    rewrite Hb, Hsc. split_and!; [done|lia|intros p Hpn; by apply Hf| | | | |].
    + intros x Hx. split; [|lia]. destruct r as [h|e]; [|by apply elem_of_nil in Hx]. destruct r1 as [i|e]; [|done].
      injection E as <- _. cbn in Hx. apply list_elem_of_singleton in Hx as ->. by eexists _, _.
    + destruct r as [h|e]; cbn; [|set_solver]. by destruct Hh as [_ -> _ _ _ _].
    + by destruct r.
    + by destruct r.
    + intros m. destruct r as [h|e]; cbn [local]; [|done]. exists 0%N. pose proof Hh as [_ Hpe _ _ _ _]. rewrite Hpe. by split_and!.
  - destruct Hok as [Hnd Hst]. unfold quota_delete, mbind, M_bind. destruct (in_be open_deleter w) as [r w1] eqn:E.
    apply in_be_inv in E as (b & E & ->). apply open_deleter_law in E as [Hf Hq].
    destruct r as [d|e]; intros [= <- <-]; cbn [qs set_be be suffix_counter staged writes reads replacing]; rewrite Hf;
      (split_and!; [done|lia|done|by intros ? ?%elem_of_nil| |done|done|]); [done| |set_solver|done].
    intros m. cbn [local app pending_sizes qd_inner]. rewrite Hq. split_and!; try done. by intros ? ?%elem_of_nil.
  - destruct Hok as [Hfr Hto]. destruct (quota_copy l from to w) as [r w1] eqn:E. intros [= <- <-].
    pose proof (quota_copy_spec _ _ _ _ _ _ E) as (Hq & _ & Hh).
    unfold quota_copy, tmp_path_for, mbind, M_bind in E. cbn in E. destruct (in_be _ _) as [r1 w2] eqn:E1.
    apply in_be_inv in E1 as (b & E1 & ->). apply copy_law in E1 as [Hf _]. cbn in Hf.
    assert (be w1 = b ∧ suffix_counter w1 = (suffix_counter w + 1)%N) as [Hb Hsc] by (rewrite <-Hnext; destruct r1; by injection E as _ <-).
    rewrite Hb, Hsc. split_and!; [done|lia|intros p Hpn; by apply Hf| | | | |].
    + intros x Hx. split; [|lia]. destruct r as [h|e]; [|by apply elem_of_nil in Hx]. destruct r1 as [i|e]; [|done].
      injection E as <- _. cbn in Hx. apply list_elem_of_singleton in Hx as ->. by eexists _, _.
    + destruct r as [h|e]; cbn; [|set_solver]. by destruct Hh as [_ _ -> _ _ _].
    + destruct r as [h|e]; cbn; [|set_solver]. by destruct Hh as [_ -> _ _ _ _].
    + by destruct r.
    + intros m. destruct r as [h|e]; cbn [local]; [|done]. pose proof Hh as [_ Hf1 Hf2 _ _ _]. rewrite Hf1, Hf2. by split_and!.
  - intros [= <- <-]. split_and!; try done. by intros ? ?%elem_of_nil.
Qed.

Lemma begin_inv m y i op t w' :
  inv m y → tasks y !! i = None → apart op y → measured op → begin l op (world y) = (t, w') →
  inv m {| world := w'; tasks := <[i := t]> (tasks y); refunded := refunded y |}.
Proof using Type.
  intros [Hs Ht Hl Hlo Hc Ha Hn] Hi (Hok & Hlt & Hap) Hrel Hb.
  destruct (begin_spec _ _ _ _ Hok Hrel Hlt Hb) as (Hq & Hsc & Hf & Hst & Hw & Hr & Hrep & Hloc).
  assert (Hvis : ∀ p, staging p = false → files (be w') !! p = files (be (world y)) !! p).
  { intros p Hp. apply Hf. intros x c ->. by rewrite tmp_name_staging in Hp. }
  assert (Hold : ∀ j t2 p, tasks y !! j = Some t2 → p ∈ touches t2 ∨ p ∈ reads t2 → ∀ x c, p ≠ tmp_name x c (suffix_counter (world y))).
  { intros j t2 p Hj Hp x c ->. assert (staging (tmp_name x c (suffix_counter (world y))) = true) as Hstg by apply tmp_name_staging.
    unfold touches in Hp. rewrite elem_of_app in Hp. destruct Hp as [[Hp|Hp]|Hp].
    - eapply writes_visible in Hp; [|by eapply Hlo]. congruence.
    - destruct (Hn _ _ _ Hj Hp) as (? & ? & k & Heq & Hk). apply tmp_name_inj in Heq. lia.
    - eapply reads_visible in Hp; [|by eapply Hlo]. congruence. }
  assert (Hnew : ∀ j t2 p, tasks y !! j = Some t2 → p ∈ touches t → p ∉ touches t2 ∧ p ∉ reads t2).
  { intros j t2 p Hj Hp. destruct (Hap j t2 Hj) as (H_1 & H_2 & _). unfold touches in Hp. rewrite elem_of_app in Hp. destruct Hp as [Hp|Hp].
    - assert (staging p = false) as Hpv by (by eapply (writes_visible m); [apply Hloc|]). split; [|intros ?; by eapply H_2; [apply Hw|]].
      unfold touches. rewrite elem_of_app. intros [?|Hx]; [by eapply H_1; [apply Hw|]|]. destruct (Hn _ _ _ Hj Hx) as (? & ? & ? & -> & _).
      by rewrite tmp_name_staging in Hpv.
    - apply Hst in Hp as [(x & c & ->) _]. split; intros Hx; [exact (Hold j t2 _ Hj (or_introl Hx) x c eq_refl)|exact (Hold j t2 _ Hj (or_intror Hx) x c eq_refl)]. }
  assert (Hback : ∀ j t2 p, tasks y !! j = Some t2 → p ∈ touches t2 → p ∉ reads t).
  { intros j t2 p Hj Hp Hx. destruct (Hap j t2 Hj) as (_ & _ & H_3). unfold touches in Hp. rewrite elem_of_app in Hp. destruct Hp as [Hp|Hp].
    - by eapply H_3; [apply Hr|].
    - destruct (Hn _ _ _ Hj Hp) as (? & ? & ? & -> & _). eapply (reads_visible m) in Hx; [|apply Hloc]. by rewrite tmp_name_staging in Hx. }
  split; cbn; rewrite ?Hq in *; try done.
  - intros j t2. destruct (decide (j = i)) as [->|Hne]; [rewrite lookup_insert_eq; by intros [= <-]|].
    rewrite lookup_insert_ne by done. intros Hj. eapply local_frame; [done| |done|by eapply Hlo].
    intros p Hp. apply Hf. exact (Hold j t2 p Hj Hp).
  - intros p Hp Hnr. unfold size_at. rewrite Hvis by done. apply Hc; [done|]. intros j t2 Hj. apply (Hnr j). rewrite lookup_insert_ne; [done|]. congruence.
  - intros j k t2 t3 Hne. destruct (decide (j = i)) as [->|Hji], (decide (k = i)) as [->|Hki]; try done;
      rewrite ?lookup_insert_eq, ?lookup_insert_ne by done; intros Hj Hk p Hp; simplify_eq; [by apply (Hnew k t3)| |by apply (Ha j k t2 t3)].
    split; [|by eapply Hback]. intros Hx. by destruct (Hnew _ _ _ Hj Hx) as [Hno _].
  - intros j t2 x. destruct (decide (j = i)) as [->|Hne]; rewrite ?lookup_insert_eq, ?lookup_insert_ne by done.
    + intros [= <-] Hx. destruct (Hst x Hx) as [(p & c & ->) Hk]. by eexists _, _, _.
    + intros Hj Hx. destruct (Hn _ _ _ Hj Hx) as (p & c & k & -> & Hk). eexists _, _, _. split; [done|]. lia.
Qed.

Lemma step_inv y y' :
  step admitted y y' → (l_limit l + refunded y' < U64_MAX)%N → (∃ m, inv m y) → ∃ m, inv m y'.
Proof using Type.
  intros Hst Hsm [m Hm]. destruct Hst as [y i t t' w' Hi Hs|y i op t w' Hi [Hok Hrel] Hb].
  - cbn in Hsm. eapply advance_inv; try done. lia.
  - exists m. by eapply begin_inv.
Qed.
Lemma step_refunded al y y' : step al y y' → (refunded y ≤ refunded y')%N.
Proof using Type. destruct 1; cbn; lia. Qed.

(** What is charged for but not replaced yet. *)
Definition in_flight y : list string := concat (map (λ e, replacing e.2) (map_to_list (tasks y))).
Lemma in_flight_spec y p : p ∈ in_flight y ↔ ∃ i t, tasks y !! i = Some t ∧ p ∈ replacing t.
Proof using Type.
  unfold in_flight. rewrite list_elem_of_In, in_concat. split.
  - intros (x & (e & <- & He)%in_map_iff & Hp). destruct e as [i t]. exists i, t. apply list_elem_of_In in He, Hp.
    by apply elem_of_map_to_list in He.
  - intros (i & t & Hi & Hp). exists (replacing t). split; [|by apply list_elem_of_In].
    apply in_map_iff. exists (i, t). split; [done|]. apply list_elem_of_In. by apply elem_of_map_to_list.
Qed.

(** C2. The quota holds among concurrent operations. From an idle state in which the total
    covers the stored bytes and respects the limit, however writes, deletes, copies and
    renames are interleaved, wherever they fail, as long as none begins on a path that
    another one works on and, for copies, [stat] does not fail on an object that exists:
    the bytes of all objects but those that are about to be replaced
    never exceed the total, and so with no replacement in flight all stored bytes are
    accounted for; and the total exceeds the limit by no more than what refunds of failed
    replacements by smaller objects gave back. *)
Theorem quota_holds_among_tasks y y' :
  tasks y = ∅ → refunded y = 0%N → covered l (world y) → (live_now (world y) ≤ l_limit l)%N →
  rtc (step admitted) y y' → (l_limit l + refunded y' < U64_MAX)%N →
  let f := files (be (world y')) in
  (usage (foldr delete f (in_flight y')) ≤ live_now (world y'))%N ∧
  (in_flight y' = [] → (usage f ≤ live_now (world y'))%N) ∧
  (live_now (world y') ≤ l_limit l + refunded y')%N.
Proof using Type.
  intros Hidle H_0 [Hs Hu Hus] Hlim Hrun Hsm f.
  assert (∃ m, inv m y') as [m [Is It Il Ilo Ic Ia In]].
  { clear f. revert Hsm. pattern y'. eapply rtc_ind_r; [| |exact Hrun].
    - intros _. exists (visible (files (be (world y)))). split; rewrite ?Hidle, ?H_0; try done; [lia|].
      intros p Hp _. by rewrite size_at_visible.
    - intros y1 y2 _ Hst IH Hsm. eapply step_inv; try done. apply IH. apply step_refunded in Hst. lia. }
  assert (Hmain : (usage (foldr delete f (in_flight y')) ≤ live_now (world y'))%N).
  { etrans; [|exact It]. unfold usage. apply total_pointwise. intros p.
    destruct (staging p) eqn:Hp; [rewrite (size_at_None _ _ (lookup_visible_staging _ _ Hp)); lia|].
    rewrite size_at_visible by done. unfold size_at at 1. rewrite lookup_foldr_delete. case_decide as Hin; [cbn; lia|].
    apply Ic; [done|]. intros i t Hi Hr. apply Hin, in_flight_spec. eauto. }
  split; [exact Hmain|]. split; [|exact Il]. intros Hnone. by rewrite Hnone in Hmain.
Qed.

(** Whether a begin is apart can be computed. *)
#[export] Instance disjoint_dec a b : Decision (disjoint a b).
Proof using Type.
  refine (cast_if (decide (Forall (λ p, p ∉ b) a))); unfold disjoint; rewrite Forall_forall in *; naive_solver.
Defined.
#[export] Instance op_ok_dec op : Decision (op_ok op).
Proof using Type. destruct op; cbn; apply _. Defined.
#[export] Instance apart_dec op y : Decision (apart op y).
Proof using Type.
  refine (cast_if (decide (op_ok op ∧ (suffix_counter (world y) < U64_MAX)%N ∧
    map_Forall (λ _ t, disjoint (op_writes op) (writes t) ∧ disjoint (op_writes op) (reads t) ∧ disjoint (op_reads op) (writes t)) (tasks y)))).
  - done.
  - done.
Defined.

(** A schedule: an operation begins as a task, or a task makes its next call. *)
Inductive event := Begin (i : nat) (op : fsop) | Call (i : nat).
Definition happen (e : event) y : Sys :=
  match e with
  | Begin i op =>
      match tasks y !! i with
      | Some _ => y
      | None => let '(t, w) := begin l op (world y) in {| world := w; tasks := <[i := t]> (tasks y); refunded := refunded y |}
      end
  | Call i =>
      match tasks y !! i with
      | Some t => let '(t', w) := task_step l t (world y) in
                  {| world := w; tasks := <[i := t']> (tasks y); refunded := refunded y + refund_of t |}
      | None => y
      end
  end.
Definition play (es : list event) y : Sys := foldl (λ y e, happen e y) y es.
Fixpoint calls (i n : nat) : list event := match n with O => [] | S n => Call i :: calls i n end.
(** Does every operation of a schedule begin apart from those in flight? *)
Fixpoint all_apart (es : list event) y : bool :=
  match es with
  | [] => true
  | e :: es => (match e with Begin _ op => bool_decide (apart op y) | Call _ => true end) && all_apart es (happen e y)
  end.
Lemma play_run es y : stat_reliable → all_apart es y = true → rtc (step admitted) y (play es y).
Proof using Type.
  intros Hrel. revert y. induction es as [|e es IH]; intros y Ha; cbn in *; [constructor|]. apply andb_true_iff in Ha as [He Ha].
  apply IH in Ha. unfold play in Ha. destruct e as [i op|i]; cbn [happen] in *.
  - apply bool_decide_eq_true in He. destruct (tasks y !! i) eqn:Ei; [done|].
    destruct (begin l op (world y)) as [t w] eqn:E. eapply rtc_l; [eapply begins; [done|by split; [|destruct op]|done]|exact Ha].
  - destruct (tasks y !! i) as [t|] eqn:Ei; [|done]. destruct (task_step l t (world y)) as [t' w] eqn:E.
    eapply rtc_l; [by eapply advances|exact Ha].
Qed.
End Races.

(** ** Concrete interleavings *)

Module DemoRaces.
Open Scope string_scope.
Notation sys := (Sys (B := Sim.t) (T := MemoryTracker)).
Definition quota_of (limit : N) : QuotaLayer := {| l_id := "alice"; l_limit := limit |}.
Definition start_in (objs : sizes) (faults : list bool) (used : N) : sys :=
  {| world := {| be := {| Sim.objs := objs; Sim.deferred := false; Sim.rename_faults := faults |};
                 qs := qs_new {["alice" := used]}; suffix_counter := 0; clock := λ n, (1000 + n)%N |};
     tasks := ∅; refunded := 0 |}.
(** The stored objects, the total and the refunds at the end of a schedule. *)
Definition seen (y : sys) : list (string * N) * N * N :=
  (map_to_list (visible (files (be (world y)))), live (qs (world y)) "alice", refunded y).

(** Two writers replace the same object: both subtract its size, and the total no longer
    covers what is stored. *)
Definition same_path : list event :=
  [Begin 0 (Put "a" ["12345"]); Begin 1 (Put "a" ["1234567"])] ++ calls 0 3 ++ calls 1 3 ++ calls 0 3 ++ calls 1 3.
Example same_path_undercounts :
  seen (play (quota_of 20) same_path (start_in {["a" := 6%N; "b" := 4%N]} [] 10)) = ([("a", 7%N); ("b", 4%N)], 10%N, 0%N).
Proof. vm_compute. reflexivity. Qed.

(** A copy is charged what its source measures when the copy is closed: if the source was
    replaced since, that is not what the copy holds. *)
Definition source_replaced : list event :=
  [Begin 0 (Duplicate "a" "c" 0)] ++ calls 0 1 ++ [Begin 1 (Put "a" ["1"])] ++ calls 1 5 ++ calls 0 4.
Example replaced_source_undercounts :
  seen (play (quota_of 20) source_replaced (start_in {["a" := 6%N]} [] 6)) = ([("c", 6%N); ("a", 1%N)], 2%N, 0%N).
Proof. vm_compute. reflexivity. Qed.

(** A replacement by a smaller object that is charged but not in place yet: meanwhile the
    stored bytes exceed the limit. *)
Definition shrinking : list event := [Begin 0 (Put "a" ["1"])] ++ calls 0 4 ++ [Begin 1 (Put "b" ["123456789"])] ++ calls 1 5.
Example shrinking_is_early :
  let y := play (quota_of 10) shrinking (start_in {["a" := 6%N]} [] 6) in
  (seen y, in_flight y) = ([("a", 6%N); ("b", 9%N)], 10%N, 0%N, ["a"]).
Proof. vm_compute. reflexivity. Qed.

(** A replacement by a smaller object gives room that another writer takes; when its rename
    fails the room is taken back, and the total exceeds the limit. The paths are apart. *)
Definition refunded_late : list event :=
  [Begin 0 (Put "a" ["1"])] ++ calls 0 4 ++ [Begin 1 (Put "b" ["123456789"])] ++ calls 1 5 ++ calls 0 5.
Example refund_exceeds_the_limit :
  seen (play (quota_of 10) refunded_late (start_in {["a" := 6%N]} [false; true; true] 6)) = ([("b", 9%N)], 15%N, 5%N).
Proof. vm_compute. reflexivity. Qed.

(** Four operations at once, one of which fails and is refunded. *)
Definition four_at_once : list event :=
  [Begin 0 (Put "a" ["1"]); Begin 1 (Put "b" ["123456789"]); Begin 2 (Remove ["d"; "e"]); Begin 3 (Duplicate "f" "g" 1)] ++
  calls 0 4 ++ calls 1 4 ++ calls 2 5 ++ calls 3 5 ++ calls 1 1 ++ calls 2 3 ++ calls 0 5 ++ calls 3 1.
Definition busy : sys := start_in {["a" := 6%N; "d" := 3%N; "e" := 2%N; "f" := 4%N]} [false; true; true] 15.
Example four_at_once_value :
  seen (play (quota_of 25) four_at_once busy) = ([("g", 4%N); ("f", 4%N); ("b", 9%N)], 23%N, 5%N).
Proof. vm_compute. reflexivity. Qed.
Lemma quota_holds_among_tasks_witness :
  (usage (files (be (world (play (quota_of 25) four_at_once busy)))) ≤ live (qs (world (play (quota_of 25) four_at_once busy))) "alice")%N ∧
  (live (qs (world (play (quota_of 25) four_at_once busy))) "alice" ≤ 30)%N.
Proof.
  assert (Ha : all_apart (quota_of 25) four_at_once busy = true) by (vm_compute; reflexivity).
  destruct (quota_holds_among_tasks (quota_of 25) busy (play (quota_of 25) four_at_once busy)) as (_ & Hidle & Hlim).
  - reflexivity.
  - reflexivity.
  - split; [apply synced_new|by vm_compute|by vm_compute].
  - by vm_compute.
  - apply play_run; [apply demo_reliable|exact Ha].
  - by vm_compute.
  - split; [apply Hidle; vm_compute; reflexivity|].
    assert (Hr : refunded (play (quota_of 25) four_at_once busy) = 5%N) by (vm_compute; reflexivity).
    rewrite Hr in Hlim. exact Hlim.
Defined.
End DemoRaces.
