(* ===== verification/ReadOnly.v ===== *)
(** * The read-only layer ([layers/read_only.rs])

    [read_only_service] wraps any backend: every operation that could change it is
    refused with [PermissionDenied], the others are the backend's own. *)

From S2P Require Import Prelude.
From S2P Require Import RustStr.
From S2P Require Import Errors.
From S2P Require Import QuotaCounter.
From S2P Require Import QuotaState.
From S2P Require Import Service.
From S2P Require Import QuotaLayer.
From stdpp Require Import options.
Close Scope string_scope.

Definition read_only_error : DalError :=
  with_context "layer" "ReadOnlyLayer" (dal_error Kind.PermissionDenied "read-only mount point").

Section ReadOnly.
Context {B : Type} `{S : Service B}.

Definition ro_create_dir (path : string) : M B DalError () := throw read_only_error.
Definition ro_write (path : string) : M B DalError Writer := throw read_only_error.
Definition ro_delete : M B DalError Deleter := throw read_only_error.
Definition ro_copy (from to : string) : M B DalError Copier := throw read_only_error.
Definition ro_rename (from to : string) : M B DalError () := throw read_only_error.
(** [compose] and [restore], which no other service of the repository has. *)
Definition ro_compose {A} (to : string) : M B DalError A := throw read_only_error.
Definition ro_restore {A} (path : string) : M B DalError A := throw read_only_error.

(** [ReadOnlyService] *)
Definition read_only_service : Service B := {|
  Metadata := Metadata; content_length := content_length;
  Reader := Reader; Lister := Lister; Presigned := Presigned;
  Writer := Writer; Deleter := Deleter; Copier := Copier;
  create_dir := ro_create_dir;
  stat := stat;
  read := read;
  write := ro_write;
  open_deleter := ro_delete;
  list_dir := list_dir;
  copy := ro_copy;
  rename := ro_rename;
  presign := presign;
  writer_write := writer_write;
  writer_close := writer_close;
  writer_abort := writer_abort;
  deleter_delete := deleter_delete;
  deleter_close := deleter_close;
  copier_next := copier_next;
  copier_close := copier_close;
  copier_abort := copier_abort;
|}.

(** The mutating operations of a client. *)
Inductive mutation :=
| MCreateDir (path : string)
| MPut (path : string) (chunks : list string)
| MRemove (paths : list string)
| MDuplicate (from to : string) (steps : nat)
| MRename (from to : string)
| MCompose (to : string)
| MRestore (path : string).

Definition mutate_read_only (m : mutation) (b : B) : result DalError () * B :=
  let unit {A} (p : result DalError A * B) := ((λ _, ()) <$> p.1, p.2) in
  match m with
  | MCreateDir path => unit (create_dir (Service:=read_only_service) path b)
  | MPut path chunks => unit (put (H := read_only_service) path chunks b)
  | MRemove paths => unit (remove (H := read_only_service) paths b)
  | MDuplicate from to n => unit (duplicate (H := read_only_service) from to n b)
  | MRename from to => unit (rename (Service:=read_only_service) from to b)
  | MCompose to => unit (ro_compose (A := ()) to b)
  | MRestore path => unit (ro_restore (A := ()) path b)
  end.

(** A read-only service cannot be changed through any mutating operation of a
    client: each one is refused with [PermissionDenied] before the backend is
    called, so that the backend is literally the same; [stat], [read], [list] and
    [presign] are the backend's own. *)
Theorem read_only_refuses_mutations (m : mutation) (b : B) :
  mutate_read_only m b = (Err read_only_error, b) ∧
  err_kind read_only_error = Kind.PermissionDenied ∧
  stat (Service:=read_only_service) = stat (Service:=S) ∧
  read (Service:=read_only_service) = read (Service:=S) ∧
  list_dir (Service:=read_only_service) = list_dir (Service:=S) ∧
  presign (Service:=read_only_service) = presign (Service:=S).
Proof. split; [by destruct m | done]. Qed.

End ReadOnly.

(** With a quota below it, as [VfsBuilder::build] layers them, nothing is charged
    either: the whole world of the quota layer is unchanged. *)
Lemma read_only_over_quota {B T} `{Service B} `{QuotaTracker T} (l : QuotaLayer)
    (m : mutation) (w : World B T) :
  mutate_read_only (S := quota_service l) m w = (Err read_only_error, w).
Proof. by destruct m. Qed.
