(* ===== verification/Mounts.v ===== *)
(** * The mount table ([lib.rs], [layers/vfs.rs] and the mount handles)

    [MountAccess] presents several operators under fixed virtual paths. An
    operator is third-party code built over a service of this repository: the class
    [OperatorApi] is what the mount table calls on it, over a world [W] the
    operators share. A path is resolved to the mount with the longest matching
    path; operations are delegated with the relative path, refused on read-only
    mounts, and virtual directories are synthesised for the ancestors of mounts.

    A [BTreeMap] is a [gmap] here; where its order shows, the keys are sorted. *)

From S2P Require Import Prelude.
From S2P Require Import RustStr.
From S2P Require Import Errors.
From S2P Require Import Paths.
From S2P Require Import QuotaCounter.
From S2P Require Import QuotaState.
From S2P Require Import Service.
From S2P Require Import QuotaLayer.
From stdpp Require Import options.

(** ** Operators *)

Class OperatorApi (O W : Type) := {
  Meta : Type;
  meta_length : Meta → N;
  (** [MetadataBuilder::dir] with the modification time zero. *)
  dir_meta : Meta;
  OpWriter : Type;
  OpReader : Type;
  (** [op.layer(QuotaLayer::new(..))] and [op.layer(ReadOnlyLayer)] *)
  with_quota : QuotaLayer → O → O;
  with_read_only : O → O;
  can_copy : O → bool;
  can_rename : O → bool;
  op_stat : O → string → M W DalError Meta;
  op_read : O → string → M W DalError string;
  op_write : O → string → string → M W DalError ();
  op_delete : O → string → M W DalError ();
  op_create_dir : O → string → M W DalError ();
  op_copy : O → string → string → M W DalError ();
  op_rename : O → string → string → M W DalError ();
  (** The stream of entries an opened lister will yield. *)
  op_lister : O → string → M W DalError (list (result DalError (string * Meta)));
  op_writer : O → string → M W DalError OpWriter;
  writer_push : string → OpWriter → W → result DalError () * (OpWriter * W);
  writer_finish : OpWriter → W → result DalError Meta * (OpWriter * W);
  writer_cancel : OpWriter → W → result DalError () * (OpWriter * W);
  op_reader : O → string → M W DalError OpReader;
  (** [reader.read(from..to)] *)
  reader_read : OpReader → N → N → M W DalError string;
}.

(** ** Resolution *)

Record Mount (O : Type) := { operator : O; read_only : bool }.
Arguments operator {O} _.
Arguments read_only {O} _.

(** [Iterator::max_by_key]: the last of the maximal elements. *)
Definition max_by_key {A} (f : A → nat) (l : list A) : option A :=
  foldl (λ best x, match best with
                   | None => Some x
                   | Some b => if f b <=? f x then Some x else Some b
                   end) None l.

(** [s.push(c)] *)
Definition push_char (s : string) (c : ascii) : string := (s +:+ String c "")%string.

Section Table.
Context {O : Type}.
Notation Mounts := (gmap string (Mount O)).
Implicit Types mounts : Mounts.

(** The filter of [resolve_path]. *)
Definition owns (mount_path normalized : string) : bool :=
  bool_decide (normalized = mount_path) || starts_with (mount_path +:+ "/") normalized.

(** The closure of [resolve_path] that makes the path relative. *)
Definition relative_to (mount_path path : string) : string :=
  let normalized := normalize path in
  let rel := trim_start_matches slash (opt_or "" (strip_prefix mount_path normalized)) in
  if ends_with_char slash path && negb (bool_decide (rel = "")) && negb (ends_with_char slash rel)
  then push_char rel slash else rel.

(** [opendal_vfs::resolve_path] *)
Definition resolve_path mounts (path : string) : option (string * Mount O * string) :=
  let normalized := normalize path in
  '(mount_path, mount) ← max_by_key (λ e, String.length e.1)
     (base.filter (λ e, owns e.1 normalized = true) (map_to_list mounts));
  Some (mount_path, mount, relative_to mount_path path).

(** [virtual_children]: a [BTreeSet] of the next segments, in order. *)
Definition child_of (prefix mount_path : string) : option string :=
  rest ← strip_prefix prefix mount_path;
  if bool_decide (rest = "") then None
  else let next_segment := opt_or rest (head (split slash rest)) in
       if bool_decide (next_segment = "") then None else Some next_segment.
Definition children_prefix (path : string) : string :=
  let prefix := normalize path in
  if negb (bool_decide (prefix = "/")) && negb (ends_with_char slash prefix)
  then push_char prefix slash else prefix.
Definition children_set mounts (prefix : string) : gset string :=
  list_to_set (omap (child_of prefix) (map fst (map_to_list mounts))).
Definition virtual_children mounts (path : string) : option (list string) :=
  let prefix := children_prefix path in
  let children := children_set mounts prefix in
  if bool_decide (children = ∅) && negb (bool_decide (prefix = "/")) then None
  else Some (merge_sort String.le (elements children)).

End Table.

(** ** Building the table ([VfsBuilder]) *)

Section Operations.
Context {O W : Type} `{OperatorApi O W}.
Notation Mounts := (gmap string (Mount O)).
Implicit Types (mounts : Mounts) (w : W).

Inductive VfsQuota := Disabled | Enabled (id : string) (bytes : N).

Record PendingMount := {
  pm_path : string;
  pm_operator : O;
  pm_read_only : bool;
  pm_quota : VfsQuota;
}.

(** [VfsBuilder]; the quota state it carries is shared by the layers it adds. *)
Definition VfsBuilder : Type := list PendingMount.

(** [Vec::last_mut] *)
Fixpoint update_last {A} (f : A → A) (l : list A) : list A :=
  match l with
  | [] => []
  | [x] => [f x]
  | x :: l => x :: update_last f l
  end.

(** [VfsBuilder::mount] *)
Definition builder_mount (path : string) (op : O) (pending : VfsBuilder) : VfsBuilder :=
  pending ++ [{| pm_path := normalize path; pm_operator := op;
                 pm_read_only := false; pm_quota := Disabled |}].
(** [VfsBuilder::read_only] *)
Definition builder_read_only (pending : VfsBuilder) : VfsBuilder :=
  update_last (λ m, {| pm_path := pm_path m; pm_operator := pm_operator m;
                       pm_read_only := true; pm_quota := pm_quota m |}) pending.
(** [VfsBuilder::quota] *)
Definition builder_quota (id : string) (bytes : N) (pending : VfsBuilder) : VfsBuilder :=
  update_last (λ m, {| pm_path := pm_path m; pm_operator := pm_operator m;
                       pm_read_only := pm_read_only m; pm_quota := Enabled id bytes |}) pending.

(** The layers [build] puts around a pending mount's operator. *)
Definition layered (m : PendingMount) : O :=
  let op := match pm_quota m with
            | Disabled => pm_operator m
            | Enabled id bytes => with_quota {| l_id := id; l_limit := bytes |} (pm_operator m)
            end in
  if pm_read_only m then with_read_only op else op.

Definition build_step (m : PendingMount) mounts : result DalError Mounts :=
  if bool_decide (pm_path m = "/")%string
  then Err (dal_error Kind.ConfigInvalid "cannot mount at the virtual root '/'")
  else match mounts !! pm_path m with
       | Some _ => Err (with_context "path" (pm_path m) (dal_error Kind.ConfigInvalid "duplicate mount path"))
       | None => Ok (<[pm_path m := {| operator := layered m; read_only := pm_read_only m |}]> mounts)
       end.
Fixpoint build_from (pending : VfsBuilder) mounts : result DalError Mounts :=
  match pending with
  | [] => Ok mounts
  | m :: pending => mounts ← build_step m mounts; build_from pending mounts
  end.
(** [VfsBuilder::build] *)
Definition build (pending : VfsBuilder) : result DalError Mounts := build_from pending ∅.

(** ** The accessor ([MountAccess]) *)

Definition path_not_found : DalError := dal_error Kind.NotFound "path not found".
Definition mount_is_read_only : DalError := dal_error Kind.PermissionDenied "mount is read only".

(** [resolve_path], or the [NotFound] every operation returns. *)
Definition resolved mounts (path : string) : M W DalError (string * Mount O * string) :=
  lift (ok_or path_not_found (resolve_path mounts path)).
Definition refuse_if (b : bool) : M W DalError () :=
  if b then throw mount_is_read_only else mret ().

(** [MountAccess::metadata] and [stat] *)
Definition access_stat mounts (path : string) : M W DalError Meta :=
  match resolve_path mounts path with
  | Some (mount_path, mount, rel) =>
      if bool_decide (normalize path = mount_path) && bool_decide (rel = "")%string then mret dir_meta
      else op_stat (operator mount) rel
  | None =>
      match virtual_children mounts path with
      | Some _ => mret dir_meta
      | None => throw path_not_found
      end
  end.

(** [MountAccess::create_dir] *)
Definition access_create_dir mounts (path : string) : M W DalError () :=
  '(_, mount, rel) ← resolved mounts path;
  _ ← refuse_if (read_only mount);
  op_create_dir (operator mount) rel.

(** *** [MountReader] *)

Record MountReader := { mr_operator : O; mr_path : string; mr_metadata : option Meta }.
Record MountHandle := { mh_reader : OpReader; mh_content_length : N }.

(** [MountAccess::read] *)
Definition access_read mounts (path : string) : M W DalError MountReader :=
  '(_, mount, rel) ← resolved mounts path;
  mret {| mr_operator := operator mount; mr_path := rel; mr_metadata := None |}.

(** [MountReader::open]: the metadata is fetched once and cached. *)
Definition reader_open (r : MountReader) : W → result DalError MountHandle * (MountReader * W) := λ w,
  let '(md, w1) := match mr_metadata r with
                   | Some md => (Ok md, w)
                   | None => op_stat (mr_operator r) (mr_path r) w
                   end in
  match md with
  | Err e => (Err e, (r, w1))
  | Ok md =>
      let r := {| mr_operator := mr_operator r; mr_path := mr_path r; mr_metadata := Some md |} in
      match op_reader (mr_operator r) (mr_path r) w1 with
      | (Ok rd, w2) => (Ok {| mh_reader := rd; mh_content_length := meta_length md |}, (r, w2))
      | (Err e, w2) => (Err e, (r, w2))
      end
  end.

(** [MountReader::read_at] *)
Definition reader_read_at (h : MountHandle) (offset size : N) : M W DalError string :=
  if (mh_content_length h <=? offset)%N then mret ""%string
  else reader_read (mh_reader h) offset (N.min (wrapping_add offset size) (mh_content_length h)).

(** *** [MountWriter] *)

Record MountWriter := { mw_operator : O; mw_rel : string; mw_inner : option OpWriter }.

(** [MountAccess::write] *)
Definition access_write mounts (path : string) : M W DalError MountWriter :=
  '(_, mount, rel) ← resolved mounts path;
  _ ← refuse_if (read_only mount);
  mret {| mw_operator := operator mount; mw_rel := rel; mw_inner := None |}.

(** [MountWriter::writer]: opened by the first call that needs it. *)
Definition lazy_writer {A} (use : OpWriter → W → result DalError A * (OpWriter * W))
    : M (MountWriter * W) DalError A := λ '(h, w),
  let '(opened, w) := match mw_inner h with
                      | Some i => (Ok i, w)
                      | None => op_writer (mw_operator h) (mw_rel h) w
                      end in
  match opened with
  | Err e => (Err e, (h, w))
  | Ok i =>
      let '(r, (i, w)) := use i w in
      (r, ({| mw_operator := mw_operator h; mw_rel := mw_rel h; mw_inner := Some i |}, w))
  end.
(** [MountWriter::write], [close] and [abort] *)
Definition mount_writer_write (bs : string) : M (MountWriter * W) DalError () := lazy_writer (writer_push bs).
Definition mount_writer_close : M (MountWriter * W) DalError Meta := lazy_writer writer_finish.
Definition mount_writer_abort : M (MountWriter * W) DalError () := lazy_writer writer_cancel.

(** *** [MountDeleter]: every path is deleted at once, [close] has nothing left *)

Definition mount_deleter_delete mounts (path : string) : M W DalError () :=
  '(_, mount, rel) ← resolved mounts path;
  _ ← refuse_if (read_only mount);
  op_delete (operator mount) rel.
Definition mount_deleter_close : M W DalError () := mret ().

(** *** [MountLister] *)

Inductive MountLister :=
| Real (op : O) (rel mount_path : string) (inner : option (list (result DalError (string * Meta))))
| Virtual (entries : list (string * Meta)).

(** An entry's path as seen through the mount. *)
Definition rebase (mount_path entry_path : string) : string :=
  (trim_end_matches slash mount_path +:+ "/" +:+ trim_start_matches slash entry_path)%string.

(** The entries [MountAccess::list] synthesises for a virtual directory. *)
Definition virtual_entry (base name : string) : string * Meta :=
  ((if bool_decide (base = "/") then name +:+ "/"
    else trim_start_matches slash base +:+ "/" +:+ name +:+ "/")%string, dir_meta).

(** [MountAccess::list] *)
Definition access_list mounts (path : string) : M W DalError MountLister :=
  match resolve_path mounts path with
  | Some (mount_path, mount, rel) => mret (Real (operator mount) rel mount_path None)
  | None =>
      match virtual_children mounts path with
      | Some children => mret (Virtual (map (virtual_entry (normalize path)) children))
      | None => throw path_not_found
      end
  end.

(** The loop of [MountLister::next] over an opened stream: the directory itself is
    skipped. Returns what is left of the stream. *)
Fixpoint next_entry (rel mount_path : string) (stream : list (result DalError (string * Meta)))
    : result DalError (option (string * Meta)) * list (result DalError (string * Meta)) :=
  match stream with
  | [] => (Ok None, [])
  | Err e :: stream => (Err e, stream)
  | Ok (path, md) :: stream =>
      if bool_decide (trim_matches slash path = trim_matches slash rel)
      then next_entry rel mount_path stream
      else (Ok (Some (rebase mount_path path, md)), stream)
  end.

(** [MountLister::next] *)
Definition lister_next (l : MountLister) (w : W)
    : result DalError (option (string * Meta)) * (MountLister * W) :=
  match l with
  | Real op rel mount_path inner =>
      let '(opened, w) := match inner with Some s => (Ok s, w) | None => op_lister op rel w end in
      match opened with
      | Err e => (Err e, (l, w))
      | Ok stream =>
          let '(r, stream) := next_entry rel mount_path stream in
          (r, (Real op rel mount_path (Some stream), w))
      end
  | Virtual entries => (Ok (last entries), (Virtual (removelast entries), w))
  end.

(** *** Copies and renames *)

(** The factory [MountAccess::copy] hands to its one-shot copier. *)
Definition copy_job (delegate : bool) (from_op to_op : O) (from_rel to_rel : string) : M W DalError Meta :=
  _ ← (if delegate then op_copy from_op from_rel to_rel
       else data ← op_read from_op from_rel; op_write to_op to_rel data);
  op_stat to_op to_rel.

(** [MountAccess::copy] *)
Definition access_copy mounts (from to : string) : M W DalError (M W DalError Meta) :=
  '(from_path, from_mount, from_rel) ← resolved mounts from;
  '(to_path, to_mount, to_rel) ← resolved mounts to;
  _ ← refuse_if (read_only to_mount);
  let delegate := bool_decide (from_path = to_path) && can_copy (operator from_mount) in
  mret (copy_job delegate (operator from_mount) (operator to_mount) from_rel to_rel).

(** [MountAccess::rename] *)
Definition access_rename mounts (from to : string) : M W DalError () :=
  '(from_path, from_mount, from_rel) ← resolved mounts from;
  '(to_path, to_mount, to_rel) ← resolved mounts to;
  _ ← refuse_if (read_only from_mount || read_only to_mount);
  if bool_decide (from_path = to_path) && can_rename (operator from_mount)
  then op_rename (operator from_mount) from_rel to_rel
  else data ← op_read (operator from_mount) from_rel;
       _ ← op_write (operator to_mount) to_rel data;
       op_delete (operator from_mount) from_rel.

(** [MountAccess::presign] *)
Definition access_presign (path : string) : M W DalError () :=
  throw (dal_error Kind.Unsupported "operation not supported").

End Operations.

(** ** Lemmas: resolution *)

Lemma max_by_key_spec {A} (f : A → nat) (l : list A) :
  match max_by_key f l with
  | Some x => x ∈ l ∧ ∀ y, y ∈ l → f y ≤ f x
  | None => l = []
  end.
Proof.
  unfold max_by_key. induction l as [|x l IH] using rev_ind; [done|].
  rewrite foldl_app. simpl. destruct (foldl _ None l) as [b|].
  - destruct IH as [Hb Hmax]. destruct (Nat.leb_spec (f b) (f x)); split.
    + apply elem_of_app. right. by left.
    + intros y [Hy|Hy]%elem_of_app; [apply Hmax in Hy; lia|].
      apply list_elem_of_singleton in Hy as ->. done.
    + apply elem_of_app. by left.
    + intros y [Hy|Hy]%elem_of_app; [by apply Hmax|].
      apply list_elem_of_singleton in Hy as ->. lia.
  - subst l. split; [by left|]. intros y Hy. by apply list_elem_of_singleton in Hy as ->.
Qed.

Lemma owns_true mp n : owns mp n = true ↔ n = mp ∨ starts_with (mp +:+ "/")%string n = true.
Proof. unfold owns. rewrite orb_true_iff, bool_decide_eq_true. done. Qed.
Lemma owns_prefix mp n : owns mp n = true → starts_with mp n = true.
Proof.
  rewrite owns_true, !starts_with_true. intros [->|[r ->]].
  - exists ""%string. by rewrite app_empty_r.
  - exists ("/" +:+ r)%string. by rewrite app_assoc_s.
Qed.

Section ResolutionLemmas.
Context {O : Type}.
Notation Mounts := (gmap string (Mount O)).
Implicit Types mounts : Mounts.

Lemma resolve_path_spec mounts path mp m rel :
  resolve_path mounts path = Some (mp, m, rel) ↔
  mounts !! mp = Some m ∧ owns mp (normalize path) = true ∧
  (∀ mp', is_Some (mounts !! mp') → owns mp' (normalize path) = true →
     String.length mp' ≤ String.length mp) ∧
  rel = relative_to mp path.
Proof.
  unfold resolve_path. set (l := base.filter _ _).
  assert (Hl : ∀ e, e ∈ l ↔ owns e.1 (normalize path) = true ∧ mounts !! e.1 = Some e.2).
  { intros [k x]. unfold l. by rewrite list_elem_of_filter, elem_of_map_to_list. }
  pose proof (max_by_key_spec (λ e : string * Mount O, String.length e.1) l) as Hmax.
  destruct (max_by_key _ l) as [[mp0 m0]|]; simpl.
  - destruct Hmax as [Hin Hmax]. apply Hl in Hin as [Ho0 Hm0]. simpl in *.
    assert (Hmax' : ∀ mp', is_Some (mounts !! mp') → owns mp' (normalize path) = true →
      String.length mp' ≤ String.length mp0).
    { intros mp' [m' Hm'] Ho'. by apply (Hmax (mp', m')), Hl. }
    split.
    + intros [= <- <- <-]. eauto.
    + intros (Hm & Ho & Hlong & ->).
      assert (mp = mp0) as ->; [|by rewrite Hm in Hm0; injection Hm0 as ->].
      apply (prefix_total _ _ (normalize path)); try by apply owns_prefix.
      apply Nat.le_antisymm; [apply Hmax' | apply Hlong]; eauto.
  - split; [done|]. intros (Hm & Ho & _). assert ((mp, m) ∈ l) as Hin by by apply Hl.
    rewrite Hmax in Hin. by apply elem_of_nil in Hin.
Qed.

Lemma resolve_path_None mounts path :
  resolve_path mounts path = None ↔
  ∀ mp, is_Some (mounts !! mp) → owns mp (normalize path) = false.
Proof.
  split.
  - intros Hr mp [m Hm]. apply not_true_iff_false. intros Ho.
    unfold resolve_path in Hr. set (l := base.filter _ _) in Hr.
    assert ((mp, m) ∈ l) as Hin by (apply list_elem_of_filter; by rewrite elem_of_map_to_list).
    pose proof (max_by_key_spec (λ e : string * Mount O, String.length e.1) l) as Hmax.
    destruct (max_by_key _ l) as [[? ?]|]; [done|]. rewrite Hmax in Hin. by apply elem_of_nil in Hin.
  - intros H. destruct (resolve_path mounts path) as [[[mp m] rel]|] eqn:E; [|done].
    apply resolve_path_spec in E as (Hm & Ho & _). rewrite H in Ho; [done|eauto].
Qed.

(** Every mount is at an absolute path of proper segments, not the root. *)
Definition wf_mounts mounts : Prop :=
  ∀ mp, is_Some (mounts !! mp) → ∃ segs, segs ≠ [] ∧ Forall normal_seg segs ∧ mp = absp segs.

Lemma relative_to_segs a b is_dir :
  Forall normal_seg (a ++ b) → a ≠ [] →
  relative_to (absp a) (absp (a ++ b) +:+ dir_suffix is_dir)%string =
    (join "/" b +:+ (if bool_decide (b = []) then "" else dir_suffix is_dir))%string.
Proof.
  intros H Ha. assert (Hab : Forall normal_seg a ∧ Forall normal_seg b) by by apply Forall_app.
  destruct Hab as [Hfa Hfb].
  unfold relative_to. rewrite normalize_absp by done.
  assert (Hend : ends_with_char slash (absp (a ++ b) +:+ dir_suffix is_dir)%string = is_dir).
  { unfold absp. rewrite app_assoc_s. cbn [String.append].
    assert (Hne : (join "/" (a ++ b) +:+ dir_suffix is_dir ≠ "")%string).
    { intros Hx. apply app_eq_empty in Hx as [Hx _]. apply join_ne in Hx; [done|done|by destruct a]. }
    rewrite ends_with_char_cons by done. destruct is_dir; simpl.
    - apply ends_with_char_snoc.
    - rewrite app_empty_r. by apply join_tail. }
  rewrite Hend.
  assert (Hrel : trim_start_matches slash (opt_or "" (strip_prefix (absp a) (absp (a ++ b))))%string = join "/" b).
  { destruct (decide (b = [])) as [->|Hb].
    - rewrite app_nil_r. pose proof (strip_prefix_app (absp a) "") as Hs. rewrite app_empty_r in Hs.
      by rewrite Hs.
    - unfold absp at 2. rewrite join_app by done.
      replace ("/" +:+ join "/" a +:+ "/" +:+ join "/" b)%string
        with (absp a +:+ ("/" +:+ join "/" b))%string by (unfold absp; by rewrite !app_assoc_s).
      rewrite strip_prefix_app. cbn [opt_or String.append]. rewrite trim_start_char.
      apply trim_start_id. intros s' Hs. pose proof (join_start b Hfb) as Hj.
      rewrite Hs in Hj. pose proof (proj2 (starts_with_slash (String slash s')) ltac:(eauto)) as Hy.
      unfold slash in Hy. congruence. }
  rewrite Hrel, (join_tail b) by done. rewrite andb_true_r.
  destruct (decide (b = [])) as [->|Hb].
  - by rewrite !bool_decide_eq_true_2, andb_false_r by done.
  - rewrite (bool_decide_eq_false_2 (join "/" b = "")%string) by by apply join_ne.
    rewrite bool_decide_eq_false_2 by done. rewrite andb_true_r.
    destruct is_dir; [done|]. simpl. by rewrite app_empty_r.
Qed.

Lemma length_join_app a k :
  Forall normal_seg (a ++ k) → k ≠ [] → a ≠ [] →
  String.length (absp a) < String.length (absp (a ++ k)).
Proof.
  intros H Hk Ha. unfold absp. rewrite join_app by done. cbn [String.append String.length].
  rewrite !length_app_s. simpl. lia.
Qed.

Lemma owns_segs a b :
  Forall normal_seg a → Forall normal_seg b → a ≠ [] →
  owns (absp a) (absp b) = true ↔ ∃ k, b = a ++ k.
Proof. intros Ha Hb Hne. rewrite owns_true. by apply absp_prefix. Qed.

(** Resolution is by whole segments and picks the deepest mount. *)
Lemma resolve_segs mounts segs is_dir mp m rel :
  wf_mounts mounts → Forall normal_seg segs →
  resolve_path mounts (absp segs +:+ dir_suffix is_dir)%string = Some (mp, m, rel) ↔
  ∃ a b, segs = a ++ b ∧ a ≠ [] ∧ mp = absp a ∧ mounts !! absp a = Some m ∧
    (∀ a' b', segs = a' ++ b' → is_Some (mounts !! absp a') → length a' ≤ length a) ∧
    rel = (join "/" b +:+ (if bool_decide (b = []) then "" else dir_suffix is_dir))%string.
Proof.
  intros Hwf Hs. rewrite resolve_path_spec, normalize_absp by done. split.
  - intros (Hm & Ho & Hlong & ->). destruct (Hwf mp) as (a & Hne & Ha & ->); [eauto|].
    apply owns_segs in Ho as [b ->]; try done. exists a, b. split_and!; try done.
    + intros a' b' Hab Hm'. assert (Ha' : Forall normal_seg a').
      { rewrite Hab in Hs. by apply Forall_app in Hs as [? _]. }
      destruct (decide (a' = [])) as [->|Hne']; [simpl; lia|].
      destruct (decide (length a < length a')) as [Hlt|]; [|lia]. exfalso.
      assert (∃ k, a' = a ++ k ∧ k ≠ []) as (k & -> & Hk).
      { exists (drop (length a) a'). rewrite <-(take_drop (length a) a') at 1.
        apply (f_equal (take (length a))) in Hab. rewrite take_app_length, take_app_le in Hab by lia.
        rewrite <-Hab. split; [done|]. intros Hd. apply (f_equal length) in Hd.
        rewrite length_drop in Hd. simpl in Hd. lia. }
      pose proof (length_join_app a k Ha' Hk Hne).
      assert (String.length (absp (a ++ k)) ≤ String.length (absp a)); [|lia].
      apply Hlong; [done|]. apply owns_segs; [done|done|done|]. eauto.
    + by apply relative_to_segs.
  - intros (a & b & -> & Hne & -> & Hm & Hlong & ->).
    assert (Ha : Forall normal_seg a) by by apply Forall_app in Hs as [? _].
    split; [done|]. split; [apply owns_segs; eauto|]. split; [|symmetry; by apply relative_to_segs].
    intros mp' Hm' Ho'. destruct (Hwf mp' Hm') as (a' & Hne' & Ha' & ->).
    apply owns_segs in Ho' as [b' Hb']; try done.
    specialize (Hlong a' b' Hb' Hm').
    assert (∃ k, a = a' ++ k) as [k ->].
    { exists (drop (length a') a). rewrite <-(take_drop (length a') a) at 1.
      apply (f_equal (take (length a'))) in Hb'. rewrite take_app_length, take_app_le in Hb' by lia.
      by rewrite Hb'. }
    destruct (decide (k = [])) as [->|Hk]; [by rewrite app_nil_r|].
    pose proof (length_join_app a' k Ha Hk Hne'). lia.
Qed.

End ResolutionLemmas.

(** ** Lemmas: virtual directories *)

Section ChildrenLemmas.
Context {O : Type}.
Notation Mounts := (gmap string (Mount O)).
Implicit Types mounts : Mounts.

Lemma children_prefix_segs segs is_dir :
  Forall normal_seg segs →
  children_prefix (absp segs +:+ dir_suffix is_dir)%string =
    (if bool_decide (segs = []) then "/" else absp segs +:+ "/")%string.
Proof.
  intros H. unfold children_prefix. rewrite normalize_absp by done.
  destruct (decide (segs = [])) as [->|Hne]; [done|].
  rewrite (bool_decide_eq_false_2 (segs = [])) by done.
  assert (absp segs ≠ "/")%string.
  { intros [= Hj]. by apply (join_ne segs) in Hj. }
  rewrite bool_decide_eq_false_2 by done.
  assert (ends_with_char slash (absp segs) = false) as ->; [|done].
  unfold absp. cbn [String.append]. rewrite ends_with_char_cons by by apply join_ne. by apply join_tail.
Qed.

Lemma strip_dir segs k :
  Forall normal_seg segs → Forall normal_seg k → k ≠ [] →
  ∀ r, strip_prefix (if bool_decide (segs = []) then "/" else absp segs +:+ "/")%string (absp k) = Some r →
  r ≠ ""%string → k = segs ++ split slash r.
Proof.
  intros Hs Hk Hne r. rewrite strip_prefix_Some. intros Hr Hr0.
  destruct (decide (segs = [])) as [->|Hse].
  - rewrite bool_decide_eq_true_2 in Hr by done. injection Hr as Hr.
    by rewrite <-Hr, split_join_segs.
  - rewrite bool_decide_eq_false_2 in Hr by done. unfold absp in Hr. injection Hr as Hr.
    rewrite app_assoc_s in Hr. rewrite <-(split_join_segs k), Hr by done. cbn [String.append].
    by rewrite split_app_sep, split_join_segs.
Qed.

(** The next segment of a mount below a directory. *)
Lemma child_of_segs segs k name :
  Forall normal_seg segs → Forall normal_seg k → k ≠ [] →
  child_of (if bool_decide (segs = []) then "/" else absp segs +:+ "/")%string (absp k) = Some name ↔
  ∃ rest, k = segs ++ name :: rest.
Proof.
  intros Hs Hk Hne. unfold child_of. split.
  - destruct (strip_prefix _ _) as [r|] eqn:E; simpl; [|done].
    destruct (decide (r = ""%string)) as [->|Hr]; [done|]. rewrite bool_decide_eq_false_2 by done.
    apply strip_dir in E; try done.
    pose proof (split_ne slash r). destruct (split slash r) as [|x l]; [done|]. simpl.
    case_bool_decide; [done|]. intros [= <-]. eauto.
  - intros [rest ->]. apply Forall_app in Hk as [_ Hk].
    assert (normal_seg name) as Hname by by inversion Hk.
    assert (E : strip_prefix (if bool_decide (segs = []) then "/" else absp segs +:+ "/")%string
                  (absp (segs ++ name :: rest)) = Some (join "/" (name :: rest))).
    { apply strip_prefix_Some. destruct (decide (segs = [])) as [->|Hse]; [done|].
      rewrite bool_decide_eq_false_2 by done. unfold absp. rewrite join_app by done.
      by rewrite !app_assoc_s. }
    rewrite E. cbn -[RustStr.join split]. rewrite bool_decide_eq_false_2 by by apply join_ne.
    rewrite split_join_segs by done. simpl.
    rewrite bool_decide_eq_false_2; [done|]. by destruct Hname.
Qed.

Lemma children_set_segs mounts segs is_dir name :
  wf_mounts mounts → Forall normal_seg segs →
  name ∈ children_set mounts (children_prefix (absp segs +:+ dir_suffix is_dir)%string) ↔
  ∃ rest, Forall normal_seg (name :: rest) ∧ is_Some (mounts !! absp (segs ++ name :: rest)).
Proof.
  intros Hwf Hs. rewrite children_prefix_segs by done. unfold children_set.
  rewrite elem_of_list_to_set, list_elem_of_omap. split.
  - intros (mp & Hin & Hc). apply list_elem_of_fmap in Hin as ([mp' m] & -> & Hm). simpl in Hc.
    apply elem_of_map_to_list in Hm. destruct (Hwf mp') as (k & Hne & Hk & ->); [eauto|].
    apply child_of_segs in Hc as [rest ->]; try done. exists rest. split; [|by eexists].
    by apply Forall_app in Hk as [_ ?].
  - intros (rest & Hn & m & Hm). exists (absp (segs ++ name :: rest)). split.
    + apply list_elem_of_fmap. exists (absp (segs ++ name :: rest), m). split; [done|].
      by apply elem_of_map_to_list.
    + apply child_of_segs; [done|by apply Forall_app|by destruct segs|eauto].
Qed.

End ChildrenLemmas.

(** ** Lemmas: building and listing *)

Section OperationLemmas.
Context {O W : Type} `{OperatorApi O W}.
Notation Mounts := (gmap string (Mount O)).
Implicit Types (mounts : Mounts) (w : W).

Definition built (m : PendingMount) : string * Mount O :=
  (pm_path m, {| operator := layered m; read_only := pm_read_only m |}).

Lemma build_from_ok pending mounts0 mounts :
  build_from pending mounts0 = Ok mounts ↔
  (∀ m, m ∈ pending → pm_path m ≠ "/"%string ∧ mounts0 !! pm_path m = None) ∧
  NoDup (map pm_path pending) ∧
  mounts = list_to_map (map built pending) ∪ mounts0.
Proof.
  revert mounts0; induction pending as [|m pending IH]; intros mounts0; simpl.
  { rewrite (left_id_L ∅ (∪)). split; [|by intros (_ & _ & ->)].
    intros [= <-]. split; [by intros ? ?%elem_of_nil|]. split; [constructor|done]. }
  unfold build_step. rewrite NoDup_cons.
  assert (Hunion : ∀ x, list_to_map (M := Mounts) (map built pending) !! pm_path m = None →
    list_to_map (M := Mounts) (map built pending) ∪ <[pm_path m := x]> mounts0
    = <[pm_path m := x]> (list_to_map (map built pending)) ∪ mounts0).
  { intros x Hx. rewrite <-insert_union_l. symmetry. by apply insert_union_r. }
  assert (Hfresh : pm_path m ∉ map pm_path pending →
    list_to_map (M := Mounts) (map built pending) !! pm_path m = None).
  { intros Hn. apply not_elem_of_list_to_map_1. rewrite <-list_fmap_compose. exact Hn. }
  case_bool_decide as Hroot; simpl.
  { split; [done|]. intros (Hp & _). by destruct (Hp m ltac:(by left)). }
  destruct (mounts0 !! pm_path m) as [x|] eqn:E; simpl.
  { split; [done|]. intros (Hp & _). destruct (Hp m ltac:(by left)). congruence. }
  rewrite IH. split.
  - intros (Hp & Hnd & ->).
    assert (Hn : pm_path m ∉ map pm_path pending).
    { intros Hin. apply list_elem_of_fmap in Hin as (m' & Heq & Hm').
      destruct (Hp m' Hm') as [_ Hx]. rewrite Heq in Hx. by rewrite lookup_insert_eq in Hx. }
    split; [|split; [done|by apply Hunion, Hfresh]].
    intros m' [->|Hm']%elem_of_cons; [done|]. destruct (Hp m' Hm') as [? Hx]. split; [done|].
    apply lookup_insert_None in Hx as [? _]. done.
  - intros (Hp & [Hn Hnd] & ->). split; [|split; [done|symmetry; by apply Hunion, Hfresh]].
    intros m' Hm'. destruct (Hp m' ltac:(by right)) as [? Hx]. split; [done|].
    rewrite lookup_insert_ne; [done|]. intros Heq. apply Hn. rewrite Heq.
    apply list_elem_of_fmap. eauto.
Qed.

(** Reading a lister to its end, [n] calls at most. *)
Fixpoint drain (n : nat) (l : MountLister) w : list (result DalError (string * Meta)) :=
  match n with
  | 0 => []
  | S n =>
      match lister_next l w with
      | (Ok None, _) => []
      | (Ok (Some e), (l, w)) => Ok e :: drain n l w
      | (Err e, (l, w)) => Err e :: drain n l w
      end
  end.

(** What a caller sees of a backend's stream. *)
Definition shown (rel mount_path : string) (e : result DalError (string * Meta))
    : option (result DalError (string * Meta)) :=
  match e with
  | Err e => Some (Err e)
  | Ok (path, md) =>
      if bool_decide (trim_matches slash path = trim_matches slash rel) then None
      else Some (Ok (rebase mount_path path, md))
  end.

Lemma drain_real op rel mp stream w n :
  length stream < n → drain n (Real op rel mp (Some stream)) w = omap (shown rel mp) stream.
Proof.
  remember (length stream) as k eqn:Hk. assert (length stream ≤ k) as Hle by lia. clear Hk.
  revert n stream w Hle; induction k as [|k IH]; intros n stream w Hle Hn.
  { destruct stream; [|simpl in Hle; lia]. by destruct n. }
  destruct n as [|n]; [lia|]. simpl.
  assert (Hskip : ∀ s, length s ≤ length stream →
    (let '(r, rest) := next_entry rel mp s in
     match r with
     | Ok None => []
     | Ok (Some e) => Ok e :: drain n (Real op rel mp (Some rest)) w
     | Err e => Err e :: drain n (Real op rel mp (Some rest)) w
     end) = omap (shown rel mp) s).
  { induction s as [|[[path md]|e] s IHs]; intros Hs; [done|..]; simpl in Hs |- *.
    - case_bool_decide; [apply IHs; lia|]. rewrite IH; [done|lia|lia].
    - rewrite IH; [done|lia|lia]. }
  specialize (Hskip stream ltac:(lia)). destruct (next_entry rel mp stream) as [[[e|]|e] rest]; done.
Qed.

Lemma drain_virtual (entries : list (string * Meta)) w n :
  length entries < n → drain n (Virtual entries) w = map Ok (rev entries).
Proof.
  revert n; induction entries as [|e entries IH] using rev_ind; intros n Hn; destruct n as [|n]; try lia; [done|].
  simpl. rewrite last_snoc, removelast_last, rev_app_distr. simpl. rewrite IH; [done|].
  rewrite length_app in Hn. simpl in Hn. lia.
Qed.

Lemma rebase_segs a b is_dir :
  Forall normal_seg a → Forall normal_seg b → a ≠ [] → b ≠ [] →
  rebase (absp a) (join "/" b +:+ dir_suffix is_dir)%string = (absp (a ++ b) +:+ dir_suffix is_dir)%string.
Proof.
  intros Ha Hb Hna Hnb. unfold rebase.
  rewrite trim_end_id; [|unfold absp; cbn [String.append]; rewrite ends_with_char_cons by
    (by apply join_ne); by apply join_tail].
  rewrite trim_start_id.
  - unfold absp. rewrite join_app by done. by rewrite !app_assoc_s.
  - intros s' Hs. pose proof (join_start b Hb) as Hj.
    destruct (join "/" b) as [|c r] eqn:E; [by apply join_ne in E|].
    injection Hs as -> _. pose proof (proj2 (starts_with_slash (String slash r)) ltac:(eauto)).
    unfold slash in *. congruence.
Qed.

End OperationLemmas.

(** ** Properties *)

Section Properties.
Context {O W : Type} `{OperatorApi O W}.
Notation Mounts := (gmap string (Mount O)).
Implicit Types (mounts : Mounts) (w : W).

(** C22. Resolution is by whole path segments and picks the deepest mount: a path
    (with or without a trailing slash) resolves to a mount exactly when the mount's
    segments are the longest mounted prefix of its own, and the relative path is
    the remaining segments, keeping the trailing slash unless nothing remains. In
    particular a mount never captures a sibling whose name merely starts like its
    own. *)
Theorem resolution_picks_deepest_mount mounts segs is_dir mp m rel :
  wf_mounts mounts → Forall normal_seg segs →
  resolve_path mounts (absp segs +:+ dir_suffix is_dir)%string = Some (mp, m, rel) ↔
  ∃ a b, segs = a ++ b ∧ a ≠ [] ∧ mp = absp a ∧ mounts !! absp a = Some m ∧
    (∀ a' b', segs = a' ++ b' → is_Some (mounts !! absp a') → length a' ≤ length a) ∧
    rel = (join "/" b +:+ (if bool_decide (b = []) then "" else dir_suffix is_dir))%string.
Proof. apply resolve_segs. Qed.

(** A table is built exactly from distinct paths other than the root, and then
    holds every pending mount under its path with the quota layer below the
    read-only layer, as configured; otherwise building fails. *)
Theorem build_succeeds_iff_distinct (pending : VfsBuilder) mounts :
  build pending = Ok mounts ↔
  (∀ m, m ∈ pending → pm_path m ≠ "/"%string) ∧ NoDup (map pm_path pending) ∧
  mounts = list_to_map (map built pending).
Proof.
  unfold build. rewrite build_from_ok, (right_id_L ∅ (∪)). split.
  - intros (Hp & Hnd & ->). split; [|done]. intros m Hm. by apply Hp.
  - intros (Hp & Hnd & ->). split; [|done]. intros m Hm. split; [by apply Hp|apply lookup_empty].
Qed.

(** The ancestors of mounts are browsable: the names listed in a directory that
    no mount owns are exactly the next segments of the mounts below it, sorted and
    without duplicates, and the directory exists exactly when it is the root or has
    a mount below. *)
Theorem virtual_children_are_next_segments mounts segs is_dir :
  wf_mounts mounts → Forall normal_seg segs →
  let below name := ∃ rest, Forall normal_seg (name :: rest) ∧
                            is_Some (mounts !! absp (segs ++ name :: rest)) in
  match virtual_children mounts (absp segs +:+ dir_suffix is_dir)%string with
  | Some names => Sorted String.le names ∧ NoDup names ∧ (∀ name, name ∈ names ↔ below name)
  | None => segs ≠ [] ∧ ∀ name, ¬ below name
  end.
Proof.
  intros Hwf Hs below. unfold virtual_children.
  set (p := children_prefix _). set (cs := children_set mounts p).
  assert (Hcs : ∀ name, name ∈ cs ↔ below name) by (intros; by apply children_set_segs).
  assert (Hp : p = "/"%string ↔ segs = []).
  { unfold p. rewrite children_prefix_segs by done. case_bool_decide as He; [done|].
    split; [|done]. intros Hx. exfalso. unfold absp in Hx. injection Hx as Hx.
    by apply app_eq_empty in Hx as [_ ?]. }
  destruct (bool_decide (cs = ∅) && negb (bool_decide (p = "/"%string))) eqn:E.
  - apply andb_true_iff in E as [E1%bool_decide_eq_true E2%negb_true_iff%bool_decide_eq_false].
    split; [by rewrite <-Hp|]. intros name. rewrite <-Hcs, E1. apply not_elem_of_empty.
  - split; [apply Sorted_merge_sort; apply _|]. split.
    + rewrite merge_sort_Permutation. apply NoDup_elements.
    + intros name. rewrite merge_sort_Permutation, elem_of_elements. apply Hcs.
Qed.

(** What a listing shows can be opened: an entry the mounted operator reports
    below the mount (a relative path of proper segments, with the trailing slash of
    a directory) is shown under a path that resolves back to the same mount and the
    same relative path, unless a deeper mount covers it. *)
Theorem listed_entries_resolve_back mounts a b m is_dir :
  wf_mounts mounts → Forall normal_seg a → Forall normal_seg b → a ≠ [] → b ≠ [] →
  mounts !! absp a = Some m →
  (∀ a' b', a ++ b = a' ++ b' → is_Some (mounts !! absp a') → length a' ≤ length a) →
  let e := (join "/" b +:+ dir_suffix is_dir)%string in
  resolve_path mounts (rebase (absp a) e) = Some (absp a, m, e).
Proof.
  intros Hwf Ha Hb Hna Hnb Hm Hdeep e. unfold e. rewrite rebase_segs by done.
  apply resolve_segs; [done|by apply Forall_app|]. exists a, b. split_and!; try done.
  by rewrite bool_decide_eq_false_2.
Qed.

(** Listing a mount shows the backend's stream, entry by entry and error by
    error, in order, rebased on the mount and without the directory itself, and
    listing a virtual directory shows its children; both end. *)
Theorem listing_is_complete mounts path l w :
  access_list mounts path w = (Ok l, w) →
  match resolve_path mounts path with
  | Some (mp, m, rel) =>
      ∀ stream w' n, op_lister (operator m) rel w = (Ok stream, w') → length stream < n →
        drain n l w = omap (shown rel mp) stream
  | None =>
      ∃ names, virtual_children mounts path = Some names ∧
        ∀ n, length names < n →
          drain n l w = map Ok (rev (map (virtual_entry (normalize path)) names))
  end.
Proof.
  unfold access_list. destruct (resolve_path mounts path) as [[[mp m] rel]|].
  - intros [= <-] stream w' n Hop Hn. rewrite <-(drain_real (operator m) rel mp stream w') with (n := n) by done.
    destruct n as [|n]; [done|]. simpl. by rewrite Hop.
  - destruct (virtual_children mounts path) as [names|]; [|done]. intros [= <-].
    exists names. split; [done|]. intros n Hn. apply drain_virtual. by rewrite length_map.
Qed.

(** C29. A read-only mount cannot be changed through the table: creating a directory,
    writing, deleting, copying to it and renaming from or to it are refused with
    [PermissionDenied] before any operator is called, whatever the mounted operator
    would do; and a path no mount owns can be neither created nor changed. *)
Theorem read_only_mounts_are_immutable mounts path w :
  (∀ mp m rel, resolve_path mounts path = Some (mp, m, rel) → read_only m = true →
     access_create_dir mounts path w = (Err mount_is_read_only, w) ∧
     access_write mounts path w = (Err mount_is_read_only, w) ∧
     mount_deleter_delete mounts path w = (Err mount_is_read_only, w) ∧
     ∀ other, is_Some (resolve_path mounts other) →
       access_copy mounts other path w = (Err mount_is_read_only, w) ∧
       access_rename mounts other path w = (Err mount_is_read_only, w) ∧
       access_rename mounts path other w = (Err mount_is_read_only, w)) ∧
  (resolve_path mounts path = None →
     access_create_dir mounts path w = (Err path_not_found, w) ∧
     access_write mounts path w = (Err path_not_found, w) ∧
     access_read mounts path w = (Err path_not_found, w) ∧
     mount_deleter_delete mounts path w = (Err path_not_found, w) ∧
     ∀ other, access_copy mounts path other w = (Err path_not_found, w) ∧
              access_rename mounts path other w = (Err path_not_found, w)).
Proof.
  unfold access_create_dir, access_write, access_read, mount_deleter_delete, access_copy, access_rename,
    resolved, refuse_if, lift, mbind, M_bind.
  split.
  - intros mp m rel -> Hro. simpl. rewrite Hro. split_and!; try done.
    intros other [[[mp' m'] rel'] ->]. simpl. by rewrite orb_true_r.
  - intros ->. simpl. done.
Qed.

(** A ranged read never asks the operator for bytes past the end of the object:
    at or after the end nothing is read, before it the range is non-empty and ends
    where it was asked to or at the end of the object. *)
Theorem reads_are_clamped (h : MountHandle) (offset size : N) w :
  (offset + size ≤ U64_MAX)%N → (0 < size)%N →
  ((mh_content_length h ≤ offset)%N → reader_read_at h offset size w = (Ok ""%string, w)) ∧
  ((offset < mh_content_length h)%N → ∃ stop,
     reader_read_at h offset size w = reader_read (mh_reader h) offset stop w ∧
     (offset < stop ∧ stop ≤ mh_content_length h ∧
      (stop = offset + size ∨ stop = mh_content_length h))%N).
Proof.
  intros Hov Hs. unfold reader_read_at. split.
  - intros Hle. by rewrite (proj2 (N.leb_le _ _) Hle).
  - intros Hlt. rewrite (proj2 (N.leb_gt _ _) Hlt). eexists. split; [done|].
    unfold wrapping_add. rewrite N.mod_small by lia. lia.
Qed.

End Properties.

(** ** Concrete runs *)

(** An operator over a shared store of objects, keyed by the operator's name. *)
Module DemoOp.

Record op := { name : string; layers : list string }.
Definition store : Type := gmap (string * string) string.
Definition absent : DalError := dal_error Kind.NotFound "no such object".

#[export] Instance demo_api : OperatorApi op store := {|
  Meta := N; meta_length n := n; dir_meta := 0%N; OpWriter := string * string; OpReader := string;
  with_quota l o := {| name := name o; layers := "quota"%string :: layers o |};
  with_read_only o := {| name := name o; layers := "read-only"%string :: layers o |};
  can_copy _ := false; can_rename _ := false;
  op_stat o p := λ w, (ok_or absent (blen <$> w !! (name o, p)), w);
  op_read o p := λ w, (ok_or absent (w !! (name o, p)), w);
  op_write o p d := modify (insert (name o, p) d);
  op_delete o p := modify (delete (name o, p));
  op_create_dir _ _ := mret ();
  op_copy _ _ _ := throw absent;
  op_rename _ _ _ := throw absent;
  op_lister o p := λ w, (Ok (omap (λ e, if bool_decide (e.1.1 = name o) && starts_with p e.1.2
                                        then Some (Ok (e.1.2, blen e.2)) else None) (map_to_list w)), w);
  op_writer o p := mret (name o, p);
  writer_push bs i := λ w, (Ok (), (i, <[i := (opt_or "" (w !! i) +:+ bs)%string]> w));
  writer_finish i := λ w, (Ok (opt_or 0%N (blen <$> w !! i)), (i, w));
  writer_cancel i := λ w, (Ok (), (i, delete i w));
  op_reader o p := λ w, (ok_or absent (w !! (name o, p)), w);
  reader_read d from to := λ w, (Ok (String.substring (N.to_nat from) (N.to_nat (to - from)) d), w);
|}.

Definition plain (n : string) : op := {| name := n; layers := [] |}.
Definition table : gmap string (Mount op) :=
  match build (builder_quota "q" 10 (builder_read_only (builder_mount "/scratch/" (plain "s")
          (builder_mount "repos/test/deep" (plain "d") (builder_mount "/repos/test" (plain "t") []))))) with
  | Ok t => t | Err _ => ∅ end.
Definition objects : store :=
  {[("t", "a/b.txt") := "hello"; ("t", "a/") := ""; ("d", "x") := "deep"]}%string.

End DemoOp.
Import DemoOp.
Open Scope string_scope.

Example demo_table :
  layers <$> (operator <$> table !! "/scratch") = Some ["read-only"; "quota"]%list ∧
  (λ r, (r.1.1, name (operator r.1.2), r.2)) <$> resolve_path table "/repos/test/deep/x/"
    = Some ("/repos/test/deep", "d", "x/") ∧
  resolve_path table "/repos/testing" = None ∧
  virtual_children table "/" = Some ["repos"; "scratch"]%list ∧
  virtual_children table "/elsewhere" = None.
Proof. by vm_compute. Qed.

Lemma table_wf : wf_mounts table.
Proof.
  assert (Hall : map_Forall (λ mp _, ∃ segs, segs ≠ [] ∧ Forall normal_seg segs ∧ mp = absp segs) table).
  { apply map_Forall_to_list.
    assert (map_to_list table = map_to_list table) as _ by done.
    assert (Hk : Forall (λ mp, mp ∈ ["/repos/test"; "/repos/test/deep"; "/scratch"]%list)
                   (map fst (map_to_list table))).
    { apply (bool_decide_unpack _). by vm_compute. }
    apply Forall_fmap in Hk. eapply Forall_impl; [exact Hk|]. intros [mp m] Hin. simpl in *.
    repeat rewrite elem_of_cons in Hin.
    destruct Hin as [->|[->|[->|Hin]]]; [| | |by apply elem_of_nil in Hin];
      [exists ["repos"; "test"]%list|exists ["repos"; "test"; "deep"]%list|exists ["scratch"]%list];
      (split; [done|split; [apply (bool_decide_unpack _); by vm_compute|done]]). }
  intros mp [m Hm]. by eapply (map_Forall_lookup_1 _ _ _ _ Hall).
Qed.

Ltac by_decide := apply (bool_decide_unpack _); by vm_compute.

Lemma resolution_picks_deepest_mount_witness :
  ∃ m, resolve_path table "/repos/test/a/b.txt" = Some ("/repos/test", m, "a/b.txt") ∧
    ∃ a b, ["repos"; "test"; "a"; "b.txt"]%list = (a ++ b)%list ∧ "/repos/test" = absp a.
Proof.
  eexists. split; [by vm_compute|].
  destruct (proj1 (resolution_picks_deepest_mount table ["repos"; "test"; "a"; "b.txt"]%list false
    "/repos/test" {| operator := plain "t"; read_only := false |} "a/b.txt" table_wf ltac:(by_decide))
    ltac:(by vm_compute)) as (a & b & Hab & _ & Ha & _). eauto.
Defined.

Lemma build_succeeds_iff_distinct_witness :
  build (builder_mount "/a/" (plain "x") (builder_mount "a" (plain "y") [])) ≠ Ok (∅ : gmap string (Mount op)).
Proof.
  intros Hb. destruct (proj1 (build_succeeds_iff_distinct _ _) Hb) as (_ & Hnd & _).
  inversion Hnd as [|? ? Hn _]; subst. apply Hn. by left.
Defined.

Lemma virtual_children_are_next_segments_witness :
  match virtual_children table "/repos/" with
  | Some names => Sorted String.le names ∧ NoDup names
  | None => False
  end.
Proof.
  pose proof (virtual_children_are_next_segments table ["repos"]%list true table_wf ltac:(by_decide)) as H.
  change (absp ["repos"]%list +:+ dir_suffix true) with "/repos/" in H.
  assert (E : virtual_children table "/repos/" = Some ["test"]%list) by by vm_compute.
  rewrite E in *. destruct H as (H1 & H2 & _). by split.
Defined.

Lemma listed_entries_resolve_back_witness :
  ∃ m, resolve_path table (rebase "/repos/test" "a/b.txt") = Some ("/repos/test", m, "a/b.txt").
Proof.
  eexists. refine (listed_entries_resolve_back table ["repos"; "test"]%list ["a"; "b.txt"]%list _ false
    table_wf ltac:(by_decide) ltac:(by_decide) ltac:(done) ltac:(done) _ _).
  - by vm_compute.
  - intros a' b' Hab Hm. destruct a' as [|x0 [|x1 [|x2 [|x3 [|x4 a']]]]]; simpl in *; try lia;
      injection Hab as <- <- Hab; simplify_eq/=; exfalso; vm_compute in Hm; by destruct Hm.
Defined.

Definition demo_listing : MountLister := Real (plain "t") "a/" "/repos/test" None.

Definition demo_stream : list (result DalError (string * Meta (O:=op) (W:=store))) :=
  [Ok ("a/b.txt", 5%N : Meta (O:=op) (W:=store)); Ok ("a/", 0%N : Meta (O:=op) (W:=store))]%list.

Lemma listing_is_complete_witness :
  drain 5 demo_listing objects = [Ok ("/repos/test/a/b.txt", 5%N)]%list.
Proof.
  assert (Hl : access_list table "/repos/test/a/" objects = (Ok demo_listing, objects)).
  { vm_cast_no_check (eq_refl (access_list table "/repos/test/a/" objects)). }
  pose proof (listing_is_complete (O:=op) (W:=store) (H:=demo_api) table "/repos/test/a/"
    demo_listing objects Hl) as H.
  assert (E : resolve_path table "/repos/test/a/" =
    Some ("/repos/test", {| operator := plain "t"; read_only := false |}, "a/")) by by vm_compute.
  rewrite E in H.
  assert (Hs : op_lister (plain "t") "a/" objects = (Ok demo_stream, objects)).
  { vm_cast_no_check (eq_refl (op_lister (plain "t") "a/" objects)). }
  assert (Hn : length demo_stream < 5) by (apply Nat.ltb_lt; reflexivity).
  specialize (H demo_stream objects 5 Hs Hn). etrans; [exact H|reflexivity].
Defined.

Lemma read_only_mounts_are_immutable_witness :
  access_create_dir table "/scratch/new/" objects = (Err mount_is_read_only, objects).
Proof.
  destruct (read_only_mounts_are_immutable table "/scratch/new/" objects) as [H _].
  destruct (resolve_path table "/scratch/new/") as [[[mp m] rel]|] eqn:E; [|by vm_compute in E].
  apply (H mp m rel); [done|]. vm_compute in E. by simplify_eq.
Defined.

Definition demo_handle : MountHandle (O:=op) (W:=store) :=
  {| mh_reader := "hello" : OpReader (O:=op) (W:=store); mh_content_length := 5 |}.
Lemma reads_are_clamped_witness : reader_read_at demo_handle 3 100 objects = (Ok "lo", objects).
Proof.
  destruct (reads_are_clamped demo_handle 3 100 objects ltac:(by vm_compute) ltac:(done)) as [_ H].
  destruct (H ltac:(done)) as (stop & _). reflexivity.
Defined.
