(* ===== verification/OneTree.v ===== *)
(** * The mount table as one tree of files

    What a client of [MountAccess] works on is one tree, from absolute paths to contents:
    the files of every mount under the path of the mount, less what deeper mounts cover.
    [Tree] is that specification, in which a move is a move and a copy is a copy; here it
    is proved that the table implements it over any operators, for writes that are
    streamed through [MountWriter], reads through [MountReader], and copies and renames
    that are native or emulated, within a mount or across two, whatever fails. *)

From S2P Require Import Prelude.
From S2P Require Import RustStr.
From S2P Require Import Errors.
From S2P Require Import Paths.
From S2P Require Import QuotaLayer.
From S2P Require Import Service.
From S2P Require Import Mounts.
From stdpp Require Import options.
Close Scope string_scope.

(** ** Operators that hold files *)

(** Documented behaviour of operators, in terms of the files they hold at locations. A path
    of an operator names one location, and the empty path, its root, is never a file.
    Probing, reading and creating directories change no file; what writes works on its
    destination only, and a success has done what it says; a rename that fails has changed
    nothing, a deletion that fails may still have happened. *)
Class DriveLaws (O W : Type) `{OperatorApi O W} := {
  Loc : Type;
  loc : O → string → Loc;
  files : W → Loc → option string;
  w_loc : OpWriter → Loc;
  w_data : OpWriter → string;
  r_loc : OpReader → Loc;
  loc_inj o p q : loc o p = loc o q → p = q;
  root_law o w : files w (loc o "") = None;
  stat_law o p w r w' : op_stat o p w = (r, w') → (∀ l, files w' l = files w l) ∧
    match r with
    | Ok m => ∀ c, files w (loc o p) = Some c → meta_length m = blen c
    | Err e => err_kind e = Kind.NotFound → files w (loc o p) = None
    end;
  read_law o p w r w' : op_read o p w = (r, w') → (∀ l, files w' l = files w l) ∧
    ∀ c, r = Ok c → files w (loc o p) = Some c;
  write_law o p c w r w' : op_write o p c w = (r, w') →
    (∀ l, l ≠ loc o p → files w' l = files w l) ∧ (is_ok r = true → files w' (loc o p) = Some c);
  delete_law o p w r w' : op_delete o p w = (r, w') →
    (∀ l, l ≠ loc o p → files w' l = files w l) ∧
    (is_ok r = true → files w' (loc o p) = None) ∧
    (files w' (loc o p) = files w (loc o p) ∨ files w' (loc o p) = None);
  create_dir_law o p w r w' : op_create_dir o p w = (r, w') → ∀ l, files w' l = files w l;
  copy_law o p q w r w' : op_copy o p q w = (r, w') →
    (∀ l, l ≠ loc o q → files w' l = files w l) ∧
    (is_ok r = true → is_Some (files w (loc o p)) ∧ files w' (loc o q) = files w (loc o p));
  rename_law o p q w r w' : op_rename o p q w = (r, w') → p ≠ q →
    match r with
    | Ok _ => (∀ l, l ≠ loc o p → l ≠ loc o q → files w' l = files w l) ∧
        is_Some (files w (loc o p)) ∧ files w' (loc o q) = files w (loc o p) ∧ files w' (loc o p) = None
    | Err _ => ∀ l, files w' l = files w l
    end;
  writer_law o p w r w' : op_writer o p w = (r, w') →
    (∀ l, l ≠ loc o p → files w' l = files w l) ∧ ∀ i, r = Ok i → w_loc i = loc o p ∧ w_data i = ""%string;
  push_law i bs w r i' w' : writer_push bs i w = (r, (i', w')) →
    (∀ l, l ≠ w_loc i → files w' l = files w l) ∧ w_loc i' = w_loc i ∧
    (is_ok r = true → w_data i' = (w_data i +:+ bs)%string);
  finish_law i w r i' w' : writer_finish i w = (r, (i', w')) →
    (∀ l, l ≠ w_loc i → files w' l = files w l) ∧ (is_ok r = true → files w' (w_loc i) = Some (w_data i)) ∧
    w_loc i' = w_loc i;
  cancel_law i w r i' w' : writer_cancel i w = (r, (i', w')) →
    (∀ l, l ≠ w_loc i → files w' l = files w l) ∧ w_loc i' = w_loc i;
  reader_law o p w r w' : op_reader o p w = (r, w') →
    (∀ l, files w' l = files w l) ∧ ∀ i, r = Ok i → r_loc i = loc o p;
  reader_read_law i a b w r w' : reader_read i a b w = (r, w') → (∀ l, files w' l = files w l) ∧
    ∀ d, r = Ok d → ∃ c, files w (r_loc i) = Some c ∧ ((a ≤ b ≤ blen c)%N → d = slice a (b - a) c);
}.

(** ** What a client asks of the table *)

(** A path is given by its segments. *)
Notation path := (list string).
Inductive request :=
| Put (p : path) (chunks : list string)
| Get (p : path) (offset size : N)
| Length (p : path)
| MakeDir (p : path)
| Remove (p : path)
| Duplicate (from to : path)
| Move (from to : path).
Inductive answer := Done | Bytes (d : string) | HasLength (n : N).

Section Client.
Context {O W : Type} `{OperatorApi O W}.
Implicit Types (mounts : gmap string (Mount O)) (w : W).

(** Work with a handle that is dropped afterwards. *)
Definition with_writer {A} (open : M W DalError MountWriter) (body : M (MountWriter * W) DalError A) : M W DalError A :=
  λ w, match open w with
       | (Err e, w) => (Err e, w)
       | (Ok h, w) => let '(r, (_, w)) := body (h, w) in (r, w)
       end.
Fixpoint push_all (chunks : list string) : M (MountWriter * W) DalError () :=
  match chunks with
  | [] => mret ()
  | bs :: chunks => _ ← mount_writer_write bs; push_all chunks
  end.
(** Stream a file, and abort when a chunk is refused. *)
Definition stream (chunks : list string) : M (MountWriter * W) DalError Meta :=
  pushed ← attempt (push_all chunks);
  match pushed with
  | Ok _ => mount_writer_close
  | Err e => _ ← attempt (E := DalError) mount_writer_abort; throw e
  end.
(** Open a reader and read one range. *)
Definition fetch (r : MountReader) (offset size : N) : M W DalError string := λ w,
  match reader_open r w with
  | (Err e, (_, w)) => (Err e, w)
  | (Ok h, (_, w)) => reader_read_at h offset size w
  end.

Definition perform mounts (q : request) : M W DalError answer :=
  match q with
  | Put p chunks => _ ← with_writer (access_write mounts (absp p)) (stream chunks); mret Done
  | Get p offset size => r ← access_read mounts (absp p); d ← fetch r offset size; mret (Bytes d)
  | Length p => m ← access_stat mounts (absp p); mret (HasLength (meta_length m))
  | MakeDir p => _ ← access_create_dir mounts (absp p); mret Done
  | Remove p => _ ← mount_deleter_delete mounts (absp p); _ ← mount_deleter_close; mret Done
  | Duplicate from to => job ← access_copy mounts (absp from) (absp to); _ ← job; mret Done
  | Move from to => _ ← access_rename mounts (absp from) (absp to); mret Done
  end.

Fixpoint perform_all mounts (qs : list request) w : list (request * result DalError answer) * W :=
  match qs with
  | [] => ([], w)
  | q :: qs =>
      let '(r, w) := perform mounts q w in
      let '(tr, w) := perform_all mounts qs w in ((q, r) :: tr, w)
  end.

End Client.

(** ** The specification *)

Definition Tree : Type := path → option string.
Implicit Types t : Tree.

(** [t'] is [t] but for [ps]. *)
Definition but (ps : list path) t t' : Prop := ∀ p, Forall normal_seg p → p ∉ ps → t' p = t p.
(** The paths a request may change. *)
Definition targets (q : request) : list path :=
  match q with
  | Put p _ | Remove p => [p]
  | Duplicate _ to => [to]
  | Move from to => [from; to]
  | _ => []
  end.
(** What a request has done when it was answered. *)
Definition fulfilled t (q : request) (a : answer) t' : Prop :=
  match q, a with
  | Put p chunks, Done => t' p = Some (String.concat "" chunks)
  | Get p offset size, Bytes d => ∀ c, t p = Some c → d = slice offset size c
  | Length p, HasLength n => ∀ c, t p = Some c → n = blen c
  | MakeDir _, Done => True
  | Remove p, Done => t' p = None
  | Duplicate from to, Done => is_Some (t from) ∧ t' to = t from
  | Move from to, Done => is_Some (t from) ∧ t' to = t from ∧ t' from = None
  | _, _ => False
  end.
(** What it may have done when it failed. *)
Definition failed t (q : request) t' : Prop :=
  match q with
  | Remove p => t' p = t p ∨ t' p = None
  | Move from to => ∀ c, t from = Some c → t' from = Some c ∨ t' to = Some c
  | _ => True
  end.
(** [fixed] are the paths on read-only mounts, [nowhere] those on no mount. *)
Inductive tree_step (fixed nowhere : path → Prop) t (q : request) : result DalError answer → Tree → Prop :=
| step_done a t' :
    but (targets q) t t' → fulfilled t q a t' → (∀ p, p ∈ targets q → ¬ fixed p ∧ ¬ nowhere p) →
    tree_step fixed nowhere t q (Ok a) t'
| step_failed e t' :
    but (targets q) t t' → failed t q t' → (∀ p, p ∈ targets q → fixed p ∨ nowhere p → but [] t t') →
    tree_step fixed nowhere t q (Err e) t'.
Inductive tree_run (fixed nowhere : path → Prop) t : list (request * result DalError answer) → Tree → Prop :=
| run_nil t' : but [] t t' → tree_run fixed nowhere t [] t'
| run_cons q r t1 tr t2 :
    tree_step fixed nowhere t q r t1 → tree_run fixed nowhere t1 tr t2 → tree_run fixed nowhere t ((q, r) :: tr) t2.

(** Paths of proper segments; a move has two. *)
Definition well_formed (q : request) : Prop :=
  match q with
  | Put p _ | Length p | MakeDir p | Remove p => Forall normal_seg p
  | Get p offset size => Forall normal_seg p ∧ (offset + size ≤ U64_MAX)%N
  | Duplicate from to => Forall normal_seg from ∧ Forall normal_seg to
  | Move from to => Forall normal_seg from ∧ Forall normal_seg to ∧ from ≠ to
  end.
#[export] Instance well_formed_dec q : Decision (well_formed q).
Proof. destruct q; apply _. Defined.

(** ** The tree of a table *)

Section Refinement.
Context {O W : Type} `{DriveLaws O W}.
Implicit Types (mounts : gmap string (Mount O)) (w : W).

Definition place mounts (p : path) : option Loc :=
  '(_, m, rel) ← resolve_path mounts (absp p); Some (loc (operator m) rel).
Definition tree mounts w : Tree := λ p, place mounts p ≫= files w.
Definition fixed mounts (p : path) : Prop :=
  ∃ mp m rel, resolve_path mounts (absp p) = Some (mp, m, rel) ∧ read_only m = true.
Definition nowhere mounts (p : path) : Prop := resolve_path mounts (absp p) = None.

(** Different mounts hold different files. *)
Definition separate mounts : Prop := ∀ mp m mp' m' p q,
  mounts !! mp = Some m → mounts !! mp' = Some m' → loc (operator m) p = loc (operator m') q → mp = mp'.

Lemma resolve_plain mounts p mp m rel :
  wf_mounts mounts → Forall normal_seg p → resolve_path mounts (absp p) = Some (mp, m, rel) →
  ∃ a b, p = a ++ b ∧ mp = absp a ∧ mounts !! mp = Some m ∧ rel = join "/" b.
Proof.
  intros Hwf Hp Hr. pose proof (resolve_segs mounts p false mp m rel Hwf Hp) as Hs.
  cbn [dir_suffix] in Hs. rewrite app_empty_r in Hs. apply Hs in Hr as (a & b & -> & _ & -> & Hm & _ & ->).
  exists a, b. split_and!; try done. case_bool_decide; by rewrite app_empty_r.
Qed.

Lemma same_place mounts p q mp m rel mp' m' rel' :
  wf_mounts mounts → separate mounts → Forall normal_seg p → Forall normal_seg q →
  resolve_path mounts (absp p) = Some (mp, m, rel) → resolve_path mounts (absp q) = Some (mp', m', rel') →
  loc (operator m) rel = loc (operator m') rel' → p = q.
Proof.
  intros Hwf Hsep Hp Hq (a & b & -> & Hma & Hm & ->)%resolve_plain (a' & b' & -> & Hma' & Hm' & ->)%resolve_plain Hl; try done.
  assert (mp = mp') as <- by eauto. rewrite Hm in Hm'. injection Hm' as <-. apply loc_inj in Hl.
  apply Forall_app in Hp as [Ha Hb], Hq as [Ha' Hb']. f_equal; apply absp_inj; try done; [congruence|].
  unfold absp. by rewrite Hl.
Qed.

(** What is the same at all locations but some is the same in the tree but at their paths. *)
Lemma tree_but mounts w w' ps :
  wf_mounts mounts → separate mounts → Forall (Forall normal_seg) ps →
  (∀ l, (∀ p, p ∈ ps → place mounts p ≠ Some l) → files w' l = files w l) →
  but ps (tree mounts w) (tree mounts w').
Proof.
  intros Hwf Hsep Hps Hl q Hq Hin. unfold tree. destruct (place mounts q) as [l|] eqn:El; [|done]. cbn.
  apply Hl. intros p Hp Hpl. rewrite Forall_forall in Hps. specialize (Hps p Hp).
  unfold place in *. destruct (resolve_path mounts (absp q)) as [[[mp m] rel]|] eqn:Eq; [|done].
  destruct (resolve_path mounts (absp p)) as [[[mp' m'] rel']|] eqn:Ep; [|done]. cbn in *.
  apply Hin. assert (p = q) as <- by (eapply same_place; try done; congruence). done.
Qed.
Lemma tree_same mounts w w' : (∀ l, files w' l = files w l) → but [] (tree mounts w) (tree mounts w').
Proof using Type. intros Hl q _ _. unfold tree. destruct (place mounts q); [apply Hl|done]. Qed.

Lemma tree_at mounts w p mp m rel :
  resolve_path mounts (absp p) = Some (mp, m, rel) → tree mounts w p = files w (loc (operator m) rel).
Proof using Type. intros E. unfold tree, place. by rewrite E. Qed.
Lemma place_at mounts p mp m rel :
  resolve_path mounts (absp p) = Some (mp, m, rel) → place mounts p = Some (loc (operator m) rel).
Proof using Type. intros E. unfold place. by rewrite E. Qed.

(** ** The operations of the table *)

Lemma resolved_inv mounts p w r w' :
  resolved mounts (absp p) w = (r, w') → w' = w ∧
  match r with
  | Ok x => resolve_path mounts (absp p) = Some x
  | Err e => nowhere mounts p ∧ e = path_not_found
  end.
Proof using Type.
  unfold resolved, lift, nowhere. destruct (resolve_path mounts (absp p)) as [x|]; intros [= <- <-]; done.
Qed.
Lemma refuse_inv b w r w' : refuse_if (W := W) b w = (r, w') → w' = w ∧ (is_ok r = negb b).
Proof using Type. unfold refuse_if. by destruct b; intros [= <- <-]. Qed.

(** Streaming touches the location of the writer only; a stream that was closed is there. *)
Notation Writing := (MountWriter (O := O) (W := W)).
Definition stays (l : Loc) (h h' : Writing) w w' : Prop :=
  loc (mw_operator h) (mw_rel h) = l → (∀ i, mw_inner h = Some i → w_loc i = l) →
  (∀ x, x ≠ l → files w' x = files w x) ∧ mw_operator h' = mw_operator h ∧ mw_rel h' = mw_rel h ∧
  ∀ i, mw_inner h' = Some i → w_loc i = l.
(** What has been streamed so far. *)
Definition streamed (h : Writing) : string := match mw_inner h with Some i => w_data i | None => "" end.

Lemma lazy_writer_inv {A} (use : OpWriter → W → result DalError A * (OpWriter * W)) h w r h' w' l :
  (∀ i w r i' w', use i w = (r, (i', w')) → (∀ x, x ≠ w_loc i → files w' x = files w x) ∧ w_loc i' = w_loc i) →
  lazy_writer use (h, w) = (r, (h', w')) →
  stays l h h' w w' ∧
  (is_ok r = true → loc (mw_operator h) (mw_rel h) = l → (∀ i, mw_inner h = Some i → w_loc i = l) →
     ∃ i i' w1, w_loc i = l ∧ w_data i = streamed h ∧ mw_inner h' = Some i' ∧ use i w1 = (r, (i', w'))).
Proof.
  intros Huse Hr. unfold lazy_writer in Hr. unfold stays, streamed. destruct (mw_inner h) as [i|] eqn:Ei.
  - destruct (use i w) as [ru [i' wu]] eqn:Eu. injection Hr as <- <- <-. pose proof (Huse _ _ _ _ _ Eu) as [Hf Hl].
    cbn. split; [intros _ Hi|]; [specialize (Hi i eq_refl)|].
    + subst l. split_and!; try done. intros ? [= <-]. done.
    + intros _ _ Hi. exists i, i', w. split_and!; try done. by apply Hi.
  - destruct (op_writer _ _ w) as [[i|e] w1] eqn:Eo; apply writer_law in Eo as [Ho Hi].
    + destruct (use i w1) as [ru [i' wu]] eqn:Eu. injection Hr as <- <- <-. pose proof (Huse _ _ _ _ _ Eu) as [Hf Hl].
      destruct (Hi i eq_refl) as [Hloc Hdata]. cbn. split; [intros <- _|].
      * split_and!; [intros x Hx; rewrite Hf by congruence; by apply Ho|done|done|intros ? [= <-]; congruence].
      * intros _ <- _. by exists i, i', w1.
    + injection Hr as <- <- <-. split; [|done]. intros <- Hn. split_and!; [done..|]. intros i. by rewrite Ei.
Qed.

(** Rules for handles, in the style of [triple]: on the location of a writer. *)
Definition on (l : Loc) w0 (d : string) (hw : Writing * W) : Prop :=
  loc (mw_operator hw.1) (mw_rel hw.1) = l ∧ (∀ i, mw_inner hw.1 = Some i → w_loc i = l) ∧
  (∀ x, x ≠ l → files hw.2 x = files w0 x) ∧ streamed hw.1 = d.
Definition off (l : Loc) w0 (hw : Writing * W) : Prop :=
  loc (mw_operator hw.1) (mw_rel hw.1) = l ∧ (∀ i, mw_inner hw.1 = Some i → w_loc i = l) ∧
  ∀ x, x ≠ l → files hw.2 x = files w0 x.

Lemma push_triple l w0 d bs :
  triple (on l w0 d) (mount_writer_write bs) (λ _, on l w0 (d +:+ bs)%string) (off l w0).
Proof.
  intros [h w] (Hl & Hi & Hf & Hd). cbn in Hl, Hi, Hf, Hd. destruct (mount_writer_write bs (h, w)) as [r [h' w']] eqn:E.
  apply (lazy_writer_inv _ _ _ _ _ _ l) in E as [Hs Hok]; [|by intros ????? (?&?&_)%push_law].
  destruct (Hs Hl Hi) as (Hfr & Hop & Hrel & Hi'). unfold on, off. rewrite <-Hop, <-Hrel in Hl.
  assert (Hoff : ∀ x, x ≠ l → files w' x = files w0 x) by (intros x Hx; rewrite Hfr by done; by apply Hf).
  destruct r as [[]|e]; cbn; split_and!; try done. rewrite Hop, Hrel in Hl.
  destruct (Hok eq_refl Hl Hi) as (i & i' & w1 & _ & Hdi & Hin & (_ & _ & Hp)%push_law).
  unfold streamed. rewrite Hin, (Hp eq_refl), Hdi. by rewrite Hd.
Qed.

Lemma push_all_triple l w0 d chunks :
  triple (on l w0 d) (push_all chunks) (λ _, on l w0 (d +:+ String.concat "" chunks)%string) (off l w0).
Proof.
  revert d; induction chunks as [|bs chunks IH]; intros d; cbn [push_all].
  { apply triple_ret. intros s. cbn. by rewrite app_empty_r. }
  step ltac:(apply push_triple). eapply triple_conseq; [apply IH|done| |done]. intros [] s. cbn beta.
  rewrite app_assoc_s. assert (Hc : (bs +:+ String.concat "" chunks)%string = String.concat "" (bs :: chunks)).
  { destruct chunks; cbn; [apply app_empty_r|done]. } by rewrite Hc.
Qed.

Lemma finish_laws i w r i' w' : writer_finish i w = (r, (i', w')) →
  (∀ x, x ≠ w_loc i → files w' x = files w x) ∧ w_loc i' = w_loc i.
Proof using Type. intros (? & _ & ?)%finish_law. done. Qed.
(** Closing and aborting leave the other files alone. *)
Lemma last_call_off {A} (use : OpWriter → W → result DalError A * (OpWriter * W)) l w0 d s r s' :
  (∀ i w r i' w', use i w = (r, (i', w')) → (∀ x, x ≠ w_loc i → files w' x = files w x) ∧ w_loc i' = w_loc i) →
  on l w0 d s ∨ off l w0 s → lazy_writer use s = (r, s') → off l w0 s'.
Proof.
  intros Huse Hs E. destruct s as [h w], s' as [h' w'].
  assert (Ho : off l w0 (h, w)) by (destruct Hs as [(? & ? & ? & _)|?]; done). destruct Ho as (Hl & Hi & Hf). cbn in *.
  apply (lazy_writer_inv _ _ _ _ _ _ l) in E as [Ha _]; [|done]. destruct (Ha Hl Hi) as (Hfr & Hop & Hrel & Hi').
  unfold off. cbn. rewrite Hop, Hrel. split_and!; try done. intros x Hx. rewrite Hfr by done. by apply Hf.
Qed.

(** Streaming through a fresh writer. *)
Lemma stream_triple l w0 chunks :
  triple (on l w0 "") (stream chunks) (λ _ hw, off l w0 hw ∧ files hw.2 l = Some (String.concat "" chunks)) (off l w0).
Proof.
  intros s Hs. destruct (stream chunks s) as [r s'] eqn:E. unfold stream in E.
  apply bind_inv in E as [(e & (? & [=] & _)%attempt_inv & _)|(p & s1 & (p0 & [= <-] & Ep)%attempt_inv & E)].
  pose proof (push_all_triple l w0 "" chunks s Hs) as Hp. rewrite Ep in Hp. destruct p as [[]|e].
  - pose proof (last_call_off writer_finish l w0 _ _ _ _ finish_laws (or_introl Hp) E) as Hoff.
    destruct r as [m|e]; [|done]. split; [done|]. destruct s1 as [h w], s' as [h' w'], Hp as (Hl & Hi & _ & Hd).
    apply (lazy_writer_inv _ _ _ _ _ _ l) in E as [_ Hok]; [|exact finish_laws].
    destruct (Hok eq_refl Hl Hi) as (i & i' & w1 & <- & Hdi & _ & (_ & Hfin & _)%finish_law).
    cbn. rewrite (Hfin eq_refl), Hdi. cbn in Hd. by rewrite Hd.
  - apply bind_inv in E as [(e' & (? & [=] & _)%attempt_inv & _)|(a & s2 & (a0 & _ & Ea)%attempt_inv & [= <- <-])].
    apply (last_call_off writer_cancel l w0 "" s1 a0 s2); auto. intros ????? [? ?]%cancel_law; done.
Qed.

(** ** Requests, one by one *)

Notation steps mounts w q r w' := (tree_step (fixed mounts) (nowhere mounts) (tree mounts w) q r (tree mounts w')).

Lemma free_target mounts p mp m rel :
  resolve_path mounts (absp p) = Some (mp, m, rel) → read_only m = false → ¬ fixed mounts p ∧ ¬ nowhere mounts p.
Proof using Type.
  intros E Hm. unfold fixed, nowhere. rewrite E. split; [|done]. intros (? & ? & ? & [= <- <- <-] & ?). congruence.
Qed.
(** A failure that changed no file. *)
Lemma steps_unchanged mounts w w' q e : (∀ l, files w' l = files w l) → steps mounts w q (Err e) w'.
Proof using Type.
  intros Hl. pose proof (tree_same mounts w w' Hl) as Hb.
  assert (He : ∀ p, tree mounts w' p = tree mounts w p) by (intros p; unfold tree; destruct (place mounts p); [apply Hl|done]).
  constructor; [by intros p ? _; apply Hb; [|set_solver]| |done].
  destruct q; cbn; rewrite ?He; auto.
Qed.
(** An answer that changed no file. *)
Lemma steps_read mounts w w' q a :
  (∀ l, files w' l = files w l) → targets q = [] → fulfilled (tree mounts w) q a (tree mounts w') → steps mounts w q (Ok a) w'.
Proof using Type. intros Hl Hq Hf. constructor; rewrite ?Hq; [by apply tree_same|done|set_solver]. Qed.

Lemma bind_ret_inv {A B} (m : M W DalError A) (f : A → B) w r w' :
  (a ← m; mret (f a)) w = (r, w') → ∃ r0, m w = (r0, w') ∧ r = f <$> r0.
Proof using Type. intros [(e & E & ->)|(a & w1 & E & [= <- <-])]%bind_inv; eauto. Qed.

(** The guard of everything that writes. *)
Lemma writable_inv {A} mounts p (f : Mount O → string → M W DalError A) w r w' :
  ('(_, m, rel) ← resolved mounts (absp p); _ ← refuse_if (read_only m); f m rel) w = (r, w') →
  (∃ e, r = Err e ∧ w' = w) ∨
  ∃ mp m rel, resolve_path mounts (absp p) = Some (mp, m, rel) ∧ read_only m = false ∧ f m rel w = (r, w').
Proof using Type.
  intros [(e & [-> _]%resolved_inv & ->)|([[mp m] rel] & w1 & [-> Ep]%resolved_inv & Hr)]%bind_inv; [by left; exists e|].
  apply bind_inv in Hr as [(e & [-> _]%refuse_inv & ->)|([] & w1 & [-> Hro]%refuse_inv & Hr)]; [by left; exists e|].
  right. exists mp, m, rel. split_and!; try done. by destruct (read_only m).
Qed.

(** A request that works on one path only. *)
Lemma steps_at mounts w w' q r p mp m rel :
  wf_mounts mounts → separate mounts → Forall normal_seg p → targets q = [p] →
  resolve_path mounts (absp p) = Some (mp, m, rel) → read_only m = false →
  (∀ l, l ≠ loc (operator m) rel → files w' l = files w l) →
  match r with
  | Ok a => fulfilled (tree mounts w) q a (tree mounts w')
  | Err _ => failed (tree mounts w) q (tree mounts w')
  end → steps mounts w q r w'.
Proof.
  intros Hwf Hsep Hp Hq Ep Hro Hl Hr.
  assert (Hb : but (targets q) (tree mounts w) (tree mounts w')).
  { rewrite Hq. apply tree_but; [done..|by constructor|]. intros l Hpl. apply Hl. intros ->.
    apply (Hpl p); [set_solver|]. by eapply place_at. }
  destruct (free_target _ _ _ _ _ Ep Hro) as [Hnf Hnn].
  destruct r; constructor; rewrite ?Hq; try done; [by rewrite <-Hq| |by rewrite <-Hq|]; intros x ->%list_elem_of_singleton; [done|].
  intros []; done.
Qed.

Section Table.
Context mounts (Hwf : wf_mounts mounts) (Hsep : separate mounts).

Lemma put_steps p chunks w r w' :
  Forall normal_seg p → perform mounts (Put p chunks) w = (r, w') → steps mounts w (Put p chunks) r w'.
Proof using Hwf Hsep.
  intros Hp (r0 & Hw & ->)%bind_ret_inv. unfold with_writer in Hw.
  destruct (access_write mounts (absp p) w) as [h w1] eqn:E.
  apply writable_inv in E as [(e & -> & ->)|(mp & m & rel & Ep & Hro & [= <- <-])].
  { injection Hw as <- <-. by apply steps_unchanged. }
  set (h := {| mw_operator := operator m; mw_rel := rel; mw_inner := None |}) in Hw.
  destruct (stream chunks (h, w)) as [r1 [h' w2]] eqn:Es. injection Hw as <- <-.
  assert (Hon : on (loc (operator m) rel) w "" (h, w)) by done.
  pose proof (stream_triple _ _ chunks _ Hon) as Ht. rewrite Es in Ht.
  apply (steps_at mounts w w2 _ _ p mp m rel); try done.
  - destruct r1; cbn in Ht; [by destruct Ht as [(_ & _ & Hl) _]|by destruct Ht as (_ & _ & Hl)].
  - destruct r1; [|done]. cbn. rewrite (tree_at _ _ _ _ _ _ Ep). by destruct Ht.
Qed.

(** Opening a reader and reading a range. *)
Lemma fetch_inv m rel offset size w r w' :
  (offset + size ≤ U64_MAX)%N →
  fetch {| mr_operator := m; mr_path := rel; mr_metadata := None |} offset size w = (r, w') →
  (∀ l, files w' l = files w l) ∧
  ∀ d c, r = Ok d → files w (loc m rel) = Some c → d = slice offset size c.
Proof using Type.
  intros Hov Hr. unfold fetch, reader_open in Hr. cbn in Hr. destruct (op_stat m rel w) as [[md|e] w1] eqn:Es;
    apply stat_law in Es as [Hl1 Hlen]; [|by injection Hr as <- <-].
  destruct (op_reader m rel w1) as [[rd|e] w2] eqn:Eo; apply reader_law in Eo as [Hl2 Hrd];
    [|injection Hr as <- <-; split; [|done]; intros l; by rewrite Hl2].
  assert (Hl : ∀ l, files w2 l = files w l) by (intros l; by rewrite Hl2).
  unfold reader_read_at in Hr. cbn in Hr. destruct (N.leb_spec (meta_length md) offset) as [Hoff|Hoff].
  { injection Hr as <- <-. split; [done|]. intros d c [= <-] Hc. rewrite slice_past; [done|]. by rewrite <-(Hlen c). }
  apply reader_read_law in Hr as [Hl3 Hd]. split; [intros l; by rewrite Hl3|]. intros d c -> Hc.
  destruct (Hd d eq_refl) as (c' & Hc' & ->); rewrite (Hrd rd eq_refl), Hl, Hc in Hc'; injection Hc' as <-.
  - rewrite <-(slice_clamped offset size). f_equal. rewrite (Hlen c Hc). unfold wrapping_add. rewrite N.mod_small by lia. lia.
  - rewrite (Hlen c Hc) in *. unfold wrapping_add. rewrite N.mod_small by lia. lia.
Qed.

Lemma access_read_inv p w r w' :
  access_read mounts (absp p) w = (r, w') → w' = w ∧
  ∀ rd, r = Ok rd → ∃ mp m rel, resolve_path mounts (absp p) = Some (mp, m, rel) ∧
    rd = {| mr_operator := operator m; mr_path := rel; mr_metadata := None |}.
Proof using Type.
  intros [(e & [-> _]%resolved_inv & ->)|([[mp m] rel] & w1 & [-> Ep]%resolved_inv & [= <- <-])]%bind_inv; [done|].
  split; [done|]. intros rd [= <-]. by exists mp, m, rel.
Qed.
Lemma get_steps p offset size w r w' :
  Forall normal_seg p → (offset + size ≤ U64_MAX)%N →
  perform mounts (Get p offset size) w = (r, w') → steps mounts w (Get p offset size) r w'.
Proof using Type.
  intros Hp Hov Hr. cbn [perform] in Hr.
  apply bind_inv in Hr as [(e & [-> _]%access_read_inv & ->)|(rd & w1 & [-> Hrd]%access_read_inv & (r1 & Ef & ->)%bind_ret_inv)].
  { by apply steps_unchanged. }
  destruct (Hrd rd eq_refl) as (mp & m & rel & Ep & ->). apply fetch_inv in Ef as [Hl Hd]; [|done].
  destruct r1 as [d|e]; [|by apply steps_unchanged]. apply steps_read; [done..|]. cbn. intros c.
  rewrite (tree_at _ _ _ _ _ _ Ep). by apply Hd.
Qed.

(** The root of a mount is a directory, not a file. *)
Lemma length_steps p w r w' :
  Forall normal_seg p → perform mounts (Length p) w = (r, w') → steps mounts w (Length p) r w'.
Proof using Type.
  intros Hp (r0 & Hr & ->)%bind_ret_inv. unfold access_stat in Hr.
  assert (Hs : (∀ l, files w' l = files w l) ∧ ∀ md c, r0 = Ok md → tree mounts w p = Some c → meta_length md = blen c).
  { destruct (resolve_path mounts (absp p)) as [[[mp m] rel]|] eqn:Ep.
    - rewrite (tree_at _ _ _ _ _ _ Ep). destruct (_ && _) eqn:Eroot.
      + injection Hr as <- <-. split; [done|]. intros md c _. apply andb_true_iff in Eroot as [_ ->%bool_decide_eq_true].
        by rewrite root_law.
      + apply stat_law in Hr as [Hl Hm]. split; [done|]. intros md c ->. apply Hm.
    - assert (Hn : tree mounts w p = None) by (unfold tree, place; by rewrite Ep). rewrite Hn.
      destruct (virtual_children mounts (absp p)); injection Hr as <- <-; done. }
  destruct Hs as [Hl Hm]. destruct r0 as [md|e]; [|by apply steps_unchanged]. apply steps_read; [done..|]. cbn. eauto.
Qed.

Lemma make_dir_steps p w r w' : perform mounts (MakeDir p) w = (r, w') → steps mounts w (MakeDir p) r w'.
Proof using Type.
  intros (r0 & [(e & -> & ->)|(mp & m & rel & _ & _ & E)]%writable_inv & ->)%bind_ret_inv; [by apply steps_unchanged|].
  pose proof (create_dir_law _ _ _ _ _ E) as Hl. destruct r0; [by apply steps_read|by apply steps_unchanged].
Qed.

Lemma remove_steps p w r w' :
  Forall normal_seg p → perform mounts (Remove p) w = (r, w') → steps mounts w (Remove p) r w'.
Proof using Hwf Hsep.
  intros Hp Hr. assert (Hd : ∃ r0, mount_deleter_delete mounts (absp p) w = (r0, w') ∧ r = (λ _, Done) <$> r0).
  { apply bind_inv in Hr as [(e & E & ->)|(a & w1 & E & [= <- <-])]; eauto. }
  destruct Hd as (r0 & [(e & -> & ->)|(mp & m & rel & Ep & Hro & (Hl & Hok & Hany)%delete_law)]%writable_inv & ->);
    [by apply steps_unchanged|].
  apply (steps_at mounts w w' _ _ p mp m rel); try done.
  destruct r0; cbn; rewrite !(tree_at _ _ _ _ _ _ Ep); auto.
Qed.

(** *** Copies and moves *)

(** From one operator to another, natively or through memory. *)
Lemma copy_data_inv (native : bool) o o' f g w r w' :
  (native = true → o = o') →
  (if native then op_copy o f g else data ← op_read o f; op_write o' g data) w = (r, w') →
  (∀ l, l ≠ loc o' g → files w' l = files w l) ∧
  (is_ok r = true → is_Some (files w (loc o f)) ∧ files w' (loc o' g) = files w (loc o f)).
Proof using Type.
  intros Hn Hr. destruct native; [specialize (Hn eq_refl) as <-; by apply copy_law in Hr|].
  apply bind_inv in Hr as [(e & [Hl _]%read_law & ->)|(data & w1 & [Hl Hc]%read_law & [Hl2 Hok]%write_law)]; [done|].
  specialize (Hc data eq_refl). split; [intros l Hx; rewrite Hl2 by done; apply Hl|]. intros Hr. rewrite (Hok Hr), Hc. done.
Qed.

Lemma same_mount p q mp m rel mp' m' rel' :
  Forall normal_seg p → Forall normal_seg q →
  resolve_path mounts (absp p) = Some (mp, m, rel) → resolve_path mounts (absp q) = Some (mp', m', rel') →
  bool_decide (mp = mp') = true → m = m'.
Proof using Hwf.
  intros Hp Hq (a & b & _ & _ & Hm & _)%resolve_plain (a' & b' & _ & _ & Hm' & _)%resolve_plain ->%bool_decide_eq_true; try done.
  congruence.
Qed.

(** What [copy] and [rename] find out about their paths. *)
Lemma two_ends {A} from to (f : string → Mount O → string → string → Mount O → string → M W DalError A) w r w' :
  ('(fp, fm, fr) ← resolved mounts (absp from); '(tp, tm, tr) ← resolved mounts (absp to); f fp fm fr tp tm tr) w = (r, w') →
  (∃ e, r = Err e ∧ w' = w) ∨
  ∃ fp fm fr tp tm tr, resolve_path mounts (absp from) = Some (fp, fm, fr) ∧
    resolve_path mounts (absp to) = Some (tp, tm, tr) ∧ f fp fm fr tp tm tr w = (r, w').
Proof using Type.
  intros [(e & [-> _]%resolved_inv & ->)|([[fp fm] fr] & w1 & [-> Ef]%resolved_inv & Hr)]%bind_inv; [by left; exists e|].
  apply bind_inv in Hr as [(e & [-> _]%resolved_inv & ->)|([[tp tm] tr] & w1 & [-> Et]%resolved_inv & Hr)]; [by left; exists e|].
  right. by exists fp, fm, fr, tp, tm, tr.
Qed.

Lemma duplicate_steps from to w r w' :
  Forall normal_seg from → Forall normal_seg to →
  perform mounts (Duplicate from to) w = (r, w') → steps mounts w (Duplicate from to) r w'.
Proof using Hwf Hsep.
  intros Hf Ht Hr. cbn [perform] in Hr. apply bind_inv in Hr as [(e & E & ->)|(job & w1 & E & (r0 & Hj & ->)%bind_ret_inv)];
    apply two_ends in E as [(e' & [=] & ->)|(fp & fm & fr & tp & tm & tr & Ef & Et & E)]; try by apply steps_unchanged.
  all: apply bind_inv in E as [(e' & [-> _]%refuse_inv & [=])|([] & w2 & [-> Hro]%refuse_inv & [= <- <-])];
    try by apply steps_unchanged.
  assert (Htm : read_only tm = false) by (by destruct (read_only tm)).
  unfold copy_job in Hj. apply bind_inv in Hj as [(e & Hc & ->)|([] & w3 & Hc & [Hs _]%stat_law)];
    apply copy_data_inv in Hc as [Hl Hok]; try (intros [Hb _]%andb_true_iff; f_equal; by eapply (same_mount from to)).
  all: apply (steps_at mounts w _ _ _ to tp tm tr); try done.
  - intros l Hx. rewrite Hs. by apply Hl.
  - specialize (Hok eq_refl). destruct r0; [|done]. cbn. rewrite (tree_at _ w _ _ _ _ Ef), (tree_at _ _ _ _ _ _ Et), Hs. done.
Qed.

(** Moving the data, natively or through memory: nothing else changes, and at every outcome
    the data is at one of the two ends. *)
Lemma move_data_inv (native : bool) o o' f g w r w' :
  (native = true → o = o') → loc o f ≠ loc o' g →
  (if native then op_rename o f g else data ← op_read o f; _ ← op_write o' g data; op_delete o f) w = (r, w') →
  (∀ l, l ≠ loc o f → l ≠ loc o' g → files w' l = files w l) ∧
  match r with
  | Ok _ => is_Some (files w (loc o f)) ∧ files w' (loc o' g) = files w (loc o f) ∧ files w' (loc o f) = None
  | Err _ => ∀ c, files w (loc o f) = Some c → files w' (loc o f) = Some c ∨ files w' (loc o' g) = Some c
  end.
Proof using Type.
  intros Hn Hne Hr. destruct native.
  { specialize (Hn eq_refl) as <-. apply rename_law in Hr; [|congruence]. destruct r; [by destruct Hr as (?&?&?&?)|].
    split; [by auto|]. intros c Hc. left. by rewrite Hr. }
  apply bind_inv in Hr as [(e & [Hl _]%read_law & ->)|(data & w1 & [Hl1 Hc]%read_law & Hr)];
    [split; [by auto|]; intros c; rewrite Hl; by left|]. specialize (Hc data eq_refl).
  apply bind_inv in Hr as [(e & [Hl2 _]%write_law & ->)|([] & w2 & [Hl2 Hw]%write_law & (Hl3 & Hok & Hany)%delete_law)].
  { split; [intros l ??; by rewrite Hl2, Hl1|]. intros c. rewrite Hl2, Hl1 by done. by left. }
  specialize (Hw eq_refl). assert (Hto : files w' (loc o' g) = files w (loc o f)) by (rewrite Hl3, Hw by done; by rewrite Hc).
  split; [intros l ??; by rewrite Hl3, Hl2, Hl1|]. destruct r; [rewrite Hc in *; auto|]. intros c ?. right. by rewrite Hto.
Qed.

Lemma move_steps from to w r w' :
  Forall normal_seg from → Forall normal_seg to → from ≠ to →
  perform mounts (Move from to) w = (r, w') → steps mounts w (Move from to) r w'.
Proof using Hwf Hsep.
  intros Hf Ht Hne (r0 & E & ->)%bind_ret_inv.
  apply two_ends in E as [(e' & -> & ->)|(fp & fm & fr & tp & tm & tr & Ef & Et & E)]; [by apply steps_unchanged|].
  apply bind_inv in E as [(e' & [-> _]%refuse_inv & ->)|([] & w2 & [-> Hro]%refuse_inv & E)]; [by apply steps_unchanged|].
  assert (Hros : read_only fm = false ∧ read_only tm = false) by (by destruct (read_only fm), (read_only tm)).
  apply move_data_inv in E as [Hl Hend].
  2: { intros [Hb _]%andb_true_iff. f_equal. by eapply (same_mount from to). }
  2: { intros Heq. apply Hne. by eapply same_place. }
  assert (Hb : but [from; to] (tree mounts w) (tree mounts w')).
  { apply tree_but; [done..|by repeat constructor|]. intros l Hpl. apply Hl; intros ->;
      [apply (Hpl from)|apply (Hpl to)]; [set_solver|by eapply place_at|set_solver|by eapply place_at]. }
  rewrite <-(tree_at _ w _ _ _ _ Ef), <-(tree_at _ w' _ _ _ _ Ef), <-(tree_at _ w' _ _ _ _ Et) in Hend.
  assert (Hfree : ∀ p, p ∈ [from; to] → ¬ fixed mounts p ∧ ¬ nowhere mounts p).
  { intros p [->| ->%list_elem_of_singleton]%elem_of_cons; eapply free_target; [exact Ef|apply Hros|exact Et|apply Hros]. }
  destruct r0; constructor; try done. intros p [Hnf Hnn]%Hfree []; done.
Qed.

Lemma perform_steps q w r w' : well_formed q → perform mounts q w = (r, w') → steps mounts w q r w'.
Proof using Hwf Hsep.
  destruct q; cbn [well_formed]; intros Hq Hr; try destruct_and!;
    [by apply put_steps|by apply get_steps|by apply length_steps|by apply make_dir_steps|by apply remove_steps|
     by apply duplicate_steps|by apply move_steps].
Qed.
End Table.

(** C7. The mount table is one tree of files. Over operators that hold files, different
    ones in different mounts, any sequence of writes, reads, probes, directories, removals,
    copies and moves on proper paths is a run of the tree that the table spans: every
    request does to the tree exactly what it says, or fails and leaves all but its own
    paths alone; a failing move still has the data at one of its ends; nothing changes on
    read-only mounts or outside of all mounts; and a read gives the bytes of the range,
    whether operations were native, emulated, or across two mounts. *)
Theorem mounts_refine_one_tree mounts qs w :
  wf_mounts mounts → separate mounts → Forall well_formed qs →
  tree_run (fixed mounts) (nowhere mounts) (tree mounts w) (perform_all mounts qs w).1
    (tree mounts (perform_all mounts qs w).2).
Proof.
  intros Hwf Hsep Hqs. revert w; induction Hqs as [|q qs Hq Hqs IH]; intros w; cbn [perform_all]; [by constructor|].
  destruct (perform mounts q w) as [r w1] eqn:E. specialize (IH w1).
  destruct (perform_all mounts qs w1) as [tr w2]. econstructor; [|exact IH]. by apply perform_steps.
Qed.

End Refinement.

(** ** Concrete drives *)

Module DemoTree.
Open Scope string_scope.

(** Drives in one store, keyed by the drive's name, some with native copies and moves. *)
Record drive := { label : string; native : bool }.
Notation spot := (string * string)%type.
Notation store := (gmap spot string).
Definition absent : DalError := dal_error Kind.NotFound "no such file".
Definition is_root : DalError := dal_error Kind.Unexpected "the root is a directory".

Definition read_spot (l : spot) (w : store) : option string := if bool_decide (l.2 = "") then None else w !! l.
Definition put_spot (l : spot) (d : string) : M store DalError () :=
  λ w, if bool_decide (l.2 = "") then (Err is_root, w) else (Ok (), <[l := d]> w).
Definition from_spot (l : spot) : M store DalError string := λ w, (ok_or absent (read_spot l w), w).

#[export] Instance drive_api : OperatorApi drive store := {|
  Meta := N; meta_length n := n; dir_meta := 0%N; OpWriter := spot * string; OpReader := spot;
  with_quota _ o := o; with_read_only o := o; can_copy := native; can_rename := native;
  op_stat o p := n ← from_spot (label o, p); mret (blen n);
  op_read o p := from_spot (label o, p);
  op_write o p d := put_spot (label o, p) d;
  op_delete o p := modify (delete (label o, p));
  op_create_dir _ _ := mret ();
  op_copy o p q := d ← from_spot (label o, p); put_spot (label o, q) d;
  op_rename o p q := λ w,
    match read_spot (label o, p) w with
    | Some d => if bool_decide (p = q) || bool_decide (q = "") then (Err is_root, w)
                else (Ok (), <[(label o, q) := d]> (delete (label o, p) w))
    | None => (Err absent, w)
    end;
  op_lister o p := λ w, (Ok [], w);
  op_writer o p := _ ← put_spot (label o, p) ""; mret ((label o, p), "");
  writer_push bs i := λ w, if bool_decide (bs = "!") then (Err absent, (i, w)) else (Ok (), ((i.1, i.2 +:+ bs), w));
  writer_finish i := λ w, let '(r, w) := put_spot i.1 i.2 w in ((λ _, blen i.2) <$> r, (i, w));
  writer_cancel i := λ w, (Ok (), (i, delete i.1 w));
  op_reader o p := λ w, ((λ _, (label o, p)) <$> ok_or absent (read_spot (label o, p) w), w);
  reader_read l from to := λ w, (slice from (to - from) <$> ok_or absent (read_spot l w), w);
|}.

Lemma put_spot_spec l d w r w' : put_spot l d w = (r, w') →
  (∀ x, x ≠ l → read_spot x w' = read_spot x w) ∧ (is_ok r = true → read_spot l w' = Some d).
Proof.
  unfold put_spot. case_bool_decide as Hl; intros [= <- <-]; [done|]. unfold read_spot.
  split; [intros x Hx; by rewrite lookup_insert_ne|]. by rewrite (bool_decide_false _ Hl), lookup_insert_eq.
Qed.
Lemma delete_spot l x w : x ≠ l → read_spot x (delete l w) = read_spot x w.
Proof. intros Hx. unfold read_spot. by rewrite lookup_delete_ne. Qed.
Lemma deleted_spot l w : read_spot l (delete l w) = None.
Proof. unfold read_spot. rewrite lookup_delete_eq. by case_bool_decide. Qed.
Lemma from_spot_spec l w r w' : from_spot l w = (r, w') → w' = w ∧ r = ok_or absent (read_spot l w).
Proof. unfold from_spot. by intros [= <- <-]. Qed.

#[export] Program Instance drive_laws : DriveLaws drive store := {|
  Loc := spot; loc o p := (label o, p); files w l := read_spot l w; w_loc := fst; w_data := snd; r_loc l := l;
|}.
Next Obligation. intros o p q Heq. by injection Heq. Qed.
Next Obligation. done. Qed.
Next Obligation.
  intros o p w r w' [(e & [-> He]%from_spot_spec & ->)|(d & w1 & [-> Hd]%from_spot_spec & [= <- <-])]%bind_inv; (split; [done|]); cbn.
  - destruct (read_spot _ w); [done|]. by injection He as ->.
  - intros c Hc. rewrite Hc in Hd. by injection Hd as ->.
Qed.
Next Obligation. intros o p w r w' [-> ->]%from_spot_spec. split; [done|]. intros c. cbn. by destruct (read_spot _ w); intros [= <-]. Qed.
Next Obligation. intros o p c w r w' E. by apply put_spot_spec in E. Qed.
Next Obligation.
  intros o p w r w' [= <- <-]. split_and!; [intros l ?; by apply delete_spot|intros _; apply deleted_spot|right; apply deleted_spot].
Qed.
Next Obligation. by intros o p w r w' [= <- <-] l. Qed.
Next Obligation.
  intros o p q w r w' [(e & [-> _]%from_spot_spec & ->)|(d & w1 & [-> Hd]%from_spot_spec & E)]%bind_inv; [done|].
  apply put_spot_spec in E as [Hl Hok]. split; [done|]. intros Hr. rewrite (Hok Hr). cbn in Hd |- *.
  destruct (read_spot (label o, p) w); [|done]. by injection Hd as ->.
Qed.
Next Obligation.
  intros o p q w r w' Hr Hne. cbn in Hr |- *. destruct (read_spot (label o, p) w) as [d|] eqn:Es; [|by injection Hr as <- <-].
  case_bool_decide; [done|]. case_bool_decide as Hq; injection Hr as <- <-; [done|].
  assert (Hpq : (label o, p) ≠ (label o, q)) by congruence. split_and!; [|done| |].
  - intros l Hlp Hlq. unfold read_spot. by rewrite lookup_insert_ne, lookup_delete_ne by done.
  - unfold read_spot at 1. cbn. by rewrite bool_decide_false, lookup_insert_eq by done.
  - unfold read_spot. rewrite lookup_insert_ne, lookup_delete_eq by done. by case_bool_decide.
Qed.
Next Obligation.
  intros o p w r w' [(e & [Hl _]%put_spot_spec & ->)|([] & w1 & [Hl _]%put_spot_spec & [= <- <-])]%bind_inv; (split; [done|]);
    by intros i [= <-].
Qed.
Next Obligation. intros i bs w r i' w'. cbn. case_bool_decide; intros [= <- <- <-]; done. Qed.
Next Obligation.
  intros i w r i' w'. cbn. destruct (put_spot i.1 i.2 w) as [r0 w0] eqn:E. apply put_spot_spec in E as [Hl Hok].
  intros [= <- <- <-]. split_and!; try done. intros Hr. apply Hok. by destruct r0.
Qed.
Next Obligation. intros i w r i' w' [= <- <- <-]. split; [|done]. intros l ?. by apply delete_spot. Qed.
Next Obligation. intros o p w r w' [= <- <-]. split; [done|]. intros i. cbn. destruct (read_spot _ w); by intros [= <-]. Qed.
Next Obligation.
  intros i a b w r w' [= <- <-]. split; [done|]. intros d. cbn. destruct (read_spot i w) as [c|]; intros [= <-]. by exists c.
Qed.

(** A native drive, one without copies and renames, and an archive. *)
Definition table : gmap string (Mount drive) :=
  match build (builder_read_only (builder_mount "/old" {| label := "o"; native := true |}
          (builder_mount "/data/mem" {| label := "m"; native := false |}
          (builder_mount "/data/disk" {| label := "d"; native := true |} [])))) with
  | Ok t => t | Err _ => ∅ end.
Definition stored : store := {[("o", "1999/notes") := "old notes"; ("d", "a") := "first"]}.
Definition requests : list request :=
  [Put ["data"; "mem"; "x"; "y"] ["hel"; "lo"]; Get ["data"; "mem"; "x"; "y"] 1 3; Length ["data"; "disk"; "a"];
   Duplicate ["old"; "1999"; "notes"] ["data"; "disk"; "notes"]; Move ["data"; "disk"; "a"] ["data"; "disk"; "b"];
   Move ["data"; "mem"; "x"; "y"] ["data"; "disk"; "z"]; Move ["old"; "1999"; "notes"] ["data"; "mem"; "n"];
   Put ["data"; "disk"; "b"] ["lost"; "!"]; Remove ["data"; "disk"; "notes"]; MakeDir ["data"; "new"];
   Get ["data"; "disk"; "z"] 0 100]%list.
Definition seen (r : result DalError answer) : string + answer :=
  match r with Ok a => inr a | Err e => inl (err_message e) end.
Example requests_value :
  map (seen ∘ snd) (perform_all table requests stored).1 =
    [inr Done; inr (Bytes "ell"); inr (HasLength 5); inr Done; inr Done; inr Done; inl "mount is read only";
     inl "no such file"; inr Done; inl "path not found"; inr (Bytes "hello")] ∧
  map_to_list (perform_all table requests stored).2 = [(("o", "1999/notes"), "old notes"); (("d", "z"), "hello")].
Proof. vm_compute. done. Qed.

(** A client that moves a file onto itself loses it where the move is emulated; an
    [Operator] refuses such a rename before it gets here. *)
Example moved_onto_itself :
  let w := (perform table (Put ["data"; "mem"; "x"] ["hello"]) stored).2 in
  let '(r, w') := perform table (Move ["data"; "mem"; "x"] ["data"; "mem"; "x"]) w in
  (is_ok r, tree table w ["data"; "mem"; "x"], tree table w' ["data"; "mem"; "x"]) = (true, Some "hello", None).
Proof. vm_compute. done. Qed.

(** The table's mounts, decided. *)
Lemma table_mounts : ∀ mp m, table !! mp = Some m →
  (mp = "/data/disk" ∧ label (operator m) = "d") ∨ (mp = "/data/mem" ∧ label (operator m) = "m") ∨
  (mp = "/old" ∧ label (operator m) = "o").
Proof.
  assert (Hall : map_Forall (λ mp m, (mp = "/data/disk" ∧ label (operator m) = "d") ∨
    (mp = "/data/mem" ∧ label (operator m) = "m") ∨ (mp = "/old" ∧ label (operator m) = "o")) table).
  { apply (bool_decide_unpack _). by vm_compute. }
  intros mp m. apply Hall.
Qed.
Lemma drives_wf : wf_mounts table.
Proof.
  intros mp [m [[-> _]|[[-> _]|[-> _]]]%table_mounts];
    [exists ["data"; "disk"]%list|exists ["data"; "mem"]%list|exists ["old"]%list]; (split_and!; [done|by_decide|done]).
Qed.
Lemma table_separate : separate table.
Proof.
  intros mp m mp' m' p q Hm Hm' Hl. injection Hl as Hl _.
  apply table_mounts in Hm as [[-> E]|[[-> E]|[-> E]]], Hm' as [[-> E']|[[-> E']|[-> E']]]; congruence.
Qed.
Lemma mounts_refine_one_tree_witness :
  ∃ t, tree_run (fixed table) (nowhere table) (tree table stored) (perform_all table requests stored).1 t ∧
    t ["data"; "disk"; "z"]%list = Some "hello" ∧ t ["data"; "mem"; "x"; "y"]%list = None.
Proof.
  eexists. split; [apply (mounts_refine_one_tree table requests stored drives_wf table_separate); by_decide|].
  split; vm_compute; reflexivity.
Defined.
End DemoTree.
