(* ===== verification/Points.v ===== *)
(** * Users, points and path addressing ([core.rs], [utils.rs])

    The domain types of [core.rs] with the identity rule of point ids, the quota
    keys, and the functions of [utils.rs] that look points up, decide who may write
    to them and resolve client paths to a point and a path inside it.

    [uuid::Uuid] is third-party: [UuidLib] is its interface, [UuidLaws] the
    documented behaviour (the hyphenated form is 36 characters of hexadecimal
    digits and hyphens, and parsing it gives the id back). [PlainUuid] is a concrete
    instance. *)

From S2P Require Import Prelude.
From S2P Require Import RustStr.
From S2P Require Import Errors.
From S2P Require Import Paths.
From stdpp Require Import options.
Close Scope string_scope.

(** ** Identifiers *)

Class UuidLib := {
  Uuid : Type;
  #[global] uuid_eq_dec :: EqDecision Uuid;
  #[global] uuid_countable :: Countable Uuid;
  uuid_nil : Uuid;
  parse_str : string → option Uuid;
  uuid_to_string : Uuid → string;
  (** [id.simple().to_string()]: 32 hexadecimal digits. *)
  uuid_simple : Uuid → string;
}.

Definition id_char (c : ascii) : bool :=
  let n := N_of_ascii c in
  ((48 <=? n) && (n <=? 57) || (97 <=? n) && (n <=? 102) || (n =? 45))%N.
Fixpoint all_chars (P : ascii → bool) (s : string) : bool :=
  match s with EmptyString => true | String c s => P c && all_chars P s end.

Class UuidLaws `{UuidLib} : Prop := {
  parse_to_string u : parse_str (uuid_to_string u) = Some u;
  to_string_length u : String.length (uuid_to_string u) = 36;
  to_string_chars u : all_chars id_char (uuid_to_string u) = true;
  simple_length u : String.length (uuid_simple u) = 32;
  simple_chars u : all_chars id_char (uuid_simple u) = true;
}.

Lemma to_string_inj `{UuidLaws} u v : uuid_to_string u = uuid_to_string v → u = v.
Proof. intros Heq. pose proof (parse_to_string u) as Hu. rewrite Heq, parse_to_string in Hu. by injection Hu. Qed.

(** ** Domain types *)

(** [PointHealth] *)
Inductive PointHealth := Healthy | Failed (reason : string).
#[export] Instance PointHealth_eq_dec : EqDecision PointHealth.
Proof. solve_decision. Defined.

(** [rustic_backend]-style description of a repository ([RepoSource]). *)
Record RepoSource := {
  rs_scheme : string;
  rs_config : gmap string string;
  rs_password : string;
}.

Section Domain.
Context `{UuidLib}.

(** [VfsPoint] *)
Record VfsPoint := {
  pt_id : Uuid;
  name : string;
  max_bytes : option N;
  read_only : bool;
  scheme : string;
  config : gmap string string;
  is_repo : bool;
  repo_password : option string;
}.
#[export] Instance VfsPoint_eq_dec : EqDecision VfsPoint.
Proof. solve_decision. Defined.

(** [VfsUser] *)
Record VfsUser := { username : string; points : list VfsPoint }.
#[export] Instance VfsUser_eq_dec : EqDecision VfsUser.
Proof. solve_decision. Defined.

(** ** [core.rs]: [validate_point_ids] *)

Definition nil_id_error (u : VfsUser) (p : VfsPoint) : VfsError :=
  InvalidConfig ("point '" +:+ name p +:+ "' of user '" +:+ username u +:+ "' has a nil ID")%string.
Definition duplicate_id_error (u : VfsUser) (p : VfsPoint) (other : string * string) : VfsError :=
  InvalidConfig ("point ID " +:+ uuid_to_string (pt_id p) +:+ " is used by both '" +:+ other.1
    +:+ "/" +:+ other.2 +:+ "' and '" +:+ username u +:+ "/" +:+ name p +:+ "'")%string.

(** The inner loop: the ids seen so far, with their owner and name. *)
Fixpoint check_points (u : VfsUser) (ps : list VfsPoint) (seen : gmap Uuid (string * string))
    : result VfsError (gmap Uuid (string * string)) :=
  match ps with
  | [] => Ok seen
  | p :: ps =>
      if decide (pt_id p = uuid_nil) then Err (nil_id_error u p)
      else match seen !! pt_id p with
           | Some other => Err (duplicate_id_error u p other)
           | None => check_points u ps (<[pt_id p := (username u, name p)]> seen)
           end
  end.
Fixpoint check_users (us : list VfsUser) (seen : gmap Uuid (string * string))
    : result VfsError (gmap Uuid (string * string)) :=
  match us with
  | [] => Ok seen
  | u :: us => seen ← check_points u (points u) seen; check_users us seen
  end.
Definition validate_point_ids (us : list VfsUser) : result VfsError () :=
  _ ← check_users us ∅; Ok ().

(** ** [utils.rs]: keys and lookups *)

(** [utils::quota_id] *)
Definition quota_id (username : string) (point_id : Uuid) : string :=
  (username +:+ "-" +:+ uuid_to_string point_id)%string.

(** [utils::find_point] *)
Definition find_point (u : VfsUser) (n : string) (repo : bool) : result Status VfsPoint :=
  ok_or (St.not_found ((if repo then "repo" else "data") +:+ " point '" +:+ n +:+ "' not found")%string)
    (list_find_first (λ p, bool_decide (name p = n) && bool_decide (is_repo p = repo)) (points u)).

(** [utils::find_point_id]. After the parse, [id] in the messages is the parsed
    id. *)
Definition find_point_id (u : VfsUser) (id : string) : result Status VfsPoint :=
  id ← ok_or (St.invalid_argument ("malformed point id '" +:+ id +:+ "'")%string) (parse_str id);
  match base.filter (λ p, pt_id p = id) (points u) with
  | [] => Err (St.not_found ("point '" +:+ uuid_to_string id +:+ "' not found")%string)
  | [first] => Ok first
  | _ => Err (St.failed_precondition
           ("point ID '" +:+ uuid_to_string id +:+ "' is ambiguous (duplicated in the configuration)")%string)
  end.

(** [utils::point_mount_path] *)
Definition point_mount_path (p : VfsPoint) : string :=
  if is_repo p then repo_mount_path (name p) else data_mount_path (name p).

(** [utils::require_repo_point_id] *)
Definition require_repo_point_id (u : VfsUser) (point_id : string) : result Status VfsPoint :=
  point ← find_point_id u point_id;
  if negb (is_repo point)
  then Err (St.invalid_argument ("point '" +:+ point_id +:+ "' is a data point, not a repo")%string)
  else Ok point.
(** [utils::require_data_point_id] *)
Definition require_data_point_id (u : VfsUser) (point_id : string) : result Status VfsPoint :=
  point ← find_point_id u point_id;
  if is_repo point
  then Err (St.invalid_argument ("point '" +:+ point_id +:+ "' is a repo, not a data point")%string)
  else Ok point.
(** [utils::require_repo_point], [utils::require_data_point] *)
Definition require_repo_point (u : VfsUser) (n : string) : result Status VfsPoint := find_point u n true.
Definition require_data_point (u : VfsUser) (n : string) : result Status VfsPoint := find_point u n false.

Definition point_is_read_only (p : VfsPoint) : Status :=
  St.permission_denied ("point '" +:+ name p +:+ "' is read-only")%string.
(** [utils::require_writable] *)
Definition require_writable (p : VfsPoint) : result Status () :=
  if read_only p then Err (point_is_read_only p) else Ok ().
(** [utils::is_user_writable] *)
Definition is_user_writable (p : VfsPoint) : bool :=
  negb (is_repo p) && negb (read_only p) && is_local_scheme (scheme p).
(** [utils::require_user_writable] *)
Definition require_user_writable (p : VfsPoint) : result Status () :=
  if is_repo p
  then Err (St.permission_denied ("repository '" +:+ name p +:+ "' is read-only")%string)
  else if negb (is_local_scheme (scheme p))
  then Err (St.permission_denied
    ("point '" +:+ name p +:+ "' uses remote scheme '" +:+ scheme p
     +:+ "'; remote points cannot be written to directly (backup/restore only)")%string)
  else if read_only p then Err (point_is_read_only p)
  else Ok ().

(** [utils::local_source_path] *)
Definition local_source_path (p : VfsPoint) : result Status string :=
  ok_or (St.invalid_argument
           ("point '" +:+ name p +:+ "' uses scheme '" +:+ scheme p +:+ "' but has no 'root' or 'path' option")%string)
    (match config p !! "root"%string with Some r => Some r | None => config p !! "path"%string end).

(** [utils::repo_source] *)
Definition repo_source (p : VfsPoint) : result Status RepoSource :=
  password ← ok_or (St.invalid_argument ("repo point '" +:+ name p +:+ "' is missing a password")%string)
               (repo_password p);
  _ ← validate_repo_password password;
  Ok {| rs_scheme := scheme p; rs_config := config p; rs_password := password |}.

(** ** [utils.rs]: client paths *)

(** [ipc::FilePath]: the oneof may be absent. *)
Inductive FilePath :=
| Indexed (point_id point_path : string)
| VirtualPath (path : string).

(** [parts.next().filter(|s| !s.is_empty())] on the second part. *)
Definition nonempty_part (o : option string) : option string :=
  match o with Some EmptyString => None | o => o end.

(** [utils::resolve_data_file_path] *)
Definition resolve_data_file_path (u : VfsUser) (path : option FilePath) : result Status (VfsPoint * string) :=
  match path with
  | Some (Indexed point_id point_path) =>
      point ← require_data_point_id u point_id;
      point_path ← validate_relative_point_path point_path;
      Ok (point, point_path)
  | Some (VirtualPath virtual_path) =>
      let parts := splitn 3 slash (trim_start_matches slash virtual_path) in
      let root := opt_or ""%string (parts !! 0) in
      if negb (bool_decide (root = POINTS_ROOT))
      then Err (St.invalid_argument ("backup/restore paths must be under /" +:+ POINTS_ROOT
                  +:+ "/; repository paths are not allowed")%string)
      else
        point_name ← ok_or (St.invalid_argument ("path '" +:+ virtual_path
                              +:+ "' is missing a data point name")%string) (nonempty_part (parts !! 1));
        let rest := opt_or ""%string (parts !! 2) in
        point ← require_data_point u point_name;
        rest ← validate_relative_point_path rest;
        Ok (point, rest)
  | None => Err (St.invalid_argument "path is blank")
  end.

(** The kind a mount root names. *)
Definition root_kind (root : string) : option bool :=
  if bool_decide (root = POINTS_ROOT) then Some false
  else if bool_decide (root = REPOS_ROOT) then Some true else None.

(** [utils::resolve_point_path] *)
Definition resolve_point_path (u : VfsUser) (vfs_path : string) : result Status (VfsPoint * string) :=
  let parts := splitn 3 slash (trim_start_matches slash vfs_path) in
  let root := opt_or ""%string (parts !! 0) in
  repo ← ok_or (St.invalid_argument ("path '" +:+ vfs_path +:+ "' must be under /" +:+ POINTS_ROOT
                  +:+ "/<name>/... or /" +:+ REPOS_ROOT +:+ "/<name>/...")%string) (root_kind root);
  point_name ← ok_or (St.invalid_argument ("path '" +:+ vfs_path +:+ "' is missing a point name")%string)
                 (nonempty_part (parts !! 1));
  rest ← validate_relative_point_path (opt_or ""%string (parts !! 2));
  point ← find_point u point_name repo;
  Ok (point, rest).

End Domain.

(** ** Requests that carry a repository ([utils.rs]) *)

(** [ipc::RepoSource]: the storage description may be absent. *)
Record WireRepoSource := { wire_src : option (string * gmap string string); wire_password : string }.

(** [utils::parse_repo_src] *)
Definition parse_repo_src (p : WireRepoSource) : result Status RepoSource :=
  src ← ok_or (St.invalid_argument "missing repo src") (wire_src p);
  Ok {| rs_scheme := src.1; rs_config := src.2; rs_password := wire_password p |}.
(** [utils::require_repo_src] *)
Definition require_repo_src (opt : option WireRepoSource) (field : string) : result Status RepoSource :=
  p ← ok_or (St.invalid_argument ("missing " +:+ field)%string) opt; parse_repo_src p.

(** ** Lemmas: identity *)

Section DomainLemmas.
Context `{UuidLaws}.
Implicit Types (u : VfsUser) (us : list VfsUser) (p : VfsPoint).

Definition point_ids (ps : list VfsPoint) : list Uuid := map pt_id ps.
Definition user_ids us : list Uuid := us ≫= (λ u, point_ids (points u)).

(** The ids that may follow what was seen. *)
Definition fresh_ids (ids : list Uuid) (seen : gmap Uuid (string * string)) : Prop :=
  uuid_nil ∉ ids ∧ NoDup ids ∧ ∀ i, i ∈ ids → seen !! i = None.

Lemma fresh_ids_cons i ids seen x :
  fresh_ids (i :: ids) seen ↔ i ≠ uuid_nil ∧ seen !! i = None ∧ fresh_ids ids (<[i := x]> seen).
Proof.
  unfold fresh_ids. rewrite not_elem_of_cons, NoDup_cons. split.
  - intros ([Hn1 Hn2] & [Hi Hnd] & Hs). split_and!; [done|apply Hs; by left|done|done|].
    intros j Hj. rewrite lookup_insert_ne by (intros ->; done). apply Hs. by right.
  - intros (Hn & Hi & Hn2 & Hnd & Hs).
    assert (Hni : i ∉ ids). { intros Hin. specialize (Hs i Hin). by rewrite lookup_insert_eq in Hs. }
    split_and!; try done. intros j [->|Hj]%elem_of_cons; [done|].
    specialize (Hs j Hj). apply lookup_insert_None in Hs as [? _]. done.
Qed.
Lemma fresh_ids_app l1 l2 seen :
  fresh_ids (l1 ++ l2) seen ↔ fresh_ids l1 seen ∧ fresh_ids l2 seen ∧ ∀ i, i ∈ l1 → i ∉ l2.
Proof.
  unfold fresh_ids. rewrite NoDup_app, not_elem_of_app.
  assert (Hall : (∀ i, i ∈ l1 ++ l2 → seen !! i = None) ↔
    (∀ i, i ∈ l1 → seen !! i = None) ∧ (∀ i, i ∈ l2 → seen !! i = None)).
  { split; [intros Hx; split; intros; apply Hx, elem_of_app; auto|].
    intros [Hx Hy] i [?|?]%elem_of_app; auto. }
  rewrite Hall. tauto.
Qed.

Lemma check_points_spec u ps seen :
  match check_points u ps seen with
  | Ok seen' => fresh_ids (point_ids ps) seen ∧
      ∀ i, is_Some (seen' !! i) ↔ is_Some (seen !! i) ∨ i ∈ point_ids ps
  | Err e => ¬ fresh_ids (point_ids ps) seen ∧ ∃ m, e = InvalidConfig m
  end.
Proof.
  revert seen; induction ps as [|p ps IH]; intros seen; simpl.
  { split; [|intros i; rewrite elem_of_nil; tauto].
    split; [apply not_elem_of_nil|]. split; [constructor|]. by intros ? ?%elem_of_nil. }
  case_decide as Hnil.
  { split; [|by eexists]. intros (Hn & _). apply Hn. rewrite <-Hnil. by left. }
  destruct (seen !! pt_id p) as [other|] eqn:E.
  { split; [|by eexists]. intros (_ & _ & Hs). rewrite (Hs (pt_id p)) in E; [done|by left]. }
  specialize (IH (<[pt_id p := (username u, name p)]> seen)).
  destruct (check_points u ps _) as [seen'|e].
  - destruct IH as [Hf Hd]. split; [eapply fresh_ids_cons; eauto|].
    intros i. rewrite Hd, elem_of_cons. destruct (decide (i = pt_id p)) as [->|Hne].
    + rewrite lookup_insert_eq. split; [auto|]. intros _. left. eauto.
    + rewrite lookup_insert_ne by done. tauto.
  - destruct IH as [Hf He]. split; [|done]. intros Hx. apply Hf.
    by eapply fresh_ids_cons in Hx as (_ & _ & Hx).
Qed.

Lemma check_users_spec us seen :
  match check_users us seen with
  | Ok seen' => fresh_ids (user_ids us) seen
  | Err e => ¬ fresh_ids (user_ids us) seen ∧ ∃ m, e = InvalidConfig m
  end.
Proof.
  revert seen; induction us as [|u us IH]; intros seen.
  { simpl. split; [apply not_elem_of_nil|]. split; [constructor|]. by intros ? ?%elem_of_nil. }
  change (user_ids (u :: us)) with (point_ids (points u) ++ user_ids us).
  simpl. pose proof (check_points_spec u (points u) seen) as Hp.
  pose proof (fresh_ids_app (point_ids (points u)) (user_ids us) seen) as Happ.
  destruct (check_points u (points u) seen) as [seen1|e]; simpl; [|split; [tauto|apply Hp]].
  destruct Hp as [Hf Hd]. specialize (IH seen1).
  assert (Hiff : fresh_ids (user_ids us) seen1 ↔
    fresh_ids (user_ids us) seen ∧ ∀ i, i ∈ point_ids (points u) → i ∉ user_ids us).
  { unfold fresh_ids. split.
    - intros (Hn & Hnd & Hs). split_and!; try done.
      + intros i Hi. specialize (Hs i Hi). apply eq_None_not_Some. rewrite eq_None_not_Some, Hd in Hs. tauto.
      + intros i Hi Hin. specialize (Hs i Hin). rewrite eq_None_not_Some, Hd in Hs. tauto.
    - intros ((Hn & Hnd & Hs) & Hdis). split_and!; try done. intros i Hi.
      apply eq_None_not_Some. rewrite Hd. intros [Hx|Hx]; [|by eapply Hdis].
      specialize (Hs i Hi). rewrite eq_None_not_Some in Hs. done. }
  destruct (check_users us seen1) as [seen2|e].
  - rewrite Hiff in IH. tauto.
  - rewrite Hiff in IH. split; [tauto|apply IH].
Qed.

Lemma validate_point_ids_iff us :
  validate_point_ids us = Ok () ↔ uuid_nil ∉ user_ids us ∧ NoDup (user_ids us).
Proof.
  unfold validate_point_ids. pose proof (check_users_spec us ∅) as Hc.
  assert (Hf : fresh_ids (user_ids us) ∅ ↔ uuid_nil ∉ user_ids us ∧ NoDup (user_ids us)).
  { unfold fresh_ids. split; [tauto|]. intros [? ?]. split_and!; try done. }
  rewrite <-Hf. destruct (check_users us ∅); simpl; split; try done; tauto.
Qed.

(** An id lookup answers with the only point that has the id. *)
Lemma find_point_id_spec u id p :
  find_point_id u id = Ok p ↔ ∃ i, parse_str id = Some i ∧ base.filter (λ q, pt_id q = i) (points u) = [p].
Proof.
  unfold find_point_id. destruct (parse_str id) as [i|]; simpl; [|naive_solver].
  destruct (base.filter _ (points u)) as [|q [|q' l]] eqn:E; split; try done.
  - intros (? & [= <-] & Hx). congruence.
  - intros [= <-]. eauto.
  - intros (? & [= <-] & Hx). congruence.
  - intros (? & [= <-] & Hx). congruence.
Qed.
Lemma find_point_id_in u id p : find_point_id u id = Ok p → p ∈ points u ∧ parse_str id = Some (pt_id p).
Proof.
  rewrite find_point_id_spec. intros (i & Hi & Hf).
  assert (p ∈ base.filter (λ q, pt_id q = i) (points u)) as Hp by (rewrite Hf; by left).
  apply list_elem_of_filter in Hp as [<- Hp]. done.
Qed.
Lemma filter_unique ps p :
  p ∈ ps → NoDup (point_ids ps) → base.filter (λ q, pt_id q = pt_id p) ps = [p].
Proof.
  induction ps as [|q ps IH]; [by intros ?%elem_of_nil|]. intros [->|Hin]%elem_of_cons Hnd;
    inversion Hnd as [|? ? Hq Hnd']; subst.
  - rewrite filter_cons_True by done. f_equal.
    destruct (base.filter (λ x, pt_id x = pt_id q) ps) as [|x l] eqn:E; [done|].
    assert (x ∈ base.filter (λ x, pt_id x = pt_id q) ps) as Hx by (rewrite E; by left).
    apply list_elem_of_filter in Hx as [Hx1 Hx2]. exfalso. apply Hq. rewrite <-Hx1.
    apply list_elem_of_fmap. eauto.
  - rewrite filter_cons_False; [by apply IH|]. intros Heq. apply Hq. rewrite Heq.
    apply list_elem_of_fmap. eauto.
Qed.

Lemma find_point_spec u n repo p :
  find_point u n repo = Ok p → p ∈ points u ∧ name p = n ∧ is_repo p = repo.
Proof.
  unfold find_point. destruct (list_find_first _ _) as [q|] eqn:E; simpl; [|done].
  intros [= <-]. apply list_find_first_Some in E as [Hin Hb].
  by apply andb_true_iff in Hb as [H1%bool_decide_eq_true H2%bool_decide_eq_true].
Qed.
Lemma find_point_unique u p :
  p ∈ points u → (∀ q, q ∈ points u → name q = name p → is_repo q = is_repo p → q = p) →
  find_point u (name p) (is_repo p) = Ok p.
Proof.
  intros Hin Hu. unfold find_point. rewrite (list_find_first_unique _ _ p); [done|done| |].
  - by rewrite !bool_decide_eq_true_2.
  - intros q Hq Hb. apply andb_true_iff in Hb as [H1%bool_decide_eq_true H2%bool_decide_eq_true]. auto.
Qed.

(** The segments of a mount path. *)
Lemma point_mount_path_absp p :
  point_mount_path p = absp [if is_repo p then REPOS_ROOT else POINTS_ROOT; name p].
Proof. unfold point_mount_path, data_mount_path, repo_mount_path, absp. by destruct (is_repo p). Qed.

(** How a path below a mount splits. *)
Lemma split_mount_path root n rel :
  contains_char slash root = false → root ≠ ""%string → contains_char slash n = false →
  splitn 3 slash (trim_start_matches slash ("/" +:+ root +:+ "/" +:+ n +:+ "/" +:+ rel)%string) = [root; n; rel].
Proof.
  intros Hr Hne Hn. cbn [String.append]. rewrite trim_start_char, trim_start_id.
  - by apply splitn3_3.
  - intros s' Hs. destruct root as [|c root]; [done|]. simpl in Hs. injection Hs as -> _.
    discriminate Hr.
Qed.

(** A path under a point's mount resolves to the point. *)
Lemma mount_path_resolves u p segs :
  p ∈ points u →
  (∀ q, q ∈ points u → name q = name p → is_repo q = is_repo p → q = p) →
  normal_seg (name p) → Forall rel_seg segs →
  resolve_point_path u (point_mount_path p +:+ "/" +:+ join "/" segs)%string = Ok (p, join "/" segs) ∧
  resolve_data_file_path u (Some (VirtualPath (point_mount_path p +:+ "/" +:+ join "/" segs)%string)) =
    (if is_repo p then Err (St.invalid_argument ("backup/restore paths must be under /" +:+ POINTS_ROOT
                  +:+ "/; repository paths are not allowed")%string) else Ok (p, join "/" segs)).
Proof.
  intros Hin Huniq Hname Hsegs. set (rel := join "/" segs).
  pose proof (find_point_unique u p Hin Huniq) as Hfind.
  pose proof (validate_relative_join segs Hsegs) as Hrel. fold rel in Hrel.
  assert (Hne : nonempty_part (Some (name p)) = Some (name p)).
  { unfold nonempty_part. destruct Hname as [Hne _]. by destruct (name p). }
  pose proof (normal_seg_no_slash _ Hname) as Hns.
  assert (Hparts : splitn 3 slash (trim_start_matches slash (point_mount_path p +:+ "/" +:+ rel)%string) =
    [if is_repo p then REPOS_ROOT else POINTS_ROOT; name p; rel]).
  { unfold point_mount_path, data_mount_path, repo_mount_path.
    destruct (is_repo p); rewrite !app_assoc_s; by apply split_mount_path. }
  split.
  - unfold resolve_point_path. rewrite Hparts. cbn [lookup list_lookup opt_or]. rewrite Hne.
    assert (root_kind (if is_repo p then REPOS_ROOT else POINTS_ROOT) = Some (is_repo p)) as ->
      by by destruct (is_repo p). simpl. rewrite Hrel. simpl. by rewrite Hfind.
  - unfold resolve_data_file_path. rewrite Hparts. cbn [lookup list_lookup opt_or].
    destruct (is_repo p) eqn:Hr; [done|]. rewrite Hne. simpl. unfold require_data_point.
    rewrite Hfind. simpl. by rewrite Hrel.
Qed.

End DomainLemmas.

(** ** Properties *)

Section PointProperties.
Context `{UuidLaws}.
Implicit Types (u : VfsUser) (us : list VfsUser) (p : VfsPoint).

(** The configuration check accepts exactly the configurations in which no
    point id is nil and no id occurs twice, whether within a user, across users or
    across the two kinds of points; it reports everything else as an invalid
    configuration. *)
Theorem point_ids_checked us :
  (validate_point_ids us = Ok () ↔ uuid_nil ∉ user_ids us ∧ NoDup (user_ids us)) ∧
  (∀ e, validate_point_ids us = Err e → ∃ m, e = InvalidConfig m).
Proof.
  split; [apply validate_point_ids_iff|]. intros e. unfold validate_point_ids.
  pose proof (check_users_spec us ∅) as Hc. destruct (check_users us ∅); simpl; [done|].
  intros [= <-]. apply Hc.
Qed.

(** In a checked configuration an id names one point of one user: looking a
    point up by the text of its id finds that point, and two users that both know
    an id are the same user. *)
Theorem ids_identify_points us u u' p q id :
  validate_point_ids us = Ok () → u ∈ us → u' ∈ us →
  (p ∈ points u → find_point_id u (uuid_to_string (pt_id p)) = Ok p) ∧
  (find_point_id u id = Ok p → find_point_id u' id = Ok q → u = u' ∧ p = q).
Proof using H0.
  rewrite validate_point_ids_iff. intros [_ Hnd] Hu Hu'.
  assert (Hone : ∀ v, v ∈ us → NoDup (point_ids (points v))).
  { intros v Hv. apply list_elem_of_split in Hv as (l1 & l2 & ->).
    unfold user_ids in Hnd. rewrite bind_app, bind_cons in Hnd.
    apply NoDup_app in Hnd as (_ & _ & Hnd). by apply NoDup_app in Hnd as (Hnd & _ & _). }
  assert (Hlook : ∀ v x, v ∈ us → x ∈ points v → find_point_id v (uuid_to_string (pt_id x)) = Ok x).
  { intros v x Hv Hx. apply find_point_id_spec. exists (pt_id x).
    split; [apply parse_to_string|]. apply filter_unique; auto. }
  split; [by apply Hlook|]. intros Hp Hq.
  apply find_point_id_in in Hp as [Hp Hpi]. apply find_point_id_in in Hq as [Hq Hqi].
  assert (Hid : pt_id p = pt_id q) by congruence.
  assert (u = u') as <-.
  { apply list_elem_of_lookup in Hu as [i Hi]. apply list_elem_of_lookup in Hu' as [j Hj].
    destruct (decide (i = j)) as [->|Hne]; [congruence|]. exfalso.
    clear Hlook Hone Hpi Hqi. revert us Hnd Hi Hj.
    assert (Hord : ∀ us a b v w x y, NoDup (user_ids us) → us !! a = Some v → us !! b = Some w →
      a < b → x ∈ points v → y ∈ points w → pt_id x ≠ pt_id y).
    { induction us as [|z us IH]; intros a b v w x y Hnd Hv Hw Hlt Hx Hy; [done|].
      change (user_ids (z :: us)) with (point_ids (points z) ++ user_ids us) in Hnd.
      apply NoDup_app in Hnd as (_ & Hdis & Hnd). destruct b as [|b]; [lia|]. destruct a as [|a].
      - simpl in Hv, Hw. injection Hv as <-. intros Heq. apply (Hdis (pt_id x)).
        + apply list_elem_of_fmap. eauto.
        + apply list_elem_of_bind. exists w. split; [|by eapply list_elem_of_lookup_2].
          rewrite Heq. apply list_elem_of_fmap. eauto.
      - simpl in Hv, Hw. eapply (IH a b); eauto. lia. }
    intros us Hnd Hi Hj. destruct (decide (i < j)).
    - by eapply (Hord us i j u u' p q).
    - eapply (Hord us j i u' u q p); try done. lia. }
  split; [done|]. pose proof (Hlook _ _ Hu Hp) as H1. pose proof (Hlook _ _ Hu Hq) as H2.
  rewrite Hid in H1. congruence.
Qed.

(** Quota keys do not collide: distinct users or distinct points have distinct
    quota ids, although user names may contain the separator. *)
Theorem quota_ids_distinct user1 user2 id1 id2 :
  quota_id user1 id1 = quota_id user2 id2 → user1 = user2 ∧ id1 = id2.
Proof using H0.
  unfold quota_id. intros Heq.
  assert (Hl : String.length user1 = String.length user2).
  { apply (f_equal String.length) in Heq. rewrite !length_app_s, !to_string_length in Heq. lia. }
  apply app_inj_len in Heq as [-> Heq]; [|done]. injection Heq as Heq.
  split; [done|]. by apply to_string_inj.
Qed.

Lemma resolve_data_inv u path p rel :
  resolve_data_file_path u path = Ok (p, rel) →
  p ∈ points u ∧ is_repo p = false ∧ ∃ raw, validate_relative_point_path raw = Ok rel.
Proof.
  unfold resolve_data_file_path. destruct path as [[id pp|vp]|]; [| |done].
  - unfold require_data_point_id. destruct (find_point_id u id) as [q|] eqn:E1; simpl; [|done].
    destruct (is_repo q) eqn:Er; simpl; [done|].
    destruct (validate_relative_point_path pp) as [r|] eqn:E2; simpl; [|done]. intros [= <- <-].
    apply find_point_id_in in E1 as [Hin _]. eauto.
  - simpl. case_bool_decide; simpl; [|done].
    destruct (ok_or _ _) as [n|] eqn:E0; simpl; [|done].
    destruct (require_data_point u n) as [q|] eqn:E1; simpl; [|done].
    destruct (validate_relative_point_path _) as [r|] eqn:E2; simpl; [|done]. intros [= <- <-].
    apply find_point_spec in E1 as (Hin & _ & Hr). eauto.
Qed.
Lemma validate_relative_canonical raw rel : validate_relative_point_path raw = Ok rel → canonical_rel rel.
Proof. intros [-> Hs]%validate_relative_out. by eexists. Qed.
Lemma require_repo_point_inv u id p : require_repo_point_id u id = Ok p → p ∈ points u ∧ is_repo p = true ∧ parse_str id = Some (pt_id p).
Proof.
  unfold require_repo_point_id. destruct (find_point_id u id) as [q|] eqn:E; cbn; [|done]. destruct (is_repo q) eqn:Hr; cbn; [|done].
  intros [= <-]. by apply find_point_id_in in E as [? ?].
Qed.

(** C24. A backup or restore path can only reach a data point, and only a place
    inside it: what a path resolves to is a data point of the user and a canonical
    relative path, free of [..], separators at the ends, empty segments and
    backslashes. *)
Theorem data_paths_stay_in_data_points u path p rel :
  resolve_data_file_path u path = Ok (p, rel) →
  p ∈ points u ∧ is_repo p = false ∧ canonical_rel rel.
Proof.
  intros (Hin & Hr & raw & Hraw)%resolve_data_inv. split_and!; try done. by apply validate_relative_canonical in Hraw.
Qed.

(** The two ways to name a place agree: for a data point whose id and name are
    its own and a canonical relative path, the indexed path and the path under
    [/points/] resolve to the same point and relative path; and for a point of
    either kind, the path under its mount resolves to it. *)
Theorem addressing_round_trips u p segs :
  p ∈ points u → NoDup (point_ids (points u)) →
  (∀ q, q ∈ points u → name q = name p → is_repo q = is_repo p → q = p) →
  normal_seg (name p) → Forall rel_seg segs →
  let rel := join "/" segs in
  let vfs_path := (point_mount_path p +:+ "/" +:+ rel)%string in
  resolve_point_path u vfs_path = Ok (p, rel) ∧
  (is_repo p = false →
   resolve_data_file_path u (Some (Indexed (uuid_to_string (pt_id p)) rel)) = Ok (p, rel) ∧
   resolve_data_file_path u (Some (VirtualPath vfs_path)) = Ok (p, rel)).
Proof using H0.
  intros Hin Hnd Huniq Hname Hsegs rel vfs_path.
  destruct (mount_path_resolves u p segs Hin Huniq Hname Hsegs) as [H1 H2].
  split; [done|]. intros Hr. rewrite Hr in H2. split; [|done].
  assert (Hid : find_point_id u (uuid_to_string (pt_id p)) = Ok p).
  { apply find_point_id_spec. exists (pt_id p). split; [apply parse_to_string|]. by apply filter_unique. }
  unfold resolve_data_file_path, require_data_point_id. rewrite Hid. simpl. rewrite Hr. simpl.
  unfold rel. by rewrite (validate_relative_join segs Hsegs).
Qed.

(** Users write to local data points that are not read-only and to nothing
    else: the check of the write calls accepts exactly those, and refuses every
    other point with [PermissionDenied]. *)
Theorem user_writes_are_local_data_only p :
  (require_user_writable p = Ok () ↔ is_user_writable p = true) ∧
  (is_user_writable p = true ↔
     is_repo p = false ∧ read_only p = false ∧
     (to_ascii_lowercase (scheme p) = "local" ∨ to_ascii_lowercase (scheme p) = "fs")%string) ∧
  (is_user_writable p = false → ∃ m, require_user_writable p = Err (St.permission_denied m)).
Proof.
  unfold require_user_writable, is_user_writable, is_local_scheme, point_is_read_only.
  destruct (is_repo p), (read_only p); simpl; repeat case_bool_decide; simpl; naive_solver.
Qed.

End PointProperties.

(** ** A concrete id type *)

Module PlainUuid.

Definition canonical (s : string) : bool := bool_decide (String.length s = 36) && all_chars id_char s.
Definition t : Type := { s : string | canonical s = true }.
Definition make (s : string) : option t :=
  match decide (canonical s = true) with left H => Some (exist _ s H) | right _ => None end.
Definition zeros : string := "00000000-0000-0000-0000-000000000000".
Definition nil : t := exist _ zeros eq_refl.

Lemma t_eq (x y : t) : proj1_sig x = proj1_sig y → x = y.
Proof. destruct x as [x Hx], y as [y Hy]; simpl. intros <-. f_equal. apply proof_irrel. Qed.
#[export] Instance t_eq_dec : EqDecision t.
Proof.
  intros x y. destruct (decide (proj1_sig x = proj1_sig y)) as [H|H];
    [left; by apply t_eq|right; by intros ->].
Defined.
Lemma make_proj (x : t) : make (proj1_sig x) = Some x.
Proof.
  unfold make. destruct x as [s Hs]. simpl. destruct (decide (canonical s = true)) as [H|H]; [|done].
  f_equal. by apply t_eq.
Qed.
#[export] Instance t_countable : Countable t := inj_countable (λ x, proj1_sig x) make make_proj.

(** The digits of the text, completed to 32. *)
Fixpoint no_dashes (s : string) : string :=
  match s with
  | EmptyString => EmptyString
  | String c s => if Ascii.eqb c "-" then no_dashes s else String c (no_dashes s)
  end.
Fixpoint pad (n : nat) (s : string) : string :=
  match n with
  | O => EmptyString
  | S n => match s with EmptyString => String "0" (pad n "") | String c s => String c (pad n s) end
  end.
Lemma pad_length n s : String.length (pad n s) = n.
Proof. revert s; induction n as [|n IH]; intros [|c s]; simpl; auto. Qed.
Lemma pad_chars n s : all_chars id_char s = true → all_chars id_char (pad n s) = true.
Proof.
  revert s; induction n as [|n IH]; intros [|c s]; simpl; try done; [by rewrite IH|].
  intros [-> Hs]%andb_true_iff. by rewrite IH.
Qed.
Lemma no_dashes_chars s : all_chars id_char s = true → all_chars id_char (no_dashes s) = true.
Proof.
  induction s as [|c s IH]; simpl; [done|]. intros [Hc Hs]%andb_true_iff.
  destruct (Ascii.eqb c "-"); simpl; [auto|]. by rewrite Hc, IH.
Qed.

#[export] Instance lib : UuidLib := {|
  Uuid := t; uuid_nil := nil; parse_str := make; uuid_to_string x := proj1_sig x;
  uuid_simple x := pad 32 (no_dashes (proj1_sig x)) |}.
#[export] Instance laws : UuidLaws.
Proof.
  split.
  - apply make_proj.
  - intros [s Hs]. simpl. by apply andb_true_iff in Hs as [?%bool_decide_eq_true _].
  - intros [s Hs]. simpl. by apply andb_true_iff in Hs as [_ ?].
  - intros [s Hs]. apply pad_length.
  - intros [s Hs]. apply pad_chars, no_dashes_chars. simpl.
    by apply andb_true_iff in Hs as [_ ?].
Qed.

Definition id1 : t := exist _ "01234567-89ab-cdef-0123-456789abcdef"%string eq_refl.
Definition id2 : t := exist _ "ffffffff-0000-4000-8000-000000000001"%string eq_refl.

End PlainUuid.

Section Demo.
Import PlainUuid.
Open Scope string_scope.

Definition data_demo : VfsPoint :=
  {| pt_id := id1; name := "docs"; max_bytes := Some 100%N; read_only := false; scheme := "FS";
     config := {["root" := "/srv/docs"]}; is_repo := false; repo_password := None |}.
Definition repo_demo : VfsPoint :=
  {| pt_id := id2; name := "docs"; max_bytes := None; read_only := false; scheme := "s3";
     config := ∅; is_repo := true; repo_password := Some "pw" |}.
Definition alice : VfsUser := {| username := "alice"; points := [data_demo; repo_demo] |}.

Example demo_resolution :
  resolve_data_file_path alice (Some (VirtualPath "//points/docs/a\b//./c/")) = Ok (data_demo, "a/b/c") ∧
  is_ok (resolve_data_file_path alice (Some (VirtualPath "/points/docs/../x"))) = false ∧
  is_ok (resolve_data_file_path alice (Some (VirtualPath "/repos/docs/x"))) = false ∧
  is_ok (resolve_data_file_path alice (Some (Indexed (proj1_sig id2) "x"))) = false ∧
  resolve_point_path alice "/repos/docs" = Ok (repo_demo, "") ∧
  quota_id "alice" id1 = "alice-01234567-89ab-cdef-0123-456789abcdef".
Proof. split_and!; reflexivity. Qed.

Lemma demo_in p : p ∈ points alice → p = data_demo ∨ p = repo_demo.
Proof. intros [->|[->|Hx]%elem_of_cons]%elem_of_cons; auto. by apply elem_of_nil in Hx. Qed.
Lemma demo_nodup : NoDup (point_ids (points alice)).
Proof. by apply (bool_decide_unpack _). Qed.

Lemma ids_identify_points_witness :
  find_point_id alice "01234567-89ab-cdef-0123-456789abcdef" = Ok data_demo.
Proof.
  destruct (ids_identify_points [alice] alice alice data_demo data_demo "" eq_refl
    ltac:(by left) ltac:(by left)) as [H _]. apply H. by left.
Defined.

Lemma quota_ids_distinct_witness : quota_id (H:=lib) "a" id1 = quota_id (H:=lib) "a" id1 ∧ "a" = "a" ∧ id1 = id1.
Proof. split; [done|]. apply (quota_ids_distinct (H:=lib) "a" "a" id1 id1 eq_refl). Defined.

Lemma data_paths_stay_in_data_points_witness : is_repo data_demo = false ∧ canonical_rel "a/b/c".
Proof.
  apply (data_paths_stay_in_data_points alice (Some (VirtualPath "//points/docs/a\b//./c/"))).
  reflexivity.
Defined.

Lemma addressing_round_trips_witness : resolve_point_path alice "/repos/docs/x/y" = Ok (repo_demo, "x/y").
Proof.
  apply (addressing_round_trips alice repo_demo ["x"; "y"]%list).
  - right. by left.
  - apply demo_nodup.
  - intros q Hq _ Hr. apply demo_in in Hq as [->| ->]; done.
  - by apply (bool_decide_unpack _).
  - by apply (bool_decide_unpack _).
Defined.

End Demo.
