(* ===== verification/Times.v ===== *)
(** * Times on the wire ([utils.rs], [server.rs])

    A time of jiff's becomes a protobuf timestamp, seconds and nanoseconds. jiff's times are
    third-party: [nanoseconds] is what a time is, counted from 1970, and its two accessors
    truncate towards zero, as documented. *)

From S2P Require Import Prelude.
From stdpp Require Import options.
Close Scope string_scope.
Open Scope Z_scope.

Class TimeLib := {
  Time : Type;
  nanoseconds : Time → Z;
  as_second : Time → Z;
  subsec_nanosecond : Time → Z;
  as_second_law t : as_second t = Z.quot (nanoseconds t) 1000000000;
  subsec_law t : subsec_nanosecond t = Z.rem (nanoseconds t) 1000000000;
}.

Record Timestamp := { seconds : Z; nanos : Z }.

Section Times.
Context `{TimeLib}.
Implicit Types (t : Time).

(** A [Zoned] time is its instant here. *)
Definition to_ts t : Timestamp := {| seconds := as_second t; nanos := subsec_nanosecond t |}.
Definition opt_ts (t : option Time) : option Timestamp := to_ts <$> t.
Definition chrono_to_ts t : Timestamp := {| seconds := as_second t; nanos := subsec_nanosecond t |}.
Definition rustic_to_ts t : Timestamp := {| seconds := as_second t; nanos := subsec_nanosecond t |}.
Definition proto_stamp t : option Timestamp := Some {| seconds := as_second t; nanos := subsec_nanosecond t |}.

(** What the message means, and what protobuf asks of it. *)
Definition instant (ts : Timestamp) : Z := seconds ts * 1000000000 + nanos ts.
Definition well_formed (ts : Timestamp) : Prop := 0 ≤ nanos ts < 1000000000.

(** No time is changed on its way: the message means the instant to the nanosecond, so
    times are told apart, and its parts fit their 64 and 32 bits for every time whose
    nanoseconds fit 92 bits, far beyond the years that jiff knows. *)
Theorem timestamps_are_exact t :
  instant (to_ts t) = nanoseconds t ∧ (∀ t', to_ts t = to_ts t' → nanoseconds t = nanoseconds t') ∧
  (Z.abs (nanoseconds t) < 2 ^ 92 → Z.abs (seconds (to_ts t)) < 2 ^ 63) ∧ Z.abs (nanos (to_ts t)) < 2 ^ 31.
Proof.
  assert (Hi : ∀ t, instant (to_ts t) = nanoseconds t).
  { intros t0. unfold instant. cbn. rewrite as_second_law, subsec_law. pose proof (Z.quot_rem' (nanoseconds t0) 1000000000). lia. }
  split_and!; [done|intros t' Heq; by rewrite <-!Hi, Heq| |]; cbn; rewrite ?as_second_law, ?subsec_law.
  - intros Ht. rewrite <-Z.quot_abs by done. apply Z.quot_lt_upper_bound; [lia|done|]. change (Z.abs 1000000000) with 1000000000. lia.
  - pose proof (Z.rem_bound_abs (nanoseconds t) 1000000000 ltac:(done)). lia.
Qed.

(** A timestamp is well-formed since 1970 and on whole seconds before; otherwise its
    nanoseconds are negative. *)
Theorem early_timestamps_are_malformed t :
  well_formed (to_ts t) ↔ 0 ≤ nanoseconds t ∨ nanoseconds t `mod` 1000000000 = 0.
Proof.
  unfold well_formed. cbn. rewrite subsec_law. set (n := nanoseconds t). set (d := 1000000000).
  destruct (Z.le_gt_cases 0 n) as [Hn|Hn].
  - pose proof (Z.rem_bound_pos n d Hn ltac:(done)). split; [by left|done].
  - pose proof (Z.rem_bound_pos_neg n d ltac:(done) ltac:(lia)).
    assert (Hr : Z.rem n d = 0 ↔ n `mod` d = 0) by (by rewrite Z.rem_divide, Z.mod_divide).
    split; [intros ?; right; apply Hr; lia|]. intros [?|Hm%Hr]; [lia|]. rewrite Hm. done.
Qed.
End Times.

(** Half a second before 1970. *)
#[local] Program Instance plain_times : TimeLib := {|
  Time := Z; nanoseconds t := t; as_second t := Z.quot t 1000000000; subsec_nanosecond t := Z.rem t 1000000000 |}.
Solve Obligations with done.
Example before_1970 : to_ts (-500000000) = {| seconds := 0; nanos := -500000000 |}.
Proof. reflexivity. Qed.
