(* ===== verification/LocalFs.v ===== *)
(** * Local points on disk ([utils.rs], [server.rs])

    The walks over a local point's directory tree: [safe_join], which turns a
    client path into a path below the point's root, [reject_symlinks_under],
    [dir_size] and the quota check built on it ([check_local_quota]).

    The file system is what [std::fs] answers during one call ([FsApi]): the type of
    a path and the listing of a directory, where an entry may vanish between being
    listed and being inspected. The walks keep an explicit stack and are modelled
    with fuel; [Tree] states what a directory tree looks like through [FsApi], and
    the theorems give the result for every tree with fuel equal to its number of
    directories plus one, so that the loops terminate. *)

From S2P Require Import Prelude.
From S2P Require Import RustStr.
From S2P Require Import Errors.
From stdpp Require Import options.
Close Scope string_scope.

(** ** [std::fs] *)

(** [std::fs::FileType] *)
Inductive FileType := FtFile | FtDir | FtSymlink | FtOther.
#[export] Instance FileType_eq_dec : EqDecision FileType.
Proof. solve_decision. Defined.

(** [std::fs::DirEntry] and the calls made on it. *)
Record DirEntry := {
  de_path : string;
  de_type : result IoError FileType;
  de_len : result IoError N;
}.

Class FsApi := {
  symlink_type : string → result IoError FileType;
  read_dir : string → result IoError (list (result IoError DirEntry));
}.

Definition not_found_io (e : IoError) : bool := bool_decide (io_kind e = IoKind.NotFound).

(** ** [utils::safe_join] *)

Section SafeJoin.
Context `{FsApi}.

Fixpoint join_components (rest : string) (cs : list Component) (out : string) : result Status string :=
  match cs with
  | [] => Ok out
  | Normal p :: cs =>
      let out := path_push out p in
      match symlink_type out with
      | Ok FtSymlink => Err (St.permission_denied ("path crosses a symlink: '" +:+ out +:+ "'")%string)
      | Ok _ => join_components rest cs out
      | Err e =>
          if not_found_io e then join_components rest cs out
          else Err (St.internal ("failed to inspect local path '" +:+ out +:+ "': " +:+ io_text e)%string)
      end
  | CurDir :: cs | RootDir :: cs => join_components rest cs out
  | ParentDir :: _ => Err (St.invalid_argument ("illegal path '" +:+ rest +:+ "'")%string)
  end.
Definition safe_join (root rest : string) : result Status string :=
  join_components rest (components rest) root.

End SafeJoin.

(** ** The walks *)

Section Walks.
Context `{FsApi}.

Definition symlink_error (root : string) : IoError :=
  {| io_kind := IoKind.PermissionDenied;
     io_text := ("symlink is not allowed under '" +:+ root +:+ "'")%string |}.

(** The entries of one directory in [reject_symlinks_under]: subdirectories are
    pushed on the stack. *)
Fixpoint scan_for_symlinks (root : string) (entries : list (result IoError DirEntry)) (stack : list string)
    : result IoError (list string) :=
  match entries with
  | [] => Ok stack
  | entry :: entries =>
      match entry with
      | Err e => if not_found_io e then scan_for_symlinks root entries stack else Err e
      | Ok entry =>
          match de_type entry with
          | Err e => if not_found_io e then scan_for_symlinks root entries stack else Err e
          | Ok FtSymlink => Err (symlink_error root)
          | Ok FtDir => scan_for_symlinks root entries (de_path entry :: stack)
          | Ok _ => scan_for_symlinks root entries stack
          end
      end
  end.

(** The [while] loop; [None] when the fuel runs out. *)
Fixpoint reject_loop (fuel : nat) (root : string) (stack : list string) : option (result IoError ()) :=
  match fuel with
  | O => None
  | S fuel =>
      match stack with
      | [] => Some (Ok ())
      | dir :: stack =>
          match read_dir dir with
          | Err e => if not_found_io e then reject_loop fuel root stack else Some (Err e)
          | Ok entries =>
              match scan_for_symlinks root entries stack with
              | Err e => Some (Err e)
              | Ok stack => reject_loop fuel root stack
              end
          end
      end
  end.
(** [utils::reject_symlinks_under] *)
Definition reject_symlinks_under (fuel : nat) (root : string) : option (result IoError ()) :=
  reject_loop fuel root [root].

Definition size_overflow : IoError :=
  {| io_kind := IoKind.InvalidData; io_text := "directory size exceeds u64::MAX" |}.

Fixpoint scan_sizes (entries : list (result IoError DirEntry)) (stack : list string) (total : N)
    : result IoError (list string * N) :=
  match entries with
  | [] => Ok (stack, total)
  | entry :: entries =>
      match entry with
      | Err e => if not_found_io e then scan_sizes entries stack total else Err e
      | Ok entry =>
          match de_type entry with
          | Err e => if not_found_io e then scan_sizes entries stack total else Err e
          | Ok FtDir => scan_sizes entries (de_path entry :: stack) total
          | Ok FtFile =>
              match de_len entry with
              | Err e => if not_found_io e then scan_sizes entries stack total else Err e
              | Ok len =>
                  match checked_add total len with
                  | None => Err size_overflow
                  | Some total => scan_sizes entries stack total
                  end
              end
          | Ok _ => scan_sizes entries stack total
          end
      end
  end.
Fixpoint size_loop (fuel : nat) (stack : list string) (total : N) : option (result IoError N) :=
  match fuel with
  | O => None
  | S fuel =>
      match stack with
      | [] => Some (Ok total)
      | dir :: stack =>
          match read_dir dir with
          | Err e => if not_found_io e then size_loop fuel stack total else Some (Err e)
          | Ok entries =>
              match scan_sizes entries stack total with
              | Err e => Some (Err e)
              | Ok (stack, total) => size_loop fuel stack total
              end
          end
      end
  end.
(** [utils::dir_size] *)
Definition dir_size (fuel : nat) (root : string) : option (result IoError N) := size_loop fuel [root] 0%N.

(** [server.rs]: [check_local_quota] over the measured usage of the point. *)
Definition check_local_quota (used : result IoError N) (max_bytes : option N) (growth : N) : result Status () :=
  match max_bytes with
  | None => Ok ()
  | Some max =>
      if (growth =? 0)%N then Ok () else
      used ← map_err (λ e, St.internal ("failed to measure quota usage: " +:+ io_text e)%string) used;
      projected ← ok_or (St.resource_exhausted "quota size overflow") (checked_add used growth);
      if (max <? projected)%N
      then Err (St.resource_exhausted ("write would exceed point quota (" +:+ pretty projected
                  +:+ " > " +:+ pretty max +:+ " bytes)")%string)
      else Ok ()
  end.

End Walks.

(** ** Directory trees *)

(** What a directory entry can be; [Gone] is one that vanished after it was listed,
    [GoneFile] a file that vanished after its type was read. *)
Inductive Tree :=
| TFile (len : N)
| TLink
| TOther
| TGone
| TGoneFile
| TDir (children : list (string * Tree)).

Definition vanished : IoError := {| io_kind := IoKind.NotFound; io_text := "not found" |}.

Definition entry_of (e : string * Tree) : result IoError DirEntry :=
  let mk ty len := Ok {| de_path := e.1; de_type := ty; de_len := len |} in
  match e.2 with
  | TFile n => mk (Ok FtFile) (Ok n)
  | TLink => mk (Ok FtSymlink) (Ok 0%N)
  | TOther => mk (Ok FtOther) (Ok 0%N)
  | TGone => Err vanished
  | TGoneFile => mk (Ok FtFile) (Err vanished)
  | TDir _ => mk (Ok FtDir) (Ok 0%N)
  end.

Section TreeMeasures.

Fixpoint tree_bytes (t : Tree) : N :=
  match t with
  | TFile n => n
  | TDir cs => foldr (λ c n, (tree_bytes c.2 + n)%N) 0%N cs
  | _ => 0%N
  end.
Fixpoint has_link (t : Tree) : bool :=
  match t with
  | TLink => true
  | TDir cs => existsb (λ c, has_link c.2) cs
  | _ => false
  end.
Fixpoint n_dirs (t : Tree) : nat :=
  match t with
  | TDir cs => S (foldr (λ c n, n_dirs c.2 + n) 0 cs)
  | _ => 0
  end.

End TreeMeasures.

(** The file system shows the tree [t] at [p]. *)
Section At.
Context `{FsApi}.

Fixpoint at_path (p : string) (t : Tree) : Prop :=
  match t with
  | TDir cs =>
      read_dir p = Ok (map entry_of cs) ∧
      foldr (λ c P, at_path c.1 c.2 ∧ P) True cs
  | _ => True
  end.

Definition forest := list (string * Tree).
Definition all_at (f : forest) : Prop := Forall (λ c, at_path c.1 c.2) f.
Definition bytes_of (f : forest) : N := foldr (λ c n, (tree_bytes c.2 + n)%N) 0%N f.
Definition links_in (f : forest) : bool := existsb (λ c, has_link c.2) f.
Definition dirs_of (f : forest) : nat := foldr (λ c n, n_dirs c.2 + n) 0 f.
Definition is_dir (t : Tree) : bool := match t with TDir _ => true | _ => false end.
(** A stack of directories. *)
Definition dirs_only (f : forest) : Prop := Forall (λ c, is_dir c.2 = true) f.

Lemma at_dir p cs : at_path p (TDir cs) ↔ read_dir p = Ok (map entry_of cs) ∧ all_at cs.
Proof.
  simpl. assert (Hf : foldr (λ c P, at_path c.1 c.2 ∧ P) True cs ↔ all_at cs); [|by rewrite Hf].
  unfold all_at. induction cs as [|c cs IH]; simpl; [by split; [constructor|]|].
  by rewrite IH, Forall_cons.
Qed.

Lemma scan_sizes_spec cs f total :
  all_at cs → all_at f → dirs_only f →
  match scan_sizes (map entry_of cs) (map fst f) total with
  | Ok (stack, total') =>
      ∃ f', stack = map fst f' ∧ all_at f' ∧ dirs_only f' ∧ (u64 total → u64 total') ∧
        (total' + bytes_of f' = total + bytes_of cs + bytes_of f)%N ∧ dirs_of f' = dirs_of cs + dirs_of f
  | Err e => e = size_overflow ∧ (U64_MAX < total + bytes_of cs)%N
  end.
Proof.
  intros Hcs. revert f total; induction Hcs as [|[p t] cs Hc _ IH]; intros f total Hf Hd; simpl.
  { exists f. split_and!; try done; lia. }
  destruct t as [n| | | | |ds]; simpl;
    try (specialize (IH f total Hf Hd);
         destruct (scan_sizes (map entry_of cs) (map fst f) total) as [[st tot]|e]; [done|];
         split; [apply IH|]; destruct IH; lia).
  - destruct (checked_add total n) as [total'|] eqn:E.
    + apply checked_add_Some in E as [-> Hu]. specialize (IH f (total + n)%N Hf Hd).
      destruct (scan_sizes _ _ _) as [[st tot]|e].
      * destruct IH as (f' & ? & ? & ? & Hu' & Hb & ?). exists f'. split_and!; try done; [auto|lia].
      * destruct IH. split; [done|]. lia.
    + apply checked_add_None in E. split; [done|]. lia.
  - specialize (IH ((p, TDir ds) :: f) total).
    assert (all_at ((p, TDir ds) :: f)) as Hf' by by constructor.
    assert (dirs_only ((p, TDir ds) :: f)) as Hd' by by constructor.
    specialize (IH Hf' Hd'). simpl in IH.
    destruct (scan_sizes (map entry_of cs) (p :: map fst f) total) as [[st tot]|e].
    + destruct IH as (f' & ? & ? & ? & ? & Hb & Hn). exists f'. split_and!; try done; [|lia].
      fold (bytes_of ds) in *. lia.
    + destruct IH. split; [done|]. lia.
Qed.

Lemma size_loop_spec fuel f total :
  all_at f → dirs_only f → u64 total → dirs_of f < fuel →
  size_loop fuel (map fst f) total =
    Some (if (total + bytes_of f <=? U64_MAX)%N then Ok (total + bytes_of f)%N else Err size_overflow).
Proof.
  revert f total; induction fuel as [|fuel IH]; intros f total Hf Hd Hu Hn; [lia|].
  destruct f as [|[p t] f]; simpl.
  { rewrite N.add_0_r. unfold u64 in Hu. by rewrite (proj2 (N.leb_le _ _) Hu). }
  inversion Hf as [|? ? Ht Hf']; inversion Hd as [|? ? Hdt Hd']; subst.
  destruct t as [| | | | |cs]; try done. simpl in Ht, Hn.
  apply (at_dir p cs) in Ht as [-> Hcs].
  pose proof (scan_sizes_spec cs f total Hcs Hf' Hd') as Hs. fold (dirs_of cs) (dirs_of f) in Hn.
  simpl. fold (bytes_of cs) (bytes_of f).
  destruct (scan_sizes (map entry_of cs) (map fst f) total) as [[st tot]|e].
  - destruct Hs as (f' & -> & Hf2 & Hd2 & Hu2 & Hb & Hn2). rewrite IH by (auto; lia).
    replace (tot + bytes_of f')%N with (total + (bytes_of cs + bytes_of f))%N by lia. done.
  - destruct Hs as [-> Hlt]. by rewrite (proj2 (N.leb_gt _ _)) by lia.
Qed.

Lemma scan_links_spec root cs f :
  all_at cs → all_at f → dirs_only f →
  match scan_for_symlinks root (map entry_of cs) (map fst f) with
  | Ok stack => ∃ f', stack = map fst f' ∧ all_at f' ∧ dirs_only f' ∧
      links_in f' = links_in cs || links_in f ∧ dirs_of f' = dirs_of cs + dirs_of f
  | Err e => e = symlink_error root ∧ links_in cs = true
  end.
Proof.
  intros Hcs. revert f; induction Hcs as [|[p t] cs Hc _ IH]; intros f Hf Hd; simpl.
  { exists f. by split_and!. }
  destruct t as [n| | | | |ds]; simpl; try (by apply IH); [done|].
  specialize (IH ((p, TDir ds) :: f) ltac:(by constructor) ltac:(by constructor)). simpl in IH.
  destruct (scan_for_symlinks root (map entry_of cs) (p :: map fst f)) as [st|e].
  - destruct IH as (f' & ? & ? & ? & Hl & Hn). exists f'. split_and!; try done; [|lia].
    rewrite Hl. by destruct (links_in cs), (links_in f), (existsb (λ c, has_link c.2) ds).
  - destruct IH as [? ->]. by rewrite orb_true_r.
Qed.

Lemma reject_loop_spec fuel root f :
  all_at f → dirs_only f → dirs_of f < fuel →
  reject_loop fuel root (map fst f) = Some (if links_in f then Err (symlink_error root) else Ok ()).
Proof.
  revert f; induction fuel as [|fuel IH]; intros f Hf Hd Hn; [lia|].
  destruct f as [|[p t] f]; simpl; [done|].
  inversion Hf as [|? ? Ht Hf']; inversion Hd as [|? ? Hdt Hd']; subst.
  destruct t as [| | | | |cs]; try done. simpl in Ht, Hn.
  apply (at_dir p cs) in Ht as [-> Hcs].
  pose proof (scan_links_spec root cs f Hcs Hf' Hd') as Hs. fold (dirs_of cs) (dirs_of f) in Hn.
  simpl. fold (links_in cs) (links_in f).
  destruct (scan_for_symlinks root (map entry_of cs) (map fst f)) as [st|e].
  - destruct Hs as (f' & -> & Hf2 & Hd2 & Hl & Hn2). rewrite IH by (auto; lia). by rewrite Hl.
  - by destruct Hs as [-> ->].
Qed.

End At.

(** ** Lemmas: [safe_join] *)

Section JoinLemmas.
Context `{FsApi}.

(** No path below [root] that spells a prefix of [segs] is a symlink. *)
Definition no_link_on (root : string) (segs : list string) : Prop :=
  ∀ l1 l2, segs = l1 ++ l2 → l1 ≠ [] → symlink_type (foldl path_push root l1) ≠ Ok FtSymlink.

Lemma join_components_spec rest cs root r :
  join_components rest cs root = Ok r →
  ParentDir ∉ cs ∧
  let segs := omap (λ c, match c with Normal p => Some p | _ => None end) cs in
  r = foldl path_push root segs ∧ no_link_on root segs.
Proof.
  revert root; induction cs as [|c cs IH]; intros root; simpl.
  { intros [= <-]. split; [apply not_elem_of_nil|]. split; [done|].
    intros l1 l2 Hl Hne. by destruct l1. }
  destruct c as [| | |p]; try done; csimpl.
  - intros Hj. destruct (IH root Hj) as (Hp & Hr). split; [|done]. by rewrite not_elem_of_cons.
  - intros Hj. destruct (IH root Hj) as (Hp & Hr). split; [|done]. by rewrite not_elem_of_cons.
  - intros Hj. assert (Hnl : symlink_type (path_push root p) ≠ Ok FtSymlink).
    { intros Hl. by rewrite Hl in Hj. }
    assert (Hj' : join_components rest cs (path_push root p) = Ok r).
    { destruct (symlink_type (path_push root p)) as [[]|e]; try done. by destruct (not_found_io e). }
    destruct (IH _ Hj') as (Hp & Hr & Hno). split; [by rewrite not_elem_of_cons|]. simpl.
    split; [done|]. intros [|x l1] l2 Hl Hne; [done|]. injection Hl as <- Hl. simpl.
    destruct (decide (l1 = [])) as [->|Hne1]; [done|]. by eapply Hno.
Qed.

End JoinLemmas.

Lemma push_below root l :
  root ≠ ""%string → ends_with_char slash root = false → Forall normal_seg l →
  foldl path_push root l = if decide (l = []) then root else (root +:+ "/" +:+ join "/" l)%string.
Proof.
  intros Hne Hend. induction l as [|p l IH] using rev_ind; intros Hl; [done|].
  apply Forall_app in Hl as [Hl Hp]. inversion Hp as [|? ? Hpn _]; subst.
  rewrite (decide_False (P := l ++ [p] = [])) by by destruct l.
  rewrite foldl_app, IH by done. simpl. destruct (decide (l = [])) as [->|Hln].
  - by rewrite path_push_normal, decide_False.
  - assert (Hends : ends_with_char slash (root +:+ "/" +:+ join "/" l)%string = false).
    { rewrite ends_with_char_app by done. cbn [String.append].
      rewrite ends_with_char_cons by (by apply join_ne). by apply join_tail. }
    rewrite path_push_normal, decide_False by (done || by destruct root).
    by rewrite join_snoc, !app_assoc_s.
Qed.

(** ** Properties *)

Section DiskProperties.
Context `{FsApi}.

(** C28. A client path never leaves the point: what [safe_join] returns is the root
    itself or a path below it made of the [Normal] components of the client's path,
    with no [..] among them, and none of the directories it passes through, nor the
    place itself, was a symlink when inspected. *)
Theorem safe_join_stays_below root rest r :
  root ≠ ""%string → ends_with_char slash root = false → safe_join root rest = Ok r →
  ParentDir ∉ components rest ∧
  ∃ segs, Forall normal_seg segs ∧
    r = (if decide (segs = []) then root else root +:+ "/" +:+ join "/" segs)%string ∧
    no_link_on root segs.
Proof.
  intros Hne Hend Hj. apply join_components_spec in Hj as (Hp & -> & Hno). split; [done|].
  eexists. split; [|split; [|exact Hno]].
  - apply Forall_forall. intros p Hin. apply list_elem_of_omap in Hin as (c & Hc & Hpc).
    destruct c; simplify_eq. by apply (components_Normal rest).
  - apply push_below; [done|done|]. apply Forall_forall. intros p Hin.
    apply list_elem_of_omap in Hin as (c & Hc & Hpc). destruct c; simplify_eq.
    by apply (components_Normal rest).
Qed.

(** The quota of a local point measures the disk: the walk ends on every
    directory tree and returns the sum of the sizes of its regular files, symlinks
    and vanished entries not counted, or an error when the sum is not a [u64]; and
    the check accepts a growth exactly when there is no limit, nothing grows, or the
    files and the growth fit the limit together. *)
Theorem disk_quota_is_exact root cs max_bytes growth :
  at_path root (TDir cs) → (∀ m, max_bytes = Some m → u64 m) →
  let bytes := tree_bytes (TDir cs) in
  ∃ used, dir_size (S (n_dirs (TDir cs))) root = Some used ∧
    used = (if (bytes <=? U64_MAX)%N then Ok bytes else Err size_overflow) ∧
    (check_local_quota used max_bytes growth = Ok () ↔
     growth = 0%N ∨ ∀ m, max_bytes = Some m → (bytes + growth ≤ m)%N).
Proof.
  intros Ht Hm bytes. eexists. split; [|split; [reflexivity|]].
  - unfold dir_size. pose proof (size_loop_spec (S (n_dirs (TDir cs))) [(root, TDir cs)] 0%N) as Hs.
    simpl in Hs. rewrite N.add_0_r in Hs. apply Hs.
    + by constructor.
    + by constructor.
    + by unfold u64.
    + unfold dirs_of. simpl. lia.
  - unfold check_local_quota. destruct max_bytes as [m|]; [|naive_solver].
    specialize (Hm m eq_refl). unfold u64 in Hm. destruct (N.eqb_spec growth 0) as [->|Hg]; [naive_solver|].
    destruct (N.leb_spec bytes U64_MAX) as [Hle|Hgt]; simpl.
    + unfold checked_add. destruct (N.leb_spec (bytes + growth) U64_MAX); simpl.
      * destruct (N.ltb_spec m (bytes + growth)); split; try done.
        -- intros [?|Hx]; [done|]. specialize (Hx m eq_refl). lia.
        -- intros _. right. by intros ? [= <-].
      * split; [done|]. intros [?|Hx]; [done|]. specialize (Hx m eq_refl). lia.
    + split; [done|]. intros [?|Hx]; [done|]. specialize (Hx m eq_refl). lia.
Qed.

(** The symlink check ends on every directory tree and accepts exactly the
    trees with no symlink anywhere below the root; a directory that does not exist
    is accepted, and measures zero. *)
Theorem symlink_check_is_complete root cs :
  (at_path root (TDir cs) →
   reject_symlinks_under (S (n_dirs (TDir cs))) root =
     Some (if has_link (TDir cs) then Err (symlink_error root) else Ok ())) ∧
  (read_dir root = Err vanished →
   reject_symlinks_under 2 root = Some (Ok ()) ∧ dir_size 2 root = Some (Ok 0%N)).
Proof.
  split.
  - intros Ht. pose proof (reject_loop_spec (S (n_dirs (TDir cs))) root [(root, TDir cs)]) as Hs.
    simpl in Hs. rewrite orb_false_r in Hs. apply Hs.
    + by constructor.
    + by constructor.
    + unfold dirs_of. simpl. lia.
  - intros Hr. unfold reject_symlinks_under, dir_size. simpl. by rewrite Hr.
Qed.

End DiskProperties.

(** ** A concrete disk *)

Section Demo.
Open Scope string_scope.

Definition demo_tree : list (string * Tree) :=
  [("/srv/a", TFile 5); ("/srv/gone", TGone);
   ("/srv/d", TDir [("/srv/d/b", TFile 7); ("/srv/d/l", TLink); ("/srv/d/x", TGoneFile)])].
#[local] Instance demo_fs : FsApi := {|
  symlink_type p := if bool_decide (p = "/srv/d/l") then Ok FtSymlink
                    else if bool_decide (p = "/srv" ∨ p = "/srv/d") then Ok FtDir else Err vanished;
  read_dir p := if bool_decide (p = "/srv") then Ok (map entry_of demo_tree)
                else if bool_decide (p = "/srv/d")
                then Ok (map entry_of [("/srv/d/b", TFile 7); ("/srv/d/l", TLink); ("/srv/d/x", TGoneFile)])
                else Err vanished;
|}.

Lemma demo_at : at_path "/srv" (TDir demo_tree).
Proof. repeat split. Qed.

Lemma safe_join_stays_below_witness :
  safe_join "/srv" "d//./new" = Ok "/srv/d/new" ∧ is_ok (safe_join "/srv" "d/l/x") = false ∧
  ParentDir ∉ components "d//./new".
Proof.
  split; [reflexivity|]. split; [reflexivity|].
  apply (safe_join_stays_below "/srv" "d//./new" "/srv/d/new"); [done|reflexivity|reflexivity].
Defined.

Lemma disk_quota_is_exact_witness : check_local_quota (Ok 12%N) (Some 20%N) 8 = Ok ().
Proof.
  destruct (disk_quota_is_exact "/srv" demo_tree (Some 20%N) 8 demo_at) as (used & _ & Hu & Hc).
  - intros m [= <-]. by vm_compute.
  - assert (used = Ok 12%N) as -> by (rewrite Hu; reflexivity). apply Hc. right.
    intros m [= <-]. by vm_compute.
Defined.

Lemma symlink_check_is_complete_witness :
  reject_symlinks_under 3 "/srv" = Some (Err (symlink_error "/srv")) ∧
  dir_size 2 "/nowhere" = Some (Ok 0%N).
Proof.
  split.
  - exact (proj1 (symlink_check_is_complete "/srv" demo_tree) demo_at).
  - apply (proj2 (symlink_check_is_complete "/nowhere" [])). reflexivity.
Defined.

End Demo.
