(* ===== verification/Users.v ===== *)
(** * Configuring users ([server.rs])

    What the server does to a configuration it receives: the conversions between
    the wire messages and the domain types, the validation and renaming of
    [normalize_vfs_users], and the resolution of a [FilePath] to a path of the
    user's virtual file system ([resolve_file_path]). *)

From S2P Require Import Prelude.
From S2P Require Import RustStr.
From S2P Require Import Errors.
From S2P Require Import Paths.
From S2P Require Import Points.
From stdpp Require Import options.
Close Scope string_scope.

(** ** Wire messages *)

Record ProtoPoint := { pp_scheme : string; pp_config : gmap string string; pp_root : string }.
(** The oneof of a point's source; a repository's storage may be absent. *)
Inductive ProtoSrc := Data (p : ProtoPoint) | Repo (src : option ProtoPoint) (password : string).
Record ProtoVfsPoint := {
  pv_id : string;
  pv_name : string;
  pv_max_bytes : N;
  pv_can_write : bool;
  pv_src : option ProtoSrc;
}.
Record ProtoVfsUser := { pu_name : string; pu_points : list ProtoVfsPoint }.

Section Conversions.
Context `{UuidLib}.

(** The scheme, root, configuration, kind and password of a source. *)
Definition source_parts (src : option ProtoSrc)
    : result Status (string * string * gmap string string * bool * option string) :=
  match src with
  | Some (Data ps) => Ok (pp_scheme ps, pp_root ps, pp_config ps, false, None)
  | Some (Repo None _) => Err (St.invalid_argument "VfsPoint[repo].src is required")
  | Some (Repo (Some x) password) => Ok (pp_scheme x, pp_root x, pp_config x, true, Some password)
  | None => Err (St.invalid_argument "VfsPoint.src is required")
  end.

(** The root of the message goes into the configuration. *)
Definition with_root (root : string) (cfg : gmap string string) : gmap string string :=
  if bool_decide (root = "")%string then cfg else <["root" := root]> (delete "root" cfg).

(** [TryFrom<ProtoVfsPoint> for VfsPoint] *)
Definition point_of_proto (p : ProtoVfsPoint) : result Status VfsPoint :=
  '(sch, root, cfg, repo, password) ← source_parts (pv_src p);
  let cfg := with_root root cfg in
  _ ← (if repo : bool then validate_repo_password (opt_or "" password)%string else Ok ());
  id ← ok_or (St.invalid_argument "Failed to parse UUID") (parse_str (pv_id p));
  Ok {| pt_id := id; name := pv_name p;
        max_bytes := if (pv_max_bytes p =? 0)%N then None else Some (pv_max_bytes p);
        read_only := negb (pv_can_write p); scheme := sch; config := cfg; is_repo := repo;
        repo_password := password |}.

(** [From<&VfsPoint> for ProtoVfsPoint] *)
Definition proto_of_point (point : VfsPoint) : ProtoVfsPoint :=
  let root := opt_or "" (config point !! "root")%string in
  let p := {| pp_scheme := scheme point; pp_config := delete "root"%string (config point); pp_root := root |} in
  let src := if is_repo point then Repo (Some p) (opt_or "" (repo_password point))%string else Data p in
  {| pv_id := uuid_to_string (pt_id point); pv_name := name point;
     pv_max_bytes := opt_or 0%N (max_bytes point); pv_can_write := negb (read_only point);
     pv_src := Some src |}.

(** [TryFrom<ProtoVfsUser> for VfsUser] *)
Definition user_of_proto (p : ProtoVfsUser) : result Status VfsUser :=
  ps ← collect point_of_proto (pu_points p);
  Ok {| username := pu_name p; points := ps |}.

(** ** [normalize_vfs_users] *)

Definition bad_point_name (n : string) : bool :=
  bool_decide (n = "." ∨ n = "..")%string || contains_char slash n || contains_char backslash n
  || list_any is_control (chars n).

(** The checks of one point, in the order of the code. *)
Definition check_point (u : VfsUser) (p : VfsPoint) : result Status () :=
  if bool_decide (name p = "")%string
  then Err (St.invalid_argument ("point '" +:+ uuid_to_string (pt_id p) +:+ "' for user '"
              +:+ username u +:+ "' has an empty name")%string)
  else
  _ ← (if is_repo p then
         match repo_password p with
         | None => Err (St.invalid_argument ("repo point '" +:+ name p
                     +:+ "' is missing a repository password")%string)
         | Some password =>
             if bool_decide (password = "")%string
             then Err (St.invalid_argument ("repo point '" +:+ name p
                         +:+ "' has an empty repository password")%string)
             else Ok ()
         end
       else Ok ());
  if bad_point_name (name p)
  then Err (St.invalid_argument ("invalid VFS point name '" +:+ name p +:+ "'")%string)
  else Ok ().

(** The names taken so far, per namespace. *)
Definition Names : Type := gset (bool * string).

(** [names.insert(key)]: whether the key was new. *)
Definition prefix_lens : list nat := [8; 12; 16; 20; 24; 32].
Fixpoint try_prefixes (lens : list nat) (repo : bool) (original id_text : string) (names : Names)
    : option string :=
  match lens with
  | [] => None
  | n :: lens =>
      let candidate := (original +:+ "-" +:+ String.substring 0 n id_text)%string in
      if decide ((repo, candidate) ∈ names) then try_prefixes lens repo original id_text names
      else Some candidate
  end.
Fixpoint try_suffixes (fuel : nat) (suffix : N) (repo : bool) (original id_text : string) (names : Names)
    : option string :=
  match fuel with
  | O => None
  | S fuel =>
      let candidate := (original +:+ "-" +:+ id_text +:+ "-" +:+ pretty suffix)%string in
      if decide ((repo, candidate) ∈ names)
      then try_suffixes fuel (suffix + 1) repo original id_text names
      else Some candidate
  end.

(** The name a point gets; the suffix loop runs at most once per taken name and
    once more. *)
Definition assign_name (p : VfsPoint) (names : Names) : option string :=
  if decide ((is_repo p, name p) ∉ names) then Some (name p)
  else match try_prefixes prefix_lens (is_repo p) (name p) (uuid_simple (pt_id p)) names with
       | Some n => Some n
       | None => try_suffixes (S (size names)) 2 (is_repo p) (name p) (uuid_simple (pt_id p)) names
       end.

Definition rename_point (p : VfsPoint) (n : string) : VfsPoint :=
  {| pt_id := pt_id p; name := n; max_bytes := max_bytes p; read_only := read_only p;
     scheme := scheme p; config := config p; is_repo := is_repo p; repo_password := repo_password p |}.

Fixpoint normalize_points (u : VfsUser) (ps : list VfsPoint) (names : Names) : result Status (list VfsPoint) :=
  match ps with
  | [] => Ok []
  | p :: ps =>
      _ ← check_point u p;
      n ← ok_or (St.internal ("failed to assign a unique name for point '" +:+ name p +:+ "'")%string)
            (assign_name p names);
      ps ← normalize_points u ps ({[ (is_repo p, n) ]} ∪ names);
      Ok (rename_point p n :: ps)
  end.

Fixpoint normalize_users (us : list VfsUser) (usernames : gset string) : result Status (list VfsUser) :=
  match us with
  | [] => Ok []
  | u :: us =>
      _ ← validate_username (username u);
      if decide (username u ∈ usernames)
      then Err (St.invalid_argument ("duplicate username '" +:+ username u +:+ "'")%string)
      else
        ps ← normalize_points u (points u) ∅;
        us ← normalize_users us ({[ username u ]} ∪ usernames);
        Ok ({| username := username u; points := ps |} :: us)
  end.

(** [normalize_vfs_users] *)
Definition normalize_vfs_users `{Foreign} (us : list VfsUser) : result Status (list VfsUser) :=
  _ ← map_err map_vfs (validate_point_ids us);
  normalize_users us ∅.

(** ** [resolve_file_path] *)

Definition resolve_file_path (u : VfsUser) (path : option FilePath) : result Status string :=
  match path with
  | None => Err (St.invalid_argument "path is blank")
  | Some (VirtualPath path) =>
      normalized ← validate_relative_point_path path;
      if bool_decide (normalized = "")%string then Ok "/"%string else Ok ("/" +:+ normalized)%string
  | Some (Indexed point_id point_path) =>
      point ← find_point_id u point_id;
      rel ← validate_relative_point_path point_path;
      let mount := point_mount_path point in
      if bool_decide (rel = "")%string then Ok mount else Ok (mount +:+ "/" +:+ rel)%string
  end.

End Conversions.

(** The name shown for a listed entry ([rustic_to_node], [entry_to_node]). *)
Definition node_name (path : string) : string := rsplit_first slash (trim_end_matches slash path).

(** ** Lemmas: renaming *)

Section RenameLemmas.
Context `{UuidLaws} `{Foreign}.
Implicit Types (p : VfsPoint) (u : VfsUser).

Lemma try_prefixes_fresh lens repo o t names n :
  try_prefixes lens repo o t names = Some n →
  (repo, n) ∉ names ∧ ∃ k, n = (o +:+ "-" +:+ String.substring 0 k t)%string.
Proof.
  induction lens as [|k lens IH]; simpl; [done|]. case_decide; [done|]. intros [= <-]. eauto.
Qed.
Lemma try_suffixes_fresh fuel s repo o t names n :
  try_suffixes fuel s repo o t names = Some n →
  (repo, n) ∉ names ∧ ∃ k : N, n = (o +:+ "-" +:+ t +:+ "-" +:+ pretty k)%string.
Proof.
  revert s; induction fuel as [|fuel IH]; intros s; simpl; [done|].
  case_decide; [by apply IH|]. intros [= <-]. eauto.
Qed.

(** The suffix loop finds a free name: the candidates are distinct, so more of them
    than taken names cannot all be taken. *)
Lemma try_suffixes_taken fuel s repo o t names :
  try_suffixes fuel s repo o t names = None →
  ∀ i : nat, i < fuel → (repo, o +:+ "-" +:+ t +:+ "-" +:+ pretty (s + N.of_nat i)%N)%string ∈ names.
Proof.
  revert s; induction fuel as [|fuel IH]; intros s; simpl; [lia|].
  case_decide as Hin; [|done]. intros Hn i Hi. destruct i as [|i].
  - by rewrite N.add_0_r.
  - replace (s + N.of_nat (S i))%N with ((s + 1) + N.of_nat i)%N by lia. apply IH; [done|lia].
Qed.
Lemma try_suffixes_total s repo o t (names : Names) :
  is_Some (try_suffixes (S (size names)) s repo o t names).
Proof.
  destruct (try_suffixes _ s repo o t names) eqn:E; [eauto|exfalso].
  pose proof (try_suffixes_taken _ _ _ _ _ _ E) as Hin.
  set (f := λ i : nat, (repo, (o +:+ "-" +:+ t +:+ "-" +:+ pretty (s + N.of_nat i)%N)%string)).
  set (l := f <$> seq 0 (S (size names))).
  assert (Hnd : NoDup l).
  { apply NoDup_fmap_2; [|apply NoDup_seq]. intros i j [= Heq].
    apply app_cancel_l in Heq. simpl in Heq. injection Heq as Heq.
    apply app_cancel_l in Heq. simpl in Heq. injection Heq as Heq. apply (inj pretty) in Heq. lia. }
  assert (Hsub : list_to_set l ⊆ names).
  { intros x. rewrite elem_of_list_to_set. unfold l. intros (i & -> & Hi%elem_of_seq)%list_elem_of_fmap.
    apply Hin. lia. }
  apply subseteq_size in Hsub. rewrite size_list_to_set in Hsub by done.
  unfold l in Hsub. rewrite length_fmap, length_seq in Hsub. lia.
Qed.

Lemma assign_name_spec p names :
  ∃ n, assign_name p names = Some n ∧ (is_repo p, n) ∉ names ∧
    ((is_repo p, name p) ∉ names → n = name p) ∧
    (n = name p ∨
     (∃ k, n = (name p +:+ "-" +:+ String.substring 0 k (uuid_simple (pt_id p)))%string) ∨
     ∃ k : N, n = (name p +:+ "-" +:+ uuid_simple (pt_id p) +:+ "-" +:+ pretty k)%string).
Proof.
  unfold assign_name. destruct (decide ((is_repo p, name p) ∉ names)) as [Hn|Hn].
  { exists (name p). split_and!; auto. }
  destruct (try_prefixes _ _ _ _ _) as [n|] eqn:E1.
  - exists n. apply try_prefixes_fresh in E1 as (Hf & k & ->). split_and!; try done.
    right. left. eauto.
  - destruct (try_suffixes_total 2 (is_repo p) (name p) (uuid_simple (pt_id p)) names) as [n E2].
    exists n. rewrite E2. apply try_suffixes_fresh in E2 as (Hf & k & ->). split_and!; try done.
    right. right. eauto.
Qed.

(** *** Names after renaming are path segments *)

Lemma all_chars_no c s : id_char c = false → all_chars id_char s = true → contains_char c s = false.
Proof.
  intros Hc. induction s as [|x s IH]; simpl; [done|]. intros [Hx Hs]%andb_true_iff.
  rewrite IH by done. destruct (Ascii.eqb x c) eqn:E; [|done].
  apply eqb_char_true in E as ->. congruence.
Qed.
Lemma all_chars_substring P k s : all_chars P s = true → all_chars P (String.substring 0 k s) = true.
Proof.
  revert k; induction s as [|c s IH]; intros [|k]; simpl; try done.
  intros [-> Hs]%andb_true_iff. by apply IH.
Qed.
Lemma good_name_seg (n : string) : n ≠ ""%string → bad_point_name n = false → normal_seg n.
Proof.
  unfold bad_point_name. rewrite !orb_false_iff, bool_decide_eq_false. intros Hne (((Hd & Hs) & _) & _).
  unfold normal_seg, dot_seg, dotdot_seg. naive_solver.
Qed.
Lemma suffixed_seg o s : normal_seg o → contains_char slash s = false → normal_seg (o +:+ "-" +:+ s)%string.
Proof.
  intros (Hne & _ & _ & Hs) Hc. unfold normal_seg, dot_seg, dotdot_seg.
  rewrite !contains_char_app, Hs, Hc. split_and!; try done; [by destruct o| |].
  - destruct o as [|a [|b o]]; [done|..]; simpl; intros [=].
  - destruct o as [|a [|b [|c o]]]; [done|..]; simpl; intros [=]; done.
Qed.

Lemma check_point_seg u p : check_point u p = Ok () → normal_seg (name p).
Proof.
  unfold check_point. case_bool_decide as Hne; [done|].
  destruct (if is_repo p then _ else _) as [[]|e]; simpl; [|done].
  destruct (bad_point_name (name p)) eqn:E; [done|]. intros _. by apply good_name_seg.
Qed.

Definition key_of p : bool * string := (is_repo p, name p).
(** [p'] is [p] under a name that is its own or extends its own. *)
Definition renamed p p' : Prop :=
  p' = rename_point p (name p') ∧
  (name p' = name p ∨ ∃ s, name p' = (name p +:+ "-" +:+ s)%string).

Lemma rename_same p : rename_point p (name p) = p.
Proof. by destruct p. Qed.

Lemma normalize_points_spec u ps names ps' :
  normalize_points u ps names = Ok ps' →
  Forall2 renamed ps ps' ∧ NoDup (map key_of ps') ∧ (∀ k, k ∈ map key_of ps' → k ∉ names) ∧
  Forall (λ p, normal_seg (name p)) ps' ∧
  (NoDup (map key_of ps) → (∀ k, k ∈ map key_of ps → k ∉ names) → ps' = ps).
Proof using H0.
  revert names ps'; induction ps as [|p ps IH]; intros names ps'; simpl.
  { intros [= <-]. split_and!; try constructor. by intros ? ?%elem_of_nil. }
  destruct (check_point u p) as [[]|e] eqn:Ec; simpl; [|done].
  destruct (assign_name_spec p names) as (n & -> & Hfresh & Hkeep & Hshape). simpl.
  destruct (normalize_points u ps _) as [ps1|e] eqn:E; simpl; [|done]. intros [= <-].
  destruct (IH _ _ E) as (Hr & Hnd & Hdis & Hseg & Hsame). clear IH.
  pose proof (check_point_seg u p Ec) as Hp.
  assert (Hsuffix : n = name p ∨ ∃ s, n = (name p +:+ "-" +:+ s)%string ∧ contains_char slash s = false).
  { destruct Hshape as [?|[[k ->]|[k ->]]]; [by left|right|right]; eexists; (split; [done|]).
    - apply all_chars_no; [done|]. apply all_chars_substring, simple_chars.
    - rewrite !contains_char_app, pretty_no_slash.
      by rewrite (all_chars_no slash) by (done || apply simple_chars). }
  split_and!.
  - constructor; [|done]. split; [done|]. simpl. destruct Hsuffix as [?|(s & ? & _)]; eauto.
  - apply NoDup_cons. split; [|done]. intros Hin. apply Hdis in Hin. set_solver.
  - intros k [->|Hk]%elem_of_cons; [done|]. apply Hdis in Hk. set_solver.
  - constructor; [|done]. simpl. destruct Hsuffix as [->|(s & -> & Hs)]; [done|]. by apply suffixed_seg.
  - intros Hnd0 Hdis0. inversion Hnd0 as [|? ? Hk Hnd1]; subst.
    assert (n = name p) as ->. { apply Hkeep. apply Hdis0. by left. }
    rewrite rename_same. f_equal. apply Hsame; [done|].
    intros k Hk1 [Hk2%elem_of_singleton|Hk2]%elem_of_union; [by subst|].
    apply (Hdis0 k); [by right|done].
Qed.

(** A user whose points can be addressed by name and by id. *)
Definition well_named u : Prop :=
  validate_username (username u) = Ok () ∧ NoDup (map key_of (points u)) ∧
  Forall (λ p, normal_seg (name p)) (points u).
Definition same_user u u' : Prop :=
  username u' = username u ∧ Forall2 renamed (points u) (points u').

Lemma normalize_users_spec us names us' :
  normalize_users us names = Ok us' →
  Forall2 same_user us us' ∧ NoDup (map username us') ∧
  (∀ n, n ∈ map username us' → n ∉ names) ∧ Forall well_named us' ∧
  (Forall (λ u, NoDup (map key_of (points u))) us → us' = us).
Proof using H0.
  revert names us'; induction us as [|u us IH]; intros names us'; simpl.
  { intros [= <-]. split_and!; try constructor. by intros ? ?%elem_of_nil. }
  destruct (validate_username (username u)) as [[]|e] eqn:Ev; simpl; [|done].
  case_decide as Hin; [done|].
  destruct (normalize_points u (points u) ∅) as [ps|e] eqn:Ep; simpl; [|done].
  destruct (normalize_users us _) as [us1|e] eqn:E; simpl; [|done]. intros [= <-].
  destruct (IH _ _ E) as (Hs & Hnd & Hdis & Hw & Hsame).
  destruct (normalize_points_spec _ _ _ _ Ep) as (Hr & Hndp & _ & Hseg & Hsamep).
  split_and!.
  - by constructor.
  - apply NoDup_cons. split; [|done]. intros Hx. apply Hdis in Hx. set_solver.
  - intros n [->|Hn]%elem_of_cons; [done|]. apply Hdis in Hn. set_solver.
  - by constructor.
  - intros Hall. inversion Hall as [|? ? Hk Hall']; subst. rewrite Hsame by done.
    rewrite Hsamep; [by destruct u|done|]. intros k _. apply not_elem_of_empty.
Qed.

Lemma same_users_ids us us' : Forall2 same_user us us' → user_ids us' = user_ids us.
Proof.
  induction 1 as [|u u' us us' [_ Hp] _ IH]; [done|].
  change (point_ids (points u') ++ user_ids us' = point_ids (points u) ++ user_ids us). rewrite IH.
  f_equal. clear IH. induction Hp as [|p p' ps ps' [Heq _] _ IHp]; [done|].
  simpl. rewrite IHp. by rewrite Heq.
Qed.

End RenameLemmas.

(** ** Properties *)

Section UserProperties.
Context `{UuidLaws} `{Foreign}.
Implicit Types (p : VfsPoint) (u : VfsUser).

(** A configuration that is accepted can be mounted and addressed: user names
    are valid and distinct, ids are distinct and not nil, and within a user the
    point names are distinct per namespace and proper path segments. Nothing but
    point names is changed, a name only ever gets longer, and a configuration whose
    names are distinct already is kept as it is. The search for a free name ends. *)
Theorem normalize_makes_names_unique us us' :
  normalize_vfs_users us = Ok us' →
  NoDup (map username us') ∧ Forall well_named us' ∧ validate_point_ids us' = Ok () ∧
  Forall2 same_user us us' ∧
  (Forall (λ u, NoDup (map key_of (points u))) us → us' = us).
Proof using H0.
  unfold normalize_vfs_users. destruct (validate_point_ids us) as [[]|e] eqn:Ev; simpl; [|done].
  intros Hn. destruct (normalize_users_spec _ _ _ Hn) as (Hs & Hnd & _ & Hw & Hsame).
  split_and!; try done. apply validate_point_ids_iff in Ev. apply validate_point_ids_iff.
  by rewrite (same_users_ids us us').
Qed.

(** The wire form is faithful: a point that was read from a message is read
    back unchanged from the message it is written to, configuration, root, kind,
    password and limits included, unless its configuration has an empty root (which
    the wire form drops). *)
Theorem wire_round_trip (m : ProtoVfsPoint) p :
  point_of_proto m = Ok p → config p !! "root"%string ≠ Some ""%string →
  point_of_proto (proto_of_point p) = Ok p.
Proof using H0.
  unfold point_of_proto. intros Hm.
  destruct (source_parts (pv_src m)) as [[[[[sch root] cfg] repo] pw]|e] eqn:Es; simpl in Hm; [|done].
  set (c := with_root root cfg) in *.
  destruct (if repo then _ else _) as [[]|e] eqn:Ev; simpl in Hm; [|done].
  destruct (parse_str (pv_id m)) as [id|] eqn:Eid; simpl in Hm; [|done]. injection Hm as <-. simpl.
  intros Hroot.
  assert (Hc : with_root (opt_or "" (c !! "root"))%string (delete "root"%string c) = c).
  { unfold with_root. destruct (c !! "root"%string) as [r|] eqn:Er; simpl.
    - rewrite bool_decide_eq_false_2 by congruence.
      by rewrite delete_delete_eq, insert_delete_id.
    - by rewrite delete_id. }
  assert (Hmax : ∀ n, (if (opt_or 0 (if n =? 0 then None else Some n) =? 0)%N then None
    else Some (opt_or 0 (if n =? 0 then None else Some n))%N) = (if (n =? 0)%N then None else Some n)).
  { intros n. by destruct (N.eqb_spec n 0) as [->|Hne]; simpl; [|rewrite (proj2 (N.eqb_neq _ _) Hne)]. }
  assert (Hpw : if repo then ∃ w, pw = Some w else pw = None).
  { unfold source_parts in Es. destruct (pv_src m) as [[ps|[x|] w]|]; simplify_eq; eauto. }
  destruct repo; [destruct Hpw as [w ->]|subst pw]; unfold source_parts, proto_of_point; simpl in *.
  - rewrite Ev. simpl. by rewrite parse_to_string, Hc, Hmax, negb_involutive.
  - by rewrite parse_to_string, Hc, Hmax, negb_involutive.
Qed.

(** Resolving a client path to the user's file system and resolving that path
    back to a point are inverse: for a user the server accepted, the indexed path of
    a point resolves to the place under the point's mount, in canonical form, and
    the place resolves to the point again; and a virtual path resolves to an
    absolute path without [..] or is refused. *)
Theorem file_paths_resolve_and_back u p segs :
  well_named u → NoDup (point_ids (points u)) → p ∈ points u → Forall rel_seg segs →
  let rel := join "/" segs in
  (∃ vfs, resolve_file_path u (Some (Indexed (uuid_to_string (pt_id p)) rel)) = Ok vfs ∧
     vfs = absp ([if is_repo p then REPOS_ROOT else POINTS_ROOT; name p] ++ segs) ∧
     resolve_point_path u (vfs +:+ (if bool_decide (segs = []) then "/" else ""))%string = Ok (p, rel)) ∧
  (∀ path vfs, resolve_file_path u (Some (VirtualPath path)) = Ok vfs →
     ∃ segs', Forall rel_seg segs' ∧ vfs = absp segs').
Proof using H0.
  intros (_ & Hkeys & Hnames) Hnd Hin Hsegs rel. split.
  - assert (Hid : find_point_id u (uuid_to_string (pt_id p)) = Ok p).
    { apply find_point_id_spec. exists (pt_id p). split; [apply parse_to_string|]. by apply filter_unique. }
    assert (Huniq : ∀ q, q ∈ points u → name q = name p → is_repo q = is_repo p → q = p).
    { intros q Hq Hn Hr. assert (Hk : key_of q = key_of p) by (unfold key_of; congruence).
      apply list_elem_of_lookup in Hin as [i Hi]. apply list_elem_of_lookup in Hq as [j Hj].
      assert (i = j) as ->; [|congruence].
      eapply (NoDup_lookup (map key_of (points u))); [done|..]; rewrite list_lookup_fmap.
      - by rewrite Hi.
      - rewrite Hj. simpl. by rewrite Hk. }
    rewrite Forall_forall in Hnames. pose proof (Hnames p Hin) as Hseg.
    destruct (mount_path_resolves u p segs Hin Huniq Hseg Hsegs) as [Hres _].
    unfold resolve_file_path. rewrite Hid. cbn [mbind result_bind]. unfold rel.
    rewrite (validate_relative_join segs Hsegs). cbn [mbind result_bind].
    rewrite point_mount_path_absp in *.
    destruct (decide (segs = [])) as [->|Hne].
    + simpl. eexists. split; [done|]. split; [done|]. exact Hres.
    + rewrite bool_decide_eq_false_2 by (apply join_ne; [by apply rel_seg_normal|done]).
      rewrite bool_decide_eq_false_2 by done. eexists. split; [done|]. rewrite app_empty_r.
      split; [|done]. unfold absp. rewrite join_app by done. by rewrite !app_assoc_s.
  - intros path vfs. simpl. destruct (validate_relative_point_path path) as [r|] eqn:E; simpl; [|done].
    apply validate_relative_out in E as [-> Hs]. intros Hv.
    exists (normals (components (replace_char backslash slash path))). split; [done|].
    case_bool_decide as Hj; injection Hv as <-; [|done]. unfold absp. by rewrite Hj.
Qed.

End UserProperties.

(** ** A concrete configuration *)

Section Demo.
Import PlainUuid.
Open Scope string_scope.

Definition point_named (i : t) (n : string) : VfsPoint :=
  {| pt_id := i; name := n; max_bytes := Some 5%N; read_only := false; scheme := "fs";
     config := {["root" := "/srv"]}; is_repo := false; repo_password := None |}.
Definition clash : VfsUser :=
  {| username := "bob"; points := [point_named id1 "docs"; point_named id2 "docs"] |}.
Definition settled : VfsUser :=
  {| username := "bob"; points := [point_named id1 "docs"; point_named id2 "docs-ffffffff"] |}.

Lemma demo_normalized : normalize_vfs_users (H0:=plain_foreign) [clash] = Ok [settled].
Proof. reflexivity. Qed.

Lemma settled_ok : well_named settled ∧ NoDup (point_ids (points settled)).
Proof. split; [split; [reflexivity|split]|]; by apply (bool_decide_unpack _). Qed.

Lemma normalize_makes_names_unique_witness :
  normalize_vfs_users (H0:=plain_foreign) [clash] = Ok [settled] ∧ validate_point_ids [settled] = Ok ().
Proof.
  split; [reflexivity|].
  apply (normalize_makes_names_unique (H1:=plain_foreign) [clash] [settled]). reflexivity.
Defined.

Definition wire_point : ProtoVfsPoint :=
  {| pv_id := "01234567-89ab-cdef-0123-456789abcdef"; pv_name := "docs"; pv_max_bytes := 5;
     pv_can_write := true; pv_src := Some (Data {| pp_scheme := "fs"; pp_config := ∅; pp_root := "/srv" |}) |}.
Lemma wire_round_trip_witness :
  point_of_proto (proto_of_point (point_named id1 "docs")) = Ok (point_named id1 "docs").
Proof.
  apply (wire_round_trip wire_point).
  - reflexivity.
  - by intros [=].
Defined.

Lemma file_paths_resolve_and_back_witness :
  ∃ vfs, resolve_file_path settled (Some (Indexed (proj1_sig id2) "a/b")) = Ok vfs ∧
         vfs = "/points/docs-ffffffff/a/b".
Proof.
  destruct (file_paths_resolve_and_back settled (point_named id2 "docs-ffffffff") ["a"; "b"]%list)
    as [(vfs & H1 & H2 & _) _].
  - apply settled_ok.
  - apply settled_ok.
  - right. by left.
  - by apply (bool_decide_unpack _).
  - exists vfs. split; [exact H1|rewrite H2; reflexivity].
Defined.

Example node_names : node_name "/a/b/" = "b" ∧ node_name "c" = "c".
Proof. split; reflexivity. Qed.

End Demo.
