(* ===== verification/Db.v ===== *)
(** * Persistence ([db.rs])

    [DbManager] over its two tables. SQLite and serde_json are third-party: a table
    is a map from its primary key, a statement may fail at any point (the script
    [faults] says which, so that a theorem over all databases covers every pattern of
    failures), a transaction that is not committed leaves no trace, and the JSON
    codec is a parameter with its round-trip law. Before it is opened a database is a
    [DbFile], which may lack its tables or hold the passwords of an older version;
    [migrate] and [open_db] make a [DbManager] of it.

    [DbManager] is proved to be a [QuotaTracker] that obeys [TrackerLaws], so the
    theorems of [QuotaState.v] apply to the engine over SQLite. *)

From S2P Require Import Prelude.
From S2P Require Import RustStr.
From S2P Require Import Errors.
From S2P Require Import Paths.
From S2P Require Import QuotaCounter.
From S2P Require Import QuotaState.
From S2P Require Import Points.
From stdpp Require Import options.
From Stdlib Require Import ZArith.
Close Scope string_scope.

(** ** Tables and statements *)

(** [users(username PRIMARY KEY, points)] and [quota(id PRIMARY KEY,
    bytes_written)]; [faults] scripts the outcome of the next statements. *)
Record DbManager := {
  users_t : gmap string string;
  quota_t : gmap string Z;
  faults : list (option string);
}.

Definition set_users_t (t : gmap string string) (db : DbManager) : DbManager :=
  {| users_t := t; quota_t := quota_t db; faults := faults db |}.
Definition set_quota_t (t : gmap string Z) (db : DbManager) : DbManager :=
  {| users_t := users_t db; quota_t := t; faults := faults db |}.

(** Run one statement: it fails as a whole, or has its effect. *)
Definition statement {A} (f : DbManager → result string A * DbManager) : M DbManager string A := λ db,
  match faults db with
  | Some e :: rest => (Err e, {| users_t := users_t db; quota_t := quota_t db; faults := rest |})
  | None :: rest => f {| users_t := users_t db; quota_t := quota_t db; faults := rest |}
  | [] => f db
  end.
(** [begin .. commit]: on an error the tables are as they were. *)
Definition transaction {E A} (body : M DbManager E A) : M DbManager E A := λ db,
  match body db with
  | (Ok a, db') => (Ok a, db')
  | (Err e, db') => (Err e, {| users_t := users_t db; quota_t := quota_t db; faults := faults db' |})
  end.

Definition sql_begin : M DbManager string () := statement (λ db, (Ok (), db)).
Definition sql_commit : M DbManager string () := statement (λ db, (Ok (), db)).
Definition sql_upsert_user (n ps : string) : M DbManager string () :=
  statement (λ db, (Ok (), set_users_t (<[n := ps]> (users_t db)) db)).
Definition sql_insert_user (n ps : string) : M DbManager string () :=
  statement (λ db, match users_t db !! n with
                   | Some _ => (Err "UNIQUE constraint failed: users.username"%string, db)
                   | None => (Ok (), set_users_t (<[n := ps]> (users_t db)) db)
                   end).
Definition sql_delete_user (n : string) : M DbManager string () :=
  statement (λ db, (Ok (), set_users_t (delete n (users_t db)) db)).
Definition sql_delete_users : M DbManager string () :=
  statement (λ db, (Ok (), set_users_t ∅ db)).
Definition sql_select_user (n : string) : M DbManager string (option string) :=
  statement (λ db, (Ok (users_t db !! n), db)).
(** [ORDER BY username] *)
Definition row_le (r1 r2 : string * string) : Prop := String.le r1.1 r2.1.
#[export] Instance row_le_dec r1 r2 : Decision (row_le r1 r2).
Proof. unfold row_le. apply _. Defined.
Definition rows (t : gmap string string) : list (string * string) := merge_sort row_le (map_to_list t).
Definition sql_select_users : M DbManager string (list (string * string)) :=
  statement (λ db, (Ok (rows (users_t db)), db)).

(** ** Users *)

Class JsonLib `{UuidLib} := {
  to_json : list VfsPoint → result string string;
  from_json : string → result string (list VfsPoint);
}.
Class JsonLaws `{JsonLib} : Prop := {
  json_round_trip ps s : to_json ps = Ok s → from_json s = Ok ps;
}.

Section Users.
Context `{JsonLib}.

Definition sql {A} (m : M DbManager string A) : M DbManager VfsError A := m_map_err SqlError m.

(** [TryFrom<UserRow> for VfsUser] *)
Definition user_of_row (r : string * string) : result VfsError VfsUser :=
  ps ← map_err SerdeError (from_json r.2); Ok {| username := r.1; points := ps |}.

(** [UserSystem::get_users] *)
Definition get_users : M DbManager VfsError (list VfsUser) :=
  rs ← sql sql_select_users; lift (collect user_of_row rs).
(** [UserSystem::get_user] *)
Definition get_user (n : string) : M DbManager VfsError VfsUser :=
  r ← sql (sql_select_user n);
  lift (ps ← ok_or UserNotFound r; user_of_row (n, ps)).

(** [DbManager::save_user] *)
Definition save_user (u : VfsUser) : M DbManager VfsError () :=
  _ ← lift (validate_db_username (username u));
  all ← get_users;
  let all := base.filter (λ v, username v ≠ username u) all ++ [u] in
  _ ← lift (validate_point_ids all);
  points_json ← lift (map_err SerdeError (to_json (points u)));
  sql (sql_upsert_user (username u) points_json).

(** [DbManager::delete_user] *)
Definition delete_user (n : string) : M DbManager VfsError () := sql (sql_delete_user n).

(** The first loop of [set_users]. *)
Fixpoint check_usernames (us : list VfsUser) (seen : gset string) : result VfsError () :=
  match us with
  | [] => Ok ()
  | u :: us =>
      _ ← validate_db_username (username u);
      if decide (username u ∈ seen)
      then Err (Internal ("duplicate username '" +:+ username u +:+ "'")%string)
      else check_usernames us ({[ username u ]} ∪ seen)
  end.
Fixpoint insert_users (us : list VfsUser) : M DbManager VfsError () :=
  match us with
  | [] => mret ()
  | u :: us =>
      points_json ← lift (map_err SerdeError (to_json (points u)));
      _ ← sql (sql_insert_user (username u) points_json);
      insert_users us
  end.
(** [UserSystem::set_users] *)
Definition set_users (us : list VfsUser) : M DbManager VfsError () :=
  _ ← lift (check_usernames us ∅);
  _ ← lift (validate_point_ids us);
  transaction (_ ← sql sql_begin; _ ← sql sql_delete_users; _ ← insert_users us; sql sql_commit).

End Users.

(** ** Quotas *)

Definition I64 (b : N) : option Z := if (b <=? I64_MAX)%N then Some (Z.of_N b) else None.

(** [db_err] *)
Definition db_err (context : string) (e : string) : DalError :=
  dal_error Kind.Unexpected ("Failed to " +:+ context)%string.

(** [DbManager::set_bytes] *)
Definition db_set_bytes (id : string) (b : N) : M DbManager DalError () :=
  v ← lift (ok_or (dal_error Kind.ConfigInvalid "quota byte count exceeds SQLite INTEGER range") (I64 b));
  m_map_err (db_err "set bytes quota")
    (statement (λ db, (Ok (), set_quota_t (<[id := v]> (quota_t db)) db))).
(** [DbManager::get_bytes] *)
Definition db_get_bytes (id : string) : M DbManager DalError N :=
  row ← m_map_err (λ _, dal_error Kind.Unexpected "Failed to get bytes written")
          (statement (λ db, (Ok (quota_t db !! id), db)));
  match row with
  | None => mret 0%N
  | Some bytes =>
      if (0 <=? bytes)%Z then mret (Z.to_N bytes)
      else throw (dal_error Kind.Unexpected "quota contains a negative byte count")
  end.
(** [DbManager::clear]: the row is deleted, where the provided method would store
    zero. *)
Definition db_clear (id : string) : M DbManager DalError () :=
  m_map_err (db_err "clear quota")
    (statement (λ db, (Ok (), set_quota_t (delete id (quota_t db)) db))).

#[export] Instance db_tracker : QuotaTracker DbManager :=
  {| set_bytes := db_set_bytes; get_bytes := db_get_bytes |}.

(** What a row is worth. *)
Definition row_bytes (o : option Z) : option N :=
  b ← o; if (0 <=? b)%Z then Some (Z.to_N b) else None.

Ltac db_step :=
  unfold db_set_bytes, db_get_bytes, db_clear, statement, m_map_err, lift, throw, I64, ok_or,
    mbind, M_bind, mret, M_ret in *;
  repeat case_match; simplify_eq/=; eauto.

#[export] Program Instance db_tracker_laws : TrackerLaws DbManager :=
  {| stored db id := row_bytes (quota_t db !! id) |}.
Next Obligation.
  intros id b t t' Hs. cbn in Hs. db_step; rewrite lookup_insert_eq; simpl;
    rewrite (proj2 (Z.leb_le _ _)) by lia; by rewrite N2Z.id.
Qed.
Next Obligation.
  intros id b t r t' id' Hs Hne. cbn in Hs. db_step; by rewrite lookup_insert_ne.
Qed.
Next Obligation.
  intros id b t t' Hg. cbn in Hg. unfold row_bytes. db_step; unfold option_bind, mbind in *; simpl in *;
    repeat case_match; simplify_eq/=; congruence.
Qed.
Next Obligation. intros id e t t' Hg Hk. cbn in Hg. db_step. Qed.
Next Obligation. intros id t r t' id' Hg. cbn in Hg. db_step. Qed.

(** ** Lemmas: the users table *)

Section TableLemmas.
Context `{JsonLaws}.
Implicit Types (t : gmap string string) (us : list VfsUser).

Lemma collect_permutation {E A B} (f : A → result E B) l l' r :
  l ≡ₚ l' → collect f l = Ok r → ∃ r', collect f l' = Ok r' ∧ r ≡ₚ r'.
Proof.
  intros Hp. revert r. induction Hp as [|x l l' _ IH|x y l|l1 l2 l3 _ IH1 _ IH2]; intros r; simpl.
  - intros [= <-]. eauto.
  - destruct (f x) as [a|]; simpl; [|done]. destruct (collect f l) as [b|]; simpl; [|done].
    intros [= <-]. destruct (IH b eq_refl) as (r' & -> & Hr). simpl. eauto.
  - destruct (f y) as [a|]; simpl; [|done]. destruct (f x) as [b|]; simpl; [|done].
    destruct (collect f l) as [c|]; simpl; [|done]. intros [= <-]. eexists. split; [done|]. constructor.
  - intros Hr. destruct (IH1 r Hr) as (r' & Hr' & Hp1). destruct (IH2 r' Hr') as (r'' & Hr'' & Hp2).
    exists r''. split; [done|]. by etrans.
Qed.

(** The table holds the users [us], in some order. *)
Definition decodes t us : Prop := ∃ r, collect user_of_row (map_to_list t) = Ok r ∧ r ≡ₚ us.
Definition consistent t : Prop := ∃ us, decodes t us ∧ validate_point_ids us = Ok ().

Lemma decodes_list t us l r : l ≡ₚ map_to_list t → collect user_of_row l = Ok r → r ≡ₚ us → decodes t us.
Proof.
  intros Hp Hc Hr. destruct (collect_permutation _ _ _ _ Hp Hc) as (r' & Hr' & Hpr).
  exists r'. split; [done|]. by rewrite <-Hpr.
Qed.
Lemma decodes_rows t us : decodes t us → ∃ r, collect user_of_row (rows t) = Ok r ∧ r ≡ₚ us.
Proof.
  intros (r & Hr & Hp). assert (map_to_list t ≡ₚ rows t) as Hpt by (unfold rows; by rewrite merge_sort_Permutation).
  destruct (collect_permutation _ _ _ _ Hpt Hr) as (r' & Hr' & Hp'). exists r'. split; [done|].
  by rewrite <-Hp', Hp.
Qed.
Lemma rows_decodes t us : collect user_of_row (rows t) = Ok us → decodes t us.
Proof. intros Hc. eapply decodes_list; [|done|done]. unfold rows. by rewrite merge_sort_Permutation. Qed.

Lemma decodes_empty : decodes ∅ [].
Proof. exists []. by rewrite map_to_list_empty. Qed.

Lemma user_of_row_name r u : user_of_row r = Ok u → username u = r.1.
Proof. unfold user_of_row. destruct (from_json r.2); simpl; [|done]. by intros [= <-]. Qed.
Lemma collect_names l r : collect user_of_row l = Ok r → map username r = map fst l.
Proof.
  intros Hr. apply collect_ok in Hr. induction Hr as [|x u l r Hx _ IH]; [done|].
  simpl. by rewrite IH, (user_of_row_name _ _ Hx).
Qed.

Lemma decodes_insert t us n s u :
  t !! n = None → username u = n → to_json (points u) = Ok s → decodes t us →
  decodes (<[n := s]> t) (u :: us).
Proof using H1.
  intros Hn Hu Hs (r & Hr & Hp). apply (decodes_list _ _ ((n, s) :: map_to_list t) (u :: r)).
  - by rewrite map_to_list_insert.
  - assert (Hrow : user_of_row (n, s) = Ok u).
    { unfold user_of_row. simpl. rewrite (json_round_trip _ _ Hs). simpl. subst n. by destruct u. }
    cbn [collect]. rewrite Hrow. simpl. by rewrite Hr.
  - by constructor.
Qed.

Lemma filter_names us (n : string) :
  n ∉ map username us → base.filter (λ v, username v ≠ n) us = us.
Proof.
  induction us as [|u us IH]; [done|]. simpl. rewrite not_elem_of_cons. intros [Hn Hin].
  rewrite filter_cons_True by congruence. by rewrite IH.
Qed.
Lemma decodes_delete t us n :
  decodes t us → decodes (delete n t) (base.filter (λ v, username v ≠ n) us).
Proof.
  intros (r & Hr & Hp). destruct (t !! n) as [s|] eqn:E.
  - assert (map_to_list t ≡ₚ (n, s) :: map_to_list (delete n t)) as Hpt.
    { rewrite <-map_to_list_insert by apply lookup_delete_eq. by rewrite insert_delete_id. }
    destruct (collect_permutation _ _ _ _ Hpt Hr) as (r' & Hr' & Hp'). simpl in Hr'.
    destruct (user_of_row (n, s)) as [u|] eqn:Eu; simpl in Hr'; [|done].
    destruct (collect user_of_row (map_to_list (delete n t))) as [r0|] eqn:E0; simpl in Hr'; [|done].
    injection Hr' as <-. exists r0. split; [done|].
    rewrite <-Hp, Hp', filter_cons_False.
    + rewrite filter_names; [done|]. rewrite (collect_names _ _ E0).
      intros ([k v] & -> & Hin)%list_elem_of_fmap. apply elem_of_map_to_list in Hin. simpl in *.
      by rewrite lookup_delete_eq in Hin.
    + apply user_of_row_name in Eu. simpl in Eu. by intros Hx.
  - rewrite delete_id by done. exists r. split; [done|]. rewrite <-Hp.
    rewrite filter_names; [done|]. rewrite (collect_names _ _ Hr).
    intros ([k v] & -> & Hin)%list_elem_of_fmap. apply elem_of_map_to_list in Hin. simpl in *. congruence.
Qed.

Lemma user_ids_permutation us us' : us ≡ₚ us' → user_ids us ≡ₚ user_ids us'.
Proof. intros Hp. unfold user_ids. by rewrite Hp. Qed.
Lemma validate_permutation us us' :
  us ≡ₚ us' → validate_point_ids us = Ok () → validate_point_ids us' = Ok ().
Proof. rewrite !validate_point_ids_iff. intros Hp. by rewrite (user_ids_permutation _ _ Hp). Qed.
Lemma validate_filter us (n : string) :
  validate_point_ids us = Ok () → validate_point_ids (base.filter (λ v, username v ≠ n) us) = Ok ().
Proof.
  rewrite !validate_point_ids_iff. intros [Hn Hnd].
  assert (Hsub : user_ids (base.filter (λ v, username v ≠ n) us) `sublist_of` user_ids us).
  { clear Hn Hnd. induction us as [|u us IH]; [done|].
    destruct (decide (username u ≠ n)) as [Hd|Hd].
    - rewrite filter_cons_True by done. by apply sublist_app.
    - rewrite filter_cons_False by done. by apply sublist_inserts_l. }
  split; [|by eapply sublist_NoDup]. intros Hin. apply Hn. by eapply elem_of_sublist.
Qed.

(** *** Statements *)

Lemma sql_ok {A} (f : DbManager → result string A * DbManager) db a db' :
  sql (statement f) db = (Ok a, db') →
  ∃ fs, f {| users_t := users_t db; quota_t := quota_t db; faults := fs |} = (Ok a, db').
Proof.
  unfold sql, m_map_err, statement. destruct db as [ut qt [|[e|] fs]]; simpl.
  - destruct (f _) as [[x|e] d] eqn:E; [|done]. intros [= <- <-]. eauto.
  - done.
  - destruct (f _) as [[x|e] d] eqn:E; [|done]. intros [= <- <-]. eauto.
Qed.
Lemma sql_err_tables {A} (f : DbManager → result string A * DbManager) db e db' :
  (∀ d e' d', f d = (Err e', d') → d' = d) →
  sql (statement f) db = (Err e, db') → users_t db' = users_t db ∧ quota_t db' = quota_t db.
Proof.
  intros Hf. unfold sql, m_map_err, statement. destruct db as [ut qt [|[e0|] fs]]; simpl.
  - destruct (f _) as [[x|e1] d] eqn:E; [done|]. intros [= <- <-]. by apply Hf in E as ->.
  - by intros [= <- <-].
  - destruct (f _) as [[x|e1] d] eqn:E; [done|]. intros [= <- <-]. by apply Hf in E as ->.
Qed.

Lemma insert_users_spec us db r db' us0 :
  insert_users us db = (r, db') → decodes (users_t db) us0 →
  quota_t db' = quota_t db ∧
  match r with Ok _ => ∃ us1, decodes (users_t db') us1 ∧ us1 ≡ₚ us ++ us0 | Err _ => True end.
Proof using H1.
  revert db us0; induction us as [|u us IH]; intros db us0; simpl.
  { intros [= <- <-] Hd. split; [done|]. eauto. }
  unfold mbind, M_bind, lift. destruct (to_json (points u)) as [s|e] eqn:Ej; simpl; [|by intros [= <- <-]].
  destruct (sql (sql_insert_user (username u) s) db) as [[[]|e] db1] eqn:E1.
  - apply sql_ok in E1 as (fs & E1). simpl in E1.
    destruct (users_t db !! username u) as [x|] eqn:Ex; [done|]. injection E1 as <-.
    intros E2 Hd. apply (IH _ (u :: us0)) in E2 as [Hq Hr].
    + split; [done|]. destruct r as [[]|]; [|done]. destruct Hr as (us1 & Hd1 & Hp1). exists us1.
      split; [done|]. rewrite Hp1. by rewrite Permutation_middle.
    + simpl. by apply decodes_insert.
  - intros [= <- <-] _. apply sql_err_tables in E1 as [_ Hq]; [done|].
    intros d e' d' Hx. destruct (users_t d !! username u); by simplify_eq.
Qed.

Lemma set_users_body us db db' :
  set_users us db = (Ok (), db') →
  ∃ us1, decodes (users_t db') us1 ∧ us1 ≡ₚ us ∧ quota_t db' = quota_t db ∧ validate_point_ids us = Ok ().
Proof using H1.
  unfold set_users, mbind, M_bind, lift, transaction.
  destruct (check_usernames us ∅) as [[]|]; [|done].
  destruct (validate_point_ids us) as [[]|] eqn:Ev; [|done].
  destruct (sql sql_begin db) as [[[]|e] db1] eqn:E1; [|done].
  destruct (sql sql_delete_users db1) as [[[]|e] db2] eqn:E2; [|done].
  destruct (insert_users us db2) as [[[]|e] db3] eqn:E3; [|done].
  destruct (sql sql_commit db3) as [[[]|e] db4] eqn:E4; [|done]. intros [= <-].
  apply sql_ok in E1 as (f1 & [= <-]). apply sql_ok in E2 as (f2 & [= <-]). apply sql_ok in E4 as (f4 & [= <-]).
  apply (insert_users_spec _ _ _ _ []) in E3 as [Hq (us1 & Hd & Hp)]; [|apply decodes_empty].
  rewrite app_nil_r in Hp. exists us1. by split_and!.
Qed.
Lemma transaction_err {E A} (body : M DbManager E A) db e db' :
  transaction body db = (Err e, db') → users_t db' = users_t db ∧ quota_t db' = quota_t db.
Proof. unfold transaction. destruct (body db) as [[a|e1] d]; [done|]. by intros [= _ <-]. Qed.
Lemma set_users_err us db e db' :
  set_users us db = (Err e, db') → users_t db' = users_t db ∧ quota_t db' = quota_t db.
Proof.
  unfold set_users, lift. unfold mbind at 1, M_bind at 1.
  destruct (check_usernames us ∅) as [[]|]; [|by intros [= _ <-]].
  unfold mbind at 1, M_bind at 1. destruct (validate_point_ids us) as [[]|]; [|by intros [= _ <-]].
  apply transaction_err.
Qed.

Lemma get_users_ok db us db' :
  get_users db = (Ok us, db') → users_t db' = users_t db ∧ quota_t db' = quota_t db ∧
  collect user_of_row (rows (users_t db)) = Ok us.
Proof.
  unfold get_users, mbind, M_bind, lift. destruct (sql sql_select_users db) as [[rs|e] db1] eqn:E; [|done].
  apply sql_ok in E as (fs & [= <- <-]). intros [= Hc <-]. done.
Qed.
Lemma get_users_tables db r db' :
  get_users db = (r, db') → users_t db' = users_t db ∧ quota_t db' = quota_t db.
Proof.
  unfold get_users, mbind, M_bind, lift. destruct (sql sql_select_users db) as [[rs|e] db1] eqn:E.
  - apply sql_ok in E as (fs & [= _ <-]). by intros [= _ <-].
  - apply sql_err_tables in E; [|done]. by intros [= _ <-].
Qed.

Lemma save_user_spec u db r db' :
  save_user u db = (r, db') →
  quota_t db' = quota_t db ∧
  match r with
  | Ok _ => ∃ us, decodes (users_t db) us ∧
      decodes (users_t db') (u :: base.filter (λ v, username v ≠ username u) us) ∧
      validate_point_ids (u :: base.filter (λ v, username v ≠ username u) us) = Ok ()
  | Err _ => users_t db' = users_t db
  end.
Proof using H1.
  unfold save_user, mbind, M_bind, lift.
  destruct (validate_db_username (username u)) as [[]|]; [|by intros [= <- <-]].
  destruct (get_users db) as [[us|e] db1] eqn:Eg.
  2: { apply get_users_tables in Eg as [? ?]. by intros [= <- <-]. }
  apply get_users_ok in Eg as (Hu & Hq & Hc). apply rows_decodes in Hc.
  destruct (validate_point_ids _) as [[]|] eqn:Ev; [|by intros [= <- <-]].
  destruct (map_err SerdeError (to_json (points u))) as [s|] eqn:Ej; [|by intros [= <- <-]].
  destruct (to_json (points u)) as [s'|] eqn:Ej'; [|done]. injection Ej as ->.
  destruct (sql (sql_upsert_user (username u) s) db1) as [[[]|e] db2] eqn:Es; intros [= <- <-].
  - apply sql_ok in Es as (fs & [= <-]). simpl. split; [done|]. exists us. split; [done|].
    split; [|by eapply validate_permutation; [|exact Ev]; rewrite Permutation_app_comm].
    rewrite Hu, <-insert_delete_eq. apply decodes_insert; [apply lookup_delete_eq|done|done|].
    by apply decodes_delete.
  - apply sql_err_tables in Es as [H2 H3]; [|done]. split; congruence.
Qed.

End TableLemmas.

(** ** Properties *)

Section DbProperties.
Context `{JsonLaws}.

Lemma user_le_rows t us :
  collect user_of_row (rows t) = Ok us → Sorted String.le (map username us).
Proof.
  intros Hc. rewrite (collect_names _ _ Hc). unfold rows.
  assert (Hs : Sorted row_le (merge_sort row_le (map_to_list t))).
  { apply Sorted_merge_sort. intros r1 r2. unfold row_le. apply String.le_total. }
  induction Hs as [|r l Hs IH Hhd]; simpl; [constructor|]. constructor; [done|].
  destruct Hhd; simpl; by constructor.
Qed.

(** Replacing the configuration is atomic: if it succeeds, the table holds
    exactly the given users, read back sorted by name, whatever was there before;
    if anything fails (a name or id check, the encoding, any statement, the commit),
    users and quotas are as they were. *)
Theorem set_users_is_atomic us db r db' :
  set_users us db = (r, db') →
  quota_t db' = quota_t db ∧
  match r with
  | Ok _ => ∃ us', collect user_of_row (rows (users_t db')) = Ok us' ∧ us' ≡ₚ us ∧
                   Sorted String.le (map username us')
  | Err _ => users_t db' = users_t db
  end.
Proof using H1.
  intros Hs. destruct r as [[]|e].
  - apply set_users_body in Hs as (us1 & Hd & Hp & Hq & _). split; [done|].
    apply decodes_rows in Hd as (us2 & Hc & Hp2). exists us2. split; [done|].
    split; [by rewrite Hp2|by eapply user_le_rows].
  - apply set_users_err in Hs as [? ?]. done.
Qed.

(** The stored configuration stays well-identified: if the users in the table
    decode and their point ids pass the check, they do so after any save, delete or
    replacement, successful or not; and a successful replacement establishes it. *)
Theorem stored_ids_stay_valid db :
  (∀ u r db', consistent (users_t db) → save_user u db = (r, db') → consistent (users_t db')) ∧
  (∀ n r db', consistent (users_t db) → delete_user n db = (r, db') → consistent (users_t db')) ∧
  (∀ us r db', consistent (users_t db) → set_users us db = (r, db') → consistent (users_t db')) ∧
  (∀ us db', set_users us db = (Ok (), db') → consistent (users_t db')).
Proof using H1.
  assert (Hset : ∀ us db', set_users us db = (Ok (), db') → consistent (users_t db')).
  { intros us db' Hs. apply set_users_body in Hs as (us1 & Hd & Hp & _ & Hv). exists us1.
    split; [done|]. by eapply validate_permutation. }
  split_and!; [| | |done].
  - intros u r db' Hc Hs. apply save_user_spec in Hs as [_ Hs]. destruct r as [[]|e].
    + destruct Hs as (us & _ & Hd & Hv). by eexists.
    + by rewrite Hs.
  - intros n r db' (us & Hd & Hv) Hs. unfold delete_user in Hs. destruct r as [[]|e].
    + apply sql_ok in Hs as (fs & [= <-]). simpl. eexists. split; [by apply decodes_delete|].
      by apply validate_filter.
    + apply sql_err_tables in Hs as [-> _]; [|done]. by exists us.
  - intros us r db' Hc Hs. destruct r as [[]|e]; [by eapply Hset|].
    by apply set_users_err in Hs as [-> _].
Qed.

End DbProperties.

(** The quota table round-trips totals up to [i64::MAX]: when the statements
    succeed, what was set is read back, a cleared or unknown id reads as zero, and
    other ids are untouched; a total above the range of an SQLite integer is refused
    and nothing is stored. *)
Theorem quota_rows_round_trip db id b :
  faults db = [] →
  let '(r, db') := db_set_bytes id b db in
  ((b ≤ I64_MAX)%N → r = Ok () ∧ db_get_bytes id db' = (Ok b, db') ∧
     db_get_bytes id (db_clear id db').2 = (Ok 0%N, (db_clear id db').2) ∧
     ∀ id', id' ≠ id → quota_t db' !! id' = quota_t db !! id') ∧
  ((I64_MAX < b)%N → is_ok r = false ∧ db' = db) ∧
  (quota_t db !! id = None → db_get_bytes id db = (Ok 0%N, db)).
Proof.
  destruct db as [ut qt fs]. simpl. intros ->.
  unfold db_set_bytes, db_get_bytes, db_clear, statement, m_map_err, lift, throw, I64, mbind, M_bind, mret, M_ret.
  simpl. destruct (N.leb_spec b I64_MAX) as [Hle|Hgt]; simpl.
  - rewrite lookup_insert_eq, lookup_delete_eq, (proj2 (Z.leb_le _ _)) by lia.
    rewrite N2Z.id. split_and!; try done; [|lia|].
    + intros _. split_and!; try done. intros id' Hne. by rewrite lookup_insert_ne.
    + by intros ->.
  - split_and!; try done; [lia|]. by intros ->.
Qed.

(** ** Opening and migrating a database

    The file as [open] finds it: a table that does not exist yet is [None]; databases from
    before the removal of FTP have a column [password]. *)

Record DbFile := {
  f_users : option (gmap string string);
  f_passwords : option (gmap string string);
  f_quota : option (gmap string Z);
  f_faults : list (option string);
}.
Definition set_faults (l : list (option string)) (f : DbFile) : DbFile :=
  {| f_users := f_users f; f_passwords := f_passwords f; f_quota := f_quota f; f_faults := l |}.
Definition on_file {A} (m : DbFile → A * DbFile) : M DbFile VfsError A := λ f,
  match f_faults f with
  | Some e :: rest => (Err (SqlError e), set_faults rest f)
  | None :: rest => let '(a, f') := m (set_faults rest f) in (Ok a, f')
  | [] => let '(a, f') := m f in (Ok a, f')
  end.

Definition create_users_table : M DbFile VfsError () := on_file (λ f, ((),
  {| f_users := Some (opt_or ∅ (f_users f)); f_passwords := f_passwords f; f_quota := f_quota f; f_faults := f_faults f |})).
Definition create_quota_table : M DbFile VfsError () := on_file (λ f, ((),
  {| f_users := f_users f; f_passwords := f_passwords f; f_quota := Some (opt_or ∅ (f_quota f)); f_faults := f_faults f |})).
Definition count_password_columns : M DbFile VfsError nat :=
  on_file (λ f, (match f_passwords f with Some _ => 1 | None => 0 end, f)).
Definition drop_password_column : M DbFile VfsError () := on_file (λ f, ((),
  {| f_users := f_users f; f_passwords := None; f_quota := f_quota f; f_faults := f_faults f |})).
(** [DbManager::migrate]; the two tables are created by one query, statement by statement. *)
Definition migrate : M DbFile VfsError () :=
  _ ← create_users_table;
  _ ← create_quota_table;
  has_password ← count_password_columns;
  if 0 <? has_password then drop_password_column else mret ().
(** [DbManager::open]; [path] is its path if that is valid UTF-8. *)
Definition open_db (path : option string) : M DbFile VfsError DbManager :=
  _ ← lift (ok_or (Internal "database path must be valid UTF-8"%string) path);
  _ ← on_file (λ f, ((), f));
  _ ← migrate;
  gets (λ f, {| users_t := opt_or ∅ (f_users f); quota_t := opt_or ∅ (f_quota f); faults := f_faults f |}).

(** What every statement of a migration keeps. *)
Definition upgrades (f f' : DbFile) : Prop :=
  opt_or ∅ (f_users f') = opt_or ∅ (f_users f) ∧ opt_or ∅ (f_quota f') = opt_or ∅ (f_quota f) ∧
  (f_passwords f' = f_passwords f ∨ f_passwords f' = None).
Definition migrated (f : DbFile) : Prop := is_Some (f_users f) ∧ is_Some (f_quota f) ∧ f_passwords f = None.
Lemma on_file_triple {A} f0 (P : DbFile → Prop) (m : DbFile → A * DbFile) (Q : A → DbFile → Prop) :
  (∀ f l, P f → P (set_faults l f)) → (∀ f, P f → upgrades f0 f) → (∀ f, P f → Q (m f).1 (m f).2) →
  triple P (on_file m) Q (upgrades f0).
Proof.
  intros Hl Hu Hm f Hf. unfold on_file. destruct (f_faults f) as [|[e|] rest].
  - specialize (Hm f Hf). by destruct (m f).
  - by apply Hu, Hl.
  - specialize (Hm _ (Hl f rest Hf)). by destruct (m _).
Qed.
Lemma migrate_triple f0 : triple (upgrades f0) migrate (λ _ f, upgrades f0 f ∧ migrated f) (upgrades f0).
Proof.
  eapply (triple_bind _ _ (λ _ f, upgrades f0 f ∧ is_Some (f_users f))).
  { apply on_file_triple; [done|done|]. intros f (Hu & Hq & Hp). split; [split_and!; done|eauto]. }
  intros _. eapply (triple_bind _ _ (λ _ f, upgrades f0 f ∧ is_Some (f_users f) ∧ is_Some (f_quota f))).
  { apply on_file_triple; [done|by intros f [? _]|]. intros f [(Hu & Hq & Hp) Hs]. split; [split_and!; done|eauto]. }
  intros _. eapply (triple_bind _ _ (λ n f, upgrades f0 f ∧ is_Some (f_users f) ∧ is_Some (f_quota f) ∧ (n = 0 → f_passwords f = None))).
  { apply on_file_triple; [done|by intros f [? _]|]. intros f (Hf & Hs & Hq). split_and!; try done. cbn. by destruct (f_passwords f). }
  intros [|n]; cbn.
  - apply triple_ret. intros f (Hf & Hs & Hq & Hp). split; [done|]. split_and!; auto.
  - apply on_file_triple; [done|by intros f [? _]|]. intros f ((Hu & Hq & _) & Hs & Hqs & _). split; [split_and!; auto|done].
Qed.

(** Opening never loses a user or a quota, wherever it stops; the manager it returns has
    exactly those of the file, the old passwords are gone, and opening the file again
    changes nothing. *)
Theorem open_db_inv path f r f' :
  open_db path f = (r, f') →
  upgrades f f' ∧
  ∀ db, r = Ok db →
    users_t db = opt_or ∅ (f_users f) ∧ quota_t db = opt_or ∅ (f_quota f) ∧ f_passwords f' = None ∧
    open_db path (set_faults [] f') = (Ok {| users_t := users_t db; quota_t := quota_t db; faults := [] |}, set_faults [] f').
Proof.
  intros Hr.
  assert (Ht : triple (upgrades f) (open_db path)
            (λ db f1, upgrades f f1 ∧ migrated f1 ∧ is_Some path ∧ users_t db = opt_or ∅ (f_users f1) ∧ quota_t db = opt_or ∅ (f_quota f1))
            (upgrades f)).
  { eapply (triple_bind _ _ (λ _ f1, is_Some path ∧ upgrades f f1)).
    { apply triple_lift; [|done]. intros p f1. destruct path; [by split|done]. }
    intros _. apply triple_pure. intros Hpath. step ltac:(by apply (on_file_triple _ _ _ (λ _, upgrades f))).
    step ltac:(apply migrate_triple). intros f1 [Hu Hm]. cbn. by split_and!. }
  specialize (Ht f). rewrite Hr in Ht. assert (Hf : upgrades f f) by (split_and!; auto).
  specialize (Ht Hf). destruct r as [db|e]; [|done]. destruct Ht as (Hu & ([u Hus] & [q Hqs] & Hp) & [pa ->] & Hdu & Hdq).
  split; [done|]. intros db' [= <-]. destruct Hu as (Hu & Hq & _). split_and!; [congruence|congruence|done|].
  destruct f' as [? ? ? ?]; cbn in *. subst. rewrite Hdu, Hdq. done.
Qed.

(** ** A concrete database *)

Section Demo.
Import PlainUuid.
Open Scope string_scope.

(** A codec for the configurations of the example: a point is found by its id. *)
Definition json_point : VfsPoint :=
  {| pt_id := id1; name := "docs"; max_bytes := None; read_only := false; scheme := "fs";
     config := ∅; is_repo := false; repo_password := None |}.
#[local] Instance demo_json : JsonLib := {|
  to_json ps := if bool_decide (ps = []) then Ok "[]" else
                if bool_decide (ps = [json_point]) then Ok "[docs]" else Err "unsupported";
  from_json s := if bool_decide (s = "[]") then Ok [] else
                 if bool_decide (s = "[docs]") then Ok [json_point] else Err "malformed";
|}.
#[local] Instance demo_json_laws : JsonLaws.
Proof.
  split. intros ps s. cbn. repeat case_bool_decide; intros [= <-]; subst; done.
Qed.

Definition demo_users : list VfsUser :=
  [{| username := "bob"; points := [] |}; {| username := "alice"; points := [json_point] |}].
Definition demo_db (fs : list (option string)) : DbManager :=
  {| users_t := {["old" := "[]"]}; quota_t := {["q" := 7%Z]}; faults := fs |}.

Lemma set_users_is_atomic_witness :
  users_t (set_users demo_users (demo_db [None; None; None; Some "disk full"])).2 = {["old" := "[]"]} ∧
  is_ok (set_users demo_users (demo_db [None; None; None; Some "disk full"])).1 = false.
Proof.
  assert (Hr : is_ok (set_users demo_users (demo_db [None; None; None; Some "disk full"])).1 = false) by reflexivity.
  split; [|exact Hr].
  pose proof (set_users_is_atomic demo_users (demo_db [None; None; None; Some "disk full"]) _ _
    (surjective_pairing _)) as [_ H].
  destruct (set_users demo_users (demo_db [None; None; None; Some "disk full"])).1; [done|exact H].
Defined.

Lemma stored_ids_stay_valid_witness : consistent (users_t (set_users demo_users (demo_db [])).2).
Proof.
  destruct (stored_ids_stay_valid (demo_db [])) as (_ & _ & _ & H).
  apply (H demo_users). reflexivity.
Defined.

(** An id that was never recorded reads as zero, not as an error. *)
Example unknown_id_reads_zero : (db_get_bytes "never recorded" (demo_db [])).1 = Ok 0%N.
Proof. reflexivity. Qed.
Lemma quota_rows_round_trip_witness :
  db_get_bytes "q" (db_set_bytes "q" 12 (demo_db [])).2 = (Ok 12%N, (db_set_bytes "q" 12 (demo_db [])).2).
Proof.
  pose proof (quota_rows_round_trip (demo_db []) "q" 12 eq_refl) as H.
  destruct (db_set_bytes "q" 12 (demo_db [])) as [r db'] eqn:E. simpl.
  destruct H as [H _]. apply H. by vm_compute.
Defined.

End Demo.
