(* ===== verification/Retention.v ===== *)
(** * Repository retention ([retention.rs])

    Time rules plus oldest-first space reclaim. The rustic repository is third-party:
    its handle, its snapshots and its pruning are the operations of the class
    [RusticLib], over a world [W] that anything else (backups, other handles, the
    quota counter) may change between two calls, so the theorems hold for every
    behaviour of the repository. What the code itself does is the [trace]: the calls
    it makes and the messages it sends, latest first. The text of a message is not
    modelled, its kind and its numbers are. *)

From S2P Require Import Prelude.
From S2P Require Import RustStr.
From stdpp Require Import options.
From Stdlib Require Import ZArith.
Close Scope string_scope.

(** ** Policies *)

(** [ipc::RetentionPolicy]: counts are [u32], [reserve_bytes] is [u64]. *)
Record RetentionPolicy := {
  keep_last : N; keep_hourly : N; keep_daily : N; keep_weekly : N;
  keep_monthly : N; keep_yearly : N; keep_within_days : N;
  reserve_bytes : N; reserve_percent : N;
}.
Definition no_policy : RetentionPolicy :=
  {| keep_last := 0; keep_hourly := 0; keep_daily := 0; keep_weekly := 0; keep_monthly := 0;
     keep_yearly := 0; keep_within_days := 0; reserve_bytes := 0; reserve_percent := 0 |}.

Definition MAX_SPACE_ROUNDS : nat := 64.
Definition MAX_RESERVE_DIVISOR : N := 2.

Definition has_time_rules (p : RetentionPolicy) : bool :=
  (0 <? keep_last p)%N || (0 <? keep_hourly p)%N || (0 <? keep_daily p)%N || (0 <? keep_weekly p)%N
  || (0 <? keep_monthly p)%N || (0 <? keep_yearly p)%N || (0 <? keep_within_days p)%N.
Definition has_space_rule (p : RetentionPolicy) : bool :=
  (0 <? reserve_bytes p)%N || (0 <? reserve_percent p)%N.
Definition has_rules (p : RetentionPolicy) : bool := has_time_rules p || has_space_rule p.

Definition keep_counts (p : RetentionPolicy) : list N :=
  [keep_last p; keep_hourly p; keep_daily p; keep_weekly p; keep_monthly p; keep_yearly p].
Definition validate (p : RetentionPolicy) : result string () :=
  if negb (has_rules p) then Err "the retention policy has no rules"%string
  else if (50 <? reserve_percent p)%N then Err "reserve_percent must be at most 50"%string
  else if (36500 <? keep_within_days p)%N then Err "keep_within_days must be at most 36500"%string
  else if list_any (λ c, (I32_MAX <? c)%N) (keep_counts p) then Err "keep counts are too large"%string
  else Ok ().

(** The percentage is computed in [u128], so only the cast back can wrap. *)
Definition target_free (max_bytes : N) (p : RetentionPolicy) : N :=
  let by_percent := ((max_bytes * reserve_percent p / 100) mod (U64_MAX + 1))%N in
  N.min (N.max (reserve_bytes p) by_percent) (max_bytes / MAX_RESERVE_DIVISOR).

(** [u32 as i32] *)
Definition as_i32 (n : N) : Z :=
  if (n <=? I32_MAX)%N then Z.of_N n else (Z.of_N n - 4294967296)%Z.

(** ** The repository *)

(** rustic's [DeleteOption]. *)
Inductive DeleteOption :=
| NotSet
| Never
| After (t : Z).

(** rustic's [KeepOptions], through its builder methods. *)
Record KeepOptions (Span : Type) := {
  ko_last : option Z; ko_hourly : option Z; ko_daily : option Z; ko_weekly : option Z;
  ko_monthly : option Z; ko_yearly : option Z; ko_within : option Span;
}.
Arguments ko_last {Span} _.
Arguments ko_hourly {Span} _.
Arguments ko_daily {Span} _.
Arguments ko_weekly {Span} _.
Arguments ko_monthly {Span} _.
Arguments ko_yearly {Span} _.
Arguments ko_within {Span} _.

(** What the code uses of rustic and of the world around it. *)
Class RusticLib := {
  W : Type;
  SnapshotId : Type;
  SnapshotFile : Type;
  Span : Type;
  LimitOption : Type;
  sn_id : SnapshotFile → SnapshotId;
  sn_time : SnapshotFile → Z;
  sn_delete : SnapshotFile → DeleteOption;
  (** [summary.data_added_packed] *)
  sn_summary : SnapshotFile → option N;
  must_keep : SnapshotFile → Z → bool;
  (** [Grouped::from_items(.., host + label + paths).groups] *)
  grouped : list SnapshotFile → list (list SnapshotFile);
  (** [ForgetGroups::from_grouped_snapshots_with_retention]: the snapshots of each
      group with their [keep] flag. *)
  forget_groups : list (list SnapshotFile) → KeepOptions Span → Z →
                  result string (list (list (SnapshotFile * bool)));
  try_days : N → result string Span;
  no_span : Span;
  limit_from_str : string → result string LimitOption;
  limit_percentage : N → LimitOption;
  (** The handle and the closures of [Retention]. *)
  RepoIndexed : Type;
  repo_open : M W string RepoIndexed;
  get_all_snapshots : RepoIndexed → M W string (list SnapshotFile);
  delete_snapshots : RepoIndexed → list SnapshotId → M W string ();
  (** [prune_plan] and [prune] with [max_repack], and for an instant prune
      [max_unused], [keep_delete] and [instant_delete]. *)
  repo_prune : RepoIndexed → option LimitOption → option (LimitOption * Span) → M W string ();
  used_bytes : M W string N;
  is_cancelled : W → bool * W;
  zoned_now : W → Z * W;
}.

(** Documented behaviour of rustic: groups partition the listed snapshots, locked
    snapshots must always be kept, and [forget] only flags what it was given. *)
Class RusticLaws `{RusticLib} := {
  grouped_partition l : concat (grouped l) ≡ₚ l;
  grouped_nonempty l g : g ∈ grouped l → g ≠ [];
  must_keep_never s t : sn_delete s = Never → must_keep s t = true;
  forget_items gs k t gs' :
    forget_groups gs k t = Ok gs' → map (map fst) gs' = gs;
}.

(** ** One run *)

Section Retention.
Context `{RusticLib}.

Definition set_if (c : N) : option Z := if (0 <? c)%N then Some (as_i32 c) else None.
Definition build_keep (p : RetentionPolicy) : result string (option (KeepOptions Span)) :=
  if negb (has_time_rules p) then Ok None
  else
    within ← (if (0 <? keep_within_days p)%N
              then span ← map_err (λ _, "invalid keep_within_days"%string) (try_days (keep_within_days p));
                   Ok (Some span)
              else Ok None);
    Ok (Some {| ko_last := set_if (keep_last p); ko_hourly := set_if (keep_hourly p);
                ko_daily := set_if (keep_daily p); ko_weekly := set_if (keep_weekly p);
                ko_monthly := set_if (keep_monthly p); ko_yearly := set_if (keep_yearly p);
                ko_within := within |}).

Definition is_locked (sn : SnapshotFile) : bool :=
  match sn_delete sn with Never => true | _ => false end.
Definition added_bytes (sn : SnapshotFile) : N := opt_or 0%N (sn_summary sn).

(** [sort_by(|a, b| a.time.cmp(&b.time))]: a stable sort, as is stdpp's. *)
Definition older (a b : SnapshotFile) : Prop := (sn_time a ≤ sn_time b)%Z.
#[export] Instance older_dec a b : Decision (older a b).
Proof. unfold older. apply _. Defined.
Definition sort_by_time (l : list SnapshotFile) : list SnapshotFile := merge_sort older l.

Definition fifo_candidates (all : list SnapshotFile) (now : Z) : list SnapshotFile :=
  sort_by_time (concat (map (λ group,
    List.filter (λ s, negb (must_keep s now)) (removelast (sort_by_time group))) (grouped all))).

Inductive Phase := SpaceOnly | Full.
#[export] Instance phase_eq_dec : EqDecision Phase.
Proof. solve_decision. Defined.

Record Report := { time_deleted : N; space_deleted : N; bytes_freed : N }.
Definition empty_report : Report := {| time_deleted := 0; space_deleted := 0; bytes_freed := 0 |}.

Inductive Priority := Info | Warning.
Inductive Message :=
| LockedNeverRemoved (n : nat)
| NothingToRemove (total : nat)
| DryRunTime (n total : nat)
| WouldRemove (sn : SnapshotFile)
| RemovedTime (n total : nat)
| ReclaimedTime (freed : N)
| SpaceCancelled
| FreeSpaceIs (free wanted : N)
| NothingMoreToRemove (free wanted : N)
| DryRunSpace (free wanted : N)
| RemovedSpace (n : nat) (upto : option SnapshotFile) (freed free : N)
| PruneFreedNothing
| StoppedTwoEmptyRounds
| StoppedAfterRounds (wanted : N)
(** The messages of the jobs in [server.rs] that run it. *)
| CouldNotMakeRoom (e : string)
| BackupRetained (deleted freed : N)
| RetentionFailed (e : string)
| SpaceRuleSkipped
| DryRunFinished
| RetentionFinished (by_time by_space freed : N).

Inductive Event :=
| EOpen
| EListed (all : list SnapshotFile) (now : Z)
| EDelete (ids : list SnapshotId)
| EPrune (free used : N) (budget : option N) (instant : bool)
| ESay (p : Priority) (m : Message).

Record St := { world : W; trace : list Event; report : Report }.

Definition emit (e : Event) : M St string () :=
  modify (λ s, {| world := world s; trace := e :: trace s; report := report s |}).
Definition call {A} (m : M W string A) : M St string A := λ s,
  let '(r, w) := m (world s) in (r, {| world := w; trace := trace s; report := report s |}).
Definition say (p : Priority) (m : Message) : M St string () := emit (ESay p m).
Definition set_report (f : Report → Report) : M St string () :=
  modify (λ s, {| world := world s; trace := trace s; report := f (report s) |}).

Definition add_time (n : nat) (r : Report) : Report :=
  {| time_deleted := time_deleted r + N.of_nat n; space_deleted := space_deleted r; bytes_freed := bytes_freed r |}.
Definition add_space (n : nat) (r : Report) : Report :=
  {| time_deleted := time_deleted r; space_deleted := space_deleted r + N.of_nat n; bytes_freed := bytes_freed r |}.
Definition add_freed (n : N) (r : Report) : Report :=
  {| time_deleted := time_deleted r; space_deleted := space_deleted r; bytes_freed := bytes_freed r + n |}.

Definition open_repo : M St string RepoIndexed := repo ← call repo_open; _ ← emit EOpen; mret repo.
Definition cancelled : M St string bool := call (λ w, let '(b, w') := is_cancelled w in (Ok b, w')).
Definition now_zoned : M St string Z := call (λ w, let '(t, w') := zoned_now w in (Ok t, w')).
Definition used : M St string N :=
  call (m_map_err (λ e, "could not read repository usage: " +:+ e)%string used_bytes).
(** [self.used().unwrap_or(d)] *)
Definition used_or (d : N) : M St string N := r ← attempt used; mret (unwrap_or d r).

(** The fields of [Retention] that do not change during a run. *)
Context (max_bytes : option N) (dry_run : bool).

Definition prune (instant : bool) : M St string () :=
  c ← cancelled;
  if c : bool then mret ()
  else
    repo ← open_repo;
    opts ← match max_bytes with
           | None => mret (None, 0%N, 0%N, None)
           | Some max =>
             u ← used_or 0;
             let free := saturating_sub max u in
             let budget := N.min (free / 2) (u / 10) in
             limit ← lift (limit_from_str (pretty budget +:+ "B"));
             mret (Some limit, free, u, Some budget)
           end;
    let '(max_repack, free, u, budget) := (opts : option LimitOption * N * N * option N) in
    _ ← emit (EPrune free u budget instant);
    call (repo_prune repo max_repack (if instant then Some (limit_percentage 0, no_span) else None)).

Definition locked_message (locked : nat) : M St string () :=
  if 0 <? locked then say Info (LockedNeverRemoved locked) else mret ().
Fixpoint say_each (l : list SnapshotFile) : M St string () :=
  match l with
  | [] => mret ()
  | sn :: l => _ ← say Info (WouldRemove sn); say_each l
  end.

Definition doomed_of (groups : list (list (SnapshotFile * bool))) (now : Z) : list SnapshotFile :=
  sort_by_time (map fst (List.filter (λ '(sn, keep), negb keep && negb (must_keep sn now)) (concat groups))).

Definition time_step (keep : KeepOptions Span) (instant : bool) : M St string () :=
  c ← cancelled;
  if c : bool then mret ()
  else
    repo ← open_repo;
    now ← now_zoned;
    all ← call (get_all_snapshots repo);
    _ ← emit (EListed all now);
    let total := length all in
    _ ← locked_message (length (List.filter is_locked all));
    groups ← lift (forget_groups (grouped all) keep now);
    let doomed := doomed_of groups now in
    if bool_decide (doomed = []) then say Info (NothingToRemove total)
    else if dry_run then
      _ ← say Info (DryRunTime (length doomed) total);
      _ ← say_each doomed;
      set_report (add_time (length doomed))
    else
      before ← used_or 0;
      let ids := map sn_id doomed in
      _ ← emit (EDelete ids);
      _ ← call (delete_snapshots repo ids);
      _ ← say Info (RemovedTime (length ids) total);
      _ ← set_report (add_time (length ids));
      _ ← prune instant;
      after ← used_or before;
      let freed := saturating_sub before after in
      _ ← set_report (add_freed freed);
      say Info (ReclaimedTime freed).

(** The oldest candidates until their recorded additions cover the deficit and the
    batch is large enough. *)
Fixpoint batch_from (deficit : N) (min_batch len : N) (estimate : N) (cands : list SnapshotFile) : list SnapshotFile :=
  match cands with
  | [] => []
  | sn :: cands =>
    let estimate := saturating_add estimate (added_bytes sn) in
    let len := (len + 1)%N in
    sn :: (if (deficit <=? estimate)%N && (min_batch <=? len)%N then []
           else batch_from deficit min_batch len estimate cands)
  end.

(** The rounds of [space_step]: [n] are left, [round] have run. *)
Fixpoint space_rounds (target max : N) (n round : nat) (min_batch empty_rounds : N) : M St string () :=
  match n with
  | 0 => say Warning (StoppedAfterRounds target)
  | S n =>
    c ← cancelled;
    if c : bool then say Warning SpaceCancelled
    else
      u ← used;
      let free := saturating_sub max u in
      if (target <=? free)%N then
        (if (0 <? round) || dry_run then say Info (FreeSpaceIs free target) else mret ())
      else
        let deficit := (target - free)%N in
        repo ← open_repo;
        now ← now_zoned;
        all ← call (get_all_snapshots repo);
        _ ← emit (EListed all now);
        let candidates := fifo_candidates all now in
        if bool_decide (candidates = []) then say Warning (NothingMoreToRemove free target)
        else
          let batch := batch_from deficit min_batch 0 0 candidates in
          if dry_run then
            _ ← say Info (DryRunSpace free target);
            _ ← say_each batch;
            set_report (add_space (length batch))
          else
            let ids := map sn_id batch in
            _ ← emit (EDelete ids);
            _ ← call (delete_snapshots repo ids);
            _ ← set_report (add_space (length ids));
            _ ← prune true;
            after ← used;
            let freed := saturating_sub u after in
            _ ← set_report (add_freed freed);
            _ ← say Info (RemovedSpace (length ids) (last batch) freed (saturating_sub max after));
            let min_batch' := if (freed <? deficit)%N
                              then N.max (N.min (min_batch * 2) U64_MAX) (N.of_nat (length ids)) else min_batch in
            if (freed =? 0)%N then
              _ ← say Warning PruneFreedNothing;
              if (2 <=? empty_rounds + 1)%N then say Warning StoppedTwoEmptyRounds
              else space_rounds target max n (S round) min_batch' (empty_rounds + 1)
            else space_rounds target max n (S round) min_batch' 0
  end.

Definition space_step (policy : RetentionPolicy) (max : N) : M St string () :=
  let target := target_free max policy in
  if (target =? 0)%N then mret ()
  else space_rounds target max MAX_SPACE_ROUNDS 0 1 0.

Definition run (policy : RetentionPolicy) (phase : Phase) : M St string Report :=
  _ ← set_report (λ _, empty_report);
  let space := has_space_rule policy && bool_decide (is_Some max_bytes) in
  _ ← (if bool_decide (phase = Full) then
         keep ← lift (build_keep policy);
         match keep with
         | Some keep => time_step keep space
         | None => mret ()
         end
       else mret ());
  _ ← (if space then
         match max_bytes with
         | Some max => space_step policy max
         | None => mret ()
         end
       else mret ());
  gets report.

(** ** Reasoning about the trace *)

Fixpoint last_listing (tr : list Event) : option (list SnapshotFile * Z) :=
  match tr with
  | [] => None
  | EListed all now :: _ => Some (all, now)
  | _ :: tr => last_listing tr
  end.
(** Every deletion of the trace satisfies [Q], given what happened before it. *)
Definition all_deletes (Q : list Event → list SnapshotId → Prop) (tr : list Event) : Prop :=
  ∀ post ids pre, tr = post ++ EDelete ids :: pre → Q pre ids.
Definition is_delete (e : Event) : bool := match e with EDelete _ => true | _ => false end.
Definition is_change (e : Event) : bool := match e with EDelete _ | EPrune _ _ _ _ => true | _ => false end.
Definition is_silent (e : Event) : bool := match e with EOpen | ESay _ _ => true | _ => false end.
Definition deletions (tr : list Event) : nat := length (List.filter is_delete tr).
Fixpoint deleted_ids (tr : list Event) : N :=
  match tr with
  | [] => 0
  | EDelete ids :: tr => N.of_nat (length ids) + deleted_ids tr
  | _ :: tr => deleted_ids tr
  end.

Lemma all_deletes_cons Q e tr :
  all_deletes Q (e :: tr) ↔ (∀ ids, e = EDelete ids → Q tr ids) ∧ all_deletes Q tr.
Proof.
  unfold all_deletes. split.
  - intros HQ. split; [intros ids ->; by apply (HQ [])|].
    intros post ids pre ->. by apply (HQ (e :: post)).
  - intros [He HQ] [|e' post] ids pre; cbn; intros [= -> ->]; eauto.
Qed.

(** Assertions over the trace and the report. *)
Definition on (T : list Event → Report → Prop) (s : St) : Prop := T (trace s) (report s).

Lemma triple_call {A} T (m : M W string A) : triple (on T) (call m) (λ _, on T) (on T).
Proof. intros s Hs. unfold call. destruct (m (world s)) as [[a|e] w]; done. Qed.
Lemma triple_emit (T T' : list Event → Report → Prop) e R :
  (∀ tr r, T tr r → T' (e :: tr) r) → triple (on T) (emit e) (λ _, on T') R.
Proof. intros HT s Hs. by apply HT. Qed.
Lemma triple_report (T T' : list Event → Report → Prop) f R :
  (∀ tr r, T tr r → T' tr (f r)) → triple (on T) (set_report f) (λ _, on T') R.
Proof. intros HT s Hs. by apply HT. Qed.

(** Opening a handle and sending a message are invisible to [T]. *)
Definition quiet (T : list Event → Report → Prop) : Prop :=
  ∀ e tr r, is_silent e = true → T tr r → T (e :: tr) r.

Section quiet.
Context (T : list Event → Report → Prop) (HT : quiet T).

Lemma triple_quiet e R : is_silent e = true → triple (on T) (emit e) (λ _, on T) R.
Proof using HT. intros He. apply triple_emit. intros. by apply HT. Qed.
Lemma triple_open : triple (on T) open_repo (λ _, on T) (on T).
Proof using HT.
  eapply triple_bind; [apply triple_call|]. intros repo.
  eapply triple_bind; [by apply triple_quiet|]. intros ?. by apply triple_ret.
Qed.
Lemma triple_used_or d : triple (on T) (used_or d) (λ _, on T) (on T).
Proof using Type.
  eapply triple_bind; [apply triple_attempt, triple_call|]. intros r. by apply triple_ret.
Qed.
Lemma triple_say_each l R : triple (on T) (say_each l) (λ _, on T) R.
Proof using HT.
  induction l as [|sn l IH]; cbn; [by apply triple_ret|].
  eapply triple_bind; [by apply triple_quiet | done].
Qed.
Lemma triple_locked n R : triple (on T) (locked_message n) (λ _, on T) R.
Proof using HT.
  unfold locked_message. destruct (0 <? n); [by apply triple_quiet | by apply triple_ret].
Qed.
Lemma triple_prune inst :
  (∀ tr r free u b, b = None ∨ b = Some (N.min (free / 2) (u / 10)) →
     T tr r → T (EPrune free u b inst :: tr) r) →
  triple (on T) (prune inst) (λ _, on T) (on T).
Proof using HT.
  intros Hp. eapply triple_bind; [apply triple_call|]. intros [|]; [by apply triple_ret|].
  eapply triple_bind; [apply triple_open|]. intros repo.
  eapply (triple_bind _ _ (λ '(_, free, u, b) s,
    (b = None ∨ b = Some (N.min (free / 2) (u / 10))) ∧ on T s)%N).
  - destruct max_bytes as [max|].
    + eapply triple_bind; [apply triple_used_or|]. intros u.
      eapply triple_bind; [by apply (triple_lift _ _ (λ _, on T))|]. intros limit.
      apply triple_ret. intros s Hs. split; [by right | done].
    + apply triple_ret. intros s Hs. split; [by left | done].
  - intros [[[mr free] u] b]. apply triple_pure. intros Hb.
    eapply triple_bind; [apply triple_emit; intros tr r; by apply Hp|]. intros ?.
    apply triple_call.
Qed.
End quiet.

(** What a deletion of the time rules was computed from. *)
Definition time_batch (all : list SnapshotFile) (now : Z) (l : list SnapshotFile) : Prop :=
  ∃ keep gs, forget_groups (grouped all) keep now = Ok gs ∧ l = doomed_of gs now.
Definition space_batch (all : list SnapshotFile) (now : Z) (l : list SnapshotFile) : Prop :=
  ∃ k, l = take (S k) (fifo_candidates all now).

Lemma batch_from_prefix deficit mb len est cands :
  cands ≠ [] → ∃ k, batch_from deficit mb len est cands = take (S k) cands.
Proof using Type.
  revert len est; induction cands as [|sn cands IH]; intros len est Hne; [done|]. cbn.
  destruct (_ && _); [by exists 0|].
  destruct cands as [|sn' cands]; [by exists 0|].
  destruct (IH (len + 1)%N (saturating_add est (added_bytes sn))) as [k Hk]; [done|].
  exists (S k). by rewrite Hk.
Qed.

Section steps.
Context (T : nat → list Event → Report → Prop) (V : nat → nat → list Event → Report → Prop).
Context (U : nat → list SnapshotFile → Z → list Event → Report → Prop).
Context (R : list Event → Report → Prop).
Context (qT : ∀ n, quiet (T n)) (qV : ∀ n k, quiet (V n k)) (qU : ∀ n all now, quiet (U n all now)).
Context (TR : ∀ n tr r, T n tr r → R tr r) (UT : ∀ n all now tr r, U n all now tr r → T n tr r).
Context (VR : ∀ n k tr r, V n k tr r → R tr r).
Context (TM : ∀ n tr r, T (S n) tr r → T n tr r).
Context (HU : ∀ n all now tr r, T (S n) tr r → U n all now (EListed all now :: tr) r).
Context (HF : ∀ n tr r f, T n tr r → T n tr (add_freed f r)).
Context (HP : ∀ n tr r free u b inst, dry_run = false → b = None ∨ b = Some (N.min (free / 2) (u / 10)) →
                T n tr r → T n (EPrune free u b inst :: tr) r).
(** The batches of one rule and the counter of the report they are added to. *)
Context (batch : list SnapshotFile → Z → list SnapshotFile → Prop) (add : nat → Report → Report).
Context (VD : ∀ n all now tr r l, dry_run = false → batch all now l → U n all now tr r →
                V n (length l) (EDelete (map sn_id l) :: tr) r).
Context (VT : ∀ n k tr r, V n k tr r → T n tr (add k r)).
Context (HY : ∀ n k tr r, dry_run = true → T n tr r → T n tr (add k r)).

Lemma T_weaken m n tr r : m ≤ n → T n tr r → T m tr r.
Proof using TM. induction 1 as [|n Hle IH]; [done|]. intros HT. by apply IH, TM. Qed.
Lemma call_T {A} n (m : M W string A) : triple (on (T n)) (call m) (λ _, on (T n)) (on R).
Proof using TR. eapply triple_conseq; [apply triple_call| | |]; try done. intros s. apply TR. Qed.
Lemma call_U {A} n all now (m : M W string A) :
  triple (on (U n all now)) (call m) (λ _, on (U n all now)) (on R).
Proof using TR UT.
  eapply triple_conseq; [apply triple_call| | |]; try done. intros s Hs. eapply TR, UT, Hs.
Qed.
Lemma open_T n : triple (on (T n)) open_repo (λ _, on (T n)) (on R).
Proof using TR qT. eapply triple_conseq; [by apply triple_open| | |]; try done. intros s. apply TR. Qed.
Lemma say_T n p m Q : (∀ tr r, T n tr r → Q tr r) → triple (on (T n)) (say p m) (λ _, on Q) (on R).
Proof using qT. intros HQ. apply triple_emit. intros tr r Ht. by apply HQ, qT. Qed.
Lemma prune_T n inst : dry_run = false → triple (on (T n)) (prune inst) (λ _, on (T n)) (on R).
Proof using TR qT HP.
  intros Hd. eapply triple_conseq; [apply (triple_prune (T n)); [done|] | | |]; try done.
  - intros tr r free u b. by apply HP.
  - intros s. apply TR.
Qed.


Lemma call_V {A} n k (m : M W string A) : triple (on (V n k)) (call m) (λ _, on (V n k)) (on R).
Proof using VR. eapply triple_conseq; [apply triple_call| | |]; try done. intros s. apply VR. Qed.
Lemma used_or_U n all now d : triple (on (U n all now)) (used_or d) (λ _, on (U n all now)) (on R).
Proof using TR UT.
  eapply triple_conseq; [apply triple_used_or| | |]; try done. intros s Hs. eapply TR, UT, Hs.
Qed.
Lemma used_or_T n d : triple (on (T n)) (used_or d) (λ _, on (T n)) (on R).
Proof using TR. eapply triple_conseq; [apply triple_used_or| | |]; try done. intros s. apply TR. Qed.

Lemma time_step_triple n keep instant :
  (∀ all now l, time_batch all now l → batch all now l) → add = add_time →
  triple (on (T (S n))) (time_step keep instant) (λ _, on (T n)) (on R).
Proof using All.
  intros Hb ->. step ltac:(apply call_T). destruct a; [apply triple_ret; intros s; apply TM|].
  step ltac:(apply open_T). rename a into repo.
  step ltac:(apply call_T). rename a into now.
  step ltac:(apply call_T). rename a into all.
  step ltac:(apply triple_emit; intros tr r; apply HU).
  step ltac:(eapply triple_conseq; [by apply (triple_locked (U n all now)) | done | done | intros s; apply id]).
  eapply (triple_bind _ _ (λ gs s, forget_groups (grouped all) keep now = Ok gs ∧ on (U n all now) s)).
  { apply triple_lift; [done|]. intros s Hs. eapply TR, UT, Hs. }
  intros gs. apply triple_pure. intros Hgs. cbn zeta.
  assert (batch all now (doomed_of gs now)) as Hl by (apply Hb; by exists keep, gs).
  case_bool_decide as Hne; [apply triple_emit; intros tr r Hu; by apply (UT _ all now), qU|].
  assert (dry_run = true ∨ dry_run = false) as [Hd|Hd] by (destruct dry_run; auto); rewrite Hd.
  { step ltac:(apply (triple_quiet (U n all now)); done).
    step ltac:(by apply (triple_say_each (U n all now))).
    apply triple_report. intros tr r Hu. apply HY; [done|]. by eapply UT. }
  step ltac:(apply used_or_U). rename a into before.
  step ltac:(apply triple_emit; intros tr r; by apply VD).
  step ltac:(apply call_V).
  step ltac:(by apply (triple_quiet (V n (length (doomed_of gs now))))).
  rewrite length_map.
  step ltac:(apply (triple_report _ (T n)); intros tr r; apply VT).
  step ltac:(by apply prune_T).
  step ltac:(apply used_or_T).
  step ltac:(apply (triple_report _ (T n)); intros tr r; apply HF).
  by apply triple_quiet.
Qed.

Lemma space_rounds_triple target max n round mb er :
  (∀ all now l, space_batch all now l → batch all now l) → add = add_space →
  triple (on (T n)) (space_rounds target max n round mb er) (λ _, on (T 0)) (on R).
Proof using All.
  intros Hb ->. revert round mb er; induction n as [|n IH]; intros round mb er; cbn [space_rounds].
  { by apply triple_quiet. }
  assert (∀ e tr r, is_silent e = true → T (S n) tr r → T 0 (e :: tr) r) as Hend.
  { intros e tr r He Ht. apply (T_weaken 0 (S n)); [lia|]. by apply qT. }
  step ltac:(apply call_T). destruct a; [apply triple_emit; intros tr r; by apply Hend|].
  step ltac:(apply call_T). rename a into u. cbn zeta.
  destruct (_ <=? _)%N.
  { destruct (_ || _); [apply triple_emit; intros tr r; by apply Hend|].
    apply triple_ret. intros s. apply T_weaken. lia. }
  step ltac:(apply open_T). rename a into repo.
  step ltac:(apply call_T). rename a into now.
  step ltac:(apply call_T). rename a into all.
  step ltac:(apply triple_emit; intros tr r; apply HU).
  case_bool_decide as Hne.
  { apply triple_emit. intros tr r Hu. apply (T_weaken 0 n); [lia|]. by apply (UT _ all now), qU. }
  set (l := batch_from _ _ _ _ _).
  assert (batch all now l) as Hl by (apply Hb; by apply batch_from_prefix).
  assert (dry_run = true ∨ dry_run = false) as [Hd|Hd] by (destruct dry_run; auto); rewrite Hd.
  { step ltac:(apply (triple_quiet (U n all now)); done).
    step ltac:(by apply (triple_say_each (U n all now))).
    apply triple_report. intros tr r Hu. apply HY; [done|]. apply (T_weaken 0 n); [lia|]. by eapply UT. }
  step ltac:(apply triple_emit; intros tr r; by apply VD).
  step ltac:(apply call_V). rewrite length_map.
  step ltac:(apply (triple_report _ (T n)); intros tr r; apply VT).
  step ltac:(by apply prune_T).
  step ltac:(apply call_T).
  step ltac:(apply (triple_report _ (T n)); intros tr r; apply HF).
  step ltac:(by apply triple_quiet).
  destruct (_ =? _)%N; [|apply IH].
  step ltac:(by apply triple_quiet).
  destruct (_ <=? _)%N; [|apply IH].
  apply triple_emit. intros tr r Ht. apply (T_weaken 0 n); [lia|]. by apply qT.
Qed.
End steps.

Lemma run_triple (T : nat → list Event → Report → Prop) (R : list Event → Report → Prop) policy phase :
  (∀ n tr r, T n tr r → R tr r) → (∀ n tr r, T (S n) tr r → T n tr r) →
  (∀ n keep instant, phase = Full → triple (on (T (S n))) (time_step keep instant) (λ _, on (T n)) (on R)) →
  (∀ target max, triple (on (T MAX_SPACE_ROUNDS)) (space_rounds target max MAX_SPACE_ROUNDS 0 1 0) (λ _, on (T 0)) (on R)) →
  triple (on (λ tr _, T (S MAX_SPACE_ROUNDS) tr empty_report)) (run policy phase)
    (λ rep s, report s = rep ∧ on (T 0) s) (on R).
Proof using Type.
  intros TR TM Ht Hs. unfold run.
  assert (∀ s, on (T MAX_SPACE_ROUNDS) s → on (T 0) s) as Hw by (intros s; apply T_weaken; [done | lia]).
  step ltac:(apply (triple_report _ (T (S MAX_SPACE_ROUNDS))); done). cbn zeta.
  eapply (triple_bind _ _ (λ _, on (T MAX_SPACE_ROUNDS))).
  { case_bool_decide; [|apply triple_ret; intros s; apply TM].
    step ltac:(apply (triple_lift _ _ (λ _, on (T (S MAX_SPACE_ROUNDS)))); [done | intros s; apply TR]).
    destruct a0; [by apply Ht | apply triple_ret; intros s; apply TM]. }
  intros ?. eapply (triple_bind _ _ (λ _, on (T 0))); [|intros ? s Hs'; by split].
  destruct (_ && _); [|by apply triple_ret]. destruct max_bytes; [|by apply triple_ret].
  unfold space_step. cbn zeta. destruct (_ =? 0)%N; [by apply triple_ret | apply Hs].
Qed.

(** *** Which snapshots are deleted *)

(** [ids] are the snapshots of a batch of the latest listing. *)
Definition from_listing (batch : list SnapshotFile → Z → list SnapshotFile → Prop)
    (pre : list Event) (ids : list SnapshotId) : Prop :=
  ∃ all now l, last_listing pre = Some (all, now) ∧ ids = map sn_id l ∧ batch all now l.

Lemma from_listing_triples (batch : list SnapshotFile → Z → list SnapshotFile → Prop) :
  let T tr (_ : Report) := all_deletes (from_listing batch) tr in
  ((∀ all now l, time_batch all now l → batch all now l) →
   ∀ keep instant, triple (on T) (time_step keep instant) (λ _, on T) (on T)) ∧
  ((∀ all now l, space_batch all now l → batch all now l) →
   ∀ target max n round mb er, triple (on T) (space_rounds target max n round mb er) (λ _, on T) (on T)).
Proof using Type.
  intros T.
  set (U := λ (_ : nat) all now tr r, T tr r ∧ last_listing tr = Some (all, now)).
  assert (∀ e tr r, is_delete e = false → T tr r → T (e :: tr) r) as HT.
  { intros e tr r He Ht. apply all_deletes_cons. split; [by intros ids -> | done]. }
  assert (∀ n all now, quiet (U n all now)) as qU.
  { intros n all now [] tr r; try done; intros _ [? ?]; by split; [apply HT|]. }
  assert (∀ (n : nat) all now tr r l, dry_run = false → batch all now l → U n all now tr r →
            T (EDelete (map sn_id l) :: tr) r) as VD.
  { intros n all now tr r l _ Hl [Ht Hall]. apply all_deletes_cons.
    split; [|done]. intros ids [= <-]. by exists all, now, l. }
  assert (quiet T) as qT by (intros e tr r He; apply HT; by destruct e).
  assert (∀ n all now tr r, T tr r → U n all now (EListed all now :: tr) r) as HU.
  { intros n all now tr r Ht. split; [by apply HT | done]. }
  assert (∀ n all now tr r, U n all now tr r → T tr r) as UT by (by intros ? ? ? ? ? [? ?]).
  assert (∀ tr r free u b inst, T tr r → T (EPrune free u b inst :: tr) r) as HP.
  { intros. by apply HT. }
  assert (∀ tr r r', T tr r → T tr r') as Tr by done.
  clearbody T. split.
  - intros Hb keep instant.
    apply (time_step_triple (λ _, T) (λ _ _, T) U T) with (n := 0) (batch := batch) (add := add_time);
      eauto.
  - intros Hb target max n round mb er.
    apply (space_rounds_triple (λ _, T) (λ _ _, T) U T) with (batch := batch) (add := add_space);
      eauto.
Qed.

(** *** Candidates *)

Lemma nodup_concat_same {A} (ls : list (list A)) g g' x :
  NoDup (concat ls) → g ∈ ls → g' ∈ ls → x ∈ g → x ∈ g' → g = g'.
Proof using Type.
  induction ls as [|l ls IH]; cbn; [by intros _ ?%elem_of_nil|].
  rewrite NoDup_app. intros (_ & Hdisj & Hnd) Hg Hg' Hx Hx'.
  assert (∀ h, h ∈ ls → x ∈ h → x ∈ concat ls) as Hin.
  { intros h ? ?. rewrite list_elem_of_In, in_concat. exists h. by rewrite <-!list_elem_of_In. }
  apply elem_of_cons in Hg as [->|Hg], Hg' as [->|Hg']; [done| | |by apply IH].
  - exfalso. eapply Hdisj; eauto.
  - exfalso. eapply Hdisj; eauto.
Qed.

Lemma elem_of_candidates all now s :
  s ∈ fifo_candidates all now ↔
  ∃ g, g ∈ grouped all ∧ s ∈ removelast (sort_by_time g) ∧ must_keep s now = false.
Proof using Type.
  unfold fifo_candidates, sort_by_time at 1. rewrite merge_sort_Permutation.
  rewrite list_elem_of_In, in_concat. split.
  - intros (l & Hl & Hs). apply in_map_iff in Hl as (g & <- & Hg). apply filter_In in Hs as [Hs Hk].
    exists g. rewrite !list_elem_of_In. split_and!; try done. by apply negb_true_iff.
  - intros (g & Hg & Hs & Hk). eexists. split; [apply in_map_iff; exists g; split; [reflexivity|]|].
    + by rewrite <-list_elem_of_In.
    + apply filter_In. rewrite <-list_elem_of_In. by rewrite Hk.
Qed.

Lemma sort_last g : g ≠ [] →
  ∃ newest, sort_by_time g = removelast (sort_by_time g) ++ [newest] ∧ newest ∈ g ∧
            ∀ s, s ∈ g → older s newest.
Proof using Type.
  intros Hg. assert (sort_by_time g ≡ₚ g) as Hp by apply merge_sort_Permutation.
  assert (StronglySorted older (sort_by_time g)) as Hs.
  { apply StronglySorted_merge_sort; [intros a b c; unfold older; lia | intros a b; unfold older; lia]. }
  destruct (@exists_last _ (sort_by_time g)) as (l & newest & Hl).
  { intros He. rewrite He in Hp. by apply Hg, Permutation_nil. }
  rewrite Hl in Hp, Hs |- *. rewrite removelast_last. exists newest.
  split_and!; [done | rewrite <-Hp; set_solver|].
  intros s Hin. rewrite <-Hp in Hin. apply elem_of_app in Hin as [Hin|Hin%list_elem_of_singleton].
  - eapply StronglySorted_app_1_elem_of; [done | done | set_solver].
  - subst. unfold older. lia.
Qed.

Section laws.
Context `{!RusticLaws}.

Lemma elem_of_grouped all g s : g ∈ grouped all → s ∈ g → s ∈ all.
Proof using H0.
  intros Hg Hs. rewrite <-(grouped_partition all), list_elem_of_In, in_concat.
  exists g. by rewrite <-!list_elem_of_In.
Qed.

Lemma candidate_unprotected all now s :
  s ∈ fifo_candidates all now → s ∈ all ∧ must_keep s now = false.
Proof using H0.
  rewrite elem_of_candidates. intros (g & Hg & Hs & Hk). split; [|done].
  eapply elem_of_grouped; [done|].
  destruct (sort_last g) as (n & He & _ & _); [by eapply grouped_nonempty|].
  rewrite <-(merge_sort_Permutation older g). unfold sort_by_time in *. rewrite He. set_solver.
Qed.

Lemma doomed_unprotected all keep gs now s :
  forget_groups (grouped all) keep now = Ok gs →
  s ∈ doomed_of gs now → s ∈ all ∧ must_keep s now = false.
Proof using H0.
  intros Hgs. unfold doomed_of, sort_by_time. rewrite merge_sort_Permutation.
  intros ([s' k] & -> & Hin)%list_elem_of_fmap.
  apply list_elem_of_In, filter_In in Hin as [Hin Hk].
  apply andb_true_iff in Hk as [_ Hk%negb_true_iff]. split; [|done].
  rewrite <-(grouped_partition all), <-(forget_items _ _ _ _ Hgs).
  rewrite <-concat_map. apply list_elem_of_In, in_map_iff. by exists (s', k).
Qed.

(** The newest snapshot of each group is not a candidate. *)
Lemma newest_not_candidate all now g :
  NoDup (map sn_id all) → g ∈ grouped all →
  ∃ newest, newest ∈ g ∧ (∀ s, s ∈ g → older s newest) ∧
            sn_id newest ∉ map sn_id (fifo_candidates all now).
Proof using H0.
  intros Hnd Hg. destruct (sort_last g) as (n & He & Hn & Hmax); [by eapply grouped_nonempty|].
  exists n. split_and!; [done | done|].
  intros (s & Hid & Hs)%list_elem_of_fmap.
  assert (s = n) as ->.
  { apply candidate_unprotected in Hs as [Hs _].
    assert (n ∈ all) as Hall by by eapply elem_of_grouped.
    apply list_elem_of_lookup in Hs as [i Hi], Hall as [j Hj].
    assert (i = j) as ->; [|congruence].
    eapply NoDup_lookup; [done| |]; rewrite list_lookup_fmap; [by rewrite Hi|]. rewrite Hj. cbn. congruence. }
  apply elem_of_candidates in Hs as (g' & Hg' & Hs & _).
  assert (NoDup (concat (grouped all))) as Hc.
  { rewrite grouped_partition. by eapply NoDup_fmap_1. }
  destruct (sort_last g') as (n' & He' & _ & _); [by eapply grouped_nonempty|].
  assert (g' = g) as ->.
  { eapply nodup_concat_same; [done..| |done].
    rewrite <-(merge_sort_Permutation older g'). unfold sort_by_time in *. rewrite He'. set_solver. }
  assert (NoDup (sort_by_time g)) as Hndg.
  { unfold sort_by_time. rewrite merge_sort_Permutation.
    apply list_elem_of_split in Hg as (l1 & l2 & Hl). rewrite Hl, concat_app in Hc. cbn in Hc.
    apply NoDup_app in Hc as (_ & _ & Hc). by apply NoDup_app in Hc as (? & _). }
  rewrite He in Hndg. apply NoDup_app in Hndg as (_ & Hd & _). eapply Hd; [done | set_solver].
Qed.

(** C9. No run of a policy, in any phase and over any behaviour of the repository,
    deletes a snapshot that must be kept: every list of ids it passes to
    [delete_snapshots] is computed from the latest listing, and names snapshots of it
    that are neither locked nor protected at the time of that listing. *)
Theorem retention_spares_protected policy phase w :
  all_deletes (λ pre ids, ∃ all now l,
      last_listing pre = Some (all, now) ∧ ids = map sn_id l ∧
      ∀ s, s ∈ l → s ∈ all ∧ must_keep s now = false ∧ is_locked s = false)
    (trace (run policy phase {| world := w; trace := []; report := empty_report |}).2).
Proof using H0.
  set (batch := λ (all : list SnapshotFile) (now : Z) (l : list SnapshotFile),
         ∀ s, s ∈ l → s ∈ all ∧ must_keep s now = false).
  set (T := λ (_ : nat) tr (_ : Report), all_deletes (from_listing batch) tr).
  destruct (from_listing_triples batch) as [Ht Hs].
  assert (on (T 0) (run policy phase {| world := w; trace := []; report := empty_report |}).2) as Hrun.
  { assert (triple (on (λ tr _, T 65 tr empty_report)) (run policy phase)
              (λ rep s, report s = rep ∧ on (T 0) s) (on (T 0))) as Hr.
    { apply (run_triple T (T 0)); try done.
      - intros n keep instant _. apply Ht. intros all now l (k & gs & Hgs & ->) s Hin.
        by eapply doomed_unprotected.
      - intros target max. apply Hs. intros all now l (k & ->) s Hin.
        apply candidate_unprotected. by eapply elem_of_take_in. }
    specialize (Hr {| world := w; trace := []; report := empty_report |}).
    destruct (run _ _ _) as [[rep|e] s']; apply Hr; by intros [|] ? ?. }
  intros post ids pre Heq. destruct (Hrun post ids pre Heq) as (all & now & l & ? & ? & Hl).
  exists all, now, l. split_and!; try done. intros s Hin. destruct (Hl s Hin) as [? Hk].
  split_and!; try done. unfold is_locked. destruct (sn_delete s) eqn:Hd; try done.
  by rewrite (must_keep_never _ _ Hd) in Hk.
Qed.

(** C37. The space rule removes history from its old end: every deletion it makes is
    a nonempty prefix of the candidates of the latest listing, the candidates are
    ordered by time, and the newest snapshot of every group of that listing is not
    among the deleted ones. *)
Theorem space_rule_deletes_oldest_first policy max w :
  all_deletes (λ pre ids, ∃ all now k,
      last_listing pre = Some (all, now) ∧
      ids = map sn_id (take (S k) (fifo_candidates all now)) ∧
      StronglySorted older (fifo_candidates all now) ∧
      (NoDup (map sn_id all) → ∀ g, g ∈ grouped all →
         ∃ newest, newest ∈ g ∧ (∀ s, s ∈ g → older s newest) ∧ sn_id newest ∉ ids))
    (trace (space_step policy max {| world := w; trace := []; report := empty_report |}).2).
Proof using H0.
  destruct (from_listing_triples space_batch) as [_ Hs].
  specialize (Hs (λ _ _ _ h, h) (target_free max policy) max MAX_SPACE_ROUNDS 0 1%N 0%N).
  unfold space_step. cbn zeta. destruct (_ =? 0)%N; [by intros [|] ? ?|].
  specialize (Hs {| world := w; trace := []; report := empty_report |}).
  assert (all_deletes (from_listing space_batch)
            (trace (space_rounds (target_free max policy) max MAX_SPACE_ROUNDS 0 1 0
               {| world := w; trace := []; report := empty_report |}).2)) as Ht.
  { destruct (space_rounds _ _ _ _ _ _ _) as [[[]|e] s']; apply Hs; by intros [|] ? ?. }
  intros post ids pre Heq. destruct (Ht post ids pre Heq) as (all & now & l & Hl & -> & k & ->).
  exists all, now, k. split_and!; try done.
  { apply StronglySorted_merge_sort; [intros a b c; unfold older; lia | intros a b; unfold older; lia]. }
  intros Hnd g Hg. destruct (newest_not_candidate all now g Hnd Hg) as (n & ? & ? & Hn).
  exists n. split_and!; try done. intros (s & Hid & Hin)%list_elem_of_fmap. apply Hn.
  apply list_elem_of_fmap. exists s. split; [done|]. by eapply elem_of_take_in.
Qed.
End laws.

(** A dry run changes nothing: whatever the policy, the phase and the repository,
    it neither deletes a snapshot nor prunes. *)
Theorem dry_run_changes_nothing policy phase w :
  dry_run = true →
  Forall (λ e, is_change e = false)
    (trace (run policy phase {| world := w; trace := []; report := empty_report |}).2).
Proof using Type.
  intros Hdry. set (T := λ tr (_ : Report), Forall (λ e, is_change e = false) tr).
  assert (quiet T) as qT by (intros [] tr r; try done; intros _ Ht; by constructor).
  assert (∀ all now tr r, T tr r → T (EListed all now :: tr) r) as HU by (by constructor).
  assert (triple (on (λ tr _, T tr empty_report)) (run policy phase)
            (λ rep s, report s = rep ∧ on T s) (on T)) as Hr.
  { apply (run_triple (λ _, T) T); try done.
    - intros n keep instant _.
      apply (time_step_triple (λ _, T) (λ _ _, T) (λ _ _ _, T) T) with (n := n)
        (batch := λ _ _ _, True) (add := add_time); try done.
      all: intros; congruence.
    - intros target max.
      apply (space_rounds_triple (λ _, T) (λ _ _, T) (λ _ _ _, T) T)
        with (batch := λ _ _ _, True) (add := add_space); try done.
      all: intros; congruence. }
  specialize (Hr {| world := w; trace := []; report := empty_report |}).
  destruct (run _ _ _) as [[rep|e] s']; apply Hr; constructor.
Qed.

(** C38. A run ends after at most one deletion of the time rules and [MAX_SPACE_ROUNDS]
    of the space rule, however the repository behaves, and the report it returns
    counts every snapshot it deleted, once. *)
Theorem run_is_bounded_and_reported policy phase w :
  dry_run = false →
  let '(r, s) := run policy phase {| world := w; trace := []; report := empty_report |} in
  deletions (trace s) ≤ 1 + MAX_SPACE_ROUNDS ∧
  ∀ rep, r = Ok rep → deleted_ids (trace s) = (time_deleted rep + space_deleted rep)%N.
Proof using Type.
  intros Hdry.
  set (T := λ (n : nat) tr (r : Report), deletions tr + n ≤ 65 ∧ deleted_ids tr = (time_deleted r + space_deleted r)%N).
  set (V := λ (n k : nat) tr (r : Report), deletions tr + n ≤ 65 ∧
              deleted_ids tr = (time_deleted r + space_deleted r + N.of_nat k)%N).
  set (R := λ tr (_ : Report), deletions tr ≤ 65).
  assert (∀ n, quiet (T n)) as qT by (by intros n [] tr r; try done; intros _ [? ?]).
  assert (∀ n k, quiet (V n k)) as qV by (by intros n k [] tr r; try done; intros _ [? ?]).
  assert (∀ n tr r, T n tr r → R tr r) as TR by (intros n tr r [? _]; unfold R; lia).
  assert (∀ n k tr r, V n k tr r → R tr r) as VR by (intros n k tr r [? _]; unfold R; lia).
  assert (∀ n tr r, T (S n) tr r → T n tr r) as TM by (intros n tr r [? ?]; split; [lia | done]).
  assert (∀ n tr r (l : list SnapshotFile), T (S n) tr r → V n (length l) (EDelete (map sn_id l) :: tr) r) as VD.
  { intros n tr r l [? Hd]. unfold V, deletions. cbn. rewrite length_map, Hd.
    split; [|lia]. unfold deletions in *. lia. }
  assert (triple (on (λ tr _, T 65 tr empty_report)) (run policy phase)
            (λ rep s, report s = rep ∧ on (T 0) s) (on R)) as Hr.
  { apply (run_triple T R); try done.
    - intros n keep instant _.
      apply (time_step_triple T V (λ n _ _, T (S n)) R)
        with (batch := λ _ _ _, True) (add := add_time); try done; eauto; try congruence.
      intros n' k tr r [? ?]. unfold T. cbn. split; [done | lia].
    - intros target max.
      apply (space_rounds_triple T V (λ n _ _, T (S n)) R)
        with (batch := λ _ _ _, True) (add := add_space); try done; eauto; try congruence.
      intros n' k tr r [? ?]. unfold T. cbn. split; [done | lia]. }
  specialize (Hr {| world := w; trace := []; report := empty_report |}).
  assert (T 65 [] empty_report) as H65 by (unfold T, deletions; cbn; lia).
  destruct (run _ _ _) as [[rep|e] s']; specialize (Hr H65).
  - destruct Hr as [Hrep [? ?]]. split; [unfold MAX_SPACE_ROUNDS; lia|]. intros rep' [= <-]. by rewrite <-Hrep.
  - split; [exact Hr | done].
Qed.

(** *** Policies *)

Definition exact_count (c : N) : option Z := if (c =? 0)%N then None else Some (Z.of_N c).

Lemma set_if_exact c : (c ≤ I32_MAX)%N → set_if c = exact_count c.
Proof using Type.
  intros Hc. unfold set_if, exact_count, as_i32.
  destruct (N.ltb_spec 0 c), (N.eqb_spec c 0); try lia; [|done].
  by destruct (N.leb_spec c I32_MAX); [|lia].
Qed.

Lemma validate_spec p :
  validate p = Ok () ↔
  has_rules p = true ∧ (reserve_percent p ≤ 50)%N ∧ (keep_within_days p ≤ 36500)%N ∧
  Forall (λ c, c ≤ I32_MAX)%N (keep_counts p).
Proof using Type.
  unfold validate. destruct (has_rules p); cbn [negb]; [|by split; [|intros [? _]]].
  destruct (N.ltb_spec 50 (reserve_percent p)); [split; [done | lia]|].
  destruct (N.ltb_spec 36500 (keep_within_days p)); [split; [done | lia]|].
  rewrite Forall_forall. destruct (list_any _ _) eqn:Ha.
  - split; [done|]. intros (_ & _ & _ & Hall). apply list_any_true in Ha as (c & Hc & Hlt%N.ltb_lt).
    specialize (Hall c Hc). lia.
  - split; [|done]. intros _. rewrite list_any_false in Ha. split_and!; try done.
    intros c Hc. apply N.ltb_ge. by apply Ha.
Qed.

(** A policy that [validate] accepts is applied exactly: the reserve is computed
    without wrap-around, never exceeds half of the quota and is zero only for a quota
    below two bytes or a reserve that rounds to zero; every keep count reaches rustic
    unchanged, and a count of zero is not set. *)
Theorem validated_policy_applies_exactly p max :
  validate p = Ok () → u64 max →
  target_free max p = N.min (N.max (reserve_bytes p) (max * reserve_percent p / 100)) (max / 2) ∧
  (target_free max p ≤ max / 2)%N ∧
  (has_space_rule p = false → target_free max p = 0%N) ∧
  match build_keep p with
  | Ok None => has_time_rules p = false
  | Ok (Some k) =>
    ko_last k = exact_count (keep_last p) ∧ ko_hourly k = exact_count (keep_hourly p) ∧
    ko_daily k = exact_count (keep_daily p) ∧ ko_weekly k = exact_count (keep_weekly p) ∧
    ko_monthly k = exact_count (keep_monthly p) ∧ ko_yearly k = exact_count (keep_yearly p) ∧
    (is_Some (ko_within k) ↔ (0 < keep_within_days p)%N)
  | Err _ => ∃ e, try_days (keep_within_days p) = Err e
  end.
Proof using Type.
  intros (_ & Hpc & _ & Hc)%validate_spec Hu. unfold keep_counts in Hc.
  repeat (apply Forall_cons in Hc as [? Hc]).
  assert (max * reserve_percent p / 100 ≤ max)%N as Hb.
  { apply N.div_le_upper_bound; [done|]. nia. }
  assert (target_free max p = N.min (N.max (reserve_bytes p) (max * reserve_percent p / 100)) (max / 2)) as Ht.
  { unfold target_free. cbn zeta. rewrite N.mod_small; [done|]. unfold u64 in Hu. lia. }
  split_and!; [done | lia | |].
  - unfold has_space_rule. intros [Hr Hp]%orb_false_iff.
    apply N.ltb_ge in Hr, Hp. rewrite Ht. replace (reserve_percent p) with 0%N by lia.
    replace (reserve_bytes p) with 0%N by lia. rewrite N.mul_0_r. change (0 `div` 100)%N with 0%N. lia.
  - unfold build_keep. destruct (has_time_rules p) eqn:Hh; cbn [negb]; [|done].
    destruct (N.ltb_spec 0 (keep_within_days p)); [destruct (try_days _) as [sp|e] eqn:Hd|]; cbn;
      rewrite ?set_if_exact by done; [|by exists e|].
    + split_and!; try done.
    + split_and!; try done. split; [by intros [? ?] | lia].
Qed.
End Retention.

(** ** What a run keeps of the world

    A run keeps every property [I] of the world that its calls keep, if deletions of
    what the latest listing shows unprotected keep it too. *)

Section Runs.
Context `{RusticLib} `{!RusticLaws}.
(** [I] is kept, [L all] says that [all] is what the repository holds, [ours] that a
    handle is one of the job's repository. *)
Context (I : W → Prop) (L : list SnapshotFile → W → Prop) (ours : RepoIndexed → Prop).
Definition spares (all : list SnapshotFile) (ids : list SnapshotId) : Prop :=
  ∀ id, id ∈ ids → ∃ sn, sn ∈ all ∧ id = sn_id sn ∧ is_locked sn = false.
Context (open_I : triple I repo_open (λ repo w, ours repo ∧ I w) I).
Context (list_I : ∀ repo, ours repo → triple I (get_all_snapshots repo) (λ all w, I w ∧ L all w) I).
Context (delete_I : ∀ repo all ids, ours repo → spares all ids →
  triple (λ w, I w ∧ L all w) (delete_snapshots repo ids) (λ _, I) I).
Context (prune_I : ∀ repo max instant, ours repo → triple I (repo_prune repo max instant) (λ _, I) I).
Context (used_I : triple I used_bytes (λ _, I) I).
Context (used_L : ∀ all, triple (λ w, I w ∧ L all w) used_bytes (λ _ w, I w ∧ L all w) (λ w, I w ∧ L all w)).
Context (cancelled_I : ∀ w, I w → I (is_cancelled w).2).
Context (now_I : ∀ w, I w → I (zoned_now w).2).

Definition on_w (P : W → Prop) (s : St) : Prop := P (world s).
Lemma call_keeps {A} (P : W → Prop) (m : M W string A) (Q : A → W → Prop) (R : W → Prop) :
  triple P m Q R → triple (on_w P) (call m) (λ a, on_w (Q a)) (on_w R).
Proof using Type.
  intros Hm s Hs. specialize (Hm (world s) Hs). unfold call. destruct (m (world s)) as [[a|e] w]; done.
Qed.
Lemma emit_keeps (P : W → Prop) e R : triple (on_w P) (emit e) (λ _, on_w P) R.
Proof using Type. by intros s Hs. Qed.
Lemma report_keeps (P : W → Prop) f R : triple (on_w P) (set_report f) (λ _, on_w P) R.
Proof using Type. by intros s Hs. Qed.
Lemma each_keeps (P : W → Prop) l R : triple (on_w P) (say_each l) (λ _, on_w P) R.
Proof using Type.
  induction l as [|sn l IH]; cbn; [by apply triple_ret|]. eapply triple_bind; [apply emit_keeps|]. done.
Qed.
Lemma locked_message_keeps (P : W → Prop) n R : triple (on_w P) (locked_message n) (λ _, on_w P) R.
Proof using Type. unfold locked_message. destruct (0 <? n); [apply emit_keeps|by apply triple_ret]. Qed.
Lemma cancelled_keeps R : triple (on_w I) cancelled (λ _, on_w I) R.
Proof using cancelled_I.
  intros s Hs. unfold cancelled, call, on_w. apply cancelled_I in Hs. by destruct (is_cancelled (world s)) as [b w].
Qed.
Lemma now_keeps R : triple (on_w I) now_zoned (λ _, on_w I) R.
Proof using now_I.
  intros s Hs. unfold now_zoned, call, on_w. apply now_I in Hs. by destruct (zoned_now (world s)) as [b w].
Qed.
Lemma used_keeps (P : W → Prop) : triple P used_bytes (λ _, P) P → triple (on_w P) used (λ _, on_w P) (on_w P).
Proof using Type. intros Hm. apply (call_keeps P _ (λ _, P)). by apply triple_map_err. Qed.
Lemma used_or_keeps (P : W → Prop) d R :
  triple P used_bytes (λ _, P) P → triple (on_w P) (used_or d) (λ _, on_w P) R.
Proof using Type.
  intros Hm. eapply triple_bind; [by apply triple_attempt, used_keeps|]. intros r. by apply triple_ret.
Qed.
Lemma open_keeps : triple (on_w I) open_repo (λ repo s, ours repo ∧ on_w I s) (on_w I).
Proof using open_I.
  eapply triple_bind; [apply (call_keeps I _ (λ repo w, ours repo ∧ I w)), open_I|]. intros repo.
  eapply triple_bind; [apply emit_keeps|]. intros ?. by apply triple_ret.
Qed.

Lemma prune_keeps max instant : triple (on_w I) (prune max instant) (λ _, on_w I) (on_w I).
Proof using open_I prune_I used_I cancelled_I.
  eapply triple_bind; [apply cancelled_keeps|]. intros [|]; [by apply triple_ret|].
  eapply triple_bind; [apply open_keeps|]. intros repo. apply triple_pure. intros Hrepo.
  eapply (triple_bind _ _ (λ _, on_w I)).
  - destruct max as [mx|]; [|by apply triple_ret].
    eapply triple_bind; [by apply used_or_keeps|]. intros u.
    eapply triple_bind; [by apply (triple_lift _ _ (λ _, on_w I))|]. intros limit. by apply triple_ret.
  - intros [[[mr free] u] b]. eapply triple_bind; [apply emit_keeps|]. intros ?.
    apply (call_keeps I _ (λ _, I)), prune_I, Hrepo.
Qed.

Lemma unprotected_spared all l now :
  (∀ s, s ∈ l → s ∈ all ∧ must_keep s now = false) → spares all (map sn_id l).
Proof using H0.
  intros Hl id (s & -> & Hs)%list_elem_of_fmap. destruct (Hl s Hs) as [Hin Hk]. exists s. split; [done|]. split; [done|].
  unfold is_locked. destruct (sn_delete s) eqn:Hd; [done| |done]. by rewrite must_keep_never in Hk.
Qed.
Lemma weaken_L {A} all (m : M St string A) (Q : A → St → Prop) R :
  triple (on_w I) m Q R → triple (on_w (λ w, I w ∧ L all w)) m Q R.
Proof using Type. intros Hm. eapply triple_conseq; [exact Hm| | |]; try done. by intros s [? _]. Qed.

(** What both rules do with a batch: delete it, right after the listing. *)
Lemma delete_keeps repo all ids : ours repo → spares all ids →
  triple (on_w (λ w, I w ∧ L all w)) (call (delete_snapshots repo ids)) (λ _, on_w I) (on_w I).
Proof using delete_I. intros Hrepo Hids. by apply (call_keeps (λ w, I w ∧ L all w) _ (λ _, I)), delete_I. Qed.

Lemma time_step_keeps max dry keep instant : triple (on_w I) (time_step max dry keep instant) (λ _, on_w I) (on_w I).
Proof using All.
  step ltac:(apply cancelled_keeps). destruct a; [by apply triple_ret|].
  eapply triple_bind; [apply open_keeps|]. intros repo. apply triple_pure. intros Hrepo.
  step ltac:(apply now_keeps). rename a into now.
  step ltac:(apply (call_keeps I _ (λ all w, I w ∧ L all w)), list_I, Hrepo). rename a into all.
  step ltac:(apply emit_keeps). step ltac:(apply locked_message_keeps).
  eapply (triple_bind _ _ (λ gs s, forget_groups (grouped all) keep now = Ok gs ∧ on_w (λ w, I w ∧ L all w) s)).
  { apply triple_lift; [done|]. by intros s [? _]. }
  intros gs. apply triple_pure. intros Hgs. cbn zeta.
  case_bool_decide; [apply weaken_L, emit_keeps|]. destruct dry.
  { apply weaken_L. step ltac:(apply emit_keeps). step ltac:(apply each_keeps). apply report_keeps. }
  step ltac:(apply used_or_keeps, used_L). step ltac:(apply emit_keeps).
  step ltac:(apply delete_keeps; [done|apply (unprotected_spared _ _ now); intros s; by eapply doomed_unprotected]).
  step ltac:(apply emit_keeps). step ltac:(apply report_keeps). step ltac:(apply prune_keeps).
  step ltac:(by apply used_or_keeps). step ltac:(apply report_keeps). apply emit_keeps.
Qed.
Lemma space_rounds_keeps max dry target mx n round mb er :
  triple (on_w I) (space_rounds max dry target mx n round mb er) (λ _, on_w I) (on_w I).
Proof using All.
  revert round mb er; induction n as [|n IH]; intros round mb er; cbn [space_rounds]; [apply emit_keeps|].
  step ltac:(apply cancelled_keeps). destruct a; [apply emit_keeps|].
  step ltac:(by apply used_keeps). rename a into u. cbn zeta.
  destruct (_ <=? _)%N; [destruct (_ || _); [apply emit_keeps|by apply triple_ret]|].
  eapply triple_bind; [apply open_keeps|]. intros repo. apply triple_pure. intros Hrepo.
  step ltac:(apply now_keeps). rename a into now.
  step ltac:(apply (call_keeps I _ (λ all w, I w ∧ L all w)), list_I, Hrepo). rename a into all.
  step ltac:(apply emit_keeps). case_bool_decide as Hne; [apply weaken_L, emit_keeps|].
  set (l := batch_from _ _ _ _ _). destruct dry.
  { apply weaken_L. step ltac:(apply emit_keeps). step ltac:(apply each_keeps). apply report_keeps. }
  step ltac:(apply emit_keeps). step ltac:(apply delete_keeps; [done|]).
  { apply (unprotected_spared _ _ now). intros s Hs. subst l. destruct (batch_from_prefix (target - saturating_sub mx u) mb 0 0 _ Hne) as [k Hk].
    rewrite Hk in Hs. by eapply candidate_unprotected, elem_of_take_in. }
  step ltac:(apply report_keeps). step ltac:(apply prune_keeps). step ltac:(by apply used_keeps).
  step ltac:(apply report_keeps). step ltac:(apply emit_keeps).
  destruct (_ =? _)%N; [|apply IH]. step ltac:(apply emit_keeps). destruct (_ <=? _)%N; [apply emit_keeps|apply IH].
Qed.
Lemma run_keeps max dry policy phase : triple (on_w I) (run max dry policy phase) (λ _, on_w I) (on_w I).
Proof using All.
  unfold run. step ltac:(apply report_keeps). cbn zeta. eapply (triple_bind _ _ (λ _, on_w I)).
  { case_bool_decide; [|by apply triple_ret]. step ltac:(by apply (triple_lift _ _ (λ _, on_w I))).
    destruct a0; [apply time_step_keeps|by apply triple_ret]. }
  intros ?. eapply (triple_bind _ _ (λ _, on_w I)); [|by intros ? s Hs].
  destruct (_ && _); [|by apply triple_ret]. destruct max; [|by apply triple_ret].
  unfold space_step. cbn zeta. destruct (_ =? 0)%N; [by apply triple_ret|apply space_rounds_keeps].
Qed.
End Runs.

(** ** A concrete repository

    Two series of snapshots; a snapshot owns its bytes, deleting it frees them at the
    next prune. *)
Module DemoRepo.
Record Snap := { d_id : nat; d_time : Z; d_series : bool; d_delete : DeleteOption; d_added : N }.
Record World := { snaps : list Snap; usage : N }.

Definition d_must_keep (s : Snap) (now : Z) : bool :=
  match d_delete s with Never => true | After t => (now <=? t)%Z | NotSet => false end.
Definition d_grouped (l : list Snap) : list (list Snap) :=
  List.filter (λ g, match g with [] => false | _ => true end)
    [List.filter d_series l; List.filter (λ s, negb (d_series s)) l].
(** Keep the last [ko_last] of each group. *)
Definition d_flags (k : Z) (g : list Snap) : list (Snap * bool) :=
  imap (λ i s, (s, (Z.of_nat (length g) - k <=? Z.of_nat i)%Z)) g.
Definition d_forget (gs : list (list Snap)) (k : KeepOptions N) (_ : Z) :
    result string (list (list (Snap * bool))) := Ok (map (d_flags (opt_or 0%Z (ko_last k))) gs).
Definition d_used (w : World) : N := foldr (λ s n, d_added s + n)%N 0%N (snaps w).

#[export] Instance demo_lib : RusticLib := {|
  W := World; SnapshotId := nat; SnapshotFile := Snap; Span := N; LimitOption := string;
  sn_id := d_id; sn_time := d_time; sn_delete := d_delete; sn_summary := λ s, Some (d_added s);
  must_keep := d_must_keep; grouped := d_grouped; forget_groups := d_forget;
  try_days := Ok; no_span := 0%N; limit_from_str := Ok; limit_percentage := λ _, "0%"%string;
  RepoIndexed := ();
  repo_open := λ w, (Ok (), w);
  get_all_snapshots := λ _ w, (Ok (snaps w), w);
  delete_snapshots := λ _ ids w, (Ok (), {| snaps := List.filter (λ s, bool_decide (d_id s ∉ ids)) (snaps w); usage := usage w |});
  repo_prune := λ _ _ _ w, (Ok (), {| snaps := snaps w; usage := d_used w |});
  used_bytes := λ w, (Ok (usage w), w);
  is_cancelled := λ w, (false, w);
  zoned_now := λ w, (100%Z, w);
|}.

Lemma filter_partition {A} (P : A → bool) l :
  List.filter P l ++ List.filter (λ x, negb (P x)) l ≡ₚ l.
Proof.
  induction l as [|x l IH]; cbn; [done|]. destruct (P x); cbn; [by rewrite IH|].
  by rewrite <-Permutation_middle, IH.
Qed.

Lemma flags_fst k g : map fst (d_flags k g) = g.
Proof.
  apply list_eq. intros i. unfold d_flags. rewrite list_lookup_fmap, list_lookup_imap.
  by destruct (g !! i).
Qed.

#[export] Instance demo_laws : RusticLaws.
Proof.
  split.
  - intros l. etransitivity; [|apply (filter_partition d_series)]. cbn. unfold d_grouped. cbn.
    destruct (List.filter d_series l), (List.filter (λ s, negb (d_series s)) l); cbn;
      rewrite ?app_nil_r; reflexivity.
  - intros l g Hg%list_elem_of_In. apply filter_In in Hg as [_ Hg].
    intros ->. done.
  - intros s t Hs. cbn in *. unfold d_must_keep. by rewrite Hs.
  - intros gs k t gs' [= <-]. rewrite map_map. etransitivity; [|apply map_id]. apply map_ext. intros g.
    apply flags_fst.
Qed.

Definition snap (i : nat) (t : Z) (b : bool) (d : DeleteOption) (n : N) : Snap :=
  {| d_id := i; d_time := t; d_series := b; d_delete := d; d_added := n |}.
(** Six snapshots, 90 of 100 bytes used; snapshot 1 is locked. *)
Definition w0 : World :=
  {| snaps := [snap 0 10 true NotSet 20; snap 1 5 true Never 10; snap 2 30 true NotSet 10;
               snap 3 20 false NotSet 20; snap 4 40 false NotSet 10; snap 5 35 false NotSet 20];
     usage := 90 |}.
Definition reserve_40 : RetentionPolicy :=
  {| keep_last := 0; keep_hourly := 0; keep_daily := 0; keep_weekly := 0; keep_monthly := 0;
     keep_yearly := 0; keep_within_days := 0; reserve_bytes := 0; reserve_percent := 40 |}.
Definition keep_1 : RetentionPolicy :=
  {| keep_last := 1; keep_hourly := 0; keep_daily := 0; keep_weekly := 0; keep_monthly := 0;
     keep_yearly := 0; keep_within_days := 30; reserve_bytes := 0; reserve_percent := 0 |}.
Definition start : St := {| world := w0; trace := []; report := empty_report |}.

(** The reserve of 40 bytes is met by the two oldest snapshots that may go. *)
Example reclaims_the_oldest :
  (λ '(r, s), (r, map d_id (snaps (world s)), usage (world s)))
    (run (Some 100%N) false reserve_40 SpaceOnly start)
  = (Ok {| time_deleted := 0; space_deleted := 2; bytes_freed := 40 |}, [1; 2; 4; 5], 50%N).
Proof. reflexivity. Qed.
Example dry_run_reports_only :
  (λ '(r, s), (r, length (snaps (world s)), usage (world s)))
    (run (Some 100%N) true reserve_40 Full start)
  = (Ok {| time_deleted := 0; space_deleted := 2; bytes_freed := 0 |}, 6, 90%N).
Proof. reflexivity. Qed.
(** The time rules delete what [forget] does not keep, except the locked snapshot. *)
Example keeps_the_last :
  (λ '(r, s), (r, map d_id (snaps (world s)))) (run None false keep_1 Full start)
  = (Ok {| time_deleted := 3; space_deleted := 0; bytes_freed := 50 |}, [1; 2; 5]).
Proof. reflexivity. Qed.

Lemma retention_spares_protected_witness :
  all_deletes (λ pre ids, ∃ all now l,
      last_listing pre = Some (all, now) ∧ ids = map sn_id l ∧
      ∀ s, s ∈ l → s ∈ all ∧ must_keep s now = false ∧ is_locked s = false)
    (trace (run (Some 100%N) false reserve_40 Full start).2).
Proof. exact (retention_spares_protected (Some 100%N) false reserve_40 Full w0). Defined.

Lemma space_rule_deletes_oldest_first_witness :
  all_deletes (λ pre ids, ∃ all now k,
      last_listing pre = Some (all, now) ∧
      ids = map sn_id (take (S k) (fifo_candidates all now)) ∧
      StronglySorted older (fifo_candidates all now) ∧
      (NoDup (map sn_id all) → ∀ g, g ∈ grouped all →
         ∃ newest, newest ∈ g ∧ (∀ s, s ∈ g → older s newest) ∧ sn_id newest ∉ ids))
    (trace (space_step (Some 100%N) false reserve_40 100 start).2).
Proof. exact (space_rule_deletes_oldest_first (Some 100%N) false reserve_40 100 w0). Defined.

Lemma dry_run_changes_nothing_witness :
  Forall (λ e, is_change e = false) (trace (run (Some 100%N) true reserve_40 Full start).2).
Proof. exact (dry_run_changes_nothing (Some 100%N) true reserve_40 Full w0 eq_refl). Defined.

Lemma run_is_bounded_and_reported_witness :
  let '(r, s) := run (Some 100%N) false reserve_40 Full start in
  deletions (trace s) ≤ 1 + MAX_SPACE_ROUNDS ∧
  ∀ rep, r = Ok rep → deleted_ids (trace s) = (time_deleted rep + space_deleted rep)%N.
Proof. exact (run_is_bounded_and_reported (Some 100%N) false reserve_40 Full w0 eq_refl). Defined.

Lemma validated_policy_applies_exactly_witness :
  target_free 1000 keep_1 = 0%N ∧
  (∃ k, build_keep keep_1 = Ok (Some k) ∧ ko_last k = Some 1%Z ∧ ko_daily k = None).
Proof.
  assert (validate keep_1 = Ok ()) as Hv by reflexivity.
  assert (u64 1000) as Hu by (unfold u64, U64_MAX; lia).
  destruct (validated_policy_applies_exactly keep_1 1000 Hv Hu) as (_ & _ & Ht & Hk).
  split; [by apply Ht|]. destruct (build_keep keep_1) as [[k|]|e]; [|discriminate|by destruct Hk].
  destruct Hk as (H1 & _ & H3 & _). exists k. by rewrite H1, H3.
Defined.
End DemoRepo.
