(* ===== verification/Store.v ===== *)
(** * Operators, mounts and their caches ([store.rs])

    [StorageManager]: which layers a point's operator gets, how a user's mount table
    is built when some of the points fail, and the caches that keep the result.
    Operators, repositories and the file system are third-party: the classes
    [OperatorApi] and [StoreLib] are what the code calls, over a world [W]. A cache is
    a map; an eviction is a step of its own ([evict_vfs] and the like), since moka may
    drop an entry at any time. The scoped threads that probe the points of a user are
    run in the order they are joined.

    The second half is the concurrent life of one user's cached mount table: requests
    that read the configuration, builders that hold the build lock, and changes of
    the configuration, as a step relation over the same pieces of [build_vfs]. *)

From S2P Require Import Prelude.
From S2P Require Import RustStr.
From S2P Require Import Errors.
From S2P Require Import Paths.
From S2P Require Import QuotaLayer.
From S2P Require Import Mounts.
From S2P Require Import Points.
From S2P Require Import Users.
From stdpp Require Import options.
Close Scope string_scope.

#[export] Instance RepoSource_eq_dec : EqDecision RepoSource.
Proof. solve_decision. Defined.
#[export] Program Instance RepoSource_countable : Countable RepoSource :=
  inj_countable' (λ s, (rs_scheme s, rs_config s, rs_password s))
    (λ '(s, c, p), {| rs_scheme := s; rs_config := c; rs_password := p |}) _.
Next Obligation. by intros []. Qed.

(** What the code calls of opendal, rustic and the file system. *)
Class StoreLib (O W : Type) := {
  RepoIndexed : Type;
  (** [Operator::via_iter], [blocking::Operator::new], [LoggingLayer] *)
  via_iter : string → gmap string string → result DalError O;
  blocking : O → result DalError O;
  with_logging : O → O;
  (** [Operator::new] of a built mount table, [Operator::from_config] of a repository *)
  vfs_operator : gmap string (Mount O) → O;
  repo_operator : RepoSource → M W DalError O;
  op_list : O → string → M W DalError (list string);
  (** A fresh handle opened with the source's password, a repository created with
      it; the [job] variants work through a given operator. *)
  open_indexed : RepoSource → M W RusticError RepoIndexed;
  init_repo : RepoSource → M W RusticError ();
  job_open : O → string → M W RusticError RepoIndexed;
  job_init : O → string → M W RusticError RepoIndexed;
  create_dir_all : string → M W IoError ();
  show_status : Status → string;
}.

Section Store.
Context {O W : Type} `{OperatorApi O W} `{!StoreLib O W} `{UuidLib} `{Foreign}.

(** [PointStatusEvent]: a critical event, so it is never dropped. *)
Record PointStatus := {
  ev_user : string; ev_point : Uuid; ev_name : string; ev_health : PointHealth;
}.

(** [StorageManager] *)
Record Store := {
  world : W;
  repos : gmap RepoSource RepoIndexed;
  repo_vfs_ops : gmap RepoSource O;
  data_ops : gmap Uuid O;
  vfs_ops : gmap string O;
  degraded_ops : gmap string O;
  health : gmap Uuid PointHealth;
  vfs_generation : gmap string N;
  refreshing : gset string;
  events : list PointStatus;
}.
Implicit Types (s : Store) (u : VfsUser) (p : VfsPoint) (src : RepoSource).

Definition set_world w s : Store :=
  {| world := w; repos := repos s; repo_vfs_ops := repo_vfs_ops s; data_ops := data_ops s;
     vfs_ops := vfs_ops s; degraded_ops := degraded_ops s; health := health s;
     vfs_generation := vfs_generation s; refreshing := refreshing s; events := events s |}.
Definition set_repos r v s : Store :=
  {| world := world s; repos := r; repo_vfs_ops := v; data_ops := data_ops s;
     vfs_ops := vfs_ops s; degraded_ops := degraded_ops s; health := health s;
     vfs_generation := vfs_generation s; refreshing := refreshing s; events := events s |}.
Definition set_data_ops d s : Store :=
  {| world := world s; repos := repos s; repo_vfs_ops := repo_vfs_ops s; data_ops := d;
     vfs_ops := vfs_ops s; degraded_ops := degraded_ops s; health := health s;
     vfs_generation := vfs_generation s; refreshing := refreshing s; events := events s |}.
Definition set_ops v d s : Store :=
  {| world := world s; repos := repos s; repo_vfs_ops := repo_vfs_ops s; data_ops := data_ops s;
     vfs_ops := v; degraded_ops := d; health := health s;
     vfs_generation := vfs_generation s; refreshing := refreshing s; events := events s |}.
Definition set_health_map h ev s : Store :=
  {| world := world s; repos := repos s; repo_vfs_ops := repo_vfs_ops s; data_ops := data_ops s;
     vfs_ops := vfs_ops s; degraded_ops := degraded_ops s; health := h;
     vfs_generation := vfs_generation s; refreshing := refreshing s; events := ev |}.
Definition set_generation g s : Store :=
  {| world := world s; repos := repos s; repo_vfs_ops := repo_vfs_ops s; data_ops := data_ops s;
     vfs_ops := vfs_ops s; degraded_ops := degraded_ops s; health := health s;
     vfs_generation := g; refreshing := refreshing s; events := events s |}.
Definition set_refreshing r s : Store :=
  {| world := world s; repos := repos s; repo_vfs_ops := repo_vfs_ops s; data_ops := data_ops s;
     vfs_ops := vfs_ops s; degraded_ops := degraded_ops s; health := health s;
     vfs_generation := vfs_generation s; refreshing := r; events := events s |}.

(** A call on the world. *)
Definition on_world {E A} (m : M W E A) : M Store E A := λ s,
  let '(r, w) := m (world s) in (r, set_world w s).

(** *** Health *)

Definition set_health u p (new : PointHealth) : M Store VfsError () := λ s,
  let changed := negb (bool_decide (health s !! pt_id p = Some new)) in
  let ev := {| ev_user := username u; ev_point := pt_id p; ev_name := name p; ev_health := new |} in
  (Ok (), set_health_map (<[pt_id p := new]> (health s)) (if changed then events s ++ [ev] else events s) s).
Definition point_health (id : Uuid) s : option PointHealth := health s !! id.

(** *** Repositories *)

Definition repo_err (msg : string) : RusticError := {| rustic_kind := RkBackend; rustic_text := msg |}.

Definition repo_exists (op : O) : M Store RusticError bool :=
  r ← attempt (on_world (op_stat op "config"%string));
  match r with
  | Ok _ => mret true
  | Err e => if bool_decide (err_kind e = Kind.NotFound) then mret false
             else throw (repo_err ("repository probe failed: " +:+ show_dal e)%string)
  end.

Definition probe src : result RusticError O :=
  map_err (λ _, repo_err "Invalid storage config"%string)
    (op ← via_iter (rs_scheme src) (rs_config src); blocking op).

Definition prepare_repo_unlocked src (allow_init : bool) : M Store RusticError () :=
  op ← lift (probe src);
  ex ← repo_exists op;
  if ex : bool then mret ()
  else if negb allow_init
  then throw (repo_err "repository does not exist (and this point is read-only)"%string)
  else on_world (init_repo src).

Definition get_raw_repo src (allow_init : bool) : M Store RusticError RepoIndexed :=
  _ ← prepare_repo_unlocked src allow_init;
  on_world (open_indexed src).

(** [get_repo]: the lookup under the lock is the one that decides. *)
Definition get_repo src : M Store RusticError RepoIndexed := λ s,
  match repos s !! src with
  | Some repo => (Ok repo, s)
  | None =>
    (repo ← get_raw_repo src false;
     _ ← modify (λ s, set_repos (<[src := repo]> (repos s)) (repo_vfs_ops s) s);
     mret repo) s
  end.

(** [create_for_job], [get_repo_job] *)
Definition create_for_job src (op : O) (allow_init : bool) : M Store RusticError RepoIndexed :=
  ex ← repo_exists op;
  if ex : bool then on_world (job_open op (rs_password src))
  else if allow_init then on_world (job_init op (rs_password src))
  else throw (repo_err "repository does not exist"%string).

(** *** Operators of one point *)

Definition point_operator u p : result VfsError O :=
  op ← map_err OpenDal (via_iter (scheme p) (config p));
  let op :=
    if Points.read_only p then with_read_only op
    else match max_bytes p with
         | Some max => if is_repo p || negb (is_local_scheme (scheme p))
                       then with_quota {| l_id := quota_id (username u) (pt_id p); l_limit := max |} op
                       else op
         | None => op
         end in
  Ok (with_logging op).

Definition mount_operator p : result VfsError O :=
  op ← map_err OpenDal (via_iter (scheme p) (config p));
  let op := if negb (is_user_writable p) then with_read_only op else op in
  Ok (with_logging op).

Definition get_data_operator u p : M Store VfsError O := λ s,
  match data_ops s !! pt_id p with
  | Some op => (Ok op, s)
  | None =>
    (op ← lift (point_operator u p);
     x ← lift (map_err OpenDal (blocking op));
     _ ← modify (λ s, set_data_ops (<[pt_id p := x]> (data_ops s)) s);
     mret x) s
  end.

(** *** Mounts *)

(** Listing the root proves that the backend answers; a missing local root is
    created, a backend that cannot list is asked for the root's metadata. *)
Definition probe_root p (probe : O) : M Store VfsError () :=
  r ← attempt (on_world (op_list probe ""%string));
  match r with
  | Ok _ => mret ()
  | Err e =>
    if bool_decide (err_kind e = Kind.NotFound) && is_local_scheme (scheme p) then
      root ← lift (map_err (λ st, Internal (show_status st)) (local_source_path p));
      m_map_err (λ e, Internal ("failed to create local point root: " +:+ io_text e)%string)
        (on_world (create_dir_all root))
    else if bool_decide (err_kind e = Kind.Unsupported) then
      _ ← m_map_err OpenDal (on_world (op_stat probe ""%string)); mret ()
    else throw (OpenDal e)
  end.

Definition build_data_mount p : M Store VfsError (string * O) :=
  op ← lift (mount_operator p);
  probe ← lift (map_err OpenDal (blocking op));
  _ ← probe_root p probe;
  mret (data_mount_path (name p), op).

Definition build_repo_mount p : M Store VfsError (string * O) :=
  pass ← lift (ok_or RepoPasswordMissing (repo_password p));
  let src := {| rs_scheme := scheme p; rs_config := config p; rs_password := pass |} in
  cached ← gets (λ s, repo_vfs_ops s !! src);
  match cached with
  | Some op => mret (repo_mount_path (name p), op)
  | None =>
    _ ← m_map_err Storage (prepare_repo_unlocked src (negb (Points.read_only p)));
    op ← m_map_err OpenDal (on_world (repo_operator src));
    _ ← modify (λ s, set_repos (repos s) (<[src := op]> (repo_vfs_ops s)) s);
    mret (repo_mount_path (name p), op)
  end.

Definition build_mount p : M Store VfsError (string * O) :=
  if negb (is_repo p) then build_data_mount p else build_repo_mount p.

(** The threads of [create_for_vfs], joined in order. *)
Fixpoint probe_all (ps : list VfsPoint) : M Store VfsError (list (result VfsError (string * O))) :=
  match ps with
  | [] => mret []
  | p :: ps => r ← attempt (build_mount p); rs ← probe_all ps; mret (r :: rs)
  end.

(** The loop over [points.zip(results)]: the table so far and [degraded]. *)
Fixpoint mount_all u (zipped : list (VfsPoint * result VfsError (string * O)))
    (vfs : VfsBuilder (O := O)) (degraded : bool) : M Store VfsError (VfsBuilder (O := O) * bool) :=
  match zipped with
  | [] => mret (vfs, degraded)
  | (p, Ok (path, op)) :: zipped =>
    let vfs := if is_repo p then builder_read_only (builder_mount path op vfs)
               else builder_mount path op vfs in
    _ ← set_health u p Healthy; mount_all u zipped vfs degraded
  | (p, Err e) :: zipped =>
    _ ← set_health u p (Failed (vfs_error_to_string e)); mount_all u zipped vfs true
  end.

Definition create_for_vfs u : M Store VfsError (O * bool) :=
  results ← probe_all (points u);
  '(vfs, degraded) ← mount_all u (combine (points u) results) [] false;
  mounts ← lift (map_err OpenDal (build vfs));
  mret (vfs_operator mounts, degraded).

(** *** The cached mount table of a user *)

Definition current_generation (key : string) s : N := opt_or 0%N (vfs_generation s !! key).

(** The last lines of [build_vfs]: the insertion, and the check before it. *)
Definition store_vfs (key : string) (op : O) (degraded : bool) s : Store :=
  if degraded then set_ops (delete key (vfs_ops s)) (<[key := op]> (degraded_ops s)) s
  else set_ops (<[key := op]> (vfs_ops s)) (delete key (degraded_ops s)) s.
Definition unchanged_since (key : string) (generation : N) s : bool :=
  bool_decide (current_generation key s = generation).

Definition build_vfs u : M Store VfsError O := λ s,
  let key := username u in
  match vfs_ops s !! key with
  | Some op => (Ok op, s)
  | None =>
    (generation ← gets (current_generation key);
     '(op, degraded) ← create_for_vfs u;
     same ← gets (unchanged_since key generation);
     if negb same then mret op
     else _ ← modify (store_vfs key op degraded); mret op) s
  end.

(** The spawned task of [refresh_degraded], run to its end. *)
Definition refresh_degraded u : M Store VfsError () := λ s,
  let key := username u in
  if bool_decide (key ∈ refreshing s) then (Ok (), s)
  else
    (_ ← modify (λ s, set_refreshing ({[key]} ∪ refreshing s) s);
     _ ← attempt (build_vfs u);
     modify (λ s, set_refreshing (refreshing s ∖ {[key]}) s)) s.

Definition get_vfs u : M Store VfsError O := λ s,
  let key := username u in
  match vfs_ops s !! key with
  | Some op => (Ok op, s)
  | None =>
    match degraded_ops s !! key with
    | Some op => (_ ← refresh_degraded u; mret op) s
    | None => build_vfs u s
    end
  end.

(** [invalidate_vfs] *)
Definition invalidate_point p s : Store :=
  let s := set_health_map (delete (pt_id p) (health s)) (events s) s in
  let s := set_data_ops (delete (pt_id p) (data_ops s)) s in
  if is_repo p then
    match repo_password p with
    | Some password =>
      let src := {| rs_scheme := scheme p; rs_config := config p; rs_password := password |} in
      set_repos (delete src (repos s)) (delete src (repo_vfs_ops s)) s
    | None => s
    end
  else s.
Definition next_generation (g : option N) : N :=
  match g with Some g => saturating_add g 1 | None => 1 end.
Definition invalidate_vfs u s : Store :=
  let key := username u in
  let s := set_generation (<[key := next_generation (vfs_generation s !! key)]> (vfs_generation s)) s in
  let s := set_ops (delete key (vfs_ops s)) (delete key (degraded_ops s)) s in
  foldl (λ s p, invalidate_point p s) s (points u).

(** Evictions. *)
Definition evict_vfs (key : string) s : Store := set_ops (delete key (vfs_ops s)) (degraded_ops s) s.
Definition evict_degraded (key : string) s : Store := set_ops (vfs_ops s) (delete key (degraded_ops s)) s.

(** ** Lemmas: what a mount does to the store *)

(** Building a mount touches the world and the caches of repositories only. *)
Definition framed s0 s : Prop :=
  health s = health s0 ∧ events s = events s0 ∧ vfs_ops s = vfs_ops s0 ∧
  degraded_ops s = degraded_ops s0 ∧ vfs_generation s = vfs_generation s0 ∧
  data_ops s = data_ops s0 ∧ refreshing s = refreshing s0.
Notation keeps m Q := (∀ s0, triple (framed s0) m (λ a s, Q a ∧ framed s0 s) (framed s0)).

Lemma keeps_world {E A} (m : M W E A) : keeps (on_world m) (λ _, True).
Proof using Type. intros s0 s Hs. unfold on_world. by destruct (m (world s)) as [[a|e] w]. Qed.
Lemma keeps_attempt_world {E F A} (m : M W E A) : keeps (attempt (F := F) (on_world m)) (λ _, True).
Proof using Type. intros s0 s Hs. unfold attempt, on_world. by destruct (m (world s)) as [[a|e] w]. Qed.
Lemma keeps_lift {E A} (r : result E A) : keeps (lift r) (λ a, r = Ok a).
Proof using Type. intros s0. by apply triple_lift. Qed.
Lemma keeps_ret {E A} (a : A) (Q : A → Prop) : Q a → keeps (mret a : M Store E A) Q.
Proof using Type. intros HQ s0. by apply triple_ret. Qed.
Lemma keeps_throw {E A} (e : E) (Q : A → Prop) : keeps (throw e : M Store E A) Q.
Proof using Type. by intros s0 s Hs. Qed.
Lemma keeps_bind {E A B} (m : M Store E A) (f : A → M Store E B) Q Q' :
  keeps m Q → (∀ a, Q a → keeps (f a) Q') → keeps (mbind f m) Q'.
Proof using Type.
  intros Hm Hf s0. eapply triple_bind; [apply Hm|]. intros a. apply triple_pure. intros Ha. by apply Hf.
Qed.
Lemma keeps_map_err {E F A} (f : E → F) (m : M Store E A) Q : keeps m Q → keeps (m_map_err f m) Q.
Proof using Type.
  intros Hm s0 s Hs. specialize (Hm s0 s Hs). unfold m_map_err. by destruct (m s) as [[a|e] s'].
Qed.
Lemma keeps_gets {E A} (f : Store → A) : keeps (gets f : M Store E A) (λ _, True).
Proof using Type. by intros s0 s Hs. Qed.
Lemma keeps_repos {E} (f : Store → gmap RepoSource RepoIndexed) (g : Store → gmap RepoSource O) :
  keeps (modify (λ s, set_repos (f s) (g s) s) : M Store E ()) (λ _, True).
Proof using Type. by intros s0 s Hs. Qed.

Ltac frame :=
  repeat first
    [ apply keeps_ret; done | apply keeps_throw | apply keeps_world | apply keeps_gets
    | apply keeps_repos | apply keeps_attempt_world | apply keeps_lift | apply keeps_map_err
    | eapply keeps_bind; [|intros ? ?]; cbn beta iota zeta
    | case_match ].

Lemma keeps_repo_exists op : keeps (repo_exists op) (λ _, True).
Proof using Type. unfold repo_exists. frame. Qed.
Lemma keeps_prepare src allow : keeps (prepare_repo_unlocked src allow) (λ _, True).
Proof using Type.
  unfold prepare_repo_unlocked. eapply keeps_bind; [apply keeps_lift|]. intros op _.
  eapply keeps_bind; [apply keeps_repo_exists|]. intros ex _. frame.
Qed.
Lemma keeps_probe_root p op : keeps (probe_root p op) (λ _, True).
Proof using Type. unfold probe_root. frame. Qed.

(** What a successful mount is. *)
Definition mount_of p (r : string * O) : Prop :=
  r.1 = point_mount_path p ∧
  (is_repo p = false → ∃ raw, via_iter (scheme p) (config p) = Ok raw ∧
     r.2 = with_logging (if is_user_writable p then raw else with_read_only raw)).

Lemma keeps_build_mount p : keeps (build_mount p) (mount_of p).
Proof using Type.
  unfold build_mount, mount_of, point_mount_path. destruct (is_repo p) eqn:Hr; cbn [negb].
  - unfold build_repo_mount. eapply keeps_bind; [apply keeps_lift|]. intros pass _.
    eapply keeps_bind; [apply keeps_gets|]. intros [op|] _; [by apply keeps_ret|].
    eapply keeps_bind; [apply keeps_map_err, keeps_prepare|]. intros _ _. frame.
  - unfold build_data_mount. eapply keeps_bind; [apply keeps_lift|]. intros op Hop.
    eapply keeps_bind; [apply keeps_lift|]. intros b _.
    eapply keeps_bind; [apply keeps_probe_root|]. intros _ _.
    apply keeps_ret. split; [done|]. intros _. unfold mount_operator in Hop.
    destruct (via_iter _ _) as [raw|e]; [|done]. cbn in Hop. injection Hop as <-.
    exists raw. split; [done|]. cbn. by destruct (is_user_writable p).
Qed.

(** The outcome of one point's probe. *)
Definition outcome p (r : result VfsError (string * O)) : Prop :=
  (∃ s1 s2, build_mount p s1 = (r, s2)) ∧ match r with Ok m => mount_of p m | Err _ => True end.

Lemma probe_all_spec ps s :
  ∃ rs s', probe_all ps s = (Ok rs, s') ∧ Forall2 outcome ps rs ∧ framed s s'.
Proof using Type.
  revert s; induction ps as [|p ps IH]; intros s; cbn [probe_all].
  { exists [], s. by split_and!. }
  pose proof (keeps_build_mount p s s ltac:(done)) as Hm.
  unfold mbind, M_bind, attempt. destruct (build_mount p s) as [r s1] eqn:Eb.
  destruct (IH s1) as (rs & s' & -> & Hall & Hf). exists (r :: rs), s'. split; [done|].
  assert (framed s s1) as Hf1 by (destruct r; [by apply Hm | done]).
  split; [|by unfold framed in *; destruct_and!; split_and!; congruence].
  constructor; [|done]. split; [by eauto|]. destruct r; [by apply Hm | done].
Qed.

(** *** The loop that mounts *)

Definition pending_of (e : VfsPoint * result VfsError (string * O)) : option (PendingMount (O := O)) :=
  match e with
  | (p, Ok (path, op)) => Some {| pm_path := normalize path; pm_operator := op;
                                  pm_read_only := is_repo p; pm_quota := Disabled |}
  | (p, Err _) => None
  end.
Definition health_of (r : result VfsError (string * O)) : PointHealth :=
  match r with Ok _ => Healthy | Err e => Failed (vfs_error_to_string e) end.
Definition record_health (h : gmap Uuid PointHealth) (zipped : list (VfsPoint * result VfsError (string * O))) :=
  foldl (λ h e, <[pt_id e.1 := health_of e.2]> h) h zipped.

Lemma update_last_snoc {A} (f : A → A) l x : update_last f (l ++ [x]) = l ++ [f x].
Proof using Type. induction l as [|y l IH]; cbn; [done|]. rewrite IH. by destruct (l ++ [x]) eqn:E; [destruct l|]. Qed.

Lemma mount_all_spec u zipped vfs d s :
  ∃ s', mount_all u zipped vfs d s
        = (Ok (vfs ++ omap pending_of zipped, d || list_any is_err (map snd zipped)), s') ∧
  health s' = record_health (health s) zipped ∧
  vfs_ops s' = vfs_ops s ∧ degraded_ops s' = degraded_ops s ∧ vfs_generation s' = vfs_generation s.
Proof using Type.
  revert vfs d s; induction zipped as [|[p [[path op]|e]] zipped IH]; intros vfs d s; cbn [mount_all].
  - exists s. cbn. by rewrite app_nil_r, orb_false_r.
  - unfold mbind, M_bind, set_health. destruct (IH
      (if is_repo p then builder_read_only (builder_mount path op vfs) else builder_mount path op vfs) d
      (set_health_map (<[pt_id p:=Healthy]> (health s))
        (if negb (bool_decide (health s !! pt_id p = Some Healthy)) then
           events s ++ [{| ev_user := username u; ev_point := pt_id p; ev_name := name p; ev_health := Healthy |}]
         else events s) s)) as (s' & -> & Hh & Hv & Hd & Hg).
    exists s'. split; [|by split_and!]. cbn. do 3 f_equal.
    unfold builder_read_only, builder_mount. destruct (is_repo p).
    + by rewrite update_last_snoc, <-app_assoc.
    + by rewrite <-app_assoc.
  - unfold mbind, M_bind, set_health. destruct (IH vfs true
      (set_health_map (<[pt_id p:=Failed (vfs_error_to_string e)]> (health s))
        (if negb (bool_decide (health s !! pt_id p = Some (Failed (vfs_error_to_string e)))) then
           events s ++ [{| ev_user := username u; ev_point := pt_id p; ev_name := name p; ev_health := Failed (vfs_error_to_string e) |}]
         else events s) s)) as (s' & -> & Hh & Hv & Hd & Hg).
    exists s'. split; [|by split_and!]. cbn. by rewrite orb_true_r.
Qed.

Lemma record_health_other zipped h id :
  id ∉ map (λ e, pt_id e.1) zipped → record_health h zipped !! id = h !! id.
Proof using Type.
  revert h; induction zipped as [|e zipped IH]; intros h; cbn; [done|].
  rewrite not_elem_of_cons. intros [Hne Hn]. unfold record_health in *. cbn. rewrite IH by done.
  by rewrite lookup_insert_ne.
Qed.
Lemma record_health_in zipped h i e :
  NoDup (map (λ e, pt_id e.1) zipped) → zipped !! i = Some e →
  record_health h zipped !! pt_id e.1 = Some (health_of e.2).
Proof using Type.
  revert h i; induction zipped as [|e' zipped IH]; intros h i; [done|]. cbn [map].
  rewrite NoDup_cons. intros [Hn Hnd]. destruct i as [|i]; cbn.
  - intros [= ->]. rewrite record_health_other by done. by rewrite lookup_insert_eq.
  - intros Hi. unfold record_health. cbn. by apply (IH _ i).
Qed.

(** *** Paths *)

Definition mountable (ps : list VfsPoint) : Prop :=
  NoDup (map key_of ps) ∧ Forall (λ p, normal_seg (name p)) ps.

Lemma mount_path_normal p :
  normal_seg (name p) →
  Forall normal_seg [if is_repo p then REPOS_ROOT else POINTS_ROOT; name p].
Proof using Type. intros Hn. constructor; [|by constructor]. by destruct (is_repo p). Qed.
Lemma mount_path_normalized p : normal_seg (name p) → normalize (point_mount_path p) = point_mount_path p.
Proof using Type.
  intros Hn. rewrite point_mount_path_absp.
  pose proof (normalize_absp _ false (mount_path_normal p Hn)) as Ha. cbn [dir_suffix] in Ha.
  by rewrite app_empty_r in Ha.
Qed.
Lemma mount_path_inj p q : normal_seg (name p) → normal_seg (name q) →
  point_mount_path p = point_mount_path q → key_of p = key_of q.
Proof using Type.
  intros Hp Hq. rewrite !point_mount_path_absp. intros Heq.
  pose proof (absp_inj _ _ (mount_path_normal p Hp) (mount_path_normal q Hq) Heq) as Hs.
  unfold key_of. injection Hs as Hroot ->. f_equal. by destruct (is_repo p), (is_repo q).
Qed.

Lemma pending_spec ps rs m :
  Forall (λ p, normal_seg (name p)) ps → Forall2 outcome ps rs → m ∈ omap pending_of (combine ps rs) →
  ∃ p op i, ps !! i = Some p ∧ rs !! i = Some (Ok (point_mount_path p, op)) ∧
    m = {| pm_path := point_mount_path p; pm_operator := op; pm_read_only := is_repo p; pm_quota := Disabled |}.
Proof using Type.
  intros Hn Hrs. induction Hrs as [|p r ps rs [_ Hr] Hrs IH]; cbn; [by intros ?%elem_of_nil|].
  apply Forall_cons in Hn as [Hp Hn].
  assert (m ∈ omap pending_of (combine ps rs) → ∃ q op i, (p :: ps) !! i = Some q ∧
    (r :: rs) !! i = Some (Ok (point_mount_path q, op)) ∧
    m = {| pm_path := point_mount_path q; pm_operator := op; pm_read_only := is_repo q; pm_quota := Disabled |}) as Hrest.
  { intros Hin. destruct (IH Hn Hin) as (q & op & i & ? & ? & ?). by exists q, op, (S i). }
  destruct r as [[path op]|e]; [|done]. cbn. rewrite elem_of_cons. intros [->|Hin]; [|by apply Hrest].
  destruct Hr as [Hpath _]. cbn in Hpath. subst path. exists p, op, 0%nat.
  by rewrite mount_path_normalized.
Qed.

Lemma pending_nodup ps rs :
  mountable ps → Forall2 outcome ps rs → NoDup (map pm_path (omap pending_of (combine ps rs))).
Proof using Type.
  intros [Hnd Hn] Hrs. induction Hrs as [|p r ps rs [Ho Hr] Hrs IH]; cbn; [constructor|].
  apply NoDup_cons in Hnd as [Hk Hnd]. apply Forall_cons in Hn as [Hp Hn].
  destruct r as [[path op]|e]; cbn; [|by apply IH].
  apply NoDup_cons. split; [|by apply IH].
  intros (m & Hm & Hin)%list_elem_of_fmap.
  apply (pending_spec ps rs) in Hin as (q & op' & i & Hq & _ & ->); [|done..].
  destruct Hr as [Hpath _]. cbn in Hpath, Hm. subst path. rewrite mount_path_normalized in Hm by done.
  pose proof (Forall_lookup_1 _ _ _ _ Hn Hq) as Hnq.
  apply Hk. apply mount_path_inj in Hm; [|done..].
  rewrite Hm. apply list_elem_of_fmap. exists q. split; [done|]. by eapply list_elem_of_lookup_2.
Qed.

Lemma built_path m : (built m).1 = pm_path m.
Proof using Type. done. Qed.

Lemma mounts_of_pending ps rs :
  mountable ps → Forall2 outcome ps rs →
  ∃ mounts, build (omap pending_of (combine ps rs)) = Ok mounts ∧
    ∀ path mo, mounts !! path = Some mo ↔
      ∃ m, m ∈ omap pending_of (combine ps rs) ∧ built m = (path, mo).
Proof using Type.
  intros Hm Hrs. set (pend := omap pending_of (combine ps rs)).
  exists (list_to_map (map built pend)).
  assert (NoDup (map pm_path pend)) as Hnd by by apply pending_nodup.
  split.
  - unfold build. apply build_from_ok. split_and!; [|done|by rewrite (right_id_L ∅ (∪))].
    intros m Hin. apply pending_spec in Hin as (p & op & i & Hi & _ & ->); [|apply Hm|done].
    cbn. split; [|done]. rewrite point_mount_path_absp. unfold absp. by destruct (is_repo p).
  - intros path mo. rewrite <-elem_of_list_to_map.
    + rewrite list_elem_of_fmap. naive_solver.
    + rewrite <-list_fmap_compose. exact Hnd.
Qed.

(** C36. One bad point does not take a user's other points down: for points with
    distinct ids and mountable names, building the mount table always succeeds,
    whatever each probe answers. The table holds exactly the points whose probe
    succeeded, each at its own mount path; repositories are mounted read-only, and a
    data point's operator carries the read-only layer unless users may write to it.
    Every point's health records its own outcome, the health of other points is
    untouched, and the table counts as degraded iff some point failed. *)
Theorem vfs_isolates_failing_points u s :
  mountable (points u) → NoDup (point_ids (points u)) →
  ∃ results mounts s',
    create_for_vfs u s = (Ok (vfs_operator mounts, list_any is_err results), s') ∧
    length results = length (points u) ∧
    (∀ i p r, points u !! i = Some p → results !! i = Some r →
      (∃ s1 s2, build_mount p s1 = (r, s2)) ∧
      health s' !! pt_id p = Some (health_of r) ∧
      match r with
      | Ok (path, op) =>
        path = point_mount_path p ∧
        mounts !! path = Some {| operator := (if is_repo p then with_read_only op else op);
                                 Mounts.read_only := is_repo p |} ∧
        (is_repo p = false → ∃ raw, via_iter (scheme p) (config p) = Ok raw ∧
           op = with_logging (if is_user_writable p then raw else with_read_only raw))
      | Err _ => mounts !! point_mount_path p = None
      end) ∧
    (∀ path mo, mounts !! path = Some mo → ∃ p, p ∈ points u ∧ path = point_mount_path p) ∧
    (∀ id, id ∉ point_ids (points u) → health s' !! id = health s !! id).
Proof using Type.
  intros Hm Hids. destruct (probe_all_spec (points u) s) as (rs & s1 & Hp & Hrs & Hf).
  destruct (mount_all_spec u (combine (points u) rs) [] false s1) as (s2 & Hma & Hh & _).
  destruct (mounts_of_pending _ _ Hm Hrs) as (mounts & Hb & Hmounts).
  pose proof (Forall2_length _ _ _ Hrs) as Hlen.
  assert (map snd (combine (points u) rs) = rs) as Hsnd.
  { clear -Hlen. revert rs Hlen. induction (points u) as [|p ps IH]; intros [|r rs] Hlen; try done.
    cbn. f_equal. apply IH. by injection Hlen. }
  assert (map (λ e, pt_id e.1) (combine (points u) rs) = point_ids (points u)) as Hfst.
  { clear -Hlen. unfold point_ids. revert rs Hlen.
    induction (points u) as [|p ps IH]; intros [|r rs] Hlen; try done. cbn. f_equal. apply IH. by injection Hlen. }
  exists rs, mounts, s2. split_and!.
  - unfold create_for_vfs, mbind, M_bind. rewrite Hp, Hma. unfold lift. cbn -[build].
    change (λ x : VfsPoint * result VfsError (string * O), pending_of x) with pending_of.
    rewrite Hb. cbn. by rewrite Hsnd.
  - done.
  - intros i p r Hi Hr.
    pose proof (Forall2_lookup_lr _ _ _ _ _ _ Hrs Hi Hr) as [Hbuild Hout].
    pose proof (Forall_lookup_1 _ _ _ _ (proj2 Hm) Hi) as Hn. cbn in Hn.
    assert (combine (points u) rs !! i = Some (p, r)) as Hc.
    { clear -Hi Hr. revert i rs Hi Hr. induction (points u) as [|q ps IH]; intros [|i] [|r' rs] Hi Hr; try done.
      - cbn in *. congruence.
      - cbn in *. by apply IH. }
    split; [done|]. split.
    { rewrite Hh. pose proof (record_health_in _ (health s1) i _ ltac:(by rewrite Hfst) Hc) as Hrec. exact Hrec. }
    destruct r as [[path op]|e].
    + destruct Hout as [Hpath Hop]. cbn in Hpath, Hop. subst path. split_and!; [done| |done].
      apply Hmounts. eexists. split.
      * apply list_elem_of_omap. exists (p, Ok (point_mount_path p, op)). split; [by eapply list_elem_of_lookup_2|]. reflexivity.
      * unfold built, layered. cbn. rewrite mount_path_normalized by done. by destruct (is_repo p).
    + apply eq_None_not_Some. intros [mo (m & Hin & Hbt)%Hmounts].
      apply (pending_spec _ _ _ (proj2 Hm) Hrs) in Hin as (q & op & j & Hq & Hrj & ->).
      injection Hbt as Hpath _.
      apply mount_path_inj in Hpath; [|exact (Forall_lookup_1 _ _ _ _ (proj2 Hm) Hq)|done].
      assert (j = i) as ->; [|congruence].
      destruct Hm as [Hm _]. eapply (NoDup_lookup (map key_of (points u))); [done| |];
        rewrite list_lookup_fmap; [by rewrite Hq | rewrite Hi; cbn; by rewrite Hpath].
  - intros path mo (m & Hin & Hbt)%Hmounts.
    apply (pending_spec _ _ _ (proj2 Hm) Hrs) in Hin as (q & op & j & Hq & Hrj & ->).
    injection Hbt as <- _. exists q. split; [by eapply list_elem_of_lookup_2 | done].
  - intros id Hid. rewrite Hh, record_health_other by (by rewrite Hfst). by destruct Hf as [-> _].
Qed.

(** ** Invalidation *)

Definition source_of p : option RepoSource :=
  if is_repo p then
    (λ password, {| rs_scheme := scheme p; rs_config := config p; rs_password := password |}) <$> repo_password p
  else None.

(** [s'] is [s] without the entries of the points [ps]. *)
Definition forgotten (ps : list VfsPoint) s s' : Prop :=
  (∀ id, health s' !! id = if decide (id ∈ point_ids ps) then None else health s !! id) ∧
  (∀ id, data_ops s' !! id = if decide (id ∈ point_ids ps) then None else data_ops s !! id) ∧
  (∀ src, repos s' !! src = if decide (Some src ∈ map source_of ps) then None else repos s !! src) ∧
  (∀ src, repo_vfs_ops s' !! src = if decide (Some src ∈ map source_of ps) then None else repo_vfs_ops s !! src) ∧
  vfs_ops s' = vfs_ops s ∧ degraded_ops s' = degraded_ops s ∧ vfs_generation s' = vfs_generation s ∧
  events s' = events s.

Lemma lookup_delete_dec {K A} `{Countable K} (m : gmap K A) i j :
  delete i m !! j = if decide (j = i) then None else m !! j.
Proof using Type. case_decide as Hd; [subst; by rewrite lookup_delete_eq | by rewrite lookup_delete_ne]. Qed.

Lemma invalidate_point_spec p s : forgotten [p] s (invalidate_point p s).
Proof using Type.
  unfold forgotten, invalidate_point, source_of, point_ids. cbn [map].
  assert (∀ id : Uuid, id ∈ [pt_id p] ↔ id = pt_id p) as Hid by (intros; by rewrite list_elem_of_singleton).
  assert (∀ (A : Type) (id : Uuid) (x y : A),
    (if decide (id = pt_id p) then x else y) = if decide (id ∈ [pt_id p]) then x else y) as Hdec.
  { intros A id x y. repeat case_decide; try done; exfalso; naive_solver. }
  destruct (is_repo p); [destruct (repo_password p) as [pw|]|]; cbn [fmap option_fmap option_map];
    split_and!; try done; intros i; cbn; rewrite ?lookup_delete_dec, ?Hdec; try done.
  all: repeat case_decide; try done; exfalso.
  all: repeat match goal with
       | Hin : _ ∈ [_] |- _ => apply list_elem_of_singleton in Hin
       | Hin : _ ∉ [_] |- _ => rewrite list_elem_of_singleton in Hin
       end; simplify_eq; try done.
Qed.

Lemma forgotten_app ps qs s1 s2 s3 : forgotten ps s1 s2 → forgotten qs s2 s3 → forgotten (ps ++ qs) s1 s3.
Proof using Type.
  intros (Hh & Hd & Hr & Hv & ? & ? & ? & ?) (Hh' & Hd' & Hr' & Hv' & ? & ? & ? & ?).
  unfold forgotten, point_ids in *. rewrite !map_app. split_and!; try congruence; intros i.
  - rewrite Hh', Hh. repeat case_decide; try done; exfalso; set_solver.
  - rewrite Hd', Hd. repeat case_decide; try done; exfalso; set_solver.
  - rewrite Hr', Hr. repeat case_decide; try done; exfalso; set_solver.
  - rewrite Hv', Hv. repeat case_decide; try done; exfalso; set_solver.
Qed.

Lemma invalidate_points_spec ps s : forgotten ps s (foldl (λ s p, invalidate_point p s) s ps).
Proof using Type.
  revert s; induction ps as [|p ps IH]; intros s; cbn [foldl].
  { unfold forgotten. split_and!; try done; intros i; (case_decide as Hi; [by apply elem_of_nil in Hi|done]). }
  apply (forgotten_app [p] ps s (invalidate_point p s)); [apply invalidate_point_spec | apply IH].
Qed.

(** Invalidation forgets a user and nothing else: afterwards no table of the user
    is cached, no point of the old configuration has a health record, a job operator
    or (a repository under the old password) an open handle or mounted tree; every
    other user, point and repository keeps its entries, no event is sent, and the
    user's generation has moved on (until it saturates). *)
Theorem invalidate_forgets_exactly_the_user u s :
  let s' := invalidate_vfs u s in
  (∀ n, vfs_ops s' !! n = if decide (n = username u) then None else vfs_ops s !! n) ∧
  (∀ n, degraded_ops s' !! n = if decide (n = username u) then None else degraded_ops s !! n) ∧
  (∀ id, health s' !! id = if decide (id ∈ point_ids (points u)) then None else health s !! id) ∧
  (∀ id, data_ops s' !! id = if decide (id ∈ point_ids (points u)) then None else data_ops s !! id) ∧
  (∀ src, repos s' !! src = if decide (Some src ∈ map source_of (points u)) then None else repos s !! src) ∧
  (∀ src, repo_vfs_ops s' !! src
          = if decide (Some src ∈ map source_of (points u)) then None else repo_vfs_ops s !! src) ∧
  (∀ n, current_generation n s'
        = if decide (n = username u) then saturating_add (current_generation n s) 1
          else current_generation n s) ∧
  events s' = events s.
Proof using Type.
  cbn zeta. unfold invalidate_vfs.
  set (s1 := set_ops _ _ _). destruct (invalidate_points_spec (points u) s1)
    as (Hh & Hd & Hr & Hv & Hops & Hdeg & Hg & He).
  split_and!; try done; intros n; cbn zeta.
  - rewrite Hops. apply lookup_delete_dec.
  - rewrite Hdeg. apply lookup_delete_dec.
  - unfold current_generation. rewrite Hg. cbn. case_decide as Hn.
    + subst n. rewrite lookup_insert_eq. cbn. unfold next_generation, saturating_add.
      destruct (vfs_generation s !! username u); cbn; unfold U64_MAX; lia.
    + by rewrite lookup_insert_ne by done.
Qed.

(** ** The cached table of a user, concurrently *)

(** A request that misses the cache: it has read the user's configuration, holds the
    build lock with the generation it saw, has the table, has passed the check. *)
Inductive Thread :=
| Fetched u
| Probing u (generation : N)
| Probed u (generation : N) (op : O) (degraded : bool)
| Cleared u (op : O) (degraded : bool).
Definition thread_user (t : Thread) : VfsUser :=
  match t with Fetched u | Probing u _ | Probed u _ _ _ | Cleared u _ _ => u end.
Definition holds_lock (t : Thread) : bool := match t with Fetched _ => false | _ => true end.

(** [origin] is the configuration a cached table was built from, [dirty] the users
    whose stored configuration changed and whose invalidation is still to come. *)
Record Sys := {
  st : Store;
  stored : gmap string VfsUser;
  threads : gmap nat Thread;
  origin : gmap string VfsUser;
  dirty : gset string;
}.
Implicit Types y : Sys.

Definition with_thread (t : nat) (th : Thread) s y : Sys :=
  {| st := s; stored := stored y; threads := <[t := th]> (threads y); origin := origin y; dirty := dirty y |}.
Definition without_thread (t : nat) s y : Sys :=
  {| st := s; stored := stored y; threads := delete t (threads y); origin := origin y; dirty := dirty y |}.
Definition lock_free (n : string) y : Prop :=
  ∀ t th, threads y !! t = Some th → username (thread_user th) = n → holds_lock th = false.

Inductive step : Sys → Sys → Prop :=
| step_fetch y t u :
    threads y !! t = None → stored y !! username u = Some u →
    step y (with_thread t (Fetched u) (st y) y)
| step_hit y t u op :
    threads y !! t = Some (Fetched u) → vfs_ops (st y) !! username u = Some op →
    step y (without_thread t (st y) y)
| step_begin y t u :
    threads y !! t = Some (Fetched u) → lock_free (username u) y →
    vfs_ops (st y) !! username u = None →
    step y (with_thread t (Probing u (current_generation (username u) (st y))) (st y) y)
| step_probe y t u g op degraded s :
    threads y !! t = Some (Probing u g) → create_for_vfs u (st y) = (Ok (op, degraded), s) →
    step y (with_thread t (Probed u g op degraded) s y)
| step_probe_failed y t u g e s :
    threads y !! t = Some (Probing u g) → create_for_vfs u (st y) = (Err e, s) →
    step y (without_thread t s y)
| step_compare y t u g op degraded :
    threads y !! t = Some (Probed u g op degraded) →
    step y (if unchanged_since (username u) g (st y) then with_thread t (Cleared u op degraded) (st y) y
            else without_thread t (st y) y)
| step_store y t u op degraded :
    threads y !! t = Some (Cleared u op degraded) →
    step y {| st := store_vfs (username u) op degraded (st y); stored := stored y;
              threads := delete t (threads y); origin := <[username u := u]> (origin y); dirty := dirty y |}
| step_commit y n (u : option VfsUser) :
    (∀ v, u = Some v → username v = n) →
    step y {| st := st y; stored := partial_alter (λ _, u) n (stored y); threads := threads y;
              origin := origin y; dirty := {[n]} ∪ dirty y |}
| step_evict y n :
    step y {| st := evict_degraded n (evict_vfs n (st y)); stored := stored y; threads := threads y;
              origin := origin y; dirty := dirty y |}.

(** [invalidate_vfs] of the user the change replaced. *)
Definition invalidate_step u y : Sys :=
  {| st := invalidate_vfs u (st y); stored := stored y; threads := threads y;
     origin := origin y; dirty := dirty y ∖ {[username u]} |}.

(** The two windows of [build_vfs] that the generation does not cover: between the
    read of the configuration and that of the generation, and between the check and
    the insertion. *)
Definition in_window (th : Thread) : bool :=
  match th with Fetched _ | Cleared _ _ _ => true | _ => false end.
Definition windows_clear u y : Prop :=
  (∀ t th, threads y !! t = Some th → in_window th = true → username (thread_user th) = username u →
     stored y !! username u = Some (thread_user th)) ∧
  (current_generation (username u) (st y) < U64_MAX)%N.

Inductive calm : Sys → Sys → Prop :=
| calm_step y y' : step y y' → calm y y'
| calm_invalidate y u : windows_clear u y → calm y (invalidate_step u y).
Inductive any_step : Sys → Sys → Prop :=
| any_of_step y y' : step y y' → any_step y y'
| any_invalidate y u : any_step y (invalidate_step u y).

Definition cached (n : string) s : Prop := is_Some (vfs_ops s !! n) ∨ is_Some (degraded_ops s !! n).
(** The configuration [u] is current, or its invalidation is still to come. *)
Definition settled_for y u : Prop := username u ∈ dirty y ∨ stored y !! username u = Some u.
Definition coherent y : Prop :=
  (∀ n, cached n (st y) → ∃ u, origin y !! n = Some u ∧ username u = n ∧ settled_for y u) ∧
  (∀ t th, threads y !! t = Some th →
    match th with
    | Fetched u | Cleared u _ _ => settled_for y u
    | Probing u g | Probed u g _ _ =>
      (g ≤ current_generation (username u) (st y))%N ∧
      (settled_for y u ∨ (g < current_generation (username u) (st y))%N)
    end).
Definition initial s (stored : gmap string VfsUser) : Sys :=
  {| st := s; stored := stored; threads := ∅; origin := ∅; dirty := ∅ |}.

Lemma create_keeps_caches u s r s' :
  create_for_vfs u s = (r, s') →
  vfs_ops s' = vfs_ops s ∧ degraded_ops s' = degraded_ops s ∧ vfs_generation s' = vfs_generation s.
Proof using Type.
  unfold create_for_vfs, mbind, M_bind.
  destruct (probe_all_spec (points u) s) as (rs & s1 & -> & _ & Hf).
  destruct (mount_all_spec u (combine (points u) rs) [] false s1) as (s2 & -> & _ & Hv & Hd & Hg).
  unfold lift. destruct Hf as (_ & _ & Hv1 & Hd1 & Hg1 & _).
  destruct (map_err _ _); cbn; intros [= _ <-]; split_and!; congruence.
Qed.

Lemma invalidate_caches u s n :
  (cached n (invalidate_vfs u s) → n ≠ username u ∧ cached n s) ∧
  current_generation n (invalidate_vfs u s)
  = (if decide (n = username u) then saturating_add (current_generation n s) 1 else current_generation n s).
Proof using Type.
  unfold invalidate_vfs. set (s1 := set_ops _ _ _).
  destruct (invalidate_points_spec (points u) s1) as (_ & _ & _ & _ & Hops & Hdeg & Hg & _).
  unfold cached, current_generation. rewrite Hops, Hdeg, Hg. cbn. split.
  - intros [[op Hop]|[op Hop]]; apply lookup_delete_Some in Hop as [? ?]; (split; [done|]); [left|right]; eauto.
  - case_decide as Hn; [subst n; rewrite lookup_insert_eq | by rewrite lookup_insert_ne].
    cbn. unfold next_generation, saturating_add. destruct (vfs_generation s !! username u); cbn; unfold U64_MAX; lia.
Qed.

(** What a thread owes to the invariant. *)
Definition thread_ok y (th : Thread) : Prop :=
  match th with
  | Fetched u | Cleared u _ _ => settled_for y u
  | Probing u g | Probed u g _ _ =>
    (g ≤ current_generation (username u) (st y))%N ∧
    (settled_for y u ∨ (g < current_generation (username u) (st y))%N)
  end.

Lemma thread_ok_weaken y y' th :
  (∀ u, settled_for y u → settled_for y' u) →
  (∀ n, current_generation n (st y') = current_generation n (st y)) →
  thread_ok y th → thread_ok y' th.
Proof using Type.
  intros Hs Hg. destruct th; cbn; rewrite ?Hg; [by apply Hs | | | by apply Hs].
  - intros [? [?|?]]; split; auto.
  - intros [? [?|?]]; split; auto.
Qed.

(** The store part of a step that moves one thread. *)
Lemma coherent_with_thread t th s y :
  coherent y → (∀ n, cached n s → cached n (st y)) →
  (∀ n, current_generation n s = current_generation n (st y)) →
  thread_ok y th → coherent (with_thread t th s y).
Proof using Type.
  intros [Hc Ht] Hs Hg Hth. split.
  - intros n Hn. by apply Hc, Hs.
  - intros t' th' Hl. cbn in Hl. apply (thread_ok_weaken y); [done|done|].
    apply lookup_insert_Some in Hl as [[_ <-]|[_ Hl]]; [done | by apply (Ht t')].
Qed.
Lemma coherent_without_thread t s y :
  coherent y → (∀ n, cached n s → cached n (st y)) →
  (∀ n, current_generation n s = current_generation n (st y)) → coherent (without_thread t s y).
Proof using Type.
  intros [Hc Ht] Hs Hg. split.
  - intros n Hn. by apply Hc, Hs.
  - intros t' th' Hl. cbn in Hl. apply (thread_ok_weaken y); [done|done|].
    apply lookup_delete_Some in Hl as [_ Hl]. by apply (Ht t').
Qed.

Lemma step_coherent y y' : step y y' → coherent y → coherent y'.
Proof using Type.
  intros Hstep Hy. pose proof Hy as [Hc Ht].
  assert (∀ t th, threads y !! t = Some th → thread_ok y th) as Hth by (intros t th Hl; exact (Ht t th Hl)).
  destruct Hstep as [y t u Hn Hu|y t u op Hl Hop|y t u Hl Hlock Hop|y t u g op d s Hl Hcr|y t u g e s Hl Hcr
    |y t u g op d Hl|y t u op d Hl|y n u Hu|y n].
  - apply coherent_with_thread; try done. by right.
  - by apply coherent_without_thread.
  - apply coherent_with_thread; try done. split; [lia | left; exact (Hth t _ Hl)].
  - apply create_keeps_caches in Hcr as (Hv & Hd & Hg). apply coherent_with_thread; try done.
    + intros n. unfold cached. by rewrite Hv, Hd.
    + intros n. unfold current_generation. by rewrite Hg.
    + exact (Hth t _ Hl).
  - apply create_keeps_caches in Hcr as (Hv & Hd & Hg). apply coherent_without_thread; try done.
    + intros n. unfold cached. by rewrite Hv, Hd.
    + intros n. unfold current_generation. by rewrite Hg.
  - unfold unchanged_since. case_bool_decide as Hg; [|by apply coherent_without_thread].
    apply coherent_with_thread; try done. destruct (Hth t _ Hl) as [_ [?|?]]; [done | lia].
  - pose proof (Hth t _ Hl) as Hs. split.
    + intros n Hn. cbn. destruct (decide (n = username u)) as [->|Hne].
      { exists u. by rewrite lookup_insert_eq. }
      rewrite lookup_insert_ne by done. apply Hc. revert Hn. unfold cached, store_vfs.
      destruct d; cbn; rewrite ?lookup_insert_ne, ?lookup_delete_ne by done; done.
    + intros t' th' Hl'. cbn in Hl'. apply lookup_delete_Some in Hl' as [_ Hl'].
      apply (thread_ok_weaken y); [done| |by apply (Hth t')]. intros n. cbn. unfold store_vfs. by destruct d.
  - assert (∀ v, settled_for y v → settled_for
      {| st := st y; stored := partial_alter (λ _, u) n (stored y); threads := threads y;
         origin := origin y; dirty := {[n]} ∪ dirty y |} v) as Hset.
    { intros v [Hv|Hv]; unfold settled_for; cbn; [left; set_solver|].
      destruct (decide (username v = n)) as [<-|Hne]; [left; set_solver|].
      right. by rewrite lookup_partial_alter_ne. }
    split.
    + intros m Hm. destruct (Hc m Hm) as (v & ? & ? & ?). exists v. by split_and!; [| |apply Hset].
    + intros t th Hl. by apply (thread_ok_weaken y); [| |apply (Hth t)].
  - split.
    + intros m Hm. apply Hc. revert Hm. unfold cached. cbn.
      intros [[op Hop]|[op Hop]]; apply lookup_delete_Some in Hop as [_ Hop]; [left|right]; eauto.
    + intros t th Hl. apply (thread_ok_weaken y); [done|done|]. by apply (Hth t).
Qed.

Lemma invalidate_coherent y u : windows_clear u y → coherent y → coherent (invalidate_step u y).
Proof using Type.
  intros [Hw Hmax] [Hc Ht].
  assert (∀ v, username v ≠ username u → settled_for y v → settled_for (invalidate_step u y) v) as Hset.
  { intros v Hne [Hv|Hv]; [left; cbn; set_solver | by right]. }
  assert (∀ n, current_generation n (st (invalidate_step u y)) = _) as Hg
    by (intros n; exact (proj2 (invalidate_caches u (st y) n))).
  split.
  - intros n [Hne Hn]%invalidate_caches. destruct (Hc n Hn) as (v & Ho & Hv & Hs).
    exists v. split_and!; try done. apply Hset; [congruence | done].
  - intros t th Hl. cbn in Hl. specialize (Ht t th Hl). specialize (Hw t th Hl).
    destruct (decide (username (thread_user th) = username u)) as [Heq|Hne].
    + destruct th as [v|v g|v g op d|v op d]; cbn [thread_user] in *.
      * right. cbn. rewrite Heq. by apply Hw.
      * rewrite Hg, decide_True by done. unfold saturating_add. rewrite Heq in *. lia.
      * rewrite Hg, decide_True by done. unfold saturating_add. rewrite Heq in *. lia.
      * right. cbn. rewrite Heq. by apply Hw.
    + destruct th as [v|v g|v g op d|v op d]; cbn [thread_user] in *; rewrite ?Hg, ?decide_False by done;
        [by apply Hset| | |by apply Hset].
      * destruct Ht as [? [?|?]]; split; auto.
      * destruct Ht as [? [?|?]]; split; auto.
Qed.

(** C21. The generation does what it is for: however requests, builders, evictions and
    changes of the configuration interleave, as long as no invalidation of a user
    falls into one of the two windows of a builder that holds an outdated
    configuration (before it has read the generation, or between the check and the
    insertion), every cached table of a user was built from the stored configuration,
    or that user's invalidation is still to come. In particular every invalidation
    that falls into the probing itself is noticed. *)
Theorem cached_table_is_current s0 db y n :
  (∀ n, ¬ cached n s0) → rtc calm (initial s0 db) y → cached n (st y) →
  ∃ u, origin y !! n = Some u ∧ (n ∈ dirty y ∨ stored y !! n = Some u).
Proof using Type.
  intros Hinit Hrtc Hn.
  assert (coherent y) as [Hc _].
  { remember (initial s0 db) as y0 eqn:Hy0. assert (coherent y0) as Hc0.
    { subst. split; [by intros m Hm%Hinit | by intros t th ?]. }
    clear Hy0 Hn. induction Hrtc as [|y1 y2 y3 Hs _ IH]; [done|]. apply IH.
    destruct Hs; [by eapply step_coherent | by apply invalidate_coherent]. }
  destruct (Hc n Hn) as (u & Ho & <- & Hs). by exists u.
Qed.
End Store.

(** ** A concrete store *)

Module DemoStore.
Import PlainUuid.
Import (hints) DemoOp.
Notation op := DemoOp.op.
Notation store := DemoOp.store.
Notation plain := DemoOp.plain.
Notation absent := DemoOp.absent.

#[export] Instance demo_lib : StoreLib op store := {|
  RepoIndexed := string;
  via_iter sch _ := if bool_decide (sch = "broken"%string) then Err absent else Ok (plain sch);
  blocking := Ok;
  with_logging o := o;
  vfs_operator _ := plain "vfs"%string;
  repo_operator src := mret (plain (rs_scheme src));
  op_list _ _ := mret [];
  open_indexed src := mret (rs_scheme src);
  init_repo _ := mret ();
  job_open o _ := mret (DemoOp.name o);
  job_init o _ := mret (DemoOp.name o);
  create_dir_all _ := mret ();
  show_status := message;
|}.
Definition s0 : Store (O := op) (W := store) :=
  {| world := ∅; repos := ∅; repo_vfs_ops := ∅; data_ops := ∅; vfs_ops := ∅; degraded_ops := ∅;
     health := ∅; vfs_generation := ∅; refreshing := ∅; events := [] |}.

Definition broken : VfsPoint :=
  {| pt_id := id2; name := "old"; max_bytes := None; Points.read_only := false; scheme := "broken";
     config := ∅; is_repo := false; repo_password := None |}.
Definition bob : VfsUser := {| username := "bob"; points := [data_demo; broken] |}.

Lemma bob_ok : mountable (points bob) ∧ NoDup (point_ids (points bob)).
Proof.
  split; [split|].
  - by apply (bool_decide_unpack _).
  - repeat constructor; done.
  - by apply (bool_decide_unpack _).
Qed.

(** The broken point is recorded, the other is mounted. *)
Lemma vfs_isolates_failing_points_witness :
  ∃ mounts s', create_for_vfs (H1 := plain_foreign) bob s0 = (Ok (vfs_operator mounts, true), s') ∧
    is_Some (mounts !! "/points/docs"%string) ∧ mounts !! "/points/old"%string = None ∧
    health s' !! id1 = Some Healthy.
Proof.
  destruct (vfs_isolates_failing_points (H1 := plain_foreign) bob s0 (proj1 bob_ok) (proj2 bob_ok))
    as (rs & mounts & s' & Hcr & Hlen & Hall & _).
  assert (exists o s1, create_for_vfs (H1 := plain_foreign) bob s0 = (Ok (o, true), s1)) as (o & s1 & Hd).
  { eexists _, _. reflexivity. }
  rewrite Hd in Hcr. injection Hcr as Ho Hdeg Hs.
  destruct rs as [|r1 [|r2 [|]]]; try discriminate Hlen.
  destruct (Hall 0 _ _ eq_refl eq_refl) as ((s2 & s3 & Hb1) & Hh1 & Hm1).
  destruct (Hall 1 _ _ eq_refl eq_refl) as ((s4 & s5 & Hb2) & _ & Hm2).
  assert (∃ m, r1 = Ok m) as [[path o1] ->].
  { change r1 with ((r1, s3).1). rewrite <-Hb1. eexists. reflexivity. }
  assert (∃ e, r2 = Err e) as [e ->].
  { change r2 with ((r2, s5).1). rewrite <-Hb2. eexists. reflexivity. }
  exists mounts, s'. rewrite Hd, Ho, Hs. split_and!; [done| |done|done].
  destruct Hm1 as (Hp & Hm1 & _). subst path. by eexists.
Defined.

(** *** The windows are there *)

Definition before : VfsUser := {| username := "carol"; points := [] |}.
Definition after : VfsUser := {| username := "carol"; points := [data_demo] |}.
Definition y0 : Sys (O := op) (W := store) := initial s0 {["carol"%string := before]}.
Notation act := (any_step (H1 := plain_foreign)).
Notation made := (vfs_operator (O := op) (W := store) ∅).

(** A request reads the configuration, the configuration is replaced and the user
    invalidated, and only then does the request read the generation: the table of the
    replaced configuration stays in the cache. *)
Example outdated_table_read_too_early :
  ∃ y, rtc act y0 y ∧ vfs_ops (st y) !! "carol"%string = Some made ∧ dirty y = ∅ ∧
    origin y !! "carol"%string = Some before ∧ stored y !! "carol"%string = Some after.
Proof.
  eexists. split.
  { eapply rtc_l; [apply any_of_step, (step_fetch y0 0 before); done|].
    eapply rtc_l; [eapply any_of_step, (step_commit _ "carol"%string (Some after)); by intros ? [= <-]|].
    eapply rtc_l; [apply (any_invalidate _ before)|].
    eapply rtc_l; [eapply any_of_step, (step_begin _ 0 before); [done | | done]|].
    { intros t th Hl _. cbn in Hl. apply lookup_insert_Some in Hl as [[_ <-]|[_ Hl]]; done. }
    eapply rtc_l; [eapply any_of_step, (step_probe _ 0 before _ made false); done|].
    eapply rtc_l; [eapply any_of_step, (step_compare _ 0 before); reflexivity|].
    eapply rtc_l; [eapply any_of_step, (step_store _ 0 before made false); reflexivity|].
    apply rtc_refl. }
  split_and!; reflexivity.
Qed.

(** The invalidation comes between the check of the generation and the insertion. *)
Example outdated_table_stored_too_late :
  ∃ y, rtc act y0 y ∧ vfs_ops (st y) !! "carol"%string = Some made ∧ dirty y = ∅ ∧
    origin y !! "carol"%string = Some before ∧ stored y !! "carol"%string = Some after.
Proof.
  eexists. split.
  { eapply rtc_l; [apply any_of_step, (step_fetch y0 0 before); done|].
    eapply rtc_l; [eapply any_of_step, (step_begin _ 0 before); [done | | done]|].
    { intros t th Hl _. cbn in Hl. apply lookup_insert_Some in Hl as [[_ <-]|[_ Hl]]; done. }
    eapply rtc_l; [eapply any_of_step, (step_probe _ 0 before _ made false); done|].
    eapply rtc_l; [eapply any_of_step, (step_compare _ 0 before); reflexivity|].
    eapply rtc_l; [eapply any_of_step, (step_commit _ "carol"%string (Some after)); by intros ? [= <-]|].
    eapply rtc_l; [apply (any_invalidate _ before)|].
    eapply rtc_l; [eapply any_of_step, (step_store _ 0 before made false); reflexivity|].
    apply rtc_refl. }
  split_and!; reflexivity.
Qed.

Lemma calm_run : ∃ y, rtc (calm (H1 := plain_foreign)) y0 y ∧
  cached "carol"%string (st y) ∧ dirty y = ∅.
Proof.
  eexists. split.
  { eapply rtc_l; [apply calm_step, (step_fetch y0 0 before); done|].
    eapply rtc_l; [eapply calm_step, (step_begin _ 0 before); [done | | done]|].
    { intros t th Hl _. cbn in Hl. apply lookup_insert_Some in Hl as [[_ <-]|[_ Hl]]; done. }
    eapply rtc_l; [eapply calm_step, (step_probe _ 0 before _ made false); done|].
    eapply rtc_l; [eapply calm_step, (step_compare _ 0 before); reflexivity|].
    eapply rtc_l; [eapply calm_step, (step_store _ 0 before made false); reflexivity|].
    apply rtc_refl. }
  split; [|reflexivity]. left. by eexists.
Qed.

Lemma cached_table_is_current_witness :
  ∃ y u, cached "carol"%string (st y) ∧ origin y !! "carol"%string = Some u ∧
    stored y !! "carol"%string = Some u.
Proof.
  destruct calm_run as (y & Hrun & Hc & Hd).
  destruct (cached_table_is_current (H1 := plain_foreign) s0 {["carol"%string := before]} y "carol"%string)
    as (u & Ho & Hs); [by intros n [[? ?]|[? ?]] | exact Hrun | exact Hc|].
  rewrite Hd in Hs. destruct Hs as [Hs|Hs]; [by apply elem_of_empty in Hs|]. by exists y, u.
Defined.
End DemoStore.
