(* ===== verification/SetVfs.v ===== *)
(** * Changing the configuration ([server.rs]: [set_vfs]; [store.rs]: repository keys)

    The handler that replaces the users: the password changes it finds, the two
    phases that rotate the keys of the affected repositories around the commit of the
    new configuration, and what it cancels, invalidates and clears. rustic's handles
    on a repository and its keys are third-party ([KeyLib], [KeyLaws]): any of its
    calls may fail at any time. The database, the quota engine, the caches and the
    conversions are those of the other files.

    Closing the files of a removed handle is done by a spawned task and is not part
    of the handler. *)

From S2P Require Import Prelude.
From S2P Require Import RustStr.
From S2P Require Import Errors.
From S2P Require Import QuotaCounter.
From S2P Require Import QuotaState.
From S2P Require Import Mounts.
From S2P Require Import Points.
From S2P Require Import Users.
From S2P Require Import Db.
From S2P Require Import Store.
From stdpp Require Import options.
Close Scope string_scope.

(** Where a repository is stored. *)
Definition RepoTarget : Type := string * gmap string string.

Class KeyLib (W : Type) := {
  RepoNoIndex : Type;
  KeyId : Type;
  #[global] key_eq_dec :: EqDecision KeyId;
  (** Open with a password ([open_repo_with]); the key that opened it. *)
  open_repo_with : string → gmap string string → string → M W RusticError RepoNoIndex;
  key_id : RepoNoIndex → option KeyId;
  add_key : RepoNoIndex → string → M W RusticError ();
  delete_key : RepoNoIndex → KeyId → M W RusticError ();
}.

Section SetVfs.
Context {O W : Type} `{OperatorApi O W} `{!StoreLib O W} `{!KeyLib W} `{JL : JsonLib} `{Foreign}.

(** ** Keys of a repository *)

Definition add_repo_key_blocking (old : RepoSource) (new_password : string) (allow_write : bool)
    : M (Store (O := O) (W := W)) RusticError () :=
  op ← lift (probe old);
  ex ← repo_exists op;
  if negb ex then mret ()
  else
    r ← attempt (on_world (open_repo_with (rs_scheme old) (rs_config old) new_password));
    match r with
    | Ok _ => mret ()
    | Err _ =>
      repo ← m_map_err (λ e, repo_err ("cannot open the repository with the old or the new password: " +:+ show_rustic e)%string)
               (on_world (open_repo_with (rs_scheme old) (rs_config old) (rs_password old)));
      if negb allow_write
      then throw (repo_err "repository point is read-only; cannot add a key for the new password"%string)
      else on_world (add_key repo new_password)
    end.

Definition remove_old_repo_key_blocking (old : RepoSource) (new_password : string) (allow_write : bool)
    : M (Store (O := O) (W := W)) RusticError () :=
  op ← lift (probe old);
  ex ← repo_exists op;
  if negb ex then mret ()
  else
    new_repo ← on_world (open_repo_with (rs_scheme old) (rs_config old) new_password);
    r ← attempt (on_world (open_repo_with (rs_scheme old) (rs_config old) (rs_password old)));
    match r with
    | Err _ => mret ()
    | Ok old_repo =>
      match key_id old_repo, key_id new_repo with
      | Some old_key, Some new_key =>
        if bool_decide (old_key = new_key) then mret ()
        else if negb allow_write
        then throw (repo_err "repository point is read-only; cannot remove the old key"%string)
        else on_world (delete_key new_repo old_key)
      | _, _ => throw (repo_err "opened repository did not report its key id"%string)
      end
    end.

(** ** What a new configuration changes *)

Record RepoPasswordChange := {
  pc_user : string; pc_point : string;
  old_src : RepoSource; new_password : string; allow_write : bool;
}.

Definition find_user (n : string) (us : list VfsUser) : option VfsUser :=
  list_find_first (λ u, bool_decide (username u = n)) us.

(** The body of the loop over the old repository points. *)
Definition rotation (new_user : VfsUser) (old_point : VfsPoint) : option RepoPasswordChange :=
  new_point ← list_find_first (λ p, bool_decide (pt_id p = pt_id old_point) && is_repo p) (points new_user);
  old_pw ← repo_password old_point;
  new_pw ← repo_password new_point;
  if bool_decide (old_pw = new_pw) then None
  else if negb (bool_decide (scheme old_point = scheme new_point))
       || negb (bool_decide (config old_point = config new_point)) then None
  else Some {| pc_user := username new_user; pc_point := name new_point;
               old_src := {| rs_scheme := scheme old_point; rs_config := config old_point; rs_password := old_pw |};
               new_password := new_pw; allow_write := negb (Points.read_only new_point) |}.

Definition user_changes (users : list VfsUser) (old_user : VfsUser) : list RepoPasswordChange :=
  match find_user (username old_user) users with
  | None => []
  | Some new_user => omap (rotation new_user) (List.filter is_repo (points old_user))
  end.
Definition password_changes (old_users users : list VfsUser) : list RepoPasswordChange :=
  concat (map (user_changes users) old_users).

Definition is_changed (users : list VfsUser) (old_user : VfsUser) : bool :=
  match find_user (username old_user) users with
  | Some new_user => negb (bool_decide (new_user = old_user))
  | None => true
  end.
Definition changed_users (old_users users : list VfsUser) : list VfsUser :=
  List.filter (is_changed users) old_users.

(** Does the quota of an old point go? *)
Definition quota_removed (new_user : VfsUser) (old_point : VfsPoint) : bool :=
  match list_find_first (λ p, bool_decide (pt_id p = pt_id old_point)) (points new_user) with
  | None => true
  | Some new_point =>
    negb (bool_decide (scheme old_point = scheme new_point))
    || negb (bool_decide (config old_point = config new_point))
    || negb (bool_decide (is_repo old_point = is_repo new_point))
  end.
Definition user_removed_quotas (users : list VfsUser) (old_user : VfsUser) : list string :=
  match find_user (username old_user) users with
  | Some new_user =>
    if bool_decide (new_user = old_user) then []
    else map (λ p, quota_id (username old_user) (pt_id p)) (List.filter (quota_removed new_user) (points old_user))
  | None => map (λ p, quota_id (username old_user) (pt_id p)) (points old_user)
  end.
Definition removed_quotas (old_users users : list VfsUser) : list string :=
  concat (map (user_removed_quotas users) old_users).

(** ** The handler *)

Record JobHandle := { job_user : string; cancelled : bool }.

(** [Inner]: handles are known by their owner; the database is the tracker of the
    quota engine. *)
Record Server := {
  storage : Store (O := O) (W := W);
  quota : QuotaState DbManager;
  jobs : gmap Uuid JobHandle;
  write_handles : gmap Uuid string;
  read_handles : gmap string string;
}.
Implicit Types y : Server.

Definition in_storage {E A} (m : M (Store (O := O) (W := W)) E A) : M Server E A := λ y,
  let '(r, s) := m (storage y) in
  (r, {| storage := s; quota := quota y; jobs := jobs y;
         write_handles := write_handles y; read_handles := read_handles y |}).
Definition in_quota {E A} (m : M (QuotaState DbManager) E A) : M Server E A := λ y,
  let '(r, q) := m (quota y) in
  (r, {| storage := storage y; quota := q; jobs := jobs y;
         write_handles := write_handles y; read_handles := read_handles y |}).
Definition in_users {E A} (m : M DbManager E A) : M Server E A :=
  in_quota (λ q, let '(r, db) := m (tracker q) in (r, {| tracker := db; buckets := buckets q |})).

Fixpoint add_keys (changes : list RepoPasswordChange) : M Server Status () :=
  match changes with
  | [] => mret ()
  | c :: changes =>
    _ ← m_map_err (λ e, St.failed_precondition
          ("failed to change the repository password of point '" +:+ pc_point c +:+ "' (user '" +:+ pc_user c
           +:+ "'): " +:+ show_rustic e)%string)
        (in_storage (add_repo_key_blocking (old_src c) (new_password c) (allow_write c)));
    add_keys changes
  end.
Fixpoint remove_old_keys (changes : list RepoPasswordChange) : M Server Status () :=
  match changes with
  | [] => mret ()
  | c :: changes =>
    _ ← ignore (in_storage (remove_old_repo_key_blocking (old_src c) (new_password c) (allow_write c)));
    remove_old_keys changes
  end.

Definition cancel_job (names : list string) (j : JobHandle) : JobHandle :=
  {| job_user := job_user j; cancelled := cancelled j || bool_decide (job_user j ∈ names) |}.
(** The handles and caches of one changed user. *)
Definition invalidate_user (u : VfsUser) (y : Server) : Server :=
  {| storage := invalidate_vfs u (storage y); quota := quota y; jobs := jobs y;
     write_handles := base.filter (λ e, e.2 ≠ username u) (write_handles y);
     read_handles := base.filter (λ e, e.2 ≠ username u) (read_handles y) |}.
Definition cancel_jobs (names : list string) (y : Server) : Server :=
  {| storage := storage y; quota := quota y; jobs := cancel_job names <$> jobs y;
     write_handles := write_handles y; read_handles := read_handles y |}.
Fixpoint clear_quotas (ids : list string) : M Server Status () :=
  match ids with
  | [] => mret ()
  | id :: ids => _ ← ignore (in_quota (clear id)); clear_quotas ids
  end.

(** Everything after the commit: it cannot fail any more. *)
Definition after_commit (old_users users : list VfsUser) : M Server Status () :=
  let changed := changed_users old_users users in
  _ ← modify (cancel_jobs (map username changed));
  _ ← modify (λ y, foldl (λ y u, invalidate_user u y) y changed);
  _ ← clear_quotas (removed_quotas old_users users);
  remove_old_keys (password_changes old_users users).

Definition set_vfs (req : list ProtoVfsUser) : M Server Status () :=
  users ← lift (collect user_of_proto req);
  users ← lift (normalize_vfs_users users);
  old_users ← m_map_err map_vfs (in_users get_users);
  _ ← add_keys (password_changes old_users users);
  _ ← m_map_err map_vfs (in_users (set_users users));
  after_commit old_users users.

(** ** Who can open a repository *)

(** Documented behaviour of rustic: only [add_key] and [delete_key] change the keys
    of a repository, each touches the one key it is about even if it reports an
    error, a repository opens exactly with the password of one of its keys, and a
    backend that answers NotFound for [config] has no repository there. *)
Class KeyLaws := {
  repo_at : W → RepoTarget → Prop;
  has_key : W → RepoTarget → KeyId → string → Prop;
  repo_target : RepoNoIndex → RepoTarget;
  stat_keys sch cfg op op' w r w' :
    via_iter sch cfg = Ok op → blocking op = Ok op' → op_stat op' "config"%string w = (r, w') →
    (∀ t, repo_at w' t ↔ repo_at w t) ∧ (∀ t k pw, has_key w' t k pw ↔ has_key w t k pw) ∧
    match r with
    | Ok _ => repo_at w (sch, cfg)
    | Err e => err_kind e = Kind.NotFound → ¬ repo_at w (sch, cfg)
    end;
  open_keys sch cfg pw w r w' :
    open_repo_with sch cfg pw w = (r, w') →
    (∀ t, repo_at w' t ↔ repo_at w t) ∧ (∀ t k pw, has_key w' t k pw ↔ has_key w t k pw) ∧
    ∀ h, r = Ok h → repo_target h = (sch, cfg) ∧ (∃ k, has_key w (sch, cfg) k pw) ∧
                    ∀ k, key_id h = Some k → has_key w (sch, cfg) k pw;
  add_keys_law h pw w r w' :
    add_key h pw w = (r, w') →
    (∀ t, repo_at w' t ↔ repo_at w t) ∧ (∀ t k p, has_key w t k p → has_key w' t k p) ∧
    (r = Ok () → ∃ k, has_key w' (repo_target h) k pw);
  delete_keys_law h k w r w' :
    delete_key h k w = (r, w') →
    (∀ t, repo_at w' t ↔ repo_at w t) ∧
    (∀ t k' p, has_key w t k' p → t ≠ repo_target h ∨ k' ≠ k → has_key w' t k' p);
  key_password w t k p p' : has_key w t k p → has_key w t k p' → p = p';
}.

Section laws.
Context `{!KeyLaws}.
Implicit Types (w : W) (t : RepoTarget) (pw : string).

Definition target_of (src : RepoSource) : RepoTarget := (rs_scheme src, rs_config src).
(** The password opens the repository, or there is no repository yet (it will be
    created with the password it is first opened with). *)
Definition openable w t pw : Prop := ¬ repo_at w t ∨ ∃ k, has_key w t k pw.

(** Keys are only added. *)
Definition grows w w' : Prop :=
  (∀ t, repo_at w' t ↔ repo_at w t) ∧ ∀ t k pw, has_key w t k pw → has_key w' t k pw.
(** Only keys with the password of [srcs] go. *)
Definition loses (srcs : list RepoSource) w w' : Prop :=
  (∀ t, repo_at w' t ↔ repo_at w t) ∧
  ∀ t k pw, has_key w t k pw → (∀ src, src ∈ srcs → ¬ (t = target_of src ∧ pw = rs_password src)) → has_key w' t k pw.

Lemma grows_refl w : grows w w.
Proof using Type. by split. Qed.
Lemma grows_trans w1 w2 w3 : grows w1 w2 → grows w2 w3 → grows w1 w3.
Proof using Type. intros [Ha Hb] [Hc Hd]. split; [intros t; by rewrite Hc | auto]. Qed.
Lemma openable_grows w w' t pw : grows w w' → openable w t pw → openable w' t pw.
Proof using Type. intros [Hr Hk] [Hn|[k Hp]]; [left; by rewrite Hr | right; eauto]. Qed.
Lemma loses_refl srcs w : loses srcs w w.
Proof using Type. by split. Qed.
Lemma loses_trans srcs1 srcs2 w1 w2 w3 : loses srcs1 w1 w2 → loses srcs2 w2 w3 → loses (srcs1 ++ srcs2) w1 w3.
Proof using Type.
  intros [Ha Hb] [Hc Hd]. split; [intros t; by rewrite Hc |].
  intros t k pw Hk Hn. apply Hd; [apply Hb; [done|]|]; intros src Hin; apply Hn; set_solver.
Qed.
Lemma loses_grows srcs w w' : grows w w' → loses srcs w w'.
Proof using Type. intros [Ha Hb]. split; [done|]. intros t k pw Hk _. by apply Hb. Qed.
Lemma openable_loses srcs w w' t pw :
  loses srcs w w' → (∀ src, src ∈ srcs → ¬ (t = target_of src ∧ pw = rs_password src)) →
  openable w t pw → openable w' t pw.
Proof using Type. intros [Hr Hk] Hn [Hn'|[k Hp]]; [left; by rewrite Hr | right; exists k; by apply Hk]. Qed.

(** Only the world moves in the two phases. *)
Definition only_world (s s' : Store (O := O) (W := W)) : Prop := s' = set_world (world s') s.

Lemma only_world_refl s : only_world s s.
Proof using Type. by destruct s. Qed.
Lemma only_world_trans s1 s2 s3 : only_world s1 s2 → only_world s2 s3 → only_world s1 s3.
Proof using Type. unfold only_world. by intros -> ->. Qed.

(** A call on the world. *)
Lemma on_world_inv {E A} (m : M W E A) s r s' :
  on_world m s = (r, s') → only_world s s' ∧ m (world s) = (r, world s').
Proof using Type. unfold on_world, only_world. destruct (m (world s)) as [r0 w]. by intros [= -> <-]. Qed.

Definition same_keys w w' : Prop :=
  (∀ t, repo_at w' t ↔ repo_at w t) ∧ ∀ t k pw, has_key w' t k pw ↔ has_key w t k pw.
Lemma same_keys_grows w w' : same_keys w w' → grows w w'.
Proof using Type. intros [Ha Hb]. split; [done|]. intros t k pw. by rewrite Hb. Qed.

Lemma exists_spec old op s r s' :
  probe old = Ok op → repo_exists op s = (r, s') →
  only_world s s' ∧ same_keys (world s) (world s') ∧
  (r = Ok false → ¬ repo_at (world s) (target_of old)).
Proof using Type.
  unfold probe. intros Hp. destruct (via_iter _ _) as [o1|] eqn:Hv; [|done]. cbn in Hp.
  destruct (blocking o1) as [o2|] eqn:Hb; [|done]. cbn in Hp. injection Hp as <-.
  unfold repo_exists. intros [(e & He & _)|(r0 & s1 & Ha & Hf)]%bind_inv.
  { apply attempt_inv in He as (? & ? & _). done. }
  apply attempt_inv in Ha as (r1 & [= <-] & Ha). apply on_world_inv in Ha as [Hw Hs].
  pose proof (stat_keys _ _ _ _ _ _ _ Hv Hb Hs) as (Hr & Hk & Hex).
  destruct r0 as [m|e].
  - injection Hf as <- <-. by split_and!.
  - case_bool_decide as Hn; injection Hf as <- <-; split_and!; try done. intros _. by apply Hex.
Qed.

Lemma open_spec sch cfg pw s r s' :
  on_world (open_repo_with sch cfg pw) s = (r, s') →
  only_world s s' ∧ same_keys (world s) (world s') ∧
  ∀ h, r = Ok h → repo_target h = (sch, cfg) ∧ (∃ k, has_key (world s) (sch, cfg) k pw) ∧
                  ∀ k, key_id h = Some k → has_key (world s) (sch, cfg) k pw.
Proof using Type.
  intros [Hw Ho]%on_world_inv. destruct (open_keys _ _ _ _ _ _ Ho) as (Hr & Hk & Hh). by split_and!.
Qed.

(** Phase 1 for one repository. *)
Lemma add_repo_key_spec old new aw s r s' :
  add_repo_key_blocking old new aw s = (r, s') →
  only_world s s' ∧ grows (world s) (world s') ∧
  (r = Ok () → openable (world s') (target_of old) new).
Proof using Type.
  unfold add_repo_key_blocking.
  intros [(e & He & ->)|(op & s1 & Hp & Hr)]%bind_inv.
  { injection He as _ <-. split_and!; [apply only_world_refl | apply grows_refl | done]. }
  injection Hp as Hp <-. apply bind_inv in Hr as [(e & He & ->)|(ex & s2 & He & Hr)].
  { apply (exists_spec old) in He as (? & ?%same_keys_grows & _); [by split_and!|done]. }
  apply (exists_spec old) in He as (Hw2 & Hk2 & Hex); [|done].
  pose proof (same_keys_grows _ _ Hk2) as Hg2. destruct ex; cbn [negb] in Hr.
  2: { injection Hr as <- <-. split_and!; [done..|]. intros _. left. destruct Hk2 as [-> _]. by apply Hex. }
  apply bind_inv in Hr as [(e & He & _)|(r3 & s3 & Ho & Hr)].
  { apply attempt_inv in He as (? & ? & _). done. }
  apply attempt_inv in Ho as (? & [= <-] & Ho). apply open_spec in Ho as (Hw3 & Hk3 & Hh3).
  pose proof (only_world_trans _ _ _ Hw2 Hw3) as Hw23.
  pose proof (grows_trans _ _ _ Hg2 (same_keys_grows _ _ Hk3)) as Hg23.
  destruct r3 as [h|e].
  { injection Hr as <- <-. split_and!; [done..|]. intros _. right.
    destruct (Hh3 h eq_refl) as (_ & [k Hk] & _). exists k. by apply Hk3. }
  apply bind_inv in Hr as [(e' & He & ->)|(repo & s4 & Ho & Hr)].
  { apply map_err_inv in He as (r4 & _ & He). apply open_spec in He as (Hw4 & ?%same_keys_grows & _).
    split_and!; [by eapply only_world_trans | by eapply grows_trans | done]. }
  apply map_err_inv in Ho as (r4 & Hr4 & Ho). destruct r4 as [repo'|]; [|done]. injection Hr4 as ->.
  apply open_spec in Ho as (Hw4 & Hk4 & Hh4). destruct (Hh4 _ eq_refl) as (Ht & _).
  pose proof (only_world_trans _ _ _ Hw23 Hw4) as Hw24.
  pose proof (grows_trans _ _ _ Hg23 (same_keys_grows _ _ Hk4)) as Hg24.
  destruct aw; cbn [negb] in Hr; [|injection Hr as <- <-; by split_and!].
  apply on_world_inv in Hr as [Hw5 Ha]. destruct (add_keys_law _ _ _ _ _ Ha) as (Hr5 & Hk5 & Hn5).
  split_and!; [by eapply only_world_trans | eapply grows_trans; [done|by split]|].
  intros ->. right. unfold target_of. rewrite <-Ht. by apply Hn5.
Qed.

(** Phase 2 for one repository. *)
Lemma remove_old_key_spec old new aw s r s' :
  remove_old_repo_key_blocking old new aw s = (r, s') →
  only_world s s' ∧ loses [old] (world s) (world s').
Proof using Type.
  unfold remove_old_repo_key_blocking.
  intros [(e & He & ->)|(op & s1 & Hp & Hr)]%bind_inv.
  { injection He as _ <-. split; [apply only_world_refl | apply loses_refl]. }
  injection Hp as Hp <-. apply bind_inv in Hr as [(e & He & ->)|(ex & s2 & He & Hr)].
  { apply (exists_spec old) in He as (? & ?%same_keys_grows & _); [|done]. split; [done | by apply loses_grows]. }
  apply (exists_spec old) in He as (Hw2 & Hg2%same_keys_grows & _); [|done].
  destruct ex; cbn [negb] in Hr; [|injection Hr as <- <-; split; [done | by apply loses_grows]].
  apply bind_inv in Hr as [(e & He & ->)|(h1 & s3 & Ho & Hr)].
  { apply open_spec in He as (Hw3 & ?%same_keys_grows & _).
    split; [by eapply only_world_trans | apply loses_grows; by eapply grows_trans]. }
  apply open_spec in Ho as (Hw3 & Hg3%same_keys_grows & Hh3). destruct (Hh3 _ eq_refl) as (Ht & _).
  pose proof (only_world_trans _ _ _ Hw2 Hw3) as Hw23. pose proof (grows_trans _ _ _ Hg2 Hg3) as Hg23.
  apply bind_inv in Hr as [(e & He & _)|(r4 & s4 & Ho & Hr)].
  { apply attempt_inv in He as (? & ? & _). done. }
  apply attempt_inv in Ho as (? & [= <-] & Ho). apply open_spec in Ho as (Hw4 & Hk4 & Hh4).
  pose proof (only_world_trans _ _ _ Hw23 Hw4) as Hw24.
  pose proof (grows_trans _ _ _ Hg23 (same_keys_grows _ _ Hk4)) as Hg24.
  assert (only_world s s4 ∧ loses [old] (world s) (world s4)) as Hdone by (split; [done | by apply loses_grows]).
  destruct r4 as [h2|e]; [|by injection Hr as <- <-].
  destruct (key_id h2) as [k2|] eqn:Hk2; [|by injection Hr as <- <-].
  destruct (key_id h1) as [k1|]; [|by injection Hr as <- <-].
  case_bool_decide; [by injection Hr as <- <-|].
  destruct aw; cbn [negb] in Hr; [|by injection Hr as <- <-].
  apply on_world_inv in Hr as [Hw5 Hd]. destruct (delete_keys_law _ _ _ _ _ Hd) as (Hr5 & Hk5).
  split; [by eapply only_world_trans|].
  split; [intros t; rewrite Hr5; apply Hg24|].
  intros t k pw Hk Hne. apply Hk5; [by apply Hg24|]. rewrite Ht.
  destruct (decide (t = target_of old)) as [->|]; [|by left].
  destruct (decide (k = k2)) as [->|]; [|by right]. exfalso.
  destruct (Hh4 h2 eq_refl) as (_ & _ & Hh). specialize (Hh k2 Hk2).
  apply (Hne old ltac:(by left)). split; [done|].
  eapply key_password; [by apply Hg24 in Hk|]. by apply Hk4.
Qed.

(** *** The parts of the handler *)

Definition same_rest y y' : Prop :=
  jobs y' = jobs y ∧ write_handles y' = write_handles y ∧ read_handles y' = read_handles y.

Lemma add_keys_spec cs y r y' :
  add_keys cs y = (r, y') →
  same_rest y y' ∧ quota y' = quota y ∧ only_world (storage y) (storage y') ∧
  grows (world (storage y)) (world (storage y')) ∧
  (r = Ok () → ∀ c, c ∈ cs → openable (world (storage y')) (target_of (old_src c)) (new_password c)).
Proof using Type.
  revert y; induction cs as [|c cs IH]; intros y; cbn [add_keys].
  { intros [= <- <-]. split_and!; try done; first [apply only_world_refl | by intros _ c ?%elem_of_nil]. }
  intros Hr. apply bind_inv in Hr as [(e & He & ->)|([] & y1 & He & Hr)].
  - apply map_err_inv in He as (r0 & _ & He). unfold in_storage in He.
    destruct (add_repo_key_blocking _ _ _ (storage y)) as [r1 s1] eqn:Ha.
    injection He as <- <-. apply add_repo_key_spec in Ha as (? & ? & _). by split_and!.
  - apply map_err_inv in He as (r0 & H0r & He). unfold in_storage in He.
    destruct (add_repo_key_blocking _ _ _ (storage y)) as [r1 s1] eqn:Ha.
    injection He as <- <-. apply add_repo_key_spec in Ha as (Hw & Hg & Hok).
    destruct r1 as [[]|]; [|done]. specialize (Hok eq_refl).
    destruct (IH _ Hr) as ((? & ? & ?) & Hq & Hw' & Hg' & Hall). cbn in *.
    split_and!; try done; [by eapply only_world_trans | by eapply grows_trans|].
    intros -> c' [->|Hin]%elem_of_cons; [|by apply Hall]. by eapply openable_grows.
Qed.

Lemma remove_old_keys_spec cs y :
  ∃ y', remove_old_keys cs y = (Ok (), y') ∧ same_rest y y' ∧ quota y' = quota y ∧
    only_world (storage y) (storage y') ∧
    loses (map old_src cs) (world (storage y)) (world (storage y')).
Proof using Type.
  revert y; induction cs as [|c cs IH]; intros y; cbn [remove_old_keys].
  { exists y. split_and!; try done; first [apply only_world_refl | apply loses_refl]. }
  unfold mbind, M_bind, ignore, in_storage.
  destruct (remove_old_repo_key_blocking _ _ _ (storage y)) as [r1 s1] eqn:Hr.
  apply remove_old_key_spec in Hr as [Hw Hl].
  destruct (IH {| storage := s1; quota := quota y; jobs := jobs y;
    write_handles := write_handles y; read_handles := read_handles y |})
    as (y' & -> & (? & ? & ?) & Hq & Hw' & Hl'). exists y'. cbn in *.
  split_and!; try done; [by eapply only_world_trans|]. apply (loses_trans [old_src c] _ _ _ _ Hl Hl').
Qed.

Lemma clear_spec id (q : QuotaState DbManager) :
  ∃ q' : QuotaState DbManager, clear id q = (Ok (), q') ∧ tracker q' = tracker q ∧
    (∃ c, buckets q' !! id = Some (Some c) ∧ QuotaCounter.bytes c = 0%N) ∧
    ∀ id', id' ≠ id → buckets q' !! id' = buckets q !! id'.
Proof using Type.
  unfold clear, reset, entry, mbind, M_bind, gets. destruct (buckets q !! id) as [[c|]|] eqn:Hb;
    (eexists; split; [reflexivity|]; cbn; split; [done|]; split;
     [eexists; rewrite lookup_insert_eq; by split
     | intros id' Hne; by rewrite ?lookup_insert_ne by done]).
Qed.

Lemma clear_quotas_spec ids y :
  ∃ y', clear_quotas ids y = (Ok (), y') ∧ same_rest y y' ∧ storage y' = storage y ∧
    tracker (quota y') = tracker (quota y) ∧
    (∀ id, id ∈ ids → ∃ c, buckets (quota y') !! id = Some (Some c) ∧ QuotaCounter.bytes c = 0%N) ∧
    (∀ id, id ∉ ids → buckets (quota y') !! id = buckets (quota y) !! id).
Proof using Type.
  revert y; induction ids as [|id ids IH]; intros y; cbn [clear_quotas].
  { exists y. split_and!; try done. by intros ? ?%elem_of_nil. }
  unfold mbind, M_bind, ignore, in_quota.
  destruct (clear_spec id (quota y)) as (q & -> & Ht & (c & Hc & Hc0) & Hother).
  destruct (IH {| storage := storage y; quota := q; jobs := jobs y;
    write_handles := write_handles y; read_handles := read_handles y |})
    as (y' & -> & (? & ? & ?) & Hs & Ht' & Hin & Hout). cbn in *.
  exists y'. split_and!; try done; [congruence| |].
  - intros id' Hid. destruct (decide (id' ∈ ids)) as [?|Hn]; [by apply Hin|].
    apply elem_of_cons in Hid as [->|?]; [|done]. rewrite Hout by done. eauto.
  - intros id' [Hne Hn]%not_elem_of_cons. rewrite Hout by done. by apply Hother.
Qed.

Lemma invalidate_world u s : world (invalidate_vfs u s) = world s.
Proof using Type.
  unfold invalidate_vfs. set (s1 := set_ops _ _ _). change (world s) with (world s1). clearbody s1.
  induction (points u) as [|p ps IH] in s1 |- *; [done|]. cbn [foldl]. rewrite IH. unfold invalidate_point.
  destruct (is_repo p); [|done]. by destruct (repo_password p).
Qed.
Lemma invalidate_users_spec us y :
  let y' := foldl (λ y u, invalidate_user u y) y us in
  quota y' = quota y ∧ jobs y' = jobs y ∧ world (storage y') = world (storage y) ∧
  (∀ n, cached n (storage y') → n ∉ map username us ∧ cached n (storage y)) ∧
  (∀ i n, write_handles y' !! i = Some n ↔ write_handles y !! i = Some n ∧ n ∉ map username us) ∧
  (∀ i n, read_handles y' !! i = Some n ↔ read_handles y !! i = Some n ∧ n ∉ map username us).
Proof using Type.
  revert y; induction us as [|u us IH]; intros y; cbn [foldl map].
  { assert (∀ n : string, n ∉ []) by (intros n; apply not_elem_of_nil).
    cbn. split_and!; try done; naive_solver. }
  destruct (IH (invalidate_user u y)) as (Hq & Hj & Hw & Hc & Hwh & Hrh).
  change (world (storage (invalidate_user u y))) with (world (invalidate_vfs u (storage y))) in Hw.
  change (write_handles (invalidate_user u y))
    with (base.filter (λ e, e.2 ≠ username u) (write_handles y)) in Hwh.
  change (read_handles (invalidate_user u y))
    with (base.filter (λ e, e.2 ≠ username u) (read_handles y)) in Hrh.
  cbn zeta. rewrite invalidate_world in Hw. split_and!; try done.
  - intros n [Hn Hcn]%Hc. apply invalidate_caches in Hcn as [Hne Hcn].
    by rewrite not_elem_of_cons.
  - intros i n. rewrite Hwh, not_elem_of_cons, map_lookup_filter_Some. naive_solver.
  - intros i n. rewrite Hrh, not_elem_of_cons, map_lookup_filter_Some. naive_solver.
Qed.

Lemma in_users_inv {E A} (m : M DbManager E A) y r y' :
  in_users m y = (r, y') →
  same_rest y y' ∧ storage y' = storage y ∧ buckets (quota y') = buckets (quota y) ∧
  m (tracker (quota y)) = (r, tracker (quota y')).
Proof using Type.
  unfold in_users, in_quota. destruct (m (tracker (quota y))) as [r0 db] eqn:Em. by intros [= <- <-].
Qed.

Lemma after_commit_spec old us y :
  ∃ y', after_commit old us y = (Ok (), y') ∧
    tracker (quota y') = tracker (quota y) ∧
    jobs y' = cancel_job (map username (changed_users old us)) <$> jobs y ∧
    (∀ n, n ∈ map username (changed_users old us) → ¬ cached n (storage y')) ∧
    (∀ i n, write_handles y' !! i = Some n ↔
       write_handles y !! i = Some n ∧ n ∉ map username (changed_users old us)) ∧
    (∀ i n, read_handles y' !! i = Some n ↔
       read_handles y !! i = Some n ∧ n ∉ map username (changed_users old us)) ∧
    (∀ id, id ∈ removed_quotas old us →
       ∃ c, buckets (quota y') !! id = Some (Some c) ∧ QuotaCounter.bytes c = 0%N) ∧
    (∀ id, id ∉ removed_quotas old us → buckets (quota y') !! id = buckets (quota y) !! id) ∧
    loses (map old_src (password_changes old us)) (world (storage y)) (world (storage y')).
Proof using Type.
  unfold after_commit. cbn zeta. set (ch := changed_users old us).
  set (y1 := foldl (λ y u, invalidate_user u y) (cancel_jobs (map username ch) y) ch).
  destruct (invalidate_users_spec ch (cancel_jobs (map username ch) y)) as (Hq & Hj & Hw & Hc & Hwh & Hrh).
  fold y1 in Hq, Hj, Hw, Hc, Hwh, Hrh.
  destruct (clear_quotas_spec (removed_quotas old us) y1) as (y2 & E2 & (Hj2 & Hwh2 & Hrh2) & Hs2 & Ht2 & Hin2 & Hout2).
  destruct (remove_old_keys_spec (password_changes old us) y2) as (y3 & E3 & (Hj3 & Hwh3 & Hrh3) & Hq3 & Hw3 & Hl3).
  exists y3. split.
  { unfold mbind, M_bind, modify. fold y1. by rewrite E2. }
  rewrite Hq3, Ht2, Hq, Hj3, Hj2, Hj, Hwh3, Hwh2, Hrh3, Hrh2. cbn in Hq, Hw. split_and!; try done.
  - intros n Hn Hcn. assert (cached n (storage y1)) as Hcn1.
    { rewrite <-Hs2. unfold only_world in Hw3. by rewrite Hw3 in Hcn. }
    apply Hc in Hcn1 as [? _]. done.
  - intros id Hid. rewrite Hout2 by done. by rewrite Hq.
  - by rewrite <-Hw, <-Hs2.
Qed.

Section claims.
Context `{!UuidLaws} `{!JsonLaws}.

(** The configuration a request asks for. *)
Definition requested (req : list ProtoVfsUser) (us : list VfsUser) : Prop :=
  ∃ us0, collect user_of_proto req = Ok us0 ∧ normalize_vfs_users us0 = Ok us.
(** The stored configuration. *)
Definition stored_users (db : DbManager) (us : list VfsUser) : Prop :=
  collect user_of_row (rows (users_t db)) = Ok us.

(** How the handler runs: what fails leaves the rest alone, and past the commit
    nothing fails. *)
Lemma set_vfs_inv req y r y' :
  set_vfs req y = (r, y') →
  (r ≠ Ok () ∧ same_rest y y' ∧ buckets (quota y') = buckets (quota y) ∧
   users_t (tracker (quota y')) = users_t (tracker (quota y)) ∧
   quota_t (tracker (quota y')) = quota_t (tracker (quota y)) ∧
   only_world (storage y) (storage y') ∧ grows (world (storage y)) (world (storage y'))) ∨
  (r = Ok () ∧ ∃ us old y1,
     requested req us ∧ stored_users (tracker (quota y)) old ∧
     (∃ db db', set_users us db = (Ok (), db') ∧ tracker (quota y1) = db' ∧
        quota_t db = quota_t (tracker (quota y))) ∧
     same_rest y y1 ∧ buckets (quota y1) = buckets (quota y) ∧
     grows (world (storage y)) (world (storage y1)) ∧
     (∀ c, c ∈ password_changes old us → openable (world (storage y1)) (target_of (old_src c)) (new_password c)) ∧
     after_commit old us y1 = (Ok (), y')).
Proof using Type.
  unfold set_vfs, same_rest. intros [(e & He & ->)|(us0 & y0 & He & Hr)]%bind_inv.
  { injection He as _ <-. left. split_and!; try done; first [apply only_world_refl | apply grows_refl]. }
  injection He as Hp <-. apply bind_inv in Hr as [(e & He & ->)|(us & y0 & He & Hr)].
  { injection He as _ <-. left. split_and!; try done; first [apply only_world_refl | apply grows_refl]. }
  injection He as Hn <-. apply bind_inv in Hr as [(e & He & ->)|(old & y1 & He & Hr)].
  { apply map_err_inv in He as (r0 & Hr0 & He). apply in_users_inv in He as ((? & ? & ?) & Hs & ? & Hg).
    apply get_users_tables in Hg as [? ?]. left. rewrite Hs.
    split_and!; try done; first [apply only_world_refl | apply grows_refl]. }
  apply map_err_inv in He as (r0 & Hr0 & He). destruct r0 as [old'|]; [|done]. injection Hr0 as ->.
  apply in_users_inv in He as ((Hj1 & Hw1 & Hd1) & Hs1 & Hb1 & Hg). apply get_users_ok in Hg as (Hu1 & Hq1 & Hold).
  apply bind_inv in Hr as [(e & He & ->)|([] & y2 & He & Hr)].
  { apply add_keys_spec in He as ((? & ? & ?) & Hq2 & Hw2 & Hgr2 & _). left. rewrite Hs1 in *.
    rewrite Hq2. split_and!; try done; congruence. }
  apply add_keys_spec in He as ((Hj2 & Hwh2 & Hd2) & Hq2 & Hw2 & Hgr2 & Hall). specialize (Hall eq_refl).
  rewrite Hs1 in *.
  apply bind_inv in Hr as [(e & He & ->)|([] & y3 & He & Hr)];
    apply map_err_inv in He as (r0 & Hr0 & He); (destruct r0 as [[]|e0]; [|]); try done;
    apply in_users_inv in He as ((Hj3 & Hwh3 & Hd3) & Hs3 & Hb3 & Hset).
  - left. apply set_users_err in Hset as [Hu3 Hq3]. rewrite Hq2 in *. rewrite Hs3.
    split_and!; try done; congruence.
  - right. destruct (after_commit_spec old' us y3) as (y4 & Hac & _). rewrite Hac in Hr. injection Hr as <- <-.
    split; [done|]. exists us, old', y3. split_and!; try done; try congruence.
    + by exists us0.
    + rewrite Hq2 in Hset. by exists (tracker (quota y1)), (tracker (quota y3)).
    + by rewrite Hs3.
Qed.

(** C23. Replacing the configuration is all or nothing outside the storage: if
    the handler fails, at whatever point, the stored users and quotas, every quota
    bucket, job, handle and cache are as they were, and of the storage no repository and
    none of its keys is lost; new keys may have been added. If it succeeds, the normalised
    request is stored, exactly the jobs and handles of users that changed are
    cancelled or dropped and none of their mount tables is cached, and exactly the
    quotas of removed or retargeted points are zero. *)
Theorem set_vfs_is_all_or_nothing req y r y' :
  set_vfs req y = (r, y') →
  match r with
  | Err _ =>
    users_t (tracker (quota y')) = users_t (tracker (quota y)) ∧
    quota_t (tracker (quota y')) = quota_t (tracker (quota y)) ∧
    buckets (quota y') = buckets (quota y) ∧ same_rest y y' ∧ only_world (storage y) (storage y') ∧
    grows (world (storage y)) (world (storage y'))
  | Ok _ =>
    ∃ us old us', requested req us ∧ stored_users (tracker (quota y)) old ∧
    let changed := map username (changed_users old us) in
    stored_users (tracker (quota y')) us' ∧ us' ≡ₚ us ∧
    (∀ id j, jobs y !! id = Some j → ∃ j', jobs y' !! id = Some j' ∧ job_user j' = job_user j ∧
       (cancelled j' = true ↔ cancelled j = true ∨ job_user j ∈ changed)) ∧
    (∀ i n, write_handles y' !! i = Some n ↔ write_handles y !! i = Some n ∧ n ∉ changed) ∧
    (∀ i n, read_handles y' !! i = Some n ↔ read_handles y !! i = Some n ∧ n ∉ changed) ∧
    (∀ n, n ∈ changed → ¬ cached n (storage y')) ∧
    (∀ id, id ∈ removed_quotas old us → live (quota y') id = 0%N) ∧
    (∀ id, id ∉ removed_quotas old us → live (quota y') id = live (quota y) id)
  end.
Proof using H2 H4.
  intros [(Hr & Hrest & Hb & Hu & Hq & Hw & Hg)|(-> & us & old & y1 & Hreq & Hold & (db & db' & Hset & Htr & Hqdb)
    & (Hj1 & Hwh1 & Hrh1) & Hb1 & _ & _ & Hac)]%set_vfs_inv.
  { destruct r as [[]|e]; [done|]. by split_and!. }
  destruct (after_commit_spec old us y1) as (y2 & E2 & Ht & Hj & Hc & Hwh & Hrh & Hin & Hout & _).
  rewrite Hac in E2. injection E2 as <-.
  apply set_users_body in Hset as (us1 & Hd & Hp & Hqset & _).
  apply decodes_rows in Hd as (us' & Hc' & Hp'). exists us, old, us'. split; [done|]. split; [done|].
  cbn zeta. split_and!.
  - unfold stored_users. by rewrite Ht, Htr.
  - by rewrite Hp'.
  - intros id j Hjob. rewrite Hj, Hj1, lookup_fmap, Hjob. cbn. eexists. split; [reflexivity|]. split; [done|].
    cbn. rewrite orb_true_iff, bool_decide_eq_true. done.
  - intros i n. by rewrite Hwh, Hwh1.
  - intros i n. by rewrite Hrh, Hrh1.
  - done.
  - intros id Hid. destruct (Hin id Hid) as (c & Hc1 & Hc0). unfold live. by rewrite Hc1.
  - intros id Hid. unfold live. rewrite (Hout id Hid), Hb1, Ht, Htr. cbn. by rewrite Hqset, Hqdb.
Qed.

(** *** Looking points up in the new configuration *)

Lemma requested_good req us :
  requested req us → NoDup (map username us) ∧ validate_point_ids us = Ok ().
Proof using H3.
  intros (us0 & _ & Hn). unfold normalize_vfs_users in Hn.
  destruct (validate_point_ids us0) as [[]|] eqn:Ev; [|done]. cbn in Hn.
  destruct (normalize_users_spec _ _ _ Hn) as (Hs & Hnd & _). split; [done|].
  apply validate_point_ids_iff in Ev. apply validate_point_ids_iff. by rewrite (same_users_ids us0 us).
Qed.
Lemma find_user_in us u : NoDup (map username us) → u ∈ us → find_user (username u) us = Some u.
Proof using Type.
  intros Hnd Hin. apply list_find_first_unique; [done | by apply bool_decide_eq_true|].
  intros v Hv Heq%bool_decide_eq_true.
  apply list_elem_of_lookup in Hin as [i Hi], Hv as [j Hj]. assert (i = j) as ->; [|congruence].
  eapply (NoDup_lookup (map username us)); [done| |]; rewrite list_lookup_fmap; [by rewrite Hi|].
  rewrite Hj. cbn. by rewrite Heq.
Qed.
Lemma find_point_in us u p (P : VfsPoint → bool) :
  validate_point_ids us = Ok () → u ∈ us → p ∈ points u → P p = true →
  list_find_first (λ q, bool_decide (pt_id q = pt_id p) && P q) (points u) = Some p.
Proof using Type.
  intros [_ Hnd]%validate_point_ids_iff Hu Hp HP.
  assert (NoDup (map pt_id (points u))) as Hndu.
  { apply list_elem_of_split in Hu as (l1 & l2 & ->). unfold user_ids in Hnd.
    rewrite bind_app in Hnd. cbn in Hnd. apply NoDup_app in Hnd as (_ & _ & Hnd).
    by apply NoDup_app in Hnd as (? & _). }
  apply list_find_first_unique; [done | by rewrite HP, bool_decide_eq_true_2|].
  intros q Hq [Heq%bool_decide_eq_true _]%andb_true_iff.
  apply list_elem_of_lookup in Hp as [i Hi], Hq as [j Hj]. assert (i = j) as ->; [|congruence].
  eapply (NoDup_lookup (map pt_id (points u))); [done| |]; rewrite list_lookup_fmap; [by rewrite Hi|].
  rewrite Hj. cbn. by rewrite Heq.
Qed.

(** The same storage: what an accounted total belongs to. *)
Definition same_storage (p q : VfsPoint) : Prop :=
  pt_id q = pt_id p ∧ scheme q = scheme p ∧ config q = config p ∧ is_repo q = is_repo p.

Lemma quota_removed_spec us u p :
  validate_point_ids us = Ok () → u ∈ us →
  quota_removed u p = true ↔ ¬ ∃ q, q ∈ points u ∧ same_storage p q.
Proof using Type.
  intros Hv Hu. unfold quota_removed.
  destruct (list_find_first _ (points u)) as [q|] eqn:Hf.
  - apply list_find_first_Some in Hf as [Hq Hid%bool_decide_eq_true]. split.
    + intros Hne (q' & Hq' & Hid' & Hs & Hc & Hr).
      pose proof (find_point_in us u q' (λ _, true) Hv Hu Hq' eq_refl) as H1f.
      pose proof (find_point_in us u q (λ _, true) Hv Hu Hq eq_refl) as H2f.
      rewrite Hid, <-Hid', H1f in H2f. injection H2f as ->.
      rewrite Hs, Hc, Hr, !bool_decide_eq_true_2 in Hne by done. done.
    + intros Hno. destruct (decide (scheme p = scheme q ∧ config p = config q ∧ is_repo p = is_repo q)) as [(?&?&?)|Hd].
      { exfalso. apply Hno. exists q. by split_and!. }
      rewrite !orb_true_iff, !negb_true_iff, !bool_decide_eq_false.
      destruct (decide (scheme p = scheme q)); [|tauto]. destruct (decide (config p = config q)); [|tauto].
      destruct (decide (is_repo p = is_repo q)); tauto.
  - split; [|done]. intros _ (q & Hq & Hid & _). rewrite list_find_first_None in Hf.
    specialize (Hf q Hq). by apply bool_decide_eq_false in Hf.
Qed.

Lemma find_user_same us u v : find_user (username u) us = Some v → username v = username u ∧ v ∈ us.
Proof using Type. intros [Hv Hn%bool_decide_eq_true]%list_find_first_Some. done. Qed.

(** Accounting follows the storage: replacing the configuration clears exactly the
    quotas of stored points that the new configuration does not keep, under the same
    user and id, on the same storage and in the same role. A rename of a point, a new
    password or a new limit keeps its total. *)
Theorem quotas_follow_the_storage req old us id :
  requested req us →
  id ∈ removed_quotas old us ↔
  ∃ ou p, ou ∈ old ∧ p ∈ points ou ∧ id = quota_id (username ou) (pt_id p) ∧
    ¬ ∃ nu q, nu ∈ us ∧ username nu = username ou ∧ q ∈ points nu ∧ same_storage p q.
Proof using H3.
  intros [Hnd Hv]%requested_good.
  assert (∀ ou, id ∈ user_removed_quotas us ou ↔ ∃ p, p ∈ points ou ∧ id = quota_id (username ou) (pt_id p) ∧
    ¬ ∃ nu q, nu ∈ us ∧ username nu = username ou ∧ q ∈ points nu ∧ same_storage p q) as Huser.
  { intros ou. unfold user_removed_quotas. destruct (find_user (username ou) us) as [nu|] eqn:Hf.
    - apply find_user_same in Hf as [Hname Hnu].
      assert (∀ p, (¬ ∃ nu' q, nu' ∈ us ∧ username nu' = username ou ∧ q ∈ points nu' ∧ same_storage p q) ↔
                   ¬ ∃ q, q ∈ points nu ∧ same_storage p q) as Heq.
      { intros p. split; intros Hno; [intros (q & ? & ?); apply Hno; by exists nu, q|].
        intros (nu' & q & Hnu' & Hn' & ? & ?). apply Hno.
        pose proof (find_user_in us nu Hnd Hnu) as H1f. pose proof (find_user_in us nu' Hnd Hnu') as H2f.
        rewrite Hn', <-Hname, H1f in H2f. injection H2f as ->. by exists q. }
      case_bool_decide as Hsame.
      + split; [by intros ?%elem_of_nil|]. intros (p & Hp & _ & Hno). exfalso. apply Heq in Hno.
        apply Hno. exists p. subst nu. by split_and!.
      + rewrite list_elem_of_fmap. split.
        * intros (p & -> & Hp%list_elem_of_In). apply filter_In in Hp as [Hp%list_elem_of_In Hq].
          exists p. rewrite Heq. split_and!; try done. by apply (quota_removed_spec us nu p Hv Hnu).
        * intros (p & Hp & -> & Hno%Heq). exists p. split; [done|].
          apply list_elem_of_In, filter_In. rewrite <-list_elem_of_In. split; [done|].
          by apply (quota_removed_spec us nu p Hv Hnu).
    - rewrite list_elem_of_fmap. unfold find_user in Hf. rewrite list_find_first_None in Hf. split.
      + intros (p & -> & Hp). exists p. split_and!; try done.
        intros (nu & q & Hnu & Hn & _). specialize (Hf nu Hnu). by rewrite Hn, bool_decide_eq_true_2 in Hf.
      + intros (p & Hp & -> & _). by exists p. }
  unfold removed_quotas. rewrite list_elem_of_In, in_concat. split.
  - intros (l & Hl & Hid). apply in_map_iff in Hl as (ou & <- & Hou%list_elem_of_In).
    apply list_elem_of_In, Huser in Hid as (p & ? & ? & ?). by exists ou, p.
  - intros (ou & p & Hou & Hrest). exists (user_removed_quotas us ou). split.
    + apply in_map_iff. exists ou. by rewrite <-list_elem_of_In.
    + apply list_elem_of_In, Huser. by exists p.
Qed.

Lemma rotation_found us nu np op pw pw0 :
  validate_point_ids us = Ok () → nu ∈ us → np ∈ points nu → is_repo np = true →
  repo_password np = Some pw → repo_password op = Some pw0 → pw0 ≠ pw →
  pt_id op = pt_id np → scheme op = scheme np → config op = config np →
  ∃ c, rotation nu op = Some c ∧ target_of (old_src c) = (scheme np, config np) ∧ new_password c = pw.
Proof using Type.
  intros Hv Hnu Hnp Hr Hpw Hpw0 Hne Hid Hs Hc. unfold rotation.
  pose proof (find_point_in us nu np is_repo Hv Hnu Hnp Hr) as Hf. rewrite Hid, Hf. cbn.
  rewrite Hpw0, Hpw. cbn. rewrite bool_decide_eq_false_2 by done.
  rewrite !bool_decide_eq_true_2 by done. cbn. eexists. split; [reflexivity|]. cbn.
  unfold target_of. cbn. by rewrite Hs, Hc.
Qed.

(** C3. Changing a password never locks a repository out half way: if the handler
    fails, every password that opened a repository still does. If it succeeds, every
    repository point of the new configuration opens with its stored password,
    provided that password opened it before or the point replaces one of the same
    user, id and storage whose password did, and provided the password is not itself
    the old side of a rotation of the same repository by another point. *)
Theorem set_vfs_keeps_repositories_open req y r y' :
  set_vfs req y = (r, y') →
  let w := world (storage y) in let w' := world (storage y') in
  match r with
  | Err _ => ∀ t pw, openable w t pw → openable w' t pw
  | Ok _ =>
    ∃ us old, requested req us ∧ stored_users (tracker (quota y)) old ∧
    ∀ nu np pw, nu ∈ us → np ∈ points nu → is_repo np = true → repo_password np = Some pw →
      let t := (scheme np, config np) in
      openable w t pw ∨
      (∃ ou op pw0, ou ∈ old ∧ username ou = username nu ∧ op ∈ points ou ∧ same_storage np op ∧
                    repo_password op = Some pw0 ∧ openable w t pw0) →
      (∀ c, c ∈ password_changes old us → target_of (old_src c) = t → rs_password (old_src c) ≠ pw) →
      openable w' t pw
  end.
Proof using H2 H3.
  intros [(Hr & _ & _ & _ & _ & _ & Hg)|(-> & us & old & y1 & Hreq & Hold & _ & _ & _ & Hg & Hopen & Hac)]%set_vfs_inv.
  { destruct r as [[]|e]; [done|]. cbn. intros t pw. by apply openable_grows. }
  cbn zeta. exists us, old. split; [done|]. split; [done|].
  destruct (requested_good _ _ Hreq) as [Hnd Hv].
  destruct (after_commit_spec old us y1) as (y2 & E2 & _ & _ & _ & _ & _ & _ & _ & Hl).
  rewrite Hac in E2. injection E2 as <-.
  intros nu np pw Hnu Hnp Hrepo Hpw Hbefore Hother.
  eapply openable_loses; [exact Hl| |].
  { intros src (c & -> & Hc)%list_elem_of_fmap [Ht Hp]. by apply (Hother c Hc). }
  destruct Hbefore as [Ho|(ou & op & pw0 & Hou & Hname & Hop & (Hid & Hs & Hcf & Hrp) & Hpw0 & Ho)].
  { by eapply openable_grows. }
  destruct (decide (pw0 = pw)) as [->|Hne]; [by eapply openable_grows|].
  destruct (rotation_found us nu np op pw pw0) as (c & Hc & Ht & Hnew); try done.
  rewrite <-Ht, <-Hnew. apply Hopen. unfold password_changes.
  apply list_elem_of_In, in_concat. exists (user_changes us ou). split.
  { apply in_map_iff. exists ou. by rewrite <-list_elem_of_In. }
  unfold user_changes. rewrite Hname, (find_user_in us nu Hnd Hnu).
  apply list_elem_of_In, list_elem_of_omap. exists op. split; [|done].
  apply list_elem_of_In, filter_In. rewrite <-list_elem_of_In. by rewrite Hrp, Hrepo.
Qed.
End claims.
End laws.
End SetVfs.

(** ** A concrete change *)

Module DemoChange.
Import PlainUuid.
Import (hints) DemoOp.
Notation op := DemoOp.op.
Notation world_t := DemoOp.store.

(** Repositories on schemes without options: the object [config] says that there is
    one, every other object of the scheme is a key and holds its password. *)
#[local] Instance demo_store : StoreLib op world_t := {|
  RepoIndexed := string;
  via_iter sch cfg := if bool_decide (cfg = ∅) then Ok (DemoOp.plain sch) else Err DemoOp.absent;
  blocking := Ok;
  with_logging o := o;
  vfs_operator _ := DemoOp.plain "vfs"%string;
  repo_operator src := mret (DemoOp.plain (rs_scheme src));
  op_list _ _ := mret [];
  open_indexed src := mret (rs_scheme src);
  init_repo _ := mret ();
  job_open o _ := mret (DemoOp.name o);
  job_init o _ := mret (DemoOp.name o);
  create_dir_all _ := mret ();
  show_status := message;
|}.

Definition no_key : RusticError := repo_err "wrong password"%string.
Definition is_key (sch pw : string) (e : string * string * string) : bool :=
  bool_decide (e.1.1 = sch) && negb (bool_decide (e.1.2 = "config"%string)) && bool_decide (e.2 = pw).
Definition demo_open (sch : string) (cfg : gmap string string) (pw : string) : M world_t RusticError (string * string) := λ w,
  (if negb (bool_decide (cfg = ∅)) then Err no_key
   else match list_find_first (is_key sch pw) (map_to_list w) with
        | Some (_, k, _) => Ok (sch, k)
        | None => Err no_key
        end, w).
Definition demo_add (h : string * string) (pw : string) : M world_t RusticError () := λ w,
  let k := (h.1, "key-" +:+ pw)%string in
  match w !! k with
  | None => (Ok (), <[k := pw]> w)
  | Some pw' => (if bool_decide (pw' = pw) then Ok () else Err no_key, w)
  end.
Definition demo_delete (h : string * string) (k : string) : M world_t RusticError () := λ w,
  if bool_decide (k = "config"%string) then (Err no_key, w) else (Ok (), delete (h.1, k) w).
#[local] Instance demo_keys : KeyLib world_t := {|
  RepoNoIndex := string * string; KeyId := string;
  open_repo_with := demo_open; key_id h := Some h.2; add_key := demo_add; delete_key := demo_delete;
|}.

#[local] Program Instance demo_key_laws : KeyLaws (O := op) (W := world_t) := {|
  repo_at w t := t.2 = ∅ ∧ is_Some (w !! (t.1, "config"%string));
  has_key w t k pw := t.2 = ∅ ∧ k ≠ "config"%string ∧ w !! (t.1, k) = Some pw;
  repo_target h := (h.1, ∅);
|}.
Next Obligation.
  intros sch cfg o o' w r w' Hv Hb Hs. cbn in *. case_bool_decide as Hc; [|done].
  injection Hv as <-. injection Hb as <-. injection Hs as <- <-. cbn. split_and!; try done.
  destruct (w !! (sch, "config"%string)); cbn; [by eauto|]. by intros _ [_ [? ?]].
Qed.
Next Obligation.
  intros sch cfg pw w r w' Ho. cbn in *. injection Ho as <- <-. split_and!; try done.
  intros h Hh. case_bool_decide as Hc; [|done]. cbn in Hh. subst cfg.
  destruct (list_find_first _ _) as [[[s k] v]|] eqn:Hf; [|done]. injection Hh as <-.
  apply list_find_first_Some in Hf as [Hin Hk]. unfold is_key in Hk. cbn in Hk.
  apply andb_true_iff in Hk as [[Hs%bool_decide_eq_true Hk%negb_true_iff]%andb_true_iff Hv%bool_decide_eq_true].
  apply bool_decide_eq_false in Hk. subst s v. apply elem_of_map_to_list in Hin.
  split_and!; [done|by exists k|]. cbn. by intros k' [= <-].
Qed.
Next Obligation.
  intros h pw w r w' Ha. cbn in *. unfold demo_add in Ha. unfold DemoOp.store in *.
  assert (("key-" +:+ pw)%string ≠ "config"%string) as Hk by done.
  destruct (w !! _) as [pw'|] eqn:Hl; [case_bool_decide; subst|]; injection Ha as <- <-; cbn.
  - split_and!; try done. intros _. by exists ("key-" +:+ pw)%string.
  - by split_and!.
  - split_and!.
    + intros [s c]. cbn. rewrite lookup_insert_ne by (by intros [=]). done.
    + intros [s c] k p (Hc & Hne & Hp). cbn in *. split_and!; try done.
      rewrite lookup_insert_ne; [done|]. intros Heq. by rewrite Heq, Hp in Hl.
    + intros _. exists ("key-" +:+ pw)%string. split_and!; try done. by rewrite lookup_insert_eq.
Qed.
Next Obligation.
  intros h k w r w' Hd. cbn in *. unfold demo_delete in Hd. unfold DemoOp.store in *. case_bool_decide as Hk; injection Hd as <- <-.
  - by split.
  - split.
    + intros [s c]. cbn. rewrite lookup_delete_ne by (intros [=]; by subst). done.
    + intros [s c] k' p (Hc & Hne & Hp) Hor. cbn in *. split_and!; try done.
      rewrite lookup_delete_ne; [done|]. intros [= Hs Hk']. subst. by destruct Hor.
Qed.
Next Obligation. intros w t k p p' (_ & _ & H1) (_ & _ & H2). congruence. Qed.

(** Two users share a repository; one of them changes its password. *)
Definition repo_point (i : t) (pw : string) : VfsPoint :=
  {| pt_id := i; name := "repo"; max_bytes := None; Points.read_only := false; scheme := "s3";
     config := ∅; is_repo := true; repo_password := Some pw |}.
Definition a_old : list VfsPoint := [repo_point id1 "old password"].
Definition a_new : list VfsPoint := [repo_point id1 "new password"].
Definition b_old : list VfsPoint := [repo_point id2 "old password"].
#[local] Instance demo_json : JsonLib := {|
  to_json ps := if bool_decide (ps = a_old) then Ok "a"%string else if bool_decide (ps = a_new) then Ok "a'"%string
                else if bool_decide (ps = b_old) then Ok "b"%string else Err "unsupported"%string;
  from_json s := if bool_decide (s = "a"%string) then Ok a_old else if bool_decide (s = "a'"%string) then Ok a_new
                 else if bool_decide (s = "b"%string) then Ok b_old else Err "malformed"%string;
|}.
#[local] Instance demo_json_laws : JsonLaws.
Proof. split. intros ps s. cbn. repeat case_bool_decide; intros [= <-]; subst; done. Qed.

Definition wire (i : t) (pw : string) : ProtoVfsPoint :=
  {| pv_id := proj1_sig i; pv_name := "repo"; pv_max_bytes := 0; pv_can_write := true;
     pv_src := Some (Repo (Some {| pp_scheme := "s3"; pp_config := ∅; pp_root := "" |}) pw) |}.
Definition req (pw : string) : list ProtoVfsUser :=
  [{| pu_name := "alice"; pu_points := [wire id1 pw] |}; {| pu_name := "bob"; pu_points := [wire id2 "old password"] |}].
Definition us (pw : string) : list VfsUser :=
  [{| username := "alice"; points := [repo_point id1 pw] |}; {| username := "bob"; points := b_old |}].
Definition db0 : DbManager :=
  {| users_t := {["alice" := "a"; "bob" := "b"]}%string; quota_t := ∅; faults := [] |}.
Definition s0 : Store (O := op) (W := world_t) :=
  {| world := {[("s3", "config") := ""; ("s3", "key-0") := "old password"]}%string; repos := ∅;
     repo_vfs_ops := ∅; data_ops := ∅; vfs_ops := ∅; degraded_ops := ∅; health := ∅;
     vfs_generation := ∅; refreshing := ∅; events := [] |}.
Definition y0 : Server (O := op) (W := world_t) :=
  {| storage := s0;
     quota := qs_new db0; jobs := {[id1 := {| job_user := "alice"; cancelled := false |}]};
     write_handles := {[id1 := "alice"; id2 := "bob"]}%string; read_handles := ∅ |}.
Notation run r := (set_vfs (H1 := plain_foreign) r y0).

Lemma requested_demo : requested (H1 := plain_foreign) (req "new password") (us "new password").
Proof. exists (us "new password"). split; reflexivity. Qed.

Example password_rotated :
  (run (req "new password")).1 = Ok () ∧
  world (storage (run (req "new password")).2) !! ("s3", "key-0")%string = None ∧
  world (storage (run (req "new password")).2) !! ("s3", "key-new password")%string = Some "new password"%string.
Proof. split_and!; reflexivity. Qed.

(** The other user of the repository, whose stored password is the old one, cannot
    open it any more. *)
Example shared_repository_locked_out :
  let y' := (run (req "new password")).2 in
  stored_users (tracker (quota y')) (us "new password") ∧
  (demo_open "s3" ∅ "old password" (world (storage y'))).1 = Err no_key.
Proof. split; reflexivity. Qed.

Lemma requested_unique us' :
  requested (H1 := plain_foreign) (req "new password") us' → us' = us "new password".
Proof.
  intros (us1 & Hu1 & Hu2).
  assert (collect user_of_proto (req "new password") = Ok (us "new password")) as Hx by reflexivity.
  assert (normalize_vfs_users (H0 := plain_foreign) (us "new password") = Ok (us "new password")) as Hz by reflexivity.
  congruence.
Qed.
Lemma stored_demo : stored_users (tracker (quota y0)) (us "old password").
Proof. reflexivity. Qed.
Lemma stored_unique old : stored_users (tracker (quota y0)) old → old = us "old password".
Proof. unfold stored_users. pose proof stored_demo as Hs. unfold stored_users in Hs. congruence. Qed.
Lemma run_ok : (run (req "new password")).1 = Ok ().
Proof. reflexivity. Qed.

Lemma set_vfs_is_all_or_nothing_witness :
  ∃ j, jobs (run (req "new password")).2 !! id1 = Some j ∧ cancelled j = true.
Proof.
  pose proof (set_vfs_is_all_or_nothing (H1 := plain_foreign) _ _ _ _ (surjective_pairing (run (req "new password")))) as Ht.
  rewrite run_ok in Ht. destruct Ht as (us' & old & us2 & Hreq & Hold & _ & _ & Hjobs & _).
  apply requested_unique in Hreq as ->. apply stored_unique in Hold as ->.
  destruct (Hjobs id1 {| job_user := "alice"; cancelled := false |}) as (j & Hj & _ & Hc);
    [apply lookup_singleton_eq|].
  exists j. split; [exact Hj|]. apply Hc. right. left.
Defined.

Lemma quotas_follow_the_storage_witness :
  ¬ quota_id "alice" id1 ∈ removed_quotas (us "old password") (us "new password").
Proof.
  rewrite (quotas_follow_the_storage (H1 := plain_foreign) _ (us "old password") _ _ requested_demo).
  intros (ou & p & Hou & Hp & Hid & Hno). apply Hno.
  apply elem_of_cons in Hou as [->|[->|Hou%elem_of_nil]%elem_of_cons]; [| |done].
  - apply list_elem_of_singleton in Hp as ->.
    exists {| username := "alice"; points := a_new |}, (repo_point id1 "new password").
    split_and!; [by left|done|by left|by split_and!].
  - apply list_elem_of_singleton in Hp as ->.
    exists {| username := "bob"; points := b_old |}, (repo_point id2 "old password").
    split_and!; [right; by left|done|by left|by split_and!].
Defined.

Lemma set_vfs_keeps_repositories_open_witness :
  openable (world (storage (run (req "new password")).2)) ("s3"%string, ∅) "new password".
Proof.
  pose proof (set_vfs_keeps_repositories_open (H1 := plain_foreign) _ _ _ _
    (surjective_pairing (run (req "new password")))) as Ht. cbn zeta in Ht.
  rewrite run_ok in Ht. destruct Ht as (us' & old & Hreq & Hold & Hall).
  apply requested_unique in Hreq as ->. apply stored_unique in Hold as ->.
  apply (Hall {| username := "alice"; points := a_new |} (repo_point id1 "new password") "new password");
    [by left | by left | done | done | |].
  - right. exists {| username := "alice"; points := a_old |}, (repo_point id1 "old password"), "old password"%string.
    split_and!; try done; [by left | by left|]. right. exists "key-0"%string. by split_and!.
  - intros c Hc _. change (password_changes (us "old password") (us "new password"))
      with [{| pc_user := "alice"; pc_point := "repo";
               old_src := {| rs_scheme := "s3"; rs_config := ∅; rs_password := "old password" |};
               new_password := "new password"; allow_write := true |}] in Hc.
    by apply list_elem_of_singleton in Hc as ->.
Defined.
End DemoChange.
