(* ===== verification/Events.v ===== *)
(** * Events and progress ([event_bus.rs], [progress.rs], [server.rs])

    [Bus]: the way of an event from a producer through the bounded channel, the
    bridge thread and the poll buffer to a client, as a step relation over any number
    of producers. [Progress]: the coalescing of byte counts by a bar that threads share, its
    critical sections in any order. *)

From S2P Require Import Prelude.
From S2P Require Import RustStr.
From S2P Require Import Errors.
From S2P Require Import Points.
From stdpp Require Import options.
Close Scope string_scope.

(** ** Events *)

(** [ipc::Priority] *)
Inductive EventPriority := PDebug | PInfo | PWarning | PError | PCritical.
Definition priority_value (p : EventPriority) : N :=
  match p with PDebug => 0 | PInfo => 1 | PWarning => 2 | PError => 3 | PCritical => 4 end.

(** [ipc_event::Data], with the parts the bus and the jobs look at. *)
Inductive Data :=
| LogEvent (p : EventPriority) (message : string)
| JobFinished (job_id : string) (success : bool) (error snapshot : option string)
| JobMessage (job_id : string) (p : EventPriority) (message : string)
| JobStepLengthSet (job_id bar_id : string) (length : N)
| JobStepTitleSet (job_id bar_id title : string)
| JobStepIncrement (job_id bar_id : string) (increment : N)
| JobStepFinished (job_id bar_id : string)
| PointStatusData (user point_id : string) (failed : option string).

Definition is_critical (e : Data) : bool :=
  match e with
  | JobFinished _ _ _ _ | PointStatusData _ _ _ => true
  | JobMessage _ p _ => (priority_value PError <=? priority_value p)%N
  | LogEvent p _ => (priority_value PError <=? priority_value p)%N
  | _ => false
  end.

#[global] Arguments is_critical : simpl never.

Module Bus.

Definition CAPACITY : nat := N.to_nat 8192.
Definition MAX_EVENTS : nat := N.to_nat 10000.
Definition POLL_BATCH : nat := N.to_nat 2000.

(** The channel, what the bridge thread holds, the poll buffer; [sent] and [polled]
    record what entered and what a client received. *)
Record t := {
  chan : list Data;
  pending : option Data;
  buf : list Data;
  sent : list Data;
  polled : list Data;
}.
Definition empty : t := {| chan := []; pending := None; buf := []; sent := []; polled := [] |}.

(** [event_bus::send]: [None] is a producer that has to wait. *)
Definition send (e : Data) (b : t) : option (bool * t) :=
  if length (chan b) <? CAPACITY then
    Some (true, {| chan := chan b ++ [e]; pending := pending b; buf := buf b;
                   sent := sent b ++ [e]; polled := polled b |})
  else if is_critical e then None else Some (false, b).

(** [buf.remove(index)] of the first event that is not critical. *)
Fixpoint remove_telemetry (l : list Data) : option (list Data) :=
  match l with
  | [] => None
  | e :: l => if negb (is_critical e) then Some l else (cons e) <$> remove_telemetry l
  end.
(** One attempt of the bridge to place an event. *)
Definition accept (e : Data) (l : list Data) : option (list Data) :=
  if length l <? MAX_EVENTS then Some (l ++ [e])
  else (λ l, l ++ [e]) <$> remove_telemetry l.

Definition recv (b : t) : t :=
  match pending b, chan b with
  | None, e :: rest => {| chan := rest; pending := Some e; buf := buf b; sent := sent b; polled := polled b |}
  | _, _ => b
  end.
(** The body of the bridge's inner loop: placed, dropped, or tried again later. *)
Definition bridge_try (b : t) : t :=
  match pending b with
  | None => b
  | Some e =>
    match accept e (buf b) with
    | Some l => {| chan := chan b; pending := None; buf := l; sent := sent b; polled := polled b |}
    | None => if negb (is_critical e)
              then {| chan := chan b; pending := None; buf := buf b; sent := sent b; polled := polled b |}
              else b
    end
  end.
(** [poll] *)
Definition poll (b : t) : list Data * t :=
  let n := Nat.min (length (buf b)) POLL_BATCH in
  (take n (buf b), {| chan := chan b; pending := pending b; buf := drop n (buf b); sent := sent b;
                      polled := polled b ++ take n (buf b) |}).

Inductive step : t → t → Prop :=
| step_send b e r b' : send e b = Some (r, b') → step b b'
| step_recv b : step b (recv b)
| step_try b : step b (bridge_try b)
| step_poll b : step b (poll b).2.

(** Polling while nobody sends. *)
Definition cycle (b : t) : t := recv (bridge_try (poll b).2).
Definition drain (n : nat) (b : t) : t := Nat.iter n cycle b.

(** ** Lemmas *)

Definition crit (l : list Data) : list Data := List.filter is_critical l.
#[global] Arguments crit : simpl never.
Definition held (b : t) : list Data :=
  polled b ++ buf b ++ option_list (pending b) ++ chan b.
Definition invariant (b : t) : Prop :=
  length (chan b) ≤ CAPACITY ∧ length (buf b) ≤ MAX_EVENTS ∧
  crit (held b) = crit (sent b) ∧ held b `sublist_of` sent b.

Lemma crit_cons e l : crit (e :: l) = if is_critical e then e :: crit l else crit l.
Proof. done. Qed.
Lemma crit_app l1 l2 : crit (l1 ++ l2) = crit l1 ++ crit l2.
Proof. apply List.filter_app. Qed.

Lemma remove_telemetry_spec l l' :
  remove_telemetry l = Some l' →
  crit l' = crit l ∧ l' `sublist_of` l ∧ S (length l') = length l.
Proof.
  revert l'; induction l as [|e l IH]; intros l'; cbn; [done|].
  destruct (is_critical e) eqn:He; cbn.
  - destruct (remove_telemetry l) as [l1|] eqn:Hr; [|done]. intros [= <-].
    destruct (IH l1 eq_refl) as (Hc & Hs & Hl). split_and!; [|by apply sublist_skip|cbn; lia].
    rewrite !crit_cons, He. by rewrite Hc.
  - intros [= <-]. rewrite crit_cons, He. split_and!; [done|by apply sublist_cons|done].
Qed.

Lemma accept_spec e l l' :
  accept e l = Some l' → length l ≤ MAX_EVENTS →
  length l' ≤ MAX_EVENTS ∧ crit l' = crit (l ++ [e]) ∧ l' `sublist_of` l ++ [e].
Proof.
  unfold accept. destruct (Nat.ltb_spec (length l) MAX_EVENTS) as [Hlt|Hge].
  - intros [= <-] _. split_and!; [|done|done]. rewrite length_app. cbn. lia.
  - destruct (remove_telemetry l) as [l1|] eqn:Hr; [|done]. intros [= <-] Hle.
    apply remove_telemetry_spec in Hr as (Hc & Hs & Hl). split_and!.
    + rewrite length_app. cbn. lia.
    + by rewrite !crit_app, Hc.
    + by apply sublist_app.
Qed.

(** What is held after the bridge moves: the same critical events in the same order,
    and nothing new. *)
Lemma step_invariant b b' : step b b' → invariant b → invariant b'.
Proof.
  intros Hs Hinv. pose proof Hinv as (Hch & Hbuf & Hc & Hsub). destruct Hs as [b e r b' Hsend|b|b|b].
  - unfold send in Hsend. destruct (Nat.ltb_spec (length (chan b)) CAPACITY).
    + injection Hsend as _ <-. unfold invariant, held in *. cbn. split_and!; [|done| |].
      * rewrite length_app. cbn. lia.
      * rewrite !crit_app in *. rewrite <-Hc. by rewrite <-!(assoc_L (++)).
      * rewrite !(assoc_L (++)) in *. by apply sublist_app.
    + destruct (is_critical e); [done|]. by injection Hsend as _ <-.
  - unfold recv. destruct (pending b) eqn:Hp; [done|]. destruct (chan b) as [|e rest] eqn:Hch'; [done|].
    unfold invariant, held in *. cbn in *. rewrite Hp, Hch' in *. cbn in *. split_and!; try done. lia.
  - unfold bridge_try. destruct (pending b) as [e|] eqn:Hp; [|done].
    destruct (accept e (buf b)) as [l|] eqn:Ha.
    + apply accept_spec in Ha as (Hl & Hcl & Hsl); [|done].
      unfold invariant, held in *. rewrite Hp in *. cbn in *. split_and!; try done.
      * rewrite <-Hc, (cons_middle e (buf b)), !crit_app, Hcl, !crit_app. by rewrite <-!(assoc_L (++)).
      * etrans; [|exact Hsub]. apply sublist_app; [done|].
        rewrite cons_middle, (assoc_L (++)). by apply sublist_app.
    + destruct (is_critical e) eqn:He; cbn [negb]; [done|].
      unfold invariant, held in *. rewrite Hp in *. cbn in *. split_and!; try done.
      * rewrite <-Hc, !crit_app. do 2 f_equal. by rewrite crit_cons, He.
      * etrans; [|exact Hsub]. apply sublist_app; [done|]. apply sublist_app; [done|]. by apply sublist_cons.
  - unfold poll, invariant, held in *. cbn. split_and!; try done.
    + rewrite length_drop. lia.
    + rewrite <-Hc. rewrite <-(assoc_L (++)), (assoc_L (++) (take _ _)). by rewrite take_drop.
    + rewrite <-(assoc_L (++)), (assoc_L (++) (take _ _)). by rewrite take_drop.
Qed.

Lemma reachable_invariant b : rtc step empty b → invariant b.
Proof.
  intros Hr. assert (Hgen : ∀ a c, rtc step a c → invariant a → invariant c).
  { intros a c. induction 1; eauto using step_invariant. }
  apply (Hgen empty b Hr). repeat split; cbn; try lia; reflexivity.
Qed.

(** What is left to do before a client has received everything. *)
Definition remaining (b : t) : nat :=
  3 * length (chan b) + 2 * length (option_list (pending b)) + length (buf b).

Lemma poll_remaining b :
  length (buf b) ≤ MAX_EVENTS →
  remaining (poll b).2 ≤ remaining b ∧ length (buf (poll b).2) < MAX_EVENTS ∧
  (buf b ≠ [] → remaining (poll b).2 < remaining b).
Proof.
  assert (0 < POLL_BATCH ∧ 0 < MAX_EVENTS) as [Hpos Hmax] by (unfold POLL_BATCH, MAX_EVENTS; lia).
  intros Hle. unfold poll, remaining. cbn. rewrite length_drop. split_and!; [lia|lia|].
  intros Hne. destruct (buf b); [done|]. cbn [length]. lia.
Qed.
Lemma bridge_remaining b :
  length (buf b) < MAX_EVENTS →
  remaining (bridge_try b) ≤ remaining b ∧ (pending b ≠ None → remaining (bridge_try b) < remaining b) ∧
  pending (bridge_try b) = None.
Proof.
  intros Hlt. unfold bridge_try, remaining. destruct (pending b) as [e|] eqn:Hp; [|by rewrite Hp].
  unfold accept. destruct (Nat.ltb_spec (length (buf b)) MAX_EVENTS); [|lia].
  cbn. rewrite length_app. cbn. split_and!; [lia|intros _; lia|done].
Qed.
Lemma recv_remaining b :
  remaining (recv b) ≤ remaining b ∧
  (pending b = None → chan b ≠ [] → remaining (recv b) < remaining b).
Proof.
  unfold recv, remaining. destruct (pending b) eqn:Hp; [rewrite Hp; by split|].
  destruct (chan b) eqn:Hc; [rewrite Hp, Hc; by split|]. cbn. split; [lia|intros _ _; lia].
Qed.

Lemma cycle_remaining b :
  invariant b → remaining (cycle b) ≤ remaining b - 1.
Proof.
  intros (_ & Hbuf & _). unfold cycle. destruct (poll_remaining b Hbuf) as (Hp & Hlt & Hp').
  destruct (bridge_remaining _ Hlt) as (Hb & Hb' & Hnone).
  destruct (recv_remaining (bridge_try (poll b).2)) as (Hr & Hr').
  destruct (buf b) as [|e l] eqn:Hbb; [|specialize (Hp' ltac:(done)); lia].
  destruct (pending (poll b).2) as [e|] eqn:Hpp; [specialize (Hb' ltac:(done)); lia|].
  assert (bridge_try (poll b).2 = (poll b).2) as Heq by (unfold bridge_try; by rewrite Hpp).
  rewrite Heq in *. destruct (chan (poll b).2) as [|e l] eqn:Hc.
  - assert (remaining b = 0) as Hz.
    { unfold poll in Hpp, Hc. cbn in Hpp, Hc. unfold remaining. by rewrite Hbb, Hpp, Hc. }
    lia.
  - specialize (Hr' Hnone ltac:(done)). lia.
Qed.

Lemma cycle_invariant b : invariant b → invariant (cycle b).
Proof.
  intros. unfold cycle. eapply step_invariant; [apply step_recv|].
  eapply step_invariant; [apply step_try|]. eapply step_invariant; [apply step_poll|]. done.
Qed.
Lemma cycle_sent b : sent (cycle b) = sent b.
Proof.
  unfold cycle, recv, bridge_try, poll. cbn. repeat (case_match; cbn; try done).
Qed.
Lemma drain_spec n b :
  invariant b → invariant (drain n b) ∧ remaining (drain n b) ≤ remaining b - n ∧ sent (drain n b) = sent b.
Proof.
  intros Hinv. unfold drain. induction n as [|n (IHi & IHr & IHs)].
  { cbn. split_and!; [done|lia|done]. }
  change (Nat.iter (S n) cycle b) with (cycle (Nat.iter n cycle b)).
  split_and!; [by apply cycle_invariant| |by rewrite cycle_sent].
  pose proof (cycle_remaining _ IHi). lia.
Qed.
Lemma remaining_none b :
  remaining b = 0 → chan b = [] ∧ pending b = None ∧ buf b = [].
Proof.
  unfold remaining. destruct (chan b), (pending b), (buf b); cbn; intros; try lia; done.
Qed.

(** C18. No critical event is lost between a producer and the clients. In every state
    that any interleaving of senders, the bridge thread and polls can reach, the
    channel and the poll buffer are within their bounds, what has been polled or is
    still on its way contains exactly the critical events that were sent, in order, and
    nothing that was not sent; and once senders pause, polling (with the bridge
    running in between) for as many turns as [remaining] says empties every queue, so
    that all critical events sent have been received in the order they were sent. *)
Theorem critical_events_reach_clients b n :
  rtc step empty b → remaining b ≤ n →
  (length (chan b) ≤ CAPACITY ∧ length (buf b) ≤ MAX_EVENTS) ∧
  (crit (held b) = crit (sent b) ∧ held b `sublist_of` sent b) ∧
  chan (drain n b) = [] ∧ buf (drain n b) = [] ∧ sent (drain n b) = sent b ∧
  crit (polled (drain n b)) = crit (sent b) ∧ polled (drain n b) `sublist_of` sent b.
Proof.
  intros Hr%reachable_invariant Hn. pose proof Hr as (? & ? & ? & ?).
  destruct (drain_spec n b Hr) as ((_ & _ & Hc & Hs) & Hrem & Hsent).
  destruct (remaining_none (drain n b) ltac:(lia)) as (Hch & Hp & Hbuf).
  unfold held in Hc, Hs. rewrite Hch, Hp, Hbuf in Hc, Hs. cbn in Hc, Hs. rewrite app_nil_r in Hc, Hs.
  rewrite Hsent in Hc, Hs. done.
Qed.

(** A state with a log line and a finished job on their way. *)
Definition demo_line : Data := LogEvent PInfo "listening"%string.
Definition demo_done : Data := JobFinished "j1"%string true None (Some "5f0c"%string).
Definition demo_bus : t :=
  {| chan := [demo_done]; pending := Some demo_line; buf := []; sent := [demo_line; demo_done]; polled := [] |}.
Lemma demo_reachable : rtc step empty demo_bus.
Proof.
  apply rtc_l with {| chan := [demo_line]; pending := None; buf := []; sent := [demo_line]; polled := [] |}.
  { by apply (step_send _ demo_line true). }
  apply rtc_l with {| chan := [demo_line; demo_done]; pending := None; buf := [];
                      sent := [demo_line; demo_done]; polled := [] |}.
  { by apply (step_send _ demo_done true). }
  apply rtc_l with demo_bus; [apply (step_recv {| chan := [demo_line; demo_done]; pending := None; buf := [];
                      sent := [demo_line; demo_done]; polled := [] |})|]. done.
Qed.
Lemma critical_events_reach_clients_witness :
  rtc step empty demo_bus ∧ crit (polled (drain 5 demo_bus)) = [demo_done].
Proof.
  split; [apply demo_reachable|].
  destruct (critical_events_reach_clients demo_bus 5 demo_reachable ltac:(cbn; lia)) as (_ & _ & _ & _ & _ & Hc & _).
  exact Hc.
Defined.

(** A full channel makes the producer of a critical event wait and drops others. *)
Example full_channel_drops_telemetry b :
  CAPACITY ≤ length (chan b) → send demo_line b = Some (false, b) ∧ send demo_done b = None.
Proof. intros H. unfold send. destruct (Nat.ltb_spec (length (chan b)) CAPACITY); [lia|done]. Qed.

End Bus.

(** ** Progress bars ([progress.rs]) *)

Module Progress.

(** Milliseconds of the process's monotonic clock; an elapsed time of a later start
    is zero, as [Instant::elapsed] has it. *)
Definition elapsed (start now : N) : N := saturating_sub now start.

Record PendingIncrement := { bytes : N; last_flush : option N }.
Definition default_pending : PendingIncrement := {| bytes := 0; last_flush := None |}.

Definition PROGRESS_FLUSH_INTERVAL : N := 50.
Definition PROGRESS_FLUSH_BYTES : N := 256 * 1024.

(** [RepoBar] is only carried for its two ids. *)
Record TxProgress := {
  job_id : string;
  bar_id : string;
  prefix : string;
  pending : PendingIncrement;
}.
Definition create_new (job bar prefix : string) : TxProgress :=
  {| job_id := job; bar_id := bar; prefix := prefix; pending := default_pending |}.
Definition with_pending (p : TxProgress) (x : PendingIncrement) : TxProgress :=
  {| job_id := job_id p; bar_id := bar_id p; prefix := prefix p; pending := x |}.

(** The events a call hands to [event_bus::send], and the bar after it. *)
Definition flush_increment (now : N) (p : TxProgress) : list Data * TxProgress :=
  if (bytes (pending p) =? 0)%N then ([], p)
  else ([JobStepIncrement (job_id p) (bar_id p) (bytes (pending p))],
        with_pending p {| bytes := 0; last_flush := Some now |}).

Definition set_length (length : N) (p : TxProgress) : list Data :=
  [JobStepLengthSet (job_id p) (bar_id p) length].
Definition set_title (title : string) (p : TxProgress) : list Data :=
  [JobStepTitleSet (job_id p) (bar_id p) ("[" +:+ prefix p +:+ "] " +:+ title)%string].

(** The critical section of [inc]: whether to flush, and the new count. *)
Definition inc_locked (inc now : N) (p : TxProgress) : bool * TxProgress :=
  let sum := saturating_add (bytes (pending p)) inc in
  ((PROGRESS_FLUSH_BYTES <=? sum)%N ||
   opt_or true ((λ t, PROGRESS_FLUSH_INTERVAL <=? elapsed t now)%N <$> last_flush (pending p)),
   with_pending p {| bytes := sum; last_flush := last_flush (pending p) |}).
(** [inc] reads the clock once under the lock and again when it flushes. *)
Definition inc (n now now' : N) (p : TxProgress) : list Data * TxProgress :=
  let '(should_flush, p) := inc_locked n now p in
  if should_flush then flush_increment now' p else ([], p).
Definition finish (now : N) (p : TxProgress) : list Data * TxProgress :=
  let '(evs, p) := flush_increment now p in (evs ++ [JobStepFinished (job_id p) (bar_id p)], p).

(** A bar is shared by the threads that work on a job, and their critical sections happen in
    any order: an [inc] counts, and when its count is to be sent its thread goes on to send
    what is pending then; a [finish] sends whatever is pending. [w] are the threads that have
    decided to send and have not done so. *)
Inductive call_part := Count (i : nat) (n now : N) | Send (i : nat) (now : N) | End (i : nat) (now : N).
Definition do_part (x : call_part) (w : gset nat) (p : TxProgress) : option (list Data * gset nat * TxProgress) :=
  match x with
  | Count i n now =>
      let '(should_flush, p') := inc_locked n now p in
      if decide (i ∈ w) then None else Some ([], if should_flush then {[i]} ∪ w else w, p')
  | Send i now =>
      let '(evs, p') := flush_increment now p in
      if decide (i ∈ w) then Some (evs, w ∖ {[i]}, p') else None
  | End i now =>
      let '(evs, p') := finish now p in if decide (i ∈ w) then None else Some (evs, w, p')
  end.
Fixpoint do_parts (l : list call_part) (w : gset nat) (p : TxProgress) : option (list Data * gset nat * TxProgress) :=
  match l with
  | [] => Some ([], w, p)
  | x :: l =>
      '(evs, w, p) ← do_part x w p;
      '(evs', w, p) ← do_parts l w p;
      Some (evs ++ evs', w, p)
  end.

Definition sum (l : list N) : N := foldr N.add 0%N l.
#[global] Arguments sum : simpl never.
Definition increment_of (e : Data) : N := match e with JobStepIncrement _ _ n => n | _ => 0 end.
Definition amount (x : call_part) : N := match x with Count _ n _ => n | _ => 0 end.
Definition reported (evs : list Data) : N := sum (map increment_of evs).
(** A useful increment of the bar, or the news that it has finished. *)
Definition own_event (job bar : string) (e : Data) : Prop :=
  e = JobStepFinished job bar ∨ ∃ n, (0 < n)%N ∧ e = JobStepIncrement job bar n.

Lemma sum_cons n l : sum (n :: l) = (n + sum l)%N.
Proof. done. Qed.
Lemma sum_app l1 l2 : sum (l1 ++ l2) = (sum l1 + sum l2)%N.
Proof. induction l1 as [|n l IH]; cbn [app]; [done|]. rewrite !sum_cons, IH. lia. Qed.
Lemma reported_app l1 l2 : reported (l1 ++ l2) = (reported l1 + reported l2)%N.
Proof. unfold reported. by rewrite map_app, sum_app. Qed.

Lemma flush_increment_spec now p evs p' :
  flush_increment now p = (evs, p') →
  (reported evs = bytes (pending p) ∧ bytes (pending p') = 0)%N ∧ Forall (own_event (job_id p) (bar_id p)) evs ∧
  job_id p' = job_id p ∧ bar_id p' = bar_id p ∧
  last_flush (pending p') = (match evs with [] => last_flush (pending p) | _ => Some now end) ∧
  length evs ≤ 1.
Proof.
  unfold flush_increment. destruct (N.eqb_spec (bytes (pending p)) 0) as [Hz|Hz]; intros [= <- <-].
  - rewrite Hz. split_and!; try done. cbn. lia.
  - split_and!; try done.
    + unfold reported. cbn. rewrite sum_cons. apply N.add_0_r.
    + constructor; [|done]. right. eexists. split; [|done]. lia.
Qed.

Definition conserved (x : N) (p : TxProgress) (evs : list Data) (p' : TxProgress) : Prop :=
  (reported evs + bytes (pending p') = bytes (pending p) + x)%N ∧
  Forall (own_event (job_id p) (bar_id p)) evs ∧ job_id p' = job_id p ∧ bar_id p' = bar_id p.
Lemma finish_spec now p evs p' :
  finish now p = (evs, p') →
  conserved 0 p evs p' ∧ bytes (pending p') = 0%N ∧ ∃ rest, evs = rest ++ [JobStepFinished (job_id p) (bar_id p)].
Proof.
  unfold finish, conserved. destruct (flush_increment now p) as [e1 p1] eqn:E. intros [= <- <-].
  apply flush_increment_spec in E as ([Hr Hb] & Ho & Hj & Hbar & _). rewrite reported_app. change (reported [_]) with 0%N.
  split_and!; try done; [lia| |by exists e1; rewrite Hj, Hbar].
  apply Forall_app. split; [done|]. constructor; [|done]. left. by rewrite Hj, Hbar.
Qed.
Lemma part_conserved x w p evs w' p' :
  do_part x w p = Some (evs, w', p') → (bytes (pending p) + amount x ≤ U64_MAX)%N → conserved (amount x) p evs p'.
Proof.
  destruct x as [i m now|i now|i now]; cbn [do_part amount].
  - destruct (inc_locked m now p) as [b p1] eqn:E. injection E as _ <-. case_decide; [done|]. intros [= <- <- <-] Hle.
    unfold conserved, reported. cbn. unfold saturating_add. change (sum []) with 0%N. split_and!; try done. lia.
  - destruct (flush_increment now p) as [e1 p1] eqn:E. case_decide; [|done]. intros [= <- <- <-] _.
    apply flush_increment_spec in E as ([Hr Hb] & ? & ? & ? & _). split_and!; try done. lia.
  - destruct (finish now p) as [e1 p1] eqn:E. case_decide; [done|]. intros [= <- <- <-] _. by apply finish_spec in E as [? _].
Qed.
Lemma parts_conserved l w p evs w' p' :
  do_parts l w p = Some (evs, w', p') → (bytes (pending p) + sum (map amount l) ≤ U64_MAX)%N →
  conserved (sum (map amount l)) p evs p'.
Proof.
  revert w p evs; induction l as [|x l IH]; intros w p evs; cbn [do_parts].
  { intros [= <- <- <-] _. unfold conserved, reported, sum. cbn. split_and!; try done. lia. }
  destruct (do_part x w p) as [[[e1 w1] p1]|] eqn:Ex; [|done]. cbn [mbind option_bind].
  destruct (do_parts l w1 p1) as [[[e2 w2] p2]|] eqn:El; [|done]. cbn [mbind option_bind map]. intros [= <- <- <-].
  rewrite sum_cons. intros Hle. apply part_conserved in Ex as (H1 & H2 & H3 & H4); [|lia].
  apply IH in El as (H5 & H6 & H7 & H8); [|lia]. rewrite H3, H4 in *. unfold conserved. rewrite reported_app.
  split_and!; [lia|by apply Forall_app|done|done].
Qed.


Definition shared_bar : list call_part := [Count 0 5 0; Count 1 7 1; Send 0 2; Count 2 4 3; Send 1 3; Count 0 1 9]%N.

(** *** How often a bar reports *)

(** An undisturbed [inc] is its one or two parts. *)
Lemma inc_parts i n now now' p evs p' :
  inc n now now' p = (evs, p') →
  do_parts (Count i n now :: if (inc_locked n now p).1 then [Send i now'] else []) ∅ p = Some (evs, ∅, p').
Proof.
  unfold inc. cbn [do_parts do_part]. destruct (inc_locked n now p) as [b p1]. rewrite decide_False by set_solver.
  cbn [mbind option_bind fst]. destruct b; cbn [do_parts do_part]; [|by intros [= <- <-]].
  destruct (flush_increment now' p1) as [e1 p2]. intros [= <- <-]. rewrite decide_True by set_solver.
  cbn [mbind option_bind]. rewrite app_nil_r. do 3 f_equal. set_solver.
Qed.

Definition reading (x : call_part) : N := match x with Count _ _ now | Send _ now | End _ now => now end.
Definition thread (x : call_part) : nat := match x with Count i _ _ | Send i _ | End i _ => i end.
Definition ends (l : list call_part) : N :=
  sum (map (λ x, match x with End _ _ => 1 | _ => 0 end)%N l).
(** The clock, read under the lock, does not go backwards. *)
Fixpoint monotone (t0 : N) (l : list call_part) : Prop :=
  match l with [] => True | x :: l => (t0 ≤ reading x)%N ∧ monotone (reading x) l end.
Fixpoint last_reading (t0 : N) (l : list call_part) : N :=
  match l with [] => t0 | x :: l => last_reading (reading x) l end.
Definition increments (evs : list Data) : N :=
  sum (map (λ e, match e with JobStepIncrement _ _ _ => 1 | _ => 0 end)%N evs).
Lemma increments_app l1 l2 : increments (l1 ++ l2) = (increments l1 + increments l2)%N.
Proof. unfold increments. by rewrite map_app, sum_app. Qed.

(** What is pending is worth an increment. *)
Definition ripe (now : N) (p : TxProgress) : bool :=
  (PROGRESS_FLUSH_BYTES <=? bytes (pending p))%N ||
  opt_or true ((λ t, PROGRESS_FLUSH_INTERVAL <=? elapsed t now)%N <$> last_flush (pending p)).
Lemma ripe_later t t' p : (t ≤ t')%N → ripe t p = true → ripe t' p = true.
Proof.
  unfold ripe, elapsed, saturating_sub. intros Ht [->|H]%orb_true_iff; [done|]. apply orb_true_iff. right.
  destruct (last_flush (pending p)); [|done]. cbn in *. apply N.leb_le in H. apply N.leb_le. lia.
Qed.

(** Of [n] threads, [k] increments were sent, and [s] threads at most are about to send one
    that is not worth it: every increment is paid for by bytes or time, is one of the [n - 1]
    that another thread had decided on before it was, or is a [finish]'s. *)
Definition paid (t0 total n fin k s : N) (p : TxProgress) : Prop :=
  match last_flush (pending p) with
  | None => k = 0%N ∧ (bytes (pending p) ≤ total)%N
  | Some t => ∃ kb kt : N, (k + s ≤ n * (1 + kb + kt) + fin)%N ∧
      (kb * PROGRESS_FLUSH_BYTES + bytes (pending p) ≤ total)%N ∧
      (kt * PROGRESS_FLUSH_INTERVAL ≤ t - t0)%N ∧ (t0 ≤ t)%N
  end.
Definition flushed_by (now : N) (p : TxProgress) : Prop :=
  match last_flush (pending p) with Some t => t ≤ now | None => True end%N.
Definition few (now s : N) (w : gset nat) (p : TxProgress) : Prop :=
  (N.of_nat (size w) ≤ s)%N ∨ ripe now p = true.

(** Sending: [a] is one when it is a [finish] that sends. *)
Lemma flush_paid t0 total n fin k s a now p evs p' :
  paid t0 total n fin k s p → flushed_by now p → (t0 ≤ now)%N → (1 ≤ n)%N → (a ≤ 1)%N →
  (ripe now p = true ∨ 1 ≤ s + a)%N →
  flush_increment now p = (evs, p') →
  (evs = [] ∧ p' = p) ∨
  (increments evs = 1%N ∧ last_flush (pending p') = Some now ∧
   if ripe now p then paid t0 total n fin (k + 1) (n - 1) p' else paid t0 total n (fin + a) (k + 1) (s + a - 1) p').
Proof.
  unfold flush_increment, paid, ripe, flushed_by. destruct (N.eqb_spec (bytes (pending p)) 0) as [|Hz].
  { intros _ _ _ _ _ _ [= <- <-]. by left. }
  intros Hp Hf H0 Hn Ha Hs [= <- <-]. right. split; [done|]. split; [done|]. cbn.
  destruct (last_flush (pending p)) as [t|]; cbn in *.
  - destruct Hp as (kb & kt & H1 & H2 & H3 & H4). unfold elapsed, saturating_sub in *.
    destruct (N.leb_spec PROGRESS_FLUSH_BYTES (bytes (pending p))); cbn in *.
    { exists (kb + 1)%N, kt. split_and!; [|lia|lia|lia]. nia. }
    destruct (N.leb_spec PROGRESS_FLUSH_INTERVAL (now - t)).
    { exists kb, (kt + 1)%N. split_and!; [nia|lia|lia|lia]. }
    destruct Hs as [?|Hs]; [done|]. exists kb, kt. split_and!; lia.
  - destruct Hp as [-> Hp]. rewrite orb_true_r. exists 0%N, 0%N. split_and!; lia.
Qed.

Section Paid.
Variables (t0 : N) (threads : gset nat).
Notation n := (N.of_nat (size threads)).

Definition account (now total fin k : N) (w : gset nat) (p : TxProgress) : Prop :=
  w ⊆ threads ∧ flushed_by now p ∧ ∃ s, paid t0 total n fin k s p ∧ few now s w p.

Lemma size_without (w : gset nat) i : w ⊆ threads → i ∈ threads → i ∉ w → (N.of_nat (size w) ≤ n - 1)%N.
Proof using Type.
  intros Hw Hi Hn. assert (size ({[i]} ∪ w) ≤ size threads) as Hs by (apply subseteq_size; set_solver).
  rewrite size_union, size_singleton in Hs by set_solver. lia.
Qed.
Lemma size_leaving (w : gset nat) i : i ∈ w → N.of_nat (size w) = (N.of_nat (size (w ∖ {[i]})) + 1)%N.
Proof using Type.
  intros Hi. assert (size w ≠ 0) by (intros H%size_empty_inv; set_solver).
  rewrite size_difference, size_singleton by set_solver. lia.
Qed.

Lemma sending_paid now total fin k w p a evs p' w' i :
  account now total fin k w p → (t0 ≤ now)%N → i ∈ threads → i ∉ w' → w' ⊆ w → (a ≤ 1)%N →
  (N.of_nat (size w) + a = N.of_nat (size w') + 1)%N →
  flush_increment now p = (evs, p') → account now total (fin + a) (k + increments evs) w' p'.
Proof using Type.
  intros (Hw & Hf & s & Hp & Hs) H0 Hi Hn Hsub Ha Hsz E.
  assert (Hn1 : (1 ≤ n)%N) by (pose proof (size_leaving _ _ Hi); lia).
  assert (Hmore : ∀ p k s, paid t0 total n fin k s p → paid t0 total n (fin + a) k s p).
  { intros p0 k0 s0. unfold paid. destruct (last_flush (pending p0)); [|done]. intros (kb & kt & ? & ?).
    exists kb, kt. split; [lia|done]. }
  assert (Hr : (ripe now p = true ∨ 1 ≤ s + a)%N) by (destruct Hs; [right; lia|by left]).
  split; [set_solver|].
  apply (flush_paid _ _ _ _ _ _ a _ _ _ _ Hp Hf H0 Hn1 Ha Hr) in E as [[-> ->]|(-> & Hl & Hp')].
  { split; [done|]. exists s. rewrite N.add_0_r. split; [by apply Hmore|].
    destruct Hs as [Hs|Hs]; [left; lia|by right]. }
  split; [unfold flushed_by; rewrite Hl; done|]. destruct (ripe now p) eqn:Er.
  - exists (n - 1)%N. split; [by apply Hmore|]. left. apply (size_without _ i); [by etrans|done|done].
  - exists (s + a - 1)%N. split; [done|]. left. destruct Hs as [Hs|?]; [lia|congruence].
Qed.

Lemma part_paid x t total fin k w p evs w' p' :
  account t total fin k w p → (t0 ≤ t)%N → (t ≤ reading x)%N → thread x ∈ threads →
  do_part x w p = Some (evs, w', p') →
  account (reading x) (total + amount x) (fin + ends [x]) (k + increments evs) w' p'.
Proof using Type.
  intros (Hw & Hf & s & Hp & Hs) H0 Ht Hi.
  assert (Hacc : account (reading x) total fin k w p).
  { split; [done|]. split; [unfold flushed_by in *; destruct (last_flush (pending p)); [lia|done]|].
    exists s. split; [done|]. destruct Hs as [?|Hs]; [by left|right]. by apply (ripe_later t). }
  destruct x as [i m now|i now|i now]; cbn [do_part reading thread amount] in *.
  - change (ends _) with 0%N. rewrite N.add_0_r. destruct (inc_locked m now p) as [b p1] eqn:El. case_decide as Hin; [done|].
    intros [= <- <- <-]. change (increments []) with 0%N. rewrite N.add_0_r. injection El as Hb <-.
    split; [destruct b; set_solver|]. split; [apply Hacc|]. exists s. split.
    { unfold paid in *. cbn. unfold saturating_add. destruct (last_flush (pending p)); [|split; [apply Hp|lia]].
      destruct Hp as (kb & kt & ? & ? & ? & ?). exists kb, kt. split_and!; lia. }
    destruct b; [by right|]. destruct Hacc as (_ & _ & s0 & _ & _). destruct Hs as [Hs|Hs]; [by left|].
    apply (ripe_later _ now) in Hs; [|done]. unfold ripe in Hs. apply orb_false_iff in Hb as [Hb1 Hb2].
    rewrite Hb2, orb_false_r in Hs. apply N.leb_le in Hs. apply N.leb_gt in Hb1. cbn in Hb1.
    unfold saturating_add in Hb1. assert (PROGRESS_FLUSH_BYTES ≤ U64_MAX)%N by done. lia.
  - change (ends _) with 0%N. rewrite N.add_0_r. destruct (flush_increment now p) as [e1 p1] eqn:Ef.
    case_decide as Hin; [|done]. intros [= <- <- <-].
    apply (sending_paid now total fin k w p 0 e1 p1 (w ∖ {[i]}) i); try done; [lia|set_solver|set_solver|].
    rewrite (size_leaving w i Hin). lia.
  - change (ends _) with 1%N. rewrite N.add_0_r. unfold finish. destruct (flush_increment now p) as [e1 p1] eqn:Ef.
    case_decide as Hin; [done|]. intros [= <- <- <-].
    rewrite increments_app. change (increments [_]) with 0%N. rewrite N.add_0_r.
    apply (sending_paid now total fin k w p 1 e1 p1 w i); try done. lia.
Qed.

Lemma parts_paid l t total fin k w p evs w' p' :
  account t total fin k w p → (t0 ≤ t)%N → monotone t l → Forall (λ x, thread x ∈ threads) l →
  do_parts l w p = Some (evs, w', p') →
  account (last_reading t l) (total + sum (map amount l)) (fin + ends l) (k + increments evs) w' p'.
Proof using Type.
  revert t total fin k w p evs; induction l as [|x l IH]; intros t total fin k w p evs Ha H0 Hm Hth; cbn [do_parts].
  { intros [= <- <- <-]. change (sum _) with 0%N. change (ends _) with 0%N. change (increments _) with 0%N.
    by rewrite !N.add_0_r. }
  destruct Hm as [Hm1 Hm2]. apply Forall_cons in Hth as [Hx Hth].
  destruct (do_part x w p) as [[[e1 w1] p1]|] eqn:Ex; [|done]. cbn [mbind option_bind].
  destruct (do_parts l w1 p1) as [[[e2 w2] p2]|] eqn:El; [|done]. cbn [mbind option_bind]. intros [= <- <- <-].
  apply (part_paid x t total fin k) in Ex; [|done..]. apply (IH _ _ _ _ _ _ _ Ex) in El; [|lia|done|done].
  cbn [map last_reading]. rewrite increments_app, sum_cons, !N.add_assoc.
  replace (fin + ends (x :: l))%N with (fin + ends [x] + ends l)%N; [done|].
  unfold ends. cbn [map]. rewrite !sum_cons. change (sum []) with 0%N. lia.
Qed.
End Paid.

(** C40. A bar that [n] threads share, that counts [B] bytes during [T] milliseconds and whose
    [finish] is called [f] times sends at most [n * (1 + B / 256 KiB + T / 50 ms) + f]
    increments, however small the pieces are and however the critical sections of the threads
    interleave: beyond the first, an increment has gathered the bytes or waited out the
    interval, is a [finish]'s, or is one of at most [n - 1] that other threads had decided to
    send before that one was. *)
Theorem progress_events_are_bounded (job bar pre : string) t0 (threads : gset nat) l evs w p :
  monotone t0 l → Forall (λ x, thread x ∈ threads) l →
  do_parts l ∅ (create_new job bar pre) = Some (evs, w, p) →
  (increments evs ≤ N.of_nat (size threads) *
     (1 + sum (map amount l) / PROGRESS_FLUSH_BYTES + (last_reading t0 l - t0) / PROGRESS_FLUSH_INTERVAL) + ends l)%N.
Proof.
  intros Hm Hth Hd.
  assert (H0 : account t0 threads t0 0 0 0 ∅ (create_new job bar pre)).
  { split; [set_solver|]. split; [done|]. exists 0%N. split; [by split|by right]. }
  apply (parts_paid t0 threads l t0 0 0 0 _ _ _ _ _ H0 (N.le_refl _) Hm Hth) in Hd as (_ & Hf & s & Hp & _).
  rewrite !N.add_0_l in Hp. unfold paid, flushed_by in *. destruct (last_flush (pending p)) as [t|]; [|destruct Hp as [-> _]; apply N.le_0_l].
  destruct Hp as (kb & kt & H1 & H2 & H3 & H4).
  assert (kb ≤ sum (map amount l) / PROGRESS_FLUSH_BYTES)%N by (apply N.div_le_lower_bound; [done|lia]).
  assert (kt ≤ (last_reading t0 l - t0) / PROGRESS_FLUSH_INTERVAL)%N by (apply N.div_le_lower_bound; [done|lia]).
  nia.
Qed.

(** Two threads decide at once, each sends a byte, and [finish] the last one; the bound is
    reached. *)
Definition two_threads : list call_part :=
  [Count 0 1 7; Count 1 1 7; Send 0 7; Count 0 1 7; Send 1 7; Count 1 1 8; End 0 8]%N.
Lemma progress_events_are_bounded_witness :
  ∃ evs w p, do_parts two_threads ∅ (create_new "j"%string "b"%string ""%string) = Some (evs, w, p) ∧
    increments evs = 3%N ∧ (increments evs ≤ 2 * (1 + 4 / PROGRESS_FLUSH_BYTES + 1 / PROGRESS_FLUSH_INTERVAL) + 1)%N.
Proof.
  destruct (do_parts two_threads ∅ (create_new "j"%string "b"%string ""%string)) as [[[evs w] p]|] eqn:E;
    [|vm_compute in E; discriminate E].
  exists evs, w, p. split; [reflexivity|]. split.
  - vm_compute in E. injection E as <- _ _. reflexivity.
  - refine (progress_events_are_bounded "j"%string "b"%string ""%string 7 {[0; 1]} two_threads evs w p _ _ E).
    + cbn. repeat split; lia.
    + unfold two_threads. repeat constructor; cbn [thread]; set_solver.
Defined.

End Progress.
