(* ===== verification/Logging.v ===== *)
(** * Command line and logging ([main.rs], [utils.rs])

    What the process decides for itself when it starts: the effective log level and
    whether backtraces are on ([Args]), and the logger that every log line goes
    through ([ChannelLogger]), which hands lines to the terminal and the log file and
    turns some of them into events for the clients. The loggers behind it are
    third-party: all that is used of them is the level below which they are silent. *)

From S2P Require Import Prelude.
From S2P Require Import RustStr.
From S2P Require Import Events.
From stdpp Require Import options.
Close Scope string_scope.

(** [log::Level], and [LevelFilter] with its [Off]. *)
Inductive Level := LError | LWarn | LInfo | LDebug | LTrace.
Definition level_rank (l : Level) : N :=
  match l with LError => 1 | LWarn => 2 | LInfo => 3 | LDebug => 4 | LTrace => 5 end.
Inductive LevelFilter := Off | AtMost (l : Level).
Definition filter_rank (f : LevelFilter) : N := match f with Off => 0 | AtMost l => level_rank l end.

(** ** The command line *)

(** [LogLevel] and its conversion to a filter. *)
Inductive LogLevel := ArgError | ArgWarn | ArgInfo | ArgDebug | ArgTrace.
Definition filter_of (l : LogLevel) : LevelFilter :=
  match l with
  | ArgError => AtMost LError | ArgWarn => AtMost LWarn | ArgInfo => AtMost LInfo
  | ArgDebug => AtMost LDebug | ArgTrace => AtMost LTrace
  end.

(** The command line once it is parsed; [None] is a path that is not Unicode. *)
Record Args := {
  db_path : option string;
  grpc_addr : string;
  log_level : LogLevel;
  verbose : N;
  log_file : string;
  no_log_file : bool;
  backtrace : bool;
  no_backtrace : bool;
}.
Definition with_verbosity (v : N) (a : Args) : Args :=
  {| db_path := db_path a; grpc_addr := grpc_addr a; log_level := log_level a; verbose := v; log_file := log_file a;
     no_log_file := no_log_file a; backtrace := backtrace a; no_backtrace := no_backtrace a |}.
Definition effective_log_level (a : Args) : LevelFilter :=
  if (verbose a =? 0)%N then filter_of (log_level a)
  else if (verbose a =? 1)%N then AtMost LDebug
  else AtMost LTrace.
Definition backtrace_enabled (a : Args) : bool := backtrace a && negb (no_backtrace a).

(** ** Priorities and targets *)

(** [utils::fix_level] *)
Definition fix_level (l : Level) : EventPriority :=
  match l with
  | LError => PError | LWarn => PWarning | LInfo => PInfo | LDebug => PDebug | LTrace => PDebug
  end.

Definition NOISY_TARGETS : list string :=
  ["h2"; "hyper"; "hyper_util"; "tonic"; "tower"; "tracing"; "rustls"]%string.
Definition is_noisy_target (target : string) : bool :=
  list_any (λ p, bool_decide (target = p) ||
                 match strip_prefix p target with Some rest => starts_with "::" rest | None => false end)
    NOISY_TARGETS.

(** ** The logger *)

Record LogRecord := { target : string; level : Level; args : string }.
(** [env!("CARGO_CRATE_NAME")] *)
Definition CRATE_NAME : string := "ipc".
Definition ours (r : LogRecord) : bool := starts_with CRATE_NAME (target r).

(** The combined logger behind the channel logger, all of one level. *)
Definition enabled (f : LevelFilter) (r : LogRecord) : bool := (level_rank (level r) <=? filter_rank f)%N.

(** [ChannelLogger::log]: whether the local loggers write the line, and the event. *)
Definition log (f : LevelFilter) (r : LogRecord) : bool * option Data :=
  if negb (enabled f r) then (false, None)
  else if negb (ours r) && (level_rank LInfo <? level_rank (level r))%N && is_noisy_target (target r)
  then (false, None)
  else if negb (ours r) && (level_rank LWarn <? level_rank (level r))%N then (true, None)
  else (true, Some (LogEvent (fix_level (level r)) (args r))).

(** ** Properties *)

Lemma enabled_error l r : level r = LError → enabled (filter_of l) r = true.
Proof. unfold enabled. intros ->. by destruct l. Qed.
Lemma effective_error a r : level r = LError → enabled (effective_log_level a) r = true.
Proof.
  intros Hl. unfold effective_log_level. repeat case_match; [by apply enabled_error| |];
    unfold enabled; by rewrite Hl.
Qed.

(** Which log lines reach whom. An event is a line that is written locally too, at
    the enabled level, and never a dependency's line below a warning; the program's own
    enabled lines always become events, debug and trace included; the lines of the
    noisy targets are dropped everywhere at debug and trace; and whatever the command
    line says, an error is written locally and becomes an event that is never dropped.
    More verbosity never hides a line. *)
Theorem log_lines_reach_clients a r :
  let f := effective_log_level a in
  (∀ e, (log f r).2 = Some e → (log f r).1 = true ∧ enabled f r = true ∧
        e = LogEvent (fix_level (level r)) (args r) ∧
        (ours r = true ∨ (level_rank (level r) ≤ level_rank LWarn)%N)) ∧
  (ours r = true → enabled f r = true → is_Some (log f r).2) ∧
  (ours r = false → is_noisy_target (target r) = true → (level_rank LInfo < level_rank (level r))%N →
   log f r = (false, None)) ∧
  (level r = LError → (log f r).1 = true ∧ ∃ e, (log f r).2 = Some e ∧ is_critical e = true) ∧
  (∀ v, (1 ≤ verbose a ≤ v)%N →
   enabled f r = true → log (effective_log_level (with_verbosity v a)) r = log f r).
Proof.
  set (f := effective_log_level a). cbn zeta. unfold log. split_and!.
  - intros e. repeat case_match; cbn; try done. intros [= <-].
    destruct (enabled f r); [|done]. destruct (ours r) eqn:Ho; cbn in *; [by split_and!; auto|].
    split_and!; try done. right. match goal with H : (_ <? _)%N = false |- _ => by apply N.ltb_ge in H end.
  - intros Ho He. by rewrite He, Ho.
  - intros Ho Hn Hl%N.ltb_lt. rewrite Ho, Hn, Hl. by destruct (enabled f r).
  - intros Hl. unfold f. rewrite (effective_error a r Hl), Hl. cbn. rewrite !andb_false_r. cbn.
    split; [done|]. by eexists.
  - intros v Hv He. assert (Hm : enabled (effective_log_level (with_verbosity v a)) r = true).
    { unfold f, effective_log_level, enabled in *. cbn. repeat case_match; rewrite ?N.eqb_eq, ?N.eqb_neq in *; try lia;
        destruct (level r); done. }
    by rewrite Hm, He.
Qed.

(** Examples: a dependency's debug line stays local, a noisy one is dropped, and a
    dependency whose name starts like the crate's is taken for the program itself. *)
Example dependency_debug_stays_local :
  log (AtMost LTrace) {| target := "opendal::services"; level := LDebug; args := "" |} = (true, None).
Proof. reflexivity. Qed.
Example noisy_debug_dropped :
  log (AtMost LTrace) {| target := "h2::codec"; level := LDebug; args := "" |} = (false, None) ∧
  log (AtMost LTrace) {| target := "h2::codec"; level := LInfo; args := "" |} = (true, None) ∧
  is_noisy_target "h2o" = false.
Proof. repeat split; reflexivity. Qed.
Lemma dependency_taken_for_ours :
  log (AtMost LTrace) {| target := "ipconfig::adapter"; level := LTrace; args := "row" |}
  = (true, Some (LogEvent PDebug "row"%string)).
Proof. reflexivity. Qed.
