(* ===== verification/Jobs.v ===== *)
(** * Jobs ([server.rs])

    The registry of background jobs: [register_job], the body's end ([spawn_job],
    [spawn_async_job]), [finish_job], [cancel_job] and [get_job]. A request and the tail
    of a job run in different tasks, so [finish_job] and [get_job] are broken into the
    accesses another task can come between (each is one operation on a concurrent map,
    a cache or the event channel), and [step] interleaves any number of jobs, requests,
    cancellations, cache expirations and the other users of the event channel. *)

From S2P Require Import Prelude.
From S2P Require Import RustStr.
From S2P Require Import Errors.
From S2P Require Import Points.
From S2P Require Import Events.
From S2P Require Import Logging.
From stdpp Require Import options.
Close Scope string_scope.

Section Jobs.
Context `{UuidLib}.
Implicit Types (id : Uuid).

(** A running job's [CancelToken], owner and [JobProgress]. *)
Record JobHandle := { cancelled : bool; owner : string; done : N; total : N }.
Record FinishedJob := { success : bool; error : string; f_done : N; f_total : N }.

(** What a job's closure ends with, and what [spawn_job] and [spawn_async_job] make of
    it: a panic ends the job like an error does. *)
Inductive Outcome := Returned (r : result string (option string)) | Panicked (e : string).
Definition blocking_result (o : Outcome) : result string (option string) :=
  match o with Returned r => r | Panicked _ => Err "job panicked"%string end.
Definition async_result (o : Outcome) : result string (option string) :=
  match o with Returned r => r | Panicked e => Err ("job panicked: " +:+ e)%string end.

(** How far the task of a job is: in its body, or in [finish_job] after each access. *)
Inductive Stage :=
| Body
| Ended (r : result string (option string))
| Counted (r : result string (option string)) (done total : N)
| Recorded (r : result string (option string))
| Logged (e : string)
| Messaged (e : string)
| Announced.

(** [JobStatusResponse] *)
Inductive JobState := JobRunning | JobSucceeded | JobFailed.
Record JobStatus := { state : JobState; done_bytes : N; total_bytes : N; js_error : string }.

(** A [get_job] request: what it asks for, and, for the statements, whether the job was
    registered when it came in. *)
Inductive Request := Asked (id : Uuid) (known : bool) | Missed (id : Uuid) (known : bool).

Record Sys := {
  jobs : gmap Uuid JobHandle;
  finished_jobs : gmap Uuid FinishedJob;
  bus : Bus.t;
  tasks : gmap Uuid Stage;
  requests : gmap nat Request;
  (** History, for the statements only. *)
  registered : gset Uuid;
  results : gmap Uuid (result string (option string));
  expired : gset Uuid;
  answers : list (Uuid * bool * option JobStatus);
}.
Implicit Types (s : Sys).

Definition set_jobs j s : Sys :=
  {| jobs := j; finished_jobs := finished_jobs s; bus := bus s; tasks := tasks s; requests := requests s;
     registered := registered s; results := results s; expired := expired s; answers := answers s |}.
Definition set_finished f s : Sys :=
  {| jobs := jobs s; finished_jobs := f; bus := bus s; tasks := tasks s; requests := requests s;
     registered := registered s; results := results s; expired := expired s; answers := answers s |}.
Definition set_bus b s : Sys :=
  {| jobs := jobs s; finished_jobs := finished_jobs s; bus := b; tasks := tasks s; requests := requests s;
     registered := registered s; results := results s; expired := expired s; answers := answers s |}.
Definition set_tasks t s : Sys :=
  {| jobs := jobs s; finished_jobs := finished_jobs s; bus := bus s; tasks := t; requests := requests s;
     registered := registered s; results := results s; expired := expired s; answers := answers s |}.
Definition set_requests q s : Sys :=
  {| jobs := jobs s; finished_jobs := finished_jobs s; bus := bus s; tasks := tasks s; requests := q;
     registered := registered s; results := results s; expired := expired s; answers := answers s |}.
Definition note_registered id s : Sys :=
  {| jobs := jobs s; finished_jobs := finished_jobs s; bus := bus s; tasks := tasks s; requests := requests s;
     registered := {[id]} ∪ registered s; results := results s; expired := expired s; answers := answers s |}.
Definition note_result id r s : Sys :=
  {| jobs := jobs s; finished_jobs := finished_jobs s; bus := bus s; tasks := tasks s; requests := requests s;
     registered := registered s; results := <[id := r]> (results s); expired := expired s; answers := answers s |}.
Definition note_expired id s : Sys :=
  {| jobs := jobs s; finished_jobs := finished_jobs s; bus := bus s; tasks := tasks s; requests := requests s;
     registered := registered s; results := results s; expired := {[id]} ∪ expired s; answers := answers s |}.
Definition note_answer a s : Sys :=
  {| jobs := jobs s; finished_jobs := finished_jobs s; bus := bus s; tasks := tasks s; requests := requests s;
     registered := registered s; results := results s; expired := expired s; answers := answers s ++ [a] |}.

(** ** Operations *)

Definition register_job (id : Uuid) (user : string) s : Sys :=
  set_jobs (<[id := {| cancelled := false; owner := user; done := 0; total := 0 |}]> (jobs s)) s.

Definition result_error (r : result string (option string)) : option string :=
  match r with Ok _ => None | Err e => Some e end.
Definition result_snapshot (r : result string (option string)) : option string :=
  match r with Ok snapshot => snapshot | Err _ => None end.
Definition finished_of (r : result string (option string)) (done total : N) : FinishedJob :=
  {| success := is_ok r; error := opt_or ""%string (result_error r); f_done := done; f_total := total |}.
Definition finished_event (id : Uuid) (r : result string (option string)) : Data :=
  JobFinished (uuid_to_string id) (is_ok r) (result_error r) (result_snapshot r).
(** The line [error!] logs; at the error level it is always an event. *)
Definition failed_line (id : Uuid) (e : string) : Data :=
  LogEvent (fix_level LError) ("job " +:+ uuid_to_string id +:+ " failed: " +:+ e)%string.
Definition failed_message (id : Uuid) (e : string) : Data :=
  JobMessage (uuid_to_string id) PError e.

(** A send on the channel: it has to wait while the channel is full. *)
Definition announce (e : Data) s : option Sys := (λ rb, set_bus rb.2 s) <$> Bus.send e (bus s).

(** [finish_job], one access at a time; [None] waits for the channel. The last access
    removes the job and ends the task. *)
Definition finish_step (id : Uuid) (st : Stage) s : option Sys :=
  let stage st s := set_tasks (<[id := st]> (tasks s)) s in
  match st with
  | Body => None
  | Ended r =>
      let '(done, total) := opt_or (0%N, 0%N) ((λ j, (done j, total j)) <$> jobs s !! id) in
      Some (stage (Counted r done total) s)
  | Counted r done total =>
      Some (stage (Recorded r) (set_finished (<[id := finished_of r done total]> (finished_jobs s)) s))
  | Recorded (Ok snapshot) => stage Announced <$> announce (finished_event id (Ok snapshot)) s
  | Recorded (Err e) => stage (Logged e) <$> announce (failed_line id e) s
  | Logged e => stage (Messaged e) <$> announce (failed_message id e) s
  | Messaged e => stage Announced <$> announce (finished_event id (Err e)) s
  | Announced => Some (set_tasks (delete id (tasks s)) (set_jobs (delete id (jobs s)) s))
  end.

(** The status also quotes uuid's own description of what is wrong with the id. *)
Definition parse_job_id (arg : string) : result Status Uuid :=
  ok_or (St.invalid_argument "bad job_id"%string) (parse_str arg).

Definition cancel_token (j : JobHandle) : JobHandle :=
  {| cancelled := true; owner := owner j; done := done j; total := total j |}.
Definition cancel_job (arg : string) : M Sys Status string := λ s,
  match parse_job_id arg with
  | Err e => (Err e, s)
  | Ok id =>
      match jobs s !! id with
      | Some j => (Ok arg, set_jobs (<[id := cancel_token j]> (jobs s)) s)
      | None => (Err (St.not_found ("job '" +:+ arg +:+ "' not found or already finished")%string), s)
      end
  end.

(** The two lookups of [get_job]. *)
Definition running_status s id : option JobStatus :=
  (λ j, {| state := JobRunning; done_bytes := done j; total_bytes := total j; js_error := "" |}) <$> jobs s !! id.
Definition finished_status s id : option JobStatus :=
  (λ f, {| state := if success f then JobSucceeded else JobFailed; done_bytes := f_done f;
           total_bytes := f_total f; js_error := error f |}) <$> finished_jobs s !! id.
Definition job_not_found (arg : string) : Status :=
  St.not_found ("job '" +:+ arg +:+ "' not found (unknown or result expired)")%string.
(** [get_job] when nothing comes between its lookups. *)
Definition get_job (arg : string) s : result Status JobStatus :=
  id ← parse_job_id arg;
  match running_status s id with
  | Some st => Ok st
  | None => ok_or (job_not_found arg) (finished_status s id)
  end.
Definition get_job_step (n : nat) (q : Request) s : Sys :=
  match q with
  | Asked id known =>
      match running_status s id with
      | Some st => note_answer (id, known, Some st) (set_requests (delete n (requests s)) s)
      | None => set_requests (<[n := Missed id known]> (requests s)) s
      end
  | Missed id known => note_answer (id, known, finished_status s id) (set_requests (delete n (requests s)) s)
  end.

(** [shutdown]: every running job is told to stop. *)
Definition shutdown_jobs s : Sys := set_jobs (cancel_token <$> jobs s) s.

(** ** The system *)

(** Another producer of events, the bridge or a client's poll. *)
Definition is_job_finished (e : Data) : bool := match e with JobFinished _ _ _ _ => true | _ => false end.
Inductive bus_step : Bus.t → Bus.t → Prop :=
| bus_send b e r b' : is_job_finished e = false → Bus.send e b = Some (r, b') → bus_step b b'
| bus_recv b : bus_step b (Bus.recv b)
| bus_try b : bus_step b (Bus.bridge_try b)
| bus_poll b : bus_step b (Bus.poll b).2.

Inductive step : Sys → Sys → Prop :=
| step_register s id user :
    (** a fresh version-4 id *)
    id ∉ registered s →
    step s (note_registered id (set_tasks (<[id := Body]> (tasks s)) (register_job id user s)))
| step_progress s id j d t :
    tasks s !! id = Some Body → jobs s !! id = Some j →
    step s (set_jobs (<[id := {| cancelled := cancelled j; owner := owner j; done := d; total := t |}]> (jobs s)) s)
| step_end s id o (async : bool) :
    tasks s !! id = Some Body →
    let r := if async then async_result o else blocking_result o in
    step s (note_result id r (set_tasks (<[id := Ended r]> (tasks s)) s))
| step_finish s id st s' :
    tasks s !! id = Some st → finish_step id st s = Some s' → step s s'
| step_cancel s arg : step s (cancel_job arg s).2
| step_shutdown s : step s (shutdown_jobs s)
| step_ask s n arg id :
    requests s !! n = None → parse_job_id arg = Ok id →
    step s (set_requests (<[n := Asked id (bool_decide (id ∈ registered s))]> (requests s)) s)
| step_get s n q :
    requests s !! n = Some q → step s (get_job_step n q s)
| step_expire s id :
    is_Some (finished_jobs s !! id) →
    step s (note_expired id (set_finished (delete id (finished_jobs s)) s))
| step_bus s b :
    bus_step (bus s) b → step s (set_bus b s).

Definition initial : Sys :=
  {| jobs := ∅; finished_jobs := ∅; bus := Bus.empty; tasks := ∅; requests := ∅;
     registered := ∅; results := ∅; expired := ∅; answers := [] |}.

(** ** The life of a job *)

(** The [JobFinished] events of a job. *)
Definition ends_of (id : Uuid) (l : list Data) : list Data :=
  List.filter (λ e, match e with JobFinished j _ _ _ => bool_decide (j = uuid_to_string id) | _ => false end) l.
#[local] Arguments ends_of : simpl never.

(** A finished job has its own result on record until it expires. *)
Definition on_record (r : result string (option string)) (f : option FinishedJob) (gone : bool) : Prop :=
  (∀ f', f = Some f' → ∃ d t, f' = finished_of r d t) ∧ (f = None → gone = true).

(** What is known of a job from what the maps and the channel say about it. *)
Definition life_ok (id : Uuid) (job : option JobHandle) (task : option Stage) (fin : option FinishedJob)
    (res : option (result string (option string))) (known gone : bool) (ends : list Data) : Prop :=
  match task with
  | None => job = None ∧
      (if known then ∃ r, res = Some r ∧ on_record r fin gone ∧ ends = [finished_event id r]
       else res = None ∧ fin = None ∧ ends = [])
  | Some st => is_Some job ∧ known = true ∧
      match st with
      | Body => res = None ∧ fin = None ∧ ends = []
      | Ended r | Counted r _ _ => res = Some r ∧ fin = None ∧ ends = []
      | Recorded r => res = Some r ∧ on_record r fin gone ∧ ends = []
      | Logged e | Messaged e => res = Some (Err e) ∧ on_record (Err e) fin gone ∧ ends = []
      | Announced => ∃ r, res = Some r ∧ on_record r fin gone ∧ ends = [finished_event id r]
      end
  end.
Definition life s (id : Uuid) : Prop :=
  life_ok id (jobs s !! id) (tasks s !! id) (finished_jobs s !! id) (results s !! id)
    (bool_decide (id ∈ registered s)) (bool_decide (id ∈ expired s)) (ends_of id (Bus.sent (bus s))).

(** A request that missed a registered job came too late for it. *)
Definition request_ok s (q : Request) : Prop :=
  match q with
  | Asked id known => known = true → id ∈ registered s
  | Missed id known => known = true → id ∈ registered s ∧ tasks s !! id = None
  end.
Definition answer_ok s (a : Uuid * bool * option JobStatus) : Prop :=
  let '(id, known, st) := a in
  match st with
  | None => known = true → id ∈ expired s
  | Some st => state st = JobRunning ∨
      ∃ r, results s !! id = Some r ∧ js_error st = opt_or ""%string (result_error r) ∧
           state st = if is_ok r then JobSucceeded else JobFailed
  end.
Definition invariant s : Prop :=
  (∀ id, life s id) ∧ map_Forall (λ _, request_ok s) (requests s) ∧ Forall (answer_ok s) (answers s).

Lemma ends_of_app id l1 l2 : ends_of id (l1 ++ l2) = ends_of id l1 ++ ends_of id l2.
Proof. apply List.filter_app. Qed.
Lemma ends_of_other id e : is_job_finished e = false → ends_of id [e] = [].
Proof. by destruct e. Qed.
Lemma ends_of_event `{!UuidLaws} id id' r :
  ends_of id [finished_event id' r] = if bool_decide (id' = id) then [finished_event id' r] else [].
Proof.
  unfold ends_of, finished_event. cbn [List.filter].
  destruct (bool_decide_reflect (uuid_to_string id' = uuid_to_string id)) as [Heq|Hne].
  - apply to_string_inj in Heq as ->. by rewrite bool_decide_true.
  - rewrite bool_decide_false; [done|]. by intros ->.
Qed.

Lemma send_sent e b r b' :
  Bus.send e b = Some (r, b') → Bus.sent b' = Bus.sent b ++ [e] ∨ Bus.sent b' = Bus.sent b ∧ is_critical e = false.
Proof.
  unfold Bus.send. case_match; [intros [= _ <-]; by left|].
  destruct (is_critical e) eqn:He; [done|]. intros [= _ <-]. by right.
Qed.
Lemma bus_step_ends b b' id : bus_step b b' → ends_of id (Bus.sent b') = ends_of id (Bus.sent b).
Proof.
  intros [b0 e r b1 He [Hs|[-> _]]%send_sent|b0|b0|b0]; try done.
  - rewrite Hs, ends_of_app, ends_of_other, app_nil_r; done.
  - unfold Bus.recv. repeat case_match; done.
  - unfold Bus.bridge_try. repeat case_match; done.
Qed.
Lemma announce_inv e s s' :
  announce e s = Some s' → is_critical e = true →
  ∃ b, s' = set_bus b s ∧ Bus.sent b = Bus.sent (bus s) ++ [e].
Proof.
  unfold announce. intros ([r b] & Hs & ->)%fmap_Some Hc. exists b. split; [done|].
  apply send_sent in Hs as [?|[_ ?]]; [done|congruence].
Qed.

(** *** Every step keeps the invariant *)

(** What requests and answers rely on only grows. *)
Definition later s s' : Prop :=
  registered s ⊆ registered s' ∧ expired s ⊆ expired s' ∧
  (∀ id r, results s !! id = Some r → results s' !! id = Some r) ∧
  (∀ id, id ∈ registered s → tasks s !! id = None → tasks s' !! id = None).

Lemma request_later s s' q : later s s' → request_ok s q → request_ok s' q.
Proof. intros (Hr & _ & _ & Ht). destruct q; cbn; [set_solver|]. intros Hq Hk. destruct (Hq Hk). set_solver. Qed.
Lemma answer_later s s' a : later s s' → answer_ok s a → answer_ok s' a.
Proof.
  intros (_ & He & Hr & _). destruct a as [[id known] [st|]]; cbn; [|set_solver].
  intros [?|(r & ? & ?)]; [by left|right; eauto].
Qed.
Lemma kept s s' :
  later s s' → requests s' = requests s → answers s' = answers s → invariant s → (∀ id, life s' id) → invariant s'.
Proof.
  intros Hl Hq Ha (_ & Hreq & Hans) Hlife. split_and!; [done| |].
  - rewrite Hq. eapply map_Forall_impl; [exact Hreq|]. intros. by eapply request_later.
  - rewrite Ha. eapply Forall_impl; [exact Hans|]. intros. by eapply answer_later.
Qed.

Lemma life_same s s' id :
  jobs s' !! id = jobs s !! id → tasks s' !! id = tasks s !! id →
  finished_jobs s' !! id = finished_jobs s !! id → results s' !! id = results s !! id →
  (id ∈ registered s' ↔ id ∈ registered s) → (id ∈ expired s' ↔ id ∈ expired s) →
  ends_of id (Bus.sent (bus s')) = ends_of id (Bus.sent (bus s)) →
  life s id → life s' id.
Proof.
  intros Hj Ht Hf Hr Hk He Hs. unfold life.
  by rewrite Hj, Ht, Hf, Hr, (bool_decide_ext _ _ Hk), (bool_decide_ext _ _ He), Hs.
Qed.
(** A step changes one job: it is enough to look at that one. *)
#[local] Ltac other_job :=
  match goal with
  | Hl : ∀ i, life ?s i |- life _ ?j =>
      apply (life_same s); cbn; rewrite ?lookup_insert_ne, ?lookup_delete_ne by done; [done|done|done|done|set_solver|set_solver| |apply Hl]
  end.

Lemma register_keeps s id user :
  id ∉ registered s → invariant s →
  invariant (note_registered id (set_tasks (<[id := Body]> (tasks s)) (register_job id user s))).
Proof.
  intros Hid Hinv. pose proof Hinv as (Hl & _ & _). apply (kept s); try done.
  - split_and!; [set_solver|done|done|]. cbn. intros i Hi Ht.
    rewrite lookup_insert_ne; [done|]. by intros ->.
  - intros i. destruct (decide (i = id)) as [->|Hne]; [|other_job; done].
    specialize (Hl id). unfold life, life_ok in *. cbn. rewrite !lookup_insert_eq.
    rewrite (bool_decide_false (id ∈ registered s)) in Hl by done. rewrite bool_decide_true by set_solver.
    destruct (tasks s !! id); [by destruct Hl as (_ & ? & _)|]. destruct Hl as (_ & ? & ? & ?).
    split_and!; done.
Qed.

Lemma progress_keeps s id f j :
  jobs s !! id = Some j → invariant s → invariant (set_jobs (<[id := f]> (jobs s)) s).
Proof.
  intros Hj Hinv. pose proof Hinv as (Hl & _ & _). apply (kept s); try done.
  intros i. destruct (decide (i = id)) as [->|Hne]; [|other_job; done].
  specialize (Hl id). unfold life, life_ok in *. cbn. rewrite Hj in Hl. rewrite lookup_insert_eq.
  destruct (tasks s !! id); [|by destruct Hl]. destruct Hl as (_ & ? & ?). done.
Qed.
Lemma shutdown_jobs_keeps s : invariant s → invariant (shutdown_jobs s).
Proof.
  intros Hinv. pose proof Hinv as (Hl & _ & _). apply (kept s); try done.
  intros i. specialize (Hl i). unfold life, life_ok in *. cbn. rewrite lookup_fmap.
  destruct (tasks s !! i); destruct (jobs s !! i); cbn in *; destruct_and?; try done.
Qed.

Lemma end_keeps s id r :
  tasks s !! id = Some Body → invariant s →
  invariant (note_result id r (set_tasks (<[id := Ended r]> (tasks s)) s)).
Proof.
  intros Ht Hinv. pose proof Hinv as (Hl & _ & _).
  assert (Hid := Hl id). unfold life, life_ok in Hid. rewrite Ht in Hid.
  destruct Hid as (Hj & Hk & Hr & Hf & He). apply (kept s); try done.
  - split_and!; try done; cbn.
    + intros i r' Hi. rewrite lookup_insert_ne; [done|]. intros <-. congruence.
    + intros i _ Hi. rewrite lookup_insert_ne; [done|]. intros <-. congruence.
  - intros i. destruct (decide (i = id)) as [->|Hne]; [|other_job; done].
    unfold life, life_ok. cbn. rewrite !lookup_insert_eq. by split_and!.
Qed.

Lemma on_record_new r d t gone : on_record r (Some (finished_of r d t)) gone.
Proof. split; [|done]. intros f' [= <-]. eauto. Qed.
Lemma on_record_gone r f gone : on_record r f gone → on_record r None true.
Proof. by split. Qed.

(** A stage of [finish_job] that ends in one more event of this job. *)
Lemma stage_keeps s id st st' b l :
  tasks s !! id = Some st → Bus.sent b = Bus.sent (bus s) ++ l →
  (∀ i, i ≠ id → ends_of i l = []) →
  (∀ job fin res gone, life_ok id job (Some st) fin res true gone (ends_of id (Bus.sent (bus s))) →
     life_ok id job (Some st') fin res true gone (ends_of id (Bus.sent (bus s)) ++ ends_of id l)) →
  invariant s → invariant (set_tasks (<[id := st']> (tasks s)) (set_bus b s)).
Proof.
  intros Ht Hb Hl Hok Hinv. pose proof Hinv as (Hlife & _ & _). apply (kept s); try done.
  - split_and!; try done. cbn. intros i _ Hi. rewrite lookup_insert_ne; [done|]. intros <-. congruence.
  - intros i. destruct (decide (i = id)) as [->|Hne].
    + specialize (Hlife id). unfold life in *. cbn. rewrite lookup_insert_eq, Hb, ends_of_app.
      rewrite Ht in Hlife. assert (Hk : bool_decide (id ∈ registered s) = true) by apply Hlife.
      rewrite Hk in *. by apply Hok.
    + other_job. rewrite Hb, ends_of_app, Hl, app_nil_r; done.
Qed.

Lemma finish_keeps `{!UuidLaws} s id st s' :
  tasks s !! id = Some st → finish_step id st s = Some s' → invariant s → invariant s'.
Proof.
  intros Ht Hs Hinv. pose proof Hinv as (Hl & _ & _). assert (Hid := Hl id). unfold life, life_ok in Hid.
  rewrite Ht in Hid. destruct Hid as ([j Hj] & Hk & Hst).
  assert (Hoth : ∀ e i, is_job_finished e = false → ends_of i [e] = []) by (intros; by apply ends_of_other).
  assert (Hev : ∀ r i, i ≠ id → ends_of i [finished_event id r] = []).
  { intros r i Hi. by rewrite ends_of_event, bool_decide_false. }
  assert (Hself : ∀ r, ends_of id [finished_event id r] = [finished_event id r]).
  { intros r. by rewrite ends_of_event, bool_decide_true. }
  destruct st as [|r|r d t|[sn|e]|e|e|]; cbn in Hs.
  - done.
  - rewrite Hj in Hs. cbn in Hs. injection Hs as <-.
    apply (stage_keeps s id (Ended r) (Counted r (done j) (total j)) (bus s) []); try done; [by rewrite app_nil_r|].
    intros. by rewrite app_nil_r.
  - injection Hs as <-. apply (kept s); try done.
    + split_and!; try done. cbn. intros i _ Hi. rewrite lookup_insert_ne; [done|]. intros <-. congruence.
    + intros i. destruct (decide (i = id)) as [->|Hne]; [|other_job; done].
      destruct Hst as (Hr & Hf & He). unfold life, life_ok. cbn. rewrite !lookup_insert_eq, Hj.
      split_and!; try done. apply on_record_new.
  - apply fmap_Some in Hs as (s1 & Ha & ->). apply announce_inv in Ha as (b & -> & Hb); [|done].
    eapply (stage_keeps s id _ _ b); try done; [by apply Hev|].
    intros job fin res gone (? & ? & ? & ? & ->). rewrite Hself. split_and!; try done. by exists (Ok sn).
  - apply fmap_Some in Hs as (s1 & Ha & ->). apply announce_inv in Ha as (b & -> & Hb); [|done].
    eapply (stage_keeps s id _ _ b); try done.
    intros job fin res gone (? & ? & ? & ? & ->). rewrite Hoth by done. by split_and!.
  - apply fmap_Some in Hs as (s1 & Ha & ->). apply announce_inv in Ha as (b & -> & Hb); [|done].
    eapply (stage_keeps s id _ _ b); try done.
    intros job fin res gone (? & ? & ? & ? & ->). rewrite Hoth by done. by split_and!.
  - apply fmap_Some in Hs as (s1 & Ha & ->). apply announce_inv in Ha as (b & -> & Hb); [|done].
    eapply (stage_keeps s id _ _ b); try done; [by apply Hev|].
    intros job fin res gone (? & ? & ? & ? & ->). rewrite Hself. split_and!; try done. by exists (Err e).
  - injection Hs as <-. apply (kept s); try done.
    + split_and!; try done. cbn. intros i _ Hi. by apply lookup_delete_None; right.
    + intros i. destruct (decide (i = id)) as [->|Hne]; [|other_job; done].
      unfold life, life_ok. cbn. rewrite !lookup_delete_eq, Hk. split; [done|]. exact Hst.
Qed.

Lemma expired_ok id job task f res known gone ends :
  life_ok id job task (Some f) res known gone ends → life_ok id job task None res known true ends.
Proof.
  unfold life_ok. destruct task as [st|].
  - intros (Hj & Hk & Hst). split; [done|]. split; [done|].
    destruct st; destruct Hst as (Hr & Hst); try (by destruct Hst as [? _]); try (by exists Hr; destruct_and?).
    all: destruct Hst as [Hst ?]; split_and!; try done; by eapply on_record_gone.
  - intros (Hj & Hk). split; [done|]. destruct known; [|by destruct Hk as (_ & ? & _)].
    destruct Hk as (r & ? & Hrec & ?). exists r. split_and!; try done; by eapply on_record_gone.
Qed.
Lemma recorded_result id job task f res known gone ends :
  life_ok id job task (Some f) res known gone ends → ∃ r d t, res = Some r ∧ f = finished_of r d t.
Proof.
  assert (Hrec : ∀ r, on_record r (Some f) gone → ∃ d t, f = finished_of r d t).
  { intros r [Hf _]. by apply Hf. }
  unfold life_ok. destruct task as [st|].
  - intros (_ & _ & Hst). destruct st; destruct Hst as (Hr & Hst); try (by destruct Hst as [? _]).
    1-3: destruct Hst as [(d & t & ->)%Hrec _]; eauto.
    destruct Hst as (Hres & (d & t & ->)%Hrec & _). eauto.
  - intros (_ & Hk). destruct known; [|by destruct Hk as (_ & ? & _)].
    destruct Hk as (r & ? & (d & t & ->)%Hrec & _). eauto.
Qed.
Lemma get_keeps s n q : requests s !! n = Some q → invariant s → invariant (get_job_step n q s).
Proof.
  intros Hq Hinv. pose proof Hinv as (Hl & Hreq & Hans). assert (Hok := Hreq n q Hq). destruct q as [id known|id known]; cbn.
  - destruct (running_status s id) as [st|] eqn:Hrun.
    + split_and!; [done| |].
      * cbn. apply map_Forall_delete. exact Hreq.
      * cbn. apply Forall_app. split; [exact Hans|]. apply Forall_singleton. cbn. left.
        unfold running_status in Hrun. apply fmap_Some in Hrun as (? & _ & ->). done.
    + split_and!; [done| |done]. cbn. apply map_Forall_insert_2; [|exact Hreq]. cbn. intros Hk.
      specialize (Hok Hk). split; [done|]. specialize (Hl id). unfold life, life_ok in Hl.
      destruct (tasks s !! id); [|done]. destruct Hl as ([j Hj] & _). unfold running_status in Hrun.
      by rewrite Hj in Hrun.
  - split_and!; [done| |].
    + cbn. apply map_Forall_delete. exact Hreq.
    + cbn. apply Forall_app. split; [exact Hans|]. apply Forall_singleton. cbn in *. unfold finished_status.
      specialize (Hl id). unfold life, life_ok in Hl.
      destruct (finished_jobs s !! id) as [f|] eqn:Hf; cbn.
      * right. assert (∃ r d t, results s !! id = Some r ∧ f = finished_of r d t) as (r & d & t & Hr & ->).
        { by eapply recorded_result. }
        exists r. split_and!; try done; by destruct r.
      * intros Hk. destruct (Hok Hk) as [Hreg Ht]. rewrite Ht, bool_decide_true in Hl by done.
        destruct Hl as (_ & r & _ & [_ He] & _). specialize (He eq_refl). by apply bool_decide_eq_true in He.
Qed.

Lemma expire_keeps s id :
  is_Some (finished_jobs s !! id) → invariant s →
  invariant (note_expired id (set_finished (delete id (finished_jobs s)) s)).
Proof.
  intros [f Hf] Hinv. pose proof Hinv as (Hl & _ & _). apply (kept s); try done.
  - split_and!; try done. cbn. set_solver.
  - intros i. destruct (decide (i = id)) as [->|Hne].
    + specialize (Hl id). unfold life, life_ok in *. cbn. rewrite lookup_delete_eq.
      rewrite (bool_decide_true (id ∈ {[id]} ∪ _)) by set_solver. rewrite Hf in Hl.
      by eapply expired_ok.
    + other_job; done.
Qed.

Lemma step_keeps_invariant `{!UuidLaws} s s' : step s s' → invariant s → invariant s'.
Proof.
  destruct 1 as [s id user Hid|s id j d t _ Hj|s id o async Ht|s id st s' Ht Hs|s arg|s|s n arg id Hn _|s n q Hq|s id Hf|s b Hb]; intros Hinv.
  - by apply register_keeps.
  - by eapply progress_keeps.
  - by apply end_keeps.
  - by eapply finish_keeps.
  - unfold cancel_job. destruct (parse_job_id arg) as [id|]; [|done].
    destruct (jobs s !! id) as [j|] eqn:Hj; [|done]. by eapply progress_keeps.
  - by apply shutdown_jobs_keeps.
  - destruct Hinv as (Hl & Hreq & Hans). split_and!; [done| |done]. cbn. apply map_Forall_insert_2; [|exact Hreq].
    cbn. by intros ?%bool_decide_eq_true.
  - by apply get_keeps.
  - by apply expire_keeps.
  - pose proof Hinv as (Hl & _ & _). apply (kept s); try done. intros i.
    apply (life_same s); try done. by apply bus_step_ends.
Qed.
Lemma reachable_is_invariant `{!UuidLaws} s : rtc step initial s → invariant s.
Proof.
  intros Hr. assert (Hgen : ∀ a c, rtc step a c → invariant a → invariant c).
  { intros a c. induction 1; eauto using step_keeps_invariant. }
  apply (Hgen initial s Hr). split_and!; [|apply map_Forall_empty|constructor].
  intros id. split; [apply lookup_empty|]. by rewrite bool_decide_false by set_solver.
Qed.

(** *** Ending a job *)

(** The channel and the poll buffer emptied by the bridge and a polling client. *)
Definition flush_bus s : Sys := set_bus (Bus.drain (Bus.remaining (bus s)) (bus s)) s.
(** One access of the task of [id], with room in the channel. *)
Definition settle_round (id : Uuid) s : Sys :=
  let s := flush_bus s in
  match tasks s !! id with Some st => opt_or s (finish_step id st s) | None => s end.
Definition settle (n : nat) (id : Uuid) s : Sys := flush_bus (Nat.iter n (settle_round id) s).

Definition stages_left (t : option Stage) : nat :=
  match t with
  | None => 0
  | Some Announced => 1 | Some (Messaged _) | Some (Recorded (Ok _)) => 2 | Some (Logged _) => 3
  | Some (Recorded (Err _)) => 4 | Some (Counted _ _ _) => 5 | Some (Ended _) => 6 | Some Body => 7
  end.

Lemma drain_steps n s : rtc step s (set_bus (Bus.drain n (bus s)) s).
Proof.
  unfold Bus.drain. induction n as [|n IH].
  { destruct s. cbn. reflexivity. }
  etrans; [exact IH|]. change (Nat.iter (S n) Bus.cycle (bus s)) with (Bus.cycle (Nat.iter n Bus.cycle (bus s))).
  set (b := Nat.iter n Bus.cycle (bus s)). unfold Bus.cycle.
  apply rtc_l with (set_bus (Bus.poll b).2 s).
  { apply (step_bus (set_bus b s)). apply bus_poll. }
  apply rtc_l with (set_bus (Bus.bridge_try (Bus.poll b).2) s).
  { apply (step_bus (set_bus (Bus.poll b).2 s)). apply bus_try. }
  apply rtc_once. apply (step_bus (set_bus (Bus.bridge_try (Bus.poll b).2) s)). apply bus_recv.
Qed.
Lemma flush_bus_spec s :
  Bus.invariant (bus s) →
  rtc step s (flush_bus s) ∧ Bus.invariant (bus (flush_bus s)) ∧ Bus.sent (bus (flush_bus s)) = Bus.sent (bus s) ∧
  Bus.chan (bus (flush_bus s)) = [] ∧ Bus.crit (Bus.polled (bus (flush_bus s))) = Bus.crit (Bus.sent (bus s)).
Proof.
  intros Hinv. split; [apply drain_steps|]. unfold flush_bus. cbn [bus set_bus].
  destruct (Bus.drain_spec (Bus.remaining (bus s)) (bus s) Hinv) as (Hi & Hr & Hs).
  destruct (Bus.remaining_none (Bus.drain (Bus.remaining (bus s)) (bus s)) ltac:(lia)) as (Hc & Hp & Hb).
  set (b := Bus.drain _ _) in *. clearbody b. split_and!; try done.
  pose proof Hi as (_ & _ & Hcr & _). unfold Bus.held in Hcr.
  rewrite Hc, Hp, Hb in Hcr. cbn in Hcr. by rewrite app_nil_r, Hs in Hcr.
Qed.

Lemma announce_empty e s :
  Bus.chan (bus s) = [] → ∃ r b, Bus.send e (bus s) = Some (r, b) ∧ announce e s = Some (set_bus b s).
Proof.
  intros Hc. assert (0 < Bus.CAPACITY) by (unfold Bus.CAPACITY; lia).
  unfold announce, Bus.send. rewrite Hc. cbn [length].
  destruct (Nat.ltb_spec 0 Bus.CAPACITY); [|lia]. cbn. eauto.
Qed.

Lemma finish_step_left s id st :
  tasks s !! id = Some st → st ≠ Body → Bus.invariant (bus s) → Bus.chan (bus s) = [] →
  ∃ s', finish_step id st s = Some s' ∧ Bus.invariant (bus s') ∧ results s' = results s ∧
        tasks s' !! id ≠ Some Body ∧ stages_left (tasks s' !! id) < stages_left (Some st).
Proof.
  intros Ht Hst Hb Hc.
  assert (Hann : ∀ e st', st' ≠ Body → stages_left (Some st') < stages_left (Some st) →
    ∃ s', (λ s1, set_tasks (<[id := st']> (tasks s1)) s1) <$> announce e s = Some s' ∧ Bus.invariant (bus s') ∧
          results s' = results s ∧ tasks s' !! id ≠ Some Body ∧ stages_left (tasks s' !! id) < stages_left (Some st)).
  { intros e st' Hne Hlt. destruct (announce_empty e s Hc) as (r & b & Hs & ->). eexists. split; [done|]. cbn.
    rewrite lookup_insert_eq. split_and!; try done; [|naive_solver].
    eapply Bus.step_invariant; [by eapply Bus.step_send|done]. }
  destruct st as [|r|r d t|[sn|e]|e|e|]; cbn [finish_step]; try (apply Hann; [done|cbn; lia]).
  - done.
  - destruct (opt_or _ _) as [d t]. eexists. split; [done|]. cbn. rewrite lookup_insert_eq.
    split_and!; try done. cbn. lia.
  - eexists. split; [done|]. cbn. rewrite lookup_insert_eq. split_and!; try done. cbn. destruct r; lia.
  - eexists. split; [done|]. cbn. rewrite lookup_delete_eq. split_and!; try done. cbn. lia.
Qed.

Lemma settle_round_spec s id :
  Bus.invariant (bus s) → tasks s !! id ≠ Some Body →
  let s' := settle_round id s in
  rtc step s s' ∧ Bus.invariant (bus s') ∧ results s' = results s ∧
  tasks s' !! id ≠ Some Body ∧ stages_left (tasks s' !! id) ≤ stages_left (tasks s !! id) - 1.
Proof.
  intros Hb Hne s0. subst s0. destruct (flush_bus_spec s Hb) as (Hrtc & Hb' & _ & Hc & _). unfold settle_round.
  change (tasks (flush_bus s)) with (tasks s).
  destruct (tasks s !! id) as [st|] eqn:Ht.
  - destruct (finish_step_left (flush_bus s) id st) as (s' & Hs & Hi & Hr & Hn & Hl); try done; [naive_solver|].
    rewrite Hs. cbn [opt_or]. split_and!; try done; [|lia]. etrans; [exact Hrtc|]. apply rtc_once. by eapply step_finish.
  - change (tasks (flush_bus s)) with (tasks s). by rewrite Ht.
Qed.

Lemma settle_spec s id n :
  Bus.invariant (bus s) → tasks s !! id ≠ Some Body → stages_left (tasks s !! id) ≤ n →
  let s' := settle n id s in
  rtc step s s' ∧ tasks s' !! id = None ∧ results s' = results s ∧
  Bus.crit (Bus.polled (bus s')) = Bus.crit (Bus.sent (bus s')).
Proof.
  intros Hb Hne Hn. cbn. unfold settle.
  assert (Hgen : ∀ m, let s' := Nat.iter m (settle_round id) s in
    rtc step s s' ∧ Bus.invariant (bus s') ∧ results s' = results s ∧ tasks s' !! id ≠ Some Body ∧
    stages_left (tasks s' !! id) ≤ stages_left (tasks s !! id) - m).
  { induction m as [|m (IH1 & IH2 & IH3 & IH4 & IH5)]; [split_and!; try done; rewrite Nat.sub_0_r; apply Nat.le_refl|].
    change (Nat.iter (S m) (settle_round id) s) with (settle_round id (Nat.iter m (settle_round id) s)).
    destruct (settle_round_spec _ id IH2 IH4) as (H1 & H2 & H3 & H4 & H5).
    split_and!; try done; [by etrans|by rewrite H3|lia]. }
  destruct (Hgen n) as (H1 & H2 & H3 & H4 & H5). set (s1 := Nat.iter n (settle_round id) s) in *.
  destruct (flush_bus_spec s1 H2) as (Hrtc & _ & Hs & _ & Hcr). split_and!; [by etrans| |done|].
  - change (tasks (flush_bus s1)) with (tasks s1). destruct (tasks s1 !! id) as [st|]; [|done].
    exfalso. assert (stages_left (Some st) = 0) as Hz by lia. destruct st as [| | |[]| | |]; cbn in Hz; lia.
  - etrans; [exact Hcr|]. f_equal. by symmetry.
Qed.

Lemma ends_of_crit id l : ends_of id (Bus.crit l) = ends_of id l.
Proof.
  induction l as [|e l IH]; [done|]. rewrite Bus.crit_cons. unfold ends_of in *.
  destruct (is_critical e) eqn:He; cbn; [by rewrite IH|]. rewrite IH. by destruct e.
Qed.

Lemma bus_reachable s : rtc step initial s → Bus.invariant (bus s).
Proof.
  intros Hr. assert (Hstep : ∀ a c, step a c → Bus.invariant (bus a) → Bus.invariant (bus c)).
  { assert (Hann : ∀ e a c, announce e a = Some c → Bus.invariant (bus a) → Bus.invariant (bus c)).
    { intros e a c ([r b] & Hs & ->)%fmap_Some Hi. eapply Bus.step_invariant; [by eapply Bus.step_send|done]. }
    destruct 1 as [| | |a id st c Ht Hs|a arg| | |a n [] Hq| |a b Hb]; try done.
    - destruct st as [| | |[]| | |]; cbn in Hs; try done.
      + destruct (opt_or _ _). by injection Hs as <-.
      + by injection Hs as <-.
      + apply fmap_Some in Hs as (? & ? & ->). cbn. eauto.
      + apply fmap_Some in Hs as (? & ? & ->). cbn. eauto.
      + apply fmap_Some in Hs as (? & ? & ->). cbn. eauto.
      + apply fmap_Some in Hs as (? & ? & ->). cbn. eauto.
      + by injection Hs as <-.
    - unfold cancel_job. by repeat case_match.
    - cbn. by case_match.
    - intros Hi. cbn. eapply Bus.step_invariant; [|exact Hi]. destruct Hb; econstructor; done. }
  assert (Hgen : ∀ a c, rtc step a c → Bus.invariant (bus a) → Bus.invariant (bus c)).
  { intros a c. induction 1; eauto. }
  apply (Hgen initial s Hr). repeat split; cbn; try lia; reflexivity.
Qed.

Lemma announce_registered e a c : announce e a = Some c → registered c = registered a.
Proof. by intros ([r b] & _ & ->)%fmap_Some. Qed.
Lemma step_registered a c : step a c → registered a ⊆ registered c.
Proof.
  destruct 1 as [| | |a id st c Ht Hs|a arg| | |a n [] Hq| |]; try done.
  - cbn. set_solver.
  - destruct st as [| | |[]| | |]; cbn in Hs; try done; try (by injection Hs as <-);
      try (apply fmap_Some in Hs as (? & Ha%announce_registered & ->); cbn; by rewrite Ha).
    destruct (opt_or _ _). by injection Hs as <-.
  - unfold cancel_job. by repeat case_match.
  - cbn. by case_match.
Qed.

(** ** Properties *)

Lemma settle_ends `{!UuidLaws} s id st n :
  rtc step initial s → tasks s !! id = Some st → st ≠ Body → stages_left (Some st) ≤ n →
  rtc step s (settle n id s) ∧ tasks (settle n id s) !! id = None ∧ jobs (settle n id s) !! id = None ∧
  ∃ r, results s !! id = Some r ∧ ends_of id (Bus.polled (bus (settle n id s))) = [finished_event id r].
Proof.
  intros Hr Ht Hst Hn.
  destruct (settle_spec s id n) as (Hrtc & Htask & Hres & Hpol).
  { by apply bus_reachable. }
  { rewrite Ht. naive_solver. }
  { by rewrite Ht. }
  set (s' := settle n id s) in *. clearbody s'.
  assert (Hlife : life s' id) by (apply reachable_is_invariant; by etrans).
  assert (Hid : id ∈ registered s').
  { assert (Hin : life s id) by by apply reachable_is_invariant. unfold life, life_ok in Hin. rewrite Ht in Hin.
    destruct Hin as (_ & Hin%bool_decide_eq_true & _).
    assert (Hmono : ∀ a c, rtc step a c → registered a ⊆ registered c).
    { intros a c. induction 1 as [|a b c Hs _ IH]; [done|]. etrans; [|exact IH]. by apply step_registered. }
    exact (Hmono _ _ Hrtc id Hin). }
  unfold life, life_ok in Hlife.
  rewrite Htask, bool_decide_true in Hlife by done. destruct Hlife as (Hj & r & Hr' & _ & He).
  split_and!; [done|done|done|]. exists r. rewrite <-Hres. split; [done|].
  by rewrite <-ends_of_crit, Hpol, ends_of_crit.
Qed.

(** C15. No client ever loses sight of a job. However the tasks interleave: a request for
    a registered job answers [NotFound] only when the job's result has expired from the
    cache, never in the gap between the two lookups and the two writes of [finish_job]; an
    answer that the job is over carries the result its body returned (a panic is an
    error); a job that has left the registry has announced its end exactly once, with
    that result, and one that is still running has not announced anything. *)
Theorem jobs_are_always_visible `{!UuidLaws} s :
  rtc step initial s →
  (∀ id st, (id, true, st) ∈ answers s →
     match st with
     | None => id ∈ expired s
     | Some st => state st ≠ JobRunning →
         ∃ r, results s !! id = Some r ∧ js_error st = opt_or ""%string (result_error r) ∧
              state st = if is_ok r then JobSucceeded else JobFailed
     end) ∧
  (∀ id, id ∈ registered s → jobs s !! id = None →
     ∃ r, results s !! id = Some r ∧ ends_of id (Bus.sent (bus s)) = [finished_event id r]) ∧
  (∀ id, results s !! id = None → ends_of id (Bus.sent (bus s)) = []).
Proof.
  intros (Hl & _ & Hans)%reachable_is_invariant. split_and!.
  - intros id st Hin. rewrite Forall_forall in Hans. specialize (Hans _ Hin). cbn in Hans.
    destruct st as [st|]; [|by apply Hans]. destruct Hans as [?|?]; [done|done].
  - intros id Hreg Hj. specialize (Hl id). unfold life, life_ok in Hl. rewrite Hj, bool_decide_true in Hl by done.
    destruct (tasks s !! id); [by destruct Hl as ([? ?] & _)|]. destruct Hl as (_ & r & ? & _ & ?). eauto.
  - intros id Hr. specialize (Hl id). unfold life, life_ok in Hl. rewrite Hr in Hl.
    destruct (tasks s !! id) as [[]|]; destruct_and?; try done; [|by case_match; destruct_and?; naive_solver].
    by match goal with H : ∃ _, _ |- _ => destruct H as (? & ? & _) end.
Qed.

(** C33. A job whose body is over always gets out of the registry, and its clients hear of
    it. From every reachable state in which the body has returned, six more accesses of
    the job's own task, with the bridge and a polling client emptying the channel in
    between, end the task and remove the job, whatever else is on the channel; and when
    the channel is empty again the clients have received exactly one [JobFinished] for
    the job, carrying its result. *)
Theorem finished_jobs_are_announced `{!UuidLaws} s id st :
  rtc step initial s → tasks s !! id = Some st → st ≠ Body →
  let s' := settle 6 id s in
  rtc step s s' ∧ tasks s' !! id = None ∧ jobs s' !! id = None ∧
  ∃ r, results s !! id = Some r ∧ ends_of id (Bus.polled (bus s')) = [finished_event id r].
Proof.
  intros Hr Ht Hst s'. apply (settle_ends s id st 6 Hr Ht Hst).
  destruct st as [| | |[]| | |]; cbn; lia || done.
Qed.

End Jobs.

(** ** An example: a failing job, asked about while it ends *)

Module DemoJobs.
Import PlainUuid.
Open Scope string_scope.

Definition job1 : Uuid := id1.
Definition failure : result string (option string) := Err "disk full".
(** The request misses the job, the job ends, and only then comes the second lookup. *)
Definition started : Sys :=
  note_registered job1 (set_tasks (<[job1 := Body]> (tasks initial)) (register_job job1 "alice" initial)).
Definition asked : Sys :=
  set_requests (<[0%nat := Asked job1 (bool_decide (job1 ∈ registered started))]> (requests started)) started.
Definition ended : Sys := note_result job1 failure (set_tasks (<[job1 := Ended failure]> (tasks asked)) asked).
(** [n] accesses of the job's task. *)
Definition go (n : nat) (s : Sys) : Sys :=
  Nat.iter n (λ s, match tasks s !! job1 with Some st => opt_or s (finish_step job1 st s) | None => s end) s.
Definition look (s : Sys) : Sys :=
  match requests s !! 0%nat with Some q => get_job_step 0 q s | None => s end.

Lemma ended_reachable : rtc step initial ended.
Proof.
  apply rtc_l with started.
  { apply (step_register initial job1 "alice"). apply not_elem_of_empty. }
  apply rtc_l with asked; [|apply rtc_once].
  - apply (step_ask started 0%nat (uuid_to_string job1) job1); [reflexivity|].
    unfold parse_job_id. by rewrite parse_to_string.
  - apply (step_end asked job1 (Returned failure) false). reflexivity.
Qed.

Example answer_before_the_end : answers (look (go 5 ended)) =
  [(job1, true, Some {| state := JobRunning; done_bytes := 0; total_bytes := 0; js_error := "" |})].
Proof. reflexivity. Qed.
Example answer_after_the_end : answers (look (look (go 6 ended))) =
  [(job1, true, Some {| state := JobFailed; done_bytes := 0; total_bytes := 0; js_error := "disk full" |})].
Proof. reflexivity. Qed.

Lemma jobs_are_always_visible_witness :
  rtc step initial ended ∧ ends_of job1 (Bus.sent (bus initial)) = [] ∧
  (∀ id, results ended !! id = None → ends_of id (Bus.sent (bus ended)) = []).
Proof.
  split; [apply ended_reachable|]. split; [reflexivity|].
  exact (proj2 (proj2 (jobs_are_always_visible ended ended_reachable))).
Defined.

Lemma finished_jobs_are_announced_witness :
  rtc step initial ended ∧ tasks ended !! job1 = Some (Ended failure) ∧
  jobs (settle 6 job1 ended) !! job1 = None ∧
  ends_of job1 (Bus.polled (bus (settle 6 job1 ended))) = [finished_event job1 failure].
Proof.
  assert (Ht : tasks ended !! job1 = Some (Ended failure)) by reflexivity.
  split; [apply ended_reachable|]. split; [exact Ht|].
  destruct (finished_jobs_are_announced ended job1 _ ended_reachable Ht ltac:(discriminate))
    as (_ & _ & Hj & r & Hr & He). split; [exact Hj|].
  assert (Hres : results ended !! job1 = Some failure) by reflexivity.
  rewrite Hres in Hr. injection Hr as <-. exact He.
Defined.

End DemoJobs.
