(* ===== verification/Requests.v ===== *)
(** * File requests ([server.rs])

    The handlers that work on one path of a user's virtual file system: how a request
    is resolved to an operator and a path, which requests may change anything, probing
    a path that may be a file or a directory, and verified removal; and the report on
    the points of a user ([user_info]).

    They run on the server state of [SetVfs.v]; the operators' calls beyond those the
    layers need are the class [FileApi]. *)

From S2P Require Import Prelude.
From S2P Require Import RustStr.
From S2P Require Import Errors.
From S2P Require Import Paths.
From S2P Require Import QuotaCounter.
From S2P Require Import QuotaState.
From S2P Require Import Service.
From S2P Require Import Mounts.
From S2P Require Import Points.
From S2P Require Import LocalFs.
From S2P Require Import Users.
From S2P Require Import Db.
From S2P Require Import Store.
From S2P Require Import SetVfs.
From stdpp Require Import options.
Close Scope string_scope.

(** What the handlers call of opendal and the disk. [op_list_all] and [op_delete_all]
    are the recursive variants; [disk] is the file system the process sees, and
    [disk_dirs] bounds its directories: the fuel of a walk. *)
Class FileApi (O W : Type) `{OperatorApi O W} := {
  Time : Type;
  meta_is_dir : Meta → bool;
  meta_mtime : Meta → option Time;
  op_list_with : O → string → M W DalError (list (string * Meta));
  op_list_all : O → string → M W DalError (list (string * Meta));
  op_delete_all : O → string → M W DalError ();
  disk : W → FsApi;
  disk_dirs : W → nat;
}.

(** [ipc::FilePath] with its owner. *)
Record PathArg := { pa_user : string; pa_path : option FilePath }.

(** [ipc::VfsNode]; opendal knows one time only. *)
Record VfsNode {T} := { vn_name : string; node_is_dir : bool; node_bytes : N; node_time : option T }.
Arguments VfsNode : clear implicits.

(** ** Probing and removing *)

Section Operators.
Context {O W : Type} `{FileApi O W} `{Foreign}.
Implicit Types (op : O) (w : W).

Definition dal {A} (m : M W DalError A) : M W Status A := m_map_err map_dal m.
Definition is_not_found (e : DalError) : bool := bool_decide (err_kind e = Kind.NotFound).

(** [stat_any] *)
Definition stat_any op (path : string) : M W Status (Meta * string) :=
  r ← attempt (op_stat op path);
  match r with
  | Ok m => mret (m, if meta_is_dir m then fix_path path true else path)
  | Err e =>
    if is_not_found e then
      let d := fix_path path true in
      m ← dal (op_stat op d); mret (m, d)
    else throw (map_dal e)
  end.

(** [entries.sort_by(|a, b| b.path().len().cmp(&a.path().len()))]: stable. *)
Definition longer_first (a b : string * Meta) : Prop := String.length b.1 ≤ String.length a.1.
#[global] Instance longer_first_dec a b : Decision (longer_first a b).
Proof using Type. unfold longer_first. apply _. Defined.
Fixpoint delete_entries op (p : string) (entries : list (string * Meta)) : M W Status () :=
  match entries with
  | [] => mret ()
  | e :: entries =>
    if bool_decide (e.1 = p) then delete_entries op p entries
    else _ ← dal (op_delete op e.1); delete_entries op p entries
  end.

(** [remove_any] *)
Definition remove_any op (path : string) : M W Status () :=
  '(meta, p) ← stat_any op path;
  _ ← (if meta_is_dir meta then
         _ ← dal (op_delete_all op p);
         still ← attempt (op_stat op p);
         if is_ok still then
           entries ← dal (op_list_all op p);
           _ ← delete_entries op p (merge_sort longer_first entries);
           dal (op_delete op p)
         else mret ()
       else dal (op_delete op p));
  r ← attempt (op_stat op p);
  match r with
  | Ok _ => throw (St.internal ("delete of '" +:+ p +:+ "' reported success but it still exists")%string)
  | Err e => if is_not_found e then mret () else throw (map_dal e)
  end.

Definition node_of (path : string) (m : Meta) : VfsNode Time :=
  {| vn_name := Users.node_name path; node_is_dir := meta_is_dir m; node_bytes := meta_length m;
     node_time := meta_mtime m |}.
(** [entry_to_node] *)
Definition entry_to_node (e : string * Meta) : VfsNode Time := node_of e.1 e.2.

(** The probes of [vfs_stat] and [vfs_exists]. *)
Definition stat_either op (file_path : string) : M W Status Meta :=
  r ← attempt (op_stat op file_path);
  match r with
  | Ok m => mret m
  | Err e => if is_not_found e then dal (op_stat op (fix_path file_path true)) else throw (map_dal e)
  end.
Definition exists_either op (file_path : string) : M W Status bool :=
  r ← attempt (op_stat op file_path);
  match r with
  | Ok _ => mret true
  | Err e =>
    if is_not_found e then
      r2 ← attempt (op_stat op (fix_path file_path true));
      match r2 with
      | Ok _ => mret true
      | Err e2 => if is_not_found e2 then mret false else throw (map_dal e2)
      end
    else throw (map_dal e)
  end.

(** [dir_size] of a point's root, with fuel for every directory there is. *)
Definition walk_unfinished : IoError := {| io_kind := IoKind.OtherIo; io_text := "" |}.
Definition disk_usage (root : string) w : result IoError N :=
  opt_or (Err walk_unfinished) (dir_size (H := disk w) (S (disk_dirs w)) root).

End Operators.

(** ** The handlers *)

Section Handlers.
Context {O W : Type} `{OA : OperatorApi O W} `{FA : !FileApi O W} `{!StoreLib O W} `{JL : JsonLib} `{Foreign}.
Notation Server := (Server (O := O) (W := W)).
Implicit Types (y : Server) (a : PathArg).

Definition on_disk {A} (m : M W Status A) : M Server Status A := in_storage (on_world m).

(** [GrpcServer::get_user] *)
Definition get_user (n : string) : M Server Status VfsUser := m_map_err map_vfs (in_users (Db.get_user n)).

(** [check_point_loaded] *)
Definition check_point_loaded (u : VfsUser) (vfs_path : string) y : result Status () :=
  let parts := splitn 3 slash (trim_start_matches slash vfs_path) in
  let root := opt_or ""%string (parts !! 0) in
  let n := opt_or ""%string (parts !! 1) in
  if negb (bool_decide (root = POINTS_ROOT)) && negb (bool_decide (root = REPOS_ROOT)) then Ok ()
  else
    match list_find_first (λ p, bool_decide (name p = n) && bool_decide (is_repo p = bool_decide (root = REPOS_ROOT)))
            (points u) with
    | Some p =>
      match point_health (pt_id p) (storage y) with
      | Some (Failed e) =>
        Err (St.failed_precondition ("point '" +:+ name p +:+ "' failed to load: " +:+ e)%string)
      | _ => Ok ()
      end
    | None => Ok ()
    end.

(** [get_operator] *)
Definition get_operator a (is_dir : bool) : M Server Status (O * string) :=
  user ← get_user (pa_user a);
  vfs_path ← lift (resolve_file_path user (pa_path a));
  op ← m_map_err map_vfs (in_storage (Store.get_vfs user));
  y ← gets id;
  _ ← lift (check_point_loaded user vfs_path y);
  mret (op, fix_path vfs_path is_dir).

(** [require_user_write] *)
Definition require_user_write a : M Server Status () :=
  user ← get_user (pa_user a);
  vfs_path ← lift (resolve_file_path user (pa_path a));
  '(point, _) ← lift (resolve_point_path user vfs_path);
  lift (require_user_writable point).

Definition vfs_touch_file a : M Server Status () :=
  _ ← require_user_write a;
  '(op, path) ← get_operator a false;
  on_disk (dal (op_write op path ""%string)).
Definition vfs_create_dir a : M Server Status () :=
  _ ← require_user_write a;
  '(op, path) ← get_operator a true;
  on_disk (dal (op_create_dir op path)).
Definition vfs_remove_file a : M Server Status () :=
  _ ← require_user_write a;
  '(op, path) ← get_operator a false;
  on_disk (remove_any op path).
Definition vfs_remove_dir a : M Server Status () :=
  _ ← require_user_write a;
  '(op, path) ← get_operator a false;
  on_disk (remove_any op path).
Definition vfs_list_dir a : M Server Status (list (VfsNode Time)) :=
  '(op, path) ← get_operator a true;
  entries ← on_disk (dal (op_list_with op path));
  mret (map entry_to_node entries).
Definition vfs_stat a : M Server Status (VfsNode Time) :=
  '(op, file_path) ← get_operator a false;
  meta ← on_disk (stat_either op file_path);
  mret (node_of file_path meta).
Definition vfs_exists a : M Server Status bool :=
  '(op, file_path) ← get_operator a false;
  on_disk (exists_either op file_path).

(** *** The state of a user's points *)

Inductive ProtoHealth := PhUnknown | PhHealthy | PhFailed.
Record VfsInfo := {
  vi_user : string; vi_point : ProtoVfsPoint; vi_used : N; vi_health : ProtoHealth; vi_error : string;
}.

(** One usage probe: a number and what went wrong. *)
Definition probe_usage (u : VfsUser) (p : VfsPoint) : M Server Status (N * list string) := λ y,
  if negb (is_repo p) && is_local_scheme (scheme p) then
    match local_source_path p with
    | Ok root =>
      match disk_usage root (world (storage y)) with
      | Ok b => (Ok (b, []), y)
      | Err e => (Ok (0%N, ["failed to measure usage: " +:+ io_text e]%string), y)
      end
    | Err e => (Ok (0%N, [message e]), y)
    end
  else
    match in_quota (current_bytes (quota_id (username u) (pt_id p))) y with
    | (Ok b, y) => (Ok (b, []), y)
    | (Err e, y) => (Ok (0%N, ["quota lookup failed: " +:+ show_dal e]%string), y)
    end.
Fixpoint probe_points (u : VfsUser) (ps : list VfsPoint) : M Server Status (list (N * list string)) :=
  match ps with
  | [] => mret []
  | p :: ps => x ← probe_usage u p; xs ← probe_points u ps; mret (x :: xs)
  end.

Definition point_info (u : VfsUser) (p : VfsPoint) (usage : N * list string) y : VfsInfo :=
  let '(health, error) :=
    match point_health (pt_id p) (storage y) with
    | Some Healthy => (PhHealthy, ""%string)
    | Some (Failed e) => (PhFailed, e)
    | None => (PhUnknown, ""%string)
    end in
  let '(health, error) :=
    match usage.2, health with
    | [], _ | _, PhFailed => (health, error)
    | errors, _ => (PhFailed, join "; " errors)
    end in
  {| vi_user := username u; vi_point := proto_of_point p; vi_used := usage.1; vi_health := health; vi_error := error |}.

(** [user_info]; the probes run concurrently and touch different quotas. *)
Definition user_info (u : VfsUser) : M Server Status (list VfsInfo) :=
  _ ← attempt (in_storage (Store.get_vfs u));
  usage ← probe_points u (points u);
  y ← gets id;
  mret (zip_with (λ p x, point_info u p x y) (points u) usage).

Fixpoint info_of_users (us : list VfsUser) : M Server Status (list VfsInfo) :=
  match us with
  | [] => mret []
  | u :: us => i ← user_info u; rest ← info_of_users us; mret (i ++ rest)
  end.
(** The [GetVfs] and [ReloadVfs] requests. *)
Definition get_vfs : M Server Status (list VfsInfo) :=
  us ← m_map_err map_vfs (in_users get_users);
  info_of_users us.
Definition reload_vfs (n : string) : M Server Status (list VfsInfo) :=
  u ← get_user n;
  _ ← in_storage (modify (invalidate_vfs u));
  user_info u.

End Handlers.

(** ** Lemmas: what the handlers leave alone *)

Section Lemmas.
Context {O W : Type} `{OA : OperatorApi O W} `{FA : !FileApi O W} `{!StoreLib O W} `{JL : JsonLib} `{Foreign}.
Notation Server := (Server (O := O) (W := W)).
Implicit Types (y : Server) (a : PathArg).

Lemma get_user_storage n y r y' : get_user n y = (r, y') → storage y' = storage y.
Proof using Type.
  unfold get_user, m_map_err, in_users, in_quota. repeat case_match; intros; simplify_eq; done.
Qed.

(** The user a name stands for, by the stored rows. *)
Definition stored_user (n : string) y : result VfsError VfsUser :=
  ps ← ok_or UserNotFound (users_t (tracker (quota y)) !! n); user_of_row (n, ps).
(** The rows, and with them who everybody is, are as they were. *)
Definition same_rows y y' : Prop := users_t (tracker (quota y')) = users_t (tracker (quota y)).
Lemma stored_user_same n y y' : same_rows y y' → stored_user n y' = stored_user n y.
Proof using Type. unfold same_rows, stored_user. by intros ->. Qed.
Lemma get_user_stored n y r y' :
  get_user n y = (r, y') →
  storage y' = storage y ∧ jobs y' = jobs y ∧ same_rows y y' ∧ ∀ u, r = Ok u → stored_user n y = Ok u.
Proof using Type.
  unfold same_rows, stored_user, get_user, m_map_err, in_users, in_quota, Db.get_user, sql, sql_select_user, statement.
  destruct y as [sto [[us qs fs] bs] js wh rh]. cbn. unfold mbind, M_bind, m_map_err, lift. cbn.
  destruct fs as [|[e|] fs]; cbn; (destruct (us !! n) as [ps|]; cbn; [destruct (user_of_row (n, ps)); cbn|]);
    intros [= <- <-]; (split_and!; [done..|]); intros u; cbn; try done; by intros [= ->].
Qed.
Lemma require_user_write_spec a y r y' :
  require_user_write a y = (r, y') →
  storage y' = storage y ∧
  (is_ok r = true ↔ ∃ u path p rest, get_user (pa_user a) y = (Ok u, y') ∧
     resolve_file_path u (pa_path a) = Ok path ∧ resolve_point_path u path = Ok (p, rest) ∧ is_user_writable p = true).
Proof using Type.
  unfold require_user_write, mbind, M_bind, lift.
  destruct (get_user (pa_user a) y) as [[u|e] y1] eqn:Hu; apply get_user_storage in Hu as Hs.
  2: { intros [= <- <-]. split; [done|]. split; [done|]. by intros (? & ? & ? & ? & [=] & _). }
  destruct (resolve_file_path u (pa_path a)) as [path|e] eqn:Hp.
  2: { intros [= <- <-]. split; [done|]. split; [done|]. intros (? & ? & ? & ? & [= <-] & ? & _); congruence. }
  destruct (resolve_point_path u path) as [[p rest]|e] eqn:Hr.
  2: { intros [= <- <-]. split; [done|]. split; [done|].
       intros (? & ? & ? & ? & [= <-] & ? & ? & _); congruence. }
  assert (Hw : is_ok (require_user_writable p) = true ↔ is_user_writable p = true).
  { unfold require_user_writable, is_user_writable.
    by destruct (is_repo p), (is_local_scheme (scheme p)), (Points.read_only p). }
  intros [= <- <-]. split; [done|]. rewrite Hw. split; [eauto 10|].
  intros (? & ? & ? & ? & [= <-] & ? & ? & ?). congruence.
Qed.
End Lemmas.

(** ** Removal *)

(** Documented behaviour of the backend users can write on, the local file system, where a
    path names the same place with and without its trailing slash: probing and listing
    change nothing, a probe that answers says what is there, a delete touches the place its
    path names, a recursive one of a directory what is below it, and a directory lists what
    is below it. *)
Class RemoveLaws (O W : Type) `{FileApi O W} := {
  present : W → O → string → Prop;
  stat_law op p w r w' : op_stat op p w = (r, w') →
    (∀ o q, present w' o q ↔ present w o q) ∧
    match r with Ok _ => present w op p | Err e => is_not_found e = true → ¬ present w op p end;
  delete_law op p w r w' : op_delete op p w = (r, w') → direct p →
    ∀ q, direct q → place q ≠ place p → present w' op q ↔ present w op q;
  delete_all_law op p w r w' : op_delete_all op p w = (r, w') → direct p → ends_with_char slash p = true →
    ∀ q, direct q → ¬ place p `prefix_of` place q → present w' op q ↔ present w op q;
  list_all_law op p w r w' : op_list_all op p w = (r, w') →
    (∀ o q, present w' o q ↔ present w o q) ∧
    (direct p → ends_with_char slash p = true →
     match r with Ok l => Forall (λ e, direct e.1 ∧ place p `prefix_of` place e.1) l | Err _ => True end);
}.

Section Removal.
Context {O W : Type} `{RemoveLaws O W} `{Foreign}.
Implicit Types (op : O) (w : W).

Lemma dal_triple {A} (P : W → Prop) (m : M W DalError A) (Q : A → W → Prop) (R : W → Prop) :
  (∀ w r w', P w → m w = (r, w') → match r with Ok a => Q a w' | Err _ => R w' end) → triple P (dal m) Q R.
Proof using Type.
  intros Hm w Hw. unfold dal, m_map_err. destruct (m w) as [r w'] eqn:E. specialize (Hm w r w' Hw E).
  by destruct r.
Qed.
Lemma attempt_triple {A} (P : W → Prop) (m : M W DalError A) (Q : result DalError A → W → Prop) (R : W → Prop) :
  (∀ w r w', P w → m w = (r, w') → Q r w') → triple P (attempt m : M W Status _) Q R.
Proof using Type.
  intros Hm w Hw. unfold attempt. destruct (m w) as [r w'] eqn:E. by eapply Hm.
Qed.
Lemma triple_throw {A} (P R : W → Prop) (e : Status) (Q : A → W → Prop) :
  (∀ w, P w → R w) → triple P (throw e : M W Status A) Q R.
Proof using Type. intros Hp w Hw. by apply Hp. Qed.

(** Everything but what [path] names and what lies below it is as it was. *)
Definition beside (path : string) (w0 : W) op w : Prop :=
  ∀ q, direct q → ¬ place path `prefix_of` place q → present w op q ↔ present w0 op q.
(** Paths as the handlers make them. *)
Definition plain_path (path : string) : Prop := direct path ∧ contains_char backslash path = false.

Lemma stat_beside path w0 op p w r w' : beside path w0 op w → op_stat op p w = (r, w') → beside path w0 op w'.
Proof using Type. intros Hb [Hs _]%stat_law q Hq Hn. rewrite Hs. by apply Hb. Qed.
Lemma plain_fix path : plain_path path → direct (fix_path path true) ∧ place (fix_path path true) = place path.
Proof using Type. intros [Hd Hb]. unfold direct. by rewrite place_fix. Qed.

Lemma stat_any_triple path w0 op :
  triple (beside path w0 op) (stat_any op path)
    (λ r w, beside path w0 op w ∧ (r.2 = fix_path path true ∨ r.2 = path ∧ meta_is_dir r.1 = false))
    (beside path w0 op).
Proof using Type.
  unfold stat_any. eapply triple_bind.
  { eapply attempt_triple with (Q := λ _, beside path w0 op). intros. by eapply stat_beside. }
  intros [m|e].
  - apply triple_ret. intros w Hw. split; [done|]. cbn. destruct (meta_is_dir m); [by left|by right].
  - destruct (is_not_found e); [|by apply triple_throw]. cbn zeta. eapply triple_bind.
    + apply dal_triple with (Q := λ _, beside path w0 op) (R := beside path w0 op).
      intros w r w' Hw Hs. assert (beside path w0 op w') by (by eapply stat_beside). by destruct r.
    + intros m. apply triple_ret. intros w Hw. split; [done|]. by left.
Qed.

Lemma delete_triple path w0 op p :
  direct p → place path `prefix_of` place p →
  triple (beside path w0 op) (dal (op_delete op p)) (λ _, beside path w0 op) (beside path w0 op).
Proof using Type.
  intros Hdir Hp. apply dal_triple. intros w r w' Hw Hd.
  assert (beside path w0 op w').
  { intros q Hq Hn. rewrite (delete_law _ _ _ _ _ Hd); [by apply Hw|done..|]. intros Heq. apply Hn. by rewrite Heq. }
  by destruct r.
Qed.
Lemma delete_entries_triple path w0 op d es :
  Forall (λ e, direct e.1 ∧ place path `prefix_of` place e.1) es →
  triple (beside path w0 op) (delete_entries op d es) (λ _, beside path w0 op) (beside path w0 op).
Proof using Type.
  induction 1 as [|e es [He1 He2] _ IH]; cbn [delete_entries]; [by apply triple_ret|].
  destruct (bool_decide _); [exact IH|]. eapply triple_bind; [by apply delete_triple|]. intros ?. exact IH.
Qed.
Lemma delete_tree_triple path w0 op :
  plain_path path →
  triple (beside path w0 op)
    (_ ← dal (op_delete_all op (fix_path path true));
     still ← attempt (op_stat op (fix_path path true));
     if is_ok still then
       entries ← dal (op_list_all op (fix_path path true));
       _ ← delete_entries op (fix_path path true) (merge_sort longer_first entries);
       dal (op_delete op (fix_path path true))
     else mret ())
    (λ _, beside path w0 op) (beside path w0 op).
Proof using Type.
  intros [Hdir Hpl]%plain_fix. pose proof (fix_path_slash path) as Hsl. eapply triple_bind.
  { apply dal_triple with (Q := λ _, beside path w0 op). intros w r w' Hw Hd.
    assert (beside path w0 op w').
    { intros q Hq Hn. rewrite (delete_all_law _ _ _ _ _ Hd); [by apply Hw|done..|by rewrite Hpl]. }
    by destruct r. }
  intros ?. eapply triple_bind.
  { eapply attempt_triple with (Q := λ _, beside path w0 op). intros. by eapply stat_beside. }
  intros still. destruct (is_ok still); [|by apply triple_ret]. eapply triple_bind.
  { apply dal_triple with (Q := λ es w, Forall (λ e, direct e.1 ∧ place path `prefix_of` place e.1) es ∧ beside path w0 op w).
    intros w r w' Hw [Hl Hes]%list_all_law. specialize (Hes Hdir Hsl). rewrite Hpl in Hes.
    assert (beside path w0 op w') by (intros q Hq Hn; rewrite Hl; by apply Hw). by destruct r. }
  intros es. apply triple_pure. intros Hes. eapply triple_bind.
  { apply delete_entries_triple. by rewrite merge_sort_Permutation. }
  intros ?. apply delete_triple; [done|by rewrite Hpl].
Qed.

Lemma remove_any_triple path w0 op :
  plain_path path →
  triple (beside path w0 op) (remove_any op path)
    (λ _ w, beside path w0 op w ∧ ∃ p, (p = path ∨ p = fix_path path true) ∧ ¬ present w op p)
    (beside path w0 op).
Proof using Type.
  intros Hplain. pose proof (plain_fix _ Hplain) as [Hfd Hfp].
  unfold remove_any. eapply triple_bind; [apply stat_any_triple|]. intros [m p]. cbn [fst snd].
  apply triple_conseq with (P' := λ w, (p = fix_path path true ∨ p = path ∧ meta_is_dir m = false) ∧ beside path w0 op w)
    (Q' := λ _ w, beside path w0 op w ∧ ∃ p, (p = path ∨ p = fix_path path true) ∧ ¬ present w op p)
    (R' := beside path w0 op); [|intros w [? ?]; done|done|done].
  apply triple_pure. intros Hp. eapply triple_bind.
  { instantiate (1 := λ _, beside path w0 op). destruct (meta_is_dir m) eqn:Hd.
    - destruct Hp as [->|[_ ?]]; [|done]. by apply delete_tree_triple.
    - destruct Hp as [->|[-> _]]; apply delete_triple; rewrite ?Hfp; try done. apply Hplain. }
  intros ?. eapply triple_bind.
  { eapply attempt_triple with (Q := λ r w, beside path w0 op w ∧
      match r with Err e => is_not_found e = true → ¬ present w op p | Ok _ => True end).
    intros w r w' Hw Hs. split; [by eapply stat_beside|]. apply stat_law in Hs as [Hsame Hr].
    destruct r; [done|]. rewrite Hsame. exact Hr. }
  intros [?|e].
  - apply triple_throw. by intros w [? _].
  - destruct (is_not_found e).
    + apply triple_ret. intros w [Hw Hn]. split; [done|]. exists p. split; [|by apply Hn].
      destruct Hp as [->|[-> _]]; auto.
    + apply triple_throw. by intros w [? _].
Qed.

(** C25. Removal is verified and stays in its place. On a path as the handlers make them,
    whatever the backend answers, [remove_any] touches nothing but the place the path names
    and the places below it (a sibling whose name merely starts the same stays); it reports
    success only when a probe after the deletion has found the object gone; and asking for
    something that does not exist is an error that changes nothing. *)
Theorem removal_is_verified op path w r w' :
  plain_path path →
  remove_any op path w = (r, w') →
  (∀ q, direct q → ¬ place path `prefix_of` place q → present w' op q ↔ present w op q) ∧
  (r = Ok () → ∃ p, (p = path ∨ p = fix_path path true) ∧ ¬ present w' op p) ∧
  (¬ present w op path → ¬ present w op (fix_path path true) →
   is_ok r = false ∧ ∀ q, present w' op q ↔ present w op q).
Proof using Type.
  intros Hplain Hr. pose proof (remove_any_triple path w op Hplain w ltac:(done)) as Ht. rewrite Hr in Ht. split_and!.
  - destruct r; [exact (proj1 Ht)|exact Ht].
  - intros ->. by destruct Ht.
  - intros Hn1 Hn2. unfold remove_any, mbind, M_bind in Hr. unfold stat_any, mbind, M_bind, attempt in Hr.
    destruct (op_stat op path w) as [[m|e] w1] eqn:E1; apply stat_law in E1 as [Hs1 Hp1]; [done|].
    destruct (is_not_found e); [|by injection Hr as <- <-].
    unfold dal, m_map_err in Hr. destruct (op_stat op (fix_path path true) w1) as [[m|e2] w2] eqn:E2;
      apply stat_law in E2 as [Hs2 Hp2]; [by rewrite Hs1 in Hp2|].
    cbn in Hr. injection Hr as <- <-. split; [done|]. intros q. by rewrite Hs2, Hs1.
Qed.

End Removal.

(** ** Properties of the handlers *)

Section Properties.
Context {O W : Type} `{OA : OperatorApi O W} `{FA : !FileApi O W} `{!StoreLib O W} `{JL : JsonLib} `{Foreign}.
Notation Server := (Server (O := O) (W := W)).
Implicit Types (y : Server) (a : PathArg).

(** Only writable local data points can be modified. Touching, creating a directory
    and removing succeed only on a path that resolves to a point that is not a
    repository, not read-only and local; and where the check refuses, its error is the
    answer, and neither a disk nor a cache has been touched. *)
Theorem mutations_need_user_writable_points a h y r y' :
  h ∈ [vfs_touch_file; vfs_create_dir; vfs_remove_file; vfs_remove_dir] → h a y = (r, y') →
  (is_ok r = true → ∃ u path p rest y1, get_user (pa_user a) y = (Ok u, y1) ∧
     resolve_file_path u (pa_path a) = Ok path ∧ resolve_point_path u path = Ok (p, rest) ∧
     is_repo p = false ∧ Points.read_only p = false ∧ is_local_scheme (scheme p) = true) ∧
  (∀ e y1, require_user_write a y = (Err e, y1) → r = Err e ∧ y' = y1 ∧ storage y' = storage y).
Proof using Type.
  intros Hh Hr. assert (∃ k : M Server Status (), h a = mbind (λ _ : (), k) (require_user_write a)) as [k Hk].
  { repeat (apply elem_of_cons in Hh as [->|Hh]; [eexists; reflexivity|]). by apply elem_of_nil in Hh. }
  rewrite Hk in Hr. unfold mbind, M_bind in Hr.
  destruct (require_user_write a y) as [[[]|e] y1] eqn:E; apply require_user_write_spec in E as [Hs Hok].
  - split; [|done]. intros _. destruct (proj1 Hok eq_refl) as (u & path & p & rest & Hu & Hp & Hrp & Hw).
    exists u, path, p, rest, y1. unfold is_user_writable in Hw. rewrite !andb_true_iff, !negb_true_iff in Hw.
    destruct Hw as [[? ?] ?]. done.
  - injection Hr as <- <-. split; [done|]. intros e' y2 [= <- <-]. done.
Qed.

(** [vfs_exists] and [vfs_stat] probe alike: on the same state they make the same
    calls and end in the same state; one answers [true] exactly when the other has a
    node, [false] exactly when the other fails because nothing is there under either
    form of the path, and otherwise both report the same error. *)
Theorem exists_agrees_with_stat a y :
  let '(s, y1) := vfs_stat a y in
  let '(x, y2) := vfs_exists a y in
  y1 = y2 ∧
  match x with
  | Ok true => is_ok s = true
  | Ok false => ∃ e, is_not_found e = true ∧ s = Err (map_dal e)
  | Err e => s = Err e
  end.
Proof using Type.
  unfold vfs_stat, vfs_exists, mbind, M_bind.
  destruct (get_operator a false y) as [[[op path]|e] y1]; [|done].
  unfold on_disk, in_storage, on_world, stat_either, exists_either, mbind, M_bind, attempt.
  destruct (op_stat op path (world (storage y1))) as [[m|e] w1]; [done|].
  destruct (is_not_found e); [|done]. unfold dal, m_map_err.
  destruct (op_stat op (fix_path path true) w1) as [[m|e2] w2]; [done|].
  cbn. destruct (is_not_found e2) eqn:E2; cbn; [eauto|done].
Qed.

Lemma failed_point_checked u path p rest e y :
  resolve_point_path u path = Ok (p, rest) → point_health (pt_id p) (storage y) = Some (Failed e) →
  check_point_loaded u path y = Err (St.failed_precondition ("point '" +:+ name p +:+ "' failed to load: " +:+ e)%string).
Proof using Type.
  unfold check_point_loaded, resolve_point_path.
  set (parts := splitn 3 slash (trim_start_matches slash path)). clearbody parts. cbn zeta.
  set (root := opt_or ""%string (parts !! 0)). clearbody root.
  destruct (root_kind root) as [repo|] eqn:Hk; [|done]. cbn.
  destruct (parts !! 1) as [n|] eqn:Hn; cbn; [|done].
  assert (negb (bool_decide (root = POINTS_ROOT)) && negb (bool_decide (root = REPOS_ROOT)) = false ∧
                  repo = bool_decide (root = REPOS_ROOT)) as [-> ->].
  { unfold root_kind in Hk. destruct (bool_decide_reflect (root = POINTS_ROOT)) as [->|]; [by injection Hk as <-|].
    destruct (bool_decide_reflect (root = REPOS_ROOT)); [by injection Hk as <-|done]. }
  destruct n as [|c n]; cbn; [done|]. destruct (validate_relative_point_path _); [|done]. cbn.
  unfold find_point. destruct (list_find_first _ (points u)) as [q|]; [|done]. cbn. intros [= <- <-]. by intros ->.
Qed.

(** A failed point says why. When a request's path lies in a point whose health is
    [Failed], the handlers that need the operator answer [FailedPrecondition] with
    the recorded reason, never [NotFound] or an empty listing, and go no further. *)
Theorem failed_points_say_why a rest y u path op y1 y2 p e :
  get_user (pa_user a) y = (Ok u, y1) → resolve_file_path u (pa_path a) = Ok path →
  in_storage (Store.get_vfs u) y1 = (Ok op, y2) →
  resolve_point_path u path = Ok (p, rest) → point_health (pt_id p) (storage y2) = Some (Failed e) →
  let why := St.failed_precondition ("point '" +:+ name p +:+ "' failed to load: " +:+ e)%string in
  vfs_list_dir a y = (Err why, y2) ∧ vfs_stat a y = (Err why, y2) ∧ vfs_exists a y = (Err why, y2) ∧
  ∀ h y0, h ∈ [vfs_touch_file; vfs_create_dir; vfs_remove_file; vfs_remove_dir] →
    require_user_write a y0 = (Ok (), y) → h a y0 = (Err why, y2).
Proof using Type.
  intros Hu Hp Hop Hr Hh. cbn zeta.
  assert (Hget : ∀ d, get_operator a d y =
    (Err (St.failed_precondition ("point '" +:+ name p +:+ "' failed to load: " +:+ e)%string), y2)).
  { intros d. unfold get_operator, mbind, M_bind, lift, gets, m_map_err. rewrite Hu, Hp, Hop. cbn.
    by rewrite (failed_point_checked u path p rest e y2 Hr Hh). }
  unfold vfs_list_dir, vfs_stat, vfs_exists, mbind, M_bind. rewrite !Hget. split_and!; try done.
  intros h y0 Hin Hw.
  repeat (apply elem_of_cons in Hin as [->|Hin];
    [unfold vfs_touch_file, vfs_create_dir, vfs_remove_file, vfs_remove_dir, mbind, M_bind; by rewrite Hw, Hget|]).
  by apply elem_of_nil in Hin.
Qed.

Lemma probe_points_spec u ps y r y' :
  probe_points u ps y = (r, y') → storage y' = storage y ∧ ∃ xs, r = Ok xs ∧ length xs = length ps.
Proof using Type.
  revert y r y'; induction ps as [|p ps IH]; intros y r y'; cbn [probe_points].
  { intros [= <- <-]. split; [done|]. by exists []. }
  unfold mbind, M_bind. destruct (probe_usage u p y) as [rx y1] eqn:Hx.
  assert (storage y1 = storage y ∧ is_ok rx = true) as [Hs Hok].
  { unfold probe_usage, in_quota in Hx. by repeat case_match; simplify_eq. }
  destruct rx as [x|]; [|done]. destruct (probe_points u ps y1) as [rxs y2] eqn:Hxs.
  apply IH in Hxs as (Hs2 & xs & -> & Hl). intros [= <- <-]. split; [congruence|]. exists (x :: xs). cbn. by rewrite Hl.
Qed.

(** The report on a user's points is complete and never fails as a whole: whatever
    goes wrong with the mount table, a disk or a quota, there is one entry per point, in
    order, for that user and that point; a point is reported as failed when it is known
    to have failed or its usage could not be measured, and then with that reason, and is
    never reported as healthy unless it is. *)
Theorem user_info_reports_every_point u y r y' :
  user_info u y = (r, y') →
  ∃ usage, r = Ok (zip_with (λ p x, point_info u p x y') (points u) usage) ∧ length usage = length (points u) ∧
  ∀ p x, let i := point_info u p x y' in
    vi_user i = username u ∧ vi_point i = proto_of_point p ∧ vi_used i = x.1 ∧
    match point_health (pt_id p) (storage y') with
    | Some (Failed e) => vi_health i = PhFailed ∧ vi_error i = e
    | h => if bool_decide (x.2 = []) then vi_error i = ""%string ∧ vi_health i = match h with None => PhUnknown | _ => PhHealthy end
           else vi_health i = PhFailed ∧ vi_error i = join "; "%string x.2
    end.
Proof using Type.
  unfold user_info, mbind, M_bind, gets. destruct (attempt _ y) as [r0 y0] eqn:Ha.
  assert (is_ok r0 = true) by (unfold attempt in Ha; destruct (in_storage _ y); by injection Ha as <- <-).
  destruct r0 as [r0|]; [|done]. destruct (probe_points u (points u) y0) as [rx y1] eqn:Hx.
  apply probe_points_spec in Hx as (_ & xs & -> & Hl). intros [= <- <-]. exists xs. split; [done|]. split; [done|].
  intros p [n es]. cbn zeta. unfold point_info. cbn [fst snd].
  destruct (point_health (pt_id p) (storage y1)) as [[|e]|]; destruct es; done.
Qed.
End Properties.

(** ** Concrete runs *)

(** Operators over one tree per mount; directories are keyed with their slash. A native
    rename moves files only. *)
Module DiskOp.
Open Scope string_scope.
#[local] Existing Instance plain_foreign.

Record op := { mount : string; native_rename : bool }.
(** A directory, or a file with its content. *)
Inductive node := Dir | File (content : string).
#[export] Instance node_eq_dec : EqDecision node.
Proof. solve_decision. Defined.
Definition store : Type := gmap (string * string) node.
Record meta := { md_dir : bool; md_len : N }.
Definition meta_of (n : node) : meta :=
  match n with Dir => {| md_dir := true; md_len := 0 |} | File c => {| md_dir := false; md_len := blen c |} end.
Definition absent : DalError := dal_error Kind.NotFound "no such object".
Definition unsupported : DalError := dal_error Kind.Unsupported "rename is not supported".

Definition below (o : op) (p : string) (w : store) : list (string * meta) :=
  omap (λ e, if bool_decide (e.1.1 = mount o ∧ direct e.1.2) && starts_with p e.1.2 then Some (e.1.2, meta_of e.2) else None)
    (map_to_list w).
Definition content (n : option node) : option string := match n with Some (File c) => Some c | _ => None end.

#[export] Instance disk_ops : OperatorApi op store := {|
  Meta := meta; meta_length := md_len; dir_meta := {| md_dir := true; md_len := 0 |};
  OpWriter := (string * string) * string; OpReader := string;
  with_quota _ o := o; with_read_only o := o; can_copy _ := true; can_rename := native_rename;
  op_stat o p := λ w, (ok_or absent (meta_of <$> w !! (mount o, p)), w);
  op_read o p := λ w, (ok_or absent (content (w !! (mount o, p))), w);
  op_write o p d := modify (insert (mount o, p) (File d));
  op_delete o p := modify (delete (mount o, p));
  op_create_dir o p := λ w,
    match content (w !! (mount o, p)) with Some _ => (Err absent, w) | None => (Ok (), <[(mount o, p) := Dir]> w) end;
  op_copy o p q := λ w,
    match content (w !! (mount o, p)) with
    | Some c => (Ok (), <[(mount o, q) := File c]> w) | None => (Err absent, w) end;
  op_rename o p q := λ w,
    if negb (native_rename o) || ends_with_char slash p then (Err unsupported, w)
    else match content (w !! (mount o, p)) with
         | Some c => if bool_decide (p = q) then (Err absent, w)
                     else (Ok (), <[(mount o, q) := File c]> (delete (mount o, p) w))
         | None => (Err absent, w)
         end;
  op_lister o p := λ w, (Ok (map Ok (below o p w)), w);
  op_writer o p := λ w, (Ok ((mount o, p), ""), <[(mount o, p) := File ""]> w);
  writer_push bs i := λ w, let d := i.2 +:+ bs in (Ok (), ((i.1, d), <[i.1 := File d]> w));
  writer_finish i := λ w, (Ok (meta_of (File i.2)), (i, <[i.1 := File i.2]> w));
  writer_cancel i := λ w, (Ok (), (i, delete i.1 w));
  op_reader o p := λ w, (ok_or absent (content (w !! (mount o, p))), w);
  reader_read d from to := λ w, (Ok (String.substring (N.to_nat from) (N.to_nat (to - from)) d), w);
|}.
Definition no_disk : FsApi :=
  {| symlink_type _ := Err vanished; read_dir _ := Err vanished |}.
(** A recursive delete that leaves directories behind, as some backends do. *)
#[export] Instance disk_files : FileApi op store := {|
  Time := N; meta_is_dir := md_dir; meta_mtime _ := None;
  op_list_with o p := λ w, (Ok (below o p w), w);
  op_list_all o p := λ w, (Ok (below o p w), w);
  op_delete_all o p := modify (base.filter (λ e : (string * string) * node,
    ¬ (e.1.1 = mount o ∧ starts_with p e.1.2 = true ∧ e.2 ≠ Dir)));
  disk _ := no_disk; disk_dirs _ := 1;
|}.

#[export] Program Instance disk_remove_laws : RemoveLaws op store := {|
  present w o p := is_Some (w !! (mount o, p));
|}.
Next Obligation.
  intros o p w r w' Hs. cbn in *. injection Hs as <- <-. split; [done|].
  destruct (w !! (mount o, p)); cbn; [eauto|]. by intros _ [? ?].
Qed.
Next Obligation.
  intros o p w r w' Hs _ q _ Hq. cbn in *. injection Hs as _ <-. unfold store in *.
  rewrite lookup_delete_ne by congruence. done.
Qed.
Next Obligation.
  intros o p w r w' Hs _ Hsl q _ Hq. cbn in *. injection Hs as _ <-. unfold store in *.
  rewrite map_lookup_filter. destruct (w !! (mount o, q)) as [n|]; cbn; [|done].
  rewrite option_guard_True; [done|]. cbn. intros (_ & Hst & _). by apply Hq, place_below.
Qed.
Next Obligation.
  intros o p w r w' Hs. cbn in *. injection Hs as <- <-. split; [done|]. intros _ Hsl. apply Forall_forall.
  intros e He. unfold below in He. apply list_elem_of_omap in He as (x & _ & Hx).
  destruct (bool_decide _ && starts_with p x.1.2) eqn:Hb; [|done]. injection Hx as <-.
  apply andb_true_iff in Hb as [[_ Hdir]%bool_decide_eq_true Hst]. split; [done|]. by apply place_below.
Qed.

Definition docs : op := {| mount := "docs"; native_rename := false |}.
Definition tree : store :=
  {[("docs", "/a/") := Dir; ("docs", "/a/x.txt") := File "hello"; ("docs", "/a/sub/") := Dir;
    ("docs", "/ab.txt") := File "kept"]}.

Example removes_a_tree :
  (λ '(r, w), (r, map_to_list w)) (remove_any docs "/a" tree) =
  (Ok (), [(("docs", "/ab.txt"), File "kept")]).
Proof. vm_compute. reflexivity. Qed.
Lemma removal_is_verified_witness :
  let '(r, w) := remove_any docs "/a" tree in
  r = Ok () ∧ (present w docs "/ab.txt" ↔ present tree docs "/ab.txt") ∧ ¬ present w docs "/a/".
Proof.
  destruct (remove_any docs "/a" tree) as [r w] eqn:E.
  assert (Hrun : (remove_any docs "/a" tree).1 = Ok ()) by (vm_compute; reflexivity).
  assert (Hw : (remove_any docs "/a" tree).2 !! ("docs", "/a") = None) by (vm_compute; reflexivity).
  assert (Hw' : (remove_any docs "/a" tree).2 !! ("docs", "/a/") = None) by (vm_compute; reflexivity).
  rewrite E in Hrun, Hw, Hw'. cbn [fst snd] in Hrun, Hw, Hw'.
  assert (Hplain : plain_path "/a") by (split; [by apply (bool_decide_unpack (direct "/a"))|]; reflexivity).
  destruct (removal_is_verified docs "/a" tree r w Hplain E) as (Hb & Hg & _).
  split; [exact Hrun|]. split; [apply Hb; [by apply (bool_decide_unpack (direct "/ab.txt"))|by intros [x [=]]]|].
  intros [n Hn]. cbn in Hn. rewrite Hw' in Hn. discriminate Hn.
Defined.
End DiskOp.

(** A server with one user, whose second point has failed to load. *)
Module DemoRequests.
Import PlainUuid.
Import DiskOp.
Import (hints) DiskOp.
Open Scope string_scope.
#[local] Existing Instance plain_foreign.

#[export] Instance demo_store : StoreLib op store := {|
  RepoIndexed := string;
  via_iter sch _ := Ok {| mount := sch; native_rename := false |};
  blocking := Ok; with_logging o := o;
  vfs_operator _ := docs;
  repo_operator src := mret {| mount := rs_scheme src; native_rename := false |};
  op_list _ _ := mret [];
  open_indexed src := mret (rs_scheme src); init_repo _ := mret ();
  job_open o _ := mret (mount o); job_init o _ := mret (mount o);
  create_dir_all _ := mret (); show_status := message;
|}.
Definition good : VfsPoint :=
  {| pt_id := id1; Points.name := "docs"; max_bytes := None; Points.read_only := false; scheme := "fs";
     config := {["root" := "/srv/docs"]}; is_repo := false; repo_password := None |}.
Definition bad : VfsPoint :=
  {| pt_id := id2; Points.name := "old"; max_bytes := None; Points.read_only := false; scheme := "s3";
     config := ∅; is_repo := false; repo_password := None |}.
Definition ann : VfsUser := {| username := "ann"; points := [good; bad] |}.
#[export] Instance demo_json : JsonLib := {|
  to_json _ := Ok "ann"; from_json _ := Ok (points ann) |}.

Definition y0 : Server (O := op) (W := store) :=
  {| storage := {| world := {[("docs", "/points/docs/x.txt") := File "hello"]}; repos := ∅; repo_vfs_ops := ∅;
                   data_ops := ∅; vfs_ops := {["ann" := docs]}; degraded_ops := ∅;
                   health := {[id1 := Healthy; id2 := Failed "no such bucket"]};
                   vfs_generation := ∅; refreshing := ∅; events := [] |};
     quota := qs_new {| users_t := {["ann" := "ann"]}; quota_t := ∅; faults := [] |};
     jobs := ∅; write_handles := ∅; read_handles := ∅ |}.
Definition arg (p : string) : PathArg := {| pa_user := "ann"; pa_path := Some (VirtualPath p) |}.

Example removed_and_gone :
  (vfs_exists (arg "/points/docs/x.txt") y0).1 = Ok true ∧
  (vfs_exists (arg "points/docs/x.txt")
     (vfs_remove_file (arg "/points/docs/x.txt") y0).2).1 = Ok false.
Proof. split; reflexivity. Qed.

Lemma mutations_need_user_writable_points_witness :
  (vfs_create_dir (arg "/points/docs/new") y0).1 = Ok () ∧
  is_local_scheme "fs" = true ∧
  (vfs_create_dir (arg "/points/old/new") y0).1 =
    (require_user_write (arg "/points/old/new") y0).1.
Proof.
  split; [reflexivity|]. split.
  - destruct (mutations_need_user_writable_points (arg "/points/docs/new") vfs_create_dir y0 _ _
      ltac:(right; left) (surjective_pairing _)) as [Hok _].
    destruct (Hok eq_refl) as (u & path & p & rest & y1 & Hu & Hp & Hr & _ & _ & Hl).
    assert (Hu' : (get_user (pa_user (arg "/points/docs/new")) y0).1 = Ok ann) by reflexivity.
    rewrite Hu in Hu'. injection Hu' as ->.
    assert (Hp' : resolve_file_path ann (pa_path (arg "/points/docs/new")) = Ok "/points/docs/new") by reflexivity.
    rewrite Hp' in Hp. injection Hp as <-.
    assert (Hr' : resolve_point_path ann "/points/docs/new" = Ok (good, "new")) by reflexivity.
    rewrite Hr' in Hr. injection Hr as <- _. exact Hl.
  - destruct (mutations_need_user_writable_points (arg "/points/old/new") vfs_create_dir y0 _ _
      ltac:(right; left) (surjective_pairing _)) as [_ Hrefused].
    destruct (require_user_write (arg "/points/old/new") y0) as [[[]|e] y1] eqn:E.
    + assert (Hx : is_ok (require_user_write (arg "/points/old/new") y0).1 = false) by reflexivity.
      rewrite E in Hx. discriminate Hx.
    + exact (proj1 (Hrefused e y1 eq_refl)).
Defined.

Lemma failed_points_say_why_witness :
  (vfs_list_dir (arg "/points/old/dir") y0).1 =
  Err (St.failed_precondition "point 'old' failed to load: no such bucket").
Proof.
  refine (f_equal fst (proj1 (failed_points_say_why (arg "/points/old/dir") "dir" y0 ann "/points/old/dir" docs
    (get_user "ann" y0).2 (in_storage (Store.get_vfs ann) (get_user "ann" y0).2).2 bad "no such bucket" _ _ _ _ _)));
    reflexivity.
Defined.

Lemma user_info_reports_every_point_witness :
  ∃ l, (user_info ann y0).1 = Ok l ∧ length l = 2%nat.
Proof.
  destruct (user_info_reports_every_point ann y0 _ _ (surjective_pairing _)) as (usage & Hr & Hl & _).
  eexists. split; [exact Hr|]. rewrite length_zip_with, Hl. reflexivity.
Defined.
Example infos :
  (λ l, map (λ i, (vi_health i, vi_error i)) l) <$> ok_opt (user_info ann y0).1 =
  Some [(PhHealthy, ""); (PhFailed, "no such bucket")].
Proof. reflexivity. Qed.
End DemoRequests.
