(* ===== verification/Transfer.v ===== *)
(** * Transfers ([server.rs]: [vfs_transfer] and its job)

    Copying and moving files and trees between mounts. [vfs_transfer] decides in the
    request whether the transfer is allowed and collects a [TransferPlan]; [run_transfer]
    is the body of the background job that carries it out: a native rename or native
    copies within a mount, otherwise streaming in chunks; a move deletes its source last,
    a failed transfer cleans up its destination.

    The job's state is the world together with what it reports and what it is told:
    the byte counters and the progress bar, and the answers its cancel token and the
    clock will give, so that a cancellation can come at any point. *)

From S2P Require Import Prelude.
From S2P Require Import RustStr.
From S2P Require Import Errors.
From S2P Require Import Paths.
From S2P Require Import Service.
From S2P Require Import Mounts.
From S2P Require Import Points.
From S2P Require Import LocalFs.
From S2P Require Import Users.
From S2P Require Import Db.
From S2P Require Import Store.
From S2P Require Import SetVfs.
From S2P Require Import Requests.
From S2P Require Import Events.
From stdpp Require Import options.
Close Scope string_scope.
Import Progress.

(** [Operator::info] (scheme, root, name), ranged reads, [std::fs::metadata]. *)
Class TransferApi (O W : Type) `{FileApi O W} := {
  op_info : O → string * string * string;
  op_read_range : O → string → N → N → M W DalError string;
  local_len : W → string → option N;
  (** [Status::to_string] *)
  status_text : Status → string;
}.

Definition SPOOL_CHUNK : N := 8 * 1024 * 1024.

Section Job.
Context {O W : Type} `{TransferApi O W} `{Foreign}.

Record TransferPlan := {
  src_op : O;
  dst_op : O;
  src_path : string;
  dst_path : string;
  src_is_dir : bool;
  entries : list (string * Meta);
  total_bytes : N;
  copying : bool;
  native : bool;
  (** point root, destination file, quota *)
  local_quota : option (string * string * option N);
}.
Implicit Types (plan : TransferPlan).

(** [cancels] and [clock] are the answers to come; after them the token is not
    cancelled. *)
Record Job := {
  jw : W;
  bar : TxProgress;
  sent : list Data;
  done : N;
  total : N;
  cancels : list bool;
  clock : list (N * N);
}.
Implicit Types (s : Job).
Definition set_jw w s : Job :=
  {| jw := w; bar := bar s; sent := sent s; done := done s; total := total s; cancels := cancels s; clock := clock s |}.
Definition set_bar b evs s : Job :=
  {| jw := jw s; bar := b; sent := sent s ++ evs; done := done s; total := total s; cancels := cancels s; clock := clock s |}.
Definition set_counts d t s : Job :=
  {| jw := jw s; bar := bar s; sent := sent s; done := d; total := t; cancels := cancels s; clock := clock s |}.
Definition set_answers c k s : Job :=
  {| jw := jw s; bar := bar s; sent := sent s; done := done s; total := total s; cancels := c; clock := k |}.

(** A call on an operator; its error is put into words by [f]. *)
Definition on_op {A} (f : DalError → string) (m : M W DalError A) : M Job string A := λ s,
  let '(r, w) := m (jw s) in (map_err f r, set_jw w s).
(** The same where the code looks at the error itself. *)
Definition try_op {A} (m : M W DalError A) : M Job string (result DalError A) := λ s,
  let '(r, w) := m (jw s) in (Ok r, set_jw w s).

Definition is_cancelled : M Job string bool := λ s,
  match cancels s with
  | [] => (Ok false, s)
  | c :: cs => (Ok c, set_answers cs (clock s) s)
  end.
Definition tick : M Job string (N * N) := λ s,
  match clock s with
  | [] => (Ok (0%N, 0%N), s)
  | t :: ts => (Ok t, set_answers (cancels s) ts s)
  end.
(** The report closure of [run_transfer]. *)
Definition advance (n now now' : N) : M Job string () := λ s,
  let '(evs, b) := inc n now now' (bar s) in
  let s := set_bar b evs s in (Ok (), set_counts (wrapping_add (done s) n) (total s) s).
Definition conclude (now : N) : M Job string () := λ s,
  let '(evs, b) := finish now (bar s) in (Ok (), set_bar b evs s).
Definition report (n : option N) : M Job string () :=
  '(now, now') ← tick;
  match n with Some n => advance n now now' | None => conclude now end.

(** [let _ = writer.close().await;] *)
Definition close_quietly (wr : OpWriter) : M Job string () := λ s,
  let '(_, (_, w)) := writer_finish wr (jw s) in (Ok (), set_jw w s).
Definition push (wr : OpWriter) (buf : string) : M Job string (result DalError () * OpWriter) := λ s,
  let '(r, (wr, w)) := writer_push buf wr (jw s) in (Ok (r, wr), set_jw w s).

Definition failed_create (dst : string) (e : DalError) : string :=
  ("failed to create destination file '" +:+ dst +:+ "': " +:+ show_dal e)%string.
Definition failed_read (src : string) (offset : N) (e : DalError) : string :=
  ("failed to read '" +:+ src +:+ "' at byte " +:+ pretty offset +:+ ": " +:+ show_dal e)%string.
Definition short_source (src : string) : string :=
  ("source '" +:+ src +:+ "' returned zero bytes before reaching its expected length")%string.
Definition failed_write (dst : string) (offset : N) (e : DalError) : string :=
  ("failed to write '" +:+ dst +:+ "' at byte " +:+ pretty offset +:+ ": " +:+ show_dal e)%string.
Definition failed_close (dst : string) (e : DalError) : string :=
  ("failed to finalize destination file '" +:+ dst +:+ "': " +:+ show_dal e)%string.

Definition close_writer (dst : string) (wr : OpWriter) : M Job string () := λ s,
  let '(r, (_, w)) := writer_finish wr (jw s) in (_ ← map_err (failed_close dst) r; Ok (), set_jw w s).

(** The loop of [stream_copy]; a read moves it forward by at least a byte. *)
Fixpoint stream_loop (fuel : nat) (from : O) (src dst : string) (size offset : N) (wr : OpWriter)
    : M Job string OpWriter :=
  if negb (offset <? size)%N then mret wr else
  match fuel with
  | 0 => throw ""%string
  | S fuel =>
    c ← is_cancelled;
    if c : bool then _ ← close_quietly wr; throw "transfer cancelled"%string
    else
      let stop := N.min (wrapping_add offset SPOOL_CHUNK) size in
      buf ← try_op (op_read_range from src offset stop);
      match buf with
      | Err e => _ ← close_quietly wr; throw (failed_read src offset e)
      | Ok buf =>
        let n := blen buf in
        if (n =? 0)%N then _ ← close_quietly wr; throw (short_source src)
        else
          '(r, wr) ← push wr buf;
          match r with
          | Err e => _ ← close_quietly wr; throw (failed_write dst offset e)
          | Ok _ => _ ← report (Some n); stream_loop fuel from src dst size (saturating_add offset n) wr
          end
      end
  end.
Definition stream_copy (from : O) (src : string) (to : O) (dst : string) (size : N) : M Job string () :=
  wr ← on_op (failed_create dst) (op_writer to dst);
  wr ← stream_loop (N.to_nat size) from src dst size 0 wr;
  close_writer dst wr.

Definition copy_one plan (src dst : string) (len : N) : M Job string () :=
  if native plan then
    _ ← on_op (λ e, "failed to copy '" +:+ src +:+ "' to '" +:+ dst +:+ "': " +:+ show_dal e)%string
          (op_copy (src_op plan) src dst);
    report (Some len)
  else stream_copy (src_op plan) src (dst_op plan) dst len.

(** One entry of the listing: a directory, even an empty one, or a file. *)
Definition copy_entry plan (source destination : string) (meta : Meta) : M Job string () :=
  if meta_is_dir meta then
    on_op (λ e, "failed to create destination directory '" +:+ destination +:+ "': " +:+ show_dal e)%string
      (op_create_dir (dst_op plan) destination)
  else copy_one plan source destination (meta_length meta).
Fixpoint copy_entries plan (src_prefix dst_prefix : string) (es : list (string * Meta)) : M Job string () :=
  match es with
  | [] => mret ()
  | (source, meta) :: es =>
    c ← is_cancelled;
    if c : bool then throw "transfer cancelled"%string
    else
      match strip_prefix src_prefix source with
      | None => throw ("source listing returned unexpected path: " +:+ source)%string
      | Some relative =>
        if bool_decide (relative = "")%string then copy_entries plan src_prefix dst_prefix es
        else
          _ ← copy_entry plan source (dst_prefix +:+ relative) meta;
          copy_entries plan src_prefix dst_prefix es
      end
  end.
Definition copy_tree plan : M Job string () :=
  if negb (src_is_dir plan) then copy_one plan (src_path plan) (dst_path plan) (total_bytes plan)
  else
    _ ← on_op (λ e, "failed to create destination directory: " +:+ show_dal e)%string
          (op_create_dir (dst_op plan) (dst_path plan));
    copy_entries plan (with_slash (src_path plan)) (with_slash (dst_path plan)) (entries plan).

(** The check that [run_transfer] repeats before it starts. *)
Definition recheck_quota plan : M Job string () := λ s,
  match local_quota plan with
  | None => (Ok (), s)
  | Some (root, full_path, max) =>
    let existing_len := opt_or 0%N (local_len (jw s) full_path) in
    let growth := saturating_sub (total_bytes plan) existing_len in
    (map_err status_text (check_local_quota (disk_usage root (jw s)) max growth), s)
  end.

Definition start plan : M Job string () := λ s,
  let t := N.max (total_bytes plan) 1 in
  let s := set_counts (done s) t s in
  (Ok (), set_bar (bar s) (set_length t (bar s)) s).

(** A native rename: [true] when the transfer is over. *)
Definition try_rename plan : M Job string bool :=
  if native plan && negb (copying plan) then
    r ← try_op (op_rename (src_op plan) (src_path plan) (dst_path plan));
    match r with
    | Ok _ => _ ← report (Some (N.max (total_bytes plan) 1)); _ ← report None; mret true
    | Err e =>
      if bool_decide (err_kind e = Kind.Unsupported) then mret false
      else throw ("failed to rename source to destination: " +:+ show_dal e)%string
    end
  else mret false.

Definition delete_source plan : M Job string () :=
  if copying plan then mret ()
  else
    c ← is_cancelled;
    if c : bool
    then throw "transfer cancelled after destination copy completed; source was not deleted"%string
    else on_op (λ e, "destination transfer completed, but source deletion failed: " +:+ show_dal e)%string
           (op_delete_all (src_op plan) (src_path plan)).

(** [run_transfer]; the result of a transfer is no snapshot. *)
Definition run_transfer plan : M Job string (option string) :=
  _ ← recheck_quota plan;
  _ ← start plan;
  renamed ← try_rename plan;
  if renamed : bool then mret None
  else
    r ← attempt (copy_tree plan);
    match r with
    | Err e => _ ← try_op (op_delete_all (dst_op plan) (dst_path plan)); throw e
    | Ok _ =>
      _ ← delete_source plan;
      _ ← (if (total_bytes plan =? 0)%N then report (Some 1%N) else mret ());
      _ ← report None;
      mret None
    end.

End Job.

(** ** The request *)

Record TransferArgs := { ta_old : option PathArg; ta_new : option PathArg; ta_copy : bool }.

Section Request.
Context {O W : Type} `{OA : OperatorApi O W} `{FA : !FileApi O W} `{!TransferApi O W} `{!StoreLib O W} `{JL : JsonLib} `{Foreign}.
Notation Server := (Server (O := O) (W := W)).
Implicit Types (y : Server).

(** [require_path] *)
Definition require_path (p : option PathArg) : result Status PathArg :=
  ok_or (St.invalid_argument "path is blank"%string) p.
Definition identical : Status := St.invalid_argument "source and destination are identical"%string.

(** The first check: the same virtual path of the same user, as it was written. *)
Definition same_argument (a b : PathArg) : bool :=
  bool_decide (pa_user a = pa_user b) &&
  match pa_path a, pa_path b with
  | Some (VirtualPath p), Some (VirtualPath q) => bool_decide (p = q)
  | _, _ => false
  end.

(** Who may write where: the destination always, the source of a move too. *)
Definition check_points (copy : bool) (src dst : VfsPoint) : result Status () :=
  _ ← require_user_writable dst;
  if copy then Ok ()
  else if is_repo src
  then Err (St.permission_denied "cannot move out of a repository; use copy instead"%string)
  else map_err (λ e, St.permission_denied ("cannot move out of this point (" +:+ message e +:+ "); use copy instead")%string)
         (require_user_writable src).

(** The destination must not exist. *)
Definition check_absent (op : O) (src_is_dir : bool) (dst_path : string) : M W Status () :=
  r ← attempt (stat_any op dst_path);
  match r with
  | Ok (meta, _) =>
    if src_is_dir && negb (meta_is_dir meta)
    then throw (St.failed_precondition "destination exists and is not a directory"%string)
    else if negb src_is_dir && meta_is_dir meta
    then throw (St.failed_precondition "destination exists and is a directory"%string)
    else throw (St.already_exists "destination already exists"%string)
  | Err e => if bool_decide (code e = Code.NotFound) then mret () else throw e
  end.

Definition sum_lengths (es : list (string * Meta)) : N :=
  foldl (λ acc e, if meta_is_dir e.2 then acc else saturating_add acc (meta_length e.2)) 0%N es.

Definition register_job (id : Uuid) (user : string) : M Server Status () := modify (λ y,
  {| storage := storage y; quota := quota y;
     jobs := <[id := {| job_user := user; cancelled := false |}]> (jobs y);
     write_handles := write_handles y; read_handles := read_handles y |}).

(** [vfs_transfer]: the plan that the job [job_id] is spawned with. *)
Definition vfs_transfer (args : TransferArgs) (job_id : Uuid) : M Server Status (TransferPlan (O := O)) :=
  old_file ← lift (require_path (ta_old args));
  new_file ← lift (require_path (ta_new args));
  if same_argument old_file new_file then throw identical else
  let copy := ta_copy args in
  src_user ← get_user (pa_user old_file);
  dst_user ← get_user (pa_user new_file);
  src_path_for_point ← lift (resolve_file_path src_user (pa_path old_file));
  dst_path_for_point ← lift (resolve_file_path dst_user (pa_path new_file));
  '(src_point, _) ← lift (resolve_point_path src_user src_path_for_point);
  '(dst_point, dst_rest) ← lift (resolve_point_path dst_user dst_path_for_point);
  _ ← lift (check_points copy src_point dst_point);
  '(src_op, src_path) ← get_operator old_file false;
  '(dst_op, dst_path) ← get_operator new_file false;
  '(src_meta, src_path) ← on_disk (stat_any src_op src_path);
  let src_is_dir := meta_is_dir src_meta in
  let dst_path := if src_is_dir then fix_path dst_path true else dst_path in
  _ ← on_disk (check_absent dst_op src_is_dir dst_path);
  let same_backend := bool_decide (op_info src_op = op_info dst_op) in
  let same_mount := bool_decide (pt_id src_point = pt_id dst_point) in
  if same_mount && bool_decide (src_path = dst_path) then throw identical
  else if src_is_dir && same_mount && starts_with src_path dst_path
  then throw (St.invalid_argument "cannot transfer a directory into itself"%string)
  else
    entries ← (if src_is_dir then on_disk (dal (op_list_all src_op src_path)) else mret []);
    let total_bytes := if src_is_dir then sum_lengths entries else meta_length src_meta in
    root ← lift (local_source_path dst_point);
    w ← gets (λ y, world (storage y));
    full_path ← lift (safe_join (H := disk w) root dst_rest);
    _ ← register_job job_id (pa_user old_file);
    mret {| src_op := src_op; dst_op := dst_op; src_path := src_path; dst_path := dst_path;
            src_is_dir := src_is_dir; entries := entries; total_bytes := total_bytes; copying := copy;
            native := same_backend && same_mount;
            local_quota := if copy || negb same_mount then Some (root, full_path, max_bytes dst_point) else None |}.

End Request.

(** ** Streaming ends *)

Section Streaming.
Context {O W : Type} `{TransferApi O W} `{Foreign}.
Implicit Types (s : Job (W := W)).

Lemma report_spec n s : ∃ s', report n s = (Ok (), s') ∧ jw s' = jw s ∧ total s' = total s ∧ cancels s' = cancels s.
Proof using Type.
  unfold report, tick, advance, conclude, mbind, M_bind.
  destruct (clock s) as [|[t t'] ts]; cbn; destruct n as [n|]; cbn; repeat case_match; eauto 10.
Qed.
Lemma cancelled_spec s : ∃ c s', is_cancelled s = (Ok c, s') ∧ jw s' = jw s ∧ bar s' = bar s ∧ sent s' = sent s ∧
  done s' = done s ∧ total s' = total s.
Proof using Type. unfold is_cancelled. destruct (cancels s); eauto 10. Qed.

(** A body of the loop that only matters pointwise. *)
Lemma bind_ext {A B} (m : M (Job (W := W)) string A) (f g : A → M (Job (W := W)) string B) s :
  (∀ a s', m s = (Ok a, s') → f a s' = g a s') → (mbind f m) s = (mbind g m) s.
Proof using Type. intros Hfg. unfold mbind, M_bind. destruct (m s) as [[a|e] s']; [by apply Hfg|done]. Qed.

(** Every round of the loop reads at least a byte, so the fuel [stream_copy] gives it
    (the number of bytes) is never used up: more fuel makes no difference. *)
Lemma stream_loop_fuel f1 f2 from src dst size offset wr s :
  (size ≤ U64_MAX)%N → N.to_nat (size - offset) ≤ f1 → f1 ≤ f2 →
  stream_loop f1 from src dst size offset wr s = stream_loop f2 from src dst size offset wr s.
Proof using Type.
  intros Hsize. revert f2 offset wr s. induction f1 as [|f1 IH]; intros f2 offset wr s Hle Hle2.
  - assert ((offset <? size)%N = false) as Hlt by (apply N.ltb_ge; lia).
    destruct f2; cbn [stream_loop]; by rewrite Hlt.
  - destruct f2 as [|f2]; [lia|]. cbn [stream_loop]. destruct (N.ltb_spec offset size) as [Hlt|]; [|done]. cbn [negb].
    apply bind_ext. intros c s1 _. destruct c; [done|]. cbn zeta. apply bind_ext. intros [buf|e] s2 _; [|done].
    destruct (N.eqb_spec (blen buf) 0) as [|Hne]; [done|]. apply bind_ext. intros [[[]|e] wr'] s3 _; [|done].
    apply bind_ext. intros _ s4 _. apply IH; [|lia]. unfold saturating_add. lia.
Qed.
End Streaming.

(** ** What a transfer does to the files *)

(** Documented behaviour. The files of all mounts by location; a path of an operator
    names one. Reading, probing and creating directories change no file; a read gives
    bytes of its range, possibly fewer; a writer touches the file it was opened on, and
    closing it makes the file what was written; a native copy writes its destination
    only; a rename that fails changes nothing, and one that succeeds takes everything
    along; a recursive delete removes only what starts with its path, and when it
    succeeds all of that is gone. *)
Class TransferLaws (O W : Type) `{TransferApi O W} := {
  Loc : Type;
  loc : O → string → Loc;
  files : W → Loc → option string;
  w_loc : OpWriter → Loc;
  w_data : OpWriter → string;
  loc_inj o p q : loc o p = loc o q → p = q;
  read_range_law o p from to w r w' : op_read_range o p from to w = (r, w') →
    (∀ l, files w' l = files w l) ∧
    match r with
    | Ok b => (blen b ≤ to - from)%N ∧ ∃ c, files w (loc o p) = Some c ∧ b = slice from (blen b) c
    | Err _ => True
    end;
  writer_law o p w r w' : op_writer o p w = (r, w') →
    (∀ l, l ≠ loc o p → files w' l = files w l) ∧
    match r with Ok wr => w_loc wr = loc o p ∧ w_data wr = ""%string | Err _ => True end;
  push_law wr bs w r wr' w' : writer_push bs wr w = (r, (wr', w')) →
    (∀ l, l ≠ w_loc wr → files w' l = files w l) ∧ w_loc wr' = w_loc wr ∧
    (is_ok r = true → w_data wr' = (w_data wr +:+ bs)%string);
  finish_law wr w r wr' w' : writer_finish wr w = (r, (wr', w')) →
    (∀ l, l ≠ w_loc wr → files w' l = files w l) ∧
    (is_ok r = true → files w' (w_loc wr) = Some (w_data wr));
  native_copy_law o p q w r w' : op_copy o p q w = (r, w') →
    (∀ l, l ≠ loc o q → files w' l = files w l) ∧
    (is_ok r = true → is_Some (files w (loc o p)) ∧ files w' (loc o q) = files w (loc o p));
  create_dir_law o p w r w' : op_create_dir o p w = (r, w') → ∀ l, files w' l = files w l;
  move_law o p q w r w' : op_rename o p q w = (r, w') →
    match r with
    | Err _ => ∀ l, files w' l = files w l
    | Ok _ =>
      (∀ l, (∀ x, l ≠ loc o (p +:+ x)) → (∀ x, l ≠ loc o (q +:+ x)) → files w' l = files w l) ∧
      (∀ x c, x = ""%string ∨ ends_with_char slash p = true → files w (loc o (p +:+ x)) = Some c →
         files w' (loc o (q +:+ x)) = Some c ∧ files w' (loc o (p +:+ x)) = None)
    end;
  delete_tree_law o p w r w' : op_delete_all o p w = (r, w') →
    (∀ l, files w' l = files w l ∨ files w' l = None ∧ ∃ x, l = loc o (p +:+ x)) ∧
    (is_ok r = true → ∀ x, files w' (loc o (p +:+ x)) = None);
}.

Section Files.
Context {O W : Type} `{TransferLaws O W} `{Foreign}.
Implicit Types (s : Job (W := W)) (plan : TransferPlan (O := O)) (w : W).

Lemma on_op_inv {A} (f : DalError → string) (m : M W DalError A) s r s' :
  on_op f m s = (r, s') → ∃ r0, m (jw s) = (r0, jw s') ∧ r = map_err f r0.
Proof using Type. unfold on_op. destruct (m (jw s)) as [r0 w] eqn:E. intros [= <- <-]. by exists r0. Qed.
Lemma try_op_inv {A} (m : M W DalError A) s r s' :
  try_op m s = (r, s') → ∃ r0, m (jw s) = (r0, jw s') ∧ r = Ok r0.
Proof using Type. unfold try_op. destruct (m (jw s)) as [r0 w] eqn:E. intros [= <- <-]. by exists r0. Qed.
Lemma report_jw n s r s' : report n s = (r, s') → r = Ok () ∧ jw s' = jw s.
Proof using Type. destruct (report_spec n s) as (s1 & -> & ? & _). by intros [= <- <-]. Qed.
Lemma close_quietly_spec wr s r s' :
  close_quietly wr s = (r, s') → r = Ok () ∧ ∀ l, l ≠ w_loc wr → files (jw s') l = files (jw s) l.
Proof using Type.
  unfold close_quietly. destruct (writer_finish wr (jw s)) as [r0 [wr' w]] eqn:E. intros [= <- <-].
  split; [done|]. by apply finish_law in E as [? _].
Qed.
Lemma push_spec wr buf s r s' :
  push wr buf s = (r, s') → ∃ r0 wr', r = Ok (r0, wr') ∧ w_loc wr' = w_loc wr ∧
    (∀ l, l ≠ w_loc wr → files (jw s') l = files (jw s) l) ∧ (is_ok r0 = true → w_data wr' = (w_data wr +:+ buf)%string).
Proof using Type.
  unfold push. destruct (writer_push buf wr (jw s)) as [r0 [wr' w]] eqn:E. intros [= <- <-].
  apply push_law in E as (? & ? & ?). by exists r0, wr'.
Qed.

(** Close the writer and report the failure: only the destination is touched. *)
Lemma give_up_spec {A} wr (e : string) s (r : result string A) s' :
  (_ ← close_quietly wr; throw e) s = (r, s') →
  is_ok r = false ∧ ∀ l, l ≠ w_loc wr → files (jw s') l = files (jw s) l.
Proof using Type.
  unfold mbind, M_bind. destruct (close_quietly wr s) as [r0 s1] eqn:E.
  apply close_quietly_spec in E as [-> Hf]. by intros [= <- <-].
Qed.

Lemma stream_loop_files fuel from src dst size offset wr s r s' :
  stream_loop fuel from src dst size offset wr s = (r, s') → loc from src ≠ w_loc wr →
  (offset ≤ size)%N → (size ≤ U64_MAX - SPOOL_CHUNK)%N →
  (∀ l, l ≠ w_loc wr → files (jw s') l = files (jw s) l) ∧
  ∀ wr', r = Ok wr' → w_loc wr' = w_loc wr ∧
    ∀ c, files (jw s) (loc from src) = Some c → w_data wr = slice 0 offset c → w_data wr' = slice 0 size c.
Proof using Type.
  revert offset wr s. induction fuel as [|fuel IH]; intros offset wr s Hr Hne Hle Hsize; cbn [stream_loop] in Hr.
  { destruct (N.ltb_spec offset size); cbn in Hr; injection Hr as <- <-; split; try done.
    intros wr' [= <-]. split; [done|]. intros c _ ->. by replace size with offset by lia. }
  destruct (N.ltb_spec offset size) as [Hlt|Hge]; cbn [negb] in Hr.
  2: { injection Hr as <- <-. split; [done|]. intros wr' [= <-]. split; [done|]. intros c _ ->.
       by replace size with offset by lia. }
  apply bind_inv in Hr as [(e & Hc & ->)|(c & s1 & Hc & Hr)].
  { destruct (cancelled_spec s) as (? & ? & Hc' & _). congruence. }
  assert (Hj : jw s1 = jw s) by (destruct (cancelled_spec s) as (? & ? & Hc' & ? & _); congruence).
  rewrite <-Hj. clear Hc Hj s. destruct c.
  { apply give_up_spec in Hr as [Hk Hf]. split; [done|]. by intros wr' ->. }
  cbn zeta in Hr. set (stop := N.min (wrapping_add offset SPOOL_CHUNK) size) in Hr.
  apply bind_inv in Hr as [(e & E1 & ->)|(r1 & s2 & E1 & Hr)]; apply try_op_inv in E1 as (r0 & E1 & [= <-]).
  apply read_range_law in E1 as [Hsame Hread]. destruct r1 as [buf|e].
  2: { apply give_up_spec in Hr as [Hk Hf]. split; [|by intros wr' ->]. intros l Hl. by rewrite Hf, Hsame. }
  destruct Hread as [Hlen (c & Hfile & Hbuf)]. destruct (N.eqb_spec (blen buf) 0) as [Hz|Hz].
  { apply give_up_spec in Hr as [Hk Hf]. split; [|by intros wr' ->]. intros l Hl. by rewrite Hf, Hsame. }
  apply bind_inv in Hr as [(e & E2 & ->)|([r2 wr2] & s3 & E2 & Hr)];
    apply push_spec in E2 as (r0 & wr1 & [= <- <-] & Hloc & Hf1 & Hdata).
  destruct r2 as [[]|e].
  2: { apply give_up_spec in Hr as [Hk Hf]. rewrite Hloc in Hf. split; [|by intros wr' ->].
       intros l Hl. by rewrite Hf, Hf1, Hsame. }
  apply bind_inv in Hr as [(e & E3 & ->)|(u & s4 & E3 & Hr)]; apply report_jw in E3 as [[= ->] Hj].
  rewrite <-Hj in Hf1. clear Hj s3.
  assert (Hstop : (stop ≤ size)%N) by (unfold stop; lia).
  assert (Hoff : saturating_add offset (blen buf) = (offset + blen buf)%N) by (unfold saturating_add; lia).
  rewrite Hoff in Hr. apply IH in Hr as [Hf2 Hok]; [|by rewrite Hloc|lia|done]. rewrite Hloc in Hf2. split.
  - intros l Hl. by rewrite Hf2, Hf1, Hsame.
  - intros wr' ->. destruct (Hok wr' eq_refl) as [Hl2 Hd2]. split; [by rewrite Hl2|].
    intros c' Hc' Hd. rewrite (Hdata eq_refl), Hd in Hd2. apply (Hd2 c'); [by rewrite Hf1, Hsame|].
    rewrite Hfile in Hc'. injection Hc' as <-. rewrite Hbuf at 1. apply slice_join.
Qed.
Lemma stream_copy_files from src to dst size s r s' :
  stream_copy from src to dst size s = (r, s') → loc from src ≠ loc to dst → (size ≤ U64_MAX - SPOOL_CHUNK)%N →
  (∀ l, l ≠ loc to dst → files (jw s') l = files (jw s) l) ∧
  (r = Ok () → ∀ c, files (jw s) (loc from src) = Some c → files (jw s') (loc to dst) = Some (slice 0 size c)).
Proof using Type.
  unfold stream_copy. intros Hr Hne Hsize.
  apply bind_inv in Hr as [(e & E1 & ->)|(wr & s1 & E1 & Hr)]; apply on_op_inv in E1 as (r0 & E1 & Hr0);
    apply writer_law in E1 as [Hf1 Hwr].
  { by split. }
  destruct r0 as [wr0|]; [|done]. injection Hr0 as ->. destruct Hwr as [Hloc Hdata].
  apply bind_inv in Hr as [(e & E2 & ->)|(wr2 & s2 & E2 & Hr)];
    apply stream_loop_files in E2 as [Hf2 Hok]; try (by rewrite Hloc); try lia; rewrite Hloc in *.
  { split; [|done]. intros l Hl. by rewrite Hf2, Hf1. }
  destruct (Hok wr2 eq_refl) as [Hloc2 Hdata2]. unfold close_writer in Hr.
  destruct (writer_finish wr2 (jw s2)) as [r3 [wr3 w3]] eqn:E3. apply finish_law in E3 as [Hf3 Hfin].
  rewrite Hloc2 in *. injection Hr as Hr3 <-. cbn. split.
  - intros l Hl. by rewrite Hf3, Hf2, Hf1.
  - intros ->. destruct r3; [|done]. intros c Hc. rewrite (Hfin eq_refl). f_equal. apply Hdata2.
    + by rewrite Hf1.
    + by rewrite Hdata, slice_none.
Qed.

(** What the request has established about a plan when its job starts. *)
Definition apart plan : Prop :=
  ∀ x y, loc (src_op plan) (src_path plan +:+ x) ≠ loc (dst_op plan) (dst_path plan +:+ y).
Definition same_mount plan : Prop :=
  native plan = true → ∀ p, loc (src_op plan) p = loc (dst_op plan) p.
Definition slashed plan : Prop :=
  src_is_dir plan = true → ends_with_char slash (src_path plan) = true ∧ ends_with_char slash (dst_path plan) = true.
(** The file [x] of the plan, below its two paths, with the length it was listed with. *)
Definition listed plan (x : string) (len : N) : Prop :=
  if src_is_dir plan
  then x ≠ ""%string ∧ ∃ m, ((src_path plan +:+ x)%string, m) ∈ entries plan ∧ meta_is_dir m = false ∧ len = meta_length m
  else x = ""%string ∧ len = total_bytes plan.
Definition accurate plan w : Prop :=
  ∀ x len, listed plan x len → (len ≤ U64_MAX - SPOOL_CHUNK)%N ∧
    ∀ c, files w (loc (src_op plan) (src_path plan +:+ x)) = Some c → blen c = len.

Lemma copy_one_files plan src dst len s r s' :
  copy_one plan src dst len s = (r, s') → same_mount plan →
  loc (src_op plan) src ≠ loc (dst_op plan) dst → (len ≤ U64_MAX - SPOOL_CHUNK)%N →
  (∀ c, files (jw s) (loc (src_op plan) src) = Some c → blen c = len) →
  (∀ l, l ≠ loc (dst_op plan) dst → files (jw s') l = files (jw s) l) ∧
  (r = Ok () → ∀ c, files (jw s) (loc (src_op plan) src) = Some c → files (jw s') (loc (dst_op plan) dst) = Some c).
Proof using Type.
  unfold copy_one. intros Hr Hsame Hne Hlen Hacc. destruct (native plan) eqn:Hn.
  - specialize (Hsame Hn). rewrite <-Hsame.
    apply bind_inv in Hr as [(e & E1 & ->)|(u & s1 & E1 & Hr)]; apply on_op_inv in E1 as (r0 & E1 & Hr0);
      apply native_copy_law in E1 as [Hf Hc]; [by split|].
    destruct r0; [|done]. apply report_jw in Hr as [-> ->]. split; [done|]. intros _ c Hfile.
    destruct (Hc eq_refl) as [_ ->]. done.
  - apply stream_copy_files in Hr as [Hf Hc]; try done. split; [done|]. intros -> c Hfile.
    rewrite (Hc eq_refl c Hfile), <-(Hacc c Hfile). by rewrite slice_all.
Qed.


Lemma copy_entry_files plan sp dp rel meta s r s' :
  copy_entry plan (sp +:+ rel) (dp +:+ rel) meta s = (r, s') → same_mount plan →
  (∀ x y, loc (src_op plan) (sp +:+ x) ≠ loc (dst_op plan) (dp +:+ y)) →
  (meta_is_dir meta = false → (meta_length meta ≤ U64_MAX - SPOOL_CHUNK)%N ∧
     ∀ c, files (jw s) (loc (src_op plan) (sp +:+ rel)) = Some c → blen c = meta_length meta) →
  (∀ l, (∀ y, l ≠ loc (dst_op plan) (dp +:+ y)) → files (jw s') l = files (jw s) l) ∧
  (r = Ok () → ∀ x c, files (jw s) (loc (src_op plan) (sp +:+ x)) = Some c →
     files (jw s) (loc (dst_op plan) (dp +:+ x)) = Some c ∨ x = rel ∧ meta_is_dir meta = false →
     files (jw s') (loc (dst_op plan) (dp +:+ x)) = Some c).
Proof using Type.
  unfold copy_entry. intros Hr Hsame Hapart Hacc. destruct (meta_is_dir meta) eqn:Hm.
  - apply on_op_inv in Hr as (r0 & E1 & _). pose proof (create_dir_law _ _ _ _ _ E1) as Hall.
    split; [done|]. intros _ x c _ [?|[_ ?]]; [by rewrite Hall|done].
  - destruct (Hacc eq_refl) as [Hlen Hc]. apply copy_one_files in Hr as [Hf Hok]; try done.
    split; [intros l Hl; by apply Hf|].
    intros -> x c Hx Hor. destruct (decide (x = rel)) as [->|Hne]; [by apply Hok|].
    destruct Hor as [?|[? _]]; [|done]. rewrite Hf; [done|]. intros Heq%loc_inj%app_cancel_l. done.
Qed.
Lemma copy_entries_files plan sp dp es s r s' :
  copy_entries plan sp dp es s = (r, s') → same_mount plan →
  (∀ x y, loc (src_op plan) (sp +:+ x) ≠ loc (dst_op plan) (dp +:+ y)) →
  (∀ x m, ((sp +:+ x)%string, m) ∈ es → meta_is_dir m = false → x ≠ ""%string → (meta_length m ≤ U64_MAX - SPOOL_CHUNK)%N ∧
     ∀ c, files (jw s) (loc (src_op plan) (sp +:+ x)) = Some c → blen c = meta_length m) →
  (∀ l, (∀ y, l ≠ loc (dst_op plan) (dp +:+ y)) → files (jw s') l = files (jw s) l) ∧
  (r = Ok () → ∀ x c, files (jw s) (loc (src_op plan) (sp +:+ x)) = Some c →
     files (jw s) (loc (dst_op plan) (dp +:+ x)) = Some c ∨
     x ≠ ""%string ∧ (∃ m, ((sp +:+ x)%string, m) ∈ es ∧ meta_is_dir m = false) →
     files (jw s') (loc (dst_op plan) (dp +:+ x)) = Some c).
Proof using Type.
  intros Hr Hsame Hapart. revert s r s' Hr. induction es as [|[source meta] es IH]; intros s r s' Hr Hacc; cbn [copy_entries] in Hr.
  { injection Hr as <- <-. split; [done|]. intros _ x c _ [Hd|(_ & m & Hm%elem_of_nil & _)]; done. }
  apply bind_inv in Hr as [(e & Hc & ->)|(c & s1 & Hc & Hr)].
  { destruct (cancelled_spec s) as (? & ? & Hc' & _). congruence. }
  assert (Hj : jw s1 = jw s) by (destruct (cancelled_spec s) as (? & ? & Hc' & ? & _); congruence).
  rewrite <-Hj in *. clear Hc Hj s. destruct c; [by injection Hr as <- <-|].
  destruct (strip_prefix sp source) as [rel|] eqn:Hrel; [|by injection Hr as <- <-].
  apply strip_prefix_Some in Hrel as ->.
  assert (Htail : ∀ s0, (∀ l, (∀ y, l ≠ loc (dst_op plan) (dp +:+ y)) → files (jw s0) l = files (jw s1) l) →
    ∀ x m, ((sp +:+ x)%string, m) ∈ es → meta_is_dir m = false → x ≠ ""%string → (meta_length m ≤ U64_MAX - SPOOL_CHUNK)%N ∧
     ∀ c, files (jw s0) (loc (src_op plan) (sp +:+ x)) = Some c → blen c = meta_length m).
  { intros s0 Hs0 x m Hin Hm Hx. rewrite Hs0 by done. apply Hacc; [by right|done|done]. }
  case_bool_decide as Hempty.
  { apply IH in Hr as [Hf Hok]; [|by apply Htail]. split; [done|]. intros -> x c Hc Hor. apply (Hok eq_refl x c Hc).
    destruct Hor as [?|(Hx & m & [Hin|Hin]%elem_of_cons & Hm)]; [by left| |right; eauto].
    injection Hin as Heq <-. apply app_cancel_l in Heq as ->. done. }
  assert (Hhead : meta_is_dir meta = false → (meta_length meta ≤ U64_MAX - SPOOL_CHUNK)%N ∧
    ∀ c, files (jw s1) (loc (src_op plan) (sp +:+ rel)) = Some c → blen c = meta_length meta).
  { intros Hm. apply Hacc; [by left|done|done]. }
  apply bind_inv in Hr as [(e & E1 & ->)|(u & s2 & E1 & Hr)];
    apply copy_entry_files in E1 as [Hf1 Hd1]; try done.
  apply IH in Hr as [Hf Hok]; [|by apply Htail]. split.
  - intros l Hl. by rewrite Hf, Hf1.
  - intros -> x c Hc Hor. apply (Hok eq_refl x c); [by rewrite Hf1|]. destruct u.
    destruct Hor as [Hd|(Hx & m & [Hin|Hin]%elem_of_cons & Hm)]; [|left|right; eauto].
    + left. apply Hd1; [done|done|by left].
    + injection Hin as Heq <-. apply app_cancel_l in Heq as ->. apply Hd1; [done|done|by right].
Qed.

Lemma with_slash_id p : ends_with_char slash p = true → with_slash p = p.
Proof using Type. unfold with_slash. by intros ->. Qed.

Lemma copy_tree_files plan s r s' :
  copy_tree plan s = (r, s') → same_mount plan → apart plan → slashed plan → accurate plan (jw s) →
  (∀ l, (∀ y, l ≠ loc (dst_op plan) (dst_path plan +:+ y)) → files (jw s') l = files (jw s) l) ∧
  (r = Ok () → ∀ x len c, listed plan x len → files (jw s) (loc (src_op plan) (src_path plan +:+ x)) = Some c →
     files (jw s') (loc (dst_op plan) (dst_path plan +:+ x)) = Some c).
Proof using Type.
  unfold copy_tree, slashed, accurate, listed. intros Hr Hsame Hapart Hsl Hacc.
  destruct (src_is_dir plan) eqn:Hdir; cbn [negb] in Hr.
  - destruct (Hsl eq_refl) as [Hs1 Hs2]. rewrite !with_slash_id in Hr by done.
    apply bind_inv in Hr as [(e & E1 & ->)|(u & s1 & E1 & Hr)]; apply on_op_inv in E1 as (r0 & E1 & _);
      pose proof (create_dir_law _ _ _ _ _ E1) as Hall; [by split|].
    apply copy_entries_files in Hr as [Hf Hok]; try done.
    + split; [intros l Hl; by rewrite Hf, Hall|].
      intros -> x len c (Hx & m & Hin & Hm & _) Hc. apply (Hok eq_refl x c); [by rewrite Hall|]. right. eauto.
    + intros x m Hin Hm Hx. setoid_rewrite Hall. apply Hacc. eauto 10.
  - destruct (Hacc ""%string (total_bytes plan)) as [Hlen Hc]; [done|]. rewrite app_empty_r in Hc.
    assert (Hne : loc (src_op plan) (src_path plan) ≠ loc (dst_op plan) (dst_path plan)).
    { specialize (Hapart ""%string ""%string). by rewrite !app_empty_r in Hapart. }
    apply copy_one_files in Hr as [Hf Hok]; try done. split.
    + intros l Hl. apply Hf. specialize (Hl ""%string). by rewrite app_empty_r in Hl.
    + intros -> x len c [-> _]. rewrite !app_empty_r. by apply Hok.
Qed.

(** What holds between the files before ([w]) and after ([w']) a step of a transfer
    that may still fail. *)
Definition nothing_lost plan (w w' : W) : Prop :=
  (∀ l, (∀ x, l ≠ loc (src_op plan) (src_path plan +:+ x)) → (∀ y, l ≠ loc (dst_op plan) (dst_path plan +:+ y)) →
     files w' l = files w l) ∧
  (copying plan = true → ∀ x, files w' (loc (src_op plan) (src_path plan +:+ x)) = files w (loc (src_op plan) (src_path plan +:+ x))) ∧
  (∀ x len c, listed plan x len → files w (loc (src_op plan) (src_path plan +:+ x)) = Some c →
     files w' (loc (src_op plan) (src_path plan +:+ x)) = Some c ∨
     files w' (loc (dst_op plan) (dst_path plan +:+ x)) = Some c).
Definition arrived plan (w w' : W) : Prop :=
  ∀ x len c, listed plan x len → files w (loc (src_op plan) (src_path plan +:+ x)) = Some c →
    files w' (loc (dst_op plan) (dst_path plan +:+ x)) = Some c.
Definition moved_away plan (w w' : W) : Prop :=
  copying plan = false → ∀ x len c, listed plan x len → files w (loc (src_op plan) (src_path plan +:+ x)) = Some c →
    files w' (loc (src_op plan) (src_path plan +:+ x)) = None.

(** Only the destination has been touched. *)
Definition dst_only plan (w w' : W) : Prop :=
  ∀ l, (∀ y, l ≠ loc (dst_op plan) (dst_path plan +:+ y)) → files w' l = files w l.
Lemma dst_only_nothing_lost plan w w' : apart plan → dst_only plan w w' → nothing_lost plan w w'.
Proof using Type.
  intros Ha Hd. split_and!.
  - intros l _ Hl. by apply Hd.
  - intros _ x. apply Hd. apply Ha.
  - intros x len c _ Hc. left. rewrite Hd; [done|apply Ha].
Qed.

Lemma covered plan x len :
  slashed plan → listed plan x len → x = ""%string ∨ ends_with_char slash (src_path plan) = true.
Proof using Type.
  unfold slashed, listed. intros Hs. destruct (src_is_dir plan); [right; by apply Hs|intros [-> _]; by left].
Qed.

Lemma try_rename_files plan s r s' :
  try_rename plan s = (r, s') → same_mount plan → slashed plan →
  match r with
  | Ok true => nothing_lost plan (jw s) (jw s') ∧ arrived plan (jw s) (jw s') ∧ moved_away plan (jw s) (jw s')
  | _ => ∀ l, files (jw s') l = files (jw s) l
  end.
Proof using Type.
  unfold try_rename. intros Hr Hsame Hsl. destruct (native plan) eqn:Hn; cbn in Hr; [|by injection Hr as <- <-].
  destruct (copying plan) eqn:Hcp; cbn in Hr; [by injection Hr as <- <-|].
  apply bind_inv in Hr as [(e & E1 & ->)|(r1 & s1 & E1 & Hr)]; apply try_op_inv in E1 as (r0 & E1 & Hr0);
    apply move_law in E1; [done|]. injection Hr0 as <-. destruct r1 as [u|e].
  - apply bind_inv in Hr as [(e & E2 & ->)|(u2 & s2 & E2 & Hr)]; apply report_jw in E2 as [? Hj2]; [done|].
    apply bind_inv in Hr as [(e & E3 & ->)|(u3 & s3 & E3 & Hr)]; apply report_jw in E3 as [? Hj3]; [done|].
    injection Hr as <- <-. rewrite Hj3, Hj2. specialize (Hsame Hn). destruct E1 as [Hout Hin].
    assert (Hmoved : ∀ x len c, listed plan x len → files (jw s) (loc (src_op plan) (src_path plan +:+ x)) = Some c →
      files (jw s1) (loc (dst_op plan) (dst_path plan +:+ x)) = Some c ∧
      files (jw s1) (loc (src_op plan) (src_path plan +:+ x)) = None).
    { intros x len c Hx Hc. rewrite <-Hsame. apply Hin; [by eapply covered|done]. }
    split; [split_and!|split].
    + intros l Hl1 Hl2. apply Hout; [done|]. intros y. rewrite Hsame. apply Hl2.
    + intros Hcp'. congruence.
    + intros x len c Hx Hc. right. by eapply Hmoved.
    + intros x len c Hx Hc. by eapply Hmoved.
    + intros _ x len c Hx Hc. by eapply Hmoved.
  - case_bool_decide; injection Hr as <- <-; done.
Qed.

(** The part of a transfer after the rename was not possible. *)
Definition copy_and_delete plan : M Job string (option string) :=
  r ← attempt (copy_tree plan);
  match r with
  | Err e => _ ← try_op (op_delete_all (dst_op plan) (dst_path plan)); throw e
  | Ok _ =>
    _ ← delete_source plan;
    _ ← (if (total_bytes plan =? 0)%N then report (Some 1%N) else mret ());
    _ ← report None;
    mret None
  end.
Lemma run_transfer_unfold plan :
  run_transfer plan =
  (_ ← recheck_quota plan; _ ← start plan; renamed ← try_rename plan;
   if renamed : bool then mret None else copy_and_delete plan).
Proof using Type. done. Qed.

Lemma delete_source_files plan w0 s r s' :
  delete_source plan s = (r, s') → apart plan → dst_only plan w0 (jw s) → arrived plan w0 (jw s) →
  nothing_lost plan w0 (jw s') ∧ arrived plan w0 (jw s') ∧ (r = Ok () → moved_away plan w0 (jw s')).
Proof using Type.
  unfold delete_source. intros Hr Ha Hd Harr.
  assert (Hstay : nothing_lost plan w0 (jw s)) by by apply dst_only_nothing_lost.
  destruct (copying plan) eqn:Hcp.
  { injection Hr as <- <-. split_and!; try done. intros _ Hcp'. congruence. }
  apply bind_inv in Hr as [(e & Hc & ->)|(c & s1 & Hc & Hr)].
  { destruct (cancelled_spec s) as (? & ? & Hc' & _). congruence. }
  assert (Hj : jw s1 = jw s) by (destruct (cancelled_spec s) as (? & ? & Hc' & ? & _); congruence).
  rewrite <-Hj in *. clear Hc Hj s. destruct c; [by injection Hr as <- <-|].
  apply on_op_inv in Hr as (r0 & E1 & Hr0). apply delete_tree_law in E1 as [Hdel Hgone].
  assert (Hdst : ∀ l, (∀ x, l ≠ loc (src_op plan) (src_path plan +:+ x)) → files (jw s') l = files (jw s1) l).
  { intros l Hl. destruct (Hdel l) as [?|[_ [x ->]]]; [done|]. by destruct (Hl x). }
  assert (Harr' : arrived plan w0 (jw s')).
  { intros x len c Hx Hc. rewrite Hdst; [by eapply Harr|]. intros y Heq. by apply (Ha y x). }
  split; [split_and!|split].
  - intros l Hl1 Hl2. rewrite Hdst by done. by apply Hd.
  - intros Hcp'. congruence.
  - intros x len c Hx Hc. right. by eapply Harr'.
  - done.
  - intros -> _ x len c _ _. destruct r0; [|done]. by apply Hgone.
Qed.

Lemma copy_and_delete_files plan s r s' :
  copy_and_delete plan s = (r, s') → same_mount plan → apart plan → slashed plan → accurate plan (jw s) →
  nothing_lost plan (jw s) (jw s') ∧ (is_ok r = true → arrived plan (jw s) (jw s') ∧ moved_away plan (jw s) (jw s')).
Proof using Type.
  unfold copy_and_delete. intros Hr Hsame Ha Hsl Hacc.
  apply bind_inv in Hr as [(e & E1 & ->)|(r1 & s1 & E1 & Hr)]; apply attempt_inv in E1 as (r0 & Hr0 & E1); [done|].
  injection Hr0 as <-. apply copy_tree_files in E1 as [Hf Hok]; try done. destruct r1 as [u|e].
  - destruct u. apply bind_inv in Hr as [(e & E2 & ->)|(u2 & s2 & E2 & Hr)];
      apply (delete_source_files plan (jw s)) in E2 as (Hn & Harr & Hm); try done; try exact (Hok eq_refl).
    assert (Hrest : jw s' = jw s2).
    { apply bind_inv in Hr as [(e & E3 & ->)|(u3 & s3 & E3 & Hr)].
      - destruct (total_bytes plan =? 0)%N; [by apply report_jw in E3 as [? _]|done].
      - assert (jw s3 = jw s2) as <- by (destruct (total_bytes plan =? 0)%N; [by apply report_jw in E3 as [_ ?]|by injection E3 as _ <-]).
        apply bind_inv in Hr as [(e & E4 & ->)|(u4 & s4 & E4 & Hr)]; apply report_jw in E4 as [? <-]; [done|].
        by injection Hr as _ <-. }
    rewrite Hrest. destruct u2. split; [done|]. intros _. split; [done|]. by apply Hm.
  - assert (dst_only plan (jw s1) (jw s') ∧ is_ok r = false) as [Hd ->].
    { apply bind_inv in Hr as [(e2 & E2 & ->)|(u2 & s2 & E2 & Hr)]; apply try_op_inv in E2 as (r0 & E2 & Hr0); [done|].
      injection Hr as <- <-. apply delete_tree_law in E2 as [Hdel _]. split; [|done]. intros l Hl.
      destruct (Hdel l) as [?|[_ [x ->]]]; [done|]. by destruct (Hl x). }
    split; [|done]. apply dst_only_nothing_lost; [done|]. intros l Hl. by rewrite Hd, Hf.
Qed.


(** *** What a transfer reports *)

(** The bar [j], [b] has been opened with [first], and [d] bytes have been counted: by
    the job's own counter, and by the bar's events together with what it holds back. *)
Definition counted (j b : string) (first : Data) (d : N) s : Prop :=
  done s = d ∧ (d ≤ U64_MAX)%N ∧ (reported (sent s) + bytes (pending (bar s)) = d)%N ∧
  job_id (bar s) = j ∧ bar_id (bar s) = b ∧ ∃ mid, sent s = first :: mid.

(** A step that reports nothing. *)
Definition quiet s s' : Prop := bar s' = bar s ∧ sent s' = sent s ∧ done s' = done s ∧ total s' = total s.
Lemma counted_quiet j b first d s s' :
  quiet s s' → counted j b first d s → counted j b first d s' ∧ total s' = total s.
Proof using Type. unfold counted. by intros (-> & -> & -> & ->). Qed.
Lemma tick_quiet s r s' : tick s = (r, s') → quiet s s' ∧ is_ok r = true.
Proof using Type. unfold tick. destruct (clock s); by intros [= <- <-]. Qed.
Lemma cancelled_quiet s r s' : is_cancelled s = (r, s') → quiet s s'.
Proof using Type. unfold is_cancelled. destruct (cancels s); by intros [= _ <-]. Qed.
Lemma try_op_quiet {A} (m : M W DalError A) s r s' : try_op m s = (r, s') → quiet s s'.
Proof using Type. unfold try_op. destruct (m (jw s)). by intros [= _ <-]. Qed.
Lemma on_op_quiet {A} (f : DalError → string) (m : M W DalError A) s r s' : on_op f m s = (r, s') → quiet s s'.
Proof using Type. unfold on_op. destruct (m (jw s)). by intros [= _ <-]. Qed.
Lemma push_quiet wr buf s r s' : push wr buf s = (r, s') → quiet s s'.
Proof using Type. unfold push. destruct (writer_push _ _ _) as [? [? ?]]. by intros [= _ <-]. Qed.
Lemma close_writer_quiet dst wr s r s' : close_writer dst wr s = (r, s') → quiet s s'.
Proof using Type. unfold close_writer. destruct (writer_finish _ _) as [? [? ?]]. by intros [= _ <-]. Qed.

Lemma inc_reported n t t' p evs p' :
  inc n t t' p = (evs, p') → (bytes (pending p) + n ≤ U64_MAX)%N →
  (reported evs + bytes (pending p') = bytes (pending p) + n)%N ∧ job_id p' = job_id p ∧ bar_id p' = bar_id p.
Proof using Type.
  unfold inc. destruct (inc_locked n t p) as [sf p1] eqn:Hl. unfold inc_locked in Hl. injection Hl as _ <-.
  intros Hr Hle. unfold saturating_add in Hr. rewrite N.min_l in Hr by done. destruct sf.
  - apply flush_increment_spec in Hr as ([? ?] & _ & ? & ? & _). cbn in *. split_and!; try done. lia.
  - injection Hr as <- <-. cbn. split_and!; try done; unfold reported, sum; cbn; lia.
Qed.

Lemma report_counted j b first d n s r s' :
  report (Some n) s = (r, s') → counted j b first d s → (d + n ≤ U64_MAX)%N →
  r = Ok () ∧ counted j b first (d + n) s' ∧ total s' = total s.
Proof using Type.
  intros Hr (Hd & Hle & Hrep & Hj & Hb & mid & Hs) Hsum. unfold report in Hr.
  apply bind_inv in Hr as [(e & E1 & ->)|([t t'] & s1 & E1 & Hr)]; apply tick_quiet in E1 as [(Hb1 & Hs1 & Hd1 & Ht1) Hok]; [done|].
  unfold advance in Hr. destruct (inc n t t' (bar s1)) as [evs p] eqn:Hi. injection Hr as <- <-.
  apply inc_reported in Hi as (Hrep' & Hj' & Hb'); [|rewrite Hb1; lia]. rewrite Hb1 in *.
  split; [done|]. split; [|by cbn]. unfold counted. cbn. rewrite Hs1, Hd1, Hd. split_and!.
  - unfold wrapping_add. rewrite N.mod_small; [done|]. unfold U64_MAX in *. lia.
  - done.
  - rewrite reported_app. lia.
  - congruence.
  - congruence.
  - rewrite Hs. eexists. reflexivity.
Qed.

Lemma report_finished j b first d s r s' :
  report None s = (r, s') → counted j b first d s →
  done s' = d ∧ total s' = total s ∧ reported (sent s') = d ∧
  ∃ mid, sent s' = first :: mid ++ [JobStepFinished j b].
Proof using Type.
  intros Hr (Hd & Hle & Hrep & Hj & Hb & mid & Hs). unfold report in Hr.
  apply bind_inv in Hr as [(e & E1 & ->)|([t t'] & s1 & E1 & Hr)]; apply tick_quiet in E1 as [(Hb1 & Hs1 & Hd1 & Ht1) Hok]; [done|].
  unfold conclude, finish in Hr. destruct (flush_increment t (bar s1)) as [evs p] eqn:Hf.
  apply flush_increment_spec in Hf as ([Hr1 _] & _ & Hj' & Hb' & _). injection Hr as _ <-. cbn.
  rewrite Hs1, Hd1, Hd, Ht1, Hj', Hb', Hb1, Hj, Hb in *. split_and!; try done.
  - rewrite !reported_app. unfold reported at 3, sum. cbn. lia.
  - exists (mid ++ evs). rewrite Hs. cbn. by rewrite (assoc_L (++)).
Qed.

Lemma stream_loop_counted j b first fuel from src dst size offset wr d s wr' s' :
  stream_loop fuel from src dst size offset wr s = (Ok wr', s') → counted j b first d s →
  (offset ≤ size)%N → (size ≤ U64_MAX - SPOOL_CHUNK)%N → (d + (size - offset) ≤ U64_MAX)%N →
  counted j b first (d + (size - offset)) s' ∧ total s' = total s.
Proof using H2.
  revert offset wr d s. induction fuel as [|fuel IH]; intros offset wr d s Hr Hk Hle Hsize Hsum; cbn [stream_loop] in Hr.
  { destruct (N.ltb_spec offset size); [done|]. injection Hr as <- <-. replace (d + (size - offset))%N with d by lia. done. }
  destruct (N.ltb_spec offset size) as [Hlt|Hge]; cbn [negb] in Hr.
  2: { injection Hr as <- <-. replace (d + (size - offset))%N with d by lia. done. }
  apply bind_inv in Hr as [(e & _ & [=])|(c & s1 & E1 & Hr)]. 
  apply cancelled_quiet, (counted_quiet j b first d) in E1 as [Hk1 Ht1]; [|done].
  destruct c; [by apply give_up_spec in Hr as [? _]|]. cbn zeta in Hr.
  set (stop := N.min (wrapping_add offset SPOOL_CHUNK) size) in Hr.
  apply bind_inv in Hr as [(e & _ & [=])|(r1 & s2 & E2 & Hr)].
  pose proof (counted_quiet j b first d _ _ (try_op_quiet _ _ _ _ E2) Hk1) as [Hk2 Ht2].
  apply try_op_inv in E2 as (r0 & E2 & [= <-]). apply read_range_law in E2 as [_ Hread].
  destruct r1 as [buf|e]; [|by apply give_up_spec in Hr as [? _]]. destruct Hread as [Hlen _].
  destruct (N.eqb_spec (blen buf) 0) as [|Hne]; [by apply give_up_spec in Hr as [? _]|].
  apply bind_inv in Hr as [(e & _ & [=])|([r3 wr3] & s3 & E3 & Hr)].
  pose proof (counted_quiet j b first d _ _ (push_quiet _ _ _ _ _ E3) Hk2) as [Hk3 Ht3].
  destruct r3 as [[]|e]; [|by apply give_up_spec in Hr as [? _]].
  assert (Hstop : (stop ≤ size)%N) by (unfold stop; lia).
  apply bind_inv in Hr as [(e & _ & [=])|(u & s4 & E4 & Hr)].
  apply (report_counted j b first d) in E4 as (_ & Hk4 & Ht4); [|done|lia].
  replace (saturating_add offset (blen buf)) with (offset + blen buf)%N in Hr by (unfold saturating_add; lia).
  apply (IH _ _ (d + blen buf)%N) in Hr as [Hk' Ht']; [|done|lia|done|lia].
  split; [|congruence]. by replace (d + (size - offset))%N with (d + blen buf + (size - (offset + blen buf)))%N by lia.
Qed.

Lemma stream_copy_counted j b first from src to dst size d s u s' :
  stream_copy from src to dst size s = (Ok u, s') → counted j b first d s →
  (size ≤ U64_MAX - SPOOL_CHUNK)%N → (d + size ≤ U64_MAX)%N → counted j b first (d + size) s' ∧ total s' = total s.
Proof using H2.
  unfold stream_copy. intros Hr Hk Hsize Hsum. apply bind_inv in Hr as [(e & _ & [=])|(wr & s1 & E1 & Hr)].
  apply on_op_quiet, (counted_quiet j b first d) in E1 as [Hk1 Ht1]; [|done].
  apply bind_inv in Hr as [(e & _ & [=])|(wr2 & s2 & E2 & Hr)].
  apply (stream_loop_counted j b first _ _ _ _ _ _ _ d) in E2 as [Hk2 Ht2]; [|done|lia|done|lia].
  rewrite N.sub_0_r in Hk2. apply close_writer_quiet, (counted_quiet j b first (d + size)) in Hr as [Hk3 Ht3]; [|done].
  split; [done|congruence].
Qed.
Lemma copy_one_counted j b first plan src dst len d s u s' :
  copy_one plan src dst len s = (Ok u, s') → counted j b first d s →
  (len ≤ U64_MAX - SPOOL_CHUNK)%N → (d + len ≤ U64_MAX)%N → counted j b first (d + len) s' ∧ total s' = total s.
Proof using H2.
  unfold copy_one. intros Hr Hk Hsize Hsum. destruct (native plan); [|by eapply stream_copy_counted].
  apply bind_inv in Hr as [(e & _ & [=])|(u1 & s1 & E1 & Hr)].
  apply on_op_quiet, (counted_quiet j b first d) in E1 as [Hk1 Ht1]; [|done].
  apply (report_counted j b first d) in Hr as (_ & Hk2 & Ht2); [|done|done]. split; [done|congruence].
Qed.

(** The bytes of the files of a listing. *)
Definition sizes (es : list (string * Meta)) : N :=
  foldr (λ e n, ((if meta_is_dir e.2 then 0 else meta_length e.2) + n)%N) 0%N es.
Lemma sum_lengths_acc es acc :
  (acc ≤ U64_MAX)%N →
  foldl (λ acc e, if meta_is_dir e.2 then acc else saturating_add acc (meta_length e.2)) acc es
  = N.min (acc + sizes es) U64_MAX.
Proof using Type.
  revert acc; induction es as [|e es IH]; intros acc Hle; [cbn; lia|].
  cbn [foldl sizes foldr]. change (foldr _ 0%N es) with (sizes es). rewrite IH; [|destruct (meta_is_dir e.2); [done|apply saturating_add_u64]].
  unfold saturating_add. destruct (meta_is_dir e.2); lia.
Qed.

Lemma copy_entries_counted j b first plan sp dp es d s u s' :
  copy_entries plan sp dp es s = (Ok u, s') → counted j b first d s →
  (∀ m, (sp, m) ∈ es → meta_is_dir m = true) →
  (sizes es ≤ U64_MAX - SPOOL_CHUNK)%N → (d + sizes es ≤ U64_MAX)%N →
  counted j b first (d + sizes es) s' ∧ total s' = total s.
Proof using H2.
  revert d s; induction es as [|[source meta] es IH]; intros d s Hr Hk Hroot Hsize Hsum; cbn [copy_entries] in Hr.
  { injection Hr as _ <-. cbn. by rewrite N.add_0_r. }
  apply bind_inv in Hr as [(e & _ & [=])|(c & s1 & E1 & Hr)].
  apply cancelled_quiet, (counted_quiet j b first d) in E1 as [Hk1 Ht1]; [|done].
  destruct c; [done|]. destruct (strip_prefix sp source) as [rel|] eqn:Hrel; [|done].
  apply strip_prefix_Some in Hrel as ->. cbn [sizes foldr snd] in *. change (foldr _ 0%N es) with (sizes es) in *.
  case_bool_decide as Hempty.
  - subst rel. rewrite app_empty_r in *. rewrite (Hroot meta) in * by (by left).
    apply (IH d) in Hr as [Hk' Ht']; [|done|intros m Hm; apply Hroot; by right|lia|lia].
    split; [by rewrite N.add_0_l|congruence].
  - apply bind_inv in Hr as [(e & _ & [=])|(u1 & s2 & E2 & Hr)].
    assert (counted j b first (d + if meta_is_dir meta then 0 else meta_length meta) s2 ∧ total s2 = total s1) as [Hk2 Ht2].
    { unfold copy_entry in E2. destruct (meta_is_dir meta).
      - rewrite N.add_0_r. by apply on_op_quiet, (counted_quiet j b first d) in E2.
      - eapply copy_one_counted; [exact E2|done|lia|lia]. }
    apply (IH (d + if meta_is_dir meta then 0 else meta_length meta)%N) in Hr as [Hk' Ht'];
      [|done|intros m Hm; apply Hroot; by right|lia|lia].
    split; [by rewrite N.add_assoc|congruence].
Qed.

(** How [vfs_transfer] computed the total. *)
Definition total_listed plan : Prop :=
  if src_is_dir plan
  then total_bytes plan = sum_lengths (entries plan) ∧ ∀ m, (with_slash (src_path plan), m) ∈ entries plan → meta_is_dir m = true
  else True.

Lemma copy_tree_counted j b first plan d s u s' :
  copy_tree plan s = (Ok u, s') → counted j b first d s → total_listed plan →
  (total_bytes plan ≤ U64_MAX - SPOOL_CHUNK)%N → (d + total_bytes plan ≤ U64_MAX)%N →
  counted j b first (d + total_bytes plan) s' ∧ total s' = total s.
Proof using H2.
  unfold copy_tree, total_listed. intros Hr Hk Htot Hsize Hsum.
  destruct (src_is_dir plan); cbn [negb] in Hr; [|by eapply copy_one_counted].
  destruct Htot as [Htot Hroot]. unfold sum_lengths in Htot. rewrite sum_lengths_acc in Htot by (unfold U64_MAX; lia).
  assert (total_bytes plan = sizes (entries plan)) as Heq.
  { assert (0 < SPOOL_CHUNK)%N by done. unfold U64_MAX in *. lia. }
  apply bind_inv in Hr as [(e & _ & [=])|(u1 & s1 & E1 & Hr)].
  apply on_op_quiet, (counted_quiet j b first d) in E1 as [Hk1 Ht1]; [|done].
  rewrite Heq in *. eapply copy_entries_counted in Hr as [Hk' Ht']; [|exact Hk1|exact Hroot|done|done].
  split; [done|congruence].
Qed.

Lemma try_rename_counted j b first plan s renamed s' :
  try_rename plan s = (Ok renamed, s') → counted j b first 0 s → (N.max (total_bytes plan) 1 ≤ U64_MAX)%N →
  if renamed : bool
  then done s' = N.max (total_bytes plan) 1 ∧ total s' = total s ∧ reported (sent s') = N.max (total_bytes plan) 1 ∧
       ∃ mid, sent s' = first :: mid ++ [JobStepFinished j b]
  else counted j b first 0 s' ∧ total s' = total s.
Proof using Type.
  unfold try_rename. intros Hr Hk Hle. destruct (native plan && negb (copying plan)); [|by injection Hr as <- <-].
  apply bind_inv in Hr as [(e & _ & [=])|(r1 & s1 & E1 & Hr)].
  apply try_op_quiet, (counted_quiet j b first 0) in E1 as [Hk1 Ht1]; [|done]. destruct r1 as [u|e].
  - apply bind_inv in Hr as [(e & _ & [=])|(u2 & s2 & E2 & Hr)].
    apply (report_counted j b first 0) in E2 as (_ & Hk2 & Ht2); [|done|lia].
    apply bind_inv in Hr as [(e & _ & [=])|(u3 & s3 & E3 & Hr)].
    apply (report_finished j b first (0 + N.max (total_bytes plan) 1)) in E3 as (? & ? & ? & ?); [|done].
    injection Hr as <- <-. rewrite N.add_0_l in *. split_and!; try done. congruence.
  - case_bool_decide; [|done]. by injection Hr as <- <-.
Qed.
Lemma copy_and_delete_counted j b first plan s r s' :
  copy_and_delete plan s = (Ok r, s') → counted j b first 0 s → total_listed plan →
  (total_bytes plan ≤ U64_MAX - SPOOL_CHUNK)%N →
  r = None ∧ done s' = N.max (total_bytes plan) 1 ∧ total s' = total s ∧
  reported (sent s') = N.max (total_bytes plan) 1 ∧ ∃ mid, sent s' = first :: mid ++ [JobStepFinished j b].
Proof using H2.
  assert (Hchunk : (SPOOL_CHUNK = 8388608)%N) by done. unfold copy_and_delete. intros Hr Hk Htot Hsize.
  apply bind_inv in Hr as [(e & _ & [=])|(r1 & s1 & E1 & Hr)]. apply attempt_inv in E1 as (r0 & [= <-] & E1).
  destruct r1 as [u|e].
  2: { apply bind_inv in Hr as [(e2 & _ & [=])|(u2 & s2 & _ & Hr)]. done. }
  apply (copy_tree_counted j b first plan 0) in E1 as [Hk1 Ht1]; [|done|done|done|unfold U64_MAX in *; lia].
  apply bind_inv in Hr as [(e & _ & [=])|(u2 & s2 & E2 & Hr)].
  assert (quiet s1 s2) as Hq.
  { unfold delete_source in E2. destruct (copying plan); [by injection E2 as _ <-|].
    apply bind_inv in E2 as [(e & _ & [=])|(c & s3 & E3 & E2)]. apply cancelled_quiet in E3 as (? & ? & ? & ?).
    destruct c; [done|]. apply on_op_quiet in E2 as (? & ? & ? & ?). unfold quiet. split_and!; congruence. }
  apply (counted_quiet j b first (0 + total_bytes plan)) in Hq as [Hk2 Ht2]; [|done].
  apply bind_inv in Hr as [(e & _ & [=])|(u3 & s3 & E3 & Hr)].
  assert (counted j b first (N.max (total_bytes plan) 1) s3 ∧ total s3 = total s2) as [Hk3 Ht3].
  { destruct (N.eqb_spec (total_bytes plan) 0) as [Hz|Hz].
    - apply (report_counted j b first (0 + total_bytes plan)) in E3 as (_ & Hk3 & Ht3); [|done|rewrite Hz; done].
      rewrite Hz in Hk3 |- *. done.
    - injection E3 as _ <-. by replace (N.max (total_bytes plan) 1) with (0 + total_bytes plan)%N by lia. }
  apply bind_inv in Hr as [(e & _ & [=])|(u4 & s4 & E4 & Hr)].
  apply (report_finished j b first (N.max (total_bytes plan) 1)) in E4 as (? & ? & ? & ?); [|done].
  injection Hr as <- <-. split_and!; try done. congruence.
Qed.

(** A transfer that succeeds has reported all of it. Starting from a fresh bar, a job
    that ends well leaves both of its counters at the total (at least 1, so that an
    empty transfer is complete too), whatever mixture of native and streamed copies
    it took; its events open with that total, end with the end of the bar, and their
    increments add up to it, so that no client sees a finished bar short of 100%. *)
Theorem successful_transfers_report_everything plan job bar_name pre s r s' :
  run_transfer plan s = (Ok r, s') →
  done s = 0%N → sent s = [] → bar s = create_new job bar_name pre →
  total_listed plan → (total_bytes plan ≤ U64_MAX - SPOOL_CHUNK)%N →
  let t := N.max (total_bytes plan) 1 in
  r = None ∧ done s' = t ∧ total s' = t ∧ reported (sent s') = t ∧
  ∃ mid, sent s' = JobStepLengthSet job bar_name t :: mid ++ [JobStepFinished job bar_name].
Proof using H2.
  rewrite run_transfer_unfold. intros Hr Hd Hs Hb Htot Hsize t.
  assert (Hchunk : (SPOOL_CHUNK = 8388608)%N) by done.
  set (first := JobStepLengthSet job bar_name t).
  apply bind_inv in Hr as [(e & _ & [=])|(u1 & s1 & E1 & Hr)].
  assert (s1 = s) as ->.
  { unfold recheck_quota in E1. destruct (local_quota plan) as [[[? ?] ?]|]; by injection E1 as _ <-. }
  apply bind_inv in Hr as [(e & _ & [=])|(u2 & s2 & E2 & Hr)].
  assert (counted job bar_name first 0 s2 ∧ total s2 = t) as [Hk2 Ht2].
  { unfold start in E2. injection E2 as _ <-. unfold counted. cbn. rewrite Hd, Hs, Hb. cbn.
    split; [|done]. split_and!; try done. by exists []. }
  apply bind_inv in Hr as [(e & _ & [=])|(renamed & s3 & E3 & Hr)].
  apply (try_rename_counted job bar_name first) in E3; [|done|unfold U64_MAX in *; lia]. fold t in E3.
  destruct renamed.
  - injection Hr as <- <-. destruct E3 as (? & ? & ? & ?). split_and!; try done. congruence.
  - destruct E3 as [Hk3 Ht3].
    apply (copy_and_delete_counted job bar_name first) in Hr as (-> & ? & ? & ? & ?); try done.
    split_and!; try done. congruence.
Qed.
End Files.

(** ** Accepted requests *)

Section Accepted.
Context {O W : Type} `{OA : OperatorApi O W} `{FA : !FileApi O W} `{!TransferApi O W} `{!RemoveLaws O W}.
Context `{!StoreLib O W} `{JL : JsonLib} `{Foreign}.
Notation Server := (Server (O := O) (W := W)).
Implicit Types (y : Server) (plan : TransferPlan (O := O)).

(** No step before the registration touches the jobs or the users. *)
Definition steady y y' : Prop := jobs y' = jobs y ∧ same_rows y y'.
Lemma steady_trans y1 y2 y3 : steady y1 y2 → steady y2 y3 → steady y1 y3.
Proof using Type. unfold steady, same_rows. intros [? ?] [? ?]. split; congruence. Qed.
Definition same_jobs {A} (m : M Server Status A) : Prop := ∀ y r y', m y = (r, y') → steady y y'.
Lemma same_jobs_bind {A B} (m : M Server Status A) (f : A → M Server Status B) :
  same_jobs m → (∀ a, same_jobs (f a)) → same_jobs (mbind f m).
Proof using Type.
  intros Hm Hf y r y' [(e & E & ->)|(a & y1 & E & Hr)]%bind_inv; [by eapply Hm|].
  eapply steady_trans; [by eapply Hm|by eapply Hf].
Qed.
Lemma same_jobs_lift {A} (r : result Status A) : same_jobs (lift r).
Proof using Type. intros y r' y' [= _ <-]. done. Qed.
Lemma same_jobs_gets {A} (f : Server → A) : same_jobs (gets f).
Proof using Type. intros y r' y' [= _ <-]. done. Qed.
Lemma same_jobs_throw {A} e : same_jobs (throw e : M Server Status A).
Proof using Type. intros y r' y' [= _ <-]. done. Qed.
Lemma same_jobs_ret {A} (a : A) : same_jobs (mret a).
Proof using Type. intros y r' y' [= _ <-]. done. Qed.
Lemma same_jobs_user n : same_jobs (get_user n).
Proof using Type. intros y r y' (_ & Hj & Hu & _)%get_user_stored. by split. Qed.
Lemma same_jobs_disk {A} (m : M W Status A) : same_jobs (on_disk m).
Proof using Type.
  intros y r y'. unfold on_disk, in_storage. destruct (on_world m _) as [? ?]. by intros [= _ <-].
Qed.
Lemma same_jobs_operator a d : same_jobs (get_operator a d).
Proof using Type.
  unfold get_operator. apply same_jobs_bind; [apply same_jobs_user|intros u]. apply same_jobs_bind; [apply same_jobs_lift|intros p].
  apply same_jobs_bind; [|intros o; apply same_jobs_bind; [apply same_jobs_gets|intros y]].
  - intros y r y'. unfold m_map_err, in_storage. destruct (Store.get_vfs u _) as [? ?]. by intros [= _ <-].
  - apply same_jobs_bind; [apply same_jobs_lift|intros _]. apply same_jobs_ret.
Qed.

Lemma stat_any_dir op path w m p w' : stat_any op path w = (Ok (m, p), w') → meta_is_dir m = true → ends_with_char slash p = true.
Proof using Type.
  unfold stat_any. intros [(e & _ & [=])|(r & w1 & _ & Hr)]%bind_inv Hd. destruct r as [m0|e].
  - injection Hr as <- <- _. rewrite Hd. apply fix_path_slash.
  - destruct (is_not_found e); [|done]. cbn zeta in Hr. apply bind_inv in Hr as [(e2 & _ & [=])|(m0 & w2 & _ & Hr)].
    injection Hr as _ <- _. apply fix_path_slash.
Qed.

Lemma not_found_status e : code (map_dal e) = Code.NotFound → is_not_found e = true.
Proof using Type. unfold map_dal, is_not_found. by destruct (err_kind e). Qed.

Lemma check_absent_spec op d path w w' :
  check_absent op d path w = (Ok (), w') →
  (∀ q, present w' op q ↔ present w op q) ∧ ¬ present w' op path ∧ ¬ present w' op (fix_path path true).
Proof using Type.
  unfold check_absent, stat_any. intros [(e & _ & [=])|(r & w1 & E & Hr)]%bind_inv.
  apply attempt_inv in E as (r0 & [= <-] & E). destruct r as [[m p]|e].
  { by repeat case_match. }
  case_bool_decide as Hcode; [|done]. injection Hr as <-.
  apply bind_inv in E as [(e2 & E1 & _)|(r1 & w2 & E1 & E)]; apply attempt_inv in E1 as (r2 & Hr2 & E1); [done|].
  injection Hr2 as <-. apply stat_law in E1 as [Hs1 Hp1]. destruct r1 as [m|e1]; [done|].
  destruct (is_not_found e1) eqn:Hnf.
  2: { injection E as <- _. apply not_found_status in Hcode. congruence. }
  cbn zeta in E. apply bind_inv in E as [(e2 & E2 & [= ->])|(m & w3 & _ & E)]; [|done].
  apply map_err_inv in E2 as ([?|e3] & [= ->] & E2). apply stat_law in E2 as [Hs2 Hp2].
  apply not_found_status in Hcode. split; [|split].
  - intros q. by rewrite Hs2, Hs1.
  - rewrite Hs2, Hs1. by apply Hp1.
  - rewrite Hs2. by apply Hp2.
Qed.

Lemma on_disk_inv {A} (m : M W Status A) y r y' :
  on_disk m y = (r, y') → m (world (storage y)) = (r, world (storage y')).
Proof using Type.
  unfold on_disk, in_storage. destruct (on_world m (storage y)) as [r0 s0] eqn:E. intros [= <- <-].
  unfold on_world in E. destruct (m (world (storage y))) as [r1 w1]. by injection E as <- <-.
Qed.
Lemma same_jobs_if {A} (b : bool) (m1 m2 : M Server Status A) : same_jobs m1 → same_jobs m2 → same_jobs (if b then m1 else m2).
Proof using Type. by destruct b. Qed.

Lemma bind_jobs {A B} (m : M Server Status A) (f : A → M Server Status B) y0 y r y' :
  mbind f m y = (r, y') → steady y0 y → same_jobs m →
  (∃ e, r = Err e ∧ steady y0 y') ∨ (∃ a y1, m y = (Ok a, y1) ∧ steady y0 y1 ∧ f a y1 = (r, y')).
Proof using Type.
  intros Hr Hs Hm. apply bind_inv in Hr as [(e & E & ->)|(a & y1 & E & Hr)]; apply Hm in E as Hs1;
    pose proof (steady_trans _ _ _ Hs Hs1); [left; by exists e|right; by exists a, y1].
Qed.
#[local] Hint Resolve same_jobs_user same_jobs_lift same_jobs_operator same_jobs_disk same_jobs_gets same_jobs_throw
  same_jobs_ret same_jobs_if : jobs.
(** The next step of a handler: its error ends the proof, its value goes on. *)
Ltac next_step Hr Hs a y1 E :=
  let Hd := fresh in let Hs1 := fresh in let Hr1 := fresh in
  pose proof (bind_jobs _ _ _ _ _ _ Hr Hs ltac:(solve [eauto with jobs])) as Hd; clear Hr Hs;
  destruct Hd as [(? & -> & Hs1)|(a & y1 & E & Hs1 & Hr1)]; [by apply Hs1|]; rename Hs1 into Hs; rename Hr1 into Hr.

Lemma stat_any_path op path w m p w' : stat_any op path w = (Ok (m, p), w') → p = path ∨ p = fix_path path true.
Proof using Type.
  unfold stat_any. intros [(e & _ & [=])|(r & w1 & _ & Hr)]%bind_inv. destruct r as [m0|e].
  - injection Hr as _ <- _. destruct (meta_is_dir m0); [by right|by left].
  - destruct (is_not_found e); [|done]. cbn zeta in Hr. apply bind_inv in Hr as [(e2 & _ & [=])|(m0 & w2 & _ & Hr)].
    injection Hr as _ <- _. by right.
Qed.
(** The operator of a path is the table of the stored user it names. *)
Lemma get_operator_inv a d y op path y' :
  get_operator a d y = (Ok (op, path), y') →
  ∃ u vp, stored_user (pa_user a) y = Ok u ∧ resolve_file_path u (pa_path a) = Ok vp ∧ path = fix_path vp d ∧
    Store.get_vfs u (storage y) = (Ok op, storage y').
Proof using Type.
  unfold get_operator. intros [(e & _ & [=])|(u & y1 & E & Hr)]%bind_inv. apply get_user_stored in E as (Hs & _ & _ & Hu).
  apply bind_inv in Hr as [(e & _ & [=])|(vp & y2 & E2 & Hr)]. injection E2 as E2 <-.
  apply bind_inv in Hr as [(e & _ & [=])|(op0 & y3 & E3 & Hr)]. unfold m_map_err, in_storage in E3.
  destruct (Store.get_vfs u (storage y1)) as [[o|e] st] eqn:Eg; [|done]. injection E3 as -> <-.
  apply bind_inv in Hr as [(e & _ & [=])|(y4 & y5 & E4 & Hr)]. injection E4 as <- <-.
  apply bind_inv in Hr as [(e & _ & [=])|([] & y6 & E5 & Hr)]. injection E5 as _ <-. injection Hr as <- <- <-.
  exists u, vp. rewrite <-Hs. by split_and!; [apply Hu| | |].
Qed.

Lemma check_points_ok copy src dst :
  check_points copy src dst = Ok () → is_user_writable dst = true ∧ (copy = false → is_user_writable src = true).
Proof using Type.
  unfold check_points, require_user_writable, is_user_writable.
  destruct (is_repo dst), (is_local_scheme (scheme dst)), (Points.read_only dst); try done. cbn.
  destruct copy; [done|]. by destruct (is_repo src), (is_local_scheme (scheme src)), (Points.read_only src).
Qed.

(** C34. What a transfer is allowed to do. Both paths are resolved for the users they name,
    as they are stored when the request comes, and what is transferred is found through the
    tables of these users. A request becomes a job only when the
    destination lies in a writable local data point and, for a move, the source too (so
    nothing is ever moved out of a repository or a remote point); when nothing exists at
    the destination, in either form of its path; and within one mount only between
    different paths and never from a directory into itself. Native operations are planned
    only within one mount of one backend, the quota is re-checked unless a move stays in
    its point, the total is that of the listing, and directory paths end with a slash.
    Exactly one job is registered, for the owner of the source; a refused request
    registers none. *)
Theorem transfers_are_checked args id y r y' :
  vfs_transfer args id y = (r, y') →
  match r with
  | Err _ => jobs y' = jobs y
  | Ok plan => ∃ old new src_user dst_user src_vfs dst_vfs src dst src_rest dst_rest,
      ta_old args = Some old ∧ ta_new args = Some new ∧
      (stored_user (pa_user old) y = Ok src_user ∧ resolve_file_path src_user (pa_path old) = Ok src_vfs ∧
         resolve_point_path src_user src_vfs = Ok (src, src_rest)) ∧
      (stored_user (pa_user new) y = Ok dst_user ∧ resolve_file_path dst_user (pa_path new) = Ok dst_vfs ∧
         resolve_point_path dst_user dst_vfs = Ok (dst, dst_rest)) ∧
      ((Store.get_vfs src_user (storage y)).1 = Ok (src_op plan) ∧
       (Store.get_vfs dst_user (Store.get_vfs src_user (storage y)).2).1 = Ok (dst_op plan)) ∧
      (src_path plan = fix_path src_vfs false ∨ src_path plan = fix_path (fix_path src_vfs false) true) ∧
      dst_path plan = (let p := fix_path dst_vfs false in if src_is_dir plan then fix_path p true else p) ∧
      (is_user_writable dst = true ∧ (ta_copy args = false → is_user_writable src = true)) ∧
      (¬ present (world (storage y')) (dst_op plan) (dst_path plan) ∧
       ¬ present (world (storage y')) (dst_op plan) (fix_path (dst_path plan) true)) ∧
      (pt_id src = pt_id dst → src_path plan ≠ dst_path plan ∧
         (src_is_dir plan = true → starts_with (src_path plan) (dst_path plan) = false)) ∧
      (native plan = true ↔ op_info (src_op plan) = op_info (dst_op plan) ∧ pt_id src = pt_id dst) ∧
      (local_quota plan = None ↔ ta_copy args = false ∧ pt_id src = pt_id dst) ∧
      copying plan = ta_copy args ∧
      (src_is_dir plan = true → total_bytes plan = sum_lengths (entries plan) ∧
         ends_with_char slash (src_path plan) = true ∧ ends_with_char slash (dst_path plan) = true) ∧
      jobs y' = <[id := {| job_user := pa_user old; cancelled := false |}]> (jobs y)
  end.
Proof using Type.
  unfold vfs_transfer. intros Hr. assert (Hs : steady y y) by done.
  next_step Hr Hs old y1 Eold. next_step Hr Hs new y2 Enew. injection Eold as Eold <-. injection Enew as Enew <-.
  destruct (same_argument old new); [injection Hr as <- <-; apply Hs|].
  next_step Hr Hs su y3 Esu. apply get_user_stored in Esu as (Hst3 & _ & Hrow3 & Hsu). specialize (Hsu _ eq_refl).
  next_step Hr Hs du y4 Edu. apply get_user_stored in Edu as (Hst4 & _ & Hrow4 & Hdu). specialize (Hdu _ eq_refl).
  rewrite (stored_user_same _ y) in Hdu by done.
  next_step Hr Hs sv y5 Esv. next_step Hr Hs dv y6 Edv. injection Esv as Esv <-. injection Edv as Edv <-.
  next_step Hr Hs srcp y7 Esrc. destruct srcp as [src srest]. next_step Hr Hs dstp y8 Edst. destruct dstp as [dst drest].
  next_step Hr Hs chk y9 Echk. destruct chk. injection Esrc as Esrc <-. injection Edst as Edst <-. injection Echk as Echk <-.
  pose proof Hs as [_ Hrow]. next_step Hr Hs sop y10 Esop. destruct sop as [sop spath].
  apply get_operator_inv in Esop as (u & vp & Hu & Hvp & -> & Hsop).
  rewrite (stored_user_same _ _ _ Hrow), Hsu in Hu. injection Hu as <-. rewrite Esv in Hvp. injection Hvp as <-. rewrite Hst4, Hst3 in Hsop.
  pose proof Hs as [_ Hrow10]. next_step Hr Hs dop y11 Edop. destruct dop as [dop dpath].
  apply get_operator_inv in Edop as (u & vp & Hu & Hvp & -> & Hdop).
  rewrite (stored_user_same _ _ _ Hrow10), Hdu in Hu. injection Hu as <-. rewrite Edv in Hvp. injection Hvp as <-.
  next_step Hr Hs smp y12 Est. destruct smp as [smeta sp]. cbn zeta in Hr.
  next_step Hr Hs abs y13 Eabs. destruct abs. apply on_disk_inv, check_absent_spec in Eabs as (_ & Habs1 & Habs2).
  apply on_disk_inv in Est. pose proof (λ Hd, stat_any_dir _ _ _ _ _ _ Est Hd) as Hslash. apply stat_any_path in Est as Hsp.
  set (dp := if meta_is_dir smeta then fix_path (fix_path dv false) true else fix_path dv false) in *.
  set (same := bool_decide (pt_id src = pt_id dst)) in *.
  destruct (same && bool_decide (sp = dp)) eqn:Hpath; [injection Hr as <- <-; apply Hs|].
  destruct (meta_is_dir smeta && same && starts_with sp dp) eqn:Hself; [injection Hr as <- <-; apply Hs|].
  next_step Hr Hs es y14 Ees.
  assert (Hpres : ∀ q, present (world (storage y14)) dop q ↔ present (world (storage y13)) dop q).
  { intros q. destruct (meta_is_dir smeta); [|by injection Ees as _ <-].
    apply on_disk_inv, map_err_inv in Ees as (r0 & _ & Ees). apply list_all_law in Ees as [Hl _]. apply Hl. }
  next_step Hr Hs root y15 Eroot. next_step Hr Hs w y16 Ew. next_step Hr Hs full y17 Efull.
  injection Eroot as _ <-. injection Ew as _ <-. injection Efull as _ <-.
  injection Hr as <- <-. cbn [src_op dst_op src_path dst_path src_is_dir entries total_bytes copying native local_quota storage jobs].
  exists old, new, su, du, sv, dv, src, dst, srest, drest. rewrite !Hpres, Hsop. cbn [fst snd]. rewrite Hdop.
  assert (Hsame : same = true ↔ pt_id src = pt_id dst) by apply bool_decide_eq_true.
  split_and!; try done.
  - unfold require_path, ok_or in Eold. destruct (ta_old args); [by injection Eold as ->|done].
  - unfold require_path, ok_or in Enew. destruct (ta_new args); [by injection Enew as ->|done].
  - by apply check_points_ok in Echk as [? _].
  - by apply check_points_ok in Echk as [_ ?].
  - intros Hid%Hsame. rewrite Hid in Hpath, Hself. split.
    + by apply bool_decide_eq_false in Hpath.
    + intros Hd. by rewrite Hd in Hself.
  - rewrite andb_true_iff, Hsame. by rewrite bool_decide_eq_true.
  - rewrite <-Hsame. destruct (ta_copy args), same; cbn; naive_solver.
  - intros Hd. rewrite Hd. split_and!; [done|by apply Hslash|]. unfold dp. rewrite Hd. apply fix_path_slash.
  - by destruct Hs as [-> _].
Qed.
End Accepted.

(** ** Concrete transfers *)

Module DemoTransfer.
Import DiskOp.
Import (hints) DiskOp.
Open Scope string_scope.
#[local] Existing Instance plain_foreign.

#[export] Instance disk_transfer : TransferApi op store := {|
  op_info o := ("fs", mount o, "");
  op_read_range o p from to := λ w, (
    (λ c, String.substring (N.to_nat from) (N.to_nat (to - from)) c) <$> ok_or absent (content (w !! (mount o, p))), w);
  local_len _ _ := None;
  status_text := message;
|}.
Lemma substring_blen from n c :
  (blen (String.substring from n c) ≤ N.of_nat n)%N ∧
  String.substring from n c = slice (N.of_nat from) (blen (String.substring from n c)) c.
Proof.
  unfold slice, blen. rewrite !Nat2N.id. revert from n; induction c as [|x c IH]; intros from n.
  - destruct from, n; cbn; split; try done; lia.
  - destruct from as [|from]; [destruct n as [|n]|].
    + by cbn; split.
    + destruct (IH 0 n) as [H1 H2]. cbn. split; [lia|]. f_equal. exact H2.
    + apply IH.
Qed.

#[export] Program Instance disk_laws : TransferLaws op store := {|
  Loc := string * string; loc o p := (mount o, p); files w l := content (w !! l);
  w_loc := fst; w_data := snd;
|}.
Next Obligation. by intros o p q [= ->]. Qed.
Next Obligation.
  intros o p from to w r w' Hr. cbn in *. injection Hr as <- <-. split; [done|].
  destruct (content (w !! (mount o, p))) as [c|]; cbn; [|done].
  destruct (substring_blen (N.to_nat from) (N.to_nat (to - from)) c) as [H1 H2]. rewrite N2Nat.id in H1, H2.
  split; [done|]. by exists c.
Qed.
Next Obligation.
  intros o p w r w' Hr. cbn in *. injection Hr as <- <-. unfold store in *. split; [|done]. intros l Hl.
  by rewrite lookup_insert_ne.
Qed.
Next Obligation.
  intros [l d] bs w r [l' d'] w' Hr. cbn in *. unfold store in *. injection Hr as <- <- <- <-. split_and!; try done.
  intros l' Hl. by rewrite lookup_insert_ne.
Qed.
Next Obligation.
  intros [l d] w r [l' d'] w' Hr. cbn in *. unfold store in *. injection Hr as <- <- <- <-. split.
  - intros l' Hl. by rewrite lookup_insert_ne.
  - intros _. by rewrite lookup_insert_eq.
Qed.
Next Obligation.
  intros o p q w r w' Hr. cbn in *. unfold store in *. destruct (content (w !! (mount o, p))) as [c|] eqn:Hc; injection Hr as <- <-.
  - split; [intros l Hl; by rewrite lookup_insert_ne|]. intros _. rewrite lookup_insert_eq. by split; [exists c|].
  - by split.
Qed.
Next Obligation.
  intros o p w r w' Hr l. cbn in *. unfold store in *. destruct (content (w !! (mount o, p))) as [c|] eqn:Hc; injection Hr as <- <-; [done|].
  destruct (decide (l = (mount o, p))) as [->|Hl]; [by rewrite lookup_insert_eq, Hc|by rewrite lookup_insert_ne].
Qed.
Next Obligation.
  intros o p q w r w' Hr. cbn in *. unfold store in *.
  destruct (negb (native_rename o) || ends_with_char slash p) eqn:Hs; [by injection Hr as <- <-|].
  apply orb_false_iff in Hs as [_ Hs].
  destruct (content (w !! (mount o, p))) as [c|] eqn:Hc; [|by injection Hr as <- <-].
  case_bool_decide as Hpq; injection Hr as <- <-; [done|]. split.
  - intros l Hl1 Hl2. specialize (Hl1 ""). specialize (Hl2 ""). rewrite app_empty_r in Hl1, Hl2.
    by rewrite lookup_insert_ne, lookup_delete_ne.
  - intros x c' [->|?] Hx; [|congruence]. rewrite !app_empty_r in *. rewrite lookup_insert_eq.
    rewrite lookup_insert_ne, lookup_delete_eq by congruence. split; [|done]. cbn. congruence.
Qed.
Next Obligation.
  intros o p w r w' Hr. cbn in *. unfold store in *. injection Hr as <- <-. split.
  - intros l. rewrite map_lookup_filter. destruct (w !! l) as [n|] eqn:Hn; cbn; [|by left].
    destruct (decide (l.1 = mount o ∧ starts_with p l.2 = true ∧ n ≠ Dir)) as [Hd|Hd].
    + right. rewrite option_guard_False by (intros Hx; by apply Hx). split; [done|].
      destruct Hd as (H1 & H2 & _). apply starts_with_true in H2 as [x Hx]. exists x. destruct l; cbn in *. congruence.
    + left. by rewrite option_guard_True.
  - intros _ x. rewrite map_lookup_filter. destruct (w !! (mount o, p +:+ x)) as [n|] eqn:Hn; cbn; [|done].
    destruct n as [|c].
    + rewrite option_guard_True; [done|]. cbn. by intros (_ & _ & ?).
    + rewrite option_guard_False; [done|]. intros Hx. apply Hx. cbn. by rewrite starts_with_app.
Qed.

(** Moving a directory to another mount: no native rename, two files to stream. *)
Definition pics : op := {| mount := "pics"; native_rename := false |}.
Definition nested : store :=
  {[("docs", "/a/") := Dir; ("docs", "/a/x.txt") := File "hello"; ("docs", "/a/sub/") := Dir;
    ("docs", "/a/sub/y") := File ""; ("docs", "/ab.txt") := File "kept"]}.
Definition plan : TransferPlan (O := op) :=
  {| src_op := docs; dst_op := pics; src_path := "/a/"; dst_path := "/b/"; src_is_dir := true;
     entries := below docs "/a/" nested; total_bytes := 5; copying := false; native := false; local_quota := None |}.
Definition fresh_job (w : store) (c : list bool) : Job (W := store) :=
  {| jw := w; bar := create_new "job" "bar" "transfer"; sent := []; done := 0; total := 0; cancels := c; clock := [] |}.

Example moved :
  (λ '(r, s), (r, files (jw s) ("pics", "/b/x.txt"), files (jw s) ("docs", "/a/x.txt"), files (jw s) ("docs", "/ab.txt")))
    (run_transfer plan (fresh_job nested [])) = (Ok None, Some "hello", None, Some "kept").
Proof. vm_compute. reflexivity. Qed.
(** Cancelled after the copy: the source stays. *)
Example cancelled_move :
  (λ '(r, s), (is_ok r, files (jw s) ("docs", "/a/x.txt")))
    (run_transfer plan (fresh_job nested [false; false; false; false; true])) = (false, Some "hello").
Proof. vm_compute. reflexivity. Qed.

(** The source of a move is deleted recursively even if it is a file. On a backend
    whose recursive delete goes by prefix, that takes its siblings along. *)
Definition file_plan : TransferPlan (O := op) :=
  {| src_op := docs; dst_op := pics; src_path := "/ab"; dst_path := "/b"; src_is_dir := false;
     entries := []; total_bytes := 2; copying := false; native := false; local_quota := None |}.
Lemma moving_a_file_takes_its_siblings :
  let w := {[("docs", "/ab") := File "ok"; ("docs", "/ab.txt") := File "kept"]} : store in
  (λ '(r, s), (r, files (jw s) ("pics", "/b"), files (jw s) ("docs", "/ab.txt"), files (jw s) ("pics", "/b.txt")))
    (run_transfer file_plan (fresh_job w [])) = (Ok None, Some "ok", None, None).
Proof. vm_compute. reflexivity. Qed.

Definition listing : list (string * meta) :=
  [("/a/sub/y", {| md_dir := false; md_len := 0 |}); ("/a/sub/", {| md_dir := true; md_len := 0 |});
   ("/a/", {| md_dir := true; md_len := 0 |}); ("/a/x.txt", {| md_dir := false; md_len := 5 |})].
Lemma plan_listing : entries plan = listing.
Proof. vm_compute. reflexivity. Qed.
Lemma plan_listed x len : listed plan x len → (x = "sub/y" ∧ len = 0%N) ∨ (x = "x.txt" ∧ len = 5%N).
Proof.
  intros (Hx & m & Hin & Hd & ->). rewrite plan_listing in Hin.
  assert (Hor : ∀ e : string * meta, e ∈ listing →
    e = ("/a/sub/y", {| md_dir := false; md_len := 0 |}) ∨ md_dir e.2 = true ∨ e = ("/a/x.txt", {| md_dir := false; md_len := 5 |})).
  { unfold listing. intros e. rewrite !elem_of_cons, elem_of_nil.
    intros [->|[->|[->|[->|[]]]]]; [by left|by right; left|by right; left|by right; right]. }
  destruct (Hor _ Hin) as [[= -> ->]|[Hdir|[= -> ->]]]; [by left| |by right].
  cbn in Hd, Hdir. congruence.
Qed.
Lemma plan_x : listed plan "x.txt" 5.
Proof.
  split; [discriminate|]. exists {| md_dir := false; md_len := 5 |}. rewrite plan_listing.
  assert (Hin : ("/a/x.txt", {| md_dir := false; md_len := 5 |}) ∈ listing).
  { unfold listing. rewrite !elem_of_cons. by do 3 right; left. }
  split; [exact Hin|]. by split.
Qed.
Lemma plan_accurate : accurate plan nested.
Proof.
  assert (Hy : files nested (loc (src_op plan) (src_path plan +:+ "sub/y")) = Some "") by (vm_compute; reflexivity).
  assert (Hz : files nested (loc (src_op plan) (src_path plan +:+ "x.txt")) = Some "hello") by (vm_compute; reflexivity).
  intros x len [[-> ->]|[-> ->]]%plan_listed; (split; [vm_compute; discriminate|]); intros c.
  - rewrite Hy. by intros [= <-].
  - rewrite Hz. by intros [= <-].
Qed.
Lemma plan_apart : apart plan.
Proof. by intros x y [=]. Qed.
Lemma plan_slashed : slashed plan.
Proof. by split. Qed.
Lemma plan_mounts : same_mount plan.
Proof. by intros [=]. Qed.


Lemma plan_total : total_bytes plan = sum_lengths (entries plan).
Proof. rewrite plan_listing. reflexivity. Qed.
Lemma plan_small : (total_bytes plan ≤ U64_MAX - SPOOL_CHUNK)%N.
Proof. vm_compute. discriminate. Qed.
Lemma successful_transfers_report_everything_witness :
  done (run_transfer plan (fresh_job nested [])).2 = 5%N ∧
  reported (sent (run_transfer plan (fresh_job nested [])).2) = 5%N.
Proof.
  destruct (run_transfer plan (fresh_job nested [])) as [[r|e] s] eqn:E.
  2: { assert (Hr : is_ok (run_transfer plan (fresh_job nested [])).1 = true) by (vm_compute; reflexivity).
       rewrite E in Hr. discriminate Hr. }
  assert (Hroot : total_listed plan).
  { split; [exact plan_total|]. intros m Hin. rewrite plan_listing in Hin.
    assert (Hor : ∀ e : string * meta, e ∈ listing → e.1 = "/a/" → md_dir e.2 = true).
    { unfold listing. intros e'. rewrite !elem_of_cons, elem_of_nil. by intros [->|[->|[->|[->|[]]]]]. }
    by apply (Hor _ Hin). }
  destruct (successful_transfers_report_everything plan "job" "bar" "transfer" _ _ _ E eq_refl eq_refl eq_refl Hroot)
    as (_ & Hd & _ & Hrep & _); [exact plan_small|].
  split; [exact Hd|exact Hrep].
Defined.

(** A request: ann copies a file next to itself. *)
Import DemoRequests.
Import (hints) DemoRequests.
Import (hints) PlainUuid.
Definition request : TransferArgs :=
  {| ta_old := Some (arg "/points/docs/x.txt"); ta_new := Some (arg "/points/docs/y.txt"); ta_copy := true |}.
Lemma transfers_are_checked_witness :
  ∃ p, (vfs_transfer request PlainUuid.id2 y0).1 = Ok p ∧
    ¬ present (world (storage (vfs_transfer request PlainUuid.id2 y0).2)) docs "/points/docs/y.txt".
Proof.
  pose proof (transfers_are_checked request PlainUuid.id2 y0 _ _ (surjective_pairing _)) as Ht.
  assert (Hr : ∃ p, (vfs_transfer request PlainUuid.id2 y0).1 = Ok p ∧ dst_op p = docs ∧ dst_path p = "/points/docs/y.txt").
  { eexists. split; [reflexivity|]. split; reflexivity. }
  destruct Hr as (p & Hr & Hop & Hpath). rewrite Hr in Ht.
  destruct Ht as (? & ? & ? & ? & ? & ? & ? & ? & ? & ? & _ & _ & _ & _ & _ & _ & _ & _ & [Habs _] & _).
  exists p. split; [exact Hr|]. rewrite Hop, Hpath in Habs. exact Habs.
Defined.
End DemoTransfer.
