(* ===== verification/Handles.v ===== *)
(** * File handles ([server.rs])

    Reading and writing files through handles: the write handles that [vfs_open_write]
    hands out, with their quota bookkeeping, and the read handles the server keeps to
    itself and shares between requests. Handles are reference counted objects that a
    request may hold on to after they have left the server's maps, so a handle is an
    object of its own store here, and each request is split at its locks: [begin_write]
    and [locked_write] are what a [WriteAt] does before and after it has got the handle's
    lock, and other requests can come between them.

    Open files and the calls on them are the class [LocalApi]: they have a cursor, shared by
    clones, and a buffer that a flush empties. *)

From S2P Require Import Prelude.
From S2P Require Import RustStr.
From S2P Require Import Errors.
From S2P Require Import Paths.
From S2P Require Import QuotaState.
From S2P Require Import Service.
From S2P Require Import Mounts.
From S2P Require Import Points.
From S2P Require Import LocalFs.
From S2P Require Import Users.
From S2P Require Import Db.
From S2P Require Import Store.
From S2P Require Import SetVfs.
From S2P Require Import Requests.
From S2P Require Import Transfer.
From stdpp Require Import options.
Close Scope string_scope.

(** [tokio::fs]: metadata (is it a file, and its length), and open files, which read and
    write at the cursor that seeking sets. [fd_write] is [write_all]; its bytes may wait in
    the file's buffer until [fd_flush]. *)
Class LocalApi (W : Type) := {
  Fd : Type;
  fs_metadata : string → M W IoError (bool * N);
  fs_create_dir_all : string → M W IoError ();
  (** create, read, write *)
  fs_open : bool → bool → bool → string → M W IoError Fd;
  fd_set_len : Fd → N → M W IoError ();
  fd_seek_end : Fd → M W IoError N;
  fd_seek : Fd → N → M W IoError ();
  fd_write : Fd → string → M W IoError ();
  fd_flush : Fd → M W IoError ();
  fd_sync_all : Fd → M W IoError ();
  fd_clone : Fd → M W IoError Fd;
  (** [take(n)] and [read_to_end] *)
  fd_read : Fd → N → M W IoError string;
}.

Definition HANDLE_IDLE_TTL : N := 600.
Definition READ_HANDLE_IDLE_TTL : N := 120.
Definition MAX_READ : N := 32 * 1024 * 1024.

(** [Path::parent] of a path built by [safe_join]. *)
Definition parent (p : string) : option string :=
  match split slash (trim_end_matches slash p) with
  | [] => None
  | [EmptyString] => None
  | segs =>
    let front := join "/" (removelast segs) in
    Some (if bool_decide (front = "")%string && starts_with "/" p then "/"%string else front)
  end.

Section Handles.
Context {O W : Type} `{OA : OperatorApi O W} `{FA : !FileApi O W} `{!StoreLib O W} `{!LocalApi W} `{JL : JsonLib} `{Foreign}.
Notation Server := (Server (O := O) (W := W)).

Record ActiveWriteHandle := {
  wh_used : N;
  wh_file : Fd;
  wh_len : N;
  wh_max : option N;
  wh_base : N;
  wh_point : Uuid;
  wh_user : string;
  wh_path : string;
  wh_append : bool;
  wh_expired : bool;
}.
Inductive ReadState := Local (file : Fd) | Remote (reader : OpReader).
Record ActiveReadHandle := {
  rh_used : N;
  rh_state : ReadState;
  rh_user : string;
  rh_point : Uuid;
  rh_path : string;
  rh_len : N;
  rh_expired : bool;
}.

(** The maps of [Inner] and the handles they, or a request, refer to; [now] is the
    monotonic clock in seconds. *)
Record Handles := {
  srv : Server;
  open_writes : gset Uuid;
  writes : gmap Uuid ActiveWriteHandle;
  open_reads : gmap string nat;
  reads : gmap nat ActiveReadHandle;
  now : N;
}.
Implicit Types (s : Handles).

Definition set_srv y s : Handles :=
  {| srv := y; open_writes := open_writes s; writes := writes s; open_reads := open_reads s; reads := reads s; now := now s |}.
Definition set_writes o m s : Handles :=
  {| srv := srv s; open_writes := o; writes := m; open_reads := open_reads s; reads := reads s; now := now s |}.
Definition set_reads o m s : Handles :=
  {| srv := srv s; open_writes := open_writes s; writes := writes s; open_reads := o; reads := m; now := now s |}.
Definition set_now t s : Handles :=
  {| srv := srv s; open_writes := open_writes s; writes := writes s; open_reads := open_reads s; reads := reads s; now := t |}.
Definition disk_of s : W := world (storage (srv s)).

Definition in_server {A} (m : M Server Status A) : M Handles Status A := λ s,
  let '(r, y) := m (srv s) in (r, set_srv y s).
(** A call on a file; its error becomes a status. *)
Definition io {A} (m : M W IoError A) : M Handles Status A := in_server (on_disk (m_map_err io_status m)).
(** The same where the code looks at the error. *)
Definition try_io {A} (m : M W IoError A) : M Handles Status (result IoError A) := in_server (on_disk (λ w,
  let '(r, w) := m w in (Ok r, w))).

(** ** Invalidation *)

Definition read_key (user path : string) : string := (user +:+ String "000" path)%string.
Definition expire_read (h : ActiveReadHandle) : ActiveReadHandle :=
  {| rh_used := rh_used h; rh_state := rh_state h; rh_user := rh_user h; rh_point := rh_point h;
     rh_path := rh_path h; rh_len := rh_len h; rh_expired := true |}.
Definition touch_read t (h : ActiveReadHandle) : ActiveReadHandle :=
  {| rh_used := t; rh_state := rh_state h; rh_user := rh_user h; rh_point := rh_point h;
     rh_path := rh_path h; rh_len := rh_len h; rh_expired := rh_expired h |}.
(** Out of the map, and marked for whoever still holds it. *)
Definition drop_read (key : string) s : Handles :=
  match open_reads s !! key with
  | Some i => set_reads (delete key (open_reads s)) (alter expire_read i (reads s)) s
  | None => s
  end.
Definition invalidate_read_handle (user path : string) s : Handles := drop_read (read_key user path) s.

(** The keys of the open handles that satisfy a test. *)
Definition reads_where (P : ActiveReadHandle → bool) s : list string :=
  omap (λ '(key, i), match reads s !! i with Some h => if P h then Some key else None | None => None end)
    (map_to_list (open_reads s)).
Definition invalidate_user_read_handles (user : string) s : Handles :=
  foldl (λ s key, drop_read key s) s (reads_where (λ h, bool_decide (rh_user h = user)) s).
(** One round of the read reaper. *)
Definition reap_reads s : Handles :=
  foldl (λ s key, drop_read key s) s
    (reads_where (λ h, READ_HANDLE_IDLE_TTL <? saturating_sub (now s) (rh_used h))%N s).

Definition set_expired (h : ActiveWriteHandle) : ActiveWriteHandle :=
  {| wh_used := wh_used h; wh_file := wh_file h; wh_len := wh_len h; wh_max := wh_max h; wh_base := wh_base h;
     wh_point := wh_point h; wh_user := wh_user h; wh_path := wh_path h; wh_append := wh_append h; wh_expired := true |}.
Definition touch_write t (h : ActiveWriteHandle) : ActiveWriteHandle :=
  {| wh_used := t; wh_file := wh_file h; wh_len := wh_len h; wh_max := wh_max h; wh_base := wh_base h;
     wh_point := wh_point h; wh_user := wh_user h; wh_path := wh_path h; wh_append := wh_append h; wh_expired := wh_expired h |}.
Definition set_wh_len n (h : ActiveWriteHandle) : ActiveWriteHandle :=
  {| wh_used := wh_used h; wh_file := wh_file h; wh_len := n; wh_max := wh_max h; wh_base := wh_base h;
     wh_point := wh_point h; wh_user := wh_user h; wh_path := wh_path h; wh_append := wh_append h; wh_expired := wh_expired h |}.
Definition update_write id f s : Handles := set_writes (open_writes s) (alter f id (writes s)) s.

(** [finalize_write_state] *)
Definition finalize_write_state (f : Fd) : M Handles Status () := _ ← io (fd_flush f); io (fd_sync_all f).
(** Off the map, still open for whoever holds it. *)
Definition forget_writes (ids : list Uuid) s : Handles := set_writes (open_writes s ∖ list_to_set ids) (writes s) s.
(** [close_write_handle], of a handle that has left the map: its failure is logged. *)
Definition close_write_handle (id : Uuid) : M Handles Status () := λ s,
  match writes s !! id with
  | Some h => ignore (E := Status) (finalize_write_state (wh_file h)) (update_write id set_expired s)
  | None => (Ok (), s)
  end.
(** The tasks that close handles, one after the other. *)
Fixpoint close_all (ids : list Uuid) : M Handles Status () :=
  match ids with
  | [] => mret ()
  | id :: ids => _ ← close_write_handle id; close_all ids
  end.
Definition writes_where (P : ActiveWriteHandle → bool) s : list Uuid :=
  List.filter (λ id, match writes s !! id with Some h => P h | None => false end) (elements (open_writes s)).
Definition close_where (P : ActiveWriteHandle → bool) : M Handles Status () := λ s,
  let ids := writes_where P s in close_all ids (forget_writes ids s).
Definition invalidate_user_write_handles (user : string) : M Handles Status () :=
  close_where (λ h, bool_decide (wh_user h = user)).
(** One round of the write reaper. *)
Definition reap_writes : M Handles Status () := λ s,
  close_where (λ h, HANDLE_IDLE_TTL <? saturating_sub (now s) (wh_used h))%N s.
(** [shutdown] (the jobs are told to stop in [Jobs.shutdown_jobs]). *)
Definition shutdown : M Handles Status () :=
  _ ← close_where (λ _, true);
  modify (λ s, foldl (λ s key, drop_read key s) s (map fst (map_to_list (open_reads s)))).

(** ** Writing *)

Record OpenWriteArgs := { ow_path : option PathArg; ow_overwrite : bool; ow_append : bool }.

(** [parse_handle_id] *)
Definition parse_handle_id (id : string) : result Status Uuid :=
  ok_or (St.invalid_argument "malformed handle_id"%string) (parse_str id).

Definition over_quota (p : VfsPoint) (max : N) : Status :=
  St.resource_exhausted ("point '" +:+ name p +:+ "' is already over its " +:+ pretty max +:+ "-byte quota")%string.
Definition size_overflow : Status := St.resource_exhausted "quota size overflow"%string.
(** The usage of a point without the file that is about to be opened. *)
Definition quota_base (p : VfsPoint) (used : result IoError N) (existing_len initial_len : N) : result Status N :=
  match max_bytes p with
  | None => Ok 0%N
  | Some max =>
    total_used ← map_err (λ e, St.internal ("failed to measure quota usage: " +:+ io_text e)%string) used;
    let base := saturating_sub total_used existing_len in
    sum ← ok_or size_overflow (checked_add base initial_len);
    if (max <? sum)%N then Err (over_quota p max) else Ok base
  end.

(** The length of the file a path names, when it may be missing. *)
Definition existing_length (full_path : string) : M Handles Status N :=
  r ← try_io (fs_metadata full_path);
  lift (match r with
        | Ok (true, n) => Ok n
        | Ok (false, _) => Err (St.failed_precondition "cannot open a directory as a write target"%string)
        | Err e => if not_found_io e then Ok 0%N else Err (io_status e)
        end).
Definition locate (point : VfsPoint) (rest : string) : M Handles Status (string * string) :=
  root ← lift (local_source_path point);
  w ← gets disk_of;
  full_path ← lift (safe_join (H := disk w) root rest);
  mret (root, full_path).

(** [vfs_open_write]; [id] is the fresh handle id. The point's lock serialises the
    openers of a point, which is what running this as one step says. *)
Definition vfs_open_write (args : OpenWriteArgs) (id : Uuid) : M Handles Status string :=
  file ← lift (require_path (ow_path args));
  user ← in_server (get_user (pa_user file));
  path_str ← lift (resolve_file_path user (pa_path file));
  '(point, rest) ← lift (resolve_point_path user path_str);
  _ ← lift (require_user_writable point);
  _ ← modify (invalidate_read_handle (username user) path_str);
  '(root, full_path) ← locate point rest;
  _ ← match parent full_path with Some d => io (fs_create_dir_all d) | None => mret () end;
  existing_len ← existing_length full_path;
  let initial_len := if ow_overwrite args then 0%N else existing_len in
  w ← gets disk_of;
  base ← lift (quota_base point (disk_usage root w) existing_len initial_len);
  f ← io (fs_open true true true full_path);
  _ ← (if ow_overwrite args then io (fd_set_len f 0) else mret ());
  s ← gets (λ s, s);
  let h := {| wh_used := now s; wh_file := f; wh_len := initial_len; wh_max := max_bytes point; wh_base := base;
              wh_point := pt_id point; wh_user := username user; wh_path := path_str; wh_append := ow_append args;
              wh_expired := false |} in
  _ ← modify (λ s, set_writes ({[id]} ∪ open_writes s) (<[id := h]> (writes s)) s);
  mret (uuid_to_string id).

Definition unknown_handle : Status := St.not_found "unknown or already-closed write handle"%string.
Definition handle_closed : Status := St.not_found "write handle closed"%string.
Definition registered (id : Uuid) : M Handles Status ActiveWriteHandle := λ s,
  (ok_or unknown_handle (if bool_decide (id ∈ open_writes s) then writes s !! id else None), s).
(** The handle as it is when its lock has been acquired. *)
Definition locked (id : Uuid) : M Handles Status ActiveWriteHandle := λ s,
  (h ← ok_or unknown_handle (writes s !! id); if wh_expired h then Err handle_closed else Ok h, s).

Definition quota_exceeded (projected max : N) : Status :=
  St.resource_exhausted ("write would exceed point quota (" +:+ pretty projected +:+ " > " +:+ pretty max +:+ " bytes)")%string.
Definition check_projected (h : ActiveWriteHandle) (new_len : N) : result Status () :=
  match wh_max h with
  | None => Ok ()
  | Some max =>
    projected ← ok_or size_overflow (checked_add (wh_base h) new_len);
    if (max <? projected)%N then Err (quota_exceeded projected max) else Ok ()
  end.

(** [vfs_write_at] up to the handle's lock. *)
Definition begin_write (handle_id : string) : M Handles Status Uuid :=
  id ← lift (parse_handle_id handle_id);
  h ← registered id;
  if wh_expired h then throw (St.not_found "write handle expired"%string)
  else
    _ ← modify (invalidate_read_handle (wh_user h) (wh_path h));
    _ ← modify (λ s, update_write id (touch_write (now s)) s);
    mret id.
(** Under the lock. *)
Definition locked_write (id : Uuid) (offset : N) (data : string) : M Handles Status () :=
  h ← locked id;
  write_offset ← (if wh_append h then io (fd_seek_end (wh_file h)) else mret offset);
  stop ← lift (ok_or (St.invalid_argument "offset overflow"%string) (checked_add write_offset (blen data)));
  let new_len := N.max (wh_len h) stop in
  _ ← lift (check_projected h new_len);
  _ ← (if wh_append h then mret () else io (fd_seek (wh_file h) write_offset));
  _ ← io (fd_write (wh_file h) data);
  _ ← io (fd_flush (wh_file h));
  modify (update_write id (set_wh_len new_len)).
Definition vfs_write_at (handle_id : string) (offset : N) (data : string) : M Handles Status () :=
  id ← begin_write handle_id; locked_write id offset data.

(** [vfs_close_write]: off the map and expired, then finalised under the lock. *)
Definition begin_close (handle_id : string) : M Handles Status Uuid :=
  id ← lift (parse_handle_id handle_id);
  _ ← registered id;
  _ ← modify (λ s, set_writes (open_writes s ∖ {[id]}) (alter set_expired id (writes s)) s);
  mret id.
Definition locked_close (id : Uuid) : M Handles Status () := λ s,
  match writes s !! id with
  | Some h => finalize_write_state (wh_file h) s
  | None => (Err unknown_handle, s)
  end.
Definition vfs_close_write (handle_id : string) : M Handles Status () := id ← begin_close handle_id; locked_close id.

(** [vfs_set_length], through a handle. *)
Definition begin_set_length (handle_id : string) : M Handles Status Uuid :=
  id ← lift (parse_handle_id handle_id); _ ← registered id; mret id.
Definition locked_set_length (id : Uuid) (length : N) : M Handles Status () :=
  h ← locked id;
  _ ← modify (invalidate_read_handle (wh_user h) (wh_path h));
  _ ← lift (match wh_max h with
            | Some max => if (max <? saturating_add (wh_base h) length)%N
                          then Err (St.resource_exhausted "set_length would exceed point quota"%string) else Ok ()
            | None => Ok ()
            end);
  _ ← io (fd_set_len (wh_file h) length);
  modify (λ s, update_write id (touch_write (now s)) (update_write id (set_wh_len length) s)).
(** And by path, for callers without a handle. *)
Definition set_length_by_path (path : option PathArg) (new_len : N) : M Handles Status () :=
  file ← lift (require_path path);
  user ← in_server (get_user (pa_user file));
  vfs_path ← lift (resolve_file_path user (pa_path file));
  '(point, rest) ← lift (resolve_point_path user vfs_path);
  _ ← lift (require_user_writable point);
  _ ← modify (invalidate_read_handle (username user) vfs_path);
  '(root, full_path) ← locate point rest;
  '(is_file, old_len) ← io (fs_metadata full_path);
  if negb is_file then throw (St.failed_precondition "cannot set the length of a directory"%string)
  else
    w ← gets disk_of;
    _ ← (if (old_len <? new_len)%N
         then lift (check_local_quota (disk_usage root w) (max_bytes point) (new_len - old_len))
         else mret ());
    f ← io (fs_open false false true full_path);
    io (fd_set_len f new_len).
Definition vfs_set_length (handle_id : string) (path : option PathArg) (length : N) : M Handles Status () :=
  if negb (bool_decide (handle_id = "")%string)
  then id ← begin_set_length handle_id; locked_set_length id length
  else set_length_by_path path length.

(** ** Reading *)

(** A new handle and its place in the store. *)
Definition new_read (key : string) (h : ActiveReadHandle) s : nat * Handles :=
  let i := fresh (dom (reads s)) in
  (i, set_reads (<[key := i]> (open_reads s)) (<[i := h]> (reads s)) s).

Definition open_local (user : VfsUser) (point : VfsPoint) (vfs_path rest : string) : M Handles Status ActiveReadHandle :=
  '(_, full_path) ← locate point rest;
  '(is_file, len) ← io (fs_metadata full_path);
  if negb is_file then throw (St.failed_precondition "cannot read a directory as a file"%string)
  else
    f ← io (fs_open false true false full_path);
    s ← gets (λ s, s);
    mret {| rh_used := now s; rh_state := Local f; rh_user := username user; rh_point := pt_id point;
            rh_path := vfs_path; rh_len := len; rh_expired := false |}.
Definition open_remote (user : VfsUser) (point : VfsPoint) (vfs_path : string) : M Handles Status ActiveReadHandle :=
  op ← in_server (m_map_err map_vfs (in_storage (Store.get_vfs user)));
  s ← gets (λ s, s);
  _ ← lift (check_point_loaded user vfs_path (srv s));
  let path := fix_path vfs_path false in
  reader ← in_server (on_disk (dal (op_reader op path)));
  meta ← in_server (on_disk (dal (op_stat op path)));
  s ← gets (λ s, s);
  mret {| rh_used := now s; rh_state := Remote reader; rh_user := username user; rh_point := pt_id point;
          rh_path := vfs_path; rh_len := meta_length meta; rh_expired := false |}.

(** Into the map; a live handle that got there first is the one returned. *)
Definition publish_read (key : string) (h : ActiveReadHandle) : M Handles Status nat := λ s,
  let previous := open_reads s !! key in
  let '(i, s) := new_read key h s in
  match previous with
  | Some j => match reads s !! j with
              | Some old => if negb (rh_expired old) then (Ok j, s) else (Ok i, s)
              | None => (Ok i, s)
              end
  | None => (Ok i, s)
  end.
(** [get_read_handle]: what it finds, or what it opens. *)
Definition cached_read (key : string) : M Handles Status (option nat) := λ s,
  match open_reads s !! key with
  | Some i =>
    match reads s !! i with
    | Some h =>
      if negb (rh_expired h) then (Ok (Some i), set_reads (open_reads s) (alter (touch_read (now s)) i (reads s)) s)
      else (Ok None, set_reads (delete key (open_reads s)) (reads s) s)
    | None => (Ok None, s)
    end
  | None => (Ok None, s)
  end.
Definition get_read_handle (file : PathArg) : M Handles Status nat :=
  user ← in_server (get_user (pa_user file));
  vfs_path ← lift (resolve_file_path user (pa_path file));
  '(point, rest) ← lift (resolve_point_path user vfs_path);
  let key := read_key (username user) vfs_path in
  cached ← cached_read key;
  match cached with
  | Some i => mret i
  | None =>
    h ← (if is_local_scheme (scheme point) && negb (is_repo point)
         then open_local user point vfs_path rest
         else open_remote user point vfs_path);
    publish_read key h
  end.

Definition read_expired : Status := St.not_found "read handle expired"%string.
(** A clone of a handle's file, sought to where a read begins. *)
Definition seek_clone (file : Fd) (offset : N) : M Handles Status Fd :=
  f ← io (fd_clone file); _ ← io (fd_seek f offset); mret f.
(** [read_from_handle] *)
Definition read_from_handle (h : ActiveReadHandle) (offset length : N) : M Handles Status string :=
  if rh_expired h then throw read_expired
  else if (rh_len h <=? offset)%N || (length =? 0)%N then mret ""%string
  else
    let length := N.min length (rh_len h - offset) in
    stop ← lift (ok_or (St.invalid_argument "read range overflow"%string) (checked_add offset length));
    match rh_state h with
    | Remote reader => in_server (on_disk (dal (reader_read reader offset stop)))
    | Local file => f ← seek_clone file offset; io (fd_read f length)
    end.

Definition the_read (i : nat) : M Handles Status ActiveReadHandle := λ s, (ok_or read_expired (reads s !! i), s).
Definition touch (i : nat) s : Handles := set_reads (open_reads s) (alter (touch_read (now s)) i (reads s)) s.
Definition too_long : Status :=
  St.invalid_argument ("length exceeds " +:+ pretty MAX_READ +:+ " bytes; read in chunks")%string.
Definition too_big (len : N) : Status :=
  St.invalid_argument ("file is " +:+ pretty len +:+ " bytes; use offset/length to read in chunks of <= "
                       +:+ pretty MAX_READ)%string.
(** [vfs_read_file], once it has its handle: a length of 0 asks for the whole file. *)
Definition read_through (i : nat) (offset length : N) : M Handles Status string :=
  h ← the_read i;
  if rh_expired h then throw read_expired
  else
    _ ← modify (touch i);
    '(read_offset, length) ← lift (if (length =? 0)%N
      then if (MAX_READ <? rh_len h)%N then Err (too_big (rh_len h)) else Ok (0%N, rh_len h)
      else Ok (offset, length));
    h ← the_read i;
    buf ← read_from_handle h read_offset length;
    _ ← modify (touch i);
    mret buf.
Definition vfs_read_file (path : option PathArg) (offset length : N) : M Handles Status string :=
  if (MAX_READ <? length)%N then throw too_long
  else
    file ← lift (require_path path);
    i ← get_read_handle file;
    read_through i offset length.

End Handles.

(** ** Laws of the file system *)

(** What the calls are about. A path names a file, whose content is what everybody sees of
    it. An open file is of a file and has a cursor, which it shares with the open files it
    was cloned from; what was written through it may be pending, at a position. *)
Class LocalView (W : Type) `{LocalApi W} := {
  FileId : Type;
  #[global] fileid_eq_dec :: EqDecision FileId;
  #[global] fd_eq_dec :: EqDecision Fd;
  Cursor : Type;
  fd_file : Fd → FileId;
  fd_cursor : Fd → Cursor;
  content : W → FileId → string;
  at_path : W → string → option FileId;
  position : W → Cursor → N;
  pending : W → Fd → option (N * string);
}.
(** No file differs, no path, and nothing that waits to be written. *)
Definition unchanged `{LocalView W} (w w' : W) : Prop :=
  (∀ g, content w' g = content w g) ∧ (∀ q, at_path w' q = at_path w q) ∧ ∀ f, pending w' f = pending w f.
(** But for the file of [f], and what waits there. *)
Definition unchanged_but `{LocalView W} (f : Fd) (w w' : W) : Prop :=
  (∀ g, g ≠ fd_file f → content w' g = content w g) ∧ (∀ q, at_path w' q = at_path w q) ∧
  ∀ f', f' ≠ f → pending w' f' = pending w f'.

(** Documented behaviour, of calls on open files where nothing is pending. Probing,
    seeking, cloning, syncing and reading change nothing; a file that opening creates is
    empty; nothing is pending on a new open file; a clone has the cursor of its original. A
    write that succeeds leaves its bytes pending at the cursor. Neither it, wherever it
    fails, nor the flush makes the file longer than it was or than those bytes take; a
    flush leaves nothing pending, and one that succeeds has put the bytes in their place. A
    truncation that fails leaves the file alone. *)
Class LocalLaws (W : Type) `{LocalView W} := {
  metadata_law p w r w' : fs_metadata p w = (r, w') →
    unchanged w w' ∧
    (∀ n, r = Ok (true, n) → ∃ g, at_path w p = Some g ∧ n = blen (content w g)) ∧
    ∀ e, r = Err e → not_found_io e = true → at_path w p = None;
  create_law p w r w' : fs_create_dir_all p w = (r, w') → ∀ f, pending w' f = pending w f;
  open_law c rd wr p w r w' : fs_open c rd wr p w = (r, w') →
    (∀ q g, at_path w q = Some g → at_path w' q = Some g ∧ content w' g = content w g) ∧
    (∀ f', r ≠ Ok f' → pending w' f' = pending w f') ∧
    ∀ f, r = Ok f → pending w' f = None ∧ at_path w' p = Some (fd_file f) ∧
      (at_path w p = None → content w' (fd_file f) = ""%string);
  set_len_law f n w r w' : fd_set_len f n w = (r, w') → pending w f = None →
    unchanged_but f w w' ∧ pending w' f = None ∧
    match r with Ok _ => blen (content w' (fd_file f)) = n | Err _ => content w' (fd_file f) = content w (fd_file f) end;
  seek_end_law f w r w' : fd_seek_end f w = (r, w') → pending w f = None →
    unchanged w w' ∧ ∀ n, r = Ok n → n = blen (content w (fd_file f)) ∧ position w' (fd_cursor f) = n;
  seek_law f p w r w' : fd_seek f p w = (r, w') → pending w f = None →
    unchanged w w' ∧ (is_ok r = true → position w' (fd_cursor f) = p);
  write_law f d w r w' : fd_write f d w = (r, w') → pending w f = None →
    unchanged_but f w w' ∧
    (blen (content w' (fd_file f)) ≤ N.max (blen (content w (fd_file f))) (position w (fd_cursor f) + blen d))%N ∧
    pending w' f = if is_ok r then Some (position w (fd_cursor f), d) else None;
  flush_law f w r w' : fd_flush f w = (r, w') →
    unchanged_but f w w' ∧ pending w' f = None ∧
    match pending w f with
    | None => content w' (fd_file f) = content w (fd_file f)
    | Some (p, d) =>
      (blen (content w' (fd_file f)) ≤ N.max (blen (content w (fd_file f))) (p + blen d))%N ∧
      (is_ok r = true → d ≠ ""%string →
         (p + blen d ≤ blen (content w' (fd_file f)))%N ∧ slice p (blen d) (content w' (fd_file f)) = d)
    end;
  sync_law f w r w' : fd_sync_all f w = (r, w') → pending w f = None → unchanged w w';
  clone_law f w r w' : fd_clone f w = (r, w') → pending w f = None →
    (∀ g, content w' g = content w g) ∧ (∀ q, at_path w' q = at_path w q) ∧
    (∀ f', r ≠ Ok f' → pending w' f' = pending w f') ∧
    ∀ f', r = Ok f' → pending w' f' = None ∧ fd_file f' = fd_file f ∧ fd_cursor f' = fd_cursor f;
  read_law f n w r w' : fd_read f n w = (r, w') → pending w f = None →
    unchanged w w' ∧ ∀ b, r = Ok b → b = slice (position w (fd_cursor f)) n (content w (fd_file f));
}.

Section Laws.
Context {O W : Type} `{OA : OperatorApi O W} `{FA : !FileApi O W} `{!StoreLib O W} `{!LocalApi W} `{!LocalView W} `{!LocalLaws W}
  `{JL : JsonLib} `{Foreign}.
Implicit Types (s : Handles (O := O) (W := W)) (h : ActiveWriteHandle (W := W)).

Lemma unchanged_refl (w : W) : unchanged w w.
Proof using Type. done. Qed.
Lemma unchanged_trans (w1 w2 w3 : W) : unchanged w1 w2 → unchanged w2 w3 → unchanged w1 w3.
Proof using Type. intros (H1a & H1b & H1c) (H2a & H2b & H2c). split_and!; intros; congruence. Qed.
Lemma unchanged_all (f : Fd) (w w' : W) :
  unchanged_but f w w' → content w' (fd_file f) = content w (fd_file f) → pending w' f = pending w f → unchanged w w'.
Proof using Type.
  intros (Hc & Hp & Hf) Hc0 Hf0. split_and!; [|done|].
  - intros g. destruct (decide (g = fd_file f)) as [->|]; auto.
  - intros f'. destruct (decide (f' = f)) as [->|]; auto.
Qed.
Lemma unchanged_but_trans f (w1 w2 w3 : W) : unchanged_but f w1 w2 → unchanged_but f w2 w3 → unchanged_but f w1 w3.
Proof using Type.
  intros (H1a & H1b & H1c) (H2a & H2b & H2c). split_and!; intros; [rewrite H2a by done; auto|congruence|rewrite H2c by done; auto].
Qed.
Lemma unchanged_weaken f (w w' : W) : unchanged w w' → unchanged_but f w w'.
Proof using Type. intros (? & ? & ?). by split_and!. Qed.

(** Only the disk may differ. *)
Definition same_handles s s' : Prop :=
  open_writes s' = open_writes s ∧ writes s' = writes s ∧ open_reads s' = open_reads s ∧ reads s' = reads s ∧
  now s' = now s ∧ quota (srv s') = quota (srv s).
Lemma same_handles_trans s1 s2 s3 : same_handles s1 s2 → same_handles s2 s3 → same_handles s1 s3.
Proof using Type. unfold same_handles. intros (? & ? & ? & ? & ? & ?) (? & ? & ? & ? & ? & ?). split_and!; congruence. Qed.

Lemma on_disk_handles {A} (m : M W Status A) s r s' :
  in_server (on_disk m) s = (r, s') → same_handles s s' ∧ m (disk_of s) = (r, disk_of s').
Proof using Type.
  unfold in_server. destruct (on_disk _ (srv s)) as [r1 y1] eqn:E. intros [= <- <-].
  assert (quota y1 = quota (srv s)) as Hq.
  { unfold on_disk, in_storage in E. destruct (on_world _ _) as [? ?]. by injection E as _ <-. }
  split; [by unfold same_handles; cbn|]. by apply on_disk_inv in E.
Qed.
Lemma io_inv {A} (m : M W IoError A) s r s' :
  io m s = (r, s') → same_handles s s' ∧ ∃ r0, m (disk_of s) = (r0, disk_of s') ∧ r = map_err io_status r0.
Proof using Type.
  intros [Hs E]%on_disk_handles. split; [done|]. apply map_err_inv in E as (r0 & -> & E). by exists r0.
Qed.
Lemma try_io_inv {A} (m : M W IoError A) s r s' :
  try_io m s = (r, s') → same_handles s s' ∧ ∃ r0, m (disk_of s) = (r0, disk_of s') ∧ r = Ok r0.
Proof using Type.
  intros [Hs E]%on_disk_handles. split; [done|]. destruct (m (disk_of s)) as [r0 w0]. injection E as <- <-. by exists r0.
Qed.

(** Nothing but the clock and what is being read. *)
Definition idle s s' : Prop := same_handles s s' ∧ unchanged (disk_of s) (disk_of s').
Lemma idle_refl s : idle s s.
Proof using Type. by split. Qed.
Lemma idle_trans s1 s2 s3 : idle s1 s2 → idle s2 s3 → idle s1 s3.
Proof using Type. intros [? ?] [? ?]. split; [by eapply same_handles_trans|by eapply unchanged_trans]. Qed.
Lemma lift_idle {A} (r0 : result Status A) s r s' : lift r0 s = (r, s') → idle s s' ∧ r = r0.
Proof using Type. intros [= <- <-]. by split; [apply idle_refl|]. Qed.
Notation clean s f := (pending (disk_of s) f = None).
Lemma idle_clean s s' f : idle s s' → clean s f → clean s' f.
Proof using Type. intros [_ (_ & _ & Hp)] Hf. by rewrite Hp. Qed.
Lemma flush_idle f s r s' : io (fd_flush f) s = (r, s') → clean s f → idle s s'.
Proof using LocalLaws0.
  intros (Hs & r0 & E & _)%io_inv Hf. apply flush_law in E as (Hb & Hn & Hc). rewrite Hf in Hc. split; [done|].
  apply (unchanged_all f); [done|done|congruence].
Qed.
Lemma sync_idle f s r s' : io (fd_sync_all f) s = (r, s') → clean s f → idle s s'.
Proof using LocalLaws0. intros (Hs & r0 & E & _)%io_inv Hf. apply sync_law in E; [by split|done]. Qed.
(** Where a write begins: the cursor is there, or the handle will be sought to it. *)
Definition start_of h offset s : N :=
  if wh_append h then blen (content (disk_of s) (fd_file (wh_file h))) else offset.
Lemma write_offset_idle h offset s r s' :
  (if wh_append h then io (fd_seek_end (wh_file h)) else mret offset) s = (r, s') → clean s (wh_file h) →
  idle s s' ∧ ∀ n, r = Ok n → n = start_of h offset s ∧
    (wh_append h = true → position (disk_of s') (fd_cursor (wh_file h)) = n).
Proof using LocalLaws0.
  unfold start_of. intros Hr Hf. destruct (wh_append h).
  - apply io_inv in Hr as (Hs & r0 & E & ->). apply seek_end_law in E as [Hu Hn]; [|done]. split; [by split|].
    intros n Hr. destruct r0; [|done]. injection Hr as ->. by destruct (Hn _ eq_refl).
  - injection Hr as <- <-. split; [apply idle_refl|]. by intros n [= ->].
Qed.
Lemma seek_idle h offset s r s' :
  (if wh_append h then mret () else io (fd_seek (wh_file h) offset)) s = (r, s') → clean s (wh_file h) →
  idle s s' ∧ (is_ok r = true → if wh_append h then s' = s else position (disk_of s') (fd_cursor (wh_file h)) = offset).
Proof using LocalLaws0.
  intros Hr Hf. destruct (wh_append h); [injection Hr as <- <-; by split; [apply idle_refl|]|].
  apply io_inv in Hr as (Hs & r0 & E & ->). apply seek_law in E as [Hu Hn]; [|done]. split; [by split|]. by destruct r0.
Qed.
Lemma finalize_idle f s r s' : finalize_write_state f s = (r, s') → clean s f → idle s s'.
Proof using LocalLaws0.
  unfold finalize_write_state. intros [(e & E & ->)|(u & s1 & E & Hr)]%bind_inv Hf; apply flush_idle in E; try done.
  apply sync_idle in Hr; [by eapply idle_trans|by eapply idle_clean].
Qed.

(** ** Quota *)

(** A length of the handle's file that leaves its point within its quota. *)
Definition room h (n : N) : Prop := ∀ max, wh_max h = Some max → (max < U64_MAX)%N → (wh_base h + n ≤ max)%N.
(** What a handle has on its books fits. *)
Definition fits h : Prop := room h (wh_len h).
(** A handle is changed, never replaced: it keeps its file, its path, its quota and that it
    is closed, and its length keeps fitting. *)
Definition follows h h' : Prop :=
  wh_file h' = wh_file h ∧ wh_base h' = wh_base h ∧ wh_max h' = wh_max h ∧
  (wh_user h' = wh_user h ∧ wh_path h' = wh_path h ∧ wh_append h' = wh_append h) ∧
  (wh_expired h = true → wh_expired h' = true) ∧ (fits h → fits h').
Lemma follows_refl h : follows h h.
Proof using Type. by unfold follows. Qed.
Lemma follows_trans h1 h2 h3 : follows h1 h2 → follows h2 h3 → follows h1 h3.
Proof using Type.
  unfold follows. intros (? & ? & ? & (? & ? & ?) & ? & ?) (? & ? & ? & (? & ? & ?) & ? & ?). split_and!; try congruence; auto.
Qed.
Lemma room_follows h h' n : follows h h' → room h' n → room h n.
Proof using Type. intros (_ & Hb & Hm & _) Hr max. rewrite <-Hb, <-Hm. apply Hr. Qed.

(** No bytes wait in the buffer of a handle, as is the case between requests. *)
Definition settled s : Prop := ∀ id h, writes s !! id = Some h → clean s (wh_file h).
Definition users_of s := users_t (tracker (quota (srv s))).

(** A file is as it was, or an open handle made it at most as long as it was or as
    there is room for. *)
Definition extended s (g : FileId) (c c' : string) : Prop :=
  c' = c ∨ ∃ id h n, writes s !! id = Some h ∧ wh_expired h = false ∧ fd_file (wh_file h) = g ∧ room h n ∧
    (blen c' ≤ N.max (blen c) n)%N.
(** What requests on handles may do, where nothing is pending. *)
Definition changes s s' : Prop :=
  (∀ id, option_Forall2 follows (writes s !! id) (writes s' !! id)) ∧
  (open_writes s' ⊆ open_writes s) ∧
  (∀ q, at_path (disk_of s') q = at_path (disk_of s) q) ∧
  (∀ g, extended s g (content (disk_of s) g) (content (disk_of s') g)) ∧
  users_of s' = users_of s.
Definition keeps s s' : Prop := settled s → settled s' ∧ changes s s'.

#[export] Instance follows_preorder : PreOrder follows.
Proof using Type. split; [exact follows_refl|exact follows_trans]. Qed.
Lemma same_users s s' : same_handles s s' → users_of s' = users_of s.
Proof using Type. intros (_ & _ & _ & _ & _ & Hq). unfold users_of. by rewrite Hq. Qed.
Lemma idle_keeps s s' : idle s s' → keeps s s'.
Proof using Type.
  intros [Hs (Hc & Hp & Hf)] Hset. pose proof Hs as (Ho & Hw & _). split; [intros id h; rewrite Hw, Hf; apply Hset|].
  split_and!; [|by rewrite Ho|done|intros g; left; by rewrite Hc|by apply same_users].
  intros id. rewrite Hw. destruct (writes s !! id); constructor. reflexivity.
Qed.
Lemma changes_trans s1 s2 s3 : changes s1 s2 → changes s2 s3 → changes s1 s3.
Proof using Type.
  intros (Hw1 & Ho1 & Hp1 & Hc1 & Hu1) (Hw2 & Ho2 & Hp2 & Hc2 & Hu2). split_and!; [| | | |congruence].
  - intros id. specialize (Hw1 id). specialize (Hw2 id). destruct Hw1; inversion Hw2; constructor. by etrans.
  - by etrans.
  - intros q. by rewrite Hp2.
  - intros g. destruct (Hc2 g) as [->|(id & h2 & n2 & Hh2 & He2 & Hf2 & Hr2 & Hl2)]; [apply Hc1|]. right.
    assert (∃ h1, writes s1 !! id = Some h1 ∧ follows h1 h2) as (h1 & Hh1 & Hf).
    { specialize (Hw1 id). rewrite Hh2 in Hw1. inversion Hw1; eauto. }
    pose proof (room_follows _ _ _ Hf Hr2) as Hr1. destruct Hf as (Hf & _ & _ & _ & He & _).
    assert (wh_expired h1 = false) as He1 by (destruct (wh_expired h1); [by rewrite He in He2|done]). rewrite Hf in Hf2.
    destruct (Hc1 g) as [Hc|(id1 & h & n1 & Hh & He0 & Hf0 & Hr & Hl)].
    + exists id, h1, n2. rewrite <-Hc. done.
    + destruct (N.le_gt_cases n1 n2); [exists id, h1, n2|exists id1, h, n1]; split_and!; try done; lia.
Qed.
Lemma keeps_trans s1 s2 s3 : keeps s1 s2 → keeps s2 s3 → keeps s1 s3.
Proof using Type.
  intros H12 H23 [Hs2 Hc2]%H12. destruct (H23 Hs2) as [Hs3 Hc3]. split; [done|by eapply changes_trans].
Qed.
#[export] Instance keeps_preorder : PreOrder keeps.
Proof using Type. split; [intros s; apply idle_keeps, idle_refl|exact keeps_trans]. Qed.
#[local] Hint Resolve idle_keeps idle_refl : core.

(** The handles change, the disk does not. *)
Lemma alter_keeps id f s s' :
  writes s' = alter f id (writes s) → (∀ h, writes s !! id = Some h → follows h (f h)) → open_writes s' ⊆ open_writes s →
  disk_of s' = disk_of s → users_of s' = users_of s → keeps s s'.
Proof using Type.
  intros Hw Hf Ho Hd Hu Hset.
  assert (Hall : ∀ id, option_Forall2 follows (writes s !! id) (writes s' !! id)).
  { intros id'. rewrite Hw. destruct (decide (id' = id)) as [->|Hne].
    - rewrite lookup_alter_eq. destruct (writes s !! id) eqn:E; constructor. by apply Hf.
    - rewrite lookup_alter_ne by done. destruct (writes s !! id'); constructor. reflexivity. }
  split; [|split_and!; [done|done|by rewrite Hd|intros g; left; by rewrite Hd|done]].
  intros id' h' Hh'. specialize (Hall id'). rewrite Hh' in Hall. inversion Hall as [h ? Hfol Hh|]; subst. destruct Hfol as (-> & _). rewrite Hd. by eapply Hset.
Qed.
Lemma reads_keep s s' :
  writes s' = writes s → open_writes s' ⊆ open_writes s → disk_of s' = disk_of s → users_of s' = users_of s → keeps s s'.
Proof using Type.
  intros Hw Ho Hd Hu Hset. split; [intros id h; rewrite Hw, Hd; apply Hset|].
  split_and!; [|done|by rewrite Hd|intros g; left; by rewrite Hd|done].
  intros id. rewrite Hw. destruct (writes s !! id); constructor. reflexivity.
Qed.
Lemma drop_read_same key s :
  writes (drop_read key s) = writes s ∧ open_writes (drop_read key s) = open_writes s ∧ srv (drop_read key s) = srv s ∧
  now (drop_read key s) = now s.
Proof using Type. unfold drop_read. by destruct (open_reads s !! key). Qed.
Lemma drop_read_keeps key s : keeps s (drop_read key s).
Proof using Type.
  pose proof (drop_read_same key s) as (Hw & Ho & Hs & _).
  apply reads_keep; [done|by rewrite Ho|unfold disk_of; by rewrite Hs|unfold users_of; by rewrite Hs].
Qed.
Lemma follows_touch t h : follows h (touch_write t h).
Proof using Type. by unfold follows. Qed.
Lemma follows_expired h : follows h (set_expired h).
Proof using Type. by unfold follows. Qed.
Lemma follows_length n h : room h n → follows h (set_wh_len n h).
Proof using Type. by unfold follows. Qed.
Lemma update_keeps id f s : (∀ h, writes s !! id = Some h → follows h (f h)) → keeps s (update_write id f s).
Proof using Type. intros Hf. by apply (alter_keeps id f). Qed.

Lemma registered_inv id s r s' :
  registered id s = (r, s') → s' = s ∧ ∀ h, r = Ok h → id ∈ open_writes s ∧ writes s !! id = Some h.
Proof using Type.
  unfold registered. intros [= <- <-]. split; [done|]. intros h. case_bool_decide; [|done].
  destruct (writes s !! id); cbn; [|done]. by intros [= ->].
Qed.
Lemma locked_inv id s r s' :
  locked id s = (r, s') → s' = s ∧ ∀ h, r = Ok h → writes s !! id = Some h ∧ wh_expired h = false.
Proof using Type.
  unfold locked. destruct (writes s !! id) as [h|]; cbn; [|by intros [= <- <-]].
  destruct (wh_expired h) eqn:He; intros [= <- <-]; split; try done. by intros h' [= <-].
Qed.
Lemma check_projected_room h n : check_projected h n = Ok () → room h n.
Proof using Type.
  unfold check_projected, room. destruct (wh_max h) as [max|]; [|done].
  destruct (checked_add (wh_base h) n) as [sum|] eqn:Hs; cbn; [|done]. apply checked_add_Some in Hs as [-> _].
  destruct (N.ltb_spec max (wh_base h + n)); [done|]. by intros _ ? [= <-].
Qed.

(** The write itself, and a truncation: the one file of the handle. *)
Lemma file_keeps id h n s s' :
  writes s !! id = Some h → wh_expired h = false → room h n → same_handles s s' →
  unchanged_but (wh_file h) (disk_of s) (disk_of s') → clean s' (wh_file h) →
  (blen (content (disk_of s') (fd_file (wh_file h))) ≤ N.max (blen (content (disk_of s) (fd_file (wh_file h)))) n)%N →
  keeps s s'.
Proof using Type.
  intros Hh He Hr Hs (Hc & Hp & Hf) Hcl Hl Hset. pose proof Hs as (Ho & Hw & _). split.
  - intros i h'. rewrite Hw. intros Hh'. destruct (decide (wh_file h' = wh_file h)) as [->|Hne]; [done|].
    rewrite Hf by done. by eapply Hset.
  - split_and!; [|by rewrite Ho|done| |by apply same_users].
    + intros i. rewrite Hw. destruct (writes s !! i); constructor. reflexivity.
    + intros g. destruct (decide (g = fd_file (wh_file h))) as [->|Hg]; [right; by exists id, h, n|left; by apply Hc].
Qed.

Lemma begin_write_keeps hid s r s' : begin_write hid s = (r, s') → keeps s s'.
Proof using Type.
  unfold begin_write. intros [(e & [Hi _]%lift_idle & ->)|(id & s0 & [Hi _]%lift_idle & Hr)]%bind_inv; [auto|].
  apply bind_inv in Hr as [(e & [-> _]%registered_inv & ->)|(h & s1 & [-> _]%registered_inv & Hr)]; [auto|].
  transitivity s0; [auto|]. destruct (wh_expired h); [by injection Hr as <- <-|].
  injection Hr as <- <-. etrans; [apply drop_read_keeps|]. apply update_keeps. intros ? _. apply follows_touch.
Qed.
Lemma begin_close_keeps hid s r s' : begin_close hid s = (r, s') → keeps s s'.
Proof using LocalLaws0.
  unfold begin_close. intros [(e & [Hi _]%lift_idle & ->)|(id & s0 & [Hi _]%lift_idle & Hr)]%bind_inv; [auto|].
  apply bind_inv in Hr as [(e & [-> _]%registered_inv & ->)|(h & s1 & [-> _]%registered_inv & Hr)]; [auto|].
  transitivity s0; [auto|]. injection Hr as <- <-.
  apply (alter_keeps id set_expired); [done| |set_solver|done|done]. intros ? _. apply follows_expired.
Qed.
Lemma begin_set_length_keeps hid s r s' : begin_set_length hid s = (r, s') → keeps s s'.
Proof using LocalLaws0.
  unfold begin_set_length. intros [(e & [Hi _]%lift_idle & ->)|(id & s0 & [Hi _]%lift_idle & Hr)]%bind_inv; [auto|].
  apply bind_inv in Hr as [(e & [-> _]%registered_inv & ->)|(h & s1 & [-> _]%registered_inv & Hr)]; [auto|].
  by injection Hr as <- <-; auto.
Qed.
Lemma locked_close_keeps id s r s' : locked_close id s = (r, s') → keeps s s'.
Proof using LocalLaws0.
  unfold locked_close. destruct (writes s !! id) as [h|] eqn:Hh; [|by intros [= <- <-]; auto].
  intros Hr Hset. apply finalize_idle in Hr; [by apply idle_keeps|by eapply Hset].
Qed.

(** The bytes of a write: pending, then in their place. *)
Lemma write_flush_spec h start data s s1 r1 s2 r2 :
  clean s (wh_file h) → position (disk_of s) (fd_cursor (wh_file h)) = start →
  io (fd_write (wh_file h) data) s = (r1, s1) → (if is_ok r1 then io (fd_flush (wh_file h)) else λ s, (r1, s)) s1 = (r2, s2) →
  same_handles s s2 ∧ unchanged_but (wh_file h) (disk_of s) (disk_of s2) ∧ clean s2 (wh_file h) ∧
  (blen (content (disk_of s2) (fd_file (wh_file h))) ≤
     N.max (blen (content (disk_of s) (fd_file (wh_file h)))) (start + blen data))%N ∧
  (is_ok r2 = true → data ≠ ""%string →
     (start + blen data ≤ blen (content (disk_of s2) (fd_file (wh_file h))))%N ∧
     slice start (blen data) (content (disk_of s2) (fd_file (wh_file h))) = data).
Proof using LocalLaws0.
  intros Hcl Hpos (Hs1 & r & E & ->)%io_inv Hr. apply write_law in E as (Hu1 & Hl1 & Hp1); [|done]. rewrite Hpos in *.
  destruct r as [v|e]; cbn in Hr, Hp1; [|by injection Hr as <- <-; split_and!].
  apply io_inv in Hr as (Hs2 & r' & E & ->). apply flush_law in E as (Hu2 & Hp2 & Hc2). rewrite Hp1 in Hc2. destruct Hc2 as [Hl2 Hok].
  split_and!; [by eapply same_handles_trans|by eapply unchanged_but_trans|done|lia|]. destruct r'; [exact Hok|done].
Qed.
(** What a successful write did, and that a failed one did no harm. *)
Record wrote id h offset data s s' : Prop := {
  wo_room : room h (N.max (wh_len h) (start_of h offset s + blen data));
  wo_rest : ∃ s1, same_handles s s1 ∧ s' = update_write id (set_wh_len (N.max (wh_len h) (start_of h offset s + blen data))) s1;
  wo_disk : unchanged_but (wh_file h) (disk_of s) (disk_of s');
  wo_clean : clean s' (wh_file h);
  wo_len : (blen (content (disk_of s') (fd_file (wh_file h))) ≤
     N.max (blen (content (disk_of s) (fd_file (wh_file h)))) (start_of h offset s + blen data))%N;
  wo_there : data ≠ ""%string →
     (start_of h offset s + blen data ≤ blen (content (disk_of s') (fd_file (wh_file h))))%N ∧
     slice (start_of h offset s) (blen data) (content (disk_of s') (fd_file (wh_file h))) = data;
}.
Lemma locked_write_spec id offset data s r s' :
  settled s → locked_write id offset data s = (r, s') →
  (is_ok r = false ∧ keeps s s') ∨
  ∃ h, r = Ok () ∧ writes s !! id = Some h ∧ wh_expired h = false ∧ wrote id h offset data s s'.
Proof using LocalLaws0.
  intros Hset. unfold locked_write. intros Hr. apply bind_inv in Hr as [(e & E & ->)|(h & s0 & E & Hr)];
    apply locked_inv in E as [-> Hh]; [by left; auto|]. destruct (Hh h eq_refl) as [Hw He]. pose proof (Hset _ _ Hw) as Hcl.
  apply bind_inv in Hr as [(e & E1 & ->)|(wo & s1 & E1 & Hr)]; apply write_offset_idle in E1 as [Hi1 Hwo]; try done; [by left; auto|].
  destruct (Hwo _ eq_refl) as [-> Hpos]. clear Hwo.
  apply bind_inv in Hr as [(e & E2 & ->)|(stop & s2 & E2 & Hr)]; injection E2 as Hstop <-; [by left; auto|]. cbn zeta in Hr.
  apply bind_inv in Hr as [(e & E3 & ->)|([] & s3 & E3 & Hr)]; injection E3 as Hfit <-; [by left; auto|].
  apply check_projected_room in Hfit.
  assert (stop = (start_of h offset s + blen data)%N) as ->.
  { destruct (checked_add _ (blen data)) eqn:Hc; [|done]. apply checked_add_Some in Hc as [-> _]. by injection Hstop. }
  pose proof (idle_clean _ _ _ Hi1 Hcl) as Hcl1.
  apply bind_inv in Hr as [(e & E4 & ->)|([] & s4 & E4 & Hr)]; apply seek_idle in E4 as [Hi4 Hpos4]; try done;
    pose proof (idle_trans _ _ _ Hi1 Hi4) as Hi; [by left; auto|].
  assert (Hp : position (disk_of s4) (fd_cursor (wh_file h)) = start_of h offset s).
  { specialize (Hpos4 eq_refl). unfold start_of in *. destruct (wh_append h); [by rewrite Hpos4, Hpos|done]. }
  pose proof (idle_clean _ _ _ Hi Hcl) as Hcl4. clear Hi1 Hi4 Hcl1 Hpos Hpos4 s1.
  pose proof Hi as [(_ & Hw4 & _) (Hc4 & _)].
  assert (Hdone : ∀ s1 r1 s2 r2, io (fd_write (wh_file h) data) s4 = (r1, s1) →
    (if is_ok r1 then io (fd_flush (wh_file h)) else λ s, (r1, s)) s1 = (r2, s2) → keeps s s2).
  { intros s1 r1 s2 r2 E1 E2. destruct (write_flush_spec _ _ _ _ _ _ _ _ Hcl4 Hp E1 E2) as (Hs2 & Hu2 & Hcl2 & Hl2 & _).
    transitivity s4; [auto|]. eapply (file_keeps id h _ s4 s2); try done; [by rewrite Hw4|lia]. }
  apply bind_inv in Hr as [(e & E5 & ->)|([] & s5 & E5 & Hr)]; [left; split; [done|]; by eapply Hdone|].
  apply bind_inv in Hr as [(e & E6 & ->)|([] & s6 & E6 & Hr)]; [left; split; [done|]; by eapply Hdone|].
  right. injection Hr as <- <-. exists h. do 3 (split; [done|]).
  destruct (write_flush_spec _ _ _ _ _ _ _ _ Hcl4 Hp E5 E6) as (Hs6 & Hu6 & Hcl6 & Hl6 & Hok).
  destruct Hi as [Hsi Hui]. split; try done.
  - exists s6. split; [by eapply same_handles_trans|done].
  - eapply unchanged_but_trans; [by apply unchanged_weaken|done].
  - rewrite <-(Hc4 (fd_file (wh_file h))). done.
  - by apply Hok.
Qed.
Lemma locked_write_keeps id offset data s r s' : locked_write id offset data s = (r, s') → keeps s s'.
Proof using LocalLaws0.
  intros Hr Hset. apply locked_write_spec in Hr as [[_ Hk]|(h & -> & Hw & He & [Hroom (s1 & Hs1 & ->) Hu Hcl Hl _])]; [by apply Hk| |done].
  change (disk_of (update_write _ _ s1)) with (disk_of s1) in *.
  assert (Hk : keeps s s1) by (eapply (file_keeps id h _ s s1); try done; lia). revert Hset. change (keeps s (update_write id
    (set_wh_len (N.max (wh_len h) (start_of h offset s + blen data))) s1)).
  transitivity s1; [done|]. apply update_keeps. intros h' Hh'. destruct Hs1 as (_ & Hw1 & _).
  assert (h' = h) as -> by congruence. by apply follows_length.
Qed.

Lemma set_length_room h n max :
  wh_max h = Some max → (max <? saturating_add (wh_base h) n)%N = false → room h n.
Proof using LocalLaws0. unfold room, saturating_add. intros Hm Hle%N.ltb_ge max'. rewrite Hm. intros [= <-] ?. lia. Qed.
Lemma locked_set_length_keeps id n s r s' : locked_set_length id n s = (r, s') → keeps s s'.
Proof using LocalLaws0.
  unfold locked_set_length. intros Hr.
  apply bind_inv in Hr as [(e & E & ->)|(h & s0 & E & Hr)]; apply locked_inv in E as [-> Hh]; [auto|]. destruct (Hh h eq_refl) as [Hw He].
  apply bind_inv in Hr as [(e & [=] & _)|(u & s1 & [= _ <-] & Hr)].
  transitivity (invalidate_read_handle (wh_user h) (wh_path h) s); [apply drop_read_keeps|].
  pose proof (drop_read_same (read_key (wh_user h) (wh_path h)) s) as (Hw1 & _).
  set (t := invalidate_read_handle _ _ s) in *. change (writes t = writes s) in Hw1. rewrite <-Hw1 in Hw. clearbody t. clear Hw1 Hh s.
  apply bind_inv in Hr as [(e & E1 & ->)|([] & s1 & E1 & Hr)]; apply lift_idle in E1 as [Hi Hroom]; [auto|].
  assert (room h n) as Hn.
  { destruct (wh_max h) as [max|] eqn:Hm; [|by intros ?; rewrite Hm].
    destruct (max <? saturating_add (wh_base h) n)%N eqn:Hlt; [done|]. by eapply set_length_room. }
  transitivity s1; [auto|].
  assert (writes s1 !! id = Some h) as Hw1 by (destruct Hi as [(_ & -> & _) _]; done).
  assert (∀ s2 r2, same_handles s1 s2 → fd_set_len (wh_file h) n (disk_of s1) = (r2, disk_of s2) → keeps s1 s2) as Hk.
  { intros s2 r2 Hs2 E Hset. apply set_len_law in E as (Hu & Hcl & Hl); [|by eapply Hset]. revert Hset.
    apply (file_keeps id h n); try done. destruct r2; [|rewrite Hl]; lia. }
  apply bind_inv in Hr as [(e & E2 & ->)|([] & s2 & E2 & Hr)]; apply io_inv in E2 as (Hs2 & r2 & E2 & _); [eauto|].
  transitivity s2; [eauto|]. injection Hr as <- <-. destruct Hs2 as (_ & Hw2 & _).
  transitivity (update_write id (set_wh_len n) s2); apply update_keeps; intros h' Hh'; [|apply follows_touch].
  apply follows_length. rewrite Hw2, Hw1 in Hh'. by injection Hh' as <-.
Qed.
Lemma forget_keeps ids s : keeps s (forget_writes ids s).
Proof using LocalLaws0. apply reads_keep; [done|set_solver|done|done]. Qed.
Lemma close_write_handle_keeps id s r s' : close_write_handle id s = (r, s') → r = Ok () ∧ keeps s s'.
Proof using LocalLaws0.
  unfold close_write_handle. destruct (writes s !! id) as [h|] eqn:Hh; [|by intros [= <- <-]].
  unfold ignore. destruct (finalize_write_state (wh_file h) _) as [r2 s3] eqn:E. intros [= <- <-]. split; [done|].
  assert (Hk : keeps s (update_write id set_expired s)) by (apply update_keeps; intros ? _; apply follows_expired).
  intros Hset. apply finalize_idle in E; [|by eapply Hset]. revert Hset. by eapply keeps_trans, idle_keeps.
Qed.
Lemma close_all_keeps ids s r s' : close_all ids s = (r, s') → r = Ok () ∧ keeps s s'.
Proof using LocalLaws0.
  revert s; induction ids as [|id ids IH]; intros s; [by intros [= <- <-]|].
  cbn. intros [(e & [[=] _]%close_write_handle_keeps & _)|([] & s1 & [_ E]%close_write_handle_keeps & [-> Hk]%IH)]%bind_inv.
  split; [done|]. by etrans.
Qed.
Lemma close_where_keeps P s r s' : close_where P s = (r, s') → r = Ok () ∧ keeps s s'.
Proof using LocalLaws0.
  unfold close_where. intros [-> Hk]%close_all_keeps. split; [done|]. etrans; [|exact Hk]. apply forget_keeps.
Qed.
Lemma drop_reads_keep keys s : keeps s (foldl (λ s key, drop_read key s) s keys).
Proof using LocalLaws0.
  revert s; induction keys as [|key keys IH]; intros s; [reflexivity|]. cbn. etrans; [apply drop_read_keeps|apply IH].
Qed.

(** What can happen to handles that are open, one lock at a time: requests on write
    handles, the two reapers, a user's handles being invalidated one by one, and time
    passing. *)
Inductive handle_step : Handles (O := O) (W := W) → Handles (O := O) (W := W) → Prop :=
| step_begin_write hid s : handle_step s (begin_write hid s).2
| step_write id offset data s : handle_step s (locked_write id offset data s).2
| step_begin_close hid s : handle_step s (begin_close hid s).2
| step_close id s : handle_step s (locked_close id s).2
| step_begin_set_length hid s : handle_step s (begin_set_length hid s).2
| step_set_length id n s : handle_step s (locked_set_length id n s).2
| step_reap_writes s : handle_step s (reap_writes s).2
| step_reap_reads s : handle_step s (reap_reads s)
| step_forget ids s : handle_step s (forget_writes ids s)
| step_close_one id s : handle_step s (close_write_handle id s).2
| step_invalidate_writes u s : handle_step s (invalidate_user_write_handles u s).2
| step_invalidate_reads u s : handle_step s (invalidate_user_read_handles u s)
| step_shutdown s : handle_step s (shutdown s).2
| step_time t s : (now s ≤ t)%N → handle_step s (set_now t s).

Lemma shutdown_keeps s r s' : shutdown s = (r, s') → keeps s s'.
Proof using LocalLaws0.
  unfold shutdown. intros [(e & [[=] _]%close_where_keeps & _)|(v & s2 & [_ E]%close_where_keeps & [= _ <-])]%bind_inv.
  etrans; [exact E|]. apply drop_reads_keep.
Qed.
Lemma handle_step_keeps s s' : handle_step s s' → keeps s s'.
Proof using LocalLaws0.
  destruct 1; try (eauto using surjective_pairing, begin_write_keeps, locked_write_keeps, begin_close_keeps, locked_close_keeps,
    begin_set_length_keeps, locked_set_length_keeps, shutdown_keeps, drop_reads_keep, forget_keeps; fail).
  - exact (proj2 (close_where_keeps _ _ _ _ (surjective_pairing _))).
  - exact (proj2 (close_write_handle_keeps _ _ _ _ (surjective_pairing _))).
  - exact (proj2 (close_where_keeps _ _ _ _ (surjective_pairing _))).
  - by apply reads_keep.
Qed.
Lemma handle_steps_keep s s' : rtc handle_step s s' → keeps s s'.
Proof using LocalLaws0. induction 1 as [|s1 s2 s3 H1%handle_step_keeps _ IH]; [reflexivity|by etrans]. Qed.

(** C13. From a state in which no handle has bytes waiting in its buffer (and it stays so
    between any two steps): however requests on write handles interleave with each other, with the reapers
    and with a user being changed or deleted - each of them may wait for a handle that
    another closes - every handle keeps what it has on its books within the quota it was
    opened under; a file changes only through a handle that was open, and is then no
    longer than it was or than that handle's quota leaves room for, even after writes that
    failed half way; and a closed or expired handle stays closed: a file whose handles
    are all closed is left alone. *)
Theorem writes_stay_within_quota s s' :
  settled s → rtc handle_step s s' →
  settled s' ∧
  (∀ id h', writes s' !! id = Some h' → ∃ h, writes s !! id = Some h ∧ (fits h → fits h') ∧
     (wh_expired h = true → wh_expired h' = true)) ∧
  (∀ q, at_path (disk_of s') q = at_path (disk_of s) q) ∧
  (∀ g, (∀ id h, writes s !! id = Some h → fd_file (wh_file h) = g → wh_expired h = true) →
     content (disk_of s') g = content (disk_of s) g) ∧
  (∀ g B, (∀ id h, writes s !! id = Some h → fd_file (wh_file h) = g →
             ∃ max, wh_max h = Some max ∧ (max < U64_MAX)%N ∧ (max - wh_base h ≤ B)%N) →
     (blen (content (disk_of s') g) ≤ N.max (blen (content (disk_of s) g)) B)%N).
Proof using LocalLaws0.
  intros Hset Hrun. destruct (handle_steps_keep _ _ Hrun Hset) as (Hset' & Hw & _ & Hp & Hc & _). split_and!; [done| |done| |].
  - intros id h' Hh'. specialize (Hw id). rewrite Hh' in Hw. inversion Hw as [h ? Hf Hh|]. destruct Hf as (_ & _ & _ & _ & ? & ?). eauto.
  - intros g Hg. destruct (Hc g) as [->|(id & h & n & Hh & He & Hf & _)]; [done|]. by rewrite (Hg _ _ Hh Hf) in He.
  - intros g B Hg. destruct (Hc g) as [->|(id & h & n & Hh & _ & Hf & Hr & Hl)]; [lia|].
    destruct (Hg _ _ Hh Hf) as (max & Hm & Hlt & HB). specialize (Hr _ Hm Hlt). lia.
Qed.

(** ** Opening *)

(** The row of a user, whatever else the database holds. *)
Definition user_row (n : string) s : result VfsError VfsUser := stored_user n (srv s).
(** All but the database's scripted faults. *)
Definition read_db s s' : Prop :=
  open_writes s' = open_writes s ∧ writes s' = writes s ∧ open_reads s' = open_reads s ∧ reads s' = reads s ∧
  now s' = now s ∧ users_of s' = users_of s ∧ disk_of s' = disk_of s.
Lemma get_user_inv n s r s' :
  in_server (get_user n) s = (r, s') → read_db s s' ∧ ∀ u, r = Ok u → user_row n s = Ok u.
Proof using LocalLaws0.
  unfold read_db, in_server, disk_of, users_of, user_row. destruct (get_user n (srv s)) as [r0 y] eqn:E. intros [= <- <-].
  apply get_user_stored in E as (Hs & _ & Hu & Hr). split_and!; try done. cbn. by rewrite Hs.
Qed.
Lemma user_row_same n s s' : users_of s' = users_of s → user_row n s' = user_row n s.
Proof using LocalLaws0. apply stored_user_same. Qed.

Lemma locate_inv point rest s r s' :
  locate point rest s = (r, s') → s' = s ∧
  ∀ root full, r = Ok (root, full) → local_source_path point = Ok root ∧ safe_join (H := disk (disk_of s)) root rest = Ok full.
Proof using LocalLaws0.
  unfold locate. intros [(e & [= E <-] & ->)|(root & s1 & [= E <-] & Hr)]%bind_inv; [done|].
  apply bind_inv in Hr as [(e & [=] & _)|(w & s2 & [= <- <-] & Hr)].
  apply bind_inv in Hr as [(e & [= Ej <-] & ->)|(full & s3 & [= Ej <-] & [= <- <-])]; [done|].
  split; [done|]. by intros ? ? [= <- <-].
Qed.
Lemma safe_join_path (d1 d2 : FsApi) root rest p q :
  safe_join (H := d1) root rest = Ok p → safe_join (H := d2) root rest = Ok q → p = q.
Proof using LocalLaws0. unfold safe_join. intros (_ & -> & _)%join_components_spec (_ & -> & _)%join_components_spec. done. Qed.

Lemma existing_length_inv full s r s' :
  existing_length full s = (r, s') → idle s s' ∧
  ∀ n, r = Ok n → match at_path (disk_of s) full with Some g => n = blen (content (disk_of s) g) | None => n = 0%N end.
Proof using LocalLaws0.
  unfold existing_length. intros [(e & E & ->)|(r0 & s1 & E & Hr)]%bind_inv; apply try_io_inv in E as (Hs & r1 & E & Er);
    [done|]. injection Er as ->. injection Hr as Hr <-. apply metadata_law in E as (Hu & Hok & Hno). split; [done|].
  intros n ->. destruct r1 as [[[|] m]|e]; [|done|].
  - injection Hr as ->. destruct (Hok _ eq_refl) as (g & -> & Hn). done.
  - destruct (not_found_io e) eqn:He; [|done]. rewrite (Hno _ eq_refl He). by injection Hr.
Qed.
Lemma quota_base_fits p used el il b :
  quota_base p used el il = Ok b → ∀ max, max_bytes p = Some max → (b + il ≤ max)%N.
Proof using LocalLaws0.
  unfold quota_base. destruct (max_bytes p) as [max|]; [|done]. destruct used as [n|]; [cbn|done].
  destruct (checked_add _ il) as [sum|] eqn:Hs; cbn; [|done]. apply checked_add_Some in Hs as [-> _].
  destruct (N.ltb_spec max (saturating_sub n el + il)); [done|]. by intros [= <-] ? [= <-].
Qed.
Lemma open_inv c rd wr p s r s' :
  io (fs_open c rd wr p) s = (r, s') → same_handles s s' ∧
  (∀ q g, at_path (disk_of s) q = Some g → at_path (disk_of s') q = Some g ∧ content (disk_of s') g = content (disk_of s) g) ∧
  (∀ f, clean s f → clean s' f) ∧
  ∀ f, r = Ok f → clean s' f ∧ at_path (disk_of s') p = Some (fd_file f) ∧
    (at_path (disk_of s) p = None → content (disk_of s') (fd_file f) = ""%string).
Proof using LocalLaws0.
  intros (Hs & r0 & (Ho & Hpend & Hf)%open_law & ->)%io_inv. split; [done|]. split; [done|]. split.
  - intros f Hcl. destruct r0 as [f'|]; [|by rewrite Hpend]. destruct (decide (f = f')) as [->|Hne]; [by apply Hf|].
    rewrite Hpend; [done|]. by intros [= ->].
  - intros f Hr. apply Hf. destruct r0; [by injection Hr as ->|done].
Qed.

(** What a request that opens a file for writing found on its way. *)
Record opening (args : OpenWriteArgs) s (u : VfsUser) (vp : string) (point : VfsPoint) (rest root full : string) : Prop := {
  op_arg : ∃ file, ow_path args = Some file ∧ user_row (pa_user file) s = Ok u ∧ resolve_file_path u (pa_path file) = Ok vp;
  op_point : resolve_point_path u vp = Ok (point, rest);
  op_writable : require_user_writable point = Ok ();
  op_root : local_source_path point = Ok root;
  op_full : ∃ w, safe_join (H := disk w) root rest = Ok full;
}.

Lemma make_parent_inv full s r s' :
  match parent full with Some d => io (fs_create_dir_all d) | None => mret () end s = (r, s') →
  same_handles s s' ∧ ∀ f, clean s f → clean s' f.
Proof using LocalLaws0.
  destruct (parent full); [|by intros [= <- <-]]. intros (Hs & r0 & E & _)%io_inv. split; [done|]. intros f. by rewrite (create_law _ _ _ _ E).
Qed.
Lemma maybe_truncate_inv (b : bool) f s s' :
  (if b then io (fd_set_len f 0) else mret ()) s = (Ok (), s') → clean s f → same_handles s s' ∧
  (∀ q, at_path (disk_of s') q = at_path (disk_of s) q) ∧ (∀ f', clean s f' → clean s' f') ∧
  (if b then blen (content (disk_of s') (fd_file f)) = 0%N else disk_of s' = disk_of s).
Proof using LocalLaws0.
  destruct b; [|by intros [= <-]]. intros (Hs & r0 & E & Hr)%io_inv Hcl. apply set_len_law in E as ((_ & Hp & Ho) & Hf & Hl); [|done].
  split_and!; [done|done| |by destruct r0]. intros f' Hf'. destruct (decide (f' = f)) as [->|Hne]; [done|]. by rewrite Ho.
Qed.
Lemma in_server_ok {A} (m : M Server Status A) s a s' :
  in_server m s = (Ok a, s') → ∃ y, m (srv s) = (Ok a, y) ∧ s' = set_srv y s.
Proof using LocalLaws0. unfold in_server. destruct (m (srv s)) as [r y]. intros [= -> <-]. eauto. Qed.

Lemma open_write_inv args id s hid s' :
  vfs_open_write args id s = (Ok hid, s') →
  hid = uuid_to_string id ∧ users_of s' = users_of s ∧ open_writes s' = {[id]} ∪ open_writes s ∧ (settled s → settled s') ∧
  ∃ u vp point rest root full h, opening args s u vp point rest root full ∧ writes s' = <[id := h]> (writes s) ∧
    wh_user h = username u ∧ wh_path h = vp ∧ wh_append h = ow_append args ∧ wh_expired h = false ∧
    wh_max h = max_bytes point ∧ fits h ∧ at_path (disk_of s') full = Some (fd_file (wh_file h)) ∧
    wh_len h = blen (content (disk_of s') (fd_file (wh_file h))) ∧ (ow_overwrite args = true → wh_len h = 0%N).
Proof using LocalLaws0.
  unfold vfs_open_write. intros Hr. ok_step Hr file s1 Ef. injection Ef as Ef <-.
  ok_step Hr u s1 Eu. apply get_user_inv in Eu as [(Ho1 & Hw1 & _ & _ & _ & Hu1 & Hd1) Hu].
  ok_step Hr vp s2 Ev. injection Ev as Ev <-. ok_step Hr x s2 Ep. injection Ep as Ep <-. destruct x as [point rest].
  ok_step Hr v s2 Ew. injection Ew as Ew <-. destruct v. ok_step Hr v s2 E2. injection E2 as _ <-. clear v.
  pose proof (drop_read_same (read_key (username u) vp) s1) as (Hw2 & Ho2 & Hs2 & _).
  set (s2 := invalidate_read_handle (username u) vp s1) in *. change (writes s2 = writes s1) in Hw2.
  change (open_writes s2 = open_writes s1) in Ho2. change (srv s2 = srv s1) in Hs2. clearbody s2.
  assert (users_of s2 = users_of s) as Hu2 by (unfold users_of in *; by rewrite Hs2).
  ok_step Hr x s3 El. destruct x as [root full]. apply locate_inv in El as [-> El]. destruct (El _ _ eq_refl) as [Eroot Efull].
  ok_step Hr v s3 E3. destruct v. apply make_parent_inv in E3 as [(Ho3 & Hw3 & _ & _ & _ & Hq3) Hcl3].
  ok_step Hr el s4 E4. apply existing_length_inv in E4 as [[(Ho4 & Hw4 & _ & _ & _ & Hq4) (Hc4 & Hp4 & Hcl4)] Hel]. specialize (Hel _ eq_refl).
  ok_step Hr w s5 E5. injection E5 as <- <-. cbv zeta in Hr.
  ok_step Hr base s5 E5. injection E5 as E5 <-. pose proof (quota_base_fits _ _ _ _ _ E5) as Hfit.
  ok_step Hr f s5 E6. apply open_inv in E6 as ((Ho5 & Hw5 & _ & _ & _ & Hq5) & Hold & Hcl5 & Hf). destruct (Hf _ eq_refl) as (Hclf & Hat & Hnew).
  ok_step Hr v s6 E7. destruct v. apply maybe_truncate_inv in E7 as ((Ho6 & Hw6 & _ & _ & _ & Hq6) & Hp6 & Hcl6 & Hlen6); [|done].
  ok_step Hr s7 s8 E8. injection E8 as <- <-. ok_step Hr v s8 E9. injection E9 as _ <-. injection Hr as <- <-.
  split; [done|]. split; [unfold users_of in *; cbn; congruence|]. split; [cbn; congruence|].
  split.
  { intros Hset i h. cbn [writes set_writes disk_of srv]. rewrite lookup_insert. case_decide; [intros [= <-]; cbn; by apply Hcl6|].
    intros Hh. apply Hcl6, Hcl5. rewrite Hcl4. apply Hcl3. unfold disk_of in *. rewrite Hs2, Hd1. apply (Hset i). congruence. }
  eexists u, vp, point, rest, root, full, _. split_and!.
  - split; [|done..|by exists (disk_of s2)]. exists file. split; [|by split; [apply Hu|]]. destruct (ow_path args); [|done]. by injection Ef as ->.
  - cbn. rewrite Hw6, Hw5, Hw4, Hw3, Hw2, Hw1. reflexivity.
  - done.
  - done.
  - done.
  - done.
  - done.
  - intros max Hm _. by apply Hfit.
  - cbn [wh_file]. change (disk_of _) with (disk_of s6). by rewrite Hp6.
  - cbn [wh_file wh_len]. change (disk_of _) with (disk_of s6). destruct (ow_overwrite args); [by rewrite Hlen6|]. rewrite Hlen6. rewrite <-Hp4 in Hel.
    destruct (at_path (disk_of s4) full) as [g|] eqn:Hg; [|by rewrite (Hnew eq_refl)].
    destruct (Hold _ _ Hg) as [Hat2 Hc5]. rewrite Hat in Hat2. injection Hat2 as ->. by rewrite Hc5, Hc4.
  - cbn. by intros ->.
Qed.

(** Opening a file for writing gives a handle whose books are right: it is for a
    point the user may write, it is registered and not closed, its path leads to its
    file, its length is the length that file has (none when it was opened to be
    overwritten), and that fits the quota of the point as it was measured. *)
Theorem opened_handles_are_accurate args id s hid s' :
  vfs_open_write args id s = (Ok hid, s') →
  hid = uuid_to_string id ∧ id ∈ open_writes s' ∧
  ∃ u vp point rest root full h, opening args s u vp point rest root full ∧
    writes s' = <[id := h]> (writes s) ∧ wh_user h = username u ∧ wh_path h = vp ∧ wh_expired h = false ∧
    wh_max h = max_bytes point ∧ fits h ∧ at_path (disk_of s') full = Some (fd_file (wh_file h)) ∧
    wh_len h = blen (content (disk_of s') (fd_file (wh_file h))) ∧ (ow_overwrite args = true → wh_len h = 0%N).
Proof using LocalLaws0.
  intros (-> & _ & Ho & _ & u & vp & point & rest & root & full & h & Hop & Hw & Hu & Hp & _ & He & Hr)%open_write_inv.
  split; [done|]. split; [set_solver|]. by exists u, vp, point, rest, root, full, h.
Qed.

(** ** Reading *)

Lemma drop_read_gone key s : open_reads (drop_read key s) !! key = None.
Proof using LocalLaws0. unfold drop_read. destruct (open_reads s !! key) eqn:E; [apply lookup_delete_eq|done]. Qed.
(** What a successful write leaves behind. *)
Lemma write_at_inv `{!UuidLaws} id offset data s h s' :
  settled s → vfs_write_at (uuid_to_string id) offset data s = (Ok (), s') → writes s !! id = Some h → data ≠ ""%string →
  open_reads s' !! read_key (wh_user h) (wh_path h) = None ∧ users_of s' = users_of s ∧
  (∀ q, at_path (disk_of s') q = at_path (disk_of s) q) ∧
  (start_of h offset s + blen data ≤ blen (content (disk_of s') (fd_file (wh_file h))))%N ∧
  slice (start_of h offset s) (blen data) (content (disk_of s') (fd_file (wh_file h))) = data.
Proof using LocalLaws0.
  unfold vfs_write_at. intros Hset Hr Hh Hne. ok_step Hr i s1 E. pose proof (proj1 (begin_write_keeps _ _ _ _ E Hset)) as Hset1.
  unfold begin_write in E. ok_step E j s2 E2.
  unfold parse_handle_id in E2. rewrite parse_to_string in E2. injection E2 as <- <-.
  ok_step E h' s2 E2. apply registered_inv in E2 as [-> Hreg]. destruct (Hreg h' eq_refl) as [_ Hh']. rewrite Hh in Hh'. injection Hh' as <-.
  destruct (wh_expired h); [done|]. ok_step E v s2 E2. injection E2 as _ <-. clear v. ok_step E v s2 E2. injection E2 as _ <-. clear v. injection E as <- <-.
  set (key := read_key (wh_user h) (wh_path h)) in *. pose proof (drop_read_same key s) as (Hw & _ & Hs & _).
  pose proof (drop_read_gone key s) as Hgone. change (invalidate_read_handle (wh_user h) (wh_path h) s) with (drop_read key s) in *.
  set (t := drop_read key s) in *. clearbody t.
  apply locked_write_spec in Hr as [[? _]|(h1 & _ & Hh1 & _ & [_ (s3 & Hs3 & ->) (_ & Hp & _) _ _ Hback])]; [done| |done].
  cbn in Hh1. rewrite lookup_alter_eq, Hw, Hh in Hh1. injection Hh1 as <-.
  assert (Hd : disk_of t = disk_of s) by (unfold disk_of; by rewrite Hs).
  assert (Hst : start_of (touch_write (now t) h) offset (update_write id (touch_write (now t)) t) = start_of h offset s).
  { unfold start_of. change (disk_of (update_write _ _ t)) with (disk_of t). by rewrite Hd. }
  rewrite Hst in Hback. cbn [wh_file touch_write] in Hback. destruct Hs3 as (_ & _ & Hr3 & _ & _ & Hq3). split_and!.
  - cbn. by rewrite Hr3.
  - unfold users_of. cbn. rewrite Hq3. cbn. by rewrite Hs.
  - intros q. rewrite Hp. change (disk_of (update_write _ _ t)) with (disk_of t). by rewrite Hd.
  - by apply Hback.
  - by apply Hback.
Qed.

Lemma open_local_inv u point vp rest s (h : ActiveReadHandle (W := W)) s' :
  open_local u point vp rest s = (Ok h, s') → ∃ root full f g,
  local_source_path point = Ok root ∧ safe_join (H := disk (disk_of s)) root rest = Ok full ∧
  at_path (disk_of s) full = Some g ∧ rh_state h = Local f ∧ fd_file f = g ∧ clean s' f ∧ rh_expired h = false ∧
  rh_len h = blen (content (disk_of s) g) ∧ content (disk_of s') g = content (disk_of s) g ∧ same_handles s s'.
Proof using LocalLaws0.
  unfold open_local. intros Hr. ok_step Hr x s1 E. destruct x as [root full]. apply locate_inv in E as [-> El].
  destruct (El _ _ eq_refl) as [Hroot Hfull]. ok_step Hr x s1 E. destruct x as [[|] len]; [|done]. cbn in Hr.
  apply io_inv in E as (Hs1 & r1 & ((Hc1 & Hp1 & _) & Hok & _)%metadata_law & Er1). destruct r1 as [[[|] n]|]; [|done|done]. injection Er1 as ->.
  destruct (Hok _ eq_refl) as (g & Hg & Hn). ok_step Hr f s2 E2. apply open_inv in E2 as (Hs2 & Hold & _ & Hf).
  destruct (Hf f eq_refl) as (Hcl & Hat & _). rewrite <-Hp1 in Hg. destruct (Hold _ _ Hg) as [Hat2 Hc2]. rewrite Hat in Hat2. injection Hat2 as <-.
  ok_step Hr y s3 E3. injection E3 as <- <-. injection Hr as <- <-. rewrite Hp1 in Hg.
  exists root, full, f, (fd_file f). cbn. split_and!; try done; [by rewrite Hc2, Hc1|]. by eapply same_handles_trans.
Qed.
Lemma read_through_local i offset length s (h : ActiveReadHandle (W := W)) f b s' :
  read_through i offset length s = (Ok b, s') → reads s !! i = Some h → rh_state h = Local f → clean s f → length ≠ 0%N →
  rh_len h = blen (content (disk_of s) (fd_file f)) → (offset + length ≤ rh_len h)%N →
  b = slice offset length (content (disk_of s) (fd_file f)).
Proof using LocalLaws0.
  unfold read_through, the_read. intros Hr Hh Hf Hcl Hlen Hl Hle. ok_step Hr h1 s1 E. rewrite Hh in E. injection E as <- <-.
  destruct (rh_expired h) eqn:He; [done|]. ok_step Hr v s1 E. injection E as _ <-. clear v.
  ok_step Hr x s1 E. injection E as E <-. destruct (N.eqb_spec length 0); [done|]. injection E as <-.
  ok_step Hr h1 s1 E. cbn in E. rewrite lookup_alter_eq, Hh in E. injection E as <- <-. ok_step Hr b' s1 E.
  ok_step Hr v s2 E2. injection Hr as <- _. unfold read_from_handle in E. cbn in E. rewrite He, Hf in E.
  destruct (N.leb_spec (rh_len h) offset); [lia|]. destruct (N.eqb_spec length 0); [done|]. cbn in E.
  replace (N.min length (rh_len h - offset)) with length in E by lia.
  ok_step E stop s3 E3. injection E3 as _ <-. ok_step E f' s3 E3. unfold seek_clone in E3.
  ok_step E3 f2 s4 E4. apply io_inv in E4 as (_ & r4 & E4 & Er4).
  apply clone_law in E4 as (Hc4 & _ & _ & Hf4); [|done]. destruct r4 as [f''|]; [|done]. injection Er4 as ->.
  destruct (Hf4 _ eq_refl) as (Hcl4 & Hfile & _).
  ok_step E3 v5 s5 E5. injection E3 as <- <-. apply io_inv in E5 as (_ & r5 & E5 & Er5).
  apply seek_law in E5 as [(Hc5 & _ & Hp5) Hpos]; [|done]. destruct r5; [|done].
  apply io_inv in E as (_ & r6 & E & Er6). apply read_law in E as [_ Hb]; [|by rewrite Hp5]. destruct r6 as [b6|]; [|done]. injection Er6 as ->.
  rewrite (Hb _ eq_refl), (Hpos eq_refl), Hc5, Hc4, Hfile. done.
Qed.

(** The handle is open for the file that the arguments name. *)
Definition open_for args (id : Uuid) s : Prop :=
  ∃ u vp point rest root full h, opening args s u vp point rest root full ∧ writes s !! id = Some h ∧
    wh_user h = username u ∧ wh_path h = vp ∧ wh_append h = ow_append args ∧ at_path (disk_of s) full = Some (fd_file (wh_file h)).
Lemma opening_same args s s' u vp point rest root full :
  users_of s' = users_of s → opening args s u vp point rest root full → opening args s' u vp point rest root full.
Proof using LocalLaws0.
  intros Hu [(file & ? & Hrow & ?) ? ? ? ?]. split; try done. exists file. split; [done|]. split; [|done]. by rewrite (user_row_same _ s).
Qed.
Lemma opened_for args id s hid s' :
  vfs_open_write args id s = (Ok hid, s') → hid = uuid_to_string id ∧ (settled s → settled s') ∧ open_for args id s'.
Proof using LocalLaws0.
  intros (-> & Hus & _ & Hset & u & vp & point & rest & root & full & h & Hop & Hw & Hu & Hp & Ha & _ & _ & _ & Hat & _)%open_write_inv.
  split; [done|]. split; [done|]. exists u, vp, point, rest, root, full, h. split_and!; try done; [by eapply opening_same|].
  rewrite Hw. apply lookup_insert_eq.
Qed.
Lemma open_for_changes args id s s' : changes s s' → open_for args id s → open_for args id s'.
Proof using LocalLaws0.
  intros (Hw & _ & Hat & _ & Hus) (u & vp & point & rest & root & full & h & Hop & Hh & Hu & Hp & Ha & Hf).
  specialize (Hw id). rewrite Hh in Hw. inversion Hw as [? h' Hfol Heq Hh'|]; subst. destruct Hfol as (Hfile & _ & _ & (Hu' & Hp' & Ha') & _).
  exists u, (wh_path h), point, rest, root, full, h'. split_and!; first [congruence|by eapply opening_same|by rewrite Hat, Hfile].
Qed.

End Laws.

(** ** Concrete runs *)

(** Local files in the tree of [DiskOp], under the mount without a name. *)
Module DemoHandles.
Import PlainUuid.
Import DiskOp.
Import (hints) DiskOp.
Open Scope string_scope.
#[local] Existing Instance plain_foreign.

Fixpoint overlay (d c : string) : string :=
  match d with
  | "" => c
  | String x d => String x (overlay d match c with "" => "" | String _ c => c end)
  end.
Fixpoint put (p : nat) (d c : string) : string :=
  match p with
  | 0 => overlay d c
  | S p => match c with "" => String "000" (put p d "") | String y c => String y (put p d c) end
  end.
Fixpoint resize (n : nat) (c : string) : string :=
  match n with
  | 0 => ""
  | S n => match c with "" => String "000" (resize n "") | String x c => String x (resize n c) end
  end.
Lemma blen_nil : blen "" = 0%N.
Proof. reflexivity. Qed.
Lemma blen_cons x c : blen (String x c) = N.succ (blen c).
Proof. unfold blen. cbn [String.length]. lia. Qed.
Lemma overlay_spec d c :
  blen (overlay d c) = N.max (blen d) (blen c) ∧ String.substring 0 (String.length d) (overlay d c) = d.
Proof.
  revert c; induction d as [|x d IH]; intros c; [split; [cbn [overlay]; rewrite blen_nil; lia|by destruct c]|].
  cbn [overlay]. rewrite !blen_cons.
  destruct (IH match c with "" => "" | String _ c => c end) as [Hl Hs]. split; [|cbn; by rewrite Hs].
  rewrite Hl. destruct c; rewrite ?blen_cons, ?blen_nil; lia.
Qed.
Lemma put_bytes_spec p d c :
  blen (put p d c) = N.max (N.of_nat p + blen d) (blen c) ∧ String.substring p (String.length d) (put p d c) = d.
Proof.
  revert c; induction p as [|p IH]; intros c; [apply overlay_spec|]. rewrite Nat2N.inj_succ.
  destruct c as [|y c]; cbn [put]; [destruct (IH "") as [Hl Hs]|destruct (IH c) as [Hl Hs]]; rewrite !blen_cons, Hl; (split; [|exact Hs]).
  - rewrite blen_nil. lia.
  - lia.
Qed.
Lemma resize_length n c : blen (resize n c) = N.of_nat n.
Proof. revert c; induction n as [|n IH]; intros c; [done|]. destruct c; cbn [resize]; rewrite blen_cons, IH; lia. Qed.

Definition gone : IoError := {| io_kind := IoKind.NotFound; io_text := "no such file" |}.
Definition refused : IoError := {| io_kind := IoKind.PermissionDenied; io_text := "is a directory" |}.
Definition local_at (w : store) (p : string) : option node := w !! ("", p).
(** A change of a file that exists. *)
Definition edit (f : string → string) (p : string) : M store IoError () := λ w,
  match local_at w p with Some (File c) => (Ok (), <[("", p) := File (f c)]> w) | _ => (Err gone, w) end.

Definition flat_disk (w : store) : FsApi := {|
  symlink_type p := ok_or gone ((λ n, match n with Dir => FtDir | File _ => FtFile end) <$> local_at w p);
  read_dir p := Ok (omap (λ e, match e with
    | ((m, q), File c) =>
      if bool_decide (m = "") && starts_with (p +:+ "/") q
      then Some (Ok {| de_path := q; de_type := Ok FtFile; de_len := Ok (blen c) |}) else None
    | _ => None end) (map_to_list w))
|}.
#[export] Instance local_files : FileApi op store := {|
  Time := N; meta_is_dir := md_dir; meta_mtime _ := None;
  op_list_with o p := λ w, (Ok (below o p w), w);
  op_list_all o p := λ w, (Ok (below o p w), w);
  op_delete_all o p := modify (base.filter (λ e : (string * string) * node, ¬ (e.1.1 = mount o ∧ starts_with p e.1.2 = true)));
  disk := flat_disk; disk_dirs _ := 1;
|}.
(** What the process knows of its open files, kept in the same store: an open file is a
    path, the cursor it shares with its clones, and a number of its own. *)
Notation fd := (string * N * N)%type.
Definition fd_path (f : fd) : string := f.1.1.
Definition cursor_key (n : N) : string * string := ("cursor", pretty n).
Definition pending_key (f : fd) : string * string := ("pending", pretty (Npos (encode f))).
Definition start_key (f : fd) : string * string := ("start", pretty (Npos (encode f))).
Definition entry (w : store) (k : string * string) : option string := DiskOp.content (w !! k).
Definition number (w : store) (k : string * string) : N := blen (opt_or "" (entry w k)).
Definition set_number (k : string * string) (n : N) : store → store := insert k (File (resize (N.to_nat n) "")).
Definition waiting (w : store) (f : fd) : option (N * string) :=
  d ← entry w (pending_key f); Some (number w (start_key f), d).
(** A new number; nothing waits. *)
Definition new_fd (p : string) (cursor : N) : M store IoError fd := λ w,
  let n := number w ("fds", "") in
  let f := (p, cursor, n) in (Ok f, delete (pending_key f) (set_number ("fds", "") (n + 1) w)).

#[export] Instance local_api : LocalApi store := {|
  Fd := fd;
  fs_metadata p := λ w, (ok_or gone ((λ n, match n with Dir => (false, 0%N) | File c => (true, blen c) end) <$> local_at w p), w);
  fs_create_dir_all _ := mret ();
  fs_open c _ _ p := λ w,
    let cursor := number w ("fds", "") in
    match local_at w p with
    | Some (File _) => new_fd p cursor (set_number (cursor_key cursor) 0 w)
    | Some Dir => (Err refused, w)
    | None => if c then new_fd p cursor (set_number (cursor_key cursor) 0 (<[("", p) := File ""]> w)) else (Err gone, w)
    end;
  fd_set_len f n := edit (resize (N.to_nat n)) (fd_path f);
  fd_seek_end f := λ w,
    match local_at w (fd_path f) with
    | Some (File c) => (Ok (blen c), set_number (cursor_key f.1.2) (blen c) w)
    | _ => (Err gone, w)
    end;
  fd_seek f p := modify (set_number (cursor_key f.1.2) p);
  fd_write f d := λ w,
    let c := number w (cursor_key f.1.2) in
    (Ok (), set_number (cursor_key f.1.2) (c + blen d) (set_number (start_key f) c (<[pending_key f := File d]> w)));
  fd_flush f := λ w,
    match waiting w f with
    | Some (p, d) => edit (put (N.to_nat p) d) (fd_path f) (delete (pending_key f) w)
    | None => (Ok (), w)
    end;
  fd_sync_all _ := mret ();
  fd_clone f := new_fd (fd_path f) f.1.2;
  fd_read f n := λ w,
    let c := number w (cursor_key f.1.2) in
    let b := slice c n (opt_or "" (DiskOp.content (local_at w (fd_path f)))) in
    (Ok b, set_number (cursor_key f.1.2) (c + blen b) w);
|}.

Definition text (w : store) (g : string) : string := opt_or "" (DiskOp.content (local_at w g)).
Definition path_of (w : store) (q : string) : option string :=
  match local_at w q with Some (File _) => Some q | _ => None end.
#[export] Instance local_view : LocalView store := {|
  FileId := string; Cursor := N; fd_file := fd_path; fd_cursor f := f.1.2; Handles.content := text; at_path := path_of;
  position w c := number w (cursor_key c); pending := waiting;
|}.

(** *** What the entries of the process have to do with the files: nothing *)

Lemma local_insert (w : store) k n (x : string) : k.1 ≠ "" → local_at (<[k := n]> w) x = local_at w x.
Proof. intros Hk. unfold local_at. unfold store in *. rewrite lookup_insert_ne; [done|]. by intros ->. Qed.
Lemma local_delete (w : store) k (x : string) : k.1 ≠ "" → local_at (delete k w) x = local_at w x.
Proof. intros Hk. unfold local_at. unfold store in *. rewrite lookup_delete_ne; [done|]. by intros ->. Qed.
Lemma pending_key_inj f f' : pending_key f = pending_key f' → f = f'.
Proof. intros [= Hp]. apply (inj pretty) in Hp. injection Hp as Hp. by apply (inj encode) in Hp. Qed.
Lemma start_key_inj f f' : start_key f = start_key f' → f = f'.
Proof. intros [= Hp]. apply (inj pretty) in Hp. injection Hp as Hp. by apply (inj encode) in Hp. Qed.
Lemma entry_insert_ne (w : store) k k' n : k' ≠ k → entry (<[k := n]> w) k' = entry w k'.
Proof. intros Hk. unfold entry. unfold store in *. by rewrite lookup_insert_ne. Qed.
Lemma entry_insert (w : store) k c : entry (<[k := File c]> w) k = Some c.
Proof. unfold entry. unfold store in *. by rewrite lookup_insert_eq. Qed.
Lemma entry_delete_ne (w : store) k k' : k' ≠ k → entry (delete k w) k' = entry w k'.
Proof. intros Hk. unfold entry. unfold store in *. by rewrite lookup_delete_ne. Qed.
Lemma entry_delete (w : store) k : entry (delete k w) k = None.
Proof. unfold entry. unfold store in *. by rewrite lookup_delete_eq. Qed.
Lemma number_set (w : store) k n : number (set_number k n w) k = n.
Proof. unfold number, set_number. rewrite entry_insert. cbn. rewrite resize_length. lia. Qed.
Lemma waiting_same (w w' : store) f :
  entry w' (pending_key f) = entry w (pending_key f) → entry w' (start_key f) = entry w (start_key f) → waiting w' f = waiting w f.
Proof. unfold waiting, number. by intros -> ->. Qed.
Lemma entry_edit g p (w w' : store) r k : edit g p w = (r, w') → k.1 ≠ "" → entry w' k = entry w k.
Proof.
  unfold edit. destruct (local_at w p) as [[|c]|]; intros [= <- <-] Hk; try done. apply entry_insert_ne. by intros ->.
Qed.
(** The cursors and the numbers are nobody's files. *)
Lemma set_unchanged (w : store) k n : k.1 ∈ ["cursor"; "fds"] → unchanged w (set_number k n w).
Proof.
  intros Hk. assert (Hne : k.1 ≠ "" ∧ k.1 ≠ "pending" ∧ k.1 ≠ "start").
  { rewrite !elem_of_cons, elem_of_nil in Hk. by destruct Hk as [->|[->|[]]]. }
  destruct Hne as (H1 & H2 & H3). unfold set_number. split_and!; cbn.
  - intros g. unfold text. by rewrite local_insert.
  - intros q. unfold path_of. by rewrite local_insert.
  - intros f. apply waiting_same; apply entry_insert_ne; by intros <-.
Qed.
Lemma edit_spec f p w r w' :
  edit f p w = (r, w') → (∀ g, g ≠ p → text w' g = text w g) ∧ (∀ q, path_of w' q = path_of w q) ∧
  match r with Ok _ => text w' p = f (text w p) | Err _ => w' = w end.
Proof.
  unfold edit, text, path_of, local_at. unfold store in *. destruct (w !! ("", p)) as [[|c]|] eqn:E; intros [= <- <-]; try done.
  split_and!.
  - intros g Hg. by rewrite lookup_insert_ne by congruence.
  - intros q. destruct (decide (q = p)) as [->|Hq]; [by rewrite lookup_insert_eq, E|by rewrite lookup_insert_ne by congruence].
  - by rewrite lookup_insert_eq.
Qed.
Lemma edit_waiting g p (w w' : store) r f : edit g p w = (r, w') → waiting w' f = waiting w f.
Proof. intros E. apply waiting_same; by eapply entry_edit. Qed.
Lemma new_fd_spec p c (w : store) r w' :
  new_fd p c w = (r, w') → ∃ n, r = Ok (p, c, n) ∧ (∀ g, text w' g = text w g) ∧ (∀ q, path_of w' q = path_of w q) ∧
  (∀ f, f ≠ (p, c, n) → waiting w' f = waiting w f) ∧ waiting w' (p, c, n) = None.
Proof.
  unfold new_fd. intros [= <- <-]. exists (number w ("fds", "")). split; [done|].
  destruct (set_unchanged w ("fds", "") (number w ("fds", "") + 1)) as (Hc & Hp & Hw); [by right; left|]. cbn in Hc, Hp, Hw. split_and!.
  - intros g. rewrite <-Hc. cbn. unfold text. by rewrite local_delete.
  - intros q. rewrite <-Hp. cbn. unfold path_of. by rewrite local_delete.
  - intros f Hf. rewrite <-(Hw f). apply waiting_same; apply entry_delete_ne; [|done]. by intros ->%pending_key_inj.
  - unfold waiting. by rewrite entry_delete.
Qed.
#[export] Program Instance local_laws : LocalLaws store.
Next Obligation.
  intros p w r w' Hr. cbn in Hr. injection Hr as <- <-. split; [done|]. cbn. unfold path_of, text.
  destruct (local_at w p) as [[|c]|] eqn:E; cbn; split; try done. intros n [= <-]. exists p. by rewrite E.
Qed.
Next Obligation. intros p w r w' Hr. cbn in Hr. by injection Hr as <- <-. Qed.
Next Obligation.
  intros c rd wr p w r w' Hr. cbn in Hr. set (cur := number w ("fds", "")) in *.
  destruct (local_at w p) as [[|d]|] eqn:E; [by injection Hr as <- <-| |].
  - destruct (set_unchanged w (cursor_key cur) 0) as (Hc & Hp & Hw); [by left|]. cbn in Hc, Hp, Hw.
    apply new_fd_spec in Hr as (n & -> & Hc2 & Hp2 & Hw2 & Hnew). cbn. split_and!.
    + intros q g. rewrite Hp2, Hp, Hc2, Hc. done.
    + intros f Hf. rewrite Hw2, Hw; [done|]. by intros ->.
    + intros f [= <-]. split; [done|]. cbn. rewrite Hp2, Hp. unfold path_of. by rewrite E.
  - destruct c; [|by injection Hr as <- <-].
    destruct (set_unchanged (<[("", p) := File ""]> w) (cursor_key cur) 0) as (Hc & Hp & Hw); [by left|]. cbn in Hc, Hp, Hw.
    apply new_fd_spec in Hr as (n & -> & Hc2 & Hp2 & Hw2 & Hnew). cbn.
    assert (Hw3 : ∀ f, waiting (<[("", p) := File ""]> w) f = waiting w f).
    { intros f. apply waiting_same; by apply entry_insert_ne. }
    split_and!.
    + intros q g. rewrite Hp2, Hp, Hc2, Hc. unfold path_of, text, local_at in *. unfold store in *. intros Hq.
      assert (q ≠ p) by (intros ->; by rewrite E in Hq). rewrite lookup_insert_ne by congruence. split; [done|].
      destruct (w !! ("", q)) as [[|d]|] eqn:Eq; try done. injection Hq as <-. by rewrite lookup_insert_ne by congruence.
    + intros f Hf. rewrite Hw2, Hw, Hw3; [done|]. by intros ->.
    + intros f [= <-]. split; [done|]. rewrite Hp2, Hp, Hc2, Hc. unfold path_of, text, local_at, fd_path. cbn. unfold store in *.
      by rewrite lookup_insert_eq.
Qed.
Next Obligation.
  intros f n w r w' Hr Hf. cbn in *. pose proof (λ f', edit_waiting _ _ _ _ _ f' Hr) as Hw. apply edit_spec in Hr as (Hc & Hp & Hl).
  split; [by split_and!|]. split; [by rewrite Hw|]. destruct r; [|by rewrite Hl]. rewrite Hl, resize_length. lia.
Qed.
Next Obligation.
  intros f w r w' Hr Hf. cbn in *. unfold text. destruct (local_at w (fd_path f)) as [[|c]|] eqn:E; injection Hr as <- <-; try done.
  split; [apply set_unchanged; by left|]. intros n [= <-]. split; [done|apply number_set].
Qed.
Next Obligation.
  intros f p w r w' Hr Hf. cbn in *. injection Hr as <- <-. split; [apply set_unchanged; by left|]. intros _. apply number_set.
Qed.
Next Obligation.
  intros f d w r w' Hr Hf. cbn in *. injection Hr as <- <-. set (c := number w (cursor_key f.1.2)).
  set (w1 := set_number (start_key f) c (<[pending_key f:=File d]> w)).
  destruct (set_unchanged w1 (cursor_key f.1.2) (c + blen d)) as (Hc & Hp & Hw); [by left|]. cbn in Hc, Hp, Hw.
  assert (Hl : ∀ q, local_at w1 q = local_at w q) by (intros q; unfold w1, set_number; by rewrite !local_insert).
  split; [|split].
  - split_and!; cbn.
    + intros g _. rewrite Hc. unfold text. by rewrite Hl.
    + intros q. rewrite Hp. unfold path_of. by rewrite Hl.
    + intros f' Hne. rewrite Hw. unfold w1, set_number. apply waiting_same; rewrite !entry_insert_ne; try done;
        [by intros ->%pending_key_inj|by intros ->%start_key_inj].
  - rewrite Hc. unfold text. rewrite Hl. lia.
  - rewrite Hw. change (waiting w1 f = Some (c, d)). assert (Hd : entry w1 (pending_key f) = Some d).
    { unfold w1, set_number. rewrite entry_insert_ne by done. apply entry_insert. }
    assert (Hs : number w1 (start_key f) = c) by apply number_set. clearbody w1. unfold waiting. rewrite Hd. cbn. by rewrite Hs.
Qed.
Next Obligation.
  intros f w r w' Hr. cbn in *. destruct (waiting w f) as [[p d]|] eqn:E; [|by injection Hr as <- <-].
  set (w1 := delete (pending_key f) w) in *.
  assert (Hl : ∀ q, local_at w1 q = local_at w q) by (intros q; by apply local_delete).
  pose proof (λ f', edit_waiting _ _ _ _ _ f' Hr) as Hw. apply edit_spec in Hr as (Hc & Hp & Hr).
  assert (Ht : ∀ g, text w1 g = text w g) by (intros g; unfold text; by rewrite Hl).
  split; [|split].
  - split_and!; cbn.
    + intros g Hg. by rewrite Hc, Ht.
    + intros q. rewrite Hp. unfold path_of. by rewrite Hl.
    + intros f' Hne. rewrite Hw. apply waiting_same; apply entry_delete_ne; [|done]. by intros ->%pending_key_inj.
  - rewrite Hw. unfold waiting, w1. by rewrite entry_delete.
  - rewrite <-Ht. destruct r; [|subst w'; split; [lia|done]]. rewrite Hr.
    destruct (put_bytes_spec (N.to_nat p) d (text w1 (fd_path f))) as [Hlen Hs].
    rewrite N2Nat.id in Hlen. rewrite Hlen. split; [lia|]. intros _ _. split; [lia|]. unfold slice, blen. by rewrite Nat2N.id.
Qed.
Next Obligation. intros f w r w' Hr Hf. cbn in *. by injection Hr as <- <-. Qed.
Next Obligation.
  intros f w r w' Hr Hf. cbn in *. apply new_fd_spec in Hr as (n & -> & Hc & Hp & Hw & Hnew). split_and!; [done|done| |].
  - intros f' Hf'. apply Hw. by intros ->.
  - intros f' [= <-]. by split_and!.
Qed.
Next Obligation.
  intros f n w r w' Hr Hf. cbn in *. injection Hr as <- <-. split; [apply set_unchanged; by left|]. by intros b [= <-].
Qed.

(** One user with one local point of eight bytes. *)
Definition limited : VfsPoint :=
  {| pt_id := id1; Points.name := "docs"; max_bytes := Some 8%N; Points.read_only := false; scheme := "fs";
     config := {["root" := "/srv/docs"]}; is_repo := false; repo_password := None |}.
Definition ann : VfsUser := {| username := "ann"; points := [limited] |}.
#[export] Instance one_user : JsonLib := {| to_json _ := Ok "ann"; from_json _ := Ok (points ann) |}.
#[export] Instance demo_store : StoreLib op store := DemoRequests.demo_store.
Notation state := (Handles (O := op) (W := store)).
Definition s0 : state :=
  {| srv := {| storage := {| world := {[("", "/srv/docs") := Dir; ("", "/srv/docs/old") := File "12"]}; repos := ∅; repo_vfs_ops := ∅;
                             data_ops := ∅; vfs_ops := {["ann" := docs]}; degraded_ops := ∅; health := {[id1 := Healthy]};
                             vfs_generation := ∅; refreshing := ∅; events := [] |};
               quota := qs_new {| users_t := {["ann" := "ann"]}; quota_t := ∅; faults := [] |};
               jobs := ∅; write_handles := ∅; read_handles := ∅ |};
     open_writes := ∅; writes := ∅; open_reads := ∅; reads := ∅; now := 0 |}.
Definition file (p : string) : option PathArg := Some {| pa_user := "ann"; pa_path := Some (VirtualPath p) |}.
Definition to_write (p : string) : OpenWriteArgs := {| ow_path := file p; ow_overwrite := true; ow_append := false |}.
Definition h1 : Uuid := id1.
Definition h2 : Uuid := id2.
Definition opened : state := (vfs_open_write (to_write "/points/docs/a/x") h1 s0).2.

Example open_and_write :
  (vfs_open_write (to_write "/points/docs/a/x") h1 s0).1 = Ok (uuid_to_string h1) ∧
  let '(r, s) := vfs_write_at (uuid_to_string h1) 2 "xyz" opened in
  r = Ok () ∧ text (disk_of s) "/srv/docs/a/x" = String "000" (String "000" "xyz").
Proof. by vm_compute. Qed.
(** Two bytes are taken: seven more do not fit. *)
Example refused_over_quota :
  (vfs_write_at (uuid_to_string h1) 0 "sevenby" opened).1 = Err (quota_exceeded 9 8).
Proof. by vm_compute. Qed.

Lemma opened_handles_are_accurate_witness :
  ∃ h, writes opened !! h1 = Some h ∧ wh_len h = 0%N ∧ fits h.
Proof.
  destruct (vfs_open_write (to_write "/points/docs/a/x") h1 s0) as [r s] eqn:E.
  assert (Hr : (vfs_open_write (to_write "/points/docs/a/x") h1 s0).1 = Ok (uuid_to_string h1)) by (vm_compute; reflexivity).
  rewrite E in Hr. cbn in Hr. subst r.
  destruct (opened_handles_are_accurate _ _ _ _ _ E) as (_ & _ & u & vp & pt & rest & root & full & h & _ & Hw & _ & _ & _ & _ & Hf & _ & _ & Hl).
  exists h. unfold opened. rewrite E. cbn [snd]. rewrite Hw. split; [apply lookup_insert_eq|]. split; [exact (Hl eq_refl)|exact Hf].
Defined.

(** A write that has looked the handle up, the handle being closed, and that write
    getting the lock. *)
Definition begun : state := (begin_write (uuid_to_string h1) opened).2.
Definition closing : state := (begin_close (uuid_to_string h1) begun).2.
Definition late : state := (locked_write h1 0 "late" closing).2.
Lemma race : rtc handle_step opened late.
Proof.
  apply rtc_l with begun; [exact (step_begin_write _ opened)|]. apply rtc_l with closing; [exact (step_begin_close _ begun)|].
  apply rtc_once. exact (step_write h1 0 "late" closing).
Qed.
Lemma settled_start : settled s0.
Proof. by intros id h ?. Qed.
Lemma settled_opened : settled opened.
Proof.
  unfold opened. destruct (vfs_open_write (to_write "/points/docs/a/x") h1 s0) as [r s] eqn:E.
  assert (Hr : (vfs_open_write (to_write "/points/docs/a/x") h1 s0).1 = Ok (uuid_to_string h1)) by (vm_compute; reflexivity).
  rewrite E in Hr. cbn in Hr. subst r. apply opened_for in E as (_ & Hs & _). apply Hs, settled_start.
Qed.
Lemma opened_handle :
  map (λ '(_, h), (wh_expired h, wh_max h, wh_base h)) (map_to_list (writes opened)) = [(false, Some 8%N, 2%N)].
Proof. vm_compute. reflexivity. Qed.
Lemma only_handle h' id : writes opened !! id = Some h' → wh_max h' = Some 8%N ∧ wh_base h' = 2%N.
Proof.
  intros Hh%elem_of_map_to_list%list_elem_of_In.
  apply (in_map (λ '(_, h), (wh_expired h, wh_max h, wh_base h))) in Hh. rewrite opened_handle in Hh.
  destruct Hh as [[= _ <- <-]|[]]. done.
Qed.
Lemma writes_stay_within_quota_witness :
  (locked_write h1 0 "late" closing).1 = Err handle_closed ∧
  (blen (Handles.content (disk_of late) "/srv/docs/a/x") ≤
   N.max (blen (Handles.content (disk_of opened) "/srv/docs/a/x")) 6)%N.
Proof.
  split; [vm_compute; reflexivity|].
  destruct (writes_stay_within_quota opened late settled_opened race) as (_ & _ & _ & _ & Hlen). refine (Hlen "/srv/docs/a/x" 6%N _).
  intros id h [Hm Hb]%only_handle _. exists 8%N. rewrite Hb. split; [exact Hm|]. split; [reflexivity|]. discriminate.
Defined.

(** A write and another one that overlaps it. *)
Definition half : state := (begin_write (uuid_to_string h1) opened).2.
Definition once : state := (locked_write h1 0 "zzzzz" half).2.
Lemma wrote_once : rtc handle_step opened once.
Proof. apply rtc_l with half; [exact (step_begin_write _ opened)|]. apply rtc_once. exact (step_write h1 0 "zzzzz" half). Qed.

(** The clones of a reader's file share its cursor. Of two reads that overlap, the one that
    was sought first gets the bytes the other one asked for. *)
Lemma overlapping_reads_share_a_cursor :
  let s1 := (vfs_write_at (uuid_to_string h1) 0 "abcdef" opened).2 in
  let '(r0, s2) := vfs_read_file (file "/points/docs/a/x") 0 3 s1 in
  match reads s2 !! 0 with
  | Some {| rh_state := Local f |} =>
    match seek_clone f 0 s2 with
    | (Ok first, s3) =>
      match seek_clone f 3 s3 with
      | (Ok second, s4) =>
        let '(r1, s5) := io (fd_read first 3) s4 in
        let '(r2, s6) := io (fd_read second 3) s5 in
        (r0, r1, r2) = (Ok "abc", Ok "def", Ok "")
      | _ => False
      end
    | _ => False
    end
  | _ => False
  end.
Proof. vm_compute. reflexivity. Qed.

(** A read between a write's invalidation and the write itself caches the length the
    file had, and later reads keep seeing that: here nothing of the new data. *)
Lemma reader_cached_during_a_write_is_stale :
  let '(r1, s1) := begin_write (uuid_to_string h1) opened in
  let '(r2, s2) := vfs_read_file (file "/points/docs/a/x") 0 5 s1 in
  let '(r3, s3) := locked_write h1 0 "fresh" s2 in
  let '(r4, s4) := vfs_read_file (file "/points/docs/a/x") 0 5 s3 in
  (is_ok r1, r2, r3, text (disk_of s4) "/srv/docs/a/x", r4) = (true, Ok "", Ok (), "fresh", Ok "").
Proof. vm_compute. reflexivity. Qed.

(** Two handles on the same point measure its usage when they are opened, so that
    together they can go over its eight bytes: two of an old file and six each. *)
Lemma two_handles_exceed_the_quota :
  let '(r1, s1) := vfs_open_write (to_write "/points/docs/x") h1 s0 in
  let '(r2, s2) := vfs_open_write (to_write "/points/docs/y") h2 s1 in
  let '(r3, s3) := vfs_write_at (uuid_to_string h1) 0 "sixsix" s2 in
  let '(r4, s4) := vfs_write_at (uuid_to_string h2) 0 "sixsix" s3 in
  (is_ok r1, is_ok r2, r3, r4, disk_usage "/srv/docs" (disk_of s4)) = (true, true, Ok (), Ok (), Ok 14%N).
Proof. vm_compute. reflexivity. Qed.

(** Of two readers that open a path at the same time, the one whose handle is already
    in the map keeps it, but the map has the other's from then on: both stay open, and
    a later write expires only the second. *)
Lemma displaced_reader_is_not_expired :
  let s1 := (vfs_write_at (uuid_to_string h1) 0 "old" opened).2 in
  let '(_, s2) := vfs_read_file (file "/points/docs/a/x") 0 3 s1 in
  match (open_local ann limited "/points/docs/a/x" "a/x" : M state Status _) s2 with
  | (Ok second, s3) =>
    let '(r, s4) := publish_read (read_key "ann" "/points/docs/a/x") second s3 in
    let '(_, s5) := begin_write (uuid_to_string h1) s4 in
    (r, map (λ '(i, h), (i, rh_expired h)) (map_to_list (reads s5))) = (Ok 0, [(1, true); (0, false)])
  | _ => False
  end.
Proof. vm_compute. reflexivity. Qed.
End DemoHandles.
