(* ===== verification/Snapshots.v ===== *)
(** * Snapshots of repositories ([server.rs])

    Listing the snapshots of a repository (through the short-lived cache), looking into
    one, and locking one. Rustic's snapshots, trees and files are third-party: [SnapLib]
    is what the code uses of them, over the repository handles of [StoreLib]. The
    conversion of a snapshot's summary copies it field by field and is not modelled. *)

From S2P Require Import Prelude.
From S2P Require Import RustStr.
From S2P Require Import Errors.
From S2P Require Import Paths.
From S2P Require Import QuotaState.
From S2P Require Import Service.
From S2P Require Import Mounts.
From S2P Require Import Points.
From S2P Require Import Users.
From S2P Require Import Db.
From S2P Require Import Retention.
From S2P Require Import Store.
From S2P Require Import SetVfs.
From S2P Require Import Requests.
From S2P Require Import Transfer.
From S2P Require Import Handles.
From stdpp Require Import options.
Close Scope string_scope.

Inductive NodeType := NtFile | NtDir | NtOther.
#[export] Instance NodeType_eq_dec : EqDecision NodeType.
Proof. solve_decision. Defined.

(** rustic_core: snapshot files, nodes and trees, and what a repository handle does. *)
Class SnapLib (O W : Type) `{OperatorApi O W} `{!StoreLib O W} := {
  SnapId : Type;
  #[global] snap_id_eq_dec :: EqDecision SnapId;
  Snap : Type;
  snap_id : Snap → SnapId;
  snap_time : Snap → Z;
  snap_tree : Snap → string;
  snap_hostname : Snap → string;
  snap_label : Snap → string;
  snap_paths : Snap → list string;
  snap_tags : Snap → list string;
  snap_version : Snap → string;
  snap_delete : Snap → DeleteOption;
  with_delete : DeleteOption → Snap → Snap;
  id_from_str : string → result string SnapId;
  id_to_string : SnapId → string;
  all_snapshots : Store.RepoIndexed → M W RusticError (list Snap);
  save_snapshots : Store.RepoIndexed → list Snap → M W RusticError ();
  remove_snapshots : Store.RepoIndexed → list SnapId → M W RusticError ();
  Node : Type;
  TreeId : Type;
  OpenFile : Type;
  NodeTime : Type;
  nd_type : Node → NodeType;
  (** [Node::name()], and the field [name] behind it, which is escaped *)
  nd_name : Node → string;
  nd_raw_name : Node → string;
  nd_size : Node → N;
  nd_ctime : Node → option NodeTime;
  nd_mtime : Node → option NodeTime;
  nd_atime : Node → option NodeTime;
  nd_subtree : Node → option TreeId;
  node_from_snapshot_path : Store.RepoIndexed → string → M W RusticError Node;
  get_tree : Store.RepoIndexed → TreeId → M W RusticError (list Node);
  open_file : Store.RepoIndexed → Node → M W RusticError OpenFile;
  read_file_at : Store.RepoIndexed → OpenFile → N → N → M W RusticError string;
}.

(** [str::trim] leaves nothing. *)
Definition is_whitespace (c : N) : bool :=
  ((9 <=? c) && (c <=? 13) || (c =? 32) || (c =? 133) || (c =? 160) || (c =? 5760) || (8192 <=? c) && (c <=? 8202)
   || (c =? 8232) || (c =? 8233) || (c =? 8239) || (c =? 8287) || (c =? 12288))%N.
Definition is_blank (s : string) : bool := forallb is_whitespace (chars s).
(** [usize] on a 64-bit machine. *)
Definition USIZE_MAX : N := U64_MAX.

(** ** Messages *)

Record SnapshotInfo := {
  si_id : string; si_time : Z; si_tags : list string; si_paths : list string;
  si_app_version : string; si_locked : bool;
}.
Record SnapNode {T} := {
  sv_name : string; sv_is_dir : bool; sv_bytes : N; sv_ctime : option T; sv_mtime : option T; sv_atime : option T;
}.
Arguments SnapNode : clear implicits.
Record GetSnapshotArgs := { gs_user : string; gs_repo : string }.
Record SnapshotPath := { sp_user : string; sp_repo : string; sp_id : string; sp_path : string }.
Record SetSnapshotLockArgs := { sl_user : string; sl_repo : string; sl_id : string; sl_locked : bool }.
Record SetSnapshotLockResponse := { lr_id : string; lr_previous : string; lr_locked : bool }.

Section Snapshots.
Context {O W : Type} `{OA : OperatorApi O W} `{!StoreLib O W} `{!SnapLib O W} `{JL : JsonLib} `{Foreign}.
Notation Server := (Server (O := O) (W := W)).

Definition is_never (d : DeleteOption) : bool := match d with Never => true | _ => false end.
(** [From<SnapshotFile> for Snapshot] *)
Definition snapshot_of (sn : Snap) : SnapshotInfo :=
  {| si_id := id_to_string (snap_id sn); si_time := snap_time sn; si_tags := snap_tags sn; si_paths := snap_paths sn;
     si_app_version := snap_version sn; si_locked := is_never (snap_delete sn) |}.
Definition rustic_to_node (n : Node) (path : string) : SnapNode NodeTime :=
  {| sv_name := node_name path; sv_is_dir := bool_decide (nd_type n = NtDir); sv_bytes := nd_size n;
     sv_ctime := nd_ctime n; sv_mtime := nd_mtime n; sv_atime := nd_atime n |}.

(** The server with its [snapshot_cache], whose entries expire after five seconds. *)
Record Snaps := { srv : Server; snapshot_cache : gmap RepoSource (list SnapshotInfo) }.
Implicit Types s : Snaps.
Definition set_cache c s : Snaps := {| srv := srv s; snapshot_cache := c |}.
Definition in_srv {E A} (m : M Server E A) : M Snaps E A := λ s,
  let '(r, y) := m (srv s) in (r, {| srv := y; snapshot_cache := snapshot_cache s |}).
Definition expire_listing src s : Snaps := set_cache (delete src (snapshot_cache s)) s.

(** A call on a repository; its error is reported as internal, with what failed. *)
Definition internal_err (what : string) (e : RusticError) : Status :=
  St.internal (what +:+ ": " +:+ show_rustic e)%string.
Definition on_repo {A} (what : string) (m : M W RusticError A) : M W Status A := m_map_err (internal_err what) m.

(** ** Queries *)

Definition repo_source_of (user repo_id : string) : M Snaps Status RepoSource :=
  u ← in_srv (get_user user);
  lift (p ← require_repo_point_id u repo_id; repo_source p).
Definition open_for_query src : M Snaps Status Store.RepoIndexed :=
  in_srv (m_map_err (internal_err "failed to open repository") (in_storage (get_repo src))).

(** [snap_get_all] *)
Definition snap_get_all (args : GetSnapshotArgs) : M Snaps Status (list SnapshotInfo) :=
  src ← repo_source_of (gs_user args) (gs_repo args);
  s ← gets (λ s, s);
  match snapshot_cache s !! src with
  | Some cached => mret cached
  | None =>
    repo ← open_for_query src;
    snaps ← in_srv (on_disk (on_repo "snapshot listing failed" (all_snapshots repo)));
    let output := map snapshot_of snaps in
    _ ← modify (λ s, set_cache (<[src := output]> (snapshot_cache s)) s);
    mret output
  end.

Definition id_required : Status := St.invalid_argument "snapshot_id is required"%string.
Definition snap_path_of (args : SnapshotPath) : string := (sp_id args +:+ ":" +:+ sp_path args)%string.
Definition snapshot_not_found (spec : string) (e : RusticError) : Status :=
  St.not_found ("'" +:+ spec +:+ "' not found in repository: " +:+ show_rustic e)%string.
Definition find_node (repo : Store.RepoIndexed) (spec : string) : M W Status Node :=
  m_map_err (snapshot_not_found spec) (node_from_snapshot_path repo spec).

(** Directories first, then by name. *)
Definition node_le (a b : SnapNode NodeTime) : Prop :=
  match sv_is_dir a, sv_is_dir b with
  | true, false => True
  | false, true => False
  | _, _ => String.le (sv_name a) (sv_name b)
  end.
#[export] Instance node_le_dec a b : Decision (node_le a b).
Proof. unfold node_le. destruct (sv_is_dir a), (sv_is_dir b); apply _. Defined.
Definition list_nodes (repo : Store.RepoIndexed) (spec : string) : M W Status (list (SnapNode NodeTime)) :=
  node ← find_node repo spec;
  if negb (bool_decide (nd_type node = NtDir))
  then throw (St.failed_precondition ("'" +:+ spec +:+ "' is not a directory")%string)
  else
    match nd_subtree node with
    | None => mret []
    | Some tree_id =>
      tree ← on_repo "reading the directory failed" (get_tree repo tree_id);
      mret (merge_sort node_le (map (λ n, rustic_to_node n (nd_name n)) tree))
    end.
(** [snap_list_dir] *)
Definition snap_list_dir (args : SnapshotPath) : M Snaps Status (list (SnapNode NodeTime)) :=
  src ← repo_source_of (sp_user args) (sp_repo args);
  if is_blank (sp_id args) then throw id_required
  else repo ← open_for_query src; in_srv (on_disk (list_nodes repo (snap_path_of args))).

Definition bad_length : Status :=
  St.invalid_argument ("length must be between 1 and " +:+ pretty MAX_READ +:+ " bytes; read in chunks")%string.
Definition usize_of (n : N) : result Status N :=
  if (n <=? USIZE_MAX)%N then Ok n else Err (St.out_of_range "offset or length does not fit"%string).
Definition read_node (repo : Store.RepoIndexed) (spec : string) (offset length : N) : M W Status string :=
  node ← find_node repo spec;
  if negb (bool_decide (nd_type node = NtFile))
  then throw (St.failed_precondition ("'" +:+ spec +:+ "' is not a regular file")%string)
  else
    let size := nd_size node in
    if (size <=? offset)%N then mret ""%string
    else
      let want := N.min length (size - offset) in
      off ← lift (usize_of offset);
      len ← lift (usize_of want);
      file ← on_repo "opening the file failed" (open_file repo node);
      on_repo "reading the file failed" (read_file_at repo file off len).
(** [snap_read_file] *)
Definition snap_read_file (args : SnapshotPath) (offset length : N) : M Snaps Status string :=
  src ← repo_source_of (sp_user args) (sp_repo args);
  if is_blank (sp_id args) then throw id_required
  else if (length =? 0)%N || (MAX_READ <? length)%N then throw bad_length
  else repo ← open_for_query src; in_srv (on_disk (read_node repo (snap_path_of args) offset length)).

(** [snap_stat] *)
Definition snap_stat (args : SnapshotPath) : M Snaps Status (SnapNode NodeTime) :=
  src ← repo_source_of (sp_user args) (sp_repo args);
  if is_blank (sp_id args) then throw id_required
  else
    repo ← open_for_query src;
    in_srv (on_disk (node ← find_node repo (snap_path_of args); mret (rustic_to_node node (nd_raw_name node)))).

(** ** Locking *)

Definition same_origin (a b : Snap) : bool :=
  bool_decide (snap_tree a = snap_tree b) && bool_decide (snap_time a = snap_time b)
  && bool_decide (snap_hostname a = snap_hostname b) && bool_decide (snap_label a = snap_label b)
  && bool_decide (snap_paths a = snap_paths b) && bool_decide (snap_tags a = snap_tags b).
(** The copy that [save_snapshots] wrote, told by everything but its id. *)
Definition is_copy (old : Snap) (want_locked : bool) (sn : Snap) : bool :=
  negb (bool_decide (snap_id sn = snap_id old)) && same_origin sn old
  && bool_decide (is_never (snap_delete sn) = want_locked).

(** The blocking part of [set_snapshot_lock]: new id, old id, and the state. *)
Definition relock (repo : Store.RepoIndexed) (wanted : SnapId) (want_locked : bool) : M W Status (string * string * bool) :=
  snaps ← on_repo "snapshot listing failed" (all_snapshots repo);
  old ← lift (ok_or (St.not_found "snapshot not found"%string)
                (list_find_first (λ sn, bool_decide (snap_id sn = wanted)) snaps));
  let is_locked := is_never (snap_delete old) in
  if bool_decide (is_locked = want_locked)
  then mret (id_to_string (snap_id old), id_to_string (snap_id old), is_locked)
  else
    let modified := with_delete (if want_locked then Never else NotSet) old in
    _ ← on_repo "saving the snapshot failed" (save_snapshots repo [modified]);
    after ← on_repo "snapshot listing failed" (all_snapshots repo);
    copy ← lift (ok_or (St.internal "the updated snapshot could not be found"%string)
                   (list_find_first (is_copy old want_locked) after));
    _ ← on_repo "removing the original snapshot failed" (remove_snapshots repo [snap_id old]);
    mret (id_to_string (snap_id copy), id_to_string (snap_id old), want_locked).

(** What every request that changes a repository starts with: its point, its source and
    its operator. *)
Definition writable_repo (user repo_id : string) : M Snaps Status (VfsUser * VfsPoint * RepoSource) :=
  u ← in_srv (get_user user);
  p ← lift (require_repo_point_id u repo_id);
  _ ← lift (require_writable p);
  src ← lift (repo_source p);
  mret (u, p, src).
Definition data_operator (u : VfsUser) (p : VfsPoint) : M Snaps Status O :=
  in_srv (m_map_err map_vfs (in_storage (get_data_operator u p))).
Definition parse_snapshot_id (s : string) : result Status SnapId :=
  map_err (λ e, St.invalid_argument ("invalid snapshot id '" +:+ s +:+ "': " +:+ e)%string) (id_from_str s).

(** [set_snapshot_lock]; the repository's lock makes it one step for other requests of
    its kind. *)
Definition set_snapshot_lock (args : SetSnapshotLockArgs) : M Snaps Status SetSnapshotLockResponse :=
  '(u, p, src) ← writable_repo (sl_user args) (sl_repo args);
  op ← data_operator u p;
  wanted ← lift (parse_snapshot_id (sl_id args));
  repo ← in_srv (m_map_err (internal_err "failed to open repository") (in_storage (create_for_job src op false)));
  '(new_id, previous, locked) ← in_srv (on_disk (relock repo wanted (sl_locked args)));
  _ ← modify (expire_listing src);
  mret {| lr_id := new_id; lr_previous := previous; lr_locked := locked |}.
End Snapshots.

(** ** Laws of repositories *)

(** Documented behaviour of rustic, for the snapshots a repository holds ([stored]) and
    the files in them ([node_content]): ids are unique; listing and looking up change
    nothing and are exact; saving adds what it was given, under an id of the
    repository's choice, and removing removes what it was given, and both may stop
    half way. *)
Class SnapLaws (O W : Type) `{SnapLib O W} := {
  stored : W → Store.RepoIndexed → Snap → Prop;
  node_at : W → Store.RepoIndexed → string → option Node;
  node_content : W → Store.RepoIndexed → Node → string;
  stored_id w repo a b : stored w repo a → stored w repo b → snap_id a = snap_id b → a = b;
  with_delete_law d sn : snap_delete (with_delete d sn) = d ∧ same_origin (with_delete d sn) sn = true;
  list_law repo w r w' : all_snapshots repo w = (r, w') →
    (∀ sn, stored w' repo sn ↔ stored w repo sn) ∧ ∀ l, r = Ok l → ∀ sn, sn ∈ l ↔ stored w repo sn;
  save_law repo l w r w' : save_snapshots repo l w = (r, w') →
    (∀ sn, stored w repo sn → stored w' repo sn) ∧
    ∀ sn, stored w' repo sn → stored w repo sn ∨
      ∃ m, m ∈ l ∧ same_origin sn m = true ∧ snap_delete sn = snap_delete m;
  remove_law repo ids w r w' : remove_snapshots repo ids w = (r, w') →
    (∀ sn, stored w' repo sn → stored w repo sn) ∧
    (∀ sn, stored w repo sn → snap_id sn ∉ ids → stored w' repo sn) ∧
    (is_ok r = true → ∀ sn, stored w' repo sn → snap_id sn ∉ ids);
  find_node_law repo spec w r w' : node_from_snapshot_path repo spec w = (r, w') →
    (∀ n, node_content w' repo n = node_content w repo n) ∧ ∀ n, r = Ok n → node_at w repo spec = Some n;
  file_size w repo spec n : node_at w repo spec = Some n → nd_type n = NtFile → nd_size n = blen (node_content w repo n);
  open_file_law repo n w r w' : open_file repo n w = (r, w') →
    (∀ m, node_content w' repo m = node_content w repo m) ∧
    ∀ f off len w1 b w2, r = Ok f → node_content w1 repo n = node_content w repo n →
      read_file_at repo f off len w1 = (Ok b, w2) → b = slice off len (node_content w repo n);
}.

Section Laws.
Context {O W : Type} `{OA : OperatorApi O W} `{!StoreLib O W} `{!SnapLib O W} `{!SnapLaws O W} `{JL : JsonLib} `{Foreign}.

Lemma same_origin_iff (a b : Snap) :
  same_origin a b = true ↔ snap_tree a = snap_tree b ∧ snap_time a = snap_time b ∧ snap_hostname a = snap_hostname b ∧
    snap_label a = snap_label b ∧ snap_paths a = snap_paths b ∧ snap_tags a = snap_tags b.
Proof using Type. unfold same_origin. rewrite !andb_true_iff, !bool_decide_eq_true. tauto. Qed.
Lemma same_origin_refl (a : Snap) : same_origin a a = true.
Proof using Type. by apply same_origin_iff. Qed.
Lemma same_origin_sym (a b : Snap) : same_origin a b = true → same_origin b a = true.
Proof using Type. rewrite !same_origin_iff. intuition congruence. Qed.
Lemma same_origin_trans (a b c : Snap) : same_origin a b = true → same_origin b c = true → same_origin a c = true.
Proof using Type. rewrite !same_origin_iff. intuition congruence. Qed.

Lemma on_repo_inv {A} what (m : M W RusticError A) w r w' :
  on_repo what m w = (r, w') → ∃ r0, m w = (r0, w') ∧ r = map_err (internal_err what) r0.
Proof using Type. intros (r0 & -> & E)%map_err_inv. by exists r0. Qed.
Lemma list_inv what repo w r w' :
  on_repo what (all_snapshots repo) w = (r, w') →
  (∀ sn, stored w' repo sn ↔ stored w repo sn) ∧ ∀ l, r = Ok l → ∀ sn, sn ∈ l ↔ stored w repo sn.
Proof using Type.
  intros (r0 & [Hs Hl]%list_law & ->)%on_repo_inv. split; [done|]. intros l Hr. apply Hl. destruct r0; [by injection Hr as ->|done].
Qed.

(** What [relock] may do to a repository: nothing is lost, only the snapshot asked for
    can be replaced, and only by a copy in the state asked for. *)
Definition relocked repo (wanted : SnapId) (want_locked : bool) (w w' : W) : Prop :=
  (∀ sn, stored w repo sn → ∃ sn', stored w' repo sn' ∧ same_origin sn' sn = true) ∧
  (∀ sn, stored w repo sn → snap_id sn ≠ wanted → stored w' repo sn) ∧
  (∀ sn', stored w' repo sn' → stored w repo sn' ∨
     ∃ old, stored w repo old ∧ snap_id old = wanted ∧ same_origin sn' old = true ∧ is_never (snap_delete sn') = want_locked).
Lemma relocked_same repo wanted want_locked w w' :
  (∀ sn, stored w' repo sn ↔ stored w repo sn) → relocked repo wanted want_locked w w'.
Proof using Type.
  intros Hs. split_and!; [|intros; by apply Hs|intros; left; by apply Hs].
  intros sn Hsn. exists sn. split; [by apply Hs|apply same_origin_refl].
Qed.
(** The copy may have been added. *)
Definition grown repo (old : Snap) (want_locked : bool) (w w' : W) : Prop :=
  (∀ sn, stored w repo sn → stored w' repo sn) ∧
  (∀ sn, stored w' repo sn → stored w repo sn ∨ same_origin sn old = true ∧ is_never (snap_delete sn) = want_locked).
Lemma grown_relocked repo old want_locked w w' :
  stored w repo old → grown repo old want_locked w w' → relocked repo (snap_id old) want_locked w w'.
Proof using Type.
  intros Hold [Hkeep Hnew]. split_and!; [|auto|].
  - intros sn Hsn. exists sn. split; [auto|apply same_origin_refl].
  - intros sn [?|[? ?]]%Hnew; [by left|right; by exists old].
Qed.
Lemma grown_same repo old want_locked w w1 w2 w' :
  (∀ sn, stored w1 repo sn ↔ stored w repo sn) → (∀ sn, stored w' repo sn ↔ stored w2 repo sn) →
  grown repo old want_locked w1 w2 → grown repo old want_locked w w'.
Proof using Type.
  intros H1 H2 [Hk Hn]. split.
  - intros sn ?%H1. apply H2. auto.
  - intros sn Hsn%H2. destruct (Hn _ Hsn) as [?|?]; [left; by apply H1|by right].
Qed.
Lemma save_grown repo old (want_locked : bool) w r w' :
  save_snapshots repo [with_delete (if want_locked then Never else NotSet) old] w = (r, w') → grown repo old want_locked w w'.
Proof using Type.
  intros [Hk Hn]%save_law. split; [done|]. intros sn [?|(m & ->%list_elem_of_singleton & Ho & Hd)]%Hn; [by left|right].
  destruct (with_delete_law (if want_locked then Never else NotSet) old) as [Hdel Horig].
  split; [by eapply same_origin_trans|]. rewrite Hd, Hdel. by destruct want_locked.
Qed.
Lemma is_copy_true old want_locked (sn : Snap) :
  is_copy old want_locked sn = true →
  snap_id sn ≠ snap_id old ∧ same_origin sn old = true ∧ is_never (snap_delete sn) = want_locked.
Proof using Type.
  unfold is_copy. intros [[Hne ?]%andb_true_iff ?%bool_decide_eq_true]%andb_true_iff.
  by apply negb_true_iff, bool_decide_eq_false in Hne.
Qed.
(** The copy is safe before the original goes. *)
Lemma remove_original repo old copy want_locked w w1 r w' :
  stored w repo old → grown repo old want_locked w w1 → stored w1 repo copy →
  snap_id copy ≠ snap_id old → same_origin copy old = true →
  remove_snapshots repo [snap_id old] w1 = (r, w') →
  stored w' repo copy ∧ relocked repo (snap_id old) want_locked w w' ∧
  (is_ok r = true → ∀ sn, stored w' repo sn → snap_id sn ≠ snap_id old).
Proof using Type.
  intros Hold [Hk1 Hn1] Hcopy Hne Horig (Hg & Hk & Hd)%remove_law.
  assert (Hkeep : ∀ sn, stored w1 repo sn → snap_id sn ≠ snap_id old → stored w' repo sn).
  { intros sn Hsn Hdiff. apply Hk; [done|by rewrite list_elem_of_singleton]. }
  split; [by apply Hkeep|]. split; [split_and!; [|auto|]|].
  - intros sn Hsn. destruct (decide (snap_id sn = snap_id old)) as [Heq|Hdiff].
    + rewrite (stored_id _ _ _ _ Hsn Hold Heq). exists copy. split; [by apply Hkeep|done].
    + exists sn. split; [auto|apply same_origin_refl].
  - intros sn [?|[? ?]]%Hg%Hn1; [by left|right; by exists old].
  - intros Hok sn Hsn Heq. apply (Hd Hok sn Hsn). by rewrite Heq, list_elem_of_singleton.
Qed.

(** C12. Locking never loses a snapshot. Whatever fails on the way, every snapshot of the
    repository is still there - the one asked for possibly as its copy, which has the
    same tree, time, host, label, paths and tags -, no other snapshot is touched, and
    nothing appears but that copy. On success the answer names a snapshot that is stored
    in the state asked for, that is the one asked for or its copy, and the one asked for
    is not stored in the other state any more. *)
Theorem locking_loses_no_snapshot repo wanted want_locked w r w' :
  relock repo wanted want_locked w = (r, w') →
  relocked repo wanted want_locked w w' ∧
  ∀ new previous l, r = Ok (new, previous, l) →
    l = want_locked ∧ previous = id_to_string wanted ∧
    (∃ old sn, stored w repo old ∧ snap_id old = wanted ∧ stored w' repo sn ∧ new = id_to_string (snap_id sn) ∧
       same_origin sn old = true ∧ is_never (snap_delete sn) = want_locked) ∧
    ∀ sn, stored w' repo sn → snap_id sn = wanted → is_never (snap_delete sn) = want_locked.
Proof using Type.
  unfold relock. intros Hr. apply bind_inv in Hr as [(e & E & ->)|(snaps & w1 & E & Hr)]; apply list_inv in E as [Hs1 Hl1];
    [split; [by apply relocked_same|done]|]. specialize (Hl1 _ eq_refl).
  apply bind_inv in Hr as [(e & [= _ <-] & ->)|(old & w2 & [= Hold <-] & Hr)]; [split; [by apply relocked_same|done]|].
  destruct (list_find_first _ snaps) as [old'|] eqn:Hf; [|done]. injection Hold as ->.
  apply list_find_first_Some in Hf as [Hin Hid%bool_decide_eq_true]. subst wanted.
  pose proof (proj1 (Hl1 _) Hin) as Hold. cbv zeta in Hr. case_bool_decide as Hsame.
  { injection Hr as <- <-. split; [by apply relocked_same|]. intros ? ? ? [= <- <- <-]. split_and!; try done.
    - exists old, old. split_and!; try done; [by apply Hs1|apply same_origin_refl].
    - intros sn Hsn%Hs1 Hid. by rewrite (stored_id _ _ _ _ Hsn Hold Hid). }
  apply bind_inv in Hr as [(e & E2 & ->)|([] & w2 & E2 & Hr)]; apply on_repo_inv in E2 as (r2 & E2%save_grown & _);
    [split; [by eapply grown_relocked, (grown_same _ _ _ w w1)|done]|].
  apply bind_inv in Hr as [(e & E3 & ->)|(after & w3 & E3 & Hr)]; apply list_inv in E3 as [Hs3 Hl3];
    pose proof (grown_same _ _ _ _ _ _ _ Hs1 Hs3 E2) as Hg; [split; [by apply grown_relocked|done]|].
  apply bind_inv in Hr as [(e & [= _ <-] & ->)|(copy & w4 & [= Hcopy <-] & Hr)]; [split; [by apply grown_relocked|done]|].
  destruct (list_find_first _ after) as [copy'|] eqn:Hf; [|done]. injection Hcopy as ->.
  apply list_find_first_Some in Hf as [Hin2 (Hne & Hco & Hcl)%is_copy_true].
  assert (Hcopy : stored w3 repo copy) by (apply Hs3, (Hl3 _ eq_refl); done).
  apply bind_inv in Hr as [(e & E5 & ->)|([] & w5 & E5 & Hr)]; apply on_repo_inv in E5 as (r5 & E5 & Er5);
    apply (remove_original _ old copy want_locked w) in E5 as (Hc5 & Hrel & Hgone); try done.
  injection Hr as <- <-. split; [done|]. intros ? ? ? [= <- <- <-]. split_and!; try done.
  - by exists old, copy.
  - intros sn Hsn Heq. destruct r5; [|done]. by destruct (Hgone eq_refl sn Hsn).
Qed.

(** ** Reading *)

Lemma find_node_inv repo spec w r w' :
  find_node repo spec w = (r, w') →
  (∀ n, node_content w' repo n = node_content w repo n) ∧ ∀ n, r = Ok n → node_at w repo spec = Some n.
Proof using Type.
  intros (r0 & -> & [Hc Hn]%find_node_law)%map_err_inv. split; [done|]. intros n Hr. apply Hn. destruct r0; [by injection Hr as ->|done].
Qed.
Lemma read_node_exact repo spec off len w data w' :
  read_node repo spec off len w = (Ok data, w') →
  ∃ n, node_at w repo spec = Some n ∧ nd_type n = NtFile ∧ data = slice off len (node_content w repo n).
Proof using Type.
  unfold read_node. intros Hr. apply bind_inv in Hr as [(? & _ & [=])|(n & w1 & E & Hr)].
  apply find_node_inv in E as [Hc Hn]. specialize (Hn _ eq_refl). exists n. case_bool_decide as Ht; [|done]. cbn in Hr.
  split; [done|]. split; [done|]. pose proof (file_size _ _ _ _ Hn Ht) as Hsz.
  destruct (N.leb_spec (nd_size n) off); [injection Hr as <- _; by rewrite slice_past by lia|].
  apply bind_inv in Hr as [(? & _ & [=])|(o & w2 & [= Ho <-] & Hr)].
  apply bind_inv in Hr as [(? & _ & [=])|(l & w2 & [= Hl <-] & Hr)].
  unfold usize_of in Ho, Hl. repeat case_match; simplify_eq.
  apply bind_inv in Hr as [(? & _ & [=])|(f & w2 & E2 & Hr)].
  apply on_repo_inv in E2 as (r2 & [Hc2 Hread]%open_file_law & Er2). destruct r2 as [f'|]; [|done]. injection Er2 as ->.
  apply on_repo_inv in Hr as (r3 & E3 & Er3). destruct r3 as [d|]; [|done]. injection Er3 as ->.
  rewrite (Hread f' _ _ w2 d w' eq_refl (Hc2 n) E3), Hsz, Hc, slice_clamped. done.
Qed.

Lemma in_srv_ok {X A} (m : M (Server (O := O) (W := W)) X A) s a s' :
  in_srv m s = (Ok a, s') → m (srv s) = (Ok a, srv s') ∧ snapshot_cache s' = snapshot_cache s.
Proof using Type. unfold in_srv. destruct (m (srv s)) as [r y] eqn:E. by intros [= -> <-]. Qed.

(** C35. Reading from a snapshot gives exactly the bytes that were asked for: a request
    that succeeds was for one to [MAX_READ] bytes; it opens the repository of the point
    with the id it names of the user it names, as stored when the request comes; the path
    it names is a regular file there, as the repository is when it has been opened, and
    what it returns are the bytes of that file in the range, none when it ends before. So
    chunks read one after the other make up the file. *)
Theorem snapshot_reads_are_exact args off len s data s' :
  snap_read_file args off len s = (Ok data, s') →
  (1 ≤ len ≤ MAX_READ)%N ∧ is_blank (sp_id args) = false ∧
  ∃ u p src repo st n, stored_user (sp_user args) (srv s) = Ok u ∧ require_repo_point_id u (sp_repo args) = Ok p ∧
    repo_source p = Ok src ∧ get_repo src (storage (srv s)) = (Ok repo, st) ∧
    node_at (Store.world st) repo (snap_path_of args) = Some n ∧ nd_type n = NtFile ∧
    let c := node_content (Store.world st) repo n in
    data = slice off len c ∧ ((blen c ≤ off)%N → data = ""%string) ∧
    ∀ len', (data +:+ slice (off + len) len' c)%string = slice off (len + len') c.
Proof using SnapLaws0.
  unfold snap_read_file. intros Hr. apply bind_inv in Hr as [(? & _ & [=])|(src & s1 & E1 & Hr)].
  destruct (is_blank (sp_id args)) eqn:Hb; [done|]. destruct (N.eqb_spec len 0); [done|]. destruct (N.ltb_spec MAX_READ len); [done|]. cbn in Hr.
  unfold repo_source_of in E1. apply bind_inv in E1 as [(? & _ & [=])|(u & s0 & E0 & E1)]. apply in_srv_ok in E0 as [E0 _].
  apply get_user_stored in E0 as (Hst & _ & _ & Hu). injection E1 as E1 <-.
  destruct (require_repo_point_id u (sp_repo args)) as [p|] eqn:Ep; [|done].
  apply bind_inv in Hr as [(? & _ & [=])|(repo & s2 & E2 & Hr)]. apply in_srv_ok in E2 as [E2 _].
  apply map_err_inv in E2 as ([repo'|] & [= <-] & E2). unfold in_storage in E2. rewrite Hst in E2.
  destruct (get_repo src (storage (srv s))) as [r0 st] eqn:Eg. injection E2 as -> E2. apply in_srv_ok in Hr as [Hr _].
  apply on_disk_inv, read_node_exact in Hr as (nd & Hn & Ht & ->). split; [lia|]. split; [done|]. rewrite <-E2 in *. cbn [storage] in *.
  exists u, p, src, repo, st, nd. split; [by apply Hu|]. do 5 (split; [done|]). cbn zeta. split; [done|].
  split; [apply slice_past|]. intros len'. apply slice_next.
Qed.

#[export] Instance node_le_total : Total (node_le (O := O) (W := W)).
Proof using Type.
  intros a b. unfold node_le. destruct (sv_is_dir a), (sv_is_dir b); auto; apply String.le_total.
Qed.
(** A listing has every node of the directory, once, directories first and by name. *)
Theorem snapshot_listings_are_sorted repo spec w l w' :
  list_nodes repo spec w = (Ok l, w') →
  Sorted node_le l ∧ (l = [] ∨ ∃ t tree w1 w2, get_tree repo t w1 = (Ok tree, w2) ∧ l ≡ₚ map (λ n, rustic_to_node n (nd_name n)) tree).
Proof using Type.
  unfold list_nodes. intros Hr. apply bind_inv in Hr as [(? & _ & [=])|(n & w1 & _ & Hr)].
  case_bool_decide; [|done]. cbn in Hr. destruct (nd_subtree n) as [t|]; [|injection Hr as <- _; split; [constructor|by left]].
  apply bind_inv in Hr as [(? & _ & [=])|(tree & w2 & E & Hr)]. injection Hr as <- _.
  apply on_repo_inv in E as (r & E & Er). destruct r; [|done]. injection Er as ->.
  split; [apply Sorted_merge_sort, _|]. right. eexists _, _, _, _. split; [exact E|]. apply merge_sort_Permutation.
Qed.
End Laws.

(** ** Concrete runs *)

(** Repositories in the trees of [DiskOp]: the snapshots of [repo] are the files of
    ["snap:repo"], named after their tree and whether they are locked, and the files
    they show those of ["tree:repo"]. *)
Module DemoSnapshots.
Import PlainUuid.
Import DiskOp.
Import (hints) DiskOp.
Open Scope string_scope.
#[local] Existing Instance plain_foreign.

#[export] Instance demo_store : StoreLib op store := DemoRequests.demo_store.
Record snap := { d_tree : string; d_delete : DeleteOption }.
Definition mark (d : DeleteOption) : string := match d with Never => "!" | NotSet => "." | After _ => "~" end.
Definition d_id (s : snap) : string := d_tree s +:+ mark (d_delete s).
Definition place (repo : string) (id : string) : string * string := ("snap:" +:+ repo, id).
Definition held (w : store) (repo : string) (s : snap) : Prop :=
  w !! place repo (d_id s) = Some (File (d_tree s)) ∧ (d_delete s = Never ∨ d_delete s = NotSet).
Definition read_entry (repo : string) (e : (string * string) * node) : option snap :=
  match e.2 with
  | File t =>
    if bool_decide (e.1 = place repo (d_id {| d_tree := t; d_delete := Never |})) then Some {| d_tree := t; d_delete := Never |}
    else if bool_decide (e.1 = place repo (d_id {| d_tree := t; d_delete := NotSet |})) then Some {| d_tree := t; d_delete := NotSet |}
    else None
  | Dir => None
  end.
Definition save_one (repo : string) (w : store) (s : snap) : store :=
  match d_delete s with
  | After _ => w
  | _ => match w !! place repo (d_id s) with Some _ => w | None => <[place repo (d_id s) := File (d_tree s)]> w end
  end.
Definition text_at (w : store) (repo spec : string) : option string := DiskOp.content (w !! ("tree:" +:+ repo, spec)).
Definition no_object : RusticError := {| rustic_kind := RkOther; rustic_text := "no such object" |}.

#[export] Instance demo_snaps : SnapLib op store := {|
  SnapId := string; Snap := snap; snap_id := d_id; snap_time _ := 0%Z; snap_tree := d_tree; snap_hostname _ := "host";
  snap_label _ := ""; snap_paths _ := []; snap_tags _ := []; snap_version _ := "1"; snap_delete := d_delete;
  with_delete d s := {| d_tree := d_tree s; d_delete := d |};
  id_from_str s := Ok s; id_to_string s := s;
  all_snapshots repo := λ w, (Ok (omap (read_entry repo) (map_to_list w)), w);
  save_snapshots repo l := modify (λ w, foldl (save_one repo) w l);
  remove_snapshots repo ids := modify (λ w, foldl (λ (w : store) id, delete (place repo id) w) w ids);
  Node := string * N; TreeId := string; OpenFile := string; NodeTime := N;
  nd_type _ := NtFile; nd_name := fst; nd_raw_name := fst; nd_size := snd; nd_ctime _ := None; nd_mtime _ := None;
  nd_atime _ := None; nd_subtree _ := None;
  node_from_snapshot_path repo spec := λ w, (ok_or no_object ((λ c, (spec, blen c)) <$> text_at w repo spec), w);
  get_tree _ _ := mret [];
  open_file _ n := mret n.1;
  read_file_at repo f off len := λ w, (ok_or no_object (slice off len <$> text_at w repo f), w);
|}.

Lemma d_id_inj s1 s2 : d_tree s1 = d_tree s2 → d_id s1 = d_id s2 → mark (d_delete s1) = mark (d_delete s2).
Proof. unfold d_id. intros -> Heq%app_cancel_l. done. Qed.
Lemma read_entry_held (w : store) repo e s : w !! e.1 = Some e.2 → read_entry repo e = Some s ↔ held w repo s ∧ e = (place repo (d_id s), File (d_tree s)).
Proof.
  destruct e as [k [|t]]; unfold read_entry, held; cbn; intros He; [split; [done|by intros [_ [=]]]|].
  case_bool_decide as H1; [|case_bool_decide as H2; [|]].
  - subst k. split; [intros [= <-]; by split; [split; [|left]|]|]. intros [[_ Hd] [= Hk Ht]]. f_equal. destruct s as [t' d]; cbn in *. subst t'.
    pose proof (d_id_inj {| d_tree := t; d_delete := Never |} {| d_tree := t; d_delete := d |} eq_refl Hk) as Hm.
    by destruct Hd; subst d.
  - subst k. split; [intros [= <-]; by split; [split; [|right]|]|]. intros [[_ Hd] [= Hk Ht]]. f_equal. destruct s as [t' d]; cbn in *. subst t'.
    pose proof (d_id_inj {| d_tree := t; d_delete := NotSet |} {| d_tree := t; d_delete := d |} eq_refl Hk) as Hm.
    by destruct Hd; subst d.
  - split; [done|]. intros [[_ Hd] [= -> ->]]. exfalso. destruct s as [t' d]; cbn in *. destruct Hd; subst d; contradiction.
Qed.
Lemma save_one_held repo w m s :
  (held w repo s → held (save_one repo w m) repo s) ∧
  (held (save_one repo w m) repo s → held w repo s ∨ d_tree s = d_tree m ∧ d_delete s = d_delete m).
Proof.
  unfold save_one, held. unfold store in *.
  destruct (d_delete m) eqn:Hm; [| |by split; [|left]]; (destruct (w !! place repo (d_id m)) eqn:Hw; [by split; [|left]|]);
    (split; [intros [Hs ?]; split; [|done]; rewrite lookup_insert_ne; [done|congruence]|]);
    intros [Hs Hd]; (destruct (decide (place repo (d_id m) = place repo (d_id s))) as [Heq|Hne];
      [right|left; by rewrite lookup_insert_ne in Hs]);
    rewrite Heq, lookup_insert_eq in Hs; injection Hs as Ht; injection Heq as Heq;
    pose proof (d_id_inj _ _ Ht Heq) as Hmark; rewrite Hm in Hmark; destruct Hd as [Hd|Hd]; rewrite Hd in *; done.
Qed.
Lemma remove_held repo ids w s :
  held (foldl (λ (w : store) id, delete (place repo id) w) w ids) repo s ↔ held w repo s ∧ d_id s ∉ ids.
Proof.
  revert w; induction ids as [|id ids IH]; intros w; cbn; [set_solver|]. rewrite IH. unfold held. unfold store in *.
  rewrite lookup_delete_Some, not_elem_of_cons. unfold place. split.
  - intros [[[Hne Hs] Hd] Hn]. split_and!; try done. congruence.
  - intros [[Hs Hd] [Hne Hn]]. split_and!; try done. congruence.
Qed.
#[export] Program Instance demo_laws : SnapLaws op store := {|
  stored := held;
  node_at w repo spec := (λ c, (spec, blen c)) <$> text_at w repo spec;
  node_content w repo n := opt_or "" (text_at w repo n.1);
|}.
Next Obligation.
  intros w repo [ta da] [tb db] [Ha Hda] [Hb Hdb] Heq. cbn in *. rewrite Heq, Hb in Ha. injection Ha as ->.
  apply app_cancel_l in Heq. by destruct Hda, Hdb; subst.
Qed.
Next Obligation. intros d [t d']. cbn. split; [done|]. apply same_origin_iff. by split_and!. Qed.
Next Obligation.
  intros repo w r w' Hr. cbn in *. injection Hr as <- <-. split; [done|]. intros l [= <-] s. rewrite list_elem_of_omap. split.
  - intros (e & He & Hs). destruct e as [k n]. apply elem_of_map_to_list in He. by apply (read_entry_held w) in Hs as [? _].
  - intros Hs. exists (place repo (d_id s), File (d_tree s)). destruct Hs as [Hs Hd].
    split; [by apply elem_of_map_to_list|]. by apply (read_entry_held w).
Qed.
Next Obligation.
  intros repo l w r w' Hr. cbn in *. injection Hr as <- <-. revert w; induction l as [|m l IH]; intros w; cbn; [split; [done|by left]|].
  destruct (IH (save_one repo w m)) as [Hk Hn]. split.
  - intros s Hs. apply Hk. by apply save_one_held.
  - intros s [Hs|(m' & Hin & Ho & Hd)]%Hn; [|right; exists m'; split; [by right|done]].
    apply save_one_held in Hs as [?|[Ht Hd]]; [by left|right]. exists m. split; [by left|]. split; [|done].
    apply same_origin_iff. by split_and!.
Qed.
Next Obligation.
  intros repo ids w r w' Hr. cbn in *. injection Hr as <- <-. split_and!.
  - intros s. rewrite remove_held. by intros [? _].
  - intros s Hs Hn. by rewrite remove_held.
  - intros _ s. rewrite remove_held. by intros [_ ?].
Qed.
Next Obligation.
  intros repo spec w r w' Hr. cbn in *. injection Hr as <- <-. split; [done|]. intros n. by destruct (text_at w repo spec); cbn; [intros [= ->]|].
Qed.
Next Obligation. intros w repo spec n Hn _. cbn in *. apply fmap_Some in Hn as (c & Hc & ->). cbn. by rewrite Hc. Qed.
Next Obligation.
  intros repo n w r w' Hr. cbn in *. injection Hr as <- <-. split; [done|]. intros f off len w1 b w2 [= <-] Hc Hb.
  destruct (text_at w1 repo n.1) as [c|] eqn:E; [|done]. cbn in Hb. injection Hb as <- _. rewrite <-Hc. done.
Qed.

Definition two : store := {[place "r" "t." := File "t"; place "r" "u!" := File "u"; ("tree:r", "s:/f") := File "contents"]}.
Example locks_one :
  let '(r, w) := relock (SnapLib0 := demo_snaps) "r" "t." true two in
  (r, w !! place "r" "t.", w !! place "r" "t!", w !! place "r" "u!") = (Ok ("t!", "t.", true), None, Some (File "t"), Some (File "u")).
Proof. vm_compute. reflexivity. Qed.
(** A snapshot that is already locked is both the old and the new one. *)
Example locked_already : (relock (SnapLib0 := demo_snaps) "r" "u!" true two).1 = Ok ("u!", "u!", true).
Proof. vm_compute. reflexivity. Qed.
Lemma locking_loses_no_snapshot_witness :
  ∃ s', held (relock (SnapLib0 := demo_snaps) "r" "t." true two).2 "r" s' ∧ is_never (snap_delete s') = true ∧ d_tree s' = "t".
Proof.
  destruct (relock (SnapLib0 := demo_snaps) "r" "t." true two) as [r w] eqn:E.
  assert (Hr : (relock (SnapLib0 := demo_snaps) "r" "t." true two).1 = Ok ("t!", "t.", true)) by (vm_compute; reflexivity).
  rewrite E in Hr. cbn in Hr. subst r.
  destruct (locking_loses_no_snapshot (SnapLib0 := demo_snaps) "r" "t." true two _ w E) as [_ Hok].
  destruct (Hok _ _ _ eq_refl) as (_ & _ & (old & sn & Hold & Hid & Hsn & _ & Ho & Hl) & _).
  exists sn. split; [exact Hsn|]. split; [exact Hl|]. apply same_origin_iff in Ho as [Ht _]. cbn in Ht. rewrite Ht.
  destruct Hold as [Hold _]. cbn in Hid. rewrite Hid in Hold. injection Hold as <-. reflexivity.
Defined.

Definition vault : VfsPoint :=
  {| pt_id := id1; Points.name := "vault"; max_bytes := None; Points.read_only := false; scheme := "fs";
     config := ∅; is_repo := true; repo_password := Some "longenough" |}.
Definition ann : VfsUser := {| username := "ann"; points := [vault] |}.
#[export] Instance one_user : JsonLib := {| to_json _ := Ok "ann"; from_json _ := Ok (points ann) |}.
Definition source : RepoSource := {| rs_scheme := "fs"; rs_config := ∅; rs_password := "longenough" |}.
Notation state := (Snaps (O := op) (W := store)).
Definition s0 : state :=
  {| Snapshots.srv := {| storage := {| Store.world := two; repos := {[source := "r"]}; repo_vfs_ops := ∅; data_ops := ∅; vfs_ops := ∅;
                                      degraded_ops := ∅; health := ∅; vfs_generation := ∅; refreshing := ∅; events := [] |};
                         quota := qs_new {| users_t := {["ann" := "ann"]}; quota_t := ∅; faults := [] |};
                         jobs := ∅; write_handles := ∅; read_handles := ∅ |};
     snapshot_cache := ∅ |}.
Definition in_vault (p : string) : SnapshotPath := {| sp_user := "ann"; sp_repo := proj1_sig id1; sp_id := "s"; sp_path := p |}.
Example reads_a_chunk :
  ((snap_read_file (in_vault "/f") 3 4 s0).1, (snap_read_file (in_vault "/f") 6 40 s0).1, (snap_read_file (in_vault "/f") 8 1 s0).1) =
  (Ok "tent", Ok "ts", Ok "").
Proof. vm_compute. reflexivity. Qed.
Lemma snapshot_reads_are_exact_witness :
  ∃ data, (snap_read_file (in_vault "/f") 3 4 s0).1 = Ok data ∧ data = slice 3 4 "contents" ∧ data = "tent".
Proof.
  assert (Hr : (snap_read_file (in_vault "/f") 3 4 s0).1 = Ok "tent") by (vm_compute; reflexivity).
  destruct (snap_read_file (in_vault "/f") 3 4 s0) as [r s] eqn:E. cbn [fst] in *. subst r.
  exists "tent". split; [reflexivity|].
  destruct (snapshot_reads_are_exact (in_vault "/f") 3 4 s0 _ s E) as (_ & _ & u & p & src & repo & st & n & Hu & Hp & Hs & Hg & Hn & _ & Hd & _).
  assert (Hu' : stored_user "ann" (Snapshots.srv s0) = Ok ann) by reflexivity.
  cbn [sp_user in_vault] in Hu. rewrite Hu' in Hu. injection Hu as <-.
  assert (Hp' : require_repo_point_id ann (proj1_sig id1) = Ok vault) by reflexivity.
  cbn [sp_repo in_vault] in Hp. rewrite Hp' in Hp. injection Hp as <-.
  assert (Hs' : repo_source vault = Ok source) by reflexivity.
  rewrite Hs' in Hs. injection Hs as <-.
  assert (Hg' : get_repo source (storage (Snapshots.srv s0)) = (Ok "r", storage (Snapshots.srv s0))) by reflexivity.
  rewrite Hg' in Hg. injection Hg as <- <-.
  change (Some ("s:/f", 8%N) = Some n) in Hn. injection Hn as <-.
  change ("tent" = slice 3 4 "contents") in Hd. split; [exact Hd|reflexivity].
Defined.
(** The listing is cached, and forgotten when a snapshot has been locked. *)
Definition all_of : GetSnapshotArgs := {| gs_user := "ann"; gs_repo := proj1_sig id1 |}.
Example cached_listing :
  let '(r, s) := snap_get_all all_of s0 in
  (map si_id <$> ok_opt r, bool_decide (is_Some (snapshot_cache s !! source))) = (Some ["u!"; "t."], true).
Proof. vm_compute. reflexivity. Qed.
End DemoSnapshots.
