(* ===== verification/Backups.v ===== *)
(** * Jobs on repositories ([server.rs])

    The requests that start a job on a repository - backup, restore, check, forget,
    retention - and the jobs themselves. A request checks what it can and returns the
    plan of its job, here a record of what the closure captures; the job's body runs on
    the whole server, with the trace of [Retention], whose engine it uses. Rustic's
    backup, restore and check are operations of [JobLib]; that a cancelled one fails is
    one of the things they may do. *)

From S2P Require Import Prelude.
From S2P Require Import RustStr.
From S2P Require Import Errors.
From S2P Require Import Paths.
From S2P Require Import QuotaState.
From S2P Require Import Service.
From S2P Require Import Mounts.
From S2P Require Import Points.
From S2P Require Import LocalFs.
From S2P Require Import Users.
From S2P Require Import Db.
From S2P Require Import Retention.
From S2P Require Import Store.
From S2P Require Import SetVfs.
From S2P Require Import Requests.
From S2P Require Import Transfer.
From S2P Require Import Handles.
From S2P Require Import Snapshots.
From stdpp Require Import options.
Close Scope string_scope.

(** [LocalSource] and [OpenDALSource] *)
Inductive BackupSource (O : Type) := LocalSource (root : string) | OperatorSource (op : O).
Arguments LocalSource {O} root.
Arguments OperatorSource {O} op.

Class JobLib (O W : Type) `{SnapLib O W} := {
  (** What [RusticLib] needs of rustic beyond [SnapLib]. *)
  RSpan : Type;
  RLimit : Type;
  added_packed : Snap → option N;
  keeps_snapshot : Snap → Z → bool;
  group_snapshots : list Snap → list (list Snap);
  forget_snapshots : list (list Snap) → KeepOptions RSpan → Z → result string (list (list (Snap * bool)));
  span_days : N → result string RSpan;
  zero_span : RSpan;
  limit_of_str : string → result string RLimit;
  limit_of_percentage : N → RLimit;
  prune_repo : Store.RepoIndexed → option RLimit → option (RLimit * RSpan) → M W RusticError ();
  clock_now : W → Z * W;
  (** [StringList::from_str] (its error is the one the code wraps it in),
      [SnapshotOptions], [PathList::from_string], [backup] *)
  Tags : Type;
  Template : Type;
  Paths : Type;
  parse_tags : string → result RusticError Tags;
  to_snapshot : Tags → string → result RusticError Template;
  path_list : string → result RusticError Paths;
  run_backup_of : Store.RepoIndexed → Template → BackupSource O → Paths → M W RusticError Snap;
  (** [ls], [prepare_restore], [restore], [check] *)
  Ls : Type;
  Plan : Type;
  list_files : Store.RepoIndexed → Node → M W RusticError Ls;
  prepare_restore : Store.RepoIndexed → bool → Ls → O → string → bool → M W RusticError Plan;
  restore_plan : Store.RepoIndexed → Plan → bool → Ls → O → M W RusticError ();
  check_repo : Store.RepoIndexed → M W RusticError ();
  (** [std::fs::metadata(path)?.is_dir()] *)
  fs_is_dir : W → string → option bool;
}.

(** ** Messages *)

Record BackupArgs := {
  ba_src : option PathArg; ba_repo_user : string; ba_repo : string; ba_dry_run : bool;
  ba_tags : list string; ba_retention : option RetentionPolicy;
}.
Record RestoreArgs := {
  ra_repo_user : string; ra_repo : string; ra_snapshot : string; ra_path : string; ra_dest : option PathArg;
  ra_delete : bool; ra_dry_run : bool;
}.
Record CheckArgs := { ca_user : string; ca_repo : string }.
Record ForgetArgs := { fa_user : string; fa_repo : string; fa_snapshots : list string; fa_include_locked : bool }.
Record RetentionArgs := { rt_user : string; rt_repo : string; rt_policy : option RetentionPolicy; rt_dry_run : bool }.

Section Backups.
Context {O W : Type} `{OA : OperatorApi O W} `{FA : !FileApi O W} `{!StoreLib O W} `{!SnapLib O W} `{!JobLib O W} `{JL : JsonLib}
  `{Foreign}.
Notation Server := (Server (O := O) (W := W)).
Notation Snaps := (Snaps (O := O) (W := W)).

(** ** What the jobs capture *)

Record RepoJob := { rj_src : RepoSource; rj_op : O }.
Record BackupPlan := {
  bp_repo : RepoJob; bp_source : BackupSource O; bp_path : string; bp_tags : list string; bp_label : string;
  bp_policy : option RetentionPolicy; bp_max : option N; bp_quota : string;
}.
Record RestorePlan := {
  rp_repo : RepoJob; rp_dest : O; rp_dest_path : string; rp_snapshot : string; rp_path : string;
  rp_delete : bool; rp_dry_run : bool;
}.
Record ForgetPlan := { fp_repo : RepoJob; fp_ids : list SnapId; fp_include_locked : bool }.
Record RetentionPlan := {
  np_repo : RepoJob; np_policy : RetentionPolicy; np_dry_run : bool; np_max : option N; np_quota : string;
}.

(** ** The requests *)

(** A directory of a local point is searched for symlinks before a job walks it. *)
Definition no_symlinks (full : string) w : result Status () :=
  match fs_is_dir w full with
  | Some true =>
    match reject_symlinks_under (H := disk w) (S (disk_dirs w)) full with
    | Some (Ok _) => Ok ()
    | Some (Err e) => Err (St.permission_denied (io_text e))
    | None => Err (St.permission_denied (io_text walk_unfinished))
    end
  | _ => Ok ()
  end.
Definition check_local_tree (p : VfsPoint) (rest : string) : M Snaps Status string :=
  root ← lift (local_source_path p);
  w ← gets (λ s, Store.world (storage (srv s)));
  full ← lift (safe_join (H := disk w) root rest);
  _ ← lift (no_symlinks full w);
  mret root.

Definition spawn_job (id : Uuid) (user : string) : M Snaps Status () := in_srv (Transfer.register_job id user).

(** [backup]; the [filter] of the request is not used, and [dry_run] only for
    retention. *)
Definition backup (args : BackupArgs) (job_id : Uuid) : M Snaps Status BackupPlan :=
  src ← lift (require_path (ba_src args));
  source_user ← in_srv (get_user (pa_user src));
  '(data_point, source_path) ← lift (resolve_data_file_path source_user (pa_path src));
  '(repo_user, repo_point, repo_src) ← writable_repo (ba_repo_user args) (ba_repo args);
  local_path ← (if is_local_scheme (scheme data_point)
                then root ← check_local_tree data_point source_path; mret (Some root)
                else mret None);
  source ← match local_path with
           | Some root => mret (LocalSource root)
           | None => op ← data_operator source_user data_point; mret (OperatorSource op)
           end;
  repo_op ← data_operator repo_user repo_point;
  let policy := if ba_dry_run args then None
                else match ba_retention args with Some p => if has_rules p then Some p else None | None => None end in
  _ ← spawn_job job_id (username repo_user);
  _ ← modify (expire_listing repo_src);
  mret {| bp_repo := {| rj_src := repo_src; rj_op := repo_op |}; bp_source := source; bp_path := source_path;
          bp_tags := ba_tags args; bp_label := uuid_to_string (pt_id data_point); bp_policy := policy;
          bp_max := max_bytes repo_point; bp_quota := quota_id (username repo_user) (pt_id repo_point) |}.

Definition restore_is_limited : Status :=
  St.failed_precondition "quota-limited local restores are disabled because rustic restore can overwrite multiple files atomically without a pre-write filesystem quota reservation"%string.
(** A repository a job only reads. *)
Definition readable_repo (user repo_id : string) : M Snaps Status (VfsUser * VfsPoint * RepoSource) :=
  u ← in_srv (get_user user);
  p ← lift (require_repo_point_id u repo_id);
  src ← lift (repo_source p);
  mret (u, p, src).
(** [restore] *)
Definition restore (args : RestoreArgs) (job_id : Uuid) : M Snaps Status RestorePlan :=
  dest ← lift (require_path (ra_dest args));
  dest_user ← in_srv (get_user (pa_user dest));
  '(dest_point, dest_path) ← lift (resolve_data_file_path dest_user (pa_path dest));
  _ ← lift (require_writable dest_point);
  '(repo_user, repo_point, repo_src) ← readable_repo (ra_repo_user args) (ra_repo args);
  _ ← (if is_local_scheme (scheme dest_point)
       then
         _ ← check_local_tree dest_point dest_path;
         if bool_decide (is_Some (max_bytes dest_point)) && negb (ra_dry_run args)
         then throw restore_is_limited else mret ()
       else mret ());
  dest_op ← data_operator dest_user dest_point;
  repo_op ← data_operator repo_user repo_point;
  _ ← spawn_job job_id (username repo_user);
  mret {| rp_repo := {| rj_src := repo_src; rj_op := repo_op |}; rp_dest := dest_op; rp_dest_path := dest_path;
          rp_snapshot := ra_snapshot args; rp_path := ra_path args; rp_delete := ra_delete args; rp_dry_run := ra_dry_run args |}.

(** [check] *)
Definition check (args : CheckArgs) (job_id : Uuid) : M Snaps Status RepoJob :=
  '(u, p, src) ← readable_repo (ca_user args) (ca_repo args);
  op ← data_operator u p;
  _ ← spawn_job job_id (username u);
  mret {| rj_src := src; rj_op := op |}.

(** [forget] *)
Definition forget (args : ForgetArgs) (job_id : Uuid) : M Snaps Status ForgetPlan :=
  '(u, p, src) ← writable_repo (fa_user args) (fa_repo args);
  op ← data_operator u p;
  ids ← lift (collect parse_snapshot_id (fa_snapshots args));
  _ ← spawn_job job_id (username u);
  _ ← modify (expire_listing src);
  mret {| fp_repo := {| rj_src := src; rj_op := op |}; fp_ids := ids; fp_include_locked := fa_include_locked args |}.

Definition policy_required : Status := St.invalid_argument "a retention policy is required"%string.
(** [apply_retention] *)
Definition apply_retention (args : RetentionArgs) (job_id : Uuid) : M Snaps Status RetentionPlan :=
  '(u, p, src) ← writable_repo (rt_user args) (rt_repo args);
  policy ← lift (ok_or policy_required (rt_policy args));
  _ ← lift (map_err St.invalid_argument (validate policy));
  op ← data_operator u p;
  _ ← spawn_job job_id (username u);
  _ ← modify (expire_listing src);
  mret {| np_repo := {| rj_src := src; rj_op := op |}; np_policy := policy; np_dry_run := rt_dry_run args;
          np_max := max_bytes p; np_quota := quota_id (username u) (pt_id p) |}.

(** ** The jobs *)

(** What [Retention] sees of rustic in a job: fresh handles of the job's repository, the
    point's quota and the job's token. *)
Definition on_world {A} (m : M W RusticError A) : M Server string A := m_map_err show_rustic (in_storage (Store.on_world m)).
Definition open_job (j : RepoJob) (allow_init : bool) : M Server string Store.RepoIndexed :=
  m_map_err show_rustic (in_storage (create_for_job (rj_src j) (rj_op j) allow_init)).
Definition job_rustic (job : Uuid) (j : RepoJob) (quota_key : string) : RusticLib := {|
  Retention.W := Server; Retention.SnapshotId := SnapId; Retention.SnapshotFile := Snap; Span := RSpan; LimitOption := RLimit;
  sn_id := snap_id; sn_time := snap_time; sn_delete := snap_delete; sn_summary := added_packed;
  must_keep := keeps_snapshot; grouped := group_snapshots; forget_groups := forget_snapshots;
  try_days := span_days; no_span := zero_span; limit_from_str := limit_of_str; limit_percentage := limit_of_percentage;
  Retention.RepoIndexed := Store.RepoIndexed;
  repo_open := open_job j false;
  get_all_snapshots repo := on_world (all_snapshots repo);
  delete_snapshots repo ids := on_world (remove_snapshots repo ids);
  repo_prune repo max instant := on_world (prune_repo repo max instant);
  used_bytes := m_map_err show_dal (in_quota (current_bytes quota_key));
  Retention.is_cancelled y := (match jobs y !! job with Some h => cancelled h | None => false end, y);
  zoned_now y := let '(t, w) := clock_now (Store.world (storage y)) in (t, (in_storage (E := Status) (modify (Store.set_world w)) y).2);
|}.

Section Job.
Context (job : Uuid) (j : RepoJob) (quota_key : string) (max : option N).
#[local] Instance rustic : RusticLib := job_rustic job j quota_key.
Notation St := (Retention.St).

Definition on_repository {A} (m : M W RusticError A) : M St string A := Retention.call (H := rustic) (on_world m).
Definition open_repository (allow_init : bool) : M St string Store.RepoIndexed := Retention.call (H := rustic) (open_job j allow_init).
Definition shown {A} (r : result RusticError A) : result string A := map_err show_rustic r.

(** Space rules before a backup; what goes wrong is a message. *)
Definition make_room (policy : option RetentionPolicy) : M St string () :=
  match policy with
  | Some p =>
    if has_space_rule p then
      r ← attempt (Retention.run (H := rustic) max false p SpaceOnly);
      match r with Ok _ => mret () | Err e => say Warning (CouldNotMakeRoom e) end
    else mret ()
  | None => mret ()
  end.
(** The full policy after it. *)
Definition retain (policy : option RetentionPolicy) : M St string () :=
  match policy with
  | Some p =>
    r ← attempt (Retention.run (H := rustic) max false p Full);
    match r with
    | Ok report =>
      let n := (time_deleted report + space_deleted report)%N in
      if (0 <? n)%N then say Info (BackupRetained n (bytes_freed report)) else mret ()
    | Err e => say Warning (RetentionFailed e)
    end
  | None => mret ()
  end.

(** The body of a backup up to the snapshot. *)
Definition take_snapshot (p : BackupPlan) : M St string Snap :=
  tags ← lift (shown (parse_tags (join "," (bp_tags p))));
  template ← lift (shown (to_snapshot tags (bp_label p)));
  _ ← make_room (bp_policy p);
  repo ← open_repository true;
  paths ← lift (shown (path_list (bp_path p)));
  on_repository (run_backup_of repo template (bp_source p) paths).
Definition backup_job (p : BackupPlan) : M St string (option string) :=
  saved ← take_snapshot p;
  _ ← retain (bp_policy p);
  mret (Some (id_to_string (snap_id saved))).

Definition restore_job (p : RestorePlan) : M St string (option string) :=
  repo ← open_repository false;
  node ← on_repository (node_from_snapshot_path repo (rp_snapshot p +:+ ":" +:+ rp_path p)%string);
  ls ← on_repository (list_files repo node);
  plan ← on_repository (prepare_restore repo (rp_delete p) ls (rp_dest p) (rp_dest_path p) (rp_dry_run p));
  _ ← (if negb (rp_dry_run p) then on_repository (restore_plan repo plan (rp_delete p) ls (rp_dest p)) else mret ());
  mret None.

Definition check_job : M St string (option string) :=
  repo ← open_repository false;
  _ ← on_repository (check_repo repo);
  mret None.

Definition locked_ids (ids : list SnapId) (all : list Snap) : list string :=
  map (λ sn, id_to_string (snap_id sn))
    (List.filter (λ sn, is_never (snap_delete sn) && bool_decide (snap_id sn ∈ ids)) all).
Definition locked_error (locked : list string) : string :=
  ("refusing to delete locked snapshot(s): " +:+ join ", " locked +:+ ". Unlock them first.")%string.
Definition forget_snapshots_of (repo : Store.RepoIndexed) (ids : list SnapId) (include_locked : bool) : M W string () :=
  _ ← (if negb include_locked then
         all ← m_map_err show_rustic (all_snapshots repo);
         let locked := locked_ids ids all in
         if negb (bool_decide (locked = [])) then throw (show_rustic {| rustic_kind := RkInvalidInput; rustic_text := locked_error locked |})
         else mret ()
       else mret ());
  m_map_err show_rustic (remove_snapshots repo ids).
Definition forget_job (p : ForgetPlan) : M St string (option string) :=
  repo ← open_repository false;
  _ ← Retention.call (H := rustic) (in_storage (Store.on_world (forget_snapshots_of repo (fp_ids p) (fp_include_locked p))));
  mret None.

Definition retention_job (p : RetentionPlan) : M St string (option string) :=
  _ ← (if has_space_rule (np_policy p) && bool_decide (np_max p = None) then say Warning SpaceRuleSkipped else mret ());
  report ← Retention.run (H := rustic) (np_max p) (np_dry_run p) (np_policy p) Full;
  _ ← say Info (if np_dry_run p then DryRunFinished
                else RetentionFinished (time_deleted report) (space_deleted report) (bytes_freed report));
  mret None.
End Job.
End Backups.

(** ** The jobs: what survives *)

Section JobLemmas.
Context {O W : Type} `{OA : OperatorApi O W} `{FA : !FileApi O W} `{!StoreLib O W} `{!SnapLib O W} `{!JobLib O W} `{JL : JsonLib}
  `{Foreign}.
Context (job : Uuid) (j : RepoJob (O := O)) (quota_key : string) (max : option N).
Notation job_lib := (rustic job j quota_key).
Implicit Types (s : Retention.St (H := job_lib)).

Lemma make_room_never_fails policy s :
  ∃ s', make_room job j quota_key max policy s = (Ok (), s') ∧ (policy = None → s' = s).
Proof using Type.
  unfold make_room. destruct policy as [p|]; [|by exists s]. destruct (has_space_rule p); [|eexists; split; [reflexivity|done]].
  cbv [attempt mbind M_bind]. destruct (Retention.run (H := job_lib) max false p SpaceOnly s) as [[?|?] s1]; (eexists; split; [reflexivity|done]).
Qed.
Lemma retain_never_fails policy s :
  ∃ s', retain job j quota_key max policy s = (Ok (), s') ∧ (policy = None → s' = s).
Proof using Type.
  unfold retain. destruct policy as [p|]; [|by exists s].
  cbv [attempt mbind M_bind]. destruct (Retention.run (H := job_lib) max false p Full s) as [[rep|?] s1]; [|eexists; split; [reflexivity|done]].
  destruct (0 <? _)%N; (eexists; split; [reflexivity|done]).
Qed.

Definition untraced {A} (m : M (Retention.St (H := job_lib)) string A) : Prop :=
  ∀ s r s', m s = (r, s') → trace s' = trace s.
Lemma untraced_bind {A B} (m : M (Retention.St (H := job_lib)) string A) (f : A → M _ string B) :
  untraced m → (∀ a, untraced (f a)) → untraced (mbind f m).
Proof using Type.
  intros Hm Hf s r s' [(e & E & ->)|(a & s1 & E & Hr)]%bind_inv; [by eapply Hm|]. rewrite <-(Hm _ _ _ E). by eapply Hf.
Qed.
Lemma untraced_call {A} (m : M (Server (O := O) (W := W)) string A) : untraced (Retention.call (H := job_lib) m).
Proof using Type. intros s r s'. unfold Retention.call. destruct (m _) as [? ?]. by intros [= _ <-]. Qed.
Lemma untraced_lift {A} (r : result string A) : untraced (lift r).
Proof using Type. intros s r' s' [= _ <-]. done. Qed.
Lemma take_snapshot_untraced p : bp_policy p = None → untraced (take_snapshot job j quota_key max p).
Proof using Type.
  intros Hp. unfold take_snapshot. apply untraced_bind; [apply untraced_lift|intros tags].
  apply untraced_bind; [apply untraced_lift|intros t]. apply untraced_bind.
  { rewrite Hp. intros s r s' [= _ <-]. done. }
  intros _. apply untraced_bind; [apply untraced_call|intros repo].
  apply untraced_bind; [apply untraced_lift|intros paths]. apply untraced_call.
Qed.

(** The same backup, with no retention. *)
Definition bare (p : BackupPlan (O := O)) : BackupPlan :=
  {| bp_repo := bp_repo p; bp_source := bp_source p; bp_path := bp_path p; bp_tags := bp_tags p; bp_label := bp_label p;
     bp_policy := None; bp_max := bp_max p; bp_quota := bp_quota p |}.
(** Making room, however it ends, only decides in which state the snapshot is taken. *)
Lemma take_snapshot_bare p s :
  ∃ s0, (s0 = s ∨ s0 = (make_room job j quota_key max (bp_policy p) s).2) ∧
    take_snapshot job j quota_key max p s = take_snapshot job j quota_key max (bare p) s0.
Proof using Type.
  destruct (make_room_never_fails (bp_policy p) s) as (s0 & E & _). unfold take_snapshot, bare. cbn [bp_tags bp_label bp_policy bp_path bp_source].
  cbv [mbind M_bind lift]. rewrite E. destruct (shown _) as [tags|e] eqn:E1; [|exists s; by split; [left|]].
  destruct (shown (to_snapshot tags _)) as [t|e] eqn:E2; [|exists s; by split; [left|]].
  exists s0. split; [by right|]. done.
Qed.

(** C17. Retention never fails a backup. Whatever making room before it and the policy after
    it run into, the result of a backup job is that of the same backup without a policy, in
    the state that making room left, with its errors no more than announced; what the
    policy does comes after it, on the state the snapshot left, and only when a snapshot
    was saved. A backup without a policy, as a dry run is, makes no retention call at all:
    nothing is listed, deleted, pruned or announced. *)
Theorem backups_survive_retention p s r s' :
  backup_job job j quota_key max p s = (r, s') →
  ∃ s0, (s0 = s ∨ s0 = (make_room job j quota_key max (bp_policy p) s).2) ∧
  let '(saved, s1) := take_snapshot job j quota_key max (bare p) s0 in
  r = (λ sn, Some (id_to_string (snap_id sn))) <$> saved ∧
  s' = (if is_ok saved then (retain job j quota_key max (bp_policy p) s1).2 else s1) ∧
  (bp_policy p = None → s0 = s ∧ s' = s1 ∧ trace s' = trace s).
Proof using Type.
  unfold backup_job, mbind at 1, M_bind. destruct (take_snapshot_bare p s) as (s0 & Hs0 & ->). intros Hr. exists s0. split; [done|].
  assert (Hnone : bp_policy p = None → s0 = s).
  { intros Hp. destruct Hs0 as [?| ->]; [done|]. by rewrite Hp. }
  destruct (take_snapshot job j quota_key max (bare p) s0) as [saved s1] eqn:E.
  apply (take_snapshot_untraced (bare p)) in E as Ht; [|done]. destruct saved as [sn|e]; cbn [is_ok].
  - destruct (retain_never_fails (bp_policy p) s1) as (s2 & E2 & H2). cbv [mbind M_bind] in Hr. rewrite E2 in Hr |- *.
    injection Hr as <- <-. split; [done|]. split; [done|]. intros Hp. rewrite (H2 Hp), Ht, Hnone by done. done.
  - injection Hr as <- <-. split; [done|]. split; [done|]. intros Hp. rewrite Ht, Hnone by done. done.
Qed.
End JobLemmas.

Section Forget.
Context {O W : Type} `{OA : OperatorApi O W} `{FA : !FileApi O W} `{!StoreLib O W} `{!SnapLib O W} `{!SnapLaws O W} `{!JobLib O W}
  `{Foreign}.

Lemma locked_ids_nil ids (all : list Snap) :
  locked_ids ids all = [] ↔ ∀ sn, sn ∈ all → is_never (snap_delete sn) = true → snap_id sn ∉ ids.
Proof using Type.
  unfold locked_ids. induction all as [|sn all IH]; cbn; [set_solver|].
  destruct (is_never (snap_delete sn)) eqn:Hn; cbn; [|rewrite IH; set_solver by congruence].
  case_bool_decide as Hin; cbn; [|rewrite IH; set_solver]. split; [done|]. intros Hall. by destruct (Hall sn (list_elem_of_here _ _) Hn).
Qed.

(** Either nothing was removed, or the removal ran on the repository as it was, and then
    nothing asked for was locked unless locked ones are included. *)
Lemma forget_snapshots_inv repo ids include_locked w r w' :
  forget_snapshots_of repo ids include_locked w = (r, w') →
  (is_ok r = false ∧ ∀ sn, stored w' repo sn ↔ stored w repo sn) ∨
  ∃ r0 w1, remove_snapshots repo ids w1 = (r0, w') ∧ is_ok r = is_ok r0 ∧ (∀ sn, stored w1 repo sn ↔ stored w repo sn) ∧
    (include_locked = false → ∀ sn, stored w repo sn → is_never (snap_delete sn) = true → snap_id sn ∉ ids).
Proof using Type.
  unfold forget_snapshots_of. intros Hr.
  apply bind_inv in Hr as [(e & E & ->)|([] & w1 & E & Hr)]; destruct include_locked; cbn [negb] in E; try done.
  - left. split; [done|].
    apply bind_inv in E as [(e' & E & _)|(all & w2 & E & Hr)]; apply map_err_inv in E as (r0 & _ & [Hs _]%list_law); [done|].
    cbn zeta in Hr. destruct (negb _); [|done]. by injection Hr as _ <-.
  - injection E as <-. apply map_err_inv in Hr as (r0 & -> & Hr). right. exists r0, w. split_and!; try done. by destruct r0.
  - apply bind_inv in E as [(e' & _ & [=])|(all & w2 & E & E2)]. apply map_err_inv in E as (r0 & Hr0 & [Hs Hl]%list_law).
    destruct r0 as [all'|]; [|done]. injection Hr0 as <-. specialize (Hl _ eq_refl).
    cbn zeta in E2. case_bool_decide as Hnil; [|done]. injection E2 as <-. rewrite locked_ids_nil in Hnil.
    apply map_err_inv in Hr as (r0 & -> & Hr). right. exists r0, w2. split_and!; [done|by destruct r0|done|].
    intros _ sn Hsn. by apply Hnil, Hl.
Qed.
Lemma forget_keeps_locked repo ids w r w' sn :
  forget_snapshots_of repo ids false w = (r, w') → stored w repo sn → is_never (snap_delete sn) = true → stored w' repo sn.
Proof using Type.
  intros [[_ Hs]|(r0 & w1 & (_ & Hk & _)%remove_law & _ & Hs & Hn)]%forget_snapshots_inv Hsn Hl; [by apply Hs|].
  apply Hk; [by apply Hs|by apply Hn].
Qed.

(** C16. Forgetting spares what is locked. Nothing but the snapshots asked for goes, and
    none appears; on success all of them are gone. Unless locked ones are included, every
    locked snapshot stays, and if one of those asked for is locked nothing is removed and
    the job fails. *)
Theorem forget_spares_locked repo ids include_locked w r w' :
  forget_snapshots_of repo ids include_locked w = (r, w') →
  (∀ sn, stored w' repo sn → stored w repo sn) ∧
  (∀ sn, stored w repo sn → snap_id sn ∉ ids → stored w' repo sn) ∧
  (is_ok r = true → ∀ sn, stored w' repo sn → snap_id sn ∉ ids) ∧
  (include_locked = false →
    (∀ sn, stored w repo sn → is_never (snap_delete sn) = true → stored w' repo sn) ∧
    ∀ sn, stored w repo sn → is_never (snap_delete sn) = true → snap_id sn ∈ ids →
      is_ok r = false ∧ ∀ sn', stored w repo sn' → stored w' repo sn').
Proof using SnapLaws0.
  intros Hr. pose proof (forget_keeps_locked repo ids w r w') as Hkeep.
  apply forget_snapshots_inv in Hr as Hi. destruct Hi as [[Hno Hs]|(r0 & w1 & (Hg & Hk & Hd)%remove_law & Hok & Hs & Hn)].
  - split_and!; [by intros sn ?%Hs|by intros sn ? _; apply Hs|congruence|]. intros _. split; [by intros sn ? _; apply Hs|].
    intros sn _ _ _. split; [done|]. by intros sn' ?%Hs.
  - split_and!; [by intros sn ?%Hg%Hs|by intros sn ?%Hs; apply Hk|by rewrite Hok|]. intros ->. split; [by intros sn; apply Hkeep|].
    intros sn Hsn Hl Hin. by destruct (Hn eq_refl sn Hsn Hl).
Qed.
End Forget.

(** ** The requests: what becomes a job *)

Section Accepted.
Context {O W : Type} `{OA : OperatorApi O W} `{FA : !FileApi O W} `{!StoreLib O W} `{!SnapLib O W} `{!JobLib O W} `{JL : JsonLib}
  `{Foreign}.
Notation Server := (Server (O := O) (W := W)).
Notation Snaps := (Snaps (O := O) (W := W)).
Implicit Types s : Snaps.

(** Neither a job nor a user nor a cached listing has changed. *)
Definition calm s s' : Prop := steady (srv s) (srv s') ∧ snapshot_cache s' = snapshot_cache s.
Definition calm_step {A} (m : M Snaps Status A) : Prop := ∀ s r s', m s = (r, s') → calm s s'.
Lemma calm_trans s1 s2 s3 : calm s1 s2 → calm s2 s3 → calm s1 s3.
Proof using Type. intros [Hj1 Hc1] [Hj2 Hc2]. split; [by eapply steady_trans|congruence]. Qed.
Lemma calm_bind {A B} (m : M Snaps Status A) (f : A → M Snaps Status B) :
  calm_step m → (∀ a, calm_step (f a)) → calm_step (mbind f m).
Proof using Type.
  intros Hm Hf s r s' [(e & E & ->)|(a & s1 & E & Hr)]%bind_inv; [by eapply Hm|]. eapply calm_trans; [by eapply Hm|by eapply Hf].
Qed.
Lemma calm_lift {A} (r : result Status A) : calm_step (lift r).
Proof using Type. intros s r' s' [= _ <-]. done. Qed.
Lemma calm_gets {A} (f : Snaps → A) : calm_step (gets f).
Proof using Type. intros s r' s' [= _ <-]. done. Qed.
Lemma calm_ret {A} (a : A) : calm_step (mret a).
Proof using Type. intros s r' s' [= _ <-]. done. Qed.
Lemma calm_throw {A} e : calm_step (throw e : M Snaps Status A).
Proof using Type. intros s r' s' [= _ <-]. done. Qed.
Lemma calm_if {A} (b : bool) (m1 m2 : M Snaps Status A) : calm_step m1 → calm_step m2 → calm_step (if b then m1 else m2).
Proof using Type. by destruct b. Qed.
Lemma calm_srv {A} (m : M Server Status A) : same_jobs m → calm_step (in_srv m).
Proof using Type. intros Hm s r s'. unfold in_srv. destruct (m (srv s)) as [r0 y] eqn:E. intros [= _ <-]. split; [by eapply Hm|done]. Qed.
Lemma calm_user n : calm_step (in_srv (get_user n)).
Proof using Type. apply calm_srv, same_jobs_user. Qed.
Lemma calm_operator u p : calm_step (data_operator u p).
Proof using Type.
  apply calm_srv. intros y r y'. unfold m_map_err, in_storage. destruct (get_data_operator u p _) as [? ?]. by intros [= _ <-].
Qed.
#[local] Hint Resolve calm_lift calm_gets calm_ret calm_throw calm_user calm_operator : calm.
#[local] Hint Extern 2 (calm_step (mbind _ _)) => (apply calm_bind; [|intros ?]) : calm.
#[local] Hint Extern 3 (calm_step (if _ then _ else _)) => apply calm_if : calm.
#[local] Hint Extern 4 (calm_step (match ?x with _ => _ end)) => destruct x : calm.
Lemma calm_tree p rest : calm_step (check_local_tree p rest).
Proof using Type. unfold check_local_tree. eauto 10 with calm. Qed.
Lemma calm_writable user id : calm_step (writable_repo user id).
Proof using Type. unfold writable_repo. eauto 10 with calm. Qed.
Lemma calm_readable user id : calm_step (readable_repo user id).
Proof using Type. unfold readable_repo. eauto 10 with calm. Qed.
#[local] Hint Resolve calm_tree calm_writable calm_readable : calm.

Lemma bind_calm {A B} (m : M Snaps Status A) (f : A → M Snaps Status B) s0 s r s' :
  mbind f m s = (r, s') → calm s0 s → calm_step m →
  (∃ e, r = Err e ∧ calm s0 s') ∨ (∃ a s1, m s = (Ok a, s1) ∧ calm s0 s1 ∧ f a s1 = (r, s')).
Proof using Type.
  intros Hr Hs Hm. apply bind_inv in Hr as [(e & E & ->)|(a & s1 & E & Hr)]; apply Hm in E as Hc.
  - left. exists e. split; [done|by eapply calm_trans].
  - right. exists a, s1. split; [done|]. split; [by eapply calm_trans|done].
Qed.

(** A job on a repository: it is the point with that id of the user as it is stored when the
    request comes, and writers need a writable one. *)
Definition job_repo s (user repo_id : string) (writes : bool) (src : RepoSource) (u : VfsUser) (p : VfsPoint) : Prop :=
  stored_user user (srv s) = Ok u ∧ require_repo_point_id u repo_id = Ok p ∧ repo_source p = Ok src ∧
  (p ∈ points u ∧ is_repo p = true ∧ parse_str repo_id = Some (pt_id p)) ∧ (writes = true → Points.read_only p = false).
(** The operator of a point, as the server had it at some moment of the request. *)
Definition operator_of s (u : VfsUser) (p : VfsPoint) (op : O) : Prop :=
  ∃ s1 s2, calm s s1 ∧ data_operator u p s1 = (Ok op, s2).
(** The request has registered its job and forgotten the listing it makes stale. *)
Definition accepted (id : Uuid) (user : string) (stale : option RepoSource) s s' : Prop :=
  jobs (srv s') = <[id := {| job_user := user; cancelled := false |}]> (jobs (srv s)) ∧
  snapshot_cache s' = match stale with Some src => delete src (snapshot_cache s) | None => snapshot_cache s end.

(** Steps that look the user and the points up, and leave the storage alone. *)
Definition looked s s' : Prop := calm s s' ∧ storage (srv s') = storage (srv s).
Lemma looked_trans s1 s2 s3 : looked s1 s2 → looked s2 s3 → looked s1 s3.
Proof using Type. intros [Hc1 Hs1] [Hc2 Hs2]. split; [by eapply calm_trans|congruence]. Qed.
Lemma user_looked n s r s' :
  in_srv (get_user n) s = (r, s') → looked s s' ∧ ∀ u, r = Ok u → stored_user n (srv s) = Ok u ∧ username u = n.
Proof using Type.
  unfold in_srv. destruct (get_user n (srv s)) as [r0 y] eqn:E. intros [= <- <-]. apply get_user_stored in E as (Hs & Hj & Hu & Hr).
  split; [by repeat split|]. intros u ->. specialize (Hr _ eq_refl). split; [done|]. unfold stored_user in Hr.
  destruct (_ !! n); [|done]. by apply user_of_row_name in Hr.
Qed.
Lemma calm_user_row n s s' : calm s s' → stored_user n (srv s') = stored_user n (srv s).
Proof using Type. intros [[_ Hu] _]. by apply stored_user_same. Qed.
Lemma require_writable_inv p : require_writable p = Ok () → Points.read_only p = false.
Proof using Type. unfold require_writable. by destruct (Points.read_only p). Qed.
Lemma readable_repo_inv user id s0 s u p src s' :
  readable_repo user id s = (Ok (u, p, src), s') → calm s0 s → looked s s' ∧ username u = user ∧ job_repo s0 user id false src u p.
Proof using Type.
  unfold readable_repo. intros Hr Hc. ok_step Hr u0 s1 E. apply user_looked in E as [Hl Hu]. destruct (Hu _ eq_refl) as [Hrow Hn].
  ok_step Hr p0 s2 Ep. injection Ep as Ep <-. ok_step Hr src0 s3 Es. injection Es as Es <-. injection Hr as -> -> -> <-.
  split; [done|]. split; [done|]. rewrite (calm_user_row _ _ _ Hc) in Hrow. destruct (require_repo_point_inv _ _ _ Ep) as (? & ? & ?). by unfold job_repo; split_and!.
Qed.
Lemma writable_repo_inv user id s0 s u p src s' :
  writable_repo user id s = (Ok (u, p, src), s') → calm s0 s → looked s s' ∧ username u = user ∧ job_repo s0 user id true src u p.
Proof using Type.
  unfold writable_repo. intros Hr Hc. ok_step Hr u0 s1 E. apply user_looked in E as [Hl Hu]. destruct (Hu _ eq_refl) as [Hrow Hn].
  ok_step Hr p0 s2 Ep. injection Ep as Ep <-. ok_step Hr v s3 Ew. injection Ew as Ew <-. destruct v. apply require_writable_inv in Ew.
  ok_step Hr src0 s4 Es. injection Es as Es <-. injection Hr as -> -> -> <-.
  split; [done|]. split; [done|]. rewrite (calm_user_row _ _ _ Hc) in Hrow. destruct (require_repo_point_inv _ _ _ Ep) as (? & ? & ?). by unfold job_repo; split_and!.
Qed.
Lemma check_local_tree_inv p rest s root s' :
  check_local_tree p rest s = (Ok root, s') →
  local_source_path p = Ok root ∧
  ∃ full, safe_join (H := disk (Store.world (storage (srv s)))) root rest = Ok full ∧ no_symlinks full (Store.world (storage (srv s))) = Ok ().
Proof using Type.
  unfold check_local_tree. intros Hr. ok_step Hr root0 s1 E. injection E as E <-. ok_step Hr w s2 Ew. injection Ew as <- <-.
  ok_step Hr full s3 Ef. injection Ef as Ef <-. ok_step Hr v s4 Ev. injection Ev as Ev <-. destruct v. injection Hr as -> _.
  split; [done|]. by exists full.
Qed.
Lemma bind_spawn {B} id user (f : () → M Snaps Status B) s s1 r s' :
  mbind f (spawn_job id user) s1 = (r, s') → calm s s1 → ∃ s2, accepted id user None s s2 ∧ f () s2 = (r, s').
Proof using Type. intros Hr [[Hj _] Hc]. eexists. split; [|exact Hr]. split; cbn; congruence. Qed.
Lemma expire_accepted id user src s s2 :
  accepted id user None s s2 → accepted id user (Some src) s (expire_listing src s2).
Proof using Type. intros [Hj Hc]. split; cbn; [done|by rewrite Hc]. Qed.

(** The next step of a request: its error ends the proof, its value goes on. *)
Ltac request_step Hr Hc a s1 E :=
  let Hd := fresh in let Hc1 := fresh in let Hr1 := fresh in
  pose proof (bind_calm _ _ _ _ _ _ Hr Hc ltac:(solve [eauto with calm])) as Hd; clear Hr Hc;
  destruct Hd as [(? & -> & Hc1)|(a & s1 & E & Hc1 & Hr1)]; [exact Hc1|]; rename Hc1 into Hc; rename Hr1 into Hr.
(** The same for the operator of a point. *)
Ltac operator_step Hr Hc op s1 Hop :=
  let Hc0 := fresh in let E := fresh in
  pose proof Hc as Hc0; request_step Hr Hc op s1 E; pose proof (ex_intro _ _ (ex_intro _ _ (conj Hc0 E)) : operator_of _ _ _ op) as Hop;
  clear Hc0 E.

(** What a request that starts a check, a forget or a retention run is allowed to do. *)
Definition check_allowed id s (args : CheckArgs) (r : result Status (RepoJob (O := O))) s' : Prop :=
  match r with
  | Err _ => calm s s'
  | Ok rj => accepted id (ca_user args) None s s' ∧
      ∃ u p, job_repo s (ca_user args) (ca_repo args) false (rj_src rj) u p ∧ operator_of s u p (rj_op rj)
  end.
Definition forget_allowed id s (args : ForgetArgs) (r : result Status (ForgetPlan (O := O))) s' : Prop :=
  match r with
  | Err _ => calm s s'
  | Ok plan => let rj := fp_repo plan in
      accepted id (fa_user args) (Some (rj_src rj)) s s' ∧
      (∃ u p, job_repo s (fa_user args) (fa_repo args) true (rj_src rj) u p ∧ operator_of s u p (rj_op rj)) ∧
      Forall2 (λ text id, id_from_str text = Ok id) (fa_snapshots args) (fp_ids plan) ∧
      fp_include_locked plan = fa_include_locked args
  end.
Definition retention_allowed id s (args : RetentionArgs) (r : result Status (RetentionPlan (O := O))) s' : Prop :=
  match r with
  | Err _ => calm s s'
  | Ok plan => let rj := np_repo plan in
      accepted id (rt_user args) (Some (rj_src rj)) s s' ∧
      (∃ u p, job_repo s (rt_user args) (rt_repo args) true (rj_src rj) u p ∧ operator_of s u p (rj_op rj) ∧
         np_max plan = max_bytes p ∧ np_quota plan = quota_id (rt_user args) (pt_id p)) ∧
      rt_policy args = Some (np_policy plan) ∧ validate (np_policy plan) = Ok () ∧ np_dry_run plan = rt_dry_run args
  end.

Lemma check_checked args id s r s' : check args id s = (r, s') → check_allowed id s args r s'.
Proof using Type.
  unfold check. intros Hr. assert (Hc : calm s s) by done. request_step Hr Hc x s1 E. destruct x as [[u p] src].
  apply (readable_repo_inv _ _ s) in E as (_ & Hu & Hp); [|done]. operator_step Hr Hc op s2 Hop.
  apply bind_spawn with (2 := Hc) in Hr as (s3 & Ha & Hr). injection Hr as <- <-. rewrite Hu in Ha. split; [done|]. by exists u, p.
Qed.
Lemma forget_checked args id s r s' : forget args id s = (r, s') → forget_allowed id s args r s'.
Proof using Type.
  unfold forget. intros Hr. assert (Hc : calm s s) by done. request_step Hr Hc x s1 E. destruct x as [[u p] src].
  apply (writable_repo_inv _ _ s) in E as (_ & Hu & Hp); [|done]. operator_step Hr Hc op s2 Hop. request_step Hr Hc ids s3 E3.
  injection E3 as Hids%collect_ok _. apply bind_spawn with (2 := Hc) in Hr as (s4 & Ha & Hr). injection Hr as <- <-. rewrite Hu in Ha.
  split; [by apply expire_accepted|]. split; [by exists u, p|]. split; [|done].
  eapply Forall2_impl; [exact Hids|]. unfold parse_snapshot_id. intros t i. by destruct (id_from_str t); [intros [= ->]|].
Qed.
Lemma retention_checked args id s r s' : apply_retention args id s = (r, s') → retention_allowed id s args r s'.
Proof using Type.
  unfold apply_retention. intros Hr. assert (Hc : calm s s) by done. request_step Hr Hc x s1 E. destruct x as [[u p] src].
  apply (writable_repo_inv _ _ s) in E as (_ & Hu & Hp); [|done]. request_step Hr Hc pol s2 E2. request_step Hr Hc v s3 E3.
  operator_step Hr Hc op s4 Hop.
  injection E2 as E2 _. injection E3 as E3 _. apply bind_spawn with (2 := Hc) in Hr as (s5 & Ha & Hr). injection Hr as <- <-. rewrite Hu in Ha.
  split; [by apply expire_accepted|]. split; [exists u, p; cbn; by rewrite Hu|]. cbn.
  split; [by destruct (rt_policy args); [injection E2 as ->|]|]. split; [|done]. destruct v. by destruct (validate pol) as [[]|].
Qed.

(** What may be done to a repository. A request that starts a check, a forget or a
    retention run and is refused registers no job and leaves the users and the cached
    listings alone. One that is accepted registers exactly its job, for the user it names,
    and works on the repository point with the id it names of that user, as stored, through
    that point's operator; one that changes the repository needs a writable point and
    forgets the cached listing. Forgetting gets exactly the snapshots that were named, and
    retention a policy that was validated and the quota of that point. *)
Theorem repository_jobs_are_checked id s :
  (∀ args r s', check args id s = (r, s') → check_allowed id s args r s') ∧
  (∀ args r s', forget args id s = (r, s') → forget_allowed id s args r s') ∧
  (∀ args r s', apply_retention args id s = (r, s') → retention_allowed id s args r s').
Proof using Type.
  split_and!; intros args r s' Hr; [by apply check_checked in Hr|by apply forget_checked in Hr|by apply retention_checked in Hr].
Qed.

(** A directory of a local point that a job walks, found free of symlinks on a disk. *)
Definition tree_checked (w : W) (p : VfsPoint) (rest root : string) : Prop :=
  local_source_path p = Ok root ∧ ∃ full, safe_join (H := disk w) root rest = Ok full ∧ no_symlinks full w = Ok ().
Notation disk_now s := (Store.world (storage (srv s))).


End Accepted.

(** ** Concrete runs *)

(** The repositories of [DemoSnapshots] again; a backup stores one snapshot, named after
    its path, and rustic cannot apply keep rules. *)
Module DemoBackups.
Import PlainUuid.
Import DiskOp.
Import (hints) DiskOp.
Import DemoSnapshots.
Open Scope string_scope.
#[local] Existing Instance plain_foreign.

#[export] Instance demo_jobs : JobLib op store := {|
  RSpan := N; RLimit := string; added_packed _ := None; keeps_snapshot sn _ := is_never (d_delete sn);
  group_snapshots l := match l with [] => [] | _ => [l] end;
  forget_snapshots _ _ _ := Err "keep rules are not supported"; span_days := Ok; zero_span := 0%N; limit_of_str := Ok;
  limit_of_percentage _ := "0%"; prune_repo _ _ _ := mret (); clock_now w := (0%Z, w);
  Tags := string; Template := string; Backups.Paths := string; parse_tags := Ok; to_snapshot _ label := Ok label; path_list := Ok;
  run_backup_of repo _ _ path := λ w,
    let sn := {| d_tree := path; d_delete := NotSet |} in (Ok sn, save_one repo w sn);
  Ls := (); Plan := (); list_files _ _ := mret (); prepare_restore _ _ _ _ _ _ := mret ();
  restore_plan _ _ _ _ _ := mret (); check_repo _ := mret (); fs_is_dir _ _ := None;
|}.
Definition docs : VfsPoint :=
  {| pt_id := id2; Points.name := "docs"; max_bytes := Some 100%N; Points.read_only := false; scheme := "fs";
     config := {["root" := "/srv/docs"]}; is_repo := false; repo_password := None |}.
Definition keeper : VfsUser := {| username := "ann"; points := [vault; docs] |}.
#[export] Instance two_points : JsonLib := {| to_json _ := Ok "ann"; from_json _ := Ok (points keeper) |}.
Definition job1 : Uuid := exist _ "ffffffff-0000-4000-8000-00000000000a" eq_refl.
Definition in_docs (p : string) : PathArg := {| pa_user := "ann"; pa_path := Some (VirtualPath p) |}.
Definition keep_one : RetentionPolicy :=
  {| keep_last := 1; keep_hourly := 0; keep_daily := 0; keep_weekly := 0; keep_monthly := 0; keep_yearly := 0;
     keep_within_days := 0; reserve_bytes := 0; reserve_percent := 0 |}.
Definition unusable : RetentionPolicy :=
  {| keep_last := 0; keep_hourly := 0; keep_daily := 0; keep_weekly := 0; keep_monthly := 0; keep_yearly := 0;
     keep_within_days := 0; reserve_bytes := 0; reserve_percent := 99 |}.
Definition backup_of (dry : bool) (policy : RetentionPolicy) : BackupArgs :=
  {| ba_src := Some (in_docs "/points/docs/work"); ba_repo_user := "ann"; ba_repo := proj1_sig id1; ba_dry_run := dry;
     ba_tags := ["daily"]; ba_retention := Some policy |}.
Definition known : state := set_cache {[source := []]} s0.
Definition started (dry : bool) (policy : RetentionPolicy) := backup (backup_of dry policy) job1 known.

(** What the request plans, with the policy it keeps. *)
Definition vault_job : RepoJob := {| rj_src := source; rj_op := {| mount := "fs"; native_rename := false |} |}.
Definition quota_of_vault : string := quota_id "ann" id1.
Definition planned (policy : option RetentionPolicy) : BackupPlan :=
  {| bp_repo := vault_job; bp_source := LocalSource "/srv/docs"; bp_path := "work"; bp_tags := ["daily"];
     bp_label := proj1_sig id2; bp_policy := policy; bp_max := None; bp_quota := quota_of_vault |}.
Example plans : ((started false keep_one).1, (started true keep_one).1) = (Ok (planned (Some keep_one)), Ok (planned None)).
Proof. vm_compute. reflexivity. Qed.
(** A policy that [apply_retention] refuses is accepted with a backup. *)
Example policy_not_validated :
  ((started false unusable).1, is_ok (validate unusable)) = (Ok (planned (Some unusable)), false).
Proof. vm_compute. reflexivity. Qed.

Notation in_job := (rustic job1 vault_job quota_of_vault).
Definition begin (s : state) : Retention.St (H := in_job) := Retention.Build_St (H := in_job) (srv s) [] empty_report.
Definition run (policy : option RetentionPolicy) := backup_job job1 vault_job quota_of_vault None (planned policy) (begin known).
Definition stored_in (s : Retention.St (H := in_job)) (path : string) : option node :=
  Store.world (storage (Retention.world (H := in_job) s)) !! place "fs" (path +:+ ".").
Definition failures (s : Retention.St (H := in_job)) : list string :=
  omap (λ e, match e with ESay Warning (RetentionFailed e) => Some e | _ => None end) (trace s).
Definition outcome (policy : option RetentionPolicy) : result string (option string) * option node * list string :=
  let '(r, s) := run policy in (r, stored_in s "work", failures s).
(** The snapshot is stored and returned, although retention cannot open the repository
    after it; and the backup of a dry run stores it too. *)
Example backup_outlives_retention :
  outcome (Some keep_one) = (Ok (Some "work."), Some (File "work"), ["repository does not exist"]).
Proof. vm_compute. reflexivity. Qed.
Example dry_run_backs_up : outcome (bp_policy (planned None)) = (Ok (Some "work."), Some (File "work"), []).
Proof. vm_compute. reflexivity. Qed.
Lemma backups_survive_retention_witness :
  (run (Some keep_one)).1 = Ok (Some "work.") ∧ trace (run None).2 = [].
Proof.
  split.
  - destruct (run (Some keep_one)) as [r s] eqn:E.
    destruct (backups_survive_retention job1 vault_job quota_of_vault None (planned (Some keep_one)) (begin known) r s E) as (s0 & Hs0 & Hr).
    assert (Hs : (take_snapshot job1 vault_job quota_of_vault None (bare (planned (Some keep_one))) s0).1 =
      Ok {| d_tree := "work"; d_delete := NotSet |}) by (destruct Hs0 as [->| ->]; vm_compute; reflexivity).
    destruct (take_snapshot _ _ _ _ _ _) as [saved s1]. cbn in Hs. subst saved. destruct Hr as [Hr _]. exact Hr.
  - destruct (run None) as [r s] eqn:E.
    destruct (backups_survive_retention job1 vault_job quota_of_vault None (planned None) (begin known) r s E) as (s0 & _ & Hr).
    destruct (take_snapshot _ _ _ _ _ _) as [saved s1]. destruct Hr as (_ & _ & Hr). exact (proj2 (proj2 (Hr eq_refl))).
Defined.

Lemma forget_spares_locked_witness :
  held (forget_snapshots_of (SnapLib0 := demo_snaps) "r" ["u!"; "t."] false two).2 "r" {| d_tree := "u"; d_delete := Never |} ∧
  is_ok (forget_snapshots_of (SnapLib0 := demo_snaps) "r" ["u!"; "t."] false two).1 = false.
Proof.
  destruct (forget_snapshots_of (SnapLib0 := demo_snaps) "r" ["u!"; "t."] false two) as [r w] eqn:E.
  destruct (forget_spares_locked (SnapLib0 := demo_snaps) "r" ["u!"; "t."] false two r w E) as (_ & _ & _ & Hf).
  destruct (Hf eq_refl) as [Hk Hn].
  assert (Hu : held two "r" {| d_tree := "u"; d_delete := Never |}) by (split; [reflexivity|left; reflexivity]).
  split; [exact (Hk _ Hu eq_refl)|]. exact (proj1 (Hn _ Hu eq_refl (list_elem_of_here _ _))).
Defined.
(** Without the locked one, the other goes. *)
Example forgets_the_rest :
  let '(r, w) := forget_snapshots_of (SnapLib0 := demo_snaps) "r" ["t."] false two in
  (r, w !! place "r" "t.", w !! place "r" "u!") = (Ok (), None, Some (File "u")).
Proof. vm_compute. reflexivity. Qed.

Definition forgetting : ForgetArgs := {| fa_user := "ann"; fa_repo := proj1_sig id1; fa_snapshots := ["u!"]; fa_include_locked := false |}.
Definition retaining (policy : RetentionPolicy) : RetentionArgs :=
  {| rt_user := "ann"; rt_repo := proj1_sig id1; rt_policy := Some policy; rt_dry_run := false |}.
Lemma repository_jobs_are_checked_witness :
  accepted job1 "ann" (Some source) known (forget forgetting job1 known).2 ∧
  calm known (apply_retention (retaining unusable) job1 known).2.
Proof.
  destruct (repository_jobs_are_checked job1 known) as (_ & Hf & Hr). split.
  - destruct (forget forgetting job1 known) as [r s] eqn:E. specialize (Hf _ _ _ E).
    assert (Hok : (λ p, rj_src (fp_repo p)) <$> (forget forgetting job1 known).1 = Ok source) by (vm_compute; reflexivity).
    rewrite E in Hok. destruct r; [|discriminate Hok]. injection Hok as Hok. destruct Hf as [Hf _]. rewrite Hok in Hf. exact Hf.
  - destruct (apply_retention (retaining unusable) job1 known) as [r s] eqn:E. specialize (Hr _ _ _ E).
    assert (Hok : is_ok (apply_retention (retaining unusable) job1 known).1 = false) by (vm_compute; reflexivity).
    rewrite E in Hok. destruct r; [discriminate Hok|]. exact Hr.
Defined.
Definition restoring (dry : bool) : RestoreArgs :=
  {| ra_repo_user := "ann"; ra_repo := proj1_sig id1; ra_snapshot := "s"; ra_path := "/f";
     ra_dest := Some (in_docs "/points/docs/out"); ra_delete := false; ra_dry_run := dry |}.
End DemoBackups.
