(* ===== verification/Locks.v ===== *)
(** * Locked snapshots among concurrent jobs

    [Snapshots], [Backups] and [Retention] together, on a repository that other jobs,
    requests and processes work on at the same time: no job removes a snapshot that was
    locked when it began, and a snapshot reported as locked is there. What the others do
    between two calls of a job is part of the calls ([SharedLaws]).

    That is a rely condition: the others remove no locked snapshot. Backups, retention runs,
    checks and forgets without [include_locked] are proved to satisfy it here. Two requests
    of the program do not, unlocking and a forget with [include_locked], and nothing in the
    program keeps them from running at the same time; nothing here holds for a snapshot that
    one of them works on meanwhile.

    Ids say what a snapshot is, so what a listing showed unprotected is never a locked
    snapshot later. *)

From S2P Require Import Prelude.
From S2P Require Import RustStr.
From S2P Require Import Errors.
From S2P Require Import Paths.
From S2P Require Import QuotaState.
From S2P Require Import Service.
From S2P Require Import Mounts.
From S2P Require Import Points.
From S2P Require Import Users.
From S2P Require Import Db.
From S2P Require Import Retention.
From S2P Require Import Store.
From S2P Require Import SetVfs.
From S2P Require Import Requests.
From S2P Require Import Snapshots.
From S2P Require Import Backups.
From stdpp Require Import options.
Close Scope string_scope.


(** A repository lies at a place, which its handles and its operator know. [genuine] are
    the snapshots there ever are. *)
Class SharedRepo (O W : Type) `{JobLib O W} := {
  Place : Type;
  repo_place : Store.RepoIndexed → Place;
  op_place : O → Place;
  holds : W → Place → Snap → Prop;
  genuine : Snap → Prop;
}.

(** What is locked in [w] is still there in [w']. *)
Definition guards {O W} `{SharedRepo O W} (pl : Place) (w w' : W) : Prop :=
  ∀ sn, holds w pl sn → is_never (snap_delete sn) = true → holds w' pl sn.
Definition guarded {O W} `{SharedRepo O W} {E A} (m : M W E A) : Prop := ∀ w r w' pl, m w = (r, w') → guards pl w w'.

(** The environment. Of rustic's documentation: a snapshot's id is the hash of its content,
    so two snapshots that ever had the same id are the same; a call removes only what it is
    told to remove; a listing shows genuine snapshots, among them all that are locked;
    groups partition the listed snapshots, protected ones are to be kept, and [forget] only
    flags what it was given. Of the others, whose work during a call is part of the call, it
    is assumed that they remove no locked snapshot (the rely condition above): so each call
    is [guarded], but for what it removes itself, and what a listing shows locked stays. *)
Class SharedLaws (O W : Type) `{SharedRepo O W} := {
  same_id a b : genuine a → genuine b → snap_id a = snap_id b → a = b;
  holds_genuine w pl sn : holds w pl sn → genuine sn;
  stat_guarded op p : guarded (op_stat op p);
  open_guarded op pw : guarded (job_open op pw);
  open_place op pw w repo w' : job_open op pw w = (Ok repo, w') → repo_place repo = op_place op;
  init_guarded op pw : guarded (job_init op pw);
  init_place op pw w repo w' : job_init op pw w = (Ok repo, w') → repo_place repo = op_place op;
  list_guarded repo : guarded (all_snapshots repo);
  list_shows repo w l w' : all_snapshots repo w = (Ok l, w') →
    (∀ sn, sn ∈ l → genuine sn ∧ (is_never (snap_delete sn) = true → holds w' (repo_place repo) sn)) ∧
    ∀ sn, holds w (repo_place repo) sn → is_never (snap_delete sn) = true → sn ∈ l;
  save_guarded repo l : guarded (save_snapshots repo l);
  remove_holds repo ids w r w' pl sn : remove_snapshots repo ids w = (r, w') →
    holds w pl sn → is_never (snap_delete sn) = true → (pl = repo_place repo → snap_id sn ∉ ids) → holds w' pl sn;
  prune_guarded repo max instant : guarded (prune_repo repo max instant);
  backup_guarded repo t src paths : guarded (run_backup_of repo t src paths);
  check_guarded repo : guarded (check_repo repo);
  clock_guarded w pl : guards pl w (clock_now w).2;
  group_partition l : concat (group_snapshots l) ≡ₚ l;
  group_nonempty l g : g ∈ group_snapshots l → g ≠ [];
  keeps_locked sn t : snap_delete sn = Never → keeps_snapshot sn t = true;
  forget_given gs k t gs' : forget_snapshots gs k t = Ok gs' → map (map fst) gs' = gs;
}.

Section Guarded.
Context {O W : Type} `{OA : OperatorApi O W} `{!StoreLib O W} `{!SnapLib O W} `{!JobLib O W} `{!SharedRepo O W} `{!SharedLaws O W}.
Context `{Foreign}.

Lemma guards_refl pl w : guards pl w w.
Proof using Type. by intros sn. Qed.
Lemma guards_trans pl w1 w2 w3 : guards pl w1 w2 → guards pl w2 w3 → guards pl w1 w3.
Proof using Type. intros H12 H23 sn Hs Hl. by apply H23; [apply H12|]. Qed.
Lemma guarded_err {E F A} (f : E → F) (m : M W E A) : guarded m → guarded (m_map_err f m).
Proof using Type. intros Hm w r w' pl (r0 & _ & Hr)%map_err_inv. by eapply Hm. Qed.
(** What was seen unlocked may be removed at any later time. *)
Lemma remove_unlocked repo ids w r w' pl :
  remove_snapshots repo ids w = (r, w') →
  (∀ id, id ∈ ids → ∃ sn, genuine sn ∧ id = snap_id sn ∧ is_never (snap_delete sn) = false) → guards pl w w'.
Proof using SharedLaws0.
  intros Hr Hids sn Hs Hl. eapply remove_holds; [done|done|done|]. intros _ (sn2 & Hg & Hid & Hun)%Hids.
  apply holds_genuine in Hs. by rewrite (same_id _ _ Hs Hg Hid), Hun in Hl.
Qed.

(** A forget that does not include locked snapshots removes none that was locked when it
    began, whoever locks and unlocks meanwhile. *)
Lemma forget_guarded repo ids : guarded (forget_snapshots_of repo ids false).
Proof using SharedLaws0.
  intros w r w' pl Hr. unfold forget_snapshots_of in Hr. cbn [negb] in Hr.
  apply bind_inv in Hr as [(e & E & ->)|([] & w1 & E & Hr)].
  - apply bind_inv in E as [(e' & E & _)|(all & w2 & E & Hr)]; apply map_err_inv in E as (r0 & _ & E); apply (list_guarded _ _ _ _ pl) in E; [done|].
    cbn zeta in Hr. destruct (negb _); [|done]. by injection Hr as _ <-.
  - apply bind_inv in E as [(e' & _ & [=])|(all & w2 & E & E2)]. apply map_err_inv in E as (r0 & Hr0 & E).
    destruct r0 as [all'|]; [|done]. injection Hr0 as <-. apply (list_guarded _ _ _ _ pl) in E as Hg. apply list_shows in E as [_ Hl].
    cbn zeta in E2. case_bool_decide as Hnil; [|done]. injection E2 as <-. rewrite locked_ids_nil in Hnil.
    apply map_err_inv in Hr as (r0 & _ & Hr). intros sn Hs Hlock. eapply remove_holds; [done|by apply Hg|done|].
    intros ->. by apply Hnil; [apply Hl|].
Qed.

(** C11. Locking among others. As long as the others that work on the repository remove no
    locked snapshot meanwhile (so with no unlock of, and no forget including locked
    snapshots on, a locked one at the same time): locking one of its snapshots removes
    nothing that is locked, at any outcome, and on success the answer names a snapshot that
    is stored and locked at the end of the request. *)
Theorem locking_holds_among_others repo wanted w r w' :
  relock repo wanted true w = (r, w') →
  (∀ pl, guards pl w w') ∧
  ∀ new previous l, r = Ok (new, previous, l) →
    l = true ∧ ∃ sn, holds w' (repo_place repo) sn ∧ is_never (snap_delete sn) = true ∧ new = id_to_string (snap_id sn).
Proof using SharedLaws0.
  unfold relock. intros Hr. apply bind_inv in Hr as [(e & E & ->)|(snaps & w1 & E & Hr)];
    apply on_repo_inv in E as (r1 & E & Er1); pose proof (λ pl, list_guarded _ _ _ _ pl E) as Hg1; [done|].
  destruct r1 as [snaps'|]; [|done]. injection Er1 as <-. apply list_shows in E as [Hs1 _].
  apply bind_inv in Hr as [(e & [= _ <-] & ->)|(old & w2 & [= Hold <-] & Hr)]; [done|].
  destruct (list_find_first _ snaps) as [old'|] eqn:Hf; [|done]. injection Hold as ->.
  apply list_find_first_Some in Hf as [Hin Hid%bool_decide_eq_true]. destruct (Hs1 _ Hin) as [Hgen Hstay].
  cbv zeta in Hr. case_bool_decide as Hsame.
  { injection Hr as <- <-. split; [done|]. intros ? ? ? [= <- <- <-]. split; [done|]. exists old. by split_and!; [apply Hstay| |]. }
  assert (Hun : is_never (snap_delete old) = false) by (by apply not_true_is_false).
  apply bind_inv in Hr as [(e & E2 & ->)|([] & w2 & E2 & Hr)]; apply on_repo_inv in E2 as (r2 & E2 & _);
    pose proof (λ pl, guards_trans _ _ _ _ (Hg1 pl) (save_guarded _ _ _ _ _ pl E2)) as Hg2; [done|].
  apply bind_inv in Hr as [(e & E3 & ->)|(after & w3 & E3 & Hr)]; apply on_repo_inv in E3 as (r3 & E3 & Er3);
    pose proof (λ pl, guards_trans _ _ _ _ (Hg2 pl) (list_guarded _ _ _ _ pl E3)) as Hg3; [done|].
  destruct r3 as [after'|]; [|done]. injection Er3 as <-. apply list_shows in E3 as [Hs3 _].
  apply bind_inv in Hr as [(e & [= _ <-] & ->)|(copy & w4 & [= Hcopy <-] & Hr)]; [done|].
  destruct (list_find_first _ after) as [copy'|] eqn:Hf; [|done]. injection Hcopy as ->.
  apply list_find_first_Some in Hf as [Hin2 (_ & _ & Hcl)%is_copy_true]. destruct (Hs3 _ Hin2) as [_ Hstay2].
  apply bind_inv in Hr as [(e & E5 & ->)|([] & w5 & E5 & Hr)]; apply on_repo_inv in E5 as (r5 & E5 & _);
    assert (Hg5 : ∀ pl, guards pl w3 _) by (intros pl; eapply remove_unlocked; [exact E5|];
      intros id ->%list_elem_of_singleton; by exists old);
    [split; [intros pl; eapply guards_trans; [apply Hg3|apply Hg5]|done]|].
  injection Hr as <- <-. split; [intros pl; eapply guards_trans; [apply Hg3|apply Hg5]|]. intros ? ? ? [= <- <- <-]. split; [done|].
  exists copy. by split_and!; [apply Hg5; [apply Hstay2|]| |].
Qed.
End Guarded.

(** ** The jobs *)

Section Locks.
Context {O W : Type} `{OA : OperatorApi O W} `{!StoreLib O W} `{!SnapLib O W} `{!JobLib O W} `{!SharedRepo O W} `{!SharedLaws O W}.
Context `{UuidLib} `{Foreign} (job : Uuid) (j : RepoJob (O := O)) (quota_key : string).
Notation Server := (Server (O := O) (W := W)).
Notation lib := (rustic job j quota_key).
Notation St := (Retention.St (H := lib)).

#[local] Instance rustic_laws : RusticLaws (H := lib).
Proof using SharedLaws0.
  split; [apply group_partition|apply group_nonempty|apply keeps_locked|apply forget_given].
Qed.

(** The repository of the job, on the server a job runs on. *)
Definition in_repo (y : Server) (sn : Snap) : Prop := holds (Store.world (storage y)) (op_place (rj_op j)) sn.
(** The locked snapshots of a server [y0] are still there. *)
Definition intact (y0 y : Server) : Prop :=
  guards (op_place (rj_op j)) (Store.world (storage y0)) (Store.world (storage y)).
(** A listing, whatever has become of the repository since. *)
Definition listed (all : list Snap) (y : Server) : Prop := ∀ sn, sn ∈ all → genuine sn.
Definition ours (repo : Store.RepoIndexed) : Prop := repo_place repo = op_place (rj_op j).

Lemma intact_after y0 y y' :
  guards (op_place (rj_op j)) (Store.world (storage y)) (Store.world (storage y')) → intact y0 y → intact y0 y'.
Proof using Type. intros Hg Hy. by eapply guards_trans. Qed.
Lemma in_storage_world {X A} (m : M W X A) (y : Server) r y' :
  in_storage (Store.on_world m) y = (r, y') → m (Store.world (storage y)) = (r, Store.world (storage y')).
Proof using Type.
  unfold in_storage. destruct (Store.on_world m (storage y)) as [r0 s] eqn:E. intros [= <- <-].
  by apply on_world_inv in E as [_ E].
Qed.
Lemma guarded_keeps {X A} y0 (m : M W X A) :
  guarded m → triple (intact y0) (in_storage (Store.on_world m)) (λ _, intact y0) (intact y0).
Proof using Type.
  intros Hm y Hy. destruct (in_storage _ y) as [r y'] eqn:E. apply in_storage_world in E.
  assert (intact y0 y') by (eapply intact_after; [by eapply Hm|done]). by destruct r.
Qed.
Lemma repo_exists_guards op s r s' pl : repo_exists op s = (r, s') → guards pl (Store.world s) (Store.world s').
Proof using SharedLaws0.
  unfold repo_exists. intros [(e & E & ->)|(a & s1 & E & Hr)]%bind_inv; apply attempt_inv in E as (r0 & Hr0 & E); [done|].
  apply on_world_inv in E as [_ E]. assert (s' = s1) as ->; [|by eapply stat_guarded].
  destruct a; [by injection Hr as _ <-|]. by case_bool_decide; injection Hr as _ <-.
Qed.
Lemma create_for_job_guards src op init s r s' :
  create_for_job src op init s = (r, s') →
  (∀ pl, guards pl (Store.world s) (Store.world s')) ∧ ∀ repo, r = Ok repo → repo_place repo = op_place op.
Proof using SharedLaws0.
  unfold create_for_job. intros [(e & E & ->)|(ex & s1 & E & Hr)]%bind_inv.
  { split; [|done]. intros pl. by eapply repo_exists_guards. }
  assert (Hs1 : ∀ pl, guards pl (Store.world s) (Store.world s1)) by (intros pl; by eapply repo_exists_guards).
  destruct ex; [|destruct init]; [| |by injection Hr as <- <-]; apply on_world_inv in Hr as [_ Hr].
  - split; [intros pl; eapply guards_trans; [apply Hs1|by eapply open_guarded]|]. intros repo ->. by eapply open_place.
  - split; [intros pl; eapply guards_trans; [apply Hs1|by eapply init_guarded]|]. intros repo ->. by eapply init_place.
Qed.
Lemma open_job_keeps y0 init : triple (intact y0) (open_job j init) (λ repo y, ours repo ∧ intact y0 y) (intact y0).
Proof using SharedLaws0.
  apply triple_map_err. intros y Hy. unfold in_storage. destruct (create_for_job _ _ _ (storage y)) as [r s] eqn:E.
  apply create_for_job_guards in E as [Hk Hp]. assert (Hi : ∀ y', storage y' = s → intact y0 y').
  { intros y' Hs. eapply intact_after; [|exact Hy]. rewrite Hs. apply Hk. }
  destruct r as [repo|e]; [split; [by apply Hp|]|]; by apply Hi.
Qed.
Lemma list_keeps y0 repo : triple (intact y0) (on_world (all_snapshots repo)) (λ all y, intact y0 y ∧ listed all y) (intact y0).
Proof using SharedLaws0.
  apply triple_map_err. intros y Hy. destruct (in_storage _ y) as [r y'] eqn:E. apply in_storage_world in E.
  assert (Hi : intact y0 y') by (eapply intact_after; [by eapply list_guarded|done]).
  destruct r as [all|e]; [|done]. split; [done|]. apply list_shows in E as [Hs _]. intros sn Hin. by apply Hs.
Qed.
Lemma delete_keeps_locked y0 repo all ids : spares (H := lib) all ids →
  triple (λ y, intact y0 y ∧ listed all y) (on_world (remove_snapshots repo ids)) (λ _, intact y0) (intact y0).
Proof using SharedLaws0.
  intros Hids. apply triple_map_err. intros y [Hy Hl]. destruct (in_storage _ y) as [r y'] eqn:E. apply in_storage_world in E.
  assert (Hi : intact y0 y'); [|by destruct r]. eapply intact_after; [|exact Hy].
  eapply remove_unlocked; [exact E|]. intros id (sn & Hin & -> & Hun)%Hids. exists sn. split; [by apply Hl|]. split; [done|].
  unfold is_locked in Hun. cbn in Hun. by destruct (snap_delete sn).
Qed.
Lemma quota_keeps (P : Server → Prop) id :
  (∀ y q, P y → P {| storage := storage y; quota := q; jobs := jobs y; write_handles := write_handles y; read_handles := read_handles y |}) →
  triple P (m_map_err show_dal (in_quota (current_bytes id)) : M Server string N) (λ _, P) P.
Proof using Type.
  intros HP. apply triple_map_err. intros y Hy. unfold in_quota. destruct (current_bytes id (quota y)) as [[n|e] q]; by apply HP.
Qed.

Definition kept (y0 : Server) : St → Prop := on_w (H := lib) (intact y0).
Lemma retention_keeps y0 max dry policy phase :
  triple (kept y0) (Retention.run (H := lib) max dry policy phase) (λ _, kept y0) (kept y0).
Proof using SharedLaws0.
  apply (run_keeps (H := lib) (intact y0) listed ours).
  - apply open_job_keeps.
  - intros repo _. apply list_keeps.
  - intros repo all ids _. apply delete_keeps_locked.
  - intros repo mx inst _. apply triple_map_err, guarded_keeps, prune_guarded.
  - apply quota_keeps. done.
  - intros all. apply quota_keeps. done.
  - intros y Hy. exact Hy.
  - intros y Hy. eapply intact_after; [|exact Hy]. intros sn Hs Hlock.
    apply (clock_guarded _ (op_place (rj_op j)) sn) in Hs; [|done]. cbn. unfold zoned_now. cbn. by destruct (clock_now _) as [t w].
Qed.

(** The jobs that work on the repository [j]; a forget job only as clients ask for it when
    they do not name locked snapshots on purpose. *)
Inductive repository_job : M St string (option string) → Prop :=
| Backup max p : repository_job (backup_job job j quota_key max p)
| Forget p : fp_include_locked p = false → repository_job (forget_job job j quota_key p)
| Retain p : repository_job (retention_job job j quota_key p)
| Check : repository_job (check_job job j quota_key).

Lemma call_kept {A} y0 (m : M Server string A) (Q : A → Server → Prop) :
  triple (intact y0) m (λ a y, Q a y ∧ intact y0 y) (intact y0) →
  triple (kept y0) (Retention.call (H := lib) m) (λ a s, Q a (Retention.world (H := lib) s) ∧ kept y0 s) (kept y0).
Proof using Type. apply (call_keeps (H := lib) (intact y0) m (λ a y, Q a y ∧ intact y0 y)). Qed.
Lemma call_kept' {A} y0 (m : M Server string A) :
  triple (intact y0) m (λ _, intact y0) (intact y0) →
  triple (kept y0) (Retention.call (H := lib) m) (λ _, kept y0) (kept y0).
Proof using Type. apply (call_keeps (H := lib) (intact y0) m (λ _, intact y0)). Qed.
Lemma say_kept y0 p m : triple (kept y0) (say (H := lib) p m) (λ _, kept y0) (kept y0).
Proof using Type. apply emit_keeps. Qed.
Lemma lift_kept {A} y0 (r : result string A) : triple (kept y0) (lift r) (λ _, kept y0) (kept y0).
Proof using Type. by apply (triple_lift _ _ (λ _, kept y0)). Qed.
Lemma make_room_kept y0 max policy : triple (kept y0) (make_room job j quota_key max policy) (λ _, kept y0) (kept y0).
Proof using SharedLaws0.
  unfold make_room. destruct policy as [p|]; [|by apply triple_ret]. destruct (has_space_rule p); [|by apply triple_ret].
  step ltac:(apply triple_attempt, retention_keeps). destruct a; [by apply triple_ret|apply say_kept].
Qed.
Lemma retain_kept y0 max policy : triple (kept y0) (retain job j quota_key max policy) (λ _, kept y0) (kept y0).
Proof using SharedLaws0.
  unfold retain. destruct policy as [p|]; [|by apply triple_ret].
  step ltac:(apply triple_attempt, retention_keeps). destruct a; [|apply say_kept].
  cbn zeta. destruct (_ <? _)%N; [apply say_kept|by apply triple_ret].
Qed.
Lemma open_kept y0 init :
  triple (kept y0) (open_repository job j quota_key init) (λ repo s, ours repo ∧ kept y0 s) (kept y0).
Proof using SharedLaws0. apply (call_kept y0 _ (λ repo _, ours repo)), open_job_keeps. Qed.
Lemma guarded_kept {A} y0 (m : M W RusticError A) :
  guarded m → triple (kept y0) (on_repository job j quota_key m) (λ _, kept y0) (kept y0).
Proof using Type. intros Hm. by apply call_kept', triple_map_err, guarded_keeps. Qed.

Lemma backup_kept y0 max p : triple (kept y0) (backup_job job j quota_key max p) (λ _, kept y0) (kept y0).
Proof using SharedLaws0.
  unfold backup_job. eapply (triple_bind _ _ (λ _, kept y0)).
  - unfold take_snapshot. step ltac:(apply lift_kept). step ltac:(apply lift_kept). step ltac:(apply make_room_kept).
    eapply triple_bind; [apply open_kept|]. intros repo. apply triple_pure. intros _. step ltac:(apply lift_kept).
    apply guarded_kept, backup_guarded.
  - intros sn. step ltac:(apply retain_kept). by apply triple_ret.
Qed.
Lemma forget_kept y0 p : fp_include_locked p = false → triple (kept y0) (forget_job job j quota_key p) (λ _, kept y0) (kept y0).
Proof using SharedLaws0.
  intros Hp. unfold forget_job. rewrite Hp. eapply triple_bind; [apply open_kept|]. intros repo. apply triple_pure. intros _.
  step ltac:(apply call_kept', guarded_keeps, forget_guarded). by apply triple_ret.
Qed.
Lemma retention_kept y0 p : triple (kept y0) (retention_job job j quota_key p) (λ _, kept y0) (kept y0).
Proof using SharedLaws0.
  unfold retention_job. eapply (triple_bind _ _ (λ _, kept y0)); [destruct (_ && _); [apply say_kept|by apply triple_ret]|].
  intros ?. step ltac:(apply retention_keeps). step ltac:(apply say_kept). by apply triple_ret.
Qed.
Lemma check_kept y0 : triple (kept y0) (check_job job j quota_key) (λ _, kept y0) (kept y0).
Proof using SharedLaws0.
  unfold check_job. eapply triple_bind; [apply open_kept|]. intros repo. apply triple_pure. intros _.
  step ltac:(apply guarded_kept, check_guarded). by apply triple_ret.
Qed.

(** C10. Locks hold. Whatever a backup, a retention run, a check, or a forget that does not
    include locked snapshots does to its repository, however it ends and whatever others
    do to the repository meanwhile short of removing locked snapshots, every snapshot that
    was locked when it began is still there. *)
Theorem locked_snapshots_survive_jobs m s r s' sn :
  repository_job m → m s = (r, s') →
  in_repo (Retention.world (H := lib) s) sn → is_never (snap_delete sn) = true → in_repo (Retention.world (H := lib) s') sn.
Proof using SharedLaws0.
  set (y0 := Retention.world (H := lib) s). intros Hm Hr.
  assert (Ht : triple (kept y0) m (λ _, kept y0) (kept y0)).
  { destruct Hm; [apply backup_kept|by apply forget_kept|apply retention_kept|apply check_kept]. }
  specialize (Ht s (guards_refl _ _)). rewrite Hr in Ht. destruct r; apply Ht.
Qed.
End Locks.

(** ** A concrete run *)

(** The repository of [DemoBackups] with a quota that is used up, and somebody else at work
    on it: before every call on the world the next of their deeds happens. *)
Module DemoLocks.
Import PlainUuid.
Import DiskOp.
Import (hints) DiskOp.
Import DemoSnapshots.
Import DemoBackups.
Open Scope string_scope.
#[local] Existing Instance plain_foreign.

Inductive deed := Locks (tree : string) | Adds (tree : string) | Drops (tree : string).
Definition file (tree mark : string) : string * string := place "fs" (tree +:+ mark).
Definition happens (d : deed) (w : store) : store :=
  match d with
  | Locks t => match w !! file t "." with Some _ => <[file t "!" := File t]> (delete (file t ".") w) | None => w end
  | Adds t => match w !! file t "." with Some _ => w | None => <[file t "." := File t]> w end
  | Drops t => delete (file t ".") w
  end.
Record shared := { disk_now : store; others : list deed }.
Definition meanwhile (w : shared) : shared :=
  match others w with [] => w | d :: ds => {| disk_now := happens d (disk_now w); others := ds |} end.
Definition here {E A} (m : M store E A) : M shared E A := λ w,
  let w := meanwhile w in let '(r, d) := m (disk_now w) in (r, {| disk_now := d; others := others w |}).
Definition here2 {R X} (f : store → R * (X * store)) (w : shared) : R * (X * shared) :=
  let w := meanwhile w in let '(r, (x, d)) := f (disk_now w) in (r, (x, {| disk_now := d; others := others w |})).

#[export] Instance shared_ops : OperatorApi op shared := {|
  Meta := meta; meta_length := md_len; dir_meta := {| md_dir := true; md_len := 0 |};
  OpWriter := (string * string) * string; OpReader := string;
  with_quota _ o := o; with_read_only o := o; can_copy _ := true; can_rename := native_rename;
  op_stat o p := here (op_stat (W := store) o p); op_read o p := here (op_read (W := store) o p);
  op_write o p d := here (op_write (W := store) o p d); op_delete o p := here (op_delete (W := store) o p);
  op_create_dir o p := here (op_create_dir (W := store) o p); op_copy o p q := here (op_copy (W := store) o p q);
  op_rename o p q := here (op_rename (W := store) o p q); op_lister o p := here (op_lister (W := store) o p);
  op_writer o p := here (op_writer (W := store) o p); writer_push bs i := here2 (writer_push (W := store) bs i);
  writer_finish i := here2 (writer_finish (W := store) i); writer_cancel i := here2 (writer_cancel (W := store) i);
  op_reader o p := here (op_reader (W := store) o p); reader_read r from to := here (reader_read (W := store) r from to);
|}.
#[export] Instance shared_store : StoreLib op shared := {|
  Store.RepoIndexed := string; via_iter := via_iter (W := store); blocking := Ok; with_logging o := o; vfs_operator _ := DiskOp.docs;
  repo_operator src := here (repo_operator (W := store) src); op_list o p := here (op_list (W := store) o p);
  open_indexed src := here (open_indexed (W := store) src); init_repo src := here (init_repo (W := store) src);
  job_open o pw := here (job_open (W := store) o pw); job_init o pw := here (job_init (W := store) o pw);
  create_dir_all p := here (create_dir_all (W := store) p); show_status := message;
|}.
Definition all_now (repo : string) : M shared RusticError (list snap) := here (all_snapshots (SnapLib := demo_snaps) repo).
Definition save_now (repo : string) (l : list snap) : M shared RusticError () := here (save_snapshots (SnapLib := demo_snaps) repo l).
Definition remove_now (repo : string) (ids : list string) : M shared RusticError () := here (remove_snapshots (SnapLib := demo_snaps) repo ids).
Definition find_now (repo spec : string) : M shared RusticError (string * N) := here (node_from_snapshot_path (SnapLib := demo_snaps) repo spec).
Definition read_now (repo f : string) (off len : N) : M shared RusticError string := here (read_file_at (SnapLib := demo_snaps) repo f off len).
Definition backup_now (repo path : string) : M shared RusticError snap :=
  here (run_backup_of (JobLib := demo_jobs) repo "" (OperatorSource DiskOp.docs) path).
#[export] Instance shared_snaps : SnapLib op shared := {|
  SnapId := string; Snap := snap; snap_id := d_id; snap_time _ := 0%Z; snap_tree := d_tree; snap_hostname _ := "host";
  snap_label _ := ""; snap_paths _ := []; snap_tags _ := []; snap_version _ := "1"; snap_delete := d_delete;
  with_delete d s := {| d_tree := d_tree s; d_delete := d |};
  id_from_str s := Ok s; id_to_string s := s;
  all_snapshots := all_now;
  save_snapshots := save_now;
  remove_snapshots := remove_now;
  Node := string * N; TreeId := string; OpenFile := string; NodeTime := N;
  nd_type _ := NtFile; nd_name := fst; nd_raw_name := fst; nd_size := snd; nd_ctime _ := None; nd_mtime _ := None;
  nd_atime _ := None; nd_subtree _ := None;
  node_from_snapshot_path := find_now;
  get_tree _ _ := mret []; open_file _ n := mret n.1;
  read_file_at := read_now;
|}.
#[export] Instance shared_jobs : JobLib op shared := {|
  RSpan := N; RLimit := string; added_packed _ := None; keeps_snapshot sn _ := is_never (d_delete sn);
  group_snapshots l := match l with [] => [] | _ => [l] end;
  forget_snapshots _ _ _ := Err "keep rules are not supported"; span_days := Ok; zero_span := 0%N; limit_of_str := Ok;
  limit_of_percentage _ := "0%"; prune_repo _ _ _ := mret (); clock_now w := (0%Z, meanwhile w);
  Tags := string; Template := string; Backups.Paths := string; parse_tags := Ok; to_snapshot _ label := Ok label; path_list := Ok;
  run_backup_of repo _ _ path := backup_now repo path;
  Ls := (); Plan := (); list_files _ _ := mret (); prepare_restore _ _ _ _ _ _ := mret ();
  restore_plan _ _ _ _ _ := mret (); check_repo _ := mret (); fs_is_dir _ _ := None;
|}.
#[export] Instance shared_repo : SharedRepo op shared := {|
  Place := string; repo_place r := r; op_place := mount; holds w := held (disk_now w);
  genuine sn := d_delete sn = Never ∨ d_delete sn = NotSet;
|}.

Lemma mark_inj x y a b : x +:+ String a "" = y +:+ String b "" → x = y ∧ a = b.
Proof.
  revert y; induction x as [|c x IH]; intros [|c' y]; cbn; intros Heq; [by injection Heq as ->| | |].
  - injection Heq as _ Heq. by destruct y.
  - injection Heq as _ Heq. by destruct x.
  - injection Heq as -> Heq. by apply IH in Heq as [-> ->].
Qed.
Definition keeps_locked_files (f : store → store) : Prop :=
  ∀ w pl sn, held w pl sn → d_delete sn = Never → held (f w) pl sn.
Lemma never_iff sn : is_never (d_delete sn) = true ↔ d_delete sn = Never.
Proof. by destruct (d_delete sn). Qed.
(** An unlocked file is not that of a locked snapshot. *)
Lemma locked_file pl sn t : d_delete sn = Never → place pl (d_id sn) ≠ file t ".".
Proof. unfold d_id. intros -> Heq%(f_equal snd). cbn in Heq. by apply mark_inj in Heq as [_ ?]. Qed.
Lemma happens_keeps d : keeps_locked_files (happens d).
Proof.
  intros w pl sn [Hs Hd] Hn. split; [|done]. unfold store in *. pose proof (λ t, locked_file pl sn t Hn) as Hne.
  destruct d as [t|t|t]; cbn [happens]; unfold store in *.
  - destruct (w !! file t ".") eqn:E; [|done]. destruct (decide (file t "!" = place pl (d_id sn))) as [Heq|Hne2].
    + rewrite Heq, lookup_insert_eq. apply (f_equal snd) in Heq. unfold d_id in Heq. rewrite Hn in Heq. cbn in Heq. by apply mark_inj in Heq as [-> _].
    + rewrite lookup_insert_ne by done. by rewrite lookup_delete_ne by (apply not_eq_sym, Hne).
  - destruct (w !! file t ".") eqn:E; [done|]. by rewrite lookup_insert_ne by (apply not_eq_sym, Hne).
  - by rewrite lookup_delete_ne by (apply not_eq_sym, Hne).
Qed.
Lemma meanwhile_keeps w pl sn : held (disk_now w) pl sn → d_delete sn = Never → held (disk_now (meanwhile w)) pl sn.
Proof. unfold meanwhile. destruct (others w); [done|]. apply happens_keeps. Qed.
Lemma here_guarded {E A} (m : M store E A) : keeps_locked_files (λ w, (m w).2) → guarded (here m).
Proof.
  intros Hm w r w' pl Hr sn Hs Hn%never_iff. unfold here in Hr. specialize (Hm (disk_now (meanwhile w)) pl sn).
  destruct (m (disk_now (meanwhile w))) as [r0 d] eqn:Em. injection Hr as _ <-. cbn in *.
  replace d with (m (disk_now (meanwhile w))).2 by (by rewrite Em). apply Hm; [|done]. by apply meanwhile_keeps.
Qed.
Lemma save_one_keeps repo sn : keeps_locked_files (λ w, save_one repo w sn).
Proof. intros w pl s Hs _. destruct Hs as [Hs Hd]. split; [|done]. unfold save_one. unfold store in *.
  destruct (d_delete sn); try done; destruct (w !! place repo _) eqn:E; try done; rewrite lookup_insert_ne; congruence.
Qed.
Lemma save_keeps repo l : keeps_locked_files (λ w, foldl (save_one repo) w l).
Proof. induction l as [|sn l IH]; intros w pl s Hs Hn; cbn; [done|]. apply IH; [by apply save_one_keeps|done]. Qed.

#[export] Program Instance shared_laws : SharedLaws op shared.
Next Obligation.
  intros [ta da] [tb db] Ha Hb Heq. cbn in *. unfold d_id in Heq. cbn in Heq.
  destruct Ha as [->| ->], Hb as [->| ->]; apply mark_inj in Heq as [-> Hm]; done.
Qed.
Next Obligation. intros w pl sn [_ Hd]. done. Qed.
Next Obligation. intros o p. apply here_guarded. by intros w pl sn. Qed.
Next Obligation. intros o pw. apply here_guarded. by intros w pl sn. Qed.
Next Obligation. intros o pw w repo w' Hr. cbn in *. unfold here in Hr. cbn in Hr. by injection Hr as <- _. Qed.
Next Obligation. intros o pw. apply here_guarded. by intros w pl sn. Qed.
Next Obligation. intros o pw w repo w' Hr. cbn in *. unfold here in Hr. cbn in Hr. by injection Hr as <- _. Qed.
Next Obligation. intros repo. apply here_guarded. by intros w pl sn. Qed.
Next Obligation.
  intros repo w l w' Hr. cbn in *. unfold all_now, here in Hr. cbn in Hr. injection Hr as <- <-. cbn. split.
  - intros sn (e & He & Hs)%list_elem_of_omap. destruct e as [k n]. apply elem_of_map_to_list in He.
    apply (read_entry_held (disk_now (meanwhile w))) in Hs as [Hs _]; [|done]. split; [apply Hs|done].
  - intros sn Hs Hn%never_iff. apply (meanwhile_keeps _ _ _ Hs) in Hn as Hm. apply list_elem_of_omap.
    exists (place repo (d_id sn), File (d_tree sn)). destruct Hm as [Hm Hd].
    split; [by apply elem_of_map_to_list|]. by apply (read_entry_held (disk_now (meanwhile w))).
Qed.
Next Obligation. intros repo l. apply here_guarded, save_keeps. Qed.
Next Obligation.
  intros repo ids w r w' pl sn Hr Hs Hn%never_iff Hids. cbn in *. unfold remove_now, here in Hr. cbn in Hr. injection Hr as _ <-. cbn.
  apply (meanwhile_keeps _ _ _ Hs) in Hn. clear Hs. revert Hn. generalize (disk_now (meanwhile w)). intros d Hd.
  induction ids as [|id ids IH] using rev_ind; [done|]. rewrite foldl_app. cbn.
  assert (Hp : pl = repo → d_id sn ∉ ids) by (intros ->; specialize (Hids eq_refl); set_solver).
  specialize (IH Hp) as [IH Hdel]. split; [|done]. unfold store in *. rewrite lookup_delete_ne; [done|].
  intros [= -> Heq]. specialize (Hids eq_refl). set_solver.
Qed.
Next Obligation. intros repo max inst w r w' pl Hr. cbn in *. injection Hr as _ <-. apply guards_refl. Qed.
Next Obligation. intros repo t src paths. apply here_guarded. intros w pl sn Hs Hn. exact (save_one_keeps repo {| d_tree := paths; d_delete := NotSet |} w pl sn Hs Hn). Qed.
Next Obligation. intros repo w r w' pl Hr. cbn in *. injection Hr as _ <-. apply guards_refl. Qed.
Next Obligation. intros w pl sn Hs Hn%never_iff. cbn in *. by apply meanwhile_keeps. Qed.
Next Obligation. intros [|x l]; cbn; [done|]. by rewrite app_nil_r. Qed.
Next Obligation. intros [|x l] g; cbn; [by intros ?%elem_of_nil|]. by intros ->%list_elem_of_singleton. Qed.
Next Obligation. intros sn t Hsn. cbn in *. by rewrite Hsn. Qed.
Next Obligation. intros gs k t gs' Hr. cbn in *. done. Qed.

Definition full : store :=
  {[("fs", "config") := File ""; place "fs" "t." := File "t"; place "fs" "u!" := File "u"; place "fs" "v." := File "v"]}.
(** Others may add, remove and lock snapshots while the job runs. *)
Definition server_with (ds : list deed) : Server (O := op) (W := shared) :=
  {| storage := {| Store.world := {| disk_now := full; others := ds |}; repos := ∅; repo_vfs_ops := ∅; data_ops := ∅; vfs_ops := ∅;
                   degraded_ops := ∅; health := ∅; vfs_generation := ∅; refreshing := ∅; events := [] |};
     quota := qs_new {| users_t := ∅; quota_t := {[quota_of_vault := 100%Z]}; faults := [] |};
     jobs := ∅; write_handles := ∅; read_handles := ∅ |}.
Notation shared_lib := (rustic (W := shared) job1 vault_job quota_of_vault).
Definition begun (ds : list deed) : Retention.St (H := shared_lib) :=
  Retention.Build_St (H := shared_lib) (server_with ds) [] empty_report.
Definition left_in (s : Retention.St (H := shared_lib)) : list (option node) :=
  map (λ id, disk_now (Store.world (storage (Retention.world (H := shared_lib) s))) !! place "fs" id) ["t."; "t!"; "u!"; "v."; "w."].

Definition half_free : RetentionPolicy :=
  {| keep_last := 0; keep_hourly := 0; keep_daily := 0; keep_weekly := 0; keep_monthly := 0; keep_yearly := 0;
     keep_within_days := 0; reserve_bytes := 0; reserve_percent := 50 |}.
Definition making_room : RetentionPlan :=
  {| np_repo := vault_job; np_policy := half_free; np_dry_run := false; np_max := Some 100%N; np_quota := quota_of_vault |}.
Definition room (ds : list deed) := retention_job job1 vault_job quota_of_vault making_room (begun ds).
(** Alone, retention removes the first snapshot that is not locked. When somebody locks it between
    the listing and the deletion, it stays, and the next round takes others. *)
Example makes_room : left_in (room []).2 = [None; None; Some (File "u"); Some (File "v"); None].
Proof. vm_compute. reflexivity. Qed.
Example locked_meanwhile :
  left_in (room [Adds "w"; Adds "w"; Adds "w"; Adds "w"; Locks "t"]).2 =
  [None; Some (File "t"); Some (File "u"); None; None].
Proof. vm_compute. reflexivity. Qed.
Lemma locked_snapshots_survive_jobs_witness :
  let pinned : snap := {| d_tree := "u"; d_delete := Never |} in
  in_repo vault_job (Retention.world (H := shared_lib) (begun [Adds "w"; Locks "t"])) pinned ∧
  in_repo vault_job (Retention.world (H := shared_lib) (room [Adds "w"; Locks "t"]).2) pinned.
Proof.
  intros pinned. assert (Hu : in_repo vault_job (Retention.world (H := shared_lib) (begun [Adds "w"; Locks "t"])) pinned)
    by (split; [reflexivity|left; reflexivity]).
  split; [exact Hu|].
  generalize (λ r s', locked_snapshots_survive_jobs job1 vault_job quota_of_vault _ (begun [Adds "w"; Locks "t"])
    r s' pinned (Retain job1 vault_job quota_of_vault making_room)).
  unfold room. destruct (retention_job _ _ _ making_room (begun _)) as [r s]. intros Hkept.
  apply (Hkept r s eq_refl Hu eq_refl).
Defined.

Definition locking (ds : list deed) := relock (SnapLib0 := shared_snaps) "fs" "t." true {| disk_now := full; others := ds |}.
Example locks_among_others :
  ((locking [Adds "w"; Drops "v"; Drops "w"]).1, (locking [Drops "t"]).1, (locking [Adds "w"; Locks "t"]).1) =
  (Ok ("t!", "t.", true), Err (St.not_found "snapshot not found"), Ok ("t!", "t.", true)).
Proof. vm_compute. reflexivity. Qed.
Lemma locking_holds_among_others_witness :
  ∃ sn, held (disk_now (locking [Adds "w"; Drops "v"; Drops "w"]).2) "fs" sn ∧ d_delete sn = Never ∧ d_id sn = "t!".
Proof.
  destruct (locking [Adds "w"; Drops "v"; Drops "w"]) as [r w] eqn:E.
  assert (Hr : (locking [Adds "w"; Drops "v"; Drops "w"]).1 = Ok ("t!", "t.", true)) by (vm_compute; reflexivity).
  rewrite E in Hr. cbn in Hr. subst r.
  destruct (locking_holds_among_others (SnapLib0 := shared_snaps) "fs" "t." _ _ w E) as [_ Hok].
  destruct (Hok _ _ _ eq_refl) as (_ & sn & Hs & Hl & Hid). exists sn. split; [exact Hs|]. split; [|symmetry; exact Hid].
  apply never_iff. exact Hl.
Defined.
End DemoLocks.
