(* ===== verification/Startup.v ===== *)
(** * Starting the server ([main.rs])

    [run] opens the database, builds the storage manager and the server, and serves until
    it is told to stop; the listener is tonic's. What survives from one process to the next
    is the database file and whatever lies behind the storage: everything else starts
    empty. *)

From S2P Require Import Prelude.
From S2P Require Import RustStr.
From S2P Require Import Errors.
From S2P Require Import Paths.
From S2P Require Import QuotaCounter.
From S2P Require Import QuotaState.
From S2P Require Import Service.
From S2P Require Import Mounts.
From S2P Require Import Points.
From S2P Require Import Users.
From S2P Require Import Db.
From S2P Require Import Store.
From S2P Require Import SetVfs.
From S2P Require Import Requests.
From S2P Require Import Snapshots.
From stdpp Require Import options.
Close Scope string_scope.

Section Startup.
Context {O W : Type} `{OA : OperatorApi O W} `{!StoreLib O W} `{!SnapLib O W} `{JL : JsonLib} `{Foreign}.
Notation Snaps := (Snaps (O := O) (W := W)).

(** [StorageManager::new]; the event channel has been read up to here. *)
Definition new_manager (w : W) : Store.Store (O := O) (W := W) :=
  {| Store.world := w; repos := ∅; repo_vfs_ops := ∅; data_ops := ∅; vfs_ops := ∅; degraded_ops := ∅; health := ∅;
     vfs_generation := ∅; refreshing := ∅; events := [] |}.
(** [GrpcServer::new] *)
Definition new_server (storage : Store.Store (O := O) (W := W)) (quota : QuotaState DbManager) : Snaps :=
  {| srv := {| storage := storage; quota := quota; jobs := ∅; write_handles := ∅; read_handles := ∅ |};
     snapshot_cache := ∅ |}.
(** [run], up to the listener. *)
Definition start (path : option string) (w : W) : M DbFile VfsError Snaps :=
  db ← open_db path;
  mret (new_server (new_manager w) (qs_new db)).

(** What a process leaves to the next one. *)
Definition file_of (db : DbManager) : DbFile :=
  {| f_users := Some (users_t db); f_passwords := None; f_quota := Some (quota_t db); f_faults := faults db |}.

Lemma start_inv path w f s f' :
  start path w f = (Ok s, f') →
  ∃ db, s = new_server (new_manager w) (qs_new db) ∧ users_t db = opt_or ∅ (f_users f) ∧ quota_t db = opt_or ∅ (f_quota f).
Proof using Type.
  unfold start. intros Hr. ok_step Hr db f1 E. injection Hr as <- _. exists db. split; [done|].
  apply open_db_inv in E as [_ Hdb]. destruct (Hdb db eq_refl) as (Hu & Hq & _). done.
Qed.

(** C31. A restart loses nothing but caches. Whatever the quota engine did since the server
    started from a file, once every total has been synchronised a server started from what
    the process left has the same users and the same total for every id, and neither jobs,
    handles, health reports nor cached operators or listings. *)
Theorem restarts_keep_users_and_totals path w f s f' calls w' s2 f2 :
  start path w f = (Ok s, f') →
  let q := (perform_all calls (quota (srv s))).2 in
  all_clean q →
  start path w' (file_of (tracker q)) = (Ok s2, f2) →
  users_t (tracker (quota (srv s2))) = users_t (tracker q) ∧
  (∀ id, live (quota (srv s2)) id = live q id) ∧
  jobs (srv s2) = ∅ ∧ write_handles (srv s2) = ∅ ∧ read_handles (srv s2) = ∅ ∧ snapshot_cache s2 = ∅ ∧
  storage (srv s2) = new_manager w'.
Proof using Type.
  intros (db & -> & _)%start_inv q Hq (db2 & -> & Hu & Ht)%start_inv. cbn in Hu, Ht. split_and!; try done.
  intros id. cbn [quota srv new_server]. rewrite <-(restart_live q id); [|subst q|by intros c; apply Hq].
  - unfold live, restart, qs_new. cbn. rewrite !lookup_empty. by rewrite Ht.
  - destruct (perform_all calls (qs_new db)) as [tr st] eqn:E. cbn in *. rewrite E. apply perform_all_spec in E as [Hs _]; [done|apply synced_new].
Qed.
End Startup.

(** ** A concrete run *)

(** A database from before the removal of FTP, with one user and one quota. *)
Module DemoStartup.
Import PlainUuid.
Import DiskOp.
Import (hints) DiskOp.
Import DemoSnapshots.
Open Scope string_scope.
#[local] Existing Instance plain_foreign.

Definition old_file : DbFile :=
  {| f_users := Some {["ann" := "ann"]}; f_passwords := Some {["ann" := "secret"]}; f_quota := None; f_faults := [] |}.
Definition first := start (W := store) (Some "vfs.sqlite") two old_file.
Example upgraded : (f_users first.2, f_passwords first.2, f_quota first.2) = (Some {["ann" := "ann"]}, None, Some ∅).
Proof. vm_compute. reflexivity. Qed.
Example stopped_half_way :
  let '(r, f) := start (W := store) (Some "vfs.sqlite") two
    {| f_users := f_users old_file; f_passwords := f_passwords old_file; f_quota := None; f_faults := [None; None; None; None; Some "locked"] |} in
  (is_ok r, f_users f, bool_decide (is_Some (f_passwords f))) = (false, Some {["ann" := "ann"]}, true).
Proof. vm_compute. reflexivity. Qed.

Definition served : list call := [Commit "ann-1" 100 0 70; Release "ann-1" 30; SyncPass].
Definition left_behind : QuotaState DbManager :=
  (perform_all served (qs_new {| users_t := {["ann" := "ann"]}; quota_t := ∅; faults := [] |})).2.
Definition is_dirty (o : option QuotaCounter) : bool := match o with Some c => QuotaCounter.dirty c | None => false end.
Lemma restarts_keep_users_and_totals_witness :
  ∃ s2 f2, start (Some "vfs.sqlite") two (file_of (tracker left_behind)) = (Ok s2, f2) ∧
    live (quota (srv s2)) "ann-1" = 40%N.
Proof.
  assert (Hok2 : is_ok (start (W := store) (Some "vfs.sqlite") two (file_of (tracker left_behind))).1 = true) by (vm_compute; reflexivity).
  assert (Hok1 : is_ok first.1 = true) by (vm_compute; reflexivity).
  assert (Hq1 : (λ s, (perform_all served (quota (srv s))).2) <$> first.1 = Ok left_behind) by (vm_compute; reflexivity).
  destruct (start (W := store) (Some "vfs.sqlite") two (file_of (tracker left_behind))) as [r2 f2] eqn:E2.
  destruct r2 as [s2|e]; [|discriminate Hok2]. exists s2, f2. split; [reflexivity|].
  destruct first as [r1 f'] eqn:E1. destruct r1 as [s|e]; [|discriminate Hok1].
  assert (Hq : (perform_all served (quota (srv s))).2 = left_behind) by exact (f_equal (unwrap_or left_behind) Hq1).
  assert (Hc : all_clean left_behind).
  { assert (Hall : map_Forall (λ _ o, is_dirty o = false) (buckets left_behind)).
    { apply (bool_decide_unpack _). vm_compute. exact I. }
    intros id c Hid. exact (Hall id _ Hid). }
  rewrite <-Hq in Hc, E2.
  destruct (restarts_keep_users_and_totals (Some "vfs.sqlite") two old_file s f' served two s2 f2 E1 Hc E2) as (_ & Hl & _).
  rewrite (Hl "ann-1"), Hq. vm_compute. reflexivity.
Defined.
End DemoStartup.
