(* ===== verification/Lifetime.v ===== *)
(** * The configuration over the life of the server

    [SetVfs], [QuotaState], [Db] and [Startup] together: the server is started from a
    database file, serves requests that replace the users, charge quotas and do anything
    else, and stops or crashes at any point, to be started again from what it left. The
    users it stores are checked once, when they arrive; here it is proved that every user
    it ever reads back is as the check left them, so the requests that take names, ids and
    paths of stored users need no check of their own. *)

From S2P Require Import Prelude.
From S2P Require Import RustStr.
From S2P Require Import Errors.
From S2P Require Import Paths.
From S2P Require Import QuotaCounter.
From S2P Require Import QuotaState.
From S2P Require Import Service.
From S2P Require Import Mounts.
From S2P Require Import Points.
From S2P Require Import Users.
From S2P Require Import Db.
From S2P Require Import Store.
From S2P Require Import SetVfs.
From S2P Require Import Requests.
From S2P Require Import Snapshots.
From S2P Require Import Startup.
From stdpp Require Import options.
Close Scope string_scope.

(** ** What the quota engine does to its tracker *)

Section Tracked.
Context {T : Type} `{QuotaTracker T} (P : T → Prop).
Notation QS := (QuotaState T).
Definition tracks (st : QS) : Prop := P (tracker st).
Hypothesis set_keeps : ∀ id b t, P t → P (set_bytes id b t).2.
Hypothesis get_keeps : ∀ id t, P t → P (get_bytes id t).2.
Notation kept m := (triple tracks m (λ _, tracks) tracks).

Lemma set_bucket_tracks id c : kept (set_bucket id c : M QS DalError ()).
Proof using Type. by intros st Hst. Qed.
Lemma gets_tracks {A} (f : QS → A) : kept (gets f : M QS DalError A).
Proof using Type. by intros st Hst. Qed.
Lemma entry_tracks id : kept (entry id).
Proof using Type.
  unfold entry. step ltac:(apply gets_tracks). destruct a; [by apply triple_ret|].
  step ltac:(apply set_bucket_tracks). by apply triple_ret.
Qed.
Lemma load_tracks id : kept (on_tracker (get_bytes id) : M QS DalError N).
Proof using get_keeps.
  intros st Hst. unfold on_tracker. specialize (get_keeps id (tracker st) Hst).
  by destruct (get_bytes id (tracker st)) as [[b|e] t].
Qed.
Lemma bucket_tracks id : kept (bucket id : M QS DalError QuotaCounter).
Proof using get_keeps.
  unfold bucket. step ltac:(apply entry_tracks). destruct a; [by apply triple_ret|].
  step ltac:(apply triple_attempt, load_tracks).
  eapply (triple_bind _ _ (λ _, tracks)); [repeat case_match; by intros st Hst|]. intros b.
  step ltac:(apply set_bucket_tracks). by apply triple_ret.
Qed.
Lemma sync_one_tracks id st : tracks st → tracks (sync_one id st).
Proof using set_keeps.
  unfold sync_one, tracks. intros Hst. destruct (buckets st !! id) as [[c|]|]; [|done..].
  destruct (QuotaCounter.dirty c); [|done]. cbv zeta.
  pose proof (set_keeps id (QuotaCounter.get (QuotaCounter.mk (QuotaCounter.bytes c) false)) _ Hst) as Hs.
  by destruct (set_bytes _ _ _).
Qed.
Lemma sync_all_tracks st : tracks st → tracks (sync_all st).
Proof using set_keeps.
  unfold sync_all. generalize (map fst (map_to_list (buckets st))). intros ids. revert st.
  induction ids as [|id ids IH]; intros st Hst; cbn; [done|]. by apply IH, sync_one_tracks.
Qed.
Lemma perform_tracks c : kept (perform c : M QS DalError N).
Proof using set_keeps get_keeps.
  destruct c as [id limit old new|id size|id|id|]; cbn [perform].
  - unfold commit_write. step ltac:(apply bucket_tracks). destruct (QuotaCounter.apply_delta _ _ _ _ _) as [r c].
    step ltac:(apply set_bucket_tracks). by apply (triple_lift _ _ (λ _, tracks)).
  - eapply (triple_bind _ _ (λ _, tracks)); [|intros _; by apply triple_ret]. unfold commit_delete.
    step ltac:(apply bucket_tracks). destruct (QuotaCounter.apply_delta _ _ _ _ _) as [r c]. apply set_bucket_tracks.
  - eapply (triple_bind _ _ (λ _, tracks)); [|intros _; by apply triple_ret]. unfold QuotaState.reset.
    step ltac:(apply entry_tracks). destruct a; apply set_bucket_tracks.
  - unfold current_bytes. step ltac:(apply bucket_tracks). by apply triple_ret.
  - intros st Hst. by apply sync_all_tracks.
Qed.
End Tracked.

Lemma db_set_users id b db : users_t (set_bytes id b db).2 = users_t db.
Proof. cbn. unfold db_set_bytes, I64, ok_or, mbind, M_bind, lift, m_map_err, statement. by repeat case_match; simplify_eq/=. Qed.
Lemma db_get_users id db : users_t (get_bytes id db).2 = users_t db.
Proof. cbn. unfold db_get_bytes, mbind, M_bind, m_map_err, statement. by repeat (case_match; simplify_eq/=). Qed.
(** The quota engine never touches the users table. *)
Lemma charges_keep_users c (q : QuotaState DbManager) r q' :
  perform c q = (r, q') → users_t (tracker q') = users_t (tracker q).
Proof.
  intros Hr. pose proof (perform_tracks (λ db, users_t db = users_t (tracker q))) as Ht. unfold triple, tracks in Ht.
  specialize (Ht ltac:(intros id b db Hdb; rewrite <-Hdb; apply db_set_users) ltac:(intros id db Hdb; rewrite <-Hdb; apply db_get_users) c q eq_refl).
  rewrite Hr in Ht. by destruct r.
Qed.

(** ** The server over its life *)

Section Lifetime.
Context {O W : Type} `{OA : OperatorApi O W} `{!StoreLib O W} `{!SnapLib O W} `{!KeyLib W} `{JL : JsonLib} `{Foreign}.
Context `{UL : !UuidLaws} `{JLaws : !JsonLaws}.
Notation Snaps := (Snaps (O := O) (W := W)).
Implicit Types (s : Snaps) (f : DbFile) (t : gmap string string) (u : VfsUser) (us : list VfsUser).

(** The database is a file, or that of the process that serves. *)
Inductive Process := Stopped (f : DbFile) | Serving (s : Snaps).
Definition database s : DbManager := tracker (quota (srv s)).
Definition users_of (p : Process) : gmap string string :=
  match p with Stopped f => opt_or ∅ (f_users f) | Serving s => users_t (database s) end.
Definition with_quota_state (q : QuotaState DbManager) s : Snaps :=
  {| srv := {| storage := storage (srv s); quota := q; jobs := jobs (srv s);
               write_handles := write_handles (srv s); read_handles := read_handles (srv s) |};
     snapshot_cache := snapshot_cache s |}.
Definition with_faults (l : list (option string)) (q : QuotaState DbManager) : QuotaState DbManager :=
  {| tracker := {| users_t := users_t (tracker q); quota_t := quota_t (tracker q); faults := l |}; buckets := buckets q |}.

(** What happens to a process. A request to replace the users may end in any way; every
    other request or job charges the quota engine or leaves the database alone; statements
    start to fail or work again; and the process stops, orderly or not, between two of
    these, or fails to start. *)
Inductive life : Process → Process → Prop :=
| starts path w f s f' : start path w f = (Ok s, f') → life (Stopped f) (Serving s)
| fails_to_start path w f e f' : start path w f = (Err e, f') → life (Stopped f) (Stopped f')
| reconfigures s req r y : set_vfs req (srv s) = (r, y) → life (Serving s) (Serving {| srv := y; snapshot_cache := snapshot_cache s |})
| charges s c r q : perform c (quota (srv s)) = (r, q) → life (Serving s) (Serving (with_quota_state q s))
| works s s' : quota (srv s') = quota (srv s) → life (Serving s) (Serving s')
| database_fails s l : life (Serving s) (Serving (with_quota_state (with_faults l (quota (srv s))) s))
| stops s l : life (Serving s) (Stopped (set_faults l (file_of (database s))))
| file_fails f l : life (Stopped f) (Stopped (set_faults l f)).

(** What the check of a request establishes: names and ids are distinct, and so are the
    mount paths of a user. *)
Definition accepted us : Prop :=
  NoDup (map username us) ∧ Forall well_named us ∧ validate_point_ids us = Ok ().
Definition configured t us : Prop := collect user_of_row (rows t) = Ok us ∧ accepted us.

Lemma accepted_permutation us us' : us ≡ₚ us' → accepted us → accepted us'.
Proof using Type.
  intros Hp (Hn & Hw & Hv). split_and!; [by rewrite <-Hp|by rewrite <-Hp|by eapply validate_permutation].
Qed.
Lemma requested_accepted req us : requested req us → accepted us.
Proof using UL.
  intros (us0 & _ & Hn). apply normalize_makes_names_unique in Hn as (Hnd & Hw & Hv & _). done.
Qed.
Lemma accepted_ids us u : accepted us → u ∈ us → NoDup (point_ids (points u)).
Proof using Type.
  intros (_ & _ & [_ Hnd]%validate_point_ids_iff) (l1 & l2 & ->)%list_elem_of_split.
  unfold user_ids in Hnd. rewrite bind_app, bind_cons in Hnd.
  apply NoDup_app in Hnd as (_ & _ & Hnd). by apply NoDup_app in Hnd as (Hnd & _ & _).
Qed.
Lemma configured_empty : configured ∅ [].
Proof using Type. split; [done|]. split_and!; [constructor|constructor|done]. Qed.

(** Every part of a replacement leaves the users alone, but for the commit. *)
Notation Server := (Server (O := O) (W := W)).
Definition good (y : Server) : Prop := ∃ us, configured (users_t (tracker (quota y))) us.
Notation kept m := (triple good m (λ _, good) good).
Lemma in_storage_good {E A} (m : M (Store.Store (O := O) (W := W)) E A) : kept (in_storage m).
Proof using Type. intros y Hy. unfold in_storage. by destruct (m (storage y)) as [[a|e] s]. Qed.
Lemma in_users_good {A} (m : M DbManager VfsError A) :
  (∀ db r db', m db = (r, db') → (∃ us, configured (users_t db) us) → ∃ us, configured (users_t db') us) → kept (in_users m).
Proof using Type.
  intros Hm y Hy. unfold in_users, in_quota. destruct (m (tracker (quota y))) as [r db] eqn:E.
  apply Hm in E; [|done]. by destruct r.
Qed.
Lemma add_keys_good cs : kept (add_keys cs : M Server Status ()).
Proof using Type.
  induction cs as [|c cs IH]; cbn; [by apply triple_ret|]. by step ltac:(apply triple_map_err, in_storage_good).
Qed.
Lemma remove_old_keys_good cs : kept (remove_old_keys cs : M Server Status ()).
Proof using Type.
  induction cs as [|c cs IH]; cbn; [by apply triple_ret|]. by step ltac:(apply triple_ignore, in_storage_good).
Qed.
Lemma clear_good id : kept (in_quota (clear id) : M Server DalError ()).
Proof using Type.
  intros y Hy. unfold in_quota. set (P := λ db, ∃ us, configured (users_t db) us).
  assert (Ht : triple (tracks P) (clear id) (λ _, tracks P) (tracks P)).
  { unfold clear, QuotaState.reset. step ltac:(apply entry_tracks). destruct a; apply set_bucket_tracks. }
  specialize (Ht (quota y) Hy). by destruct (clear id (quota y)) as [[a|e] q].
Qed.
Lemma clear_quotas_good ids : kept (clear_quotas ids : M Server Status ()).
Proof using Type.
  induction ids as [|id ids IH]; cbn; [by apply triple_ret|]. by step ltac:(apply triple_ignore, clear_good).
Qed.
Lemma invalidate_good l (y : Server) : good y → good (foldl (λ y u, invalidate_user u y) y l).
Proof using Type. revert y. induction l as [|u l IH]; intros y Hy; cbn; [done|]. by apply IH. Qed.
Lemma set_users_good us :
  accepted us → kept (m_map_err map_vfs (in_users (set_users us)) : M Server Status ()).
Proof using JLaws.
  intros Ha. apply triple_map_err, in_users_good. intros db [[]|e] db' E Hdb.
  - apply set_users_body in E as (us1 & Hd & Hp1 & _). apply decodes_rows in Hd as (us2 & Hc & Hp2).
    exists us2. split; [done|]. eapply accepted_permutation; [|done]. by rewrite Hp2, Hp1.
  - by apply set_users_err in E as [-> _].
Qed.
Lemma set_vfs_good req : kept (set_vfs req : M Server Status ()).
Proof using UL JLaws.
  unfold set_vfs. eapply (triple_bind _ _ (λ us0 y, collect user_of_proto req = Ok us0 ∧ good y)); [by apply triple_lift|].
  intros us0. apply triple_pure. intros Hp.
  eapply (triple_bind _ _ (λ us y, normalize_vfs_users us0 = Ok us ∧ good y)); [by apply triple_lift|].
  intros us. apply triple_pure. intros Hn. step ltac:(apply triple_map_err, in_users_good).
  { intros db r db' E. by apply get_users_tables in E as [-> _]. }
  step ltac:(apply add_keys_good). step ltac:(eapply set_users_good, requested_accepted; by exists us0).
  unfold after_commit. cbn zeta. eapply (triple_bind _ _ (λ _, good)); [by intros y Hy|]. intros _.
  eapply (triple_bind _ _ (λ _, good)); [intros y Hy; by apply invalidate_good|]. intros _.
  step ltac:(apply clear_quotas_good). apply remove_old_keys_good.
Qed.
Lemma life_configured p p' : life p p' → (∃ us, configured (users_of p) us) → ∃ us, configured (users_of p') us.
Proof using UL JLaws.
  intros Hl. destruct Hl as [path w f s f' Hs|path w f e f' Hs|s req r y Hs|s c r q Hs|s s' Hs|s l|s l|f l]; cbn [users_of]; unfold database; try done.
  - apply start_inv in Hs as (db & -> & Hu & _). cbn. by rewrite Hu.
  - unfold start in Hs. apply bind_inv in Hs as [(e' & Hs & _)|(db & f1 & _ & [=])]. by apply open_db_inv in Hs as [(-> & _) _].
  - intros Hg. pose proof (set_vfs_good req (srv s) Hg) as Hy. rewrite Hs in Hy. by destruct r.
  - apply charges_keep_users in Hs. cbn. by rewrite Hs.
  - by rewrite Hs.
Qed.

(** A user is read back by name. *)
Lemma get_user_spec db us n :
  configured (users_t db) us → faults db = [] →
  (Db.get_user n db).1 = match find_user n us with Some u => Ok u | None => Err UserNotFound end.
Proof using Type.
  intros [Hc (Hnd & _)] Hf. unfold Db.get_user, sql, sql_select_user, m_map_err, statement, mbind, M_bind, lift. rewrite Hf. cbn.
  apply rows_decodes in Hc as (r & Hr & Hp). apply collect_ok in Hr as Hall.
  destruct (users_t db !! n) as [js|] eqn:E; cbn.
  - apply elem_of_map_to_list in E. apply list_elem_of_lookup in E as [i Hi].
    destruct (Forall2_lookup_l _ _ _ _ _ Hall Hi) as (u & Hu & Hrow). rewrite Hrow.
    assert (Hin : u ∈ us) by (rewrite <-Hp; by eapply list_elem_of_lookup_2).
    apply user_of_row_name in Hrow. cbn in Hrow. by rewrite <-Hrow, (find_user_in us u).
  - destruct (find_user n us) as [u|] eqn:Eu; [|done]. exfalso.
    apply list_find_first_Some in Eu as [Hin Hn%bool_decide_eq_true]. rewrite <-Hp in Hin.
    apply list_elem_of_lookup in Hin as [i Hi]. destruct (Forall2_lookup_r _ _ _ _ _ Hall Hi) as ([k js] & Hrow & Hu).
    apply user_of_row_name in Hu. cbn in Hu. apply list_elem_of_lookup_2, elem_of_map_to_list in Hrow. congruence.
Qed.

(** C5. Stored users are well-typed for good. From a file whose users are accepted (an empty
    one, say), through any requests, replacements of the users, failures of the database,
    crashes and restarts, the stored users decode and are accepted: their names and the ids
    of all points are distinct and their points have distinct mount paths. A server finds
    each of them by name and nobody else; every point is found by its id and by its path,
    whatever lies below; and building the user's file system can mount every point. *)
Theorem stored_users_stay_well_typed p p' us0 :
  configured (users_of p) us0 → rtc life p p' →
  ∃ us, configured (users_of p') us ∧
    (∀ s n, p' = Serving s → faults (database s) = [] →
       (Db.get_user n (database s)).1 = match find_user n us with Some u => Ok u | None => Err UserNotFound end) ∧
    ∀ u, u ∈ us → find_user (username u) us = Some u ∧ mountable (points u) ∧ NoDup (point_ids (points u)) ∧
      ∀ p segs, p ∈ points u → Forall rel_seg segs → ∃ vfs,
        resolve_file_path u (Some (Indexed (uuid_to_string (pt_id p)) (join "/" segs))) = Ok vfs ∧
        resolve_point_path u (vfs +:+ (if bool_decide (segs = []) then "/" else ""))%string = Ok (p, join "/" segs).
Proof using UL JLaws.
  intros Hstart Hl. assert (∃ us, configured (users_of p') us) as (us & Hc & Ha).
  { assert (∃ us, configured (users_of p) us) as Hp by eauto. clear Hstart.
    induction Hl as [|p1 p2 p3 Hl _ IH]; [done|]. by eapply IH, life_configured. }
  exists us. split; [done|]. split.
  - intros s n -> Hf. by apply get_user_spec.
  - intros u Hin. pose proof (accepted_ids us u Ha Hin) as Hids. destruct Ha as (Hnd & Hw & _).
    rewrite Forall_forall in Hw. pose proof (Hw u Hin) as Hwu.
    split; [by apply find_user_in|]. split; [by destruct Hwu|]. split; [done|].
    intros pt segs Hpt Hsegs. destruct (file_paths_resolve_and_back u pt segs Hwu Hids Hpt Hsegs) as [(vfs & Hr & _ & Hb) _]. eauto.
Qed.
End Lifetime.

(** ** A concrete life *)

(** A fresh server is given a user with two points of one name, charges a quota, crashes
    and starts again. *)
Module DemoLifetime.
Import PlainUuid.
Import DiskOp.
Import (hints) DiskOp.
Import DemoSnapshots.
Open Scope string_scope.
#[local] Existing Instance plain_foreign.

(** There is no repository here whose keys could change. *)
#[local] Instance no_keys : KeyLib store := {|
  RepoNoIndex := string; KeyId := string;
  open_repo_with _ _ _ := throw (repo_err "no repository"); key_id _ := None;
  add_key _ _ := throw (repo_err "no repository"); delete_key _ _ := throw (repo_err "no repository");
|}.
#[local] Instance demo_json : JsonLib := {|
  to_json ps := if bool_decide (ps = points settled) then Ok "two points" else Err "unsupported";
  from_json s := if bool_decide (s = "two points") then Ok (points settled) else Err "malformed";
|}.
#[local] Instance demo_json_laws : JsonLaws.
Proof. split. intros ps s. cbn. case_bool_decide; intros [= <-]; by subst. Qed.

Definition wire (i : t) : ProtoVfsPoint :=
  {| pv_id := proj1_sig i; pv_name := "docs"; pv_max_bytes := 5; pv_can_write := true;
     pv_src := Some (Users.Data {| pp_scheme := "fs"; pp_config := ∅; pp_root := "/srv" |}) |}.
Definition request : list ProtoVfsUser := [{| pu_name := "bob"; pu_points := [wire id1; wire id2] |}].
Definition fresh : DbFile := {| f_users := None; f_passwords := None; f_quota := None; f_faults := [] |}.
Definition first_run := start (W := store) (Some "vfs.sqlite") two fresh.
Definition up (r : result VfsError (Snaps (O := op) (W := store))) : Snaps (O := op) (W := store) :=
  match r with Ok s => s | Err _ => new_server (new_manager two) (qs_new {| users_t := ∅; quota_t := ∅; faults := [] |}) end.
Definition configured_run := set_vfs request (srv (up first_run.1)).
Definition crashed : DbFile := set_faults [] (file_of (tracker (quota configured_run.2))).
Definition second_run := start (W := store) (Some "vfs.sqlite") two crashed.
Example replaced : configured_run.1 = Ok ().
Proof. vm_compute. reflexivity. Qed.
Lemma names_settled : users_t (database (up second_run.1)) = {["bob" := "two points"]}.
Proof. vm_compute. reflexivity. Qed.

Lemma started (x : result VfsError (Snaps (O := op) (W := store)) * DbFile) : is_ok x.1 = true → x = (Ok (up x.1), x.2).
Proof. by destruct x as [[s|e] f]. Qed.
Lemma whole_life : rtc life (Stopped fresh) (Serving (up second_run.1)).
Proof.
  eapply rtc_l; [by eapply starts, (started first_run); vm_compute|].
  eapply rtc_l; [apply (reconfigures _ request configured_run.1 configured_run.2), surjective_pairing|].
  eapply rtc_l; [apply (stops _ [])|].
  eapply rtc_once, starts, (started second_run). vm_compute. reflexivity.
Qed.
Lemma stored_users_stay_well_typed_witness :
  (Db.get_user "bob" (database (up second_run.1))).1 = Ok settled ∧
  ∃ vfs, resolve_file_path settled (Some (Indexed (proj1_sig id2) "a")) = Ok vfs.
Proof.
  assert (H0 : configured (users_of (Stopped (O := op) (W := store) fresh)) []) by (apply configured_empty).
  destruct (stored_users_stay_well_typed _ _ [] H0 whole_life) as (us & [Hc _] & Hget & Hall).
  assert (Hus : us = [settled]).
  { cbn [users_of] in Hc. rewrite names_settled in Hc.
    assert (Hx : collect user_of_row (rows {["bob" := "two points"]}) = Ok [settled]) by reflexivity.
    rewrite Hx in Hc. by injection Hc as <-. }
  subst us. split.
  - rewrite (Hget _ "bob" eq_refl); [reflexivity|]. vm_compute. reflexivity.
  - destruct (Hall settled) as (_ & _ & _ & Hp); [by left|].
    destruct (Hp (point_named id2 "docs-ffffffff") ["a"]%list) as (vfs & Hv & _); [right; by left|by apply (bool_decide_unpack _)|].
    exists vfs. exact Hv.
Defined.
End DemoLifetime.
