(* ===== verification/Territory.v ===== *)
(** * Storage that calls keep to

    What it means that a computation works on some of the storage only - that it changes
    nothing else and that its answer depends on nothing else - with rules for the monad, and
    what is needed of the third-party operators for it. The layers and the table of
    [opendal-vfs] are proved to keep to what they are put around: the read-only layer as a
    service ([ReadOnly]), the mount table by every call of [MountAccess] and of the handles it
    hands out ([Mounts]). The quota layer is not put around anything here: the server builds
    no mount with a quota. *)

From S2P Require Import Prelude.
From S2P Require Import RustStr.
From S2P Require Import Errors.
From S2P Require Import QuotaLayer.
From S2P Require Import Service.
From S2P Require Import ReadOnly.
From S2P Require Import Mounts.
From S2P Require Import Points.
From S2P Require Import LocalFs.
From S2P Require Import Users.
From S2P Require Import Store.
From S2P Require Import Requests.
From stdpp Require Import options.
Close Scope string_scope.

(** ** Computations that keep to their scope

    A scope says which states look the same from inside ([alike]), which changes stay
    inside ([inside]), and what is known of the states ([tidy]). *)
Record Scope (S : Type) := {
  alike : S → S → Prop;
  inside : S → S → Prop;
  tidy : S → Prop;
  inside_refl s : inside s s;
  inside_trans s1 s2 s3 : inside s1 s2 → inside s2 s3 → inside s1 s3;
}.
Arguments alike {S} _ _ _.
Arguments inside {S} _ _ _.
Arguments tidy {S} _ _.
Arguments inside_refl {S} _ _.
Arguments inside_trans {S} _ {_ _ _} _ _.

(** From states that look the same, the same answer and states that look the same; and
    every change stays inside. *)
Definition confined {S E A} (sc : Scope S) (m : M S E A) (Q : A → Prop) : Prop :=
  ∀ s1 s2, tidy sc s1 → alike sc s1 s2 →
    (m s1).1 = (m s2).1 ∧ alike sc (m s1).2 (m s2).2 ∧ inside sc s1 (m s1).2 ∧ tidy sc (m s1).2 ∧
    ∀ a, (m s1).1 = Ok a → Q a.

Section Rules.
Context {S : Type} (sc : Scope S).
Notation anything := (λ _, True).

Lemma confined_ret {E A} (a : A) (Q : A → Prop) : Q a → confined sc (mret a : M S E A) Q.
Proof. intros HQ s1 s2 Ht Ha. split_and!; try done; [apply inside_refl|]. by intros ? [= <-]. Qed.
Lemma confined_throw {E A} (e : E) (Q : A → Prop) : confined sc (throw e : M S E A) Q.
Proof. intros s1 s2 Ht Ha. split_and!; try done. apply inside_refl. Qed.
Lemma confined_lift {E A} (r : result E A) : confined sc (lift r) (λ a, r = Ok a).
Proof. intros s1 s2 Ht Ha. split_and!; try done. apply inside_refl. Qed.
Lemma confined_weaken {E A} (m : M S E A) (Q Q' : A → Prop) :
  confined sc m Q → (∀ a, Q a → Q' a) → confined sc m Q'.
Proof. intros Hm HQ s1 s2 Ht Ha. destruct (Hm s1 s2 Ht Ha) as (?&?&?&?&?). split_and!; eauto. Qed.
Lemma confined_bind {E A B} (m : M S E A) (f : A → M S E B) Q Q' :
  confined sc m Q → (∀ a, Q a → confined sc (f a) Q') → confined sc (mbind f m) Q'.
Proof.
  intros Hm Hf s1 s2 Ht Ha. destruct (Hm s1 s2 Ht Ha) as (Hr & Ha' & Hi & Ht' & HQ). unfold mbind, M_bind.
  destruct (m s1) as [[a|e] s1'], (m s2) as [r2 s2']; cbn in *; subst r2; cbn; [|by split_and!].
  destruct (Hf a (HQ a eq_refl) s1' s2' Ht' Ha') as (?&?&Hi'&?&?). split_and!; try done. by eapply inside_trans.
Qed.
Lemma confined_attempt {E F A} (m : M S E A) Q :
  confined sc m Q → confined sc (attempt m : M S F _) (λ r, ∀ a, r = Ok a → Q a).
Proof.
  intros Hm s1 s2 Ht Ha. destruct (Hm s1 s2 Ht Ha) as (Hr & Ha' & Hi & Ht' & HQ). unfold attempt.
  destruct (m s1) as [r1 s1'], (m s2) as [r2 s2']; cbn in *. subst r2. split_and!; try done. intros ? [= <-] a ->. by apply HQ.
Qed.
Lemma confined_map_err {E F A} (f : E → F) (m : M S E A) Q : confined sc m Q → confined sc (m_map_err f m) Q.
Proof.
  intros Hm s1 s2 Ht Ha. destruct (Hm s1 s2 Ht Ha) as (Hr & Ha' & Hi & Ht' & HQ). unfold m_map_err.
  destruct (m s1) as [r1 s1'], (m s2) as [r2 s2']; cbn in *. subst r2. split_and!; try done.
  intros a. destruct r1; [intros [= <-]; by apply HQ|done].
Qed.
(** Looking at a part of the state that looks the same. *)
Lemma confined_look {E A X} (f : S → X) (k : X → M S E A) Q :
  (∀ s1 s2, alike sc s1 s2 → f s1 = f s2) → (∀ s, tidy sc s → confined sc (k (f s)) Q) →
  confined sc (λ s, k (f s) s) Q.
Proof. intros Hf Hk s1 s2 Ht Ha. rewrite <-(Hf s1 s2 Ha). by apply (Hk s1 Ht s1 s2). Qed.
Lemma confined_gets {E A} (f : S → A) (Q : A → Prop) :
  (∀ s1 s2, alike sc s1 s2 → f s1 = f s2) → (∀ s, tidy sc s → Q (f s)) → confined sc (gets f : M S E A) Q.
Proof. intros Hf HQ. apply (confined_look f (λ a s, (Ok a, s))); [done|]. intros s Hs. apply confined_ret. by apply HQ. Qed.
(** An update of what the scope is not about. *)
Lemma confined_modify {E} (f : S → S) :
  (∀ s1 s2, alike sc s1 s2 → alike sc (f s1) (f s2)) → (∀ s, inside sc s (f s)) → (∀ s, tidy sc s → tidy sc (f s)) →
  confined sc (modify f : M S E ()) anything.
Proof. intros Ha Hi Ht s1 s2 Hs1 Hs. split_and!; cbn; auto. Qed.
End Rules.

(** A handle and the state it works on: the handle is one of the [good] ones and stays one. *)
Definition handle_scope {S H} (sc : Scope S) (good : H → Prop) : Scope (H * S).
Proof.
  refine {| alike x1 x2 := x1.1 = x2.1 ∧ alike sc x1.2 x2.2; inside x x' := inside sc x.2 x'.2;
            tidy x := good x.1 ∧ tidy sc x.2 |}.
  - intros x. apply inside_refl.
  - intros x1 x2 x3. apply inside_trans.
Defined.

(** One step of a proof that a computation keeps to its scope. *)
Tactic Notation "keep" tactic3(tac) "as" ident(a) ident(Ha) := eapply confined_bind; [tac | intros a Ha; cbn beta in *].
Ltac keep_to tac := eapply confined_bind; [tac | intros ? ?; cbn beta in *].

(** ** Storage and operators *)

(** Storage consists of cells (an object of a bucket, a file of a disk); a scheme with its
    configuration names some. [kept P op]: whatever is called on [op] keeps to the cells of
    [P]; a writer or reader it opened may be known to do so. *)
Class Territory (O W : Type) `{FileApi O W} `{!StoreLib O W} := {
  Cell : Type;
  Content : Type;
  kept_in : W → Cell → option Content;
  area : string → gmap string string → Cell → Prop;
  kept : (Cell → Prop) → O → Prop;
  writer_kept : (Cell → Prop) → OpWriter → Prop;
  reader_kept : (Cell → Prop) → OpReader → Prop;
}.

Definition world_scope {O W} `{Territory O W} (P : Cell → Prop) : Scope W.
Proof.
  refine {| alike w1 w2 := ∀ x, P x → kept_in w2 x = kept_in w1 x;
            inside w w' := ∀ x, ¬ P x → kept_in w' x = kept_in w x; tidy _ := True |}.
  - done.
  - intros w1 w2 w3 H12 H23 x Hx. by rewrite H23, H12.
Defined.

Section Kept.
Context {O W : Type} `{OA : OperatorApi O W} `{FA : !FileApi O W} `{SL : !StoreLib O W} `{UL : UuidLib} `{TA : !Territory O W}.
Implicit Types (P : Cell → Prop) (op : O) (mounts : gmap string (Mount O)).
Notation anything := (λ _, True).
Notation works P := (confined (world_scope P)).
Notation works_on P good := (confined (handle_scope (world_scope P) good)).

(** A service keeps to [P]: every call, and every call on the handles it hands out. *)
Record service_keeps P (S : Service W) (gw : Writer → Prop) (gd : Deleter → Prop) (gc : Copier → Prop) : Prop := {
  sk_create_dir p : works P (create_dir p) anything;
  sk_stat p : works P (stat p) anything;
  sk_read p : works P (read p) anything;
  sk_list p : works P (list_dir p) anything;
  sk_presign p : works P (presign p) anything;
  sk_rename from to : works P (rename from to) anything;
  sk_write p : works P (write p) gw;
  sk_delete : works P open_deleter gd;
  sk_copy from to : works P (copy from to) gc;
  sk_writer_write bs : works_on P gw (writer_write bs) anything;
  sk_writer_close : works_on P gw writer_close anything;
  sk_writer_abort : works_on P gw writer_abort anything;
  sk_deleter_delete p : works_on P gd (deleter_delete p) anything;
  sk_deleter_close : works_on P gd deleter_close anything;
  sk_copier_next : works_on P gc copier_next anything;
  sk_copier_close : works_on P gc copier_close anything;
  sk_copier_abort : works_on P gc copier_abort anything;
}.
Definition service_kept P (S : Service W) : Prop := ∃ gw gd gc, service_keeps P S gw gd gc.

(** The mount table keeps to [P]: every call of [MountAccess], and every call on the readers,
    writers, listers and copiers it hands out. *)
Definition opened_kept P (h : MountHandle) : Prop := reader_kept P (mh_reader h).
Definition mount_reader_kept P (r : MountReader) : Prop := kept P (mr_operator r).
Definition mount_writer_kept P (h : MountWriter) : Prop :=
  kept P (mw_operator h) ∧ ∀ i, mw_inner h = Some i → writer_kept P i.
Definition mount_lister_kept P (l : MountLister) : Prop :=
  match l with Real op _ _ _ => kept P op | Virtual _ => True end.
Record access_kept P mounts : Prop := {
  ak_stat p : works P (access_stat mounts p) anything;
  ak_create_dir p : works P (access_create_dir mounts p) anything;
  ak_read p : works P (access_read mounts p) (mount_reader_kept P);
  ak_reader_open : works_on P (mount_reader_kept P) (λ x, reader_open x.1 x.2) (opened_kept P);
  ak_reader_read h offset size : opened_kept P h → works P (reader_read_at h offset size) anything;
  ak_write p : works P (access_write mounts p) (mount_writer_kept P);
  ak_writer_write bs : works_on P (mount_writer_kept P) (mount_writer_write bs) anything;
  ak_writer_close : works_on P (mount_writer_kept P) mount_writer_close anything;
  ak_writer_abort : works_on P (mount_writer_kept P) mount_writer_abort anything;
  ak_delete p : works P (mount_deleter_delete mounts p) anything;
  ak_deleter_close : works P mount_deleter_close anything;
  ak_list p : works P (access_list mounts p) (mount_lister_kept P);
  ak_lister_next : works_on P (mount_lister_kept P) (λ x, lister_next x.1 x.2) anything;
  ak_copy from to : works P (access_copy mounts from to) (λ job, works P job anything);
  ak_rename from to : works P (access_rename mounts from to) anything;
  ak_presign p : works P (access_presign p) anything;
}.

(** Documented behaviour. An operator is what its configuration says; what keeps to some
    storage keeps to more; a layered operator and the operator of a service do nothing but
    call the layered service and the service, so that they keep to what those keep to; and a
    call on an operator works inside of what its operator keeps to. *)
Class TerritoryLaws : Prop := {
  kept_wider P P' op : kept P op → (∀ x, P x → P' x) → kept P' op;
  via_iter_kept P sch cfg op : via_iter sch cfg = Ok op → (∀ x, area sch cfg x → P x) → kept P op;
  blocking_kept P op op' : blocking op = Ok op' → kept P op → kept P op';
  logging_kept P op : kept P op → kept P (with_logging op);
  read_only_layer_kept P op :
    kept P op → (∀ S : Service W, service_kept P S → service_kept P (read_only_service (S := S))) →
    kept P (with_read_only op);
  table_operator_kept P mounts :
    (∀ mp m, mounts !! mp = Some m → kept P (operator m)) → access_kept P mounts → kept P (vfs_operator mounts);
  repo_operator_kept P src : (∀ x, area (rs_scheme src) (rs_config src) x → P x) →
    works P (repo_operator src) (kept (area (rs_scheme src) (rs_config src)));
  init_repo_kept P src : (∀ x, area (rs_scheme src) (rs_config src) x → P x) →
    works P (init_repo (O := O) src) anything;
  (** Local directories hold nothing themselves. *)
  local_root_kept P (p : VfsPoint) root : local_source_path p = Ok root → (∀ x, area (scheme p) (config p) x → P x) →
    works P (create_dir_all (O := O) root) anything;
  op_list_kept P op p : kept P op → works P (op_list op p) anything;
  stat_kept P op p : kept P op → works P (op_stat op p) anything;
  read_kept P op p : kept P op → works P (op_read op p) anything;
  write_kept P op p d : kept P op → works P (op_write op p d) anything;
  create_dir_kept P op p : kept P op → works P (op_create_dir op p) anything;
  delete_kept P op p : kept P op → works P (op_delete op p) anything;
  delete_all_kept P op p : kept P op → works P (op_delete_all op p) anything;
  copy_kept P op from to : kept P op → works P (op_copy op from to) anything;
  rename_kept P op from to : kept P op → works P (op_rename op from to) anything;
  list_with_kept P op p : kept P op → works P (op_list_with op p) anything;
  list_all_kept P op p : kept P op → works P (op_list_all op p) anything;
  lister_kept P op p : kept P op → works P (op_lister op p) anything;
  reader_open_kept P op p : kept P op → works P (op_reader op p) (reader_kept P);
  reader_read_kept P r from to : reader_kept P r → works P (reader_read r from to) anything;
  writer_open_kept P op p : kept P op → works P (op_writer op p) (writer_kept P);
  writer_push_kept P bs : works_on P (writer_kept P) (λ x, writer_push bs x.1 x.2) anything;
  writer_finish_kept P : works_on P (writer_kept P) (λ x, writer_finish x.1 x.2) anything;
  writer_cancel_kept P : works_on P (writer_kept P) (λ x, writer_cancel x.1 x.2) anything;
}.

(** ** The read-only layer *)

Lemma read_only_service_kept P (S : Service W) : service_kept P S → service_kept P (read_only_service (S := S)).
Proof using Type.
  intros (gw & gd & gc & []). exists gw, gd, gc. by constructor; first [assumption|intros; apply confined_throw].
Qed.

(** ** The mount table *)

Context `{TL : !TerritoryLaws}.
Lemma read_only_kept P op : kept P op → kept P (with_read_only op).
Proof using TL. intros Hop. apply read_only_layer_kept; [done|]. intros S. apply read_only_service_kept. Qed.

Section Table.
Variables (P : Cell → Prop) (mounts : gmap string (Mount O)).
Hypothesis Hm : ∀ mp m, mounts !! mp = Some m → kept P (operator m).

Lemma resolve_kept path mp m rel : resolve_path mounts path = Some (mp, m, rel) → kept P (operator m).
Proof using Hm. intros (Hin & _)%resolve_path_spec. by eapply Hm. Qed.
Lemma resolved_kept path : works P (resolved mounts path) (λ r, kept P (operator r.1.2)).
Proof using Hm.
  eapply confined_weaken; [apply confined_lift|]. intros [[mp m] rel]. unfold ok_or.
  destruct (resolve_path mounts path) as [r|] eqn:E; [|done]. intros [= ->]. by eapply resolve_kept.
Qed.
Lemma refuse_kept b : works P (refuse_if b) anything.
Proof using Type. destruct b; [apply confined_throw|by apply confined_ret]. Qed.
Lemma access_stat_kept p : works P (access_stat mounts p) anything.
Proof using Hm TL.
  unfold access_stat. destruct (resolve_path mounts p) as [[[mp m] rel]|] eqn:E.
  - destruct (_ && _); [by apply confined_ret|]. by eapply stat_kept, resolve_kept.
  - destruct (virtual_children _ _); [by apply confined_ret|apply confined_throw].
Qed.
Lemma reader_open_keeps : works_on P (mount_reader_kept P) (λ x, reader_open x.1 x.2) (opened_kept P).
Proof using TL.
  intros [r w1] [r2 w2] [Hr _] [Hr2 Hw]. cbn in Hr, Hr2, Hw. subst r2. cbn [fst snd]. unfold reader_open.
  destruct (mr_metadata r) as [md|].
  - destruct (reader_open_kept P _ (mr_path r) Hr w1 w2 I Hw) as (E & Ha & Hi & _ & HQ).
    destruct (op_reader _ _ w1) as [[rd|e] w1'], (op_reader _ _ w2) as [r2 w2']; cbn in *; subst r2; cbn.
    + split_and!; try done. intros h [= <-]. by apply HQ.
    + by split_and!.
  - destruct (stat_kept P _ (mr_path r) Hr w1 w2 I Hw) as (E & Ha & Hi & _).
    destruct (op_stat _ _ w1) as [[md|e] w1'], (op_stat _ _ w2) as [r2 w2']; cbn in *; subst r2; cbn; [|by split_and!].
    destruct (reader_open_kept P _ (mr_path r) Hr w1' w2' I Ha) as (E & Ha' & Hi' & _ & HQ).
    destruct (op_reader _ _ w1') as [[rd|e] w1''], (op_reader _ _ w2') as [r2 w2'']; cbn in *; subst r2; cbn.
    + split_and!; try done; [by intros x Hx; rewrite Hi', Hi|]. intros h [= <-]. by apply HQ.
    + split_and!; try done. by intros x Hx; rewrite Hi', Hi.
Qed.
Lemma lazy_writer_keeps {A} (use : OpWriter → W → result DalError A * (OpWriter * W)) :
  works_on P (writer_kept P) (λ x, use x.1 x.2) anything →
  works_on P (mount_writer_kept P) (lazy_writer use) anything.
Proof using TL.
  intros Hu [h w1] [h2 w2] [[Hop Hin] _] [Hh Hw]. cbn in Hop, Hin, Hh, Hw. subst h2. unfold lazy_writer.
  destruct (mw_inner h) as [i|] eqn:Ei.
  - destruct (Hu (i, w1) (i, w2)) as (E & [E2 Ha] & Hi & [Hk _] & _); [by split; [apply Hin|]|done|]. cbn in *.
    destruct (use i w1) as [r1 [i1 w1']], (use i w2) as [r2 [i2 w2']]. cbn in *. subst r2 i2. split_and!; try done.
    split; [done|]. by intros i' [= <-].
  - destruct (writer_open_kept P _ (mw_rel h) Hop w1 w2 I Hw) as (E & Ha & Hi & _ & HQ).
    destruct (op_writer _ _ w1) as [[i|e] w1'], (op_writer _ _ w2) as [r2 w2']; cbn in E, Ha, Hi, HQ; subst r2.
    2: { cbn. split_and!; try done. split; [done|]. by rewrite Ei. }
    destruct (Hu (i, w1') (i, w2')) as (E & [E2 Ha'] & Hi' & [Hk _] & _); [by split; [apply HQ|]|done|]. cbn in *.
    destruct (use i w1') as [r1 [i1 w1'']], (use i w2') as [r2 [i2 w2'']]. cbn in *. subst r2 i2. split_and!; try done.
    + by intros x Hx; rewrite Hi', Hi.
    + split; [done|]. by intros i' [= <-].
Qed.
Lemma lister_next_keeps : works_on P (mount_lister_kept P) (λ x, lister_next x.1 x.2) anything.
Proof using TL.
  intros [l w1] [l2 w2] [Hl _] [Hl2 Hw]. cbn in Hl, Hl2, Hw. subst l2. cbn [fst snd]. unfold lister_next.
  destruct l as [op rel mp [s|]|es]; [|destruct (lister_kept P op rel Hl w1 w2 I Hw) as (E & Ha & Hi & _)|by split_and!].
  - destruct (next_entry rel mp s) as [r s']. by split_and!.
  - destruct (op_lister op rel w1) as [[s|e] w1'], (op_lister op rel w2) as [r2 w2']; cbn in *; subst r2; [|by split_and!].
    destruct (next_entry rel mp s) as [r s']. by split_and!.
Qed.
Lemma copy_job_keeps d from_op to_op from_rel to_rel :
  kept P from_op → kept P to_op → works P (copy_job d from_op to_op from_rel to_rel) anything.
Proof using TL.
  intros Hf Ht. unfold copy_job. eapply (confined_bind _ _ _ anything); [|by intros; apply stat_kept].
  destruct d; [by apply copy_kept|]. keep_to ltac:(by apply read_kept). by apply write_kept.
Qed.
Lemma rename_keeps from to : works P (access_rename mounts from to) anything.
Proof using Hm TL.
  unfold access_rename. keep (apply resolved_kept) as f Hf. destruct f as [[fp fm] frel].
  keep (apply resolved_kept) as t Ht. destruct t as [[tp tm] trel]. cbn in Hf, Ht.
  keep_to ltac:(apply refuse_kept). destruct (_ && _); [by apply rename_kept|].
  keep_to ltac:(by apply read_kept). keep_to ltac:(by apply write_kept). by apply delete_kept.
Qed.

(** The table keeps to what its mounts keep to. *)
Lemma table_keeps : access_kept P mounts.
Proof using Hm TL.
  constructor.
  - apply access_stat_kept.
  - intros p. unfold access_create_dir. keep (apply resolved_kept) as r Hr. destruct r as [[mp m] rel].
    keep_to ltac:(apply refuse_kept). by apply create_dir_kept.
  - intros p. unfold access_read. keep (apply resolved_kept) as r Hr. destruct r as [[mp m] rel]. by apply confined_ret.
  - apply reader_open_keeps.
  - intros h o n Hh. unfold reader_read_at. destruct (_ <=? _)%N; [by apply confined_ret|by apply reader_read_kept].
  - intros p. unfold access_write. keep (apply resolved_kept) as r Hr. destruct r as [[mp m] rel].
    keep_to ltac:(apply refuse_kept). by apply confined_ret.
  - intros bs. apply lazy_writer_keeps, writer_push_kept.
  - apply lazy_writer_keeps, writer_finish_kept.
  - apply lazy_writer_keeps, writer_cancel_kept.
  - intros p. unfold mount_deleter_delete. keep (apply resolved_kept) as r Hr. destruct r as [[mp m] rel].
    keep_to ltac:(apply refuse_kept). by apply delete_kept.
  - by apply confined_ret.
  - intros p. unfold access_list. destruct (resolve_path mounts p) as [[[mp m] rel]|] eqn:E.
    + apply confined_ret. by eapply resolve_kept.
    + destruct (virtual_children _ _); [by apply confined_ret|apply confined_throw].
  - apply lister_next_keeps.
  - intros from to. unfold access_copy. keep (apply resolved_kept) as f Hf. destruct f as [[fp fm] frel].
    keep (apply resolved_kept) as t Ht. destruct t as [[tp tm] trel]. keep_to ltac:(apply refuse_kept).
    apply confined_ret. by apply copy_job_keeps.
  - apply rename_keeps.
  - intros p. apply confined_throw.
Qed.
Lemma table_kept : kept P (vfs_operator mounts).
Proof using Hm TL. apply table_operator_kept; [done|]. apply table_keeps. Qed.
End Table.
End Kept.
