(* ===== verification/Tenants.v ===== *)
(** * Users and each other's storage

    [Requests], [Store], [SetVfs] and [Db] together: the server works for many users, whose
    points may lie in the same buckets and on the same disks, and keeps operators in caches
    between requests while the configuration changes under them. Here it is proved that a
    request on a path (those of [Requests]) works on the storage of its user's points only -
    that it changes nothing else and that its answer depends on nothing else - after any
    requests of anybody, replacements of the users and evictions, each run to its end (the
    windows in between are the subject of [Store.cached_table_is_current]). What operators,
    layers and tables keep to is the subject of [Territory]. *)

From S2P Require Import Prelude.
From S2P Require Import RustStr.
From S2P Require Import Errors.
From S2P Require Import Paths.
From S2P Require Import QuotaCounter.
From S2P Require Import QuotaState.
From S2P Require Import QuotaLayer.
From S2P Require Import Service.
From S2P Require Import Mounts.
From S2P Require Import Points.
From S2P Require Import LocalFs.
From S2P Require Import Users.
From S2P Require Import Db.
From S2P Require Import Store.
From S2P Require Import SetVfs.
From S2P Require Import Requests.
From S2P Require Import Lifetime.
From S2P Require Import Territory.
From stdpp Require Import options.
Close Scope string_scope.

(** ** The storage manager *)

Section Tenants.
Context {O W : Type} `{OA : OperatorApi O W} `{FA : !FileApi O W} `{SL : !StoreLib O W} `{!KeyLib W}.
Context `{JL : JsonLib} `{Foreign} `{!Territory O W} `{TL : !TerritoryLaws (O := O) (W := W)} `{UL : !UuidLaws} `{JLaws : !JsonLaws}.
Notation Store := (Store (O := O) (W := W)).
Notation Server := (Server (O := O) (W := W)).
Implicit Types (s : Store) (y : Server) (u : VfsUser) (p : VfsPoint) (us : list VfsUser) (P : Cell → Prop) (op : O).
Notation anything := (λ _, True).

(** What belongs to a user: the storage of its points. *)
Definition point_area p : Cell → Prop := area (scheme p) (config p).
Definition covers us (n : string) (x : Cell) : Prop :=
  ∃ u p, u ∈ us ∧ username u = n ∧ p ∈ points u ∧ point_area p x.
Definition cached_op s (n : string) op : Prop := vfs_ops s !! n = Some op ∨ degraded_ops s !! n = Some op.

(** The cached operators keep to what they are cached for. *)
Definition caches_apart us s : Prop :=
  (∀ n op, cached_op s n op → kept (covers us n) op) ∧
  (∀ src op, repo_vfs_ops s !! src = Some op → kept (area (rs_scheme src) (rs_config src)) op).

(** From the storage [P]: a store looks the same when it is the same but for the rest of
    the world. *)
Definition store_scope us P : Scope Store.
Proof.
  refine {| alike s1 s2 := s2 = set_world (world s2) s1 ∧ alike (world_scope P) (world s1) (world s2);
            inside s s' := inside (world_scope P) (world s) (world s'); tidy := caches_apart us |}.
  - intros s. apply inside_refl.
  - intros s1 s2 s3. apply inside_trans.
Defined.
Notation stays us P := (confined (store_scope us P)).

Lemma stays_world {E A} us P (m : M W E A) Q : confined (world_scope P) m Q → stays us P (on_world m) Q.
Proof using Type.
  intros Hm s1 s2 Ht [Hs Hw]. destruct (Hm (world s1) (world s2) I Hw) as (Hr & Ha & Hi & _ & HQ).
  unfold on_world. destruct (m (world s1)) as [r1 w1], (m (world s2)) as [r2 w2]. cbn in Hr, Ha, Hi, HQ. subst r2.
  cbn. split_and!; try done. by rewrite Hs.
Qed.
(** Looking at what is not the world. *)
Lemma stays_look {E A X} us P (f : Store → X) (m : M Store E A) Q :
  (∀ s w, f (set_world w s) = f s) →
  (∀ s0, caches_apart us s0 → ∃ m', (∀ s, f s = f s0 → m s = m' s) ∧ stays us P m' Q) → stays us P m Q.
Proof using Type.
  intros Hf Hm s1 s2 Ht Ha. destruct (Hm s1 Ht) as (m' & Heq & Hm'). pose proof Ha as [Hs _].
  rewrite (Heq s1 eq_refl), (Heq s2); [by apply Hm'|]. rewrite Hs. apply Hf.
Qed.
Lemma stays_gets {E A} us P (f : Store → A) (Q : A → Prop) :
  (∀ s w, f (set_world w s) = f s) → (∀ s, caches_apart us s → Q (f s)) → stays us P (gets f : M Store E A) Q.
Proof using Type. intros Hf HQ. apply confined_gets; [|done]. intros s1 s2 [-> _]. by rewrite Hf. Qed.
(** Writing to what is not the world. *)
Lemma stays_modify {E} us P (f : Store → Store) :
  (∀ s w, f (set_world w s) = set_world w (f s)) → (∀ s, world (f s) = world s) →
  (∀ s, caches_apart us s → caches_apart us (f s)) → stays us P (modify f : M Store E ()) anything.
Proof using Type.
  intros Hf Hw Ht. apply confined_modify; [|intros s x Hx; by rewrite Hw|done].
  intros s1 s2 [-> Ha]. split; [|by rewrite !Hw]. by rewrite Hf.
Qed.

(** *** One point *)

Lemma probe_kept P src op :
  (∀ x, area (rs_scheme src) (rs_config src) x → P x) → probe src = Ok op → kept P op.
Proof using TL.
  unfold probe. intros HP Hp. destruct (via_iter _ _) as [op0|] eqn:E; [|done]. cbn in Hp.
  destruct (blocking op0) eqn:Eb; [|done]. injection Hp as ->. by eapply blocking_kept, via_iter_kept.
Qed.
Lemma repo_exists_stays us P op : kept P op → stays us P (repo_exists op) anything.
Proof using TL.
  intros Hop. unfold repo_exists. keep_to ltac:(by eapply confined_attempt, stays_world, stat_kept).
  repeat case_match; first [by apply confined_ret|apply confined_throw].
Qed.
Lemma prepare_stays us P src allow :
  (∀ x, area (rs_scheme src) (rs_config src) x → P x) → stays us P (prepare_repo_unlocked src allow) anything.
Proof using TL.
  intros HP. unfold prepare_repo_unlocked. keep_to ltac:(apply confined_lift).
  keep_to ltac:(by eapply repo_exists_stays, probe_kept).
  destruct a0; [by apply confined_ret|]. destruct allow; [by apply stays_world, init_repo_kept|apply confined_throw].
Qed.
Lemma probe_root_stays us P p op :
  kept P op → (∀ x, point_area p x → P x) → stays us P (probe_root p op) anything.
Proof using TL.
  intros Hop HP. unfold probe_root. keep_to ltac:(by eapply confined_attempt, stays_world, op_list_kept).
  destruct a as [l|e]; [by apply confined_ret|]. destruct (_ && _).
  - keep (apply confined_lift) as root Hr.
    assert (Hroot : local_source_path p = Ok root) by (destruct (local_source_path p); simplify_eq/=; done).
    by apply confined_map_err, stays_world, local_root_kept with p.
  - destruct (bool_decide _); [|apply confined_throw].
    keep_to ltac:(by eapply confined_map_err, stays_world, stat_kept). by apply confined_ret.
Qed.

Definition within_area P (r : string * O) : Prop := kept P r.2.
Lemma build_mount_stays us P p : (∀ x, point_area p x → P x) → stays us P (build_mount p) (within_area P).
Proof using TL.
  intros HP. unfold build_mount. destruct (is_repo p); cbn [negb].
  - unfold build_repo_mount. keep_to ltac:(apply confined_lift).
    keep (apply (stays_gets us P _ (λ o, ∀ op, o = Some op → kept P op));
      [done|intros s [_ Hs] op Hop; eapply kept_wider, HP; exact (Hs _ op Hop)]) as cached Hcached.
    destruct cached as [op|]; [apply confined_ret; exact (Hcached op eq_refl)|].
    keep_to ltac:(by apply confined_map_err, prepare_stays).
    keep (by eapply confined_map_err, stays_world, repo_operator_kept) as op Hop.
    keep_to ltac:(apply stays_modify; [done..|intros s [Hc Hr]; split; [exact Hc|]; intros src op'; cbn;
      rewrite lookup_insert_Some; intros [[<- <-]|[_ ?]]; eauto]).
    apply confined_ret. by eapply kept_wider, HP.
  - unfold build_data_mount. keep (apply confined_lift) as op Hmo.
    assert (Hop : kept P op).
    { unfold mount_operator in Hmo. destruct (via_iter _ _) as [raw|] eqn:E; [|done]. cbn in Hmo. injection Hmo as <-.
      apply logging_kept. assert (kept P raw) by (by eapply via_iter_kept).
      destruct (is_user_writable p); [done|]. by apply read_only_kept. }
    keep (apply confined_lift) as b Hb. destruct (blocking op) as [b'|] eqn:Eb; [|done]. injection Hb as ->.
    keep_to ltac:(apply probe_root_stays; [by eapply blocking_kept|done]). by apply confined_ret.
Qed.

(** *** The mounts of a user *)

Lemma probe_all_stays us P ps :
  (∀ p x, p ∈ ps → point_area p x → P x) →
  stays us P (probe_all ps) (Forall (λ r, ∀ m, r = Ok m → within_area P m)).
Proof using TL.
  induction ps as [|p ps IH]; intros HP; cbn [probe_all]; [by apply confined_ret|].
  keep (apply confined_attempt, build_mount_stays; intros x; apply HP; by left) as r Hr.
  keep (apply IH; intros q x Hq; apply HP; by right) as rs Hrs. apply confined_ret. by constructor.
Qed.
Definition pending_within P (m : PendingMount (O := O)) : Prop := kept P (pm_operator m) ∧ pm_quota m = Disabled.
Lemma mounted_within P path op b vfs :
  within_area P (path, op) → Forall (pending_within P) vfs →
  Forall (pending_within P) (if b : bool then builder_read_only (builder_mount path op vfs) else builder_mount path op vfs).
Proof using Type.
  intros Hop Hvfs. unfold builder_read_only, builder_mount. rewrite update_last_snoc.
  destruct b; apply Forall_app; (split; [done|]); by constructor.
Qed.
Lemma mount_all_stays us P u zipped vfs d :
  Forall (λ e, ∀ m, e.2 = Ok m → within_area P m) zipped → Forall (pending_within P) vfs →
  stays us P (mount_all u zipped vfs d) (λ r, Forall (pending_within P) r.1).
Proof using Type.
  intros Hz. revert vfs d. induction Hz as [|[p r] zipped Hr _ IH]; intros vfs d Hvfs; cbn [mount_all]; [by apply confined_ret|].
  assert (Hh : ∀ h, stays us P (set_health u p h) anything) by (intros h; by apply (stays_modify (E := VfsError))).
  destruct r as [[path op]|e]; keep_to ltac:(apply Hh); apply IH; [|done]. apply mounted_within; [by apply Hr|done].
Qed.
Lemma built_within P (vfs : VfsBuilder (O := O)) mounts :
  Forall (pending_within P) vfs → build vfs = Ok mounts → kept P (vfs_operator mounts).
Proof using TL.
  intros Hvfs Hb. apply table_kept. intros mp m Hm. apply build_from_ok in Hb as (_ & Hnd & ->).
  rewrite map_union_empty in Hm. apply elem_of_list_to_map_2 in Hm. apply list_elem_of_fmap in Hm as (pm & [= -> ->] & Hin).
  rewrite Forall_forall in Hvfs. destruct (Hvfs pm Hin) as [Hop Hq]. cbn. unfold layered. rewrite Hq.
  destruct (pm_read_only pm); [by apply read_only_kept|done].
Qed.
Lemma create_for_vfs_stays us P u :
  (∀ p x, p ∈ points u → point_area p x → P x) → stays us P (create_for_vfs u) (λ r, kept P r.1).
Proof using TL.
  intros HP. unfold create_for_vfs. keep (by apply probe_all_stays) as rs Hrs.
  keep (apply mount_all_stays; [|by constructor]) as r Hr.
  { apply Forall_forall. intros [p r] Hin%elem_of_zip_r. rewrite Forall_forall in Hrs. by apply Hrs. }
  destruct r as [vfs degraded]. keep (apply confined_lift) as mounts Hm. destruct (build vfs) as [mounts'|] eqn:Eb; [|done].
  injection Hm as ->. apply confined_ret. by apply (built_within P vfs).
Qed.

(** *** The cached table *)

Lemma stays_ret_cached us s n op : caches_apart us s → cached_op s n op → kept (covers us n) op.
Proof using Type. intros [Hc _] Hop. by apply Hc. Qed.
Notation own us u := (covers us (username u)).
Lemma points_covered us u p x : u ∈ us → p ∈ points u → point_area p x → own us u x.
Proof using Type. intros Hu Hp Hx. by exists u, p. Qed.

Lemma store_vfs_apart us u op d s :
  kept (own us u) op → caches_apart us s → caches_apart us (store_vfs (username u) op d s).
Proof using Type.
  intros Hop [Hc Hr]. split; [|by destruct d]. intros n op' Hin.
  assert (Hor : (n = username u ∧ op' = op) ∨ cached_op s n op').
  { unfold cached_op in *. destruct d; cbn in Hin; rewrite lookup_insert_Some, lookup_delete_Some in Hin; naive_solver. }
  destruct Hor as [[-> ->]|Hor]; [apply Hop|by apply Hc].
Qed.
Lemma build_vfs_stays us u :
  u ∈ us → stays us (own us u) (build_vfs u) (kept (own us u)).
Proof using TL.
  intros Hu. apply (stays_look us _ (λ s, vfs_ops s !! username u)); [done|].
  intros s Hs. destruct (vfs_ops s !! username u) as [op|] eqn:E.
  { exists (mret op : M Store VfsError O). split; [intros s' Hs'; unfold build_vfs; by rewrite Hs'|].
    apply confined_ret. eapply stays_ret_cached; [done|by left]. }
  eexists. split; [intros s' Hs'; unfold build_vfs; rewrite Hs'; reflexivity|].
  keep_to ltac:(by apply (stays_gets us _ _ anything)).
  keep (apply create_for_vfs_stays; intros p x; by apply points_covered) as r Hr. destruct r as [op degraded].
  keep_to ltac:(by apply (stays_gets us _ _ anything)). destruct (negb _); [by apply confined_ret|].
  keep_to ltac:(apply stays_modify; [by destruct degraded..|intros s'; by apply store_vfs_apart]). by apply confined_ret.
Qed.
Lemma refresh_stays us u : u ∈ us → stays us (own us u) (refresh_degraded u) anything.
Proof using TL.
  intros Hu. apply (stays_look us _ (λ s, bool_decide (username u ∈ refreshing s))); [done|].
  intros s Hs. destruct (bool_decide _) eqn:E.
  { exists (mret () : M Store VfsError ()). split; [intros s' Hs'; unfold refresh_degraded; by rewrite Hs'|by apply confined_ret]. }
  eexists. split; [intros s' Hs'; unfold refresh_degraded; rewrite Hs'; reflexivity|].
  keep_to ltac:(by apply stays_modify). keep_to ltac:(by apply confined_attempt, build_vfs_stays). by apply stays_modify.
Qed.
Lemma get_vfs_stays us u : u ∈ us → stays us (own us u) (Store.get_vfs u) (kept (own us u)).
Proof using TL.
  intros Hu. apply (stays_look us _ (λ s, (vfs_ops s !! username u, degraded_ops s !! username u))); [done|].
  intros s Hs. destruct (vfs_ops s !! username u) as [op|] eqn:E.
  { exists (mret op : M Store VfsError O). split; [intros s' [= Hs' _]; unfold Store.get_vfs; by rewrite Hs'|].
    apply confined_ret. eapply stays_ret_cached; [done|by left]. }
  destruct (degraded_ops s !! username u) as [op|] eqn:E2;
    (eexists; split; [intros s' [= Hs1 Hs2]; unfold Store.get_vfs; rewrite Hs1, Hs2; reflexivity|]); [|by apply build_vfs_stays].
  keep_to ltac:(by apply refresh_stays). apply confined_ret. eapply stays_ret_cached; [done|by right].
Qed.

(** ** Requests *)

Definition with_storage s y : Server :=
  {| storage := s; quota := quota y; jobs := jobs y; write_handles := write_handles y; read_handles := read_handles y |}.
Definition configured_as us y : Prop := configured (users_t (tracker (quota y))) us.
Definition server_scope us P : Scope Server.
Proof using JL.
  refine {| alike y1 y2 := y2 = with_storage (storage y2) y1 ∧ alike (store_scope us P) (storage y1) (storage y2);
            inside y y' := inside (store_scope us P) (storage y) (storage y');
            tidy y := configured_as us y ∧ caches_apart us (storage y) |}.
  - intros y. apply inside_refl.
  - intros y1 y2 y3. apply inside_trans.
Defined.
Notation serves us P := (confined (server_scope us P)).

Lemma serves_storage {E A} us P (m : M Store E A) Q : stays us P m Q → serves us P (in_storage m) Q.
Proof using Type.
  intros Hm y1 y2 [Hc Ht] [Hy Hs]. destruct (Hm (storage y1) (storage y2) Ht Hs) as (Hr & Ha & Hi & Ht' & HQ).
  unfold in_storage. destruct (m (storage y1)) as [r1 s1], (m (storage y2)) as [r2 s2]. cbn in Hr, Ha, Hi, Ht', HQ. subst r2.
  split_and!; try done. split; [|done]. cbn. by rewrite Hy.
Qed.
(** Reading the users. *)
Lemma serves_users {E A} us P (m : M DbManager E A) (Q : A → Prop) :
  (∀ db r db', m db = (r, db') → users_t db' = users_t db ∧ ∀ a, r = Ok a → configured (users_t db) us → Q a) →
  serves us P (in_users m) Q.
Proof using Type.
  intros Hm y1 y2 [Hc Ht] [Hy Hs]. rewrite Hy. unfold in_users, in_quota. cbn.
  destruct (m (tracker (quota y1))) as [r db] eqn:Em. destruct (Hm _ _ _ Em) as [Hu HQ].
  split; [done|]. split; [split; [done|exact Hs]|]. split; [apply (inside_refl (store_scope us P))|].
  split; [split; [by unfold configured_as; cbn; rewrite Hu|done]|]. intros a Ha. by apply HQ.
Qed.
Lemma serves_look {A X} us P (f : Server → X) (m : M Server Status A) Q :
  (∀ y w, f (with_storage (set_world w (storage y)) y) = f y) →
  (∀ x, ∃ m', (∀ y, f y = x → m y = m' y) ∧ serves us P m' Q) → serves us P m Q.
Proof using Type.
  intros Hf Hm y1 y2 Ht Ha. destruct (Hm (f y1)) as (m' & Heq & Hm'). pose proof Ha as [Hy [Hs _]].
  rewrite (Heq y1 eq_refl), (Heq y2); [by apply Hm'|]. rewrite Hy, Hs. apply Hf.
Qed.

Lemma get_user_in db us n r db' :
  Db.get_user n db = (r, db') → users_t db' = users_t db ∧
  ∀ u, r = Ok u → configured (users_t db) us → u ∈ us ∧ username u = n.
Proof using Type.
  unfold Db.get_user. intros [(e & E & ->)|(row & db1 & E & [= <- <-])]%bind_inv.
  { apply sql_err_tables in E; [by destruct E as [-> _]|done]. }
  apply sql_ok in E as (fs & [= <- <-]). split; [done|]. intros u Hu [Hc (Hnd & _)].
  destruct (users_t db !! n) as [js|] eqn:En; [|done]. cbn in Hu.
  apply rows_decodes in Hc as (l & Hl & Hp). apply collect_ok in Hl. apply elem_of_map_to_list, list_elem_of_lookup in En as [i Hi].
  destruct (Forall2_lookup_l _ _ _ _ _ Hl Hi) as (v & Hv & Hrow). rewrite Hu in Hrow. injection Hrow as <-.
  split; [rewrite <-Hp; by eapply list_elem_of_lookup_2|]. by apply user_of_row_name in Hu.
Qed.

Lemma get_user_serves us P n : serves us P (get_user n) (λ u, u ∈ us ∧ username u = n).
Proof using JL.
  apply confined_map_err, serves_users. intros db r db' E. apply (get_user_in db us) in E as [Hu HQ]. split; [done|].
  intros u Hr Hc. by apply HQ.
Qed.
Lemma get_operator_serves us a is_dir :
  serves us (covers us (pa_user a)) (get_operator a is_dir) (λ r, kept (covers us (pa_user a)) r.1).
Proof using TL JL.
  unfold get_operator. keep (apply get_user_serves) as u Hu. destruct Hu as [Hu <-].
  keep (apply confined_lift) as path Hp.
  keep (by apply confined_map_err, serves_storage, get_vfs_stays) as op Hop.
  apply (serves_look _ _ (check_point_loaded u path)).
  - intros y w. unfold check_point_loaded. done.
  - intros checked. exists (_ ← lift checked; mret (op, fix_path path is_dir)). split.
    + intros y <-. done.
    + keep_to ltac:(apply confined_lift). by apply confined_ret.
Qed.
Lemma require_write_serves us P a : serves us P (require_user_write a) anything.
Proof using JL.
  unfold require_user_write. keep_to ltac:(apply get_user_serves). keep_to ltac:(apply confined_lift).
  keep (apply confined_lift) as r Hr. destruct r. by eapply confined_weaken; [apply confined_lift|].
Qed.

(** *** Calls on an operator *)

Notation works P := (confined (world_scope P)).
Lemma serves_disk {A} us P (m : M W Status A) Q : works P m Q → serves us P (on_disk m) Q.
Proof using Type. intros Hm. by apply serves_storage, stays_world. Qed.
Lemma stat_any_works P op path : kept P op → works P (stat_any op path) anything.
Proof using TL.
  intros Hop. unfold stat_any. keep_to ltac:(by eapply confined_attempt, stat_kept).
  destruct a as [m|e]; [by apply confined_ret|]. destruct (is_not_found e); [|apply confined_throw].
  keep_to ltac:(by eapply confined_map_err, stat_kept). by apply confined_ret.
Qed.
Lemma delete_entries_works P op path es : kept P op → works P (delete_entries op path es) anything.
Proof using TL.
  intros Hop. induction es as [|e es IH]; cbn [delete_entries]; [by apply confined_ret|]. destruct (bool_decide _); [done|].
  keep_to ltac:(by eapply confined_map_err, delete_kept). done.
Qed.
Lemma remove_any_works P op path : kept P op → works P (remove_any op path) anything.
Proof using TL.
  intros Hop. unfold remove_any. keep (by apply stat_any_works) as r Hr. destruct r as [meta p].
  eapply (confined_bind _ _ _ anything).
  - destruct (meta_is_dir meta); [|by eapply confined_map_err, delete_kept].
    keep_to ltac:(by eapply confined_map_err, delete_all_kept). keep_to ltac:(by eapply confined_attempt, stat_kept).
    destruct (is_ok _); [|by apply confined_ret]. keep_to ltac:(by eapply confined_map_err, list_all_kept).
    keep_to ltac:(by apply delete_entries_works). by eapply confined_map_err, delete_kept.
  - intros _ _. keep_to ltac:(by eapply confined_attempt, stat_kept).
    destruct a as [m|e]; [apply confined_throw|]. destruct (is_not_found e); [by apply confined_ret|apply confined_throw].
Qed.
Lemma stat_either_works P op path : kept P op → works P (stat_either op path) anything.
Proof using TL.
  intros Hop. unfold stat_either. keep_to ltac:(by eapply confined_attempt, stat_kept).
  destruct a as [m|e]; [by apply confined_ret|]. destruct (is_not_found e); [|apply confined_throw].
  by eapply confined_map_err, stat_kept.
Qed.
Lemma exists_either_works P op path : kept P op → works P (exists_either op path) anything.
Proof using TL.
  intros Hop. unfold exists_either. keep_to ltac:(by eapply confined_attempt, stat_kept).
  destruct a as [m|e]; [by apply confined_ret|]. destruct (is_not_found e); [|apply confined_throw].
  keep_to ltac:(by eapply confined_attempt, stat_kept).
  destruct a as [m|e2]; [by apply confined_ret|]. destruct (is_not_found e2); [by apply confined_ret|apply confined_throw].
Qed.

(** *** What a client asks *)

Inductive query := Touch | MakeDir | RemoveFile | RemoveDir | ListDir | Stat | Exists.
Inductive reply := Done | Nodes (l : list (VfsNode Time)) | Node (n : VfsNode Time) | Flag (b : bool).

Definition answer (q : query) (a : PathArg) : M Server Status reply :=
  match q with
  | Touch => _ ← vfs_touch_file a; mret Done
  | MakeDir => _ ← vfs_create_dir a; mret Done
  | RemoveFile => _ ← vfs_remove_file a; mret Done
  | RemoveDir => _ ← vfs_remove_dir a; mret Done
  | ListDir => l ← vfs_list_dir a; mret (Nodes l)
  | Stat => n ← vfs_stat a; mret (Node n)
  | Exists => b ← vfs_exists a; mret (Flag b)
  end.

Lemma calls_serve {A} us a is_dir (f : O → string → M W Status A) :
  (∀ P op path, kept P op → works P (f op path) anything) →
  serves us (covers us (pa_user a)) ('(op, path) ← get_operator a is_dir; on_disk (f op path)) anything.
Proof using TL JL.
  intros Hf. keep (apply get_operator_serves) as r Hr. destruct r as [op path]. by apply serves_disk, Hf.
Qed.
Lemma writes_serve {A} us a is_dir (f : O → string → M W Status A) :
  (∀ P op path, kept P op → works P (f op path) anything) →
  serves us (covers us (pa_user a))
    (_ ← require_user_write a; '(op, path) ← get_operator a is_dir; on_disk (f op path)) anything.
Proof using TL JL. intros Hf. keep_to ltac:(apply require_write_serves). by apply calls_serve. Qed.

Lemma answer_serves us q a : serves us (covers us (pa_user a)) (answer q a) anything.
Proof using TL JL.
  destruct q; cbn [answer]; (eapply (confined_bind _ _ _ anything); [|by intros; apply confined_ret]).
  - apply writes_serve. intros P op path Hop. by eapply confined_map_err, write_kept.
  - apply writes_serve. intros P op path Hop. by eapply confined_map_err, create_dir_kept.
  - apply writes_serve. intros. by apply remove_any_works.
  - apply writes_serve. intros. by apply remove_any_works.
  - unfold vfs_list_dir. keep (apply get_operator_serves) as r Hr. destruct r as [op path].
    keep_to ltac:(by eapply serves_disk, confined_map_err, list_with_kept). by apply confined_ret.
  - unfold vfs_stat. keep (apply get_operator_serves) as r Hr. destruct r as [op path].
    keep_to ltac:(by eapply serves_disk, stat_either_works). by apply confined_ret.
  - apply calls_serve. intros. by apply exists_either_works.
Qed.

(** ** Replacing the users *)

(** The caches hold no more than before, and nothing for [ns]. *)
Definition drops (ns : list string) s s' : Prop :=
  (∀ n op, cached_op s' n op → n ∉ ns ∧ cached_op s n op) ∧ repo_vfs_ops s' ⊆ repo_vfs_ops s.
Lemma drops_trans ns1 ns2 s1 s2 s3 : drops ns1 s1 s2 → drops ns2 s2 s3 → drops (ns1 ++ ns2) s1 s3.
Proof using Type.
  intros [Hc1 Hr1] [Hc2 Hr2]. split; [|by etrans]. intros n op [Hn2 [Hn1 Ho]%Hc1]%Hc2. by rewrite not_elem_of_app.
Qed.
Lemma drops_apart ns us us' s s' :
  drops ns s s' → (∀ n x, n ∉ ns → covers us n x → covers us' n x) → caches_apart us s → caches_apart us' s'.
Proof using TL.
  intros [Hc Hr] Hcov [Hs Hs2]. split.
  - intros n op [Hn Ho]%Hc. eapply kept_wider; [by apply Hs|]. intros x. by apply Hcov.
  - intros src op Ho. eapply Hs2, lookup_weaken, Hr. done.
Qed.

Lemma invalidate_drops u s : drops [username u] s (invalidate_vfs u s).
Proof using Type.
  unfold invalidate_vfs. set (s1 := set_ops _ _ _).
  destruct (invalidate_points_spec (points u) s1) as (_ & _ & _ & Hv & Hops & Hdeg & _).
  split.
  - intros n op. unfold cached_op. rewrite Hops, Hdeg. cbn. rewrite !lookup_delete_Some, list_elem_of_singleton. intros [[? ?]|[? ?]]; auto.
  - apply map_subseteq_spec. intros src op. rewrite Hv. by case_decide.
Qed.
Lemma invalidate_all_drops l (y : Server) :
  drops (map username l) (storage y) (storage (foldl (λ y u, invalidate_user u y) y l)).
Proof using Type.
  revert y. induction l as [|u l IH]; intros y; cbn [foldl map].
  { split; [|done]. intros n op Ho. by split; [apply not_elem_of_nil|]. }
  eapply (drops_trans [username u]), IH. apply invalidate_drops.
Qed.

(** A user that did not change is still there. *)
Lemma unchanged_covered us us1 us' n x :
  us' ≡ₚ us1 → n ∉ map username (changed_users us us1) → covers us n x → covers us' n x.
Proof using Type.
  intros Hp Hn (u & p & Hu & <- & Hin). exists u, p. split; [|done]. rewrite Hp.
  assert (Hun : is_changed us1 u = false).
  { destruct (is_changed us1 u) eqn:E; [|done]. destruct Hn. apply list_elem_of_fmap. exists u. split; [done|].
    unfold changed_users. rewrite list_elem_of_In, filter_In, <-list_elem_of_In. done. }
  unfold is_changed in Hun. destruct (find_user (username u) us1) as [v|] eqn:Ef; [|done].
  apply negb_false_iff, bool_decide_eq_true in Hun as ->. by apply find_user_same in Ef as [_ ?].
Qed.

(** Settled: users [us] and caches that are apart. *)
Definition settled us y : Prop := configured_as us y ∧ caches_apart us (storage y).
Notation keeps T m := (triple T m (λ _, T) T).
Lemma world_apart {E A} us (m : M W E A) : keeps (caches_apart us) (on_world m).
Proof using Type. intros s Hs. unfold on_world. by destruct (m (world s)) as [[a|e] w]. Qed.
Lemma lift_apart {E A} us (r : result E A) : keeps (caches_apart us) (lift r).
Proof using Type. by apply triple_lift. Qed.
Lemma exists_apart us op : keeps (caches_apart us) (repo_exists op).
Proof using Type.
  unfold repo_exists. step ltac:(apply triple_attempt, world_apart).
  repeat case_match; first [by apply triple_ret|by intros ? ?].
Qed.
Lemma add_key_apart us old pw aw : keeps (caches_apart us) (add_repo_key_blocking old pw aw).
Proof using Type.
  unfold add_repo_key_blocking. step ltac:(apply lift_apart). step ltac:(apply exists_apart).
  destruct a0; cbn; [|by apply triple_ret]. step ltac:(apply triple_attempt, world_apart).
  destruct a0; [by apply triple_ret|]. step ltac:(apply triple_map_err, world_apart).
  destruct aw; [apply world_apart|by intros ? ?].
Qed.
Lemma remove_key_apart us old pw aw : keeps (caches_apart us) (remove_old_repo_key_blocking old pw aw).
Proof using Type.
  unfold remove_old_repo_key_blocking. step ltac:(apply lift_apart). step ltac:(apply exists_apart).
  destruct a0; cbn; [|by apply triple_ret]. step ltac:(apply world_apart). step ltac:(apply triple_attempt, world_apart).
  destruct a1; [|by apply triple_ret]. repeat case_match; first [by apply triple_ret|apply world_apart|by intros ? ?].
Qed.
(** A part of the handler that works on the store only. *)
Lemma storage_settled {E A} us us0 (m : M Store E A) :
  keeps (caches_apart us0) m →
  keeps (λ y, configured_as us y ∧ caches_apart us0 (storage y)) (in_storage m).
Proof using Type.
  intros Hm y [Hc Hs]. specialize (Hm (storage y) Hs). unfold in_storage. by destruct (m (storage y)) as [[a|e] s].
Qed.
Lemma add_keys_settled us cs : keeps (settled us) (add_keys cs).
Proof using Type.
  induction cs as [|c cs IH]; cbn [add_keys]; [by apply triple_ret|].
  by step ltac:(apply triple_map_err, storage_settled, add_key_apart).
Qed.
Lemma remove_keys_settled us R cs : triple (settled us) (remove_old_keys cs) (λ _, settled us) R.
Proof using Type.
  induction cs as [|c cs IH]; cbn [remove_old_keys]; [by apply triple_ret|].
  by step ltac:(apply triple_ignore, storage_settled, remove_key_apart).
Qed.
Lemma clear_settled us id : keeps (settled us) (in_quota (clear id) : M Server DalError ()).
Proof using Type.
  intros y [Hc Hs]. unfold in_quota.
  set (I := λ db, configured (users_t db) us).
  assert (Ht : triple (tracks I) (clear id) (λ _, tracks I) (tracks I)).
  { unfold clear, QuotaState.reset. step ltac:(apply entry_tracks). destruct a; apply set_bucket_tracks. }
  specialize (Ht (quota y) Hc). by destruct (clear id (quota y)) as [[a|e] q].
Qed.
Lemma clear_quotas_settled us R ids : triple (settled us) (clear_quotas ids) (λ _, settled us) R.
Proof using Type.
  induction ids as [|id ids IH]; cbn [clear_quotas]; [by apply triple_ret|]. by step ltac:(apply triple_ignore, clear_settled).
Qed.
Lemma get_users_settled us :
  triple (settled us) (in_users get_users) (λ old y, old = us ∧ settled us y) (settled us).
Proof using Type.
  intros y [Hc Hs]. unfold in_users, in_quota. destruct (get_users (tracker (quota y))) as [r db] eqn:E.
  pose proof (get_users_tables _ _ _ E) as [Hu _]. assert (Hc' : configured (users_t db) us) by (by rewrite Hu).
  destruct r as [old|e]; [|done]. apply get_users_ok in E as (_ & _ & Hold). split; [|done].
  destruct Hc as [Hc _]. congruence.
Qed.
(** The commit: the new users are stored, the caches are still those of the old ones. *)
Definition committed us us1 y : Prop := ∃ us', us' ≡ₚ us1 ∧ configured_as us' y ∧ caches_apart us (storage y).
Lemma commit_settled us us1 :
  accepted us1 → triple (settled us) (in_users (set_users us1)) (λ _, committed us us1) (settled us).
Proof using JLaws.
  intros Ha y [Hc Hs]. unfold in_users, in_quota. destruct (set_users us1 (tracker (quota y))) as [[[]|e] db] eqn:E.
  - apply set_users_body in E as (us2 & Hd & Hp & _). apply decodes_rows in Hd as (us' & Hd & Hp').
    assert (us' ≡ₚ us1) as Hus by (by rewrite Hp', Hp). exists us'. split; [done|]. split; [|done].
    split; [done|]. by eapply accepted_permutation.
  - apply set_users_err in E as [Hu _]. split; [|done]. unfold configured_as. cbn. by rewrite Hu.
Qed.
Lemma after_commit_settled us us1 R :
  triple (committed us us1) (after_commit us us1) (λ _ y, ∃ us', settled us' y) R.
Proof using TL.
  intros y (us' & Hp & Hc & Hs). unfold after_commit. cbn zeta.
  set (y1 := foldl (λ y u, invalidate_user u y) (cancel_jobs (map username (changed_users us us1)) y) (changed_users us us1)).
  assert (Hy1 : settled us' y1).
  { destruct (invalidate_users_spec (changed_users us us1) (cancel_jobs (map username (changed_users us us1)) y)) as [Hq _].
    split; [unfold configured_as, y1; by rewrite Hq|]. eapply drops_apart; [apply invalidate_all_drops| |exact Hs].
    intros n x. by apply unchanged_covered. }
  assert (Ht : triple (settled us') (_ ← clear_quotas (removed_quotas us us1); remove_old_keys (password_changes us us1))
    (λ _, settled us') R) by (step ltac:(apply clear_quotas_settled); apply remove_keys_settled).
  specialize (Ht y1 Hy1). unfold mbind, M_bind, modify in *. fold y1.
  destruct (clear_quotas _ y1) as [[[]|e] y2]; [|done]. destruct (remove_old_keys _ y2) as [[[]|e] y3]; [by exists us'|done].
Qed.
Lemma set_vfs_settled us req :
  triple (settled us) (set_vfs req) (λ _ y, ∃ us', settled us' y) (settled us).
Proof using TL UL JLaws.
  unfold set_vfs. eapply (triple_bind _ _ (λ us0 y, collect user_of_proto req = Ok us0 ∧ settled us y)); [by apply triple_lift|].
  intros us0. apply triple_pure. intros Hp.
  eapply (triple_bind _ _ (λ us1 y, normalize_vfs_users us0 = Ok us1 ∧ settled us y)); [by apply triple_lift|].
  intros us1. apply triple_pure. intros Hn. step ltac:(apply triple_map_err, get_users_settled).
  apply triple_pure. intros ->. step ltac:(apply add_keys_settled).
  step ltac:(eapply triple_map_err, commit_settled, requested_accepted; by exists us0). apply after_commit_settled.
Qed.

(** ** What happens *)

(** What happens to a server: requests, each run to its end, replacements of the users that
    fail at any point or succeed, tables built for a user of the configuration, and anything
    that leaves the users alone and puts nothing into the caches, whatever it does to the
    storage, the quotas, the jobs and the handles. *)
Inductive happens : Server → Server → Prop :=
| asks q a y r y' : answer q a y = (r, y') → happens y y'
| opens a is_dir y r y' : get_operator a is_dir y = (r, y') → happens y y'
| replaces req y r y' : set_vfs req y = (r, y') → happens y y'
| builds n y r y' :
    (u ← get_user n; _ ← attempt (in_storage (Store.get_vfs u)); mret ()) y = (r, y') → happens y y'
| evicts ns y y' :
    users_t (tracker (quota y')) = users_t (tracker (quota y)) → drops ns (storage y) (storage y') → happens y y'.

Lemma serves_settled {F A} us P (m : M Server F A) Q y r y' :
  serves us P m Q → settled us y → m y = (r, y') → settled us y'.
Proof using Type.
  intros Hm Hy E. destruct (Hm y y Hy) as (_ & _ & _ & Ht & _); [|by rewrite E in Ht].
  split; [by destruct y|]. split; [by destruct y as [[]]|done].
Qed.
Lemma builds_serves us n :
  serves us (covers us n) (u ← get_user n; _ ← attempt (in_storage (Store.get_vfs u)); mret ()) anything.
Proof using TL JL.
  keep (apply get_user_serves) as u Hu. destruct Hu as [Hu <-].
  keep_to ltac:(by eapply confined_attempt, serves_storage, get_vfs_stays). by apply confined_ret.
Qed.
Lemma happens_settled y y' us : happens y y' → settled us y → ∃ us', settled us' y'.
Proof using TL UL JLaws.
  intros Hh Hy. destruct Hh as [q a y r y' E|a d y r y' E|req y r y' E|n y r y' E|ns y y' Hu Hd].
  - exists us. by eapply serves_settled, E; [apply answer_serves|].
  - exists us. by eapply serves_settled, E; [apply get_operator_serves|].
  - pose proof (set_vfs_settled us req y Hy) as H1. rewrite E in H1. destruct r; [done|by exists us].
  - exists us. by eapply serves_settled, E; [apply builds_serves|].
  - exists us. destruct Hy as [Hc Hs]. split; [unfold configured_as; by rewrite Hu|]. by eapply drops_apart.
Qed.
Lemma run_settled y y' us : rtc happens y y' → settled us y → ∃ us', settled us' y'.
Proof using TL UL JLaws.
  intros Hr. revert us. induction Hr as [y|y y1 y' Hh _ IH]; intros us Hy; [by exists us|].
  apply happens_settled with (us := us) in Hh as [us' Hy1]; [by eapply IH|done].
Qed.

(** The same server on other storage: nothing differs on the cells of [P]. *)
Definition differs_outside P y1 y2 : Prop :=
  ∃ w, y2 = with_storage (set_world w (storage y1)) y1 ∧ ∀ x, P x → kept_in w x = kept_in (world (storage y1)) x.

(** C6. Users are isolated from each other's storage as long as requests, replacements and
    builds each run to their end before the next begins (a build that a replacement overtakes
    may leave a table of the old configuration cached: [Store.outdated_table_stored_too_late]).
    Start a server with nothing cached and let anything happen: requests of anybody,
    replacements of the users, tables built, caches evicted, storage changed from outside.
    Then every cached table keeps to the storage of the points its user has now, and a request
    on a path that is asked for user [n] next - to touch, make, remove, list or look at
    anything - changes no cell outside of the storage of [n]'s points, and neither its answer
    nor what it leaves there depends on any cell outside: whatever the other storage holds, the
    answer is the same. *)
Theorem tenants_are_isolated y0 y us0 :
  configured_as us0 y0 → vfs_ops (storage y0) = ∅ → degraded_ops (storage y0) = ∅ → repo_vfs_ops (storage y0) = ∅ →
  rtc happens y0 y →
  ∃ us, configured_as us y ∧
    (∀ n op, cached_op (storage y) n op → kept (covers us n) op) ∧
    ∀ q a, let P := covers us (pa_user a) in
      (∀ x, ¬ P x → kept_in (world (storage (answer q a y).2)) x = kept_in (world (storage y)) x) ∧
      ∀ y2, differs_outside P y y2 →
        (answer q a y2).1 = (answer q a y).1 ∧ differs_outside P (answer q a y).2 (answer q a y2).2.
Proof using TL UL JLaws.
  intros Hc0 H1 H2 H3 Hr. destruct (run_settled _ _ us0 Hr) as (us & Hc & Hs).
  { split; [done|]. unfold caches_apart, cached_op. rewrite H1, H2, H3. split; [|done]. by intros n op [?|?]. }
  exists us. split; [done|]. split; [apply Hs|]. intros q a P.
  pose proof (answer_serves us q a y) as Ha. split.
  - destruct (Ha y) as (_ & _ & Hi & _); [done| |exact Hi]. split; [by destruct y|]. split; [by destruct y as [[]]|done].
  - intros y2 (w & -> & Hw). destruct (Ha (with_storage (set_world w (storage y)) y)) as (Heq & [Hy [Hs' Hw']] & _); [done|by split|].
    split; [done|]. exists (world (storage (answer q a (with_storage (set_world w (storage y)) y)).2)).
    split; [|exact Hw']. rewrite Hy at 1. by rewrite Hs' at 1.
Qed.
End Tenants.

(** ** Two concrete users *)

(** Buckets known by their root; a table hands every path to the bucket mounted there. *)
Module DemoTenants.
Import PlainUuid.
Open Scope string_scope.
#[local] Existing Instance plain_foreign.

Notation node := DiskOp.node.
Notation Dir := DiskOp.Dir.
Notation File := DiskOp.File.
Notation store := (gmap (string * string) node).
(** The mount paths of an operator and the buckets there. *)
Notation op := (gmap string string).
Definition bucket (o : op) (p : string) : option string :=
  snd <$> list_find_first (λ e, starts_with e.1 p) (map_to_list o).
(** A call that works on the object at a path. *)
Definition at_path {A} (o : op) (p : string) (f : string * string → M store DalError A) : M store DalError A :=
  match bucket o p with Some b => f (b, p) | None => throw DiskOp.absent end.
Definition below (o : op) (p : string) (w : store) : list (string * DiskOp.meta) :=
  match bucket o p with
  | Some b => map (λ e : (string * string) * node, (e.1.2, DiskOp.meta_of e.2))
                (map_to_list (base.filter (λ e : (string * string) * node, e.1.1 = b ∧ starts_with p e.1.2 = true) w))
  | None => []
  end.

#[local] Instance bucket_ops : OperatorApi op store := {|
  Meta := DiskOp.meta; meta_length := DiskOp.md_len; dir_meta := {| DiskOp.md_dir := true; DiskOp.md_len := 0 |};
  OpWriter := (string * string) * string; OpReader := string;
  with_quota _ o := o; with_read_only o := o; can_copy _ := false; can_rename _ := false;
  op_stat o p := at_path o p (λ c w, (ok_or DiskOp.absent (DiskOp.meta_of <$> w !! c), w));
  op_read o p := at_path o p (λ c w, (ok_or DiskOp.absent (DiskOp.content (w !! c)), w));
  op_write o p d := at_path o p (λ c, modify (insert c (File d)));
  op_delete o p := at_path o p (λ c, modify (delete c));
  op_create_dir o p := at_path o p (λ c w,
    match DiskOp.content (w !! c) with Some _ => (Err DiskOp.absent, w) | None => (Ok (), <[c := Dir]> w) end);
  op_copy _ _ _ := throw DiskOp.unsupported; op_rename _ _ _ := throw DiskOp.unsupported;
  op_lister o p := λ w, (Ok (map Ok (below o p w)), w);
  op_writer o p := at_path o p (λ c w, (Ok (c, ""), <[c := File ""]> w));
  writer_push bs i := λ w, let d := i.2 +:+ bs in (Ok (), ((i.1, d), <[i.1 := File d]> w));
  writer_finish i := λ w, (Ok (DiskOp.meta_of (File i.2)), (i, <[i.1 := File i.2]> w));
  writer_cancel i := λ w, (Ok (), (i, delete i.1 w));
  op_reader o p := at_path o p (λ c w, (ok_or DiskOp.absent (DiskOp.content (w !! c)), w));
  reader_read d from to := λ w, (Ok (String.substring (N.to_nat from) (N.to_nat (to - from)) d), w);
|}.
#[local] Instance bucket_files : FileApi op store := {|
  Time := N; meta_is_dir := DiskOp.md_dir; meta_mtime _ := None;
  op_list_with o p := λ w, (Ok (below o p w), w);
  op_list_all o p := λ w, (Ok (below o p w), w);
  op_delete_all o p := λ w, match bucket o p with
    | Some b => (Ok (), base.filter (λ e : (string * string) * node, ¬ (e.1.1 = b ∧ starts_with p e.1.2 = true)) w)
    | None => (Ok (), w) end;
  disk _ := DiskOp.no_disk; disk_dirs _ := 1;
|}.
Definition root_of (cfg : gmap string string) : string := opt_or "" (cfg !! "root").
#[local] Instance buckets : StoreLib op store := {|
  RepoIndexed := string;
  via_iter sch cfg := Ok {["" := root_of cfg]};
  blocking := Ok; with_logging o := o;
  vfs_operator mounts := omap (λ m : Mount op, operator m !! "") mounts;
  repo_operator src := mret {["" := root_of (rs_config src)]};
  op_list _ _ := mret [];
  open_indexed src := mret (rs_scheme src); init_repo _ := mret ();
  job_open _ _ := mret ""; job_init _ _ := mret "";
  create_dir_all _ := mret (); show_status := message;
|}.
#[local] Instance no_keys : KeyLib store := {|
  RepoNoIndex := string; KeyId := string;
  open_repo_with _ _ _ := throw (repo_err "no repository"); key_id _ := None;
  add_key _ _ := throw (repo_err "no repository"); delete_key _ _ := throw (repo_err "no repository");
|}.
Definition reach (o : op) (x : string * string) : Prop := ∃ mp, o !! mp = Some x.1.
#[local] Instance bucket_cells : Territory op store := {|
  Cell := string * string; Content := node;
  kept_in w x := w !! x;
  area _ cfg x := x.1 = root_of cfg;
  kept P o := ∀ x, reach o x → P x;
  writer_kept P i := P i.1;
  reader_kept _ _ := True;
|}.

Lemma bucket_reached (o : op) (p b q : string) : bucket o p = Some b → reach o (b, q).
Proof.
  unfold bucket. intros ([mp b'] & Hf & ->)%fmap_Some. apply list_find_first_Some in Hf as [Hin _].
  exists mp. by apply elem_of_map_to_list.
Qed.
Lemma at_path_kept {A} (P : string * string → Prop) (o : op) (p : string) (f : string * string → M store DalError A) (Q : A → Prop) :
  (∀ x, reach o x → P x) → (∀ c, P c → confined (world_scope P) (f c) Q) → confined (world_scope P) (at_path o p f) Q.
Proof.
  intros HP Hf. unfold at_path. destruct (bucket o p) as [b|] eqn:E; [|apply confined_throw].
  by eapply Hf, HP, bucket_reached.
Qed.
Lemma below_same (P : string * string → Prop) (o : op) (p : string) (w1 w2 : store) :
  (∀ x, reach o x → P x) → (∀ x, P x → w2 !! x = w1 !! x) → below o p w2 = below o p w1.
Proof.
  intros HP Hw. unfold below. destruct (bucket o p) as [b|] eqn:E; [|done]. f_equal. f_equal.
  apply map_filter_strong_ext. intros [b' q] n. cbn. split; intros [[-> ?] Hn]; (split; [done|]); 
    [rewrite <-Hw|rewrite Hw]; try done; by eapply HP, bucket_reached.
Qed.
Lemma same_cell (P : string * string → Prop) (w1 w2 : store) (c : string * string) :
  alike (world_scope P) w1 w2 → P c → (w2 !! c : option node) = w1 !! c.
Proof. intros Hw. apply Hw. Qed.
(** A read and a write of one cell. *)
Lemma read_kept {A} (P : string * string → Prop) (c : string * string) (f : option node → result DalError A) :
  P c → confined (world_scope P) (λ w : store, (f (w !! c), w)) (λ _, True).
Proof.
  intros Hc w1 w2 _ Hw. cbn. split_and!; try done. by rewrite (same_cell P w1 w2 c).
Qed.
Lemma put_kept (P : string * string → Prop) (c : string * string) (n : node) :
  P c → confined (world_scope P) (modify (insert c n) : M store DalError ()) (λ _, True).
Proof.
  intros Hc. apply confined_modify; [|intros w x Hx; apply lookup_insert_ne; congruence|done].
  intros w1 w2 Hw x Hx. cbn. rewrite !lookup_insert. case_decide; [done|]. by apply Hw.
Qed.
Lemma drop_kept (P : string * string → Prop) (c : string * string) :
  P c → confined (world_scope P) (modify (delete c) : M store DalError ()) (λ _, True).
Proof.
  intros Hc. apply confined_modify; [|intros w x Hx; apply lookup_delete_ne; congruence|done].
  intros w1 w2 Hw x Hx. cbn. rewrite !lookup_delete. case_decide; [done|]. by apply Hw.
Qed.
Lemma list_bucket_kept (P : string * string → Prop) (o : op) (p : string) :
  (∀ x, reach o x → P x) → confined (world_scope P) (λ w : store, (Ok (below o p w) : result DalError _, w)) (λ _, True).
Proof. intros HP w1 w2 _ Hw. cbn. split_and!; try done. f_equal. symmetry. by apply (below_same P). Qed.

Lemma delete_all_spares (b p : string) (w : store) (x : string * string) :
  ¬ (x.1 = b ∧ starts_with p x.2 = true) →
  (base.filter (λ e : (string * string) * node, ¬ (e.1.1 = b ∧ starts_with p e.1.2 = true)) w !! x : option node) = w !! x.
Proof. intros HQ. rewrite map_lookup_filter. destruct (w !! x) as [n|]; [|done]. cbn. by rewrite option_guard_True. Qed.

(** A call on an open writer writes its cell or drops it. *)
Lemma at_cell_kept {A} (P : string * string → Prop) (f : (string * string) * string → result DalError A)
    (g : (string * string) * string → (string * string) * string) (n : (string * string) * string → option node) :
  (∀ i, (g i).1 = i.1) → confined (handle_scope (world_scope P) (λ i : (string * string) * string, P i.1))
    (λ x, (f x.1, (g x.1, partial_alter (λ _, n x.1) x.1.1 x.2))) (λ _, True).
Proof.
  intros Hg [[c d] w1] [i2 w2] [Hc _] [Hi Hw]. cbn in Hc, Hi, Hw. subst i2. cbn. split_and!; try done; [| |by rewrite Hg].
  - intros x Hx. destruct (decide (x = c)) as [->|Hne]; [by rewrite !lookup_partial_alter_eq|].
    rewrite !lookup_partial_alter_ne by done. by apply Hw.
  - intros x Hx. apply lookup_partial_alter_ne. congruence.
Qed.

#[local] Instance bucket_laws : TerritoryLaws (O := op) (W := store).
Proof.
  split.
  - intros P P' o Ho HP x Hx. by apply HP, Ho.
  - intros P sch cfg o [= <-] HP x [mp Hx]. apply HP. by apply lookup_singleton_Some in Hx as [_ ?].
  - by intros P o o' [= <-].
  - done.
  - done.
  - intros P mounts Hm _ x [mp Hx]. cbn in Hx. apply lookup_omap_Some in Hx as (m & Hmp & Hin). apply (Hm mp m Hin). by exists "".
  - intros P src HP. apply confined_ret. intros x [mp Hx]. by apply lookup_singleton_Some in Hx as [_ ?].
  - intros. by apply confined_ret.
  - intros. by apply confined_ret.
  - intros. by apply confined_ret.
  - intros P op p HP. apply (at_path_kept P); [done|]. intros c Hc.
    by apply (read_kept P c (λ n, ok_or DiskOp.absent (DiskOp.meta_of <$> n))).
  - intros P op p HP. apply (at_path_kept P); [done|]. intros c Hc.
    by apply (read_kept P c (λ n, ok_or DiskOp.absent (DiskOp.content n))).
  - intros P op p d HP. apply (at_path_kept P); [done|]. intros c Hc. by apply (put_kept P).
  - intros P op p HP. apply (at_path_kept P); [done|]. intros c Hc.
    apply (confined_look (world_scope P) (λ w : store, DiskOp.content (w !! c)) (λ n w,
      match n with Some _ => (Err DiskOp.absent, w) | None => modify (insert c Dir) w end)).
    { intros w1 w2 Hw. by rewrite (same_cell P w1 w2 c). }
    intros w _. destruct (DiskOp.content _); [apply confined_throw|by apply (put_kept P)].
  - intros P op p HP. apply (at_path_kept P); [done|]. intros c Hc. by apply (drop_kept P).
  - intros P op p HP. cbn. destruct (bucket op p) as [b|] eqn:E; [|by apply confined_ret].
    apply (confined_modify (world_scope P)); [|intros w x Hx|done].
    + intros w1 w2 Hw x Hx. cbn. by rewrite !map_lookup_filter, (same_cell P w1 w2 x).
    + apply (delete_all_spares b p w x). intros [Hb _]. apply Hx, HP. destruct x as [b' q]. cbn in Hb. subst b'.
      by eapply bucket_reached.
  - intros. apply confined_throw.
  - intros. apply confined_throw.
  - intros P op p HP. by apply (list_bucket_kept P).
  - intros P op p HP. by apply (list_bucket_kept P).
  - intros P op p HP w1 w2 _ Hw. cbn. split_and!; try done. do 2 f_equal. symmetry. by apply (below_same P).
  - intros P op p HP. apply (at_path_kept P); [done|]. intros c Hc. eapply confined_weaken; [|done].
    by apply (read_kept P c (λ n, ok_or DiskOp.absent (DiskOp.content n))).
  - intros. by apply confined_ret.
  - intros P op p HP. apply (at_path_kept P); [done|]. intros c Hc.
    intros w1 w2 _ Hw. destruct (put_kept P c (File "") Hc w1 w2 I Hw) as (_ & Ha & Hi & _).
    split; [done|]. split; [exact Ha|]. split; [exact Hi|]. split; [done|]. by intros i [= <-].
  - intros P bs. by apply (at_cell_kept P (λ _, Ok ()) (λ i, (i.1, i.2 +:+ bs)) (λ i, Some (File (i.2 +:+ bs)))).
  - intros P. by apply (at_cell_kept P (λ i, Ok (DiskOp.meta_of (File i.2))) (λ i, i) (λ i, Some (File i.2))).
  - intros P. by apply (at_cell_kept P (λ _, Ok ()) (λ i, i) (λ _, None)).
Qed.

(** Ann and bob, each with a bucket; then ann is moved to another bucket. *)
Definition docs (i : t) (root : string) : VfsPoint :=
  {| pt_id := i; Points.name := "docs"; max_bytes := None; Points.read_only := false; scheme := "fs";
     config := {["root" := root]}; is_repo := false; repo_password := None |}.
Definition ann (root : string) : VfsUser := {| username := "ann"; points := [docs id1 root] |}.
Definition bob : VfsUser := {| username := "bob"; points := [docs id2 "b"] |}.
#[local] Instance demo_json : JsonLib := {|
  to_json ps := if bool_decide (ps = points (ann "a")) then Ok "a" else if bool_decide (ps = points (ann "c")) then Ok "c"
                else if bool_decide (ps = points bob) then Ok "b" else Err "unsupported";
  from_json s := if bool_decide (s = "a") then Ok (points (ann "a")) else if bool_decide (s = "c") then Ok (points (ann "c"))
                 else if bool_decide (s = "b") then Ok (points bob) else Err "malformed";
|}.
#[local] Instance demo_json_laws : JsonLaws.
Proof. split. intros ps s. cbn. repeat case_bool_decide; intros [= <-]; by subst. Qed.

Definition wire (i : t) (root : string) : ProtoVfsPoint :=
  {| pv_id := proj1_sig i; pv_name := "docs"; pv_max_bytes := 0; pv_can_write := true;
     pv_src := Some (Users.Data {| pp_scheme := "fs"; pp_config := ∅; pp_root := root |}) |}.
Definition moved : list ProtoVfsUser :=
  [{| pu_name := "ann"; pu_points := [wire id1 "c"] |}; {| pu_name := "bob"; pu_points := [wire id2 "b"] |}].
Definition y0 : Server (O := op) (W := store) :=
  {| storage := {| world := {[("a", "/points/docs/x") := File "old"]}; repos := ∅; repo_vfs_ops := ∅; data_ops := ∅;
                   vfs_ops := ∅; degraded_ops := ∅; health := ∅; vfs_generation := ∅; refreshing := ∅; events := [] |};
     quota := qs_new {| users_t := {["ann" := "a"; "bob" := "b"]}; quota_t := ∅; faults := [] |};
     jobs := ∅; write_handles := ∅; read_handles := ∅ |}.
Definition x_of (n : string) : PathArg := {| pa_user := n; pa_path := Some (VirtualPath "/points/docs/x") |}.
Definition y1 : Server (O := op) (W := store) := (answer Exists (x_of "ann") y0).2.
Definition y2 : Server (O := op) (W := store) := (answer Touch (x_of "bob") y1).2.
Definition y3 : Server (O := op) (W := store) := (set_vfs moved y2).2.

Definition tables (y : Server (O := op) (W := store)) : option op * option op :=
  (vfs_ops (storage y) !! "ann", vfs_ops (storage y) !! "bob").
Example asked :
  (answer Exists (x_of "ann") y0).1 = Ok (Flag true) ∧ (answer Touch (x_of "bob") y1).1 = Ok Done ∧
  tables y2 = (Some {["/points/docs" := "a"]}, Some {["/points/docs" := "b"]}) ∧
  (set_vfs moved y2).1 = Ok () ∧ tables y3 = (None, Some {["/points/docs" := "b"]}) ∧
  (answer Exists (x_of "ann") y3).1 = Ok (Flag false).
Proof. split_and!; reflexivity. Qed.

Lemma moved_on : rtc happens y0 y3.
Proof.
  eapply rtc_l; [apply (asks Exists (x_of "ann") y0 (answer Exists (x_of "ann") y0).1 y1), surjective_pairing|].
  eapply rtc_l; [apply (asks Touch (x_of "bob") y1 (answer Touch (x_of "bob") y1).1 y2), surjective_pairing|].
  apply rtc_once, (replaces moved y2 (set_vfs moved y2).1 y3), surjective_pairing.
Qed.
Lemma covers_ann us x : configured_as us y3 → x.1 ≠ "c" → ¬ covers us "ann" x.
Proof.
  intros [Hc _] Hx. assert (Hus : collect user_of_row (rows (users_t (tracker (quota y3)))) = Ok [ann "c"; bob]) by reflexivity.
  rewrite Hus in Hc. injection Hc as <-. intros (u & p & Hu & Hn & Hp & Ha).
  apply elem_of_cons in Hu as [->|Hu]; [|by apply list_elem_of_singleton in Hu as ->].
  apply list_elem_of_singleton in Hp as ->. by apply Hx.
Qed.
Lemma c_empty (n1 n2 : node) q : ({[("a", "/points/docs/x") := n1; ("b", "/points/docs/x") := n2]} : store) !! ("c", q) = None.
Proof. by rewrite lookup_insert_ne, lookup_singleton_ne. Qed.
Lemma world_now : world (storage y3) = {[("a", "/points/docs/x") := File "old"; ("b", "/points/docs/x") := File ""]}.
Proof. reflexivity. Qed.
(** What ann asks for now neither touches nor sees the bucket she had before. *)
Definition other_world : store := {[("a", "/points/docs/x") := File "changed"; ("b", "/points/docs/x") := File "bobs"]}.
Lemma tenants_are_isolated_witness :
  kept_in (world (storage (answer Touch (x_of "ann") y3).2)) ("a", "/points/docs/x") = Some (File "old") ∧
  (answer Stat (x_of "ann") (with_storage (set_world other_world (storage y3)) y3)).1 = (answer Stat (x_of "ann") y3).1.
Proof.
  destruct (tenants_are_isolated y0 y3 [ann "a"; bob]) as (us & Hc & _ & Hall).
  - split; [reflexivity|]. split; [by apply (bool_decide_unpack _)|]. split; [|reflexivity].
    repeat constructor; first [reflexivity | by apply (bool_decide_unpack _)].
  - reflexivity.
  - reflexivity.
  - reflexivity.
  - apply moved_on.
  - split.
    + destruct (Hall Touch (x_of "ann")) as [Hkept _].
      refine (eq_trans (Hkept ("a", "/points/docs/x") _) _); [by apply covers_ann|reflexivity].
    + destruct (Hall Stat (x_of "ann")) as [_ Hsame]. refine (proj1 (Hsame _ _)). exists other_world.
      split; [reflexivity|]. intros x Hx. destruct (decide (x.1 = "c")) as [Hb|Hb]; [|by destruct (covers_ann us x Hc Hb)].
      destruct x as [b q]. cbn in Hb. subst b. rewrite world_now. exact (eq_trans (c_empty _ _ q) (eq_sym (c_empty _ _ q))).
Defined.
End DemoTenants.
