(* ===== verification/Process.v ===== *)
(** * The process ([main.rs])

    From the command line to the exit code: the environment variable for backtraces, the
    loggers, the database and the server ([Startup]), the listener, and the shutdown that
    tells the jobs to stop and closes the files. The listener (tonic's) and the installation
    of the loggers (simplelog's and log's) are third-party: [serve] is any computation on the
    server's state, as all requests and jobs together are, that works on totals through the
    quota engine's own calls. *)

From S2P Require Import Prelude.
From S2P Require Import RustStr.
From S2P Require Import Errors.
From S2P Require Import QuotaCounter.
From S2P Require Import QuotaState.
From S2P Require Import Mounts.
From S2P Require Import Points.
From S2P Require Import Users.
From S2P Require Import Db.
From S2P Require Import Store.
From S2P Require Import SetVfs.
From S2P Require Import Logging.
From S2P Require Import Requests.
From S2P Require Import Handles.
From S2P Require Import Snapshots.
From S2P Require Import Startup.
From stdpp Require Import options.
Close Scope string_scope.

Section Process.
Context {O W : Type} `{OA : OperatorApi O W} `{FA : !FileApi O W} `{SL : !StoreLib O W} `{SN : !SnapLib O W} `{LA : !LocalApi W}.
Context `{JL : JsonLib} `{Foreign}.
Notation Server := (Server (O := O) (W := W)).
Notation Handles := (Handles (O := O) (W := W)).

(** What a server keeps: its open handles and listings. *)
Record Running := { handles : Handles; listings : gmap RepoSource (list SnapshotInfo) }.
Definition running (s : Snaps (O := O) (W := W)) : Running :=
  {| handles := {| Handles.srv := Snapshots.srv s; open_writes := ∅; writes := ∅; open_reads := ∅; reads := ∅; now := 0 |};
     listings := snapshot_cache s |}.

(** The host: its files, the database file, the variables and globals the process sets, and
    the server it leaves. *)
Record Host := {
  files : W;
  db_file : DbFile;
  rust_backtrace : option string;
  max_level : LevelFilter;
  left : option Running;
}.
Implicit Types (h : Host) (a : Args) (y : Running).
Definition set_files w h : Host :=
  {| files := w; db_file := db_file h; rust_backtrace := rust_backtrace h; max_level := max_level h; left := left h |}.
Definition set_db_file f h : Host :=
  {| files := files h; db_file := f; rust_backtrace := rust_backtrace h; max_level := max_level h; left := left h |}.
Definition set_backtrace v h : Host :=
  {| files := files h; db_file := db_file h; rust_backtrace := Some v; max_level := max_level h; left := left h |}.
Definition set_max_level l h : Host :=
  {| files := files h; db_file := db_file h; rust_backtrace := rust_backtrace h; max_level := l; left := left h |}.
Definition server_of y : Server := Handles.srv (handles y).
(** The server is gone; its storage and its database file are what is left: what the engine
    had not written back goes with it. *)
Definition leave y h : Host :=
  {| files := Store.world (storage (server_of y)); db_file := file_of (tracker (quota (server_of y)));
     rust_backtrace := rust_backtrace h; max_level := max_level h; left := Some y |}.

(** [OpenOptions::create().append().open], [log::set_boxed_logger] with a terminal logger
    and a file logger of one level, [SocketAddr]'s parser and the listener. *)
Variable open_append : string → M W IoError ().
Variable set_boxed_logger : LevelFilter → option string → M W string ().
Variable show_io : IoError → string.
Variable parse_addr : string → result string ().
Variable serve : string → M Running string ().

Definition on_files {A} (m : M W string A) : M Host string A := λ h,
  let '(r, w) := m (files h) in (r, set_files w h).
Definition on_db {A} (m : M DbFile VfsError A) : M Host string A := λ h,
  let '(r, f) := m (db_file h) in (map_err vfs_error_to_string r, set_db_file f h).

Definition initialize_logging (level : LevelFilter) (log_file : option string) : M Host string () :=
  _ ← match log_file with
      | Some path =>
        _ ← match parent path with
            | Some dir => if bool_decide (dir = "")%string then mret () else on_files (m_map_err show_io (fs_create_dir_all dir))
            | None => mret ()
            end;
        on_files (m_map_err show_io (open_append path))
      | None => mret ()
      end;
  _ ← on_files (set_boxed_logger level log_file);
  modify (set_max_level level).

(** [GrpcServer::shutdown] *)
Definition tell_to_stop (j : JobHandle) : JobHandle := {| job_user := job_user j; cancelled := true |}.
Definition stop_jobs (y : Server) : Server :=
  {| storage := storage y; quota := quota y; jobs := tell_to_stop <$> jobs y;
     write_handles := write_handles y; read_handles := read_handles y |}.
Definition shutdown_server (y : Running) : Running :=
  {| handles := (Handles.shutdown (set_srv (stop_jobs (server_of y)) (handles y))).2; listings := listings y |}.

(** [run]; an address that does not parse is found after the database was opened, and the
    server is shut down however the listener ended. *)
Definition listen (addr : string) (s : Snaps (O := O) (W := W)) : M Host string () := λ h,
  let '(r, y) := serve addr (running s) in (r, leave (shutdown_server y) h).
Definition run a : M Host string () :=
  w ← gets files;
  s ← on_db (start (db_path a) w);
  _ ← lift (parse_addr (grpc_addr a));
  listen (grpc_addr a) s.

(** [main]: the exit code. *)
Definition log_path a : option string := if no_log_file a then None else Some (log_file a).
Definition main a h : N * Host :=
  let h := set_backtrace (if backtrace_enabled a then "1" else "0")%string h in
  match initialize_logging (effective_log_level a) (log_path a) h with
  | (Err _, h) => (1%N, h)
  | (Ok _, h) =>
    match run a h with
    | (Err _, h) => (1%N, h)
    | (Ok _, h) => (0%N, h)
    end
  end.

(** ** What a process leaves *)

(** No write or read handle is open, whoever still holds one finds it expired, and every job
    is told to stop. *)
Definition at_rest y : Prop :=
  (∀ id g, writes (handles y) !! id = Some g → id ∉ open_writes (handles y)) ∧ open_reads (handles y) = ∅ ∧
  (∀ id j, jobs (server_of y) !! id = Some j → cancelled j = true).
Definition expired_since y y' : Prop :=
  (∀ id g, writes (handles y) !! id = Some g → ∃ g', writes (handles y') !! id = Some g' ∧ wh_path g' = wh_path g ∧
     wh_len g' = wh_len g ∧ (id ∈ open_writes (handles y) → wh_expired g' = true)) ∧
  (∀ key i g, open_reads (handles y) !! key = Some i → reads (handles y) !! i = Some g →
     ∃ g', reads (handles y') !! i = Some g' ∧ rh_expired g' = true).

Implicit Types (s : Handles).
(** A call on a file moves the disk only. *)
Definition moved (w : W) s : Handles :=
  set_srv {| storage := set_world w (storage (Handles.srv s)); quota := quota (Handles.srv s); jobs := jobs (Handles.srv s);
             write_handles := write_handles (Handles.srv s); read_handles := read_handles (Handles.srv s) |} s.
Lemma io_moves {A} (m : M W IoError A) s r s' : io m s = (r, s') → ∃ w, s' = moved w s.
Proof using Type.
  unfold io, in_server, on_disk, in_storage, Store.on_world, m_map_err. destruct (m _) as [r0 w]. intros [= _ <-]. by exists w.
Qed.
Lemma finalize_moves f s r s' : finalize_write_state f s = (r, s') → ∃ w, s' = moved w s.
Proof using Type.
  unfold finalize_write_state. intros [(e & [w ->]%io_moves & ->)|(u & s1 & [w1 ->]%io_moves & [w2 ->]%io_moves)]%bind_inv.
  - by exists w.
  - by exists w2.
Qed.

(** Closing [ids] moves the disk and marks these handles. *)
Definition closed (ids : list Uuid) s s' : Prop :=
  ∃ w m, s' = moved w (set_writes (open_writes s) m s) ∧
    ∀ id, m !! id = if decide (id ∈ ids) then set_expired <$> writes s !! id else writes s !! id.
Lemma closed_trans ids1 ids2 s1 s2 s3 : closed ids1 s1 s2 → closed ids2 s2 s3 → closed (ids1 ++ ids2) s1 s3.
Proof using Type.
  intros (w1 & m1 & -> & H1) (w2 & m2 & -> & H2). exists w2, m2. split; [done|]. intros id. rewrite H2. cbn. rewrite H1.
  destruct (decide (id ∈ ids2)), (decide (id ∈ ids1)), (decide (id ∈ ids1 ++ ids2)) as [Hin|Hin];
    rewrite ?elem_of_app in Hin; try tauto; try done. by destruct (writes s1 !! id).
Qed.
Lemma close_closed id s r s' : close_write_handle id s = (r, s') → closed [id] s s'.
Proof using Type.
  unfold close_write_handle. destruct (writes s !! id) as [g|] eqn:E.
  - unfold ignore. destruct (finalize_write_state _ _) as [r0 s0] eqn:Ef. apply finalize_moves in Ef as [w ->].
    intros [= _ <-]. exists w, (alter set_expired id (writes s)). split; [done|]. intros id'.
    rewrite lookup_alter. destruct (decide (id = id')) as [->|Hne]; [by rewrite decide_True by by left|].
    by rewrite decide_False by (rewrite list_elem_of_singleton; congruence).
  - intros [= _ <-]. exists (disk_of s), (writes s). split; [by destruct s as [[[]]]|]. intros id'.
    case_decide as Hin; [|done]. apply list_elem_of_singleton in Hin as ->. by rewrite E.
Qed.
Lemma close_all_closed ids s r s' : close_all ids s = (r, s') → closed ids s s'.
Proof using Type.
  revert s. induction ids as [|id ids IH]; intros s.
  - intros [= _ <-]. exists (disk_of s), (writes s). by split; [destruct s as [[[]]]|].
  - cbn. intros [(e & E & _)|([] & s1 & E%close_closed & Hr%IH)]%bind_inv; [|by eapply (closed_trans [id])].
    unfold close_write_handle, ignore in E. repeat case_match; simplify_eq.
Qed.

(** Dropping read handles. *)
Lemma drop_read_step key s i g :
  reads s !! i = Some g → ∃ g', reads (drop_read key s) !! i = Some g' ∧
    (rh_expired g = true ∨ open_reads s !! key = Some i → rh_expired g' = true).
Proof using Type.
  intros Hg. unfold drop_read. destruct (open_reads s !! key) as [j|] eqn:E; [|by exists g; split; [|intros [?|?]]].
  cbn. rewrite lookup_alter. destruct (decide (j = i)) as [->|Hne]; [rewrite Hg; by exists (expire_read g)|].
  exists g. split; [done|]. intros [?|[= ?]]; congruence.
Qed.
Lemma drop_read_others key key' s :
  open_reads (drop_read key s) !! key' = if decide (key = key') then None else open_reads s !! key'.
Proof using Type.
  unfold drop_read. destruct (open_reads s !! key) eqn:E; cbn; [apply lookup_delete|]. by case_decide; [subst|].
Qed.
Lemma drop_reads_expire keys s i g :
  reads s !! i = Some g → ∃ g', reads (foldl (λ s key, drop_read key s) s keys) !! i = Some g' ∧
    (rh_expired g = true ∨ (∃ key, key ∈ keys ∧ open_reads s !! key = Some i) → rh_expired g' = true).
Proof using Type.
  revert s g. induction keys as [|key keys IH]; intros s g Hg; cbn [foldl].
  { exists g. split; [done|]. intros [?|(key & []%elem_of_nil & _)]. done. }
  destruct (drop_read_step key s i g Hg) as (g1 & Hg1 & He1). destruct (IH _ _ Hg1) as (g2 & Hg2 & He2).
  exists g2. split; [done|]. intros [He|(key' & [->|Hin]%elem_of_cons & Hk)]; apply He2; [left; auto..|].
  destruct (decide (key = key')) as [->|Hne]; [left; auto|]. right. exists key'. split; [done|].
  by rewrite drop_read_others, decide_False.
Qed.
Lemma drop_reads_gone keys s key :
  open_reads (foldl (λ s key, drop_read key s) s keys) !! key = if decide (key ∈ keys) then None else open_reads s !! key.
Proof using Type.
  revert s. induction keys as [|k keys IH]; intros s; cbn [foldl]; [done|]. rewrite IH, drop_read_others.
  destruct (decide (key ∈ keys)) as [Hin|Hin]; [by rewrite decide_True by (by right)|].
  destruct (decide (k = key)) as [->|Hne]; [by rewrite decide_True by (by left)|].
  rewrite decide_False; [done|]. intros [->|?]%elem_of_cons; [by destruct Hne|by destruct Hin].
Qed.
Lemma drop_reads_same keys s :
  let s' := foldl (λ s key, drop_read key s) s keys in
  writes s' = writes s ∧ open_writes s' = open_writes s ∧ Handles.srv s' = Handles.srv s.
Proof using Type.
  revert s. induction keys as [|key keys IH]; intros s; cbn [foldl]; [done|].
  destruct (IH (drop_read key s)) as (-> & -> & ->). by destruct (drop_read_same key s) as (-> & -> & -> & _).
Qed.

Lemma close_all_ok ids s : (close_all ids s).1 = Ok ().
Proof using Type.
  revert s. induction ids as [|id ids IH]; intros s; [done|]. cbn. unfold mbind, M_bind, close_write_handle, ignore.
  destruct (writes s !! id) as [g|]; [|apply IH]. destruct (finalize_write_state _ _) as [r s1]. apply IH.
Qed.
(** Every handle on the map is one that is closed. *)
Lemma all_writes_closed s id g : writes s !! id = Some g → id ∈ writes_where (λ _, true) s ↔ id ∈ open_writes s.
Proof using Type.
  intros Hg. unfold writes_where. rewrite list_elem_of_In, filter_In, <-list_elem_of_In, elem_of_elements, Hg.
  split; [by intros [? _]|done].
Qed.
Lemma all_reads_closed s key : key ∈ map fst (map_to_list (open_reads s)) ↔ is_Some (open_reads s !! key).
Proof using Type.
  rewrite list_elem_of_fmap. split.
  - intros ([key' i] & -> & Hin%elem_of_map_to_list). by exists i.
  - intros [i Hi]. exists (key, i). split; [done|]. by apply elem_of_map_to_list.
Qed.

(** [GrpcServer::shutdown] leaves a server at rest: only the disk, the marks and the tokens
    have moved. *)
Lemma shutdown_rests y :
  let y' := shutdown_server y in
  at_rest y' ∧ expired_since y y' ∧ quota (server_of y') = quota (server_of y) ∧ listings y' = listings y.
Proof using Type.
  cbn zeta. set (s := set_srv (stop_jobs (server_of y)) (handles y)). set (ids := writes_where (λ _, true) s).
  destruct (close_all ids (forget_writes ids s)) as [r s1] eqn:E.
  pose proof (close_all_ok ids (forget_writes ids s)) as Hr. rewrite E in Hr. cbn in Hr. subst r.
  assert (Hy : shutdown_server y = {| handles := foldl (λ s key, drop_read key s) s1 (map fst (map_to_list (open_reads s1)));
                                      listings := listings y |}).
  { unfold shutdown_server, Handles.shutdown, close_where, mbind, M_bind. fold s. fold ids. by rewrite E. }
  rewrite Hy. clear Hy. apply close_all_closed in E as (w & m & -> & Hm).
  set (s1 := moved w (set_writes (open_writes (forget_writes ids s)) m (forget_writes ids s))).
  destruct (drop_reads_same (map fst (map_to_list (open_reads s1))) s1) as (Hw & Ho & Hs).
  unfold at_rest, expired_since, server_of. cbn [handles listings]. rewrite Hw, Ho, Hs. cbn. split_and!; try done.
  - intros id g Hg [Hin Hn]%elem_of_difference. rewrite elem_of_list_to_set in Hn. apply Hn.
    rewrite Hm in Hg. cbn in Hg. destruct (writes (handles y) !! id) as [g0|] eqn:E; [|by case_decide].
    by apply (all_writes_closed s id g0).
  - apply map_eq. intros key. rewrite drop_reads_gone, lookup_empty. case_decide as Hk; [done|].
    rewrite all_reads_closed in Hk. by apply eq_None_not_Some in Hk.
  - intros id j. rewrite lookup_fmap. by intros (j0 & _ & ->)%fmap_Some.
  - intros id g Hg. rewrite Hm. cbn. rewrite Hg. cbn. case_decide as Hin; (eexists; split; [done|]); split_and!; try done.
    intros Ho'. destruct Hin. by apply (all_writes_closed s id g).
  - intros key i g Hk Hg. destruct (drop_reads_expire (map fst (map_to_list (open_reads s1))) s1 i g Hg) as (g' & Hg' & He).
    exists g'. split; [done|]. apply He. right. exists key. split; [|done]. apply all_reads_closed. by exists i.
Qed.

(** Before it listens, a process changes neither users nor totals. *)
Definition tables (f : DbFile) : gmap string string * gmap string Z := (opt_or ∅ (f_users f), opt_or ∅ (f_quota f)).
Definition not_serving h0 h : Prop :=
  left h = None ∧ tables (db_file h) = tables (db_file h0) ∧ rust_backtrace h = rust_backtrace h0.
Lemma on_files_triple {A} h0 (m : M W string A) : triple (not_serving h0) (on_files m) (λ _, not_serving h0) (not_serving h0).
Proof using Type. intros h Hh. unfold on_files. by destruct (m (files h)) as [[r|e] w]. Qed.
Lemma logging_triple h0 l p :
  triple (not_serving h0) (initialize_logging l p) (λ _, not_serving h0) (not_serving h0).
Proof using Type.
  unfold initialize_logging. eapply (triple_bind _ _ (λ _, not_serving h0)).
  - destruct p as [p|]; [|by apply triple_ret]. eapply (triple_bind _ _ (λ _, not_serving h0)); [|intros; apply on_files_triple].
    destruct (parent p); [|by apply triple_ret]. case_bool_decide; [by apply triple_ret|apply on_files_triple].
  - intros _. step ltac:(apply on_files_triple). by intros h Hh.
Qed.

(** What a listener was given, what it made of it, and what [run] leaves. *)
Definition served a h y (h' : Host) (r : result string ()) : Prop :=
  ∃ w begun f1, start (db_path a) w (db_file h) = (Ok begun, f1) ∧ serve (grpc_addr a) (running begun) = (r, y) ∧
    left h' = Some (shutdown_server y) ∧ db_file h' = file_of (tracker (quota (server_of y))) ∧ rust_backtrace h' = rust_backtrace h.
Lemma run_spec a h r h' :
  left h = None → run a h = (r, h') →
  not_serving h h' ∧ is_ok r = false ∨ ∃ y, served a h y h' r.
Proof using Type.
  intros Hl. unfold run, gets, on_db. intros [(e & [=] & _)|(w & h1 & [= <- <-] & Hr)]%bind_inv.
  destruct (start (db_path a) (files h) (db_file h)) as [r0 f1] eqn:Es.
  assert (Hf : tables f1 = tables (db_file h)).
  { unfold start in Es. assert (∃ r1, open_db (db_path a) (db_file h) = (r1, f1)) as [r1 Ho].
    { apply bind_inv in Es as [(e' & Es & _)|(db & f2 & Es & [= _ <-])]; eauto. }
    apply open_db_inv in Ho as [(Hu & Hq & _) _]. unfold tables. by rewrite Hu, Hq. }
  apply bind_inv in Hr as [(e & Ho & ->)|(begun & h2 & Ho & Hr)]; rewrite Es in Ho; injection Ho as Hr0 <-; [by left; split; [split|]|].
  destruct r0 as [begun'|]; [|done]. injection Hr0 as ->.
  apply bind_inv in Hr as [(e & [= _ <-] & ->)|(u & h3 & [= _ <-] & Hr)]; [by left|].
  unfold listen in Hr. destruct (serve _ _) as [r3 y] eqn:Ey. injection Hr as <- <-. right. exists y, (files h), begun, f1.
  split_and!; try done. cbn. by destruct (shutdown_rests y) as (_ & _ & -> & _).
Qed.

(** What happens to the engine and the database under it: a call or background pass of the
    engine, or an access to the other tables. *)
Inductive quota_step : QuotaState DbManager → QuotaState DbManager → Prop :=
| engine_call c q r q' : perform c q = (r, q') → quota_step q q'
| other_table q db : quota_t db = quota_t (tracker q) → quota_step q {| tracker := db; buckets := buckets q |}.
Lemma quota_steps_synced q q' : rtc quota_step q q' → synced q → synced q'.
Proof using Type.
  induction 1 as [q|q q1 q' [c q0 r q2 Hp|q0 db Hd] _ IH]; intros Hs; [done|apply IH..].
  - by apply perform_spec in Hp as [? _].
  - intros id c Hc Hb. cbn in *. rewrite Hd. by apply Hs.
Qed.

(** The listener's requests and jobs use the engine through its methods. *)
Hypothesis serve_quota : ∀ addr y r y',
  serve addr y = (r, y') → rtc quota_step (quota (server_of y)) (quota (server_of y')).
(** Nothing of the total of [id] waits for the background pass. *)
Definition written_back id (q : QuotaState DbManager) : Prop :=
  ∀ c, buckets q !! id = Some (Some c) → QuotaCounter.dirty c = false.

(** A server started from the file of [q] has the users of [q] and the totals last written
    back, which are the live ones where nothing waits to be written. *)
Lemma next_process (q : QuotaState DbManager) path w next f :
  start path w (file_of (tracker q)) = (Ok next, f) → synced q →
  users_t (tracker (quota (Snapshots.srv next))) = users_t (tracker q) ∧
  ∀ id, live (quota (Snapshots.srv next)) id = opt_or 0%N (QuotaState.stored (tracker q) id) ∧
    (written_back id q → live (quota (Snapshots.srv next)) id = live q id).
Proof using Type.
  intros (db & -> & Hu & Hq)%start_inv Hs. cbn in Hu, Hq. split; [done|]. intros id. cbn [quota Snapshots.srv new_server].
  assert (Hl : live (qs_new db) id = opt_or 0%N (QuotaState.stored (tracker q) id)).
  { unfold live, qs_new. cbn. rewrite lookup_empty. by rewrite Hq. }
  split; [done|]. intros Hw. rewrite Hl. by rewrite <-(restart_live q id Hs Hw).
Qed.

(** C32. A process exits with 0 or 1, and with 0 only if its listener ended without an error. If
    it never listened - the log file or the database could not be opened, the address is
    malformed - the users and totals in the database file are as they were. If it did, then
    however the listener ended, no handle is open any more and every handle that was is
    marked for whoever still holds it, and every job is told to stop. A process started from
    what is left finds the users of the listener's last moment and the totals the background
    pass last wrote back: the live ones, except that what a total changed by since that pass
    is lost ([unsynchronised_totals_are_lost]: the shutdown runs no such pass). *)
Theorem process_ends_at_rest a h code h' :
  left h = None → main a h = (code, h') →
  rust_backtrace h' = Some (if backtrace_enabled a then "1" else "0")%string ∧
  match left h' with
  | None => code = 1%N ∧ tables (db_file h') = tables (db_file h)
  | Some y' => ∃ y r, y' = shutdown_server y ∧ code = (if is_ok r then 0 else 1)%N ∧
      (∃ f begun w f1, tables f = tables (db_file h) ∧ start (db_path a) w f = (Ok begun, f1) ∧
         serve (grpc_addr a) (running begun) = (r, y)) ∧
      at_rest y' ∧ expired_since y y' ∧
      ∀ path w next f2, start path w (db_file h') = (Ok next, f2) →
        users_t (tracker (quota (Snapshots.srv next))) = users_t (tracker (quota (server_of y))) ∧
        ∀ id, live (quota (Snapshots.srv next)) id = opt_or 0%N (QuotaState.stored (tracker (quota (server_of y))) id) ∧
          (written_back id (quota (server_of y)) → live (quota (Snapshots.srv next)) id = live (quota (server_of y)) id)
  end.
Proof using serve_quota.
  intros Hl. unfold main. set (h0 := set_backtrace _ h).
  pose proof (logging_triple h0 (effective_log_level a) (log_path a) h0 ltac:(by split)) as Hi.
  destruct (initialize_logging _ _ h0) as [[u|e] h1]; destruct Hi as (Hl1 & Ht1 & Hb1).
  2: { intros [= <- <-]. split; [by rewrite Hb1|]. by rewrite Hl1. }
  destruct (run a h1) as [r h2] eqn:Er.
  apply run_spec in Er as [[(Hl2 & Ht2 & Hb2) Hr]|(y & w & begun & f1 & Hs & Hy & Hl2 & Hd & Hb2)]; [| |done].
  { destruct r; [done|]. intros [= <- <-]. split; [by rewrite Hb2, Hb1|]. rewrite Hl2. split; [done|]. by rewrite Ht2. }
  intros Hm. assert (h2 = h' ∧ code = (if is_ok r then 0 else 1)%N) as [-> ->] by (destruct r; by injection Hm).
  split; [by rewrite Hb2, Hb1|]. rewrite Hl2. exists y, r. destruct (shutdown_rests y) as (Hrest & Hexp & _).
  split_and!; try apply Hrest; try apply Hexp; try done.
  - by exists (db_file h1), begun, w, f1.
  - intros path w' next f2 Hn. rewrite Hd in Hn. apply (next_process _ _ _ _ _ Hn).
    apply (quota_steps_synced _ _ (serve_quota _ _ _ _ Hy)). apply start_inv in Hs as (db & -> & _). apply synced_new.
Qed.
End Process.

(** ** A concrete process *)

(** A client opens a file and the connection breaks; on another host the log cannot be
    opened. *)
Module DemoProcess.
Import PlainUuid.
Import DiskOp.
Import (hints) DiskOp.
Import DemoHandles.
Import (hints) DemoHandles.
Open Scope string_scope.
#[local] Existing Instance plain_foreign.
#[local] Instance listings_of : SnapLib op store := DemoSnapshots.demo_snaps.

Notation Running := (Running (O := op) (W := store)).
Notation Host := (Host (O := op) (W := store)).
Definition host : Host :=
  {| files := {[("", "/srv/docs") := Dir]};
     db_file := {| f_users := Some {["ann" := "ann"]}; f_passwords := None; f_quota := None; f_faults := [] |};
     rust_backtrace := None; max_level := Off; left := None |}.
Definition with_log (path : string) : Args :=
  {| db_path := Some "vfs.sqlite"; grpc_addr := "[::1]:8080"; log_level := ArgInfo; verbose := 1; log_file := path;
     no_log_file := false; backtrace := true; no_backtrace := false |}.
Definition open_append (path : string) : M store IoError () :=
  if bool_decide (path = "logs/vfs.log") then mret () else throw refused.
Definition install (l : LevelFilter) (path : option string) : M store string () := mret ().
(** 40 bytes are charged and written back; 30 more are charged before the background pass
    comes round again. *)
Definition charges : list call := [Commit "ann-1" 100 0 40; SyncPass; Commit "ann-1" 100 0 30].
Definition serve (addr : string) : M Running string () := λ y,
  let s := (vfs_open_write (to_write "/points/docs/a/x") h1 (handles y)).2 in
  (Err "connection reset",
   {| handles := set_srv {| storage := storage (Handles.srv s); quota := (perform_all charges (quota (server_of y))).2;
                            jobs := jobs (Handles.srv s); write_handles := write_handles (Handles.srv s);
                            read_handles := read_handles (Handles.srv s) |} s;
      listings := listings y |}).
Lemma perform_all_steps calls q : rtc quota_step q (perform_all calls q).2.
Proof.
  revert q. induction calls as [|c calls IH]; intros q; [done|]. cbn. destruct (perform c q) as [r q1] eqn:E.
  specialize (IH q1). destruct (perform_all calls q1) as [tr q2]. eapply rtc_l; [by eapply engine_call|exact IH].
Qed.
Lemma serve_quota addr y r y' :
  serve addr y = (r, y') → rtc quota_step (quota (server_of y)) (quota (server_of y')).
Proof. intros [= _ <-]. apply (perform_all_steps charges). Qed.
Definition process (a : Args) : N * Host := main open_append install io_text (λ _, Ok ()) serve a host.

Example exit_codes :
  (process (with_log "logs/vfs.log")).1 = 1%N ∧ max_level (process (with_log "logs/vfs.log")).2 = AtMost LDebug ∧
  f_quota (db_file (process (with_log "logs/vfs.log")).2) = Some {["ann-1" := 40%Z]} ∧
  (process (with_log "/")).1 = 1%N ∧ f_quota (db_file (process (with_log "/")).2) = None.
Proof. vm_compute. done. Qed.

(** What the process knew, and what the next one finds. *)
Definition next_start (h : Host) := start (W := store) (Some "vfs.sqlite") (files h) (db_file h).
Example unsynchronised_totals_are_lost :
  (λ y, live (quota (server_of y)) "ann-1") <$> left (process (with_log "logs/vfs.log")).2 = Some 70%N ∧
  (λ s, live (quota (Snapshots.srv s)) "ann-1") <$> (next_start (process (with_log "logs/vfs.log")).2).1 = Ok 40%N.
Proof. split; vm_compute; reflexivity. Qed.

Lemma process_ends_at_rest_witness :
  ∃ y next f, left (process (with_log "logs/vfs.log")).2 = Some y ∧
    (∀ g, writes (handles y) !! h1 = Some g → h1 ∉ open_writes (handles y)) ∧
    (∃ g, writes (handles y) !! h1 = Some g ∧ wh_expired g = true) ∧
    next_start (process (with_log "logs/vfs.log")).2 = (Ok next, f) ∧
    live (quota (Snapshots.srv next)) "ben-1" = 0%N ∧ live (quota (Snapshots.srv next)) "ann-1" = 40%N.
Proof.
  assert (Hok : is_ok (next_start (process (with_log "logs/vfs.log")).2).1 = true) by (vm_compute; reflexivity).
  assert (Hleft : option_map (λ y, (wh_expired <$> writes (handles y) !! h1, buckets (quota (server_of y)) !! "ben-1",
      live (quota (server_of y)) "ben-1", opt_or 0%N (QuotaState.stored (tracker (quota (server_of y))) "ann-1")))
      (left (process (with_log "logs/vfs.log")).2) = Some (Some true, None, 0%N, 40%N)) by (vm_compute; reflexivity).
  destruct (process (with_log "logs/vfs.log")) as [code h'] eqn:E. cbn [snd] in *.
  destruct (next_start h') as [[next|e] f2] eqn:En; [clear Hok|discriminate Hok].
  destruct (process_ends_at_rest open_append install io_text (λ _, Ok ()) serve serve_quota (with_log "logs/vfs.log") host
    code h' eq_refl E) as [_ H].
  destruct (left h') as [y'|] eqn:El; [|discriminate Hleft].
  destruct H as (y & r & Hy & _ & _ & [Hrest _] & _ & Hnext). injection Hleft as Hw Hb Hl Hst.
  exists y', next, f2. split; [reflexivity|]. split; [intros g; apply Hrest|]. split.
  { apply fmap_Some in Hw as (g & Hg & He). by exists g. }
  split; [reflexivity|]. subst y'. destruct (Hnext _ _ _ _ En) as [_ Hlive].
  destruct (shutdown_rests y) as (_ & _ & Hq & _). rewrite Hq in Hb, Hl, Hst. split.
  - rewrite <-Hl. apply (Hlive "ben-1"). intros c Hc. rewrite Hb in Hc. discriminate Hc.
  - rewrite <-Hst. apply (Hlive "ann-1").
Defined.
End DemoProcess.
